(* ===== verification/_CoqProject ===== *)
-Q . S2P
Prelude.v
GoStrings.v
Outcome.v
Traversal.v
OutcomeFacts.v
Cause.v
CauseFacts.v
Interpreter.v
InterpreterFacts.v
Algebra.v
Effects.v
EffectsFacts.v
Observation.v
Calls.v
Gen.v
GenFacts.v
Chunk.v
Queue.v
QueueFacts.v
Completion.v
Scope.v
Hub.v
Time.v
Cache.v
CacheFacts.v
Rate.v
ConfigError.v
ConfigSource.v
Config.v
ConfigFacts.v
ConfigNumbers.v
Schedule.v
Jitter.v
State.v
RuntimePort.v
Lifetimes.v
Layer.v
Services.v
Runtime.v
Waiting.v
Handles.v
QueueEffects.v
Capabilities.v
Retry.v
Fault.v
Platform.v
Adapters.v
Collections.v
FileCopy.v
Checkout.v
Configured.v
Variables.v
Stream.v
StreamScripts.v
StreamFacts.v
StreamRuns.v
Parallel.v
ParallelFacts.v
Pairs.v
Groups.v
GroupsFacts.v
Workers.v
TestSupport.v
GoSyntax.v
RewriteText.v
RewriteNames.v
RewriteSite.v
RewriteEmitter.v
RewriteWalk.v
RewriteEmit.v
RewriteFile.v
Command.v
RewriteTermination.v
RewriteWitnesses.v
RuntimeWitnesses.v
QueueWitnesses.v
ConcurrencyWitnesses.v
ServiceWitnesses.v
StreamWitnesses.v
HandleWitnesses.v
