(* ===== verification/Prelude.v ===== *)
(** * A verification development for effect-golang

    The program is a Go library of typed effects: a program is a tree of
    instructions ([effect/internal/runtime/node.go]) that an iterative interpreter
    runs, whose failures are trees of causes ([effect/internal/outcome]), over
    lifetime services (scopes, queues, hubs, completions in
    [effect/internal/lifetime]). On these stand the effects a program is written in
    (scopes and layers, forks, references, queues, streams, direct style, retries,
    timeouts), the runtime that runs one, and the services built beside it
    ([effect/env], [effect/cache], [effect/rate], [effect/config], [effect/fault]).
    Beside the library is a tool ([tools/effectgo]) that rewrites bodies in direct
    style into chains of [FlatMap] before the go command compiles them, and a package
    of test support ([effecttest]).

    ** How the model is laid out

    A file per part of the program, and a file of facts beside it where the
    proofs are long. The names are the code's; where Rocq reserves a name or two
    parts share one, a prefix says whose it is.

    - [Prelude] (this file): [int64] and [uint64] as [Z] with their wrap-around,
      Go's [error] values and [errors.Is], zero values as a type class, and loops
      over an explicit state with a bound on their turns ([iterate]) with the
      lemmas by which a loop is shown to finish.
    - [GoStrings]: the part of package [strings] the code uses, on byte strings.
    - [Outcome], [Traversal], [OutcomeFacts]: [internal/outcome]. [Cause] is the
      Go struct, every field in every node, branches possibly nil; [FoldCause] and
      [VisitCause] are the loops of the code on their explicit stacks, and
      [OutcomeFacts] shows them equal to the recursions a reader expects.
      [CombineParallelCauses], [CombineBranchCauses] and [IsInduced] compose the
      outcomes of concurrent branches. [leaves] (the failures of a cause, left to
      right) is the abstract view most theorems are stated in.
    - [Cause], [CauseFacts]: the typed view ([effect/cause.go], [exit.go],
      [erasure.go], the report and the renderer of [cause_report.go] and
      [cause_format.go]). A channel type is an instance of [Erased], whose law is
      that a value survives being carried as [any].
    - [Interpreter], [InterpreterFacts]: [node.go], [interpret.go],
      [interpret_guard.go]. Callbacks are functions in a state-and-panic monad
      [call] over a world the model leaves abstract, so that any side effect, any
      cancellation in the middle of a run and any panic is covered. [Interpret] is
      the code's loop over frames; [denote] is the abstract specification, a
      recursion without a stack, and [Interpret_reference] the refinement between
      them: the loop finishes on every program with the specification's answer.
      [context.Context] is the class [ContextOps], [State] the class [StateOps].
    - [Algebra], [Effects], [EffectsFacts]: products and sums, and the effect
      combinators of [effect.go], [effect_sequential.go], [effect_composition.go],
      [effect_recovery.go] and [finalization.go], translated to instructions as the
      code does and reasoned about through [denote].
    - [Queue], [QueueFacts]: the work queue of [internal/lifetime].
      Every definition is what one call does while it holds the lock, or one
      receive on its own channel; the queue and the waiters' channels are one
      store. [QueueFacts.step] is every interleaving of them, labelled with the
      values that came in, were handed to a call, were lost, and were in what a call
      returned. [config_ok] is the invariant, preserved by every step; [flight] is
      what was handed to calls that have not returned yet.
    - [Hub]: the broadcast hub, a publish as a machine of offers to a snapshot.
    - [Completion]: write-once completions, fibers, and the ledger of live work.
    - [Scope]: [internal/lifetime/scope.go], a close as a machine whose turns
      interleave with registration, forking and interruption.
    - [Schedule], [Jitter]: the recurrence policies of [effect/schedule*.go] as a
      state with a transition, on 64-bit durations and counters. A [float64] is a
      number of the Standard Library's specification of binary64, whose rounding
      [Jitter] bounds.
    - [State]: [internal/runtime/state.go], [events.go] and [spawn.go]: inherited
      metadata, identity counters, events delivered through observers that may
      panic, and the goroutine of a fiber with its deferred calls.
    - [Retry]: [retry.go] and [retry_driver.go]. The loop builds each
      attempt when the one before has failed, so the model unrolls it over an effect
      [beyond] that stands for the rest, and shows when that effect cannot matter.
    - [Collections]: [ForEach] over the effect combinators.
    - [Observation], [Calls], [Variables]: the combinators of
      [effect_observation.go] that change the interpretation; cells of the world
      that effects share (a heap of each type, [Heap], two heaps being
      [HeapsApart]); and the variables a closure captures.
    - [RuntimePort], [Lifetimes], [Layer]: [effect/scope.go] and
      [layer.go]. [RuntimePort] is what lifetimes need of a runtime's state (its
      events, its scopes, its ledger), a class that [State] implements.
    - [Services]: [effect/env], an environment keyed by reflected types.
    - [Gen], [GenFacts]: direct style ([gen.go], [gen_body.go], [interpreter.go]).
      A body is a function of the cells it shares with its interpreter that may
      return, panic or exit its goroutine; [direct] is the programs written in it.
      [Workers]: the goroutines bodies run on ([gen_workers.go]), dispatches, workers
      and idle timers interleaving as a step relation.
    - [Runtime]: options, construction, a run and a close.
    - [Waiting], [Handles], [QueueEffects]: references, deferreds, fiber handles,
      forks, queues, hubs and native channels as effects over the lock sections
      modelled above.
    - [Capabilities]: names, spans, logging, the clock, files and settings as effects.
      [Platform]: the live capabilities over the operating system's calls, the body of a
      main ([process.go]) and the handles over a program's channels ([operations.go],
      [io_operations.go], [task.go]). [Fault], [Adapters]: [effect/fault] and the
      effects of [effect/cache] and [effect/rate].
    - [Chunk], [Stream], [StreamScripts], [StreamFacts], [StreamRuns]: chunks, streams,
      their transforms and sinks. A [Script] is what a stream answers to one pull after
      another; [streams] relates a stream to its script in any world that keeps its
      variables, given what scopes it may be opened in and how it may leave them, and
      [denotes] to the list of values the script comes to. The transforms are proved
      against these and not against each other's code.
    - [Parallel], [ParallelFacts]: [internal/runtime/parallel.go], [parallel_all.go]
      and the resolvers of [concurrency.go], as two step relations: a pair of fibers
      with the select that watches them, and a group of branches with its permits
      and the channel of their completions. [Pairs], [Groups],
      [GroupsFacts]: the effects that start them in a private scope and wait for
      them; a pair's run is shown to be one of the machine's.
    - [Time], [Cache], [CacheFacts]: the LRU of [effect/cache] with its list, its
      map and its index of subjects. A list of entries ordered by recency is the
      specification; [LRU_refines_spec] is the refinement over every sequence of
      operations.
    - [Rate]: the generic cell rate algorithm of [effect/rate/memory.go].
    - [ConfigError], [ConfigSource], [Config], [ConfigFacts], [ConfigNumbers]:
      [effect/config]. A source is what it answers while one description is read; a
      description is a reader and what it expects to read. [built] is the set of
      descriptions the package's constructors make, and [located] (reading beneath a
      path is reading the subtree, with the path in front of the failures) is the
      invariant they all preserve.
    - [TestSupport]: [effecttest]. The manual clock's lock sections with its callers
      interleaving around them, recorders whose slices others may hold, the
      filesystem stub and the fixtures.
    - [FileCopy], [Checkout], [Configured]: three of the programs of [examples],
      built from the effects above as their authors built them: a copy of a file, a
      workflow written both in direct style and as a chain, and settings read by two
      components. [answers] (what an effect that only reads comes to) is the view the
      two styles are compared in.
    - [GoSyntax]: what the rewriter is given, as [go/ast], [go/token] and [go/types]
      have it: nodes with a pointer, a kind, positions and children by field; types
      and objects with their identities; [ast.Inspect]. A tree is [tidy] when its
      children lie in it in order, as the parser lays them out.
    - [RewriteText], [RewriteNames], [RewriteSite], [RewriteEmitter], [RewriteWalk],
      [RewriteEmit], [RewriteFile]: [tools/effectgo/rewrite], a file or two each: the
      splice of edits, fresh names and nameable types, the sites and why one is
      declined, the order steps are hoisted in, the text of a node, statements, branches
      and loops, and a file. The text is specified by [reads], which is said of the
      source alone; [rewritten], on the way to it, follows the recursion of the code.
      What hoisting may not overtake is [observable], and what a file's run does with
      its calls is [rewriting].
      The emitter is a computation in a monad over its state ([M]) whose answer may be
      a panic, or [Exhausted] when a recursion the code leaves unbounded runs out of
      its fuel. [RewriteTermination] shows that none does.
    - [Command]: [main.go], [series.go] and [cache.go] of the tool, over a host of
      files whose operations may fail at any turn; [triple] is the logic its proofs
      are written in.
    - [RuntimeWitnesses], [QueueWitnesses], [ConcurrencyWitnesses],
      [ServiceWitnesses], [StreamWitnesses], [HandleWitnesses],
      [RewriteWitnesses]: concrete runs on which the theorems with hypotheses are
      applied. Those of the rewriter are sketches laid out as trees with their text.

    Two conventions. A Go closure kept in data that the world itself holds (a
    finalizer in a scope, the work of a fiber, the pull of an opened stream) is what
    it captured together with its code, and calling it is an operation of a class
    or a field ([FinalizerOps], [Work], [stream_pull]); the record that makes one
    carries the equation between the two. An operation that blocks is a partial
    function of the world, and [Waiting] says how others may change the world before
    it can go on, or that it waits for ever ([wait_ends] is what a theorem assumes
    to conclude that a call returns).

    ** What the theorems show

    Refinement of an optimised routine by a reference: the interpreter, the cause fold,
    visit and renderer, the cache; of streams by lists, of direct style by sequencing,
    of queue effects by the queue's lock sections, of a pair of effects by the machine
    of its branches, of the rewriter's text by a reading of the source part by part.
    Typing: what an environment holds fits the type it is found by. Lifetimes: a scope,
    a layer and a runtime release what was registered with them however their work
    ended, a resource is registered in the step that yields it, a fork has an owner.
    Safety under every interleaving: the queue keeps order, its calls return what was
    handed to them and nothing is lost that is not accounted for; a scope runs its
    finalizers once, in reverse and only after its children, and leaves what these calls
    leave; a pair of branches is awaited and cancelled exactly as its policy says, and
    what a composition leaves out of its cause is only what it induced; a group never
    exceeds its limit, a body in direct style is run once and never queued, a manual
    clock wakes a sleep exactly when it is due. The rewriter: what it accepts it has a
    translation for, every use of the body's parameter belongs to a step it
    translates, steps are hoisted in the order Go evaluates them and past nothing a step may
    observe, the names it makes up are nobody's, every body is rewritten or declined and
    the file's edits are the outermost texts; and the command around it touches no
    source, whatever fails. Whole programs: the two styles of a workflow come to one
    outcome, a copy writes once and only what was read, a program's defaults leave
    nothing missing and its password shows in nothing it prints. Termination: the
    interpreter, the traversals, a scope's close, a hub's publish, loading settings, a
    fiber, the rewrite of any file, and parallel compositions from any point of their
    run. Error paths: panics of callbacks, finalizers and hooks, induced interruptions,
    refused and missing settings. Bounds: backoff delays, jittered delays in binary64,
    rate spacing, parsed numbers, the cache's and the queue's sizes. Some theorems
    describe behaviour that the code's comments do not promise: a failure recovered
    under a done context, a burst beyond a rate, a table at the root of a flat map, a
    fiber's recovery that does not recover, a nested cancellation that is lost, a
    success lost to a hook that panics, a failing clock that is dropped, a literal whose
    returns the rewriter takes for the body's, an infinite jitter.

    ** Bounds and fuel

    [iterate] is given a number of turns; each loop is proved to finish within one
    computed from its input ([FoldCause]: one turn a leaf and two a composite; [VisitCause]:
    one turn a node; a close: its finalizers and four; a drain: its limit), and
    [Interpret] within some number, after which more changes nothing. Durations and
    counters wrap at 64 bits where the code computes with them; [time.Time] is an
    unbounded instant.

    A sink of a stream and a retry build their next effect when the last one has
    succeeded; both are unrolled to a fuel over an effect that stands for the rest,
    and the theorems say from which fuel on that effect does not matter.

    The rewriter's recursions are given what they can at most use: the sizes of the
    nodes they work on (a translated list counts the statements after it as well, a
    statement split from its init counts without it), and for a fresh name one more
    than the names taken. [RewriteTermination.File_terminates] is that this is enough
    on every file.

    ** What is not modelled

    The example programs whose outcome is an interplay of several fibers, whose parts
    are modelled above, and the command that runs the examples; of the test support the
    helpers that take a [testing.TB]; the methods by which a handle repeats an effect of
    another file; the exit of the process. That a fresh private scope accepts its
    branches is a hypothesis of the theorems on their compositions, as is that nobody
    else holds the fibers. The operating system, the go command and the package loader
    are parameters of [Platform] and [Command], and so are the hash and the JSON
    encoder; parsing and type checking are what [GoSyntax] describes their results as.
    That what the rewriter emits behaves as the body it replaces is shown of its parts
    (the order of steps, the uses of the parameter, the text) and not of the program the
    text denotes, for which there would have to be a semantics of Go.
    [strconv.ParseFloat] and [time.ParseDuration] are parameters of the descriptions
    that use them; what [fmt] prints for an erased value is a parameter of the renderer,
    and a reflected type a key with the name it prints. A [float64] expression is
    rounded operation by operation, which Go does where it does not fuse a product with
    a sum. *)

From stdpp Require Export base tactics numbers list option strings.
From stdpp Require Export gmap.

(** * Machine integers

    Go's [int64] (and [time.Duration], [int] on the supported 64-bit targets)
    and [uint64] as [Z] with their wrap-around written out. *)

Definition int64_min : Z := (- 2 ^ 63)%Z.
Definition int64_max : Z := (2 ^ 63 - 1)%Z.
Definition uint64_max : Z := (2 ^ 64 - 1)%Z.

Definition wrap64 (z : Z) : Z := ((z + 2 ^ 63) mod 2 ^ 64 - 2 ^ 63)%Z.
Definition wrapu64 (z : Z) : Z := (z mod 2 ^ 64)%Z.

Definition is_int64 (z : Z) : Prop := (int64_min <= z <= int64_max)%Z.
Definition is_uint64 (z : Z) : Prop := (0 <= z <= uint64_max)%Z.

Lemma wrap64_id (z : Z) : is_int64 z -> wrap64 z = z.
Proof.
  unfold is_int64, wrap64, int64_min, int64_max. intros H.
  rewrite Z.mod_small by lia. lia.
Qed.

Lemma wrap64_range (z : Z) : is_int64 (wrap64 z).
Proof.
  unfold is_int64, wrap64, int64_min, int64_max.
  pose proof (Z.mod_pos_bound (z + 2 ^ 63) (2 ^ 64)). lia.
Qed.

Lemma wrapu64_id (z : Z) : is_uint64 z -> wrapu64 z = z.
Proof.
  unfold is_uint64, wrapu64, uint64_max. intros H. apply Z.mod_small. lia.
Qed.

(** * Errors

    A Go [error] value: an identity (what [==] compares, as for the pointer
    [errors.New] returns), its text, and the errors [Unwrap] reports. [nil] is
    [None] wherever the code uses a nil [error]. *)

Inductive error : Type :=
| MkError (identity : Z) (text : string) (wraps : list error).

Definition error_identity (e : error) : Z := let 'MkError i _ _ := e in i.
Definition error_text (e : error) : string := let 'MkError _ t _ := e in t.
Definition error_wraps (e : error) : list error := let 'MkError _ _ w := e in w.

(** [errors.Is]: the error itself or anything it wraps, depth first. *)
Fixpoint errors_is (e target : error) : bool :=
  let 'MkError i _ w := e in
  orb (i =? error_identity target)%Z
    ((fix any_is (l : list error) : bool :=
        match l with
        | [] => false
        | e' :: l' => orb (errors_is e' target) (any_is l')
        end) w).

(** [errors.Is] on possibly-nil errors: a nil error is only a nil target. *)
Definition errors_is_nil (e target : option error) : bool :=
  match e, target with
  | None, None => true
  | Some e', Some t => errors_is e' t
  | _, _ => false
  end.

Lemma errors_is_refl (e : error) : errors_is e e = true.
Proof. destruct e as [i t w]. simpl. by rewrite Z.eqb_refl. Qed.

(** * Zero values *)

(** [var zero A]. *)
Class Zero (A : Type) : Type := zero : A.
Arguments zero A {_}.
#[export] Instance zero_Z : Zero Z := 0%Z.
#[export] Instance zero_bool : Zero bool := false.
#[export] Instance zero_string : Zero string := EmptyString.
#[export] Instance zero_unit : Zero unit := tt.
#[export] Instance zero_list A : Zero (list A) := [].
#[export] Instance zero_option A : Zero (option A) := None.

(** * Loops

    A Go [for] loop over an explicit state: [step] either continues with a new
    state or leaves the loop with a result. *)
Section Loop.
  Context {S R : Type} (step : S -> S + R).

Fixpoint iterate (fuel : nat) (s : S) : option R :=
  match fuel with
  | O => None
  | Datatypes.S n =>
      match step s with
      | inl s' => iterate n s'
      | inr r => Some r
      end
  end.

Inductive reaches : nat -> S -> S -> Prop :=
| reaches_here s : reaches 0 s s
| reaches_next n s s' s'' :
    step s = inl s' -> reaches n s' s'' -> reaches (Datatypes.S n) s s''.

Lemma reaches_trans n m s1 s2 s3 :
  reaches n s1 s2 -> reaches m s2 s3 -> reaches (n + m) s1 s3.
Proof. induction 1; simpl; intros; [done | econstructor; eauto]. Qed.

Lemma reaches_one s s' : step s = inl s' -> reaches 1 s s'.
Proof. intros H. eapply reaches_next; [exact H | constructor]. Qed.

Lemma iterate_reaches n m s s' :
  reaches n s s' -> iterate (n + m) s = iterate m s'.
Proof. induction 1 as [|n s s' s'' Hs _ IH]; simpl; [done | by rewrite Hs]. Qed.

Lemma iterate_more n m s r :
  iterate n s = Some r -> n <= m -> iterate m s = Some r.
Proof.
  revert m s. induction n as [|n IH]; intros m s H Hle; [done|].
  destruct m as [|m]; [lia|]. simpl in *.
  destruct (step s); [|done]. apply IH; [done | lia].
Qed.

Lemma iterate_finish n m s s' r :
  reaches n s s' -> step s' = inr r -> n < m -> iterate m s = Some r.
Proof.
  intros Hr Hs Hlt. apply (iterate_more (n + 1)); [|lia].
  rewrite (iterate_reaches _ _ _ _ Hr). simpl. by rewrite Hs.
Qed.

Lemma iterate_det n m s r r' :
  iterate n s = Some r -> iterate m s = Some r' -> r = r'.
Proof.
  intros H1 H2.
  assert (Some r = Some r') as [= ->]; [|done].
  rewrite <- (iterate_more n (n `max` m) s r), <- (iterate_more m (n `max` m) s r');
    [done | done | lia | done | lia].
Qed.
End Loop.

Create HintDb go.
#[export] Hint Constructors reaches : go.
