(* ===== verification/GoStrings.v ===== *)
(** The functions of Go's [strings] package the repository uses, on byte
    strings, and the laws the components rely on. Case mapping and white space
    are ASCII: the names and values the code compares this way are ASCII. *)

From S2P Require Import Prelude.
From Stdlib Require Import Ascii.

(** * Definitions *)

Definition quote : string := String (ascii_of_nat 34) EmptyString.
Definition newline : string := String (ascii_of_nat 10) EmptyString.

Fixpoint drop_bytes (n : nat) (s : string) : string :=
  match n, s with
  | O, _ => s
  | S n', String _ s' => drop_bytes n' s'
  | S _, EmptyString => EmptyString
  end.

(** [strings.HasPrefix] *)
Fixpoint HasPrefix (s prefix : string) : bool :=
  match prefix, s with
  | EmptyString, _ => true
  | String a prefix', String b s' => bool_decide (a = b) && HasPrefix s' prefix'
  | _, _ => false
  end.

(** [strings.TrimPrefix] *)
Definition TrimPrefix (s prefix : string) : string :=
  if HasPrefix s prefix then drop_bytes (String.length prefix) s else s.

(** [strings.TrimSuffix] for a one-byte suffix. *)
Fixpoint TrimSuffixByte (s : string) (b : ascii) : string :=
  match s with
  | EmptyString => EmptyString
  | String a EmptyString => if bool_decide (a = b) then EmptyString else s
  | String a s' => String a (TrimSuffixByte s' b)
  end.

(** [strings.TrimRight] for a one-byte cutset. *)
Fixpoint TrimRightByte (s : string) (b : ascii) : string :=
  match s with
  | EmptyString => EmptyString
  | String a s' =>
      match TrimRightByte s' b with
      | EmptyString => if bool_decide (a = b) then EmptyString else String a EmptyString
      | s'' => String a s''
      end
  end.

(** [strings.Cut]: around the first separator. *)
Fixpoint Cut (s sep : string) : string * string * bool :=
  if HasPrefix s sep then (EmptyString, drop_bytes (String.length sep) s, true)
  else match s with
       | EmptyString => (EmptyString, EmptyString, false)
       | String a s' =>
           let '(before, after, found) := Cut s' sep in (String a before, after, found)
       end.

(** [strings.Split]: one [Cut] per piece. *)
Fixpoint split_fuel (fuel : nat) (s sep : string) : list string :=
  match fuel with
  | O => [s]
  | S n =>
      let '(before, after, found) := Cut s sep in
      if found then before :: split_fuel n after sep else [s]
  end.

(** An empty separator splits between all bytes. *)
Fixpoint explode (s : string) : list string :=
  match s with
  | EmptyString => []
  | String a s' => String a EmptyString :: explode s'
  end.

Definition Split (s sep : string) : list string :=
  if bool_decide (sep = EmptyString) then explode s
  else split_fuel (S (String.length s)) s sep.

(** [strings.Join] *)
Fixpoint Join (elems : list string) (sep : string) : string :=
  match elems with
  | [] => EmptyString
  | [s] => s
  | s :: rest => (s ++ sep ++ Join rest sep)%string
  end.

(** [strings.Repeat] for a non-negative count. *)
Fixpoint Repeat (s : string) (count : nat) : string :=
  match count with
  | O => EmptyString
  | S n => (s ++ Repeat s n)%string
  end.

Definition ascii_in (lo hi : nat) (a : ascii) : bool :=
  (lo <=? nat_of_ascii a)%nat && (nat_of_ascii a <=? hi)%nat.

Definition to_upper_byte (a : ascii) : ascii :=
  if ascii_in 97 122 a then ascii_of_nat (nat_of_ascii a - 32) else a.
Definition to_lower_byte (a : ascii) : ascii :=
  if ascii_in 65 90 a then ascii_of_nat (nat_of_ascii a + 32) else a.

Fixpoint map_string (f : ascii -> ascii) (s : string) : string :=
  match s with
  | EmptyString => EmptyString
  | String a s' => String (f a) (map_string f s')
  end.

(** [strings.ToUpper], [strings.ToLower] *)
Definition ToUpper (s : string) : string := map_string to_upper_byte s.
Definition ToLower (s : string) : string := map_string to_lower_byte s.

(** Tab, newline, vertical tab, form feed, carriage return and space. *)
Definition is_space (a : ascii) : bool :=
  ascii_in 9 13 a || bool_decide (nat_of_ascii a = 32).

Fixpoint trim_left (s : string) : string :=
  match s with
  | EmptyString => EmptyString
  | String a s' => if is_space a then trim_left s' else s
  end.

Fixpoint trim_right (s : string) : string :=
  match s with
  | EmptyString => EmptyString
  | String a s' =>
      match trim_right s' with
      | EmptyString => if is_space a then EmptyString else String a EmptyString
      | s'' => String a s''
      end
  end.

(** [strings.TrimSpace] *)
Definition TrimSpace (s : string) : string := trim_right (trim_left s).

(** Unsigned decimal rendering, as [fmt]'s [%d]. *)
Definition digit (n : Z) : ascii := ascii_of_nat (48 + Z.to_nat n).

Fixpoint decimal_fuel (fuel : nat) (z : Z) (acc : string) : string :=
  match fuel with
  | O => acc
  | S n =>
      let acc := String (digit (z mod 10)) acc in
      if (z <? 10)%Z then acc else decimal_fuel n (z / 10) acc
  end.

Definition decimal (z : Z) : string :=
  if (z <? 0)%Z
  then ("-" ++ decimal_fuel (S (Z.to_nat (Z.log2 (- z)))) (- z) EmptyString)%string
  else decimal_fuel (S (Z.to_nat (Z.log2 z))) z EmptyString.

(** * Laws *)

Lemma string_app_cons x (a b : string) : (String x a ++ b = String x (a ++ b))%string.
Proof. done. Qed.

Lemma string_app_nil_l (a : string) : (EmptyString ++ a = a)%string.
Proof. done. Qed.

Lemma string_app_assoc (a b c : string) : ((a ++ b) ++ c = a ++ (b ++ c))%string.
Proof.
  induction a as [|x a IH]; [done|]. by rewrite !string_app_cons, IH.
Qed.

Lemma string_app_nil_r (a : string) : (a ++ EmptyString)%string = a.
Proof. induction a as [|x a IH]; [done|]. by rewrite string_app_cons, IH. Qed.

Lemma string_length_app (a b : string) :
  String.length (a ++ b) = String.length a + String.length b.
Proof.
  induction a as [|x a IH]; [done|]. rewrite string_app_cons. simpl. by rewrite IH.
Qed.

Lemma HasPrefix_app p s : HasPrefix (p ++ s) p = true.
Proof.
  induction p as [|a p IH]; [by destruct s|]. rewrite string_app_cons. simpl.
  by rewrite bool_decide_true.
Qed.

Lemma drop_bytes_app p s : drop_bytes (String.length p) (p ++ s) = s.
Proof. induction p as [|a p IH]; [by destruct s|]. by rewrite string_app_cons. Qed.

Lemma HasPrefix_spec s p :
  HasPrefix s p = true <-> s = (p ++ drop_bytes (String.length p) s)%string.
Proof.
  split.
  - revert s. induction p as [|a p IH]; intros s; [done|].
    destruct s as [|b s]; [done|]. simpl.
    intros [->%bool_decide_eq_true H]%andb_prop. rewrite string_app_cons. f_equal. by apply IH.
  - intros ->. apply HasPrefix_app.
Qed.

Lemma TrimPrefix_app p s : TrimPrefix (p ++ s) p = s.
Proof. unfold TrimPrefix. by rewrite HasPrefix_app, drop_bytes_app. Qed.

Lemma Cut_cons a s sep :
  Cut (String a s) sep =
  if HasPrefix (String a s) sep
  then (EmptyString, drop_bytes (String.length sep) (String a s), true)
  else let '(before, after, found) := Cut s sep in (String a before, after, found).
Proof. done. Qed.

(** A separator found is cut out and nothing else is. *)
Lemma Cut_found s sep before after :
  Cut s sep = (before, after, true) -> s = (before ++ sep ++ after)%string.
Proof.
  revert before. induction s as [|a s IH]; intros before.
  - destruct sep; [|done]. by intros [= <- <-].
  - rewrite Cut_cons. destruct (HasPrefix (String a s) sep) eqn:Hp.
    + intros [= <- <-]. apply HasPrefix_spec in Hp. exact Hp.
    + destruct (Cut s sep) as [[b' a'] f'] eqn:Hc. intros [= <- <- ->].
      rewrite string_app_cons. f_equal. by apply IH.
Qed.

Lemma Cut_length s sep before after :
  sep <> EmptyString -> Cut s sep = (before, after, true) ->
  String.length after < String.length s.
Proof.
  intros Hs ->%Cut_found. rewrite !string_length_app.
  destruct sep; [done | simpl; lia].
Qed.

Lemma split_fuel_cons n s sep : split_fuel n s sep <> [].
Proof. destruct n; simpl; [done|]. by destruct (Cut s sep) as [[??] []]. Qed.

(** Joining the pieces of a split gives the text back. *)
Lemma Join_split_fuel n s sep : Join (split_fuel n s sep) sep = s.
Proof.
  revert s. induction n as [|n IH]; intros s; simpl; [done|].
  destruct (Cut s sep) as [[before after] []] eqn:Hc; [|done].
  apply Cut_found in Hc as ->. specialize (IH after).
  pose proof (split_fuel_cons n after sep).
  destruct (split_fuel n after sep) as [|x l]; [done|].
  transitivity (before ++ sep ++ Join (x :: l) sep)%string; [done | by rewrite IH].
Qed.

Lemma Join_explode s : Join (explode s) EmptyString = s.
Proof.
  induction s as [|a s IH]; [done|]. destruct s as [|b s]; [done|].
  transitivity (String a EmptyString ++ EmptyString ++ Join (explode (String b s)) EmptyString)%string;
    [done | by rewrite IH].
Qed.

Lemma Join_Split s sep : Join (Split s sep) sep = s.
Proof.
  unfold Split. case_bool_decide as Hs; [subst; apply Join_explode | apply Join_split_fuel].
Qed.

Lemma Join_cons_cons x y l sep :
  Join (x :: y :: l) sep = (x ++ sep ++ Join (y :: l) sep)%string.
Proof. done. Qed.

Lemma map_string_app f a b :
  map_string f (a ++ b) = (map_string f a ++ map_string f b)%string.
Proof.
  induction a as [|x a IH]; [done|]. rewrite string_app_cons. simpl.
  by rewrite string_app_cons, IH.
Qed.

Lemma ToUpper_idem s : ToUpper (ToUpper s) = ToUpper s.
Proof.
  unfold ToUpper. induction s as [|a s IH]; simpl; [done|]. rewrite IH. f_equal.
  by destruct a as [[] [] [] [] [] [] [] []].
Qed.
