(* ===== verification/Outcome.v ===== *)
(** How a terminated effect is modelled: the erased cause tree, its
    composition and traversals, exits and their classification
    ([effect/internal/outcome]). *)

From S2P Require Import Prelude.

(** * Causes ([cause.go]) *)

Inductive CauseKind : Type :=
| CauseEmpty
| CauseFailure
| CauseDefect
| CauseInterrupt
| CauseThen
| CauseBoth.

#[export] Instance CauseKind_eq_dec : EqDecision CauseKind.
Proof. solve_decision. Defined.

(** [CauseKind.String]; the numbered default is only reached by a value
    outside the enumeration. *)
Definition CauseKind_String (kind : CauseKind) : string :=
  match kind with
  | CauseEmpty => "Empty"
  | CauseFailure => "Fail"
  | CauseDefect => "Die"
  | CauseInterrupt => "Interrupt"
  | CauseThen => "Then"
  | CauseBoth => "Both"
  end.

(** Where a failure came from; the empty string is "not known". *)
Record Origin : Type := MkOrigin { Source : string; Operation : string }.

#[export] Instance Origin_eq_dec : EqDecision Origin.
Proof. solve_decision. Defined.

#[export] Instance zero_Origin : Zero Origin := MkOrigin EmptyString EmptyString.

Definition Origin_IsKnown (origin : Origin) : bool :=
  negb (bool_decide (Source origin = EmptyString))
  || negb (bool_decide (Operation origin = EmptyString)).

Definition Origin_String (origin : Origin) : string :=
  if negb (bool_decide (Source origin = EmptyString))
     && negb (bool_decide (Operation origin = EmptyString))
  then (Source origin ++ " in " ++ Operation origin)%string
  else if negb (bool_decide (Source origin = EmptyString))
  then Source origin
  else Operation origin.

(** Field by field: whatever [origin] does not know is taken from [other]. *)
Definition fillFrom (origin other : Origin) : Origin :=
  MkOrigin
    (if bool_decide (Source origin = EmptyString) then Source other else Source origin)
    (if bool_decide (Operation origin = EmptyString)
     then Operation other else Operation origin).

(** An interruption records the cancellation cause the runtime observed. *)
Record Interruption : Type := MkInterruption { Interruption_Cause : option error }.

#[export] Instance zero_Interruption : Zero Interruption := MkInterruption None.

(** Everything that carries an erased value is indexed by [V], the type of
    non-nil dynamic values; Go's [any] is [option V] with [None] the nil
    interface. *)
Record Defect (V : Type) : Type := MkDefect { Defect_Value : option V; Stack : string }.
Arguments MkDefect {V} _ _.
Arguments Defect_Value {V} _.
Arguments Stack {V} _.

#[export] Instance zero_Defect V : Zero (Defect V) := MkDefect None EmptyString.

(** The struct as the code has it: every field present in every node, and
    either branch possibly missing. *)
Inductive Cause (V : Type) : Type :=
| MkCause
    (Kind : CauseKind)
    (Failure : option V)
    (Defect' : Defect V)
    (Interruption' : Interruption)
    (Origin' : Origin)
    (Left : option (Cause V))
    (Right : option (Cause V)).
Arguments MkCause {V} _ _ _ _ _ _ _.

Section Causes.
  Context {V : Type}.
  Implicit Types c : Cause V.

Definition Kind c : CauseKind := let 'MkCause k _ _ _ _ _ _ := c in k.
Definition Failure c : option V := let 'MkCause _ f _ _ _ _ _ := c in f.
Definition Cause_Defect c : Defect V := let 'MkCause _ _ d _ _ _ _ := c in d.
Definition Cause_Interruption c : Interruption :=
  let 'MkCause _ _ _ i _ _ _ := c in i.
Definition Cause_Origin c : Origin := let 'MkCause _ _ _ _ o _ _ := c in o.
Definition Left c : option (Cause V) := let 'MkCause _ _ _ _ _ l _ := c in l.
Definition Right c : option (Cause V) := let 'MkCause _ _ _ _ _ _ r := c in r.

(** [Cause{}] *)
Definition zeroCause : Cause V :=
  MkCause CauseEmpty None (zero (Defect V)) (zero Interruption) (zero Origin) None None.

#[export] Instance zero_Cause : Zero (Cause V) := zeroCause.

(** [WithOrigin]: record where a failure came from on the leaves that do not
    have it yet. *)
Fixpoint WithOriginKnown (origin : Origin) (c : Cause V) : Cause V :=
  let 'MkCause k f d i o l r := c in
  match k with
  | CauseEmpty => c
  | CauseThen | CauseBoth =>
      MkCause k f d i o
        (match l with None => None | Some l' => Some (WithOriginKnown origin l') end)
        (match r with None => None | Some r' => Some (WithOriginKnown origin r') end)
  | _ => MkCause k f d i (fillFrom o origin) l r
  end.

Definition WithOrigin (c : Cause V) (origin : Origin) : Cause V :=
  if Origin_IsKnown origin then WithOriginKnown origin c else c.

Definition FailCause (failure : option V) : Cause V :=
  MkCause CauseFailure failure (zero (Defect V)) (zero Interruption) (zero Origin) None None.

Definition DieCause (defect : Defect V) : Cause V :=
  MkCause CauseDefect None defect (zero Interruption) (zero Origin) None None.

Definition InterruptCause (reason : option error) : Cause V :=
  MkCause CauseInterrupt None (zero (Defect V)) (MkInterruption reason) (zero Origin) None None.

Definition IsEmpty (c : Cause V) : bool := bool_decide (Kind c = CauseEmpty).

Definition compose (kind : CauseKind) (c that : Cause V) : Cause V :=
  if IsEmpty c then that
  else if IsEmpty that then c
  else MkCause kind None (zero (Defect V)) (zero Interruption) (zero Origin)
         (Some c) (Some that).

Definition Then (c that : Cause V) : Cause V := compose CauseThen c that.
Definition Both (c that : Cause V) : Cause V := compose CauseBoth c that.

(** A missing branch reads as the empty cause. *)
Definition Child (branch : option (Cause V)) : Cause V :=
  match branch with None => zeroCause | Some c => c end.

(** [CaptureDefect]: the recovered panic value and the stack the runtime
    captures there, which is an input of the model. *)
Definition CaptureDefect (value : option V) (stack : string) : Defect V :=
  MkDefect value stack.

End Causes.

(** * Exits ([exit.go]) *)

Record Exit (V : Type) : Type := MkExit {
  exit_cause : Cause V;
  exit_value : option V;
  exit_success : bool
}.
Arguments MkExit {V} _ _ _.
Arguments exit_cause {V} _.
Arguments exit_value {V} _.
Arguments exit_success {V} _.

Section Exits.
  Context {V : Type}.

#[export] Instance zero_Exit : Zero (Exit V) := MkExit zeroCause None false.

Definition ExitSuccess (value : option V) : Exit V := MkExit zeroCause value true.
Definition ExitFailure (cause : Cause V) : Exit V := MkExit cause None false.
Definition IsSuccess (x : Exit V) : bool := exit_success x.
Definition ExitValue (x : Exit V) : option V := exit_value x.
Definition ExitCause (x : Exit V) : Cause V := exit_cause x.

End Exits.
