(* ===== verification/Traversal.v ===== *)
(** Traversals of a cause tree with explicit stacks, and the compositions and
    classifications built on them ([effect/internal/outcome/traversal.go],
    [parallel_causes.go], [status.go]). *)

From S2P Require Import Prelude Outcome.

(** * Traversals *)

Record CauseFolder (V A : Type) : Type := MkFolder {
  fold_Empty : unit -> A;
  fold_Failure : option V -> A;
  fold_Defect : Defect V -> A;
  fold_Interruption : Interruption -> A;
  fold_Then : A -> A -> A;
  fold_Both : A -> A -> A
}.
Arguments MkFolder {V A} _ _ _ _ _ _.
Arguments fold_Empty {V A} _ _.
Arguments fold_Failure {V A} _ _.
Arguments fold_Defect {V A} _ _.
Arguments fold_Interruption {V A} _ _.
Arguments fold_Then {V A} _ _ _.
Arguments fold_Both {V A} _ _ _.

Inductive foldStage : Type := evaluateNode | combineResults.

Section Traversal.
  Context {V : Type}.
  Implicit Types c : Cause V.

Section Fold.
  Context {A : Type} (folder : CauseFolder V A).

Definition foldLeaf (leaf : Cause V) : A :=
  match Kind leaf with
  | CauseFailure => fold_Failure folder (Failure leaf)
  | CauseDefect => fold_Defect folder (Cause_Defect leaf)
  | CauseInterrupt => fold_Interruption folder (Cause_Interruption leaf)
  | _ => fold_Empty folder tt
  end.

Definition combineFolds (kind : CauseKind) (left right : A) : A :=
  if bool_decide (kind = CauseThen) then fold_Then folder left right
  else fold_Both folder left right.

(** The loop's two slices, each as a list with its last element first. *)
Record fold_frame : Type := MkFoldFrame { ff_cause : Cause V; ff_stage : foldStage }.

(** One turn of the loop. [inr None] is an index out of range. *)
Definition fold_step (st : list fold_frame * list A)
    : (list fold_frame * list A) + option A :=
  match st with
  | ([], results) => inr (last results)
  | (current :: frames, results) =>
      match ff_stage current with
      | combineResults =>
          match results with
          | result_right :: result_left :: rest =>
              inl (frames, combineFolds (Kind (ff_cause current)) result_left result_right :: rest)
          | _ => inr None
          end
      | evaluateNode =>
          match Kind (ff_cause current) with
          | CauseThen | CauseBoth =>
              inl (MkFoldFrame (Child (Left (ff_cause current))) evaluateNode
                   :: MkFoldFrame (Child (Right (ff_cause current))) evaluateNode
                   :: MkFoldFrame (ff_cause current) combineResults
                   :: frames, results)
          | _ => inl (frames, foldLeaf (ff_cause current) :: results)
          end
      end
  end.

(** Turns one node costs: a composite is visited twice. *)
Fixpoint fold_cost (c : Cause V) : nat :=
  let 'MkCause k _ _ _ _ l r := c in
  match k with
  | CauseThen | CauseBoth =>
      S ((match l with None => 1 | Some l' => fold_cost l' end)
         + ((match r with None => 1 | Some r' => fold_cost r' end) + 1))
  | _ => 1
  end.

Definition FoldCause (root : Cause V) : option A :=
  default None
    (iterate fold_step (S (fold_cost root)) ([MkFoldFrame root evaluateNode], [])).

(** The recursive fold the loop stands for. *)
Fixpoint fold_reference (c : Cause V) : A :=
  let 'MkCause k _ _ _ _ l r := c in
  match k with
  | CauseThen | CauseBoth =>
      combineFolds k
        (match l with None => fold_Empty folder tt | Some l' => fold_reference l' end)
        (match r with None => fold_Empty folder tt | Some r' => fold_reference r' end)
  | _ => foldLeaf c
  end.
End Fold.

Section Visit.
  Context {S : Type} (visit : Cause V -> S -> bool * S).

(** The loop of [VisitCause] with the state its callback closes over. *)
Definition visit_step (st : list (Cause V) * S) : (list (Cause V) * S) + S :=
  match st with
  | ([], s) => inr s
  | (node :: stack, s) =>
      let '(continue, s') := visit node s in
      if continue then
        let stack := match Right node with None => stack | Some r => r :: stack end in
        let stack := match Left node with None => stack | Some l => l :: stack end in
        inl (stack, s')
      else inr s'
  end.

Fixpoint cause_size (c : Cause V) : nat :=
  let 'MkCause _ _ _ _ _ l r := c in
  Datatypes.S
    ((match l with None => 0 | Some l' => cause_size l' end)
     + (match r with None => 0 | Some r' => cause_size r' end)).

Definition VisitCause (root : Cause V) (s : S) : S :=
  default s (iterate visit_step (Datatypes.S (cause_size root)) ([root], s)).

(** The nodes of a tree, parent before left before right. *)
Fixpoint preorder (c : Cause V) : list (Cause V) :=
  let 'MkCause _ _ _ _ _ l r := c in
  c :: (match l with None => [] | Some l' => preorder l' end)
    ++ (match r with None => [] | Some r' => preorder r' end).

(** Visiting a list until the callback answers false. *)
Fixpoint visit_list (nodes : list (Cause V)) (s : S) : bool * S :=
  match nodes with
  | [] => (true, s)
  | node :: rest =>
      let '(continue, s') := visit node s in
      if continue then visit_list rest s' else (false, s')
  end.
End Visit.

Definition leftOf (root : Cause V) : Cause V :=
  match Left root with None => zeroCause | Some l => l end.

Definition rightOf (root : Cause V) : Cause V :=
  match Right root with None => zeroCause | Some r => r end.

Definition composeLike (root left right : Cause V) : Cause V :=
  if bool_decide (Kind root = CauseBoth) then Both left right else Then left right.

Definition set_Origin (c : Cause V) (o : Origin) : Cause V :=
  let 'MkCause k f d i _ l r := c in MkCause k f d i o l r.

(** [MapCauseFailure]: the recursion on [leftOf]/[rightOf] with the missing
    branch's result, the zero cause, written in place. *)
Fixpoint MapCauseFailure (root : Cause V) (transform : option V -> option V) : Cause V :=
  let 'MkCause k f d i o l r := root in
  match k with
  | CauseEmpty => zeroCause
  | CauseFailure => set_Origin (FailCause (transform f)) o
  | CauseDefect => DieCause d
  | CauseInterrupt => set_Origin (InterruptCause (Interruption_Cause i)) o
  | _ =>
      composeLike root
        (match l with None => zeroCause | Some l' => MapCauseFailure l' transform end)
        (match r with None => zeroCause | Some r' => MapCauseFailure r' transform end)
  end.

Definition defectFolder : CauseFolder V (Cause V) :=
  MkFolder
    (fun _ => zeroCause)
    (fun failure => DieCause (MkDefect failure EmptyString))
    DieCause
    (fun interruption => InterruptCause (Interruption_Cause interruption))
    Then Both.

Definition FailuresAsDefects (root : Cause V) : Cause V :=
  default zeroCause (FoldCause defectFolder root).

(** * Parallel composition ([parallel_causes.go]) *)

Definition induced_visitor (reason : option error) (node : Cause V) (induced : bool)
    : bool * bool :=
  let induced :=
    match Kind node with
    | CauseThen | CauseBoth => induced
    | CauseInterrupt =>
        induced && errors_is_nil (Interruption_Cause (Cause_Interruption node)) reason
    | _ => false
    end in
  (induced, induced).

Definition IsInduced (cause : Cause V) (reason : option error) : bool :=
  if IsEmpty cause || match reason with None => true | Some _ => false end then false
  else VisitCause (induced_visitor reason) cause true.

Inductive Side : Type := NeitherSide | LeftSide | RightSide.

#[export] Instance Side_eq_dec : EqDecision Side.
Proof. solve_decision. Defined.

Record PairOutcome : Type := MkPair {
  pair_Left : Exit V;
  pair_Right : Exit V;
  pair_First : Side
}.

Definition CombineParallelCauses (outcome : PairOutcome) (cancelReason : option error)
    : Cause V :=
  let left := ExitCause (pair_Left outcome) in
  let right := ExitCause (pair_Right outcome) in
  if IsInduced right cancelReason then left
  else if IsInduced left cancelReason then right
  else Both left right.

Definition CombineBranchCauses (exits : list (Exit V)) (cancelReason : option error)
    : Cause V :=
  foldl (fun result exit =>
           let cause := ExitCause exit in
           if IsInduced cause cancelReason then result else Both result cause)
    zeroCause exits.

(** * Classification ([status.go]) *)

Inductive EventStatus : Type :=
| EventStatusNone
| EventStatusSuccess
| EventStatusFailure
| EventStatusDefect
| EventStatusInterrupted.

#[export] Instance EventStatus_eq_dec : EqDecision EventStatus.
Proof. solve_decision. Defined.

Definition status_visitor (node : Cause V) (status : EventStatus) : bool * EventStatus :=
  match Kind node with
  | CauseDefect => (false, EventStatusDefect)
  | CauseInterrupt => (true, EventStatusInterrupted)
  | _ => (true, status)
  end.

Definition CauseStatus (cause : Cause V) : EventStatus :=
  VisitCause status_visitor cause EventStatusFailure.

Definition ExitStatus (exit : Exit V) : EventStatus :=
  if IsSuccess exit then EventStatusSuccess else CauseStatus (ExitCause exit).

Definition CleanupStatus (cleanup : Cause V) : EventStatus :=
  if IsEmpty cleanup then EventStatusSuccess else CauseStatus cleanup.

End Traversal.
Arguments PairOutcome : clear implicits.
