(* ===== verification/OutcomeFacts.v ===== *)
(** Correctness of the cause tree: the explicit-stack traversals agree with
    their recursive references, composition keeps a well-formed tree and every
    leaf, origins are recorded once, and parallel composition drops exactly
    the interruptions it induced. *)

From S2P Require Import Prelude Outcome Traversal.

(** * Specification vocabulary *)

Section Vocabulary.
  Context {V : Type}.
  Implicit Types c : Cause V.

(** The trees the constructors build: leaves carry no branches, composites
    carry two, and the identity never survives inside a composite. *)
Fixpoint cause_wf (c : Cause V) : bool :=
  let 'MkCause k _ _ _ _ l r := c in
  match k, l, r with
  | (CauseThen | CauseBoth), Some l', Some r' =>
      cause_wf l' && cause_wf r' && negb (IsEmpty l') && negb (IsEmpty r')
  | (CauseThen | CauseBoth), _, _ => false
  | _, None, None => true
  | _, _, _ => false
  end.

(** The failures a cause records, left to right. *)
Fixpoint leaves (c : Cause V) : list (Cause V) :=
  let 'MkCause k _ _ _ _ l r := c in
  match k with
  | CauseEmpty => []
  | CauseThen | CauseBoth =>
      match l with None => [] | Some l' => leaves l' end
      ++ match r with None => [] | Some r' => leaves r' end
  | _ => [c]
  end.

Definition is_composite (k : CauseKind) : bool :=
  match k with CauseThen | CauseBoth => true | _ => false end.

(** Same failures in the same order, whatever the composition's shape. *)
Definition same_leaves (c d : Cause V) : Prop := leaves c = leaves d.

#[export] Instance same_leaves_equivalence : Equivalence same_leaves.
Proof. split; unfold same_leaves; [intros ? | intros ??? | intros ?????]; congruence. Qed.

(** Induction that reaches through the optional branches. *)
Lemma Cause_nested_ind (P : Cause V -> Prop) :
  (forall k f d i o l r,
      (forall l', l = Some l' -> P l') -> (forall r', r = Some r' -> P r') ->
      P (MkCause k f d i o l r)) ->
  forall c, P c.
Proof.
  intros H. fix IH 1. intros [k f d i o l r].
  apply H; intros c' Heq; [destruct l as [x|] | destruct r as [x|]]; try discriminate Heq;
    injection Heq as <-; apply IH.
Qed.

End Vocabulary.

(** Close the goal about one optional branch with its induction hypothesis. *)
Ltac branch b IH :=
  destruct b as [b|]; [first [by apply IH | f_equal; by apply IH] | done].

Section Facts.
  Context {V : Type}.
  Implicit Types c : Cause V.

(** ** Kinds and emptiness *)

Lemma IsEmpty_kind c : IsEmpty c = true <-> Kind c = CauseEmpty.
Proof. unfold IsEmpty. by rewrite bool_decide_eq_true. Qed.

Lemma leaves_empty c : IsEmpty c = true -> leaves c = [].
Proof. rewrite IsEmpty_kind. destruct c as [[] ??????]; done. Qed.

Lemma wf_leaves_nil c : cause_wf c = true -> leaves c = [] -> IsEmpty c = true.
Proof.
  induction c as [k f d i o l r IHl IHr] using Cause_nested_ind.
  destruct k; simpl; try done; destruct l as [l|]; try done; destruct r as [r|]; try done;
    intros Hwf [Hl Hr]%app_nil; exfalso;
    repeat (apply andb_prop in Hwf as [Hwf ?]);
    rewrite (IHl l eq_refl) in *; done.
Qed.

Lemma leaves_compose k c d :
  is_composite k = true -> leaves (compose k c d) = leaves c ++ leaves d.
Proof.
  intros Hk. unfold compose.
  destruct (IsEmpty c) eqn:Hc; [by rewrite (leaves_empty c)|].
  destruct (IsEmpty d) eqn:Hd; [by rewrite (leaves_empty d), app_nil_r|].
  by destruct k.
Qed.

Lemma leaves_Then c d : leaves (Then c d) = leaves c ++ leaves d.
Proof. by apply leaves_compose. Qed.

Lemma leaves_Both c d : leaves (Both c d) = leaves c ++ leaves d.
Proof. by apply leaves_compose. Qed.

Lemma wf_compose k c d :
  is_composite k = true -> cause_wf c = true -> cause_wf d = true ->
  cause_wf (compose k c d) = true.
Proof.
  intros Hk Hc Hd. unfold compose.
  destruct (IsEmpty c) eqn:Ec; [done|]. destruct (IsEmpty d) eqn:Ed; [done|].
  destruct k; try done; simpl; by rewrite Hc, Hd, Ec, Ed.
Qed.

Lemma compose_empty_l k c d : IsEmpty c = true -> compose k c d = d.
Proof. unfold compose. by intros ->. Qed.

Lemma compose_empty_r k c : compose k c zeroCause = c \/ (IsEmpty c = true /\ compose k c zeroCause = zeroCause).
Proof. unfold compose. destruct (IsEmpty c); simpl; auto. Qed.

Lemma IsEmpty_compose k c d :
  is_composite k = true -> IsEmpty (compose k c d) = IsEmpty c && IsEmpty d.
Proof.
  intros Hk. unfold compose. destruct (IsEmpty c) eqn:Hc, (IsEmpty d) eqn:Hd; try done.
  by destruct k.
Qed.

(** ** The traversals terminate with the recursive answer *)

Lemma fold_reaches {A} (folder : CauseFolder V A) c :
  forall frames results,
    reaches (fold_step folder) (fold_cost c)
      (MkFoldFrame c evaluateNode :: frames, results)
      (frames, fold_reference folder c :: results).
Proof.
  assert (forall (b : option (Cause V)) frames results,
    (forall c, b = Some c -> forall frames results,
       reaches (fold_step folder) (fold_cost c)
         (MkFoldFrame c evaluateNode :: frames, results)
         (frames, fold_reference folder c :: results)) ->
    reaches (fold_step folder) (match b with None => 1 | Some c => fold_cost c end)
      (MkFoldFrame (Child b) evaluateNode :: frames, results)
      (frames, match b with
               | None => fold_Empty folder tt
               | Some c => fold_reference folder c
               end :: results)) as branch.
  { intros [c'|] frames results IH; [by apply IH | by apply reaches_one]. }
  induction c as [k f d i o l r IHl IHr] using Cause_nested_ind; intros frames results.
  destruct k; try by apply reaches_one.
  all: eapply reaches_next; [reflexivity|]; cbn [ff_cause Left Right];
    (eapply reaches_trans; [apply (branch l), IHl|]);
    (eapply reaches_trans; [apply (branch r), IHr|]);
    by apply reaches_one.
Qed.

Lemma FoldCause_eq {A} (folder : CauseFolder V A) (root : Cause V) :
  FoldCause folder root = Some (fold_reference folder root).
Proof.
  unfold FoldCause.
  by rewrite (iterate_finish _ _ _ _ _ (Some (fold_reference folder root))
                (fold_reaches folder root [] [])) by (done || lia).
Qed.

Lemma visit_list_app {S} (visit : Cause V -> S -> bool * S) l1 l2 s :
  visit_list visit (l1 ++ l2) s =
  (let '(go, s') := visit_list visit l1 s in
   if go then visit_list visit l2 s' else (false, s')).
Proof.
  revert s. induction l1 as [|x l1 IH]; intros s; simpl; [done|].
  destruct (visit x s) as [[] s']; [apply IH | done].
Qed.

Lemma visit_iterate {S} (visit : Cause V -> S -> bool * S) c :
  forall k stack s,
    iterate (visit_step visit) (cause_size c + k) (c :: stack, s) =
    (let '(go, s') := visit_list visit (preorder c) s in
     if go then iterate (visit_step visit) k (stack, s') else Some s').
Proof.
  induction c as [kd f d i o l r IHl IHr] using Cause_nested_ind; intros k stack s.
  simpl. destruct (visit _ s) as [[] s1]; [|done]. rewrite visit_list_app.
  destruct l as [l|], r as [r|]; simpl;
    rewrite <- ?Nat.add_assoc; rewrite ?(IHl _ eq_refl); rewrite ?(IHr _ eq_refl); try done.
  - destruct (visit_list visit (preorder l) s1) as [[] s2]; [|done]. by rewrite (IHr _ eq_refl).
  - by destruct (visit_list visit (preorder l) s1) as [[] s2].
Qed.

Lemma VisitCause_eq {S} (visit : Cause V -> S -> bool * S) (root : Cause V) (s : S) :
  VisitCause visit root s = snd (visit_list visit (preorder root) s).
Proof.
  unfold VisitCause. rewrite <- Nat.add_1_r, visit_iterate.
  by destruct (visit_list visit (preorder root) s) as [[] s'].
Qed.

(** ** Visits that decide a predicate *)

Lemma visit_forallb (ok : Cause V -> bool) (visit : Cause V -> bool -> bool * bool) nodes :
  (forall n, visit n true = (ok n, ok n)) ->
  visit_list visit nodes true = (forallb ok nodes, forallb ok nodes).
Proof.
  intros Hv. induction nodes as [|n nodes IH]; simpl; [done|].
  rewrite Hv. destruct (ok n); simpl; [apply IH | done].
Qed.

Lemma visit_existsb (hit : Cause V -> bool) (visit : Cause V -> bool -> bool * bool) nodes :
  (forall n, visit n false = (negb (hit n), hit n)) ->
  visit_list visit nodes false = (negb (existsb hit nodes), existsb hit nodes).
Proof.
  intros Hv. induction nodes as [|n nodes IH]; simpl; [done|].
  rewrite Hv. destruct (hit n); simpl; [done | apply IH].
Qed.

Lemma visit_collect {A} (pick : Cause V -> option A) nodes acc :
  visit_list (fun n acc => (true, match pick n with Some a => acc ++ [a] | None => acc end))
    nodes acc = (true, acc ++ omap pick nodes).
Proof.
  revert acc. induction nodes as [|n nodes IH]; intros acc; csimpl; [by rewrite app_nil_r|].
  rewrite IH. destruct (pick n); [by rewrite <- app_assoc | done].
Qed.

Definition is_leaf_node (c : Cause V) : bool := negb (is_composite (Kind c)).

(** In a well-formed non-empty tree the leaf nodes of a walk are its leaves. *)
Lemma preorder_leaves c :
  cause_wf c = true -> IsEmpty c = false ->
  List.filter is_leaf_node (preorder c) = leaves c.
Proof.
  induction c as [k f d i o l r IHl IHr] using Cause_nested_ind.
  destruct k; simpl; try done; destruct l as [l|]; try done; destruct r as [r|]; try done;
    intros [[[Hl Hr]%andb_prop Hel]%andb_prop Her]%andb_prop _;
    apply negb_true_iff in Hel, Her; simpl;
    by rewrite List.filter_app, (IHl l), (IHr r).
Qed.

Lemma forallb_leaf_nodes (ok : Cause V -> bool) nodes :
  (forall n, is_leaf_node n = false -> ok n = true) ->
  forallb ok nodes = forallb ok (List.filter is_leaf_node nodes).
Proof.
  intros H. induction nodes as [|n nodes IH]; simpl; [done|].
  destruct (is_leaf_node n) eqn:E; simpl; [by rewrite IH | by rewrite H].
Qed.

Lemma existsb_leaf_nodes (hit : Cause V -> bool) nodes :
  (forall n, is_leaf_node n = false -> hit n = false) ->
  existsb hit nodes = existsb hit (List.filter is_leaf_node nodes).
Proof.
  intros H. induction nodes as [|n nodes IH]; simpl; [done|].
  destruct (is_leaf_node n) eqn:E; simpl; [by rewrite IH | by rewrite H].
Qed.

Lemma omap_leaf_nodes {A} (pick : Cause V -> option A) nodes :
  (forall n, is_leaf_node n = false -> pick n = None) ->
  omap pick nodes = omap pick (List.filter is_leaf_node nodes).
Proof.
  intros H. induction nodes as [|n nodes IH]; csimpl; [done|].
  destruct (is_leaf_node n) eqn:E; csimpl; [by rewrite IH | by rewrite H].
Qed.

(** ** Origins *)

Lemma fillFrom_unknown o other : Origin_IsKnown other = false -> fillFrom o other = o.
Proof.
  unfold Origin_IsKnown, fillFrom. destruct o as [s p], other as [s' p']; simpl.
  intros [H1 H2]%orb_false_iff. apply negb_false_iff, bool_decide_eq_true in H1, H2. subst.
  by do 2 case_bool_decide; subst.
Qed.

Lemma fillFrom_assoc o1 o2 o3 :
  fillFrom (fillFrom o1 o2) o3 = fillFrom o1 (fillFrom o2 o3).
Proof. unfold fillFrom; simpl. f_equal; repeat case_bool_decide; congruence. Qed.

Lemma set_Origin_self c : set_Origin c (Cause_Origin c) = c.
Proof. by destruct c. Qed.

Lemma leaves_WithOrigin c o :
  leaves (WithOrigin c o)
  = map (fun leaf => set_Origin leaf (fillFrom (Cause_Origin leaf) o)) (leaves c).
Proof.
  unfold WithOrigin. destruct (Origin_IsKnown o) eqn:Hk.
  - induction c as [k f d i o' l r IHl IHr] using Cause_nested_ind.
    destruct k; simpl; try done; rewrite map_app; 
      (apply (f_equal2 app); [branch l IHl | branch r IHr]).
  - rewrite <- (List.map_id (leaves c)) at 1. apply map_ext. intros leaf.
    by rewrite fillFrom_unknown, set_Origin_self.
Qed.

Lemma WithOrigin_known c o :
  Origin_IsKnown o = true -> WithOrigin c o = WithOriginKnown o c.
Proof. unfold WithOrigin. by intros ->. Qed.

Lemma WithOriginKnown_twice c o1 o2 :
  WithOriginKnown o2 (WithOriginKnown o1 c) = WithOriginKnown (fillFrom o1 o2) c.
Proof.
  induction c as [k f d i o l r IHl IHr] using Cause_nested_ind.
  destruct k; simpl; rewrite ?fillFrom_assoc; try done; 
      (f_equal; [branch l IHl | branch r IHr]).
Qed.

Lemma known_fillFrom o1 o2 :
  Origin_IsKnown (fillFrom o1 o2) = Origin_IsKnown o1 || Origin_IsKnown o2.
Proof.
  unfold Origin_IsKnown, fillFrom; simpl.
  destruct o1 as [s1 p1], o2 as [s2 p2]; simpl.
  repeat case_bool_decide; simpl; congruence.
Qed.

Lemma Kind_WithOrigin c o : Kind (WithOrigin c o) = Kind c.
Proof. unfold WithOrigin. destruct (Origin_IsKnown o); [|done]. by destruct c as [[] ??????]. Qed.

Lemma wf_WithOriginKnown c o : cause_wf (WithOriginKnown o c) = cause_wf c.
Proof.
  assert (forall c, IsEmpty (WithOriginKnown o c) = IsEmpty c) as He
    by (intros c'; unfold IsEmpty; by destruct c' as [[] ??????]).
  induction c as [k f d i o' l r IHl IHr] using Cause_nested_ind.
  destruct k; simpl; try done; destruct l as [l|]; try done; destruct r as [r|]; try done;
    simpl; by rewrite (IHl l), (IHr r), !He.
Qed.

Lemma wf_WithOrigin c o : cause_wf (WithOrigin c o) = cause_wf c.
Proof.
  unfold WithOrigin. destruct (Origin_IsKnown o); [apply wf_WithOriginKnown | done].
Qed.

(** ** Rewriting failures *)

(** What a translation does to one leaf: a failure is translated and keeps its
    origin, an interruption keeps its reason and origin, and a defect keeps the
    defect alone. *)
Definition map_leaf (transform : option V -> option V) (leaf : Cause V) : Cause V :=
  match Kind leaf with
  | CauseFailure => set_Origin (FailCause (transform (Failure leaf))) (Cause_Origin leaf)
  | CauseDefect => DieCause (Cause_Defect leaf)
  | CauseInterrupt =>
      set_Origin (InterruptCause (Interruption_Cause (Cause_Interruption leaf)))
        (Cause_Origin leaf)
  | _ => leaf
  end.

Lemma leaves_composeLike root c d : leaves (composeLike root c d) = leaves c ++ leaves d.
Proof. unfold composeLike. case_bool_decide; [apply leaves_Both | apply leaves_Then]. Qed.

Lemma leaves_MapCauseFailure c transform :
  leaves (MapCauseFailure c transform) = map (map_leaf transform) (leaves c).
Proof.
  induction c as [k f d i o l r IHl IHr] using Cause_nested_ind.
  destruct k; simpl; try done; rewrite leaves_composeLike, map_app; 
      (apply (f_equal2 app); [branch l IHl | branch r IHr]).
Qed.

Lemma wf_composeLike root c d :
  cause_wf c = true -> cause_wf d = true -> cause_wf (composeLike root c d) = true.
Proof. intros. unfold composeLike. case_bool_decide; by apply wf_compose. Qed.

Lemma wf_MapCauseFailure c transform : cause_wf (MapCauseFailure c transform) = true.
Proof.
  induction c as [k f d i o l r IHl IHr] using Cause_nested_ind.
  destruct k; simpl; try done; 
      (apply wf_composeLike; [branch l IHl | branch r IHr]).
Qed.

Lemma IsEmpty_composeLike (root c d : Cause V) :
  IsEmpty (composeLike root c d) = IsEmpty c && IsEmpty d.
Proof. unfold composeLike. case_bool_decide; by apply IsEmpty_compose. Qed.

Lemma composeLike_zero_l (root d : Cause V) : composeLike root zeroCause d = d.
Proof. unfold composeLike. by case_bool_decide. Qed.

Lemma composeLike_empty_r (root c d : Cause V) :
  IsEmpty c = false -> IsEmpty d = true -> composeLike root c d = c.
Proof.
  intros Hc Hd. unfold composeLike. case_bool_decide; unfold Both, Then, compose; by rewrite Hc, Hd.
Qed.

Lemma MapCauseFailure_empty c g :
  IsEmpty (MapCauseFailure c g) = true -> MapCauseFailure c g = zeroCause.
Proof.
  assert (forall root a b : Cause V, (IsEmpty a = true -> a = zeroCause) ->
    (IsEmpty b = true -> b = zeroCause) ->
    IsEmpty (composeLike root a b) = true -> composeLike root a b = zeroCause) as H.
  { intros root a b Ha Hb. rewrite IsEmpty_composeLike. intros [->%Ha ->%Hb]%andb_prop.
    apply composeLike_zero_l. }
  induction c as [k f d i o l r IHl IHr] using Cause_nested_ind.
  destruct k; simpl; try done; apply H; [branch l IHl | branch r IHr | branch l IHl | branch r IHr].
Qed.

Lemma MapCauseFailure_composeLike (root a b : Cause V) g :
  is_composite (Kind root) = true ->
  MapCauseFailure (composeLike root a b) g
  = composeLike root (MapCauseFailure a g) (MapCauseFailure b g).
Proof.
  assert (forall c : Cause V, IsEmpty c = true -> MapCauseFailure c g = zeroCause) as He.
  { intros [[] ??????]; done. }
  intros Hk. destruct (IsEmpty a) eqn:Ea.
  - rewrite (He a Ea), composeLike_zero_l. f_equal. unfold composeLike.
    case_bool_decide; by apply compose_empty_l.
  - destruct (IsEmpty b) eqn:Eb.
    + rewrite (composeLike_empty_r root a b), (He b Eb) by done.
      destruct (IsEmpty (MapCauseFailure a g)) eqn:Em.
      * by rewrite (MapCauseFailure_empty _ _ Em), composeLike_zero_l.
      * by rewrite composeLike_empty_r.
    + unfold composeLike. case_bool_decide; unfold Both, Then, compose; by rewrite Ea, Eb.
Qed.

(** ** Induced interruptions *)

Definition induced_leaf (reason : option error) (leaf : Cause V) : bool :=
  bool_decide (Kind leaf = CauseInterrupt)
  && errors_is_nil (Interruption_Cause (Cause_Interruption leaf)) reason.

Definition induced_node (reason : option error) (node : Cause V) : bool :=
  is_composite (Kind node) || induced_leaf reason node.

Lemma induced_visitor_ok reason node :
  induced_visitor reason node true = (induced_node reason node, induced_node reason node).
Proof.
  unfold induced_visitor, induced_node, induced_leaf.
  by destruct (Kind node); simpl; rewrite ?andb_true_l.
Qed.

Lemma leaves_not_composite c :
  Forall (fun leaf => is_composite (Kind leaf) = false /\ IsEmpty leaf = false) (leaves c).
Proof.
  induction c as [k f d i o l r IHl IHr] using Cause_nested_ind.
  destruct k; simpl; repeat constructor; apply Forall_app; split;
    [branch l IHl | branch r IHr | branch l IHl | branch r IHr].
Qed.

(** On the trees the package builds, "consists only of interruptions this
    composition requested" is a statement about the leaves. *)
Lemma IsInduced_leaves c e :
  cause_wf c = true ->
  IsInduced c (Some e) = negb (IsEmpty c) && forallb (induced_leaf (Some e)) (leaves c).
Proof.
  intros Hwf. unfold IsInduced. rewrite orb_false_r.
  destruct (IsEmpty c) eqn:He; simpl; [done|].
  rewrite VisitCause_eq, (visit_forallb _ _ _ (induced_visitor_ok (Some e))); simpl.
  rewrite forallb_leaf_nodes, (preorder_leaves c Hwf He).
  - pose proof (leaves_not_composite c) as Hl. induction Hl as [|x l [Hx _] _ IH]; simpl; [done|].
    rewrite IH. unfold induced_node. by rewrite Hx.
  - intros n Hn. unfold induced_node, is_leaf_node in *. by apply negb_false_iff in Hn as ->.
Qed.

Lemma IsInduced_nil c : IsInduced c None = false.
Proof. unfold IsInduced. by rewrite orb_true_r. Qed.

Lemma IsInduced_nonempty c reason : IsInduced c reason = true -> IsEmpty c = false.
Proof. unfold IsInduced. by destruct (IsEmpty c). Qed.

(** What a parallel composition reports of one branch. *)
Definition independent_leaves (reason : option error) (exit : Exit V) : list (Cause V) :=
  if IsInduced (ExitCause exit) reason then [] else leaves (ExitCause exit).

(** Read off the failures alone: those that are not interruptions asked for with
    [reason], whether a branch has none of its own but such interruptions, and
    what is kept of it. *)
Definition own_failures (reason : error) (failures : list (Cause V)) : list (Cause V) :=
  filter (fun leaf => induced_leaf (Some reason) leaf = false) failures.

Definition only_stopped (reason : error) (failures : list (Cause V)) : bool :=
  match failures with
  | [] => false
  | _ => forallb (induced_leaf (Some reason)) failures
  end.

Definition kept (reason : error) (failures : list (Cause V)) : list (Cause V) :=
  if only_stopped reason failures then [] else failures.

Lemma IsInduced_only_stopped c reason :
  cause_wf c = true -> IsInduced c (Some reason) = only_stopped reason (leaves c).
Proof.
  intros Hwf. rewrite IsInduced_leaves by done. unfold only_stopped.
  destruct (IsEmpty c) eqn:He; cbn [negb andb].
  - by rewrite (leaves_empty c He).
  - destruct (leaves c) eqn:Hl; [|done]. by rewrite (wf_leaves_nil c Hwf Hl) in He.
Qed.

Lemma own_failures_stopped reason ls : only_stopped reason ls = true -> own_failures reason ls = [].
Proof.
  unfold only_stopped. destruct ls as [|x ls]; [done|]. generalize (x :: ls) as k. intros k.
  unfold own_failures. induction k as [|y k IH]; cbn [forallb]; [done|].
  intros [Hy Hk]%andb_prop. rewrite filter_cons_False by (by rewrite Hy). by apply IH.
Qed.

Lemma own_failures_kept reason ls : own_failures reason (kept reason ls) = own_failures reason ls.
Proof.
  unfold kept. destruct (only_stopped reason ls) eqn:Hs; [|done]. by rewrite (own_failures_stopped _ _ Hs).
Qed.

Lemma own_failures_app reason k l :
  own_failures reason (k ++ l) = own_failures reason k ++ own_failures reason l.
Proof. apply filter_app. Qed.

(** The composed cause of two branches, by their failures. *)
Lemma leaves_CombineParallelCauses (p : PairOutcome V) reason :
  cause_wf (ExitCause (pair_Left p)) = true -> cause_wf (ExitCause (pair_Right p)) = true ->
  let l := leaves (ExitCause (pair_Left p)) in
  let r := leaves (ExitCause (pair_Right p)) in
  leaves (CombineParallelCauses p (Some reason))
  = if only_stopped reason l && only_stopped reason r then l else kept reason l ++ kept reason r.
Proof.
  intros Hl Hr. unfold CombineParallelCauses, kept. rewrite !IsInduced_only_stopped by done.
  destruct (only_stopped reason (leaves (ExitCause (pair_Right p)))),
    (only_stopped reason (leaves (ExitCause (pair_Left p)))); cbn;
    rewrite ?app_nil_r; try done. apply leaves_Both.
Qed.

Lemma own_failures_CombineParallelCauses (p : PairOutcome V) reason :
  cause_wf (ExitCause (pair_Left p)) = true -> cause_wf (ExitCause (pair_Right p)) = true ->
  own_failures reason (leaves (CombineParallelCauses p (Some reason)))
  = own_failures reason (leaves (ExitCause (pair_Left p)))
    ++ own_failures reason (leaves (ExitCause (pair_Right p))).
Proof.
  intros Hl Hr. rewrite leaves_CombineParallelCauses by done. destruct (_ && _) eqn:Hs.
  - apply andb_prop in Hs as [H1 H2]. by rewrite !own_failures_stopped.
  - by rewrite own_failures_app, !own_failures_kept.
Qed.

Lemma foldl_branch_leaves reason (exits : list (Exit V)) acc :
  leaves (foldl (fun result exit =>
           let cause := ExitCause exit in
           if IsInduced cause reason then result else Both result cause) acc exits)
  = leaves acc ++ flat_map (independent_leaves reason) exits.
Proof.
  revert acc. induction exits as [|x exits IH]; intros acc; simpl; [by rewrite app_nil_r|].
  rewrite IH. unfold independent_leaves at 2.
  destruct (IsInduced (ExitCause x) reason); simpl; [done|].
  by rewrite leaves_Both, app_assoc.
Qed.

Lemma foldl_branch_wf reason (exits : list (Exit V)) acc :
  cause_wf acc = true -> Forall (fun x => cause_wf (ExitCause x) = true) exits ->
  cause_wf (foldl (fun result exit =>
           let cause := ExitCause exit in
           if IsInduced cause reason then result else Both result cause) acc exits) = true.
Proof.
  intros Hacc Hall. revert acc Hacc.
  induction Hall as [|x exits Hx _ IH]; intros acc Hacc; simpl; [done|].
  apply IH. destruct (IsInduced _ _); [done | by apply wf_compose].
Qed.

(** ** Classification *)

Lemma visit_status nodes (status : EventStatus) :
  snd (visit_list status_visitor nodes status) =
  if existsb (fun n : Cause V => bool_decide (Kind n = CauseDefect)) nodes then EventStatusDefect
  else if existsb (fun n : Cause V => bool_decide (Kind n = CauseInterrupt)) nodes
  then EventStatusInterrupted else status.
Proof.
  revert status. induction nodes as [|n nodes IH]; intros status; simpl; [done|].
  unfold status_visitor at 1. destruct (Kind n); simpl; rewrite ?IH; try done.
  by repeat case_match.
Qed.

(** * Properties *)

(** C25. [FoldCause] leaves its loop with the value the recursion defines, on
    every tree, missing branches included: no turn indexes an empty results
    slice, and the stack of frames it needs is bounded by the tree. *)
Theorem FoldCause_reference {A} (folder : CauseFolder V A) (root : Cause V) :
  FoldCause folder root = Some (fold_reference folder root).
Proof. apply FoldCause_eq. Qed.

(** [VisitCause] terminates after at most one turn per node, and its
    callback sees the nodes in pre-order, left before right, until it first
    answers false. *)
Theorem VisitCause_preorder {S} (visit : Cause V -> S -> bool * S) (root : Cause V) (s : S) :
  iterate (visit_step visit) (Datatypes.S (cause_size root)) ([root], s)
    = Some (snd (visit_list visit (preorder root) s))
  /\ VisitCause visit root s = snd (visit_list visit (preorder root) s).
Proof.
  split; [|apply VisitCause_eq]. rewrite <- Nat.add_1_r, visit_iterate.
  by destruct (visit_list visit (preorder root) s) as [[] s'].
Qed.

(** Every operation of the package builds a well-formed tree from
    well-formed trees: composites keep two non-empty branches and leaves keep
    none. *)
Theorem cause_operations_wf (c d : Cause V) (o : Origin) (transform : option V -> option V) :
  cause_wf c = true -> cause_wf d = true ->
  cause_wf (Then c d) = true /\ cause_wf (Both c d) = true
  /\ cause_wf (WithOrigin c o) = true
  /\ cause_wf (MapCauseFailure c transform) = true
  /\ cause_wf (FailuresAsDefects c) = true
  /\ (forall p r, pair_Left p = ExitFailure c -> pair_Right p = ExitFailure d ->
        cause_wf (CombineParallelCauses p r) = true).
Proof.
  intros Hc Hd. repeat split;
    [by apply wf_compose | by apply wf_compose | by rewrite wf_WithOrigin
    | apply wf_MapCauseFailure | |].
  - unfold FailuresAsDefects. rewrite FoldCause_eq; simpl. clear Hd.
    induction c as [k f d' i o' l r IHl IHr] using Cause_nested_ind.
    destruct k; try done; simpl in Hc; destruct l as [l|]; try done; destruct r as [r|]; try done;
      apply andb_prop in Hc as [[[Hl Hr]%andb_prop _]%andb_prop _];
      simpl; apply wf_compose; eauto.
  - intros p r Hl Hr. unfold CombineParallelCauses. rewrite Hl, Hr; simpl.
    repeat case_match; try done. by apply wf_compose.
Qed.

(** [Then] and [Both] keep every failure of both operands in order, with
    the empty cause as their identity. *)
Theorem compose_keeps_leaves (c d : Cause V) :
  leaves (Then c d) = leaves c ++ leaves d
  /\ leaves (Both c d) = leaves c ++ leaves d
  /\ Then zeroCause d = d /\ Both zeroCause d = d
  /\ same_leaves (Then c zeroCause) c /\ same_leaves (Both c zeroCause) c
  /\ IsEmpty (Then c d) = IsEmpty c && IsEmpty d
  /\ IsEmpty (Both c d) = IsEmpty c && IsEmpty d.
Proof.
  unfold same_leaves. rewrite !leaves_Then, !leaves_Both, !app_nil_r.
  by repeat split; apply IsEmpty_compose.
Qed.

(** Recording an origin touches leaves only and never overwrites what a
    leaf already knows: the line and the operation are filled separately, so
    recording twice is recording the merge once. *)
Theorem WithOrigin_first_writer (c : Cause V) (o1 o2 : Origin) :
  leaves (WithOrigin c o1)
    = map (fun leaf => set_Origin leaf (fillFrom (Cause_Origin leaf) o1)) (leaves c)
  /\ WithOrigin (WithOrigin c o1) o2 = WithOrigin c (fillFrom o1 o2)
  /\ Kind (WithOrigin c o1) = Kind c.
Proof.
  split; [apply leaves_WithOrigin|]. split; [|apply Kind_WithOrigin].
  unfold WithOrigin. rewrite known_fillFrom.
  destruct (Origin_IsKnown o1) eqn:H1, (Origin_IsKnown o2) eqn:H2; simpl.
  - apply WithOriginKnown_twice.
  - by rewrite fillFrom_unknown.
  - f_equal. unfold Origin_IsKnown, fillFrom in *. destruct o1 as [s p], o2 as [s' p']; simpl in *.
    apply orb_false_iff in H1 as [?%negb_false_iff%bool_decide_eq_true
                                  ?%negb_false_iff%bool_decide_eq_true]; by subst.
  - done.
Qed.

(** Translating failures leaf by leaf: the typed failures are translated
    and keep the origin of the line that raised them, interruptions are
    untouched, defects keep their value and stack, and two translations in a
    row are one. *)
Theorem MapCauseFailure_leaves (c : Cause V) (f g : option V -> option V) :
  leaves (MapCauseFailure c f) = map (map_leaf f) (leaves c)
  /\ MapCauseFailure (MapCauseFailure c f) g = MapCauseFailure c (g ∘ f).
Proof.
  split; [apply leaves_MapCauseFailure|].
  induction c as [k fl d i o l r IHl IHr] using Cause_nested_ind.
  destruct k; try done; cbn -[composeLike]; rewrite MapCauseFailure_composeLike by done;
    (f_equal; [branch l IHl | branch r IHr]).
Qed.

(** C21. What a composition reports of causes the package builds. Every failure
    of a branch, typed, defect or interruption for another reason, is in the
    composed cause of two branches or of a list of them, each once and in the
    branches' order; the only failures left out are interruptions with the
    composition's own reason, and only those of a branch that has no others:
    a branch that failed as well keeps even these. Of two branches that both
    only stopped, the first one's interruptions are reported. The composed cause
    of two is empty exactly when it has no failures to report, and without a
    reason to recognise everything is kept. *)
Theorem CombineParallelCauses_leaves (p : PairOutcome V) (exits : list (Exit V)) (reason : error) :
  let l := leaves (ExitCause (pair_Left p)) in
  let r := leaves (ExitCause (pair_Right p)) in
  let built x := cause_wf (ExitCause x) = true in
  built (pair_Left p) -> built (pair_Right p) -> Forall built exits ->
  own_failures reason (leaves (CombineParallelCauses p (Some reason)))
    = own_failures reason l ++ own_failures reason r
  /\ leaves (CombineParallelCauses p (Some reason))
     = (if only_stopped reason l && only_stopped reason r then l
        else kept reason l ++ kept reason r)
  /\ (IsEmpty (CombineParallelCauses p (Some reason)) = true
      <-> only_stopped reason l && only_stopped reason r = false
          /\ kept reason l = [] /\ kept reason r = [])
  /\ leaves (CombineParallelCauses p None) = l ++ r
  /\ own_failures reason (leaves (CombineBranchCauses exits (Some reason)))
     = flat_map (fun x => own_failures reason (leaves (ExitCause x))) exits
  /\ leaves (CombineBranchCauses exits (Some reason))
     = flat_map (fun x => kept reason (leaves (ExitCause x))) exits.
Proof.
  intros l r built Hl Hr Hall.
  assert (leaves (CombineBranchCauses exits (Some reason))
          = flat_map (fun x => kept reason (leaves (ExitCause x))) exits) as Hbranches.
  { unfold CombineBranchCauses. rewrite foldl_branch_leaves; cbn.
    induction Hall as [|x exits Hx _ IH]; cbn; [done|]. rewrite IH. f_equal.
    unfold independent_leaves, kept. by rewrite IsInduced_only_stopped. }
  split_and!.
  - by apply own_failures_CombineParallelCauses.
  - by apply leaves_CombineParallelCauses.
  - pose proof (leaves_CombineParallelCauses p reason Hl Hr) as Hc. fold l r in Hc.
    assert (cause_wf (CombineParallelCauses p (Some reason)) = true) as Hwf.
    { unfold CombineParallelCauses. repeat case_match; try done. by apply wf_compose. }
    split.
    + intros He%leaves_empty. rewrite Hc in He.
      destruct (only_stopped reason l && only_stopped reason r) eqn:Hs.
      * apply andb_prop in Hs as [Hs _]. by rewrite He in Hs.
      * by apply app_eq_nil in He.
    + intros (Hs & Hk & Hk'). apply wf_leaves_nil; [done|]. by rewrite Hc, Hs, Hk, Hk'.
  - unfold CombineParallelCauses. rewrite !IsInduced_nil. apply leaves_Both.
  - rewrite Hbranches. clear. induction exits as [|x exits IH]; cbn [flat_map]; [done|].
    by rewrite own_failures_app, own_failures_kept, IH.
  - exact Hbranches.
Qed.

(** A collection of branches: the composed cause is, in input order, the
    failures of the branches that were not merely canceled by this
    composition. *)
Theorem CombineBranchCauses_leaves (exits : list (Exit V)) (reason : option error) :
  leaves (CombineBranchCauses exits reason) = flat_map (independent_leaves reason) exits.
Proof. unfold CombineBranchCauses. by rewrite foldl_branch_leaves. Qed.

(** On a well-formed cause a composition's own interruptions are
    recognised exactly: the cause is non-empty and every leaf is an
    interruption whose reason is the composition's. *)
Theorem IsInduced_spec (c : Cause V) (reason : error) :
  cause_wf c = true ->
  IsInduced c (Some reason) = negb (IsEmpty c) && forallb (induced_leaf (Some reason)) (leaves c)
  /\ IsInduced c None = false.
Proof. intros Hwf. split; [by apply IsInduced_leaves | apply IsInduced_nil]. Qed.

(** Classification by severity: a defect anywhere outranks interruption,
    interruption outranks typed failure, and a success or an empty cleanup is
    a success. *)
Theorem CauseStatus_severity (c : Cause V) (x : Exit V) :
  CauseStatus c =
    (if existsb (fun n : Cause V => bool_decide (Kind n = CauseDefect)) (preorder c)
     then EventStatusDefect
     else if existsb (fun n : Cause V => bool_decide (Kind n = CauseInterrupt)) (preorder c)
     then EventStatusInterrupted
     else EventStatusFailure)
  /\ (IsSuccess x = true -> ExitStatus x = EventStatusSuccess)
  /\ (IsSuccess x = false -> ExitStatus x = CauseStatus (ExitCause x))
  /\ (CleanupStatus c = EventStatusSuccess <-> IsEmpty c = true).
Proof.
  assert (CauseStatus c <> EventStatusSuccess) as Hne.
  { unfold CauseStatus. rewrite VisitCause_eq, visit_status. by repeat case_match. }
  split; [unfold CauseStatus; by rewrite VisitCause_eq, visit_status|].
  unfold ExitStatus, CleanupStatus. split; [by intros ->|]. split; [by intros ->|].
  by destruct (IsEmpty c).
Qed.

End Facts.
