(* ===== verification/Cause.v ===== *)
(** The typed public view of causes and exits over their erased form
    ([effect/erasure.go] for values and failures, [effect/cause.go],
    [cause_fold.go], [cause_report.go], [cause_format.go], [exit.go],
    [runtime.go]'s [composeCleanup]). *)

From S2P Require Import Prelude GoStrings Outcome Traversal.
From Stdlib Require Import Ascii.

(** * Erasure

    A channel type [T] whose values the runtime carries as [any]. [unerase] is
    the two-result assertion that yields the zero value on a mismatch; the law
    is what every typed constructor establishes. *)
Class Erased (V T : Type) : Type := {
  erase : T -> option V;
  unerase : option V -> T;
  unerase_erase : forall t, unerase (erase t) = t
}.
Arguments erase {V T _} _.
Arguments unerase {V T _} _.

(** * Typed causes *)

Section Typed.
  Context {V : Type}.
  Implicit Types c : Cause V.

Section Failure.
  Context {E : Type} `{HE : Erased V E}.

Definition asFailure (failure : option V) : E := unerase failure.

(** [FailCause] of the public package. *)
Definition FailCauseOf (failure : E) : Cause V := FailCause (erase failure).

Definition Cause_Failure (c : Cause V) : option E :=
  if bool_decide (Kind c = CauseFailure) then Some (asFailure (Failure c)) else None.
End Failure.

Definition Cause_DefectOf (c : Cause V) : option (Defect V) :=
  if bool_decide (Kind c = CauseDefect) then Some (Cause_Defect c) else None.

Definition Cause_InterruptionOf (c : Cause V) : option Interruption :=
  if bool_decide (Kind c = CauseInterrupt) then Some (Cause_Interruption c) else None.

Definition eraseFailureTransform {E E2 : Type} `{Erased V E} `{Erased V E2}
    (transform : E -> E2) (c : Cause V) : Cause V :=
  MapCauseFailure c (fun failure => erase (transform (asFailure failure))).

(** [Cause.MapFailure] *)
Definition MapFailure {E E2 : Type} `{Erased V E} `{Erased V E2}
    (c : Cause V) (f : E -> E2) : Cause V := eraseFailureTransform f c.

Definition branches (c : Cause V) : Cause V * Cause V := (Child (Left c), Child (Right c)).

(** [eraseFolder]: the failure handler typed, the rest as they are. *)
Definition eraseFolder {E A : Type} `{Erased V E}
    (Empty : unit -> A) (Failure : E -> A) (Defect : Defect V -> A)
    (Interruption : Interruption -> A) (Then Both : A -> A -> A) : CauseFolder V A :=
  MkFolder Empty (fun failure => Failure (asFailure failure)) Defect Interruption Then Both.

(** [Cause.Fold]; [None] stands for a run-time panic. *)
Definition Fold {A : Type} (c : Cause V) (folder : CauseFolder V A) : option A :=
  FoldCause folder c.

Definition collect_visitor {A : Type} (selectValue : Cause V -> option A)
    (node : Cause V) (values : list A) : bool * list A :=
  (true, match selectValue node with Some value => values ++ [value] | None => values end).

Definition collectFromCause {A : Type} (root : Cause V) (selectValue : Cause V -> option A)
    : list A := VisitCause (collect_visitor selectValue) root [].

Definition Failures {E : Type} `{Erased V E} (c : Cause V) : list E :=
  collectFromCause c Cause_Failure.
Definition Defects (c : Cause V) : list (Defect V) := collectFromCause c Cause_DefectOf.
Definition Interruptions (c : Cause V) : list Interruption :=
  collectFromCause c Cause_InterruptionOf.

Definition isCompositeKind (kind : CauseKind) : bool :=
  bool_decide (kind = CauseThen) || bool_decide (kind = CauseBoth).

Definition only_visitor (kind : CauseKind) (node : Cause V) (matching : bool) : bool * bool :=
  let matching :=
    if negb (isCompositeKind (Kind node))
    then matching && bool_decide (Kind node = kind) else matching in
  (matching, matching).

Definition hasOnlyLeaves (c : Cause V) (kind : CauseKind) : bool :=
  if IsEmpty c then false else VisitCause (only_visitor kind) c true.

Definition kind_visitor (kind : CauseKind) (node : Cause V) (_ : bool) : bool * bool :=
  let found := bool_decide (Kind node = kind) in (negb found, found).

Definition containsKind (c : Cause V) (kind : CauseKind) : bool :=
  VisitCause (kind_visitor kind) c false.

Definition HasInterruptsOnly (c : Cause V) : bool := hasOnlyLeaves c CauseInterrupt.
Definition IsFailureOnly (c : Cause V) : bool := hasOnlyLeaves c CauseFailure.
Definition ContainsDefect (c : Cause V) : bool := containsKind c CauseDefect.

(** * Reports ([cause_report.go])

    [sprint] is [fmt.Sprintf("%v", _)] on a dynamic value, which calls the
    value's own methods. *)

Inductive CauseReport : Type :=
| MkReport (ReportKind : CauseKind) (Detail : string) (ReportStack : string)
    (Children : list CauseReport).

Section Rendering.
  Context (sprint : option V -> string).

Definition sprint_error (e : option error) : string :=
  match e with None => "<nil>" | Some e' => error_text e' end.

Definition composeReports (kind : CauseKind) (lhs rhs : CauseReport) : CauseReport :=
  MkReport kind EmptyString EmptyString [lhs; rhs].

Definition reportFolder : CauseFolder V CauseReport :=
  MkFolder
    (fun _ => MkReport CauseEmpty EmptyString EmptyString [])
    (fun failure => MkReport CauseFailure (sprint failure) EmptyString [])
    (fun defect => MkReport CauseDefect (sprint (Defect_Value defect)) (Stack defect) [])
    (fun interruption =>
       MkReport CauseInterrupt (sprint_error (Interruption_Cause interruption)) EmptyString [])
    (composeReports CauseThen)
    (composeReports CauseBoth).

Definition Report (c : Cause V) : option CauseReport := Fold c reportFolder.

(** * Rendering ([cause_format.go]) *)

Record textLine : Type := MkLine { line_depth : nat; line_text : string }.

Inductive renderAction : Type := renderNode | separateBranches | closeComposite.

Record renderStep : Type := MkStep {
  step_action : renderAction;
  step_cause : Cause V;
  step_depth : nat
}.

Definition renderOrigin (leaf : Cause V) : string :=
  let origin := Cause_Origin leaf in
  if negb (Origin_IsKnown origin) then EmptyString
  else (" at " ++ Origin_String origin)%string.

Definition renderLeafText (leaf : Cause V) : string :=
  if bool_decide (Kind leaf = CauseFailure)
  then (CauseKind_String CauseFailure ++ "(" ++ sprint (Failure leaf) ++ ")"
        ++ renderOrigin leaf)%string
  else match Cause_InterruptionOf leaf with
       | Some interruption =>
           (CauseKind_String CauseInterrupt ++ "("
            ++ sprint_error (Interruption_Cause interruption) ++ ")" ++ renderOrigin leaf)%string
       | None => CauseKind_String (Kind leaf)
       end.

Definition renderDefect (defect : Defect V) (depth : nat) (includeStacks : bool)
    : list textLine :=
  let lines :=
    [MkLine depth (CauseKind_String CauseDefect ++ "(" ++ sprint (Defect_Value defect) ++ ")")] in
  if negb includeStacks || bool_decide (Stack defect = EmptyString) then lines
  else lines ++ map (MkLine (depth + 1))
                  (Split (TrimSuffixByte (Stack defect) (ascii_of_nat 10)) newline).

Definition renderLeaf (leaf : Cause V) (depth : nat) (includeStacks : bool) : list textLine :=
  match Cause_DefectOf leaf with
  | Some defect => renderDefect defect depth includeStacks
  | None => [MkLine depth (renderLeafText leaf)]
  end.

(** [lines[len(lines)-1].text += ","]; [None] is the index panic. *)
Definition separate (lines : list textLine) : option (list textLine) :=
  match reverse lines with
  | [] => None
  | line :: before =>
      Some (reverse before ++ [MkLine (line_depth line) (line_text line ++ ",")])
  end.

Definition renderStepOf (current : renderStep) (includeStacks : bool)
    (lines : list textLine) (steps : list renderStep) : list textLine * list renderStep :=
  let node := step_cause current in
  if negb (isCompositeKind (Kind node))
  then (lines ++ renderLeaf node (step_depth current) includeStacks, steps)
  else
    let lines := lines ++ [MkLine (step_depth current) (CauseKind_String (Kind node) ++ "(")] in
    let '(lhs, rhs) := branches node in
    let childDepth := step_depth current + 1 in
    (lines,
     MkStep renderNode lhs childDepth
     :: MkStep separateBranches zeroCause 0
     :: MkStep renderNode rhs childDepth
     :: MkStep closeComposite zeroCause (step_depth current)
     :: steps).

(** One turn of [renderCause]'s loop, the work list with its last step first. *)
Definition render_turn (includeStacks : bool) (st : list textLine * list renderStep)
    : (list textLine * list renderStep) + option (list textLine) :=
  match st with
  | (lines, []) => inr (Some lines)
  | (lines, current :: steps) =>
      match step_action current with
      | separateBranches =>
          match separate lines with
          | Some lines => inl (lines, steps)
          | None => inr None
          end
      | closeComposite => inl (lines ++ [MkLine (step_depth current) ")"], steps)
      | renderNode => inl (renderStepOf current includeStacks lines steps)
      end
  end.

Fixpoint joinLines (lines : list textLine) : string :=
  match lines with
  | [] => EmptyString
  | [line] => (Repeat "  " (line_depth line) ++ line_text line)%string
  | line :: rest =>
      ((Repeat "  " (line_depth line) ++ line_text line) ++ newline ++ joinLines rest)%string
  end.

(** A composite costs its own turn, its separator and its closing line. *)
Fixpoint render_cost (c : Cause V) : nat :=
  let 'MkCause k _ _ _ _ l r := c in
  match k with
  | CauseThen | CauseBoth =>
      1 + ((match l with None => 1 | Some l' => render_cost l' end)
           + (1 + ((match r with None => 1 | Some r' => render_cost r' end) + 1)))
  | _ => 1
  end.

Definition renderCause (root : Cause V) (includeStacks : bool) : option string :=
  match iterate (render_turn includeStacks) (S (render_cost root))
          ([], [MkStep renderNode root 0]) with
  | Some (Some lines) => Some (joinLines lines)
  | _ => None
  end.

(** The rendering as a recursion over the tree. *)
Fixpoint render_reference (includeStacks : bool) (depth : nat) (c : Cause V)
    : list textLine :=
  let 'MkCause k _ _ _ _ l r := c in
  match k with
  | CauseThen | CauseBoth =>
      [MkLine depth (CauseKind_String k ++ "(")]
      ++ default [] (separate
           (match l with
            | None => renderLeaf zeroCause (depth + 1) includeStacks
            | Some l' => render_reference includeStacks (depth + 1) l'
            end))
      ++ match r with
         | None => renderLeaf zeroCause (depth + 1) includeStacks
         | Some r' => render_reference includeStacks (depth + 1) r'
         end
      ++ [MkLine depth ")"]
  | _ => renderLeaf c depth includeStacks
  end.
End Rendering.

(** * Exits ([exit.go], [runtime.go]) *)

Section TypedExit.
  Context {A : Type} `{HA : Erased V A}.

Definition asValue (value : option V) : A := unerase value.

Definition ExitSuccessOf (value : A) : Exit V := ExitSuccess (erase value).
Definition ExitFailureOf {E : Type} `{Erased V E} (failure : E) : Exit V :=
  ExitFailure (FailCauseOf failure).
Definition exitInterrupt (reason : option error) : Exit V :=
  ExitFailure (InterruptCause reason).

Definition Exit_Value (x : Exit V) : option A :=
  if negb (IsSuccess x) then None else Some (asValue (ExitValue x)).

Definition Exit_Cause (x : Exit V) : option (Cause V) :=
  if IsSuccess x then None else Some (ExitCause x).

Definition Exit_Fold {T : Type} (x : Exit V) (failure : Cause V -> T) (success : A -> T) : T :=
  match Exit_Value x with
  | Some value => success value
  | None => failure (default zeroCause (Exit_Cause x))
  end.

Definition Exit_MapError {E E2 : Type} `{Erased V E} `{Erased V E2}
    (x : Exit V) (f : E -> E2) : Exit V :=
  match Exit_Value x with
  | Some value => ExitSuccessOf value
  | None => ExitFailure (MapFailure (default zeroCause (Exit_Cause x)) f)
  end.
End TypedExit.

Definition Exit_Map {A B : Type} `{Erased V A} `{Erased V B} (x : Exit V) (f : A -> B)
    : Exit V :=
  match Exit_Value x with
  | Some value => ExitSuccessOf (f value)
  | None => ExitFailure (default zeroCause (Exit_Cause x))
  end.

(** Appends a lifetime's cleanup cause to an exit. *)
Definition composeCleanup (exit : Exit V) (cleanup : Cause V) : Exit V :=
  if IsEmpty cleanup then exit else ExitFailure (Then (ExitCause exit) cleanup).

End Typed.
