(* ===== verification/CauseFacts.v ===== *)
(** The public view of a cause reads its leaves and nothing else, a report
    keeps the tree's shape, and the work-list renderer prints what a recursive
    rendering would. *)

From S2P Require Import Prelude GoStrings Outcome Traversal OutcomeFacts Cause.
From Stdlib Require Import Ascii.

Section Facts.
  Context {V : Type}.
  Implicit Types c : Cause V.

(** ** Collecting *)

Lemma collectFromCause_preorder {A} (root : Cause V) (selectValue : Cause V -> option A) :
  collectFromCause root selectValue = omap selectValue (preorder root).
Proof.
  unfold collectFromCause. rewrite VisitCause_eq.
  change (collect_visitor selectValue) with
    (fun n acc => (true, match selectValue n with Some a => acc ++ [a] | None => acc end)).
  by rewrite visit_collect.
Qed.

Lemma collectFromCause_leaves {A} (root : Cause V) (selectValue : Cause V -> option A) :
  cause_wf root = true ->
  (forall n, is_leaf_node n = false -> selectValue n = None) ->
  (forall n, Kind n = CauseEmpty -> selectValue n = None) ->
  collectFromCause root selectValue = omap selectValue (leaves root).
Proof.
  intros Hwf Hc He. rewrite collectFromCause_preorder.
  destruct (IsEmpty root) eqn:E.
  - apply IsEmpty_kind in E. destruct root as [k f d i o l r]; simpl in *; subst.
    destruct l, r; try done. csimpl. by rewrite (He (MkCause CauseEmpty f d i o None None)).
  - by rewrite omap_leaf_nodes, preorder_leaves.
Qed.

Lemma isCompositeKind_eq k : isCompositeKind k = is_composite k.
Proof. by destruct k. Qed.

Lemma hasOnlyLeaves_eq c kind :
  cause_wf c = true ->
  hasOnlyLeaves c kind
  = negb (IsEmpty c) && forallb (fun leaf : Cause V => bool_decide (Kind leaf = kind)) (leaves c).
Proof.
  intros Hwf. unfold hasOnlyLeaves. destruct (IsEmpty c) eqn:He; simpl; [done|].
  rewrite VisitCause_eq.
  rewrite (visit_forallb
             (fun n => is_composite (Kind n) || bool_decide (Kind n = kind))); simpl.
  - rewrite forallb_leaf_nodes, (preorder_leaves c Hwf He).
    + pose proof (leaves_not_composite c) as Hl.
      induction Hl as [|x l [Hx _] _ IH]; simpl; [done|]. by rewrite IH, Hx.
    + intros n Hn. unfold is_leaf_node in Hn. by apply negb_false_iff in Hn as ->.
  - intros n. unfold only_visitor. rewrite isCompositeKind_eq.
    by destruct (is_composite (Kind n)).
Qed.

Lemma containsKind_eq c kind :
  containsKind c kind = existsb (fun n : Cause V => bool_decide (Kind n = kind)) (preorder c).
Proof.
  unfold containsKind. rewrite VisitCause_eq.
  by rewrite (visit_existsb (fun n => bool_decide (Kind n = kind))).
Qed.

(** ** Reports *)

Fixpoint report_kinds (r : CauseReport) : list CauseKind :=
  let 'MkReport k _ _ children := r in
  k :: (fix all (l : list CauseReport) : list CauseKind :=
          match l with [] => [] | x :: l' => report_kinds x ++ all l' end) children.

Lemma report_shape sprint c :
  cause_wf c = true ->
  report_kinds (fold_reference (reportFolder sprint) c) = map Kind (preorder c).
Proof.
  induction c as [k f d i o l r IHl IHr] using Cause_nested_ind.
  destruct k; simpl; destruct l as [l|]; try done; destruct r as [r|]; try done;
    intros [[[Hl Hr]%andb_prop _]%andb_prop _]%andb_prop;
    rewrite app_nil_r, map_app; by rewrite (IHl l), (IHr r).
Qed.

(** ** Rendering *)

Section Rendering.
  Context (sprint : option V -> string) (includeStacks : bool).

Lemma renderLeaf_nonempty leaf depth : renderLeaf sprint leaf depth includeStacks <> [].
Proof. unfold renderLeaf, renderDefect. by repeat case_match. Qed.

Lemma separate_app (lines more : list textLine) :
  more <> [] ->
  separate (lines ++ more) = (fun m => lines ++ m) <$> separate more.
Proof.
  intros Hne. unfold separate. rewrite reverse_app.
  destruct (reverse more) as [|x l] eqn:E; [by apply (f_equal reverse) in E; rewrite reverse_involutive in E|].
  simpl. by rewrite reverse_app, reverse_involutive, <- app_assoc.
Qed.

Lemma separate_nonempty (lines : list textLine) : lines <> [] -> is_Some (separate lines).
Proof.
  intros Hne. unfold separate. destruct (reverse lines) as [|x l] eqn:E; [|done].
  apply (f_equal reverse) in E. by rewrite reverse_involutive in E.
Qed.

Lemma render_reference_nonempty depth c :
  render_reference sprint includeStacks depth c <> [].
Proof. destruct c as [[] ??????]; simpl; try done; apply renderLeaf_nonempty. Qed.

Definition render_branch (depth : nat) (b : option (Cause V)) : list textLine :=
  match b with
  | None => renderLeaf sprint zeroCause depth includeStacks
  | Some c => render_reference sprint includeStacks depth c
  end.

Lemma render_branch_nonempty depth b : render_branch depth b <> [].
Proof. destruct b; [apply render_reference_nonempty | apply renderLeaf_nonempty]. Qed.

Lemma render_reference_composite k f d i o l r depth ls :
  is_composite k = true ->
  separate (render_branch (depth + 1) l) = Some ls ->
  render_reference sprint includeStacks depth (MkCause k f d i o l r)
  = [MkLine depth (CauseKind_String k ++ "(")] ++ ls ++ render_branch (depth + 1) r
    ++ [MkLine depth ")"].
Proof.
  intros Hk Hls. unfold render_branch in Hls.
  destruct k; try done; cbn [render_reference]; by rewrite Hls.
Qed.

Lemma render_reaches c :
  forall depth lines steps,
    reaches (render_turn sprint includeStacks) (render_cost c)
      (lines, MkStep renderNode c depth :: steps)
      (lines ++ render_reference sprint includeStacks depth c, steps).
Proof.
  assert (forall (b : option (Cause V)) depth lines steps,
    (forall c, b = Some c -> forall depth lines steps,
       reaches (render_turn sprint includeStacks) (render_cost c)
         (lines, MkStep renderNode c depth :: steps)
         (lines ++ render_reference sprint includeStacks depth c, steps)) ->
    reaches (render_turn sprint includeStacks)
      (match b with None => 1 | Some c => render_cost c end)
      (lines, MkStep renderNode (Child b) depth :: steps)
      (lines ++ render_branch depth b, steps)) as child.
  { intros [c'|] depth lines steps IH; [by apply IH | by apply reaches_one]. }
  induction c as [k f d i o l r IHl IHr] using Cause_nested_ind; intros depth lines steps.
  destruct (is_composite k) eqn:Hk; [|by destruct k; try done; apply reaches_one].
  destruct (separate_nonempty (render_branch (depth + 1) l)) as [ls Hls];
    [apply render_branch_nonempty|].
  rewrite (render_reference_composite k f d i o l r depth ls Hk Hls).
  replace (render_cost (MkCause k f d i o l r)) with
    (1 + ((match l with None => 1 | Some l' => render_cost l' end)
          + (1 + ((match r with None => 1 | Some r' => render_cost r' end) + 1))))
    by (by destruct k).
  eapply reaches_next.
  { simpl. unfold renderStepOf; simpl. rewrite isCompositeKind_eq, Hk. reflexivity. }
  eapply reaches_trans; [apply (child l), IHl|].
  eapply (reaches_trans _ 1).
  { apply reaches_one; simpl. rewrite separate_app by apply render_branch_nonempty.
    rewrite Hls. reflexivity. }
  eapply reaches_trans; [apply (child r), IHr|].
  apply reaches_one; simpl. by rewrite <- !app_assoc.
Qed.
End Rendering.

(** * Properties *)

(** The typed accessors of a well-formed cause are its leaves of one kind,
    left to right, and the predicates over a cause are predicates of its
    leaves. *)
Theorem cause_accessors_leaves {E : Type} `{Erased V E} (c : Cause V) :
  cause_wf c = true ->
  Failures (E := E) c = omap Cause_Failure (leaves c)
  /\ Defects c = omap Cause_DefectOf (leaves c)
  /\ Interruptions c = omap Cause_InterruptionOf (leaves c)
  /\ HasInterruptsOnly c
     = negb (IsEmpty c) && forallb (fun n : Cause V => bool_decide (Kind n = CauseInterrupt)) (leaves c)
  /\ IsFailureOnly c
     = negb (IsEmpty c) && forallb (fun n : Cause V => bool_decide (Kind n = CauseFailure)) (leaves c)
  /\ (ContainsDefect c = true <-> CauseStatus c = EventStatusDefect).
Proof.
  intros Hwf. unfold Failures, Defects, Interruptions, HasInterruptsOnly, IsFailureOnly.
  rewrite !collectFromCause_leaves, !hasOnlyLeaves_eq by
    (try done; intros n; unfold is_leaf_node, Cause_Failure, Cause_DefectOf, Cause_InterruptionOf;
     by destruct (Kind n)).
  repeat split; unfold ContainsDefect; rewrite containsKind_eq;
    unfold CauseStatus; rewrite VisitCause_eq, visit_status; by repeat case_match.
Qed.

(** A report is produced for every cause and has the cause's own shape:
    the same kinds in the same pre-order. *)
Theorem Report_shape (sprint : option V -> string) (c : Cause V) :
  cause_wf c = true ->
  exists r, Report sprint c = Some r /\ report_kinds r = map Kind (preorder c).
Proof.
  intros Hwf. exists (fold_reference (reportFolder sprint) c). unfold Report, Fold.
  rewrite FoldCause_eq. split; [done | by apply report_shape].
Qed.

(** The work-list renderer terminates without indexing an empty slice and
    prints the recursive rendering: head line, left branch with its separator,
    right branch, closing line, every line indented by its depth. *)
Theorem renderCause_reference (sprint : option V -> string) (includeStacks : bool)
    (root : Cause V) :
  renderCause sprint root includeStacks
  = Some (joinLines (render_reference sprint includeStacks 0 root)).
Proof.
  unfold renderCause.
  rewrite (iterate_finish _ _ _ _ _ (Some (render_reference sprint includeStacks 0 root))
             (render_reaches sprint includeStacks root 0 [] [])) by (done || lia).
  done.
Qed.

(** Appending a cleanup never loses the exit's own failure and never turns
    a failure into a success; an empty cleanup changes nothing. *)
Theorem composeCleanup_keeps (x : Exit V) (cleanup : Cause V) :
  (IsEmpty cleanup = true -> composeCleanup x cleanup = x)
  /\ (IsEmpty cleanup = false ->
      IsSuccess (composeCleanup x cleanup) = false
      /\ leaves (ExitCause (composeCleanup x cleanup))
         = leaves (ExitCause x) ++ leaves cleanup).
Proof.
  unfold composeCleanup. destruct (IsEmpty cleanup); split; try done.
  intros _. split; [done|]. apply leaves_Then.
Qed.

End Facts.
