(* ===== verification/Interpreter.v ===== *)
(** The instruction interpreter ([effect/internal/runtime/node.go],
    [interpret.go], [interpret_guard.go]).

    Callbacks are Rocq functions in a state-and-panic monad over a world [World]
    the model leaves abstract: whatever a callback reads, writes or cancels is
    in the world, and a panic is a value of the result. *)

From S2P Require Import Prelude Outcome Traversal.

(** * Callbacks *)

(** A panic value (never nil: the runtime replaces [panic(nil)]) and the stack
    at the recovery point. *)
Record Panic (V : Type) : Type := MkPanic { panic_value : V; panic_stack : string }.
Arguments MkPanic {V} _ _.
Arguments panic_value {V} _.
Arguments panic_stack {V} _.

(** A Go function call: its effects on the world, and a result or a panic. *)
Definition call (V World A : Type) : Type := World -> (A + Panic V) * World.

Definition call_ret {V World A} (a : A) : call V World A := fun w => (inl a, w).
Definition call_panic {V World A} (p : Panic V) : call V World A := fun w => (inr p, w).
Definition call_bind {V World A B} (m : call V World A) (f : A -> call V World B)
    : call V World B :=
  fun w => match m w with
           | (inl a, w') => f a w'
           | (inr p, w') => (inr p, w')
           end.

(** * The context port

    [context.Context] as the interpreter uses it: whether it is done, and why.
    Both may change as the world does. *)
Class ContextOps (World Ctx : Type) : Type := {
  ctx_Err : Ctx -> World -> option error;
  ctx_Cause : Ctx -> World -> option error;
  ctx_WithoutCancel : Ctx -> Ctx;
  ctx_Cause_done : forall ctx w, ctx_Err ctx w = None -> ctx_Cause ctx w = None;
  ctx_WithoutCancel_Err : forall ctx w, ctx_Err (ctx_WithoutCancel ctx) w = None
}.

(** [CancellationReason]: an explicit cause before the generic error. *)
Definition CancellationReason {World Ctx} `{ContextOps World Ctx} (ctx : Ctx) (w : World)
    : option error :=
  match ctx_Cause ctx w with
  | Some reason => Some reason
  | None => ctx_Err ctx w
  end.

(** The runtime state as the interpreter uses it: the operation being run. *)
Class StateOps (St : Type) : Type := { state_Operation : St -> string }.

Section Interpreter.
  Context {V World Ctx St : Type}.

(** * Instructions ([node.go]) *)

Record Interpretation : Type := MkInterpretation {
  interp_Context : Ctx;
  interp_State : St;
  interp_Environment : option V
}.

Inductive Node : Type :=
| Succeed (Value : option V)
| Fail (Cause' : Cause V)
| Eval (Run : Interpretation -> call V World (Exit V))
| Suspend (Create : Interpretation -> World -> (Node + Panic V) * World)
| Transform (source : Node) (Apply : option V -> call V World (option V))
| Bind (source : Node) (Continue : option V -> World -> (Node + Panic V) * World)
| TransformCause (source : Node) (Apply : Cause V -> call V World (Cause V))
| Recover (source : Node) (Handle : Cause V -> World -> (Node + Panic V) * World)
| WithEnvironment (source : Node) (Adapt : option V -> call V World (option V))
| WithState (source : Node) (Derive : St -> call V World St)
| WithContext (source : Node) (Derive : Ctx -> call V World Ctx)
| OnExit (source : Node) (Observe : Interpretation -> Exit V -> call V World (Exit V))
| NilNode.

(** * Guards ([interpret_guard.go])

    Every callback is called through one of these: a panic becomes a value. *)

Definition capture (p : Panic V) : Defect V :=
  CaptureDefect (Some (panic_value p)) (panic_stack p).

Definition captureExitDefect {A} (r : (A + Panic V) * World) (ok : A -> Exit V)
    : Exit V * World :=
  match r with
  | (inl a, w) => (ok a, w)
  | (inr p, w) => (ExitFailure (DieCause (capture p)), w)
  end.

Definition captureDefect {A} (r : (A + Panic V) * World) : (A + Defect V) * World :=
  match r with
  | (inl a, w) => (inl a, w)
  | (inr p, w) => (inr (capture p), w)
  end.

Definition transformExit (apply : option V -> call V World (option V)) (value : option V)
    (w : World) : Exit V * World :=
  captureExitDefect (apply value w) ExitSuccess.

Definition transformCause (apply : Cause V -> call V World (Cause V)) (cause : Cause V)
    (w : World) : Exit V * World :=
  captureExitDefect (apply cause w) ExitFailure.

Definition evalLeaf (run : Interpretation -> call V World (Exit V))
    (interpretation : Interpretation) (w : World) : Exit V * World :=
  captureExitDefect (run interpretation w) (fun exit => exit).

Definition runHook (observe : Interpretation -> Exit V -> call V World (Exit V))
    (interpretation : Interpretation) (exit : Exit V) (w : World)
    : (Exit V + Defect V) * World :=
  captureDefect (observe interpretation exit w).

Definition observeExit (observe : Interpretation -> Exit V -> call V World (Exit V))
    (interpretation : Interpretation) (exit : Exit V) (w : World) : Exit V * World :=
  match runHook observe interpretation exit w with
  | (inl result, w') => (result, w')
  | (inr defect, w') => (ExitFailure (Then (ExitCause exit) (DieCause defect)), w')
  end.

Definition continueNode (continueWith : option V -> call V World Node) (value : option V)
    (w : World) : (Node + Defect V) * World := captureDefect (continueWith value w).

Definition handleCause (handle : Cause V -> call V World Node) (cause : Cause V)
    (w : World) : (Node + Defect V) * World := captureDefect (handle cause w).

Definition adaptEnvironment (adapt : option V -> call V World (option V))
    (environment : option V) (w : World) : (option V + Defect V) * World :=
  captureDefect (adapt environment w).

Definition deriveState (derive : St -> call V World St) (state : St) (w : World)
    : (St + Defect V) * World := captureDefect (derive state w).

Definition deriveContext (derive : Ctx -> call V World Ctx) (ctx : Ctx) (w : World)
    : (Ctx + Defect V) * World := captureDefect (derive ctx w).

(** * The machine ([interpret.go]) *)

Inductive frame : Type :=
| transformFrame (apply : option V -> call V World (option V))
| bindFrame (continueWith : option V -> call V World Node)
| transformCauseFrame (apply : Cause V -> call V World (Cause V))
| recoverFrame (handle : Cause V -> call V World Node)
| environmentFrame (environment : option V)
| stateFrame (state : St)
| contextFrame (ctx : Ctx)
| exitHookFrame (observe : Interpretation -> Exit V -> call V World (Exit V)).

(** The ambient state and the continuation stack, its top first. *)
Record machine : Type := MkMachine {
  m_ctx : Ctx;
  m_state : St;
  m_environment : option V;
  m_frames : list frame
}.

Definition interpretation (m : machine) : Interpretation :=
  MkInterpretation (m_ctx m) (m_state m) (m_environment m).

Definition push (m : machine) (continuation : frame) : machine :=
  MkMachine (m_ctx m) (m_state m) (m_environment m) (continuation :: m_frames m).

Definition set_environment (m : machine) (environment : option V) : machine :=
  MkMachine (m_ctx m) (m_state m) environment (m_frames m).
Definition set_state (m : machine) (state : St) : machine :=
  MkMachine (m_ctx m) state (m_environment m) (m_frames m).
Definition set_ctx (m : machine) (ctx : Ctx) : machine :=
  MkMachine ctx (m_state m) (m_environment m) (m_frames m).
Definition set_frames (m : machine) (frames : list frame) : machine :=
  MkMachine (m_ctx m) (m_state m) (m_environment m) frames.

Context `{ContextOps World Ctx} `{StateOps St}.
(** [error_value] is the dynamic value holding an error; [unsupported] the
    error and stack of the "unsupported instruction" defect. *)
Context (error_value : error -> V) (unsupported : error).

Definition interruptCause (m : machine) (w : World) : option (Cause V) :=
  match ctx_Err (m_ctx m) w with
  | None => None
  | Some _ => Some (InterruptCause (CancellationReason (m_ctx m) w))
  end.

(** [settle]: an instruction that performs no further composition, behind the
    cooperative interruption checkpoint. *)
Definition settle (m : machine) (node : Node) (w : World) : Exit V * World :=
  match interruptCause m w with
  | Some cause => (ExitFailure cause, w)
  | None =>
      match node with
      | Succeed value => (ExitSuccess value, w)
      | Fail cause =>
          (ExitFailure
             (WithOrigin cause (MkOrigin EmptyString (state_Operation (m_state m)))), w)
      | Eval run => evalLeaf run (interpretation m) w
      | _ =>
          (ExitFailure (DieCause (MkDefect (Some (error_value unsupported)) EmptyString)), w)
      end
  end.

(** [evaluate]: descend through composition instructions, one frame a level,
    to an instruction that settles. *)
Fixpoint evaluate (node : Node) (m : machine) (w : World) : Exit V * machine * World :=
  match node with
  | Transform source apply => evaluate source (push m (transformFrame apply)) w
  | Bind source continue => evaluate source (push m (bindFrame continue)) w
  | TransformCause source apply => evaluate source (push m (transformCauseFrame apply)) w
  | Recover source handle => evaluate source (push m (recoverFrame handle)) w
  | OnExit source observe => evaluate source (push m (exitHookFrame observe)) w
  | WithEnvironment source adapt =>
      let m := push m (environmentFrame (m_environment m)) in
      match adaptEnvironment adapt (m_environment m) w with
      | (inl environment, w') => evaluate source (set_environment m environment) w'
      | (inr defect, w') => (ExitFailure (DieCause defect), m, w')
      end
  | WithContext source derive =>
      let m := push m (contextFrame (m_ctx m)) in
      match deriveContext derive (m_ctx m) w with
      | (inl ctx, w') => evaluate source (set_ctx m ctx) w'
      | (inr defect, w') => (ExitFailure (DieCause defect), m, w')
      end
  | WithState source derive =>
      let m := push m (stateFrame (m_state m)) in
      match deriveState derive (m_state m) w with
      | (inl state, w') => evaluate source (set_state m state) w'
      | (inr defect, w') => (ExitFailure (DieCause defect), m, w')
      end
  | Suspend create =>
      match create (interpretation m) w with
      | (inl next, w') => evaluate next m w'
      | (inr p, w') => (ExitFailure (DieCause (capture p)), m, w')
      end
  | _ => let '(exit, w') := settle m node w in (exit, m, w')
  end.

(** [resume]: apply pending continuations until one produces another
    instruction; [inr] when the stack is empty. *)
Fixpoint resume (frames : list frame) (exit : Exit V) (m : machine) (w : World)
    : (Node * machine * World) + (Exit V * World) :=
  match frames with
  | [] => inr (exit, w)
  | continuation :: rest =>
      match continuation with
      | environmentFrame environment => resume rest exit (set_environment m environment) w
      | stateFrame state => resume rest exit (set_state m state) w
      | contextFrame ctx => resume rest exit (set_ctx m ctx) w
      | transformFrame apply =>
          if IsSuccess exit then
            let '(exit, w) := transformExit apply (ExitValue exit) w in resume rest exit m w
          else resume rest exit m w
      | transformCauseFrame apply =>
          if negb (IsSuccess exit) then
            let '(exit, w) := transformCause apply (ExitCause exit) w in resume rest exit m w
          else resume rest exit m w
      | exitHookFrame observe =>
          let '(exit, w) := observeExit observe (interpretation m) exit w in
          resume rest exit m w
      | bindFrame continueWith =>
          if negb (IsSuccess exit) then resume rest exit m w
          else match continueNode continueWith (ExitValue exit) w with
               | (inl node, w) => inl (node, set_frames m rest, w)
               | (inr defect, w) => resume rest (ExitFailure (DieCause defect)) m w
               end
      | recoverFrame handle =>
          if IsSuccess exit then resume rest exit m w
          else match handleCause handle (ExitCause exit) w with
               | (inl node, w) => inl (node, set_frames m rest, w)
               | (inr defect, w) =>
                   resume rest (ExitFailure (Then (ExitCause exit) (DieCause defect))) m w
               end
      end
  end.

(** One turn of [run]. *)
Definition run_step (st : Node * machine * World)
    : (Node * machine * World) + (Exit V * World) :=
  let '(current, m, w) := st in
  let '(exit, m', w') := evaluate current m w in
  resume (m_frames m') exit m' w'.

(** [Interpret], with a bound on the turns of its loop. *)
Definition Interpret (fuel : nat) (i : Interpretation) (node : Node) (w : World)
    : option (Exit V * World) :=
  iterate run_step fuel
    (node, MkMachine (interp_Context i) (interp_State i) (interp_Environment i) [], w).

(** * The reference semantics

    What a program means, by recursion over its instructions: no stack, and the
    ambient state an argument rather than a register to restore. *)
Fixpoint denote (node : Node) (i : Interpretation) (w : World) : Exit V * World :=
  match node with
  | Transform source apply =>
      let '(exit, w) := denote source i w in
      if IsSuccess exit then transformExit apply (ExitValue exit) w else (exit, w)
  | Bind source continue =>
      let '(exit, w) := denote source i w in
      if IsSuccess exit then
        match continue (ExitValue exit) w with
        | (inl next, w) => denote next i w
        | (inr p, w) => (ExitFailure (DieCause (capture p)), w)
        end
      else (exit, w)
  | TransformCause source apply =>
      let '(exit, w) := denote source i w in
      if IsSuccess exit then (exit, w) else transformCause apply (ExitCause exit) w
  | Recover source handle =>
      let '(exit, w) := denote source i w in
      if IsSuccess exit then (exit, w) else
        match handle (ExitCause exit) w with
        | (inl next, w) => denote next i w
        | (inr p, w) => (ExitFailure (Then (ExitCause exit) (DieCause (capture p))), w)
        end
  | OnExit source observe =>
      let '(exit, w) := denote source i w in observeExit observe i exit w
  | WithEnvironment source adapt =>
      match adaptEnvironment adapt (interp_Environment i) w with
      | (inl environment, w) =>
          denote source (MkInterpretation (interp_Context i) (interp_State i) environment) w
      | (inr defect, w) => (ExitFailure (DieCause defect), w)
      end
  | WithState source derive =>
      match deriveState derive (interp_State i) w with
      | (inl state, w) =>
          denote source (MkInterpretation (interp_Context i) state (interp_Environment i)) w
      | (inr defect, w) => (ExitFailure (DieCause defect), w)
      end
  | WithContext source derive =>
      match deriveContext derive (interp_Context i) w with
      | (inl ctx, w) =>
          denote source (MkInterpretation ctx (interp_State i) (interp_Environment i)) w
      | (inr defect, w) => (ExitFailure (DieCause defect), w)
      end
  | Suspend create =>
      match create i w with
      | (inl next, w) => denote next i w
      | (inr p, w) => (ExitFailure (DieCause (capture p)), w)
      end
  | _ =>
      settle (MkMachine (interp_Context i) (interp_State i) (interp_Environment i) []) node w
  end.

End Interpreter.

Arguments Interpretation : clear implicits.
Arguments Node : clear implicits.
Arguments frame : clear implicits.
Arguments machine : clear implicits.
