(* ===== verification/InterpreterFacts.v ===== *)
(** The trampolined machine computes the reference semantics of every program
    and leaves the ambient state as it found it; observational equality of
    programs, its congruences, and the laws of sequencing, recovery and exit
    hooks. *)

From S2P Require Import Prelude Outcome Traversal OutcomeFacts Interpreter.

Section Facts.
  Context {V World Ctx St : Type} `{ContextOps World Ctx} `{StateOps St}.
  Context (error_value : error -> V) (unsupported : error).

  #[local] Abbreviation Node := (Node V World Ctx St).
  #[local] Abbreviation Interpretation := (Interpretation V Ctx St).
  #[local] Abbreviation machine := (machine V World Ctx St).
  #[local] Abbreviation denote := (denote error_value unsupported).
  #[local] Abbreviation evaluate := (evaluate error_value unsupported).
  #[local] Abbreviation run_step := (run_step error_value unsupported).
  #[local] Abbreviation settle := (settle error_value unsupported).

(** Induction that reaches the instructions a callback may return. *)
Lemma Node_program_ind (P : Node -> Prop) :
  (forall value, P (Succeed value)) ->
  (forall cause, P (Fail cause)) ->
  (forall run, P (Eval run)) ->
  (forall create, (forall i w n w', create i w = (inl n, w') -> P n) -> P (Suspend create)) ->
  (forall source apply, P source -> P (Transform source apply)) ->
  (forall source continue, P source ->
     (forall v w n w', continue v w = (inl n, w') -> P n) -> P (Bind source continue)) ->
  (forall source apply, P source -> P (TransformCause source apply)) ->
  (forall source handle, P source ->
     (forall c w n w', handle c w = (inl n, w') -> P n) -> P (Recover source handle)) ->
  (forall source adapt, P source -> P (WithEnvironment source adapt)) ->
  (forall source derive, P source -> P (WithState source derive)) ->
  (forall source derive, P source -> P (WithContext source derive)) ->
  (forall source observe, P source -> P (OnExit source observe)) ->
  P NilNode ->
  forall node, P node.
Proof.
  intros Hsucceed Hfail Heval Hsuspend Htransform Hbind Hcause Hrecover Henv Hstate Hctx Hexit Hnil.
  fix IH 1. intros [].
  - apply Hsucceed.
  - apply Hfail.
  - apply Heval.
  - apply Hsuspend. intros i w n w' Heq.
    destruct (Create i w) as [[n0|p] w0]; [|discriminate Heq].
    pose proof (IH n0) as Hn. injection Heq as <- _. exact Hn.
  - apply Htransform, IH.
  - apply Hbind; [apply IH|]. intros v w n w' Heq.
    destruct (Continue v w) as [[n0|p] w0]; [|discriminate Heq].
    pose proof (IH n0) as Hn. injection Heq as <- _. exact Hn.
  - apply Hcause, IH.
  - apply Hrecover; [apply IH|]. intros c w n w' Heq.
    destruct (Handle c w) as [[n0|p] w0]; [|discriminate Heq].
    pose proof (IH n0) as Hn. injection Heq as <- _. exact Hn.
  - apply Henv, IH.
  - apply Hstate, IH.
  - apply Hctx, IH.
  - apply Hexit, IH.
  - apply Hnil.
Qed.

(** ** The machine against the reference *)

(** The machine stands at the top of [run]'s loop, or at [resume]. *)
Definition finishes (st : Node * machine * World) (r : Exit V * World) : Prop :=
  exists n, iterate run_step n st = Some r.

Definition resumes (frames : list (frame V World Ctx St)) (x : Exit V) (m : machine)
    (w : World) (r : Exit V * World) : Prop :=
  match resume frames x m w with
  | inl st => finishes st r
  | inr r' => r' = r
  end.

Definition evaluates (node : Node) (m : machine) (w : World) (r : Exit V * World) : Prop :=
  let '(x, m', w') := evaluate node m w in resumes (m_frames m') x m' w' r.

Lemma finishes_evaluates node m w r : evaluates node m w r -> finishes (node, m, w) r.
Proof.
  unfold evaluates, resumes, finishes. intros Hev.
  destruct (evaluate node m w) as [[x m'] w'] eqn:Ee.
  destruct (resume (m_frames m') x m' w') as [st|r'] eqn:Er.
  - destruct Hev as [n Hn]. exists (S n). simpl. unfold run_step. by rewrite Ee, Er.
  - subst r'. exists 1. simpl. unfold run_step. by rewrite Ee, Er.
Qed.

Definition at_frames (i : Interpretation) (frames : list (frame V World Ctx St)) : machine :=
  MkMachine (interp_Context i) (interp_State i) (interp_Environment i) frames.

(** [resume] ignores the stack recorded in the machine it is given. *)
Lemma resume_frames (frames : list (frame V World Ctx St)) :
  forall (x : Exit V) (c : Ctx) (s : St) (e : option V) fs fs' (w : World),
    resume frames x (MkMachine c s e fs) w = resume frames x (MkMachine c s e fs') w.
Proof.
  induction frames as [|fr frames IH]; intros x c s e fs fs' w; [done|].
  destruct fr; simpl; unfold interpretation, set_environment, set_state, set_ctx; simpl;
    repeat case_match; simplify_eq; first [apply IH | done].
Qed.

Lemma resumes_frames frames x i fs fs' w r :
  resumes frames x (at_frames i fs) w r -> resumes frames x (at_frames i fs') w r.
Proof. unfold resumes, at_frames. by rewrite (resume_frames frames x _ _ _ fs fs'). Qed.

(** What [resume] does with the frame on top of the stack, for each frame. *)
Lemma resumes_pop fr frames x i fs w r :
  (match fr with
   | environmentFrame environment =>
       resumes frames x
         (at_frames (MkInterpretation (interp_Context i) (interp_State i) environment) fs) w r
   | stateFrame state =>
       resumes frames x
         (at_frames (MkInterpretation (interp_Context i) state (interp_Environment i)) fs) w r
   | contextFrame ctx =>
       resumes frames x
         (at_frames (MkInterpretation ctx (interp_State i) (interp_Environment i)) fs) w r
   | transformFrame apply =>
       let '(x, w) := if IsSuccess x then transformExit apply (ExitValue x) w else (x, w) in
       resumes frames x (at_frames i fs) w r
   | transformCauseFrame apply =>
       let '(x, w) := if IsSuccess x then (x, w) else transformCause apply (ExitCause x) w in
       resumes frames x (at_frames i fs) w r
   | exitHookFrame observe =>
       let '(x, w) := observeExit observe i x w in resumes frames x (at_frames i fs) w r
   | bindFrame continue =>
       if IsSuccess x then
         match continue (ExitValue x) w with
         | (inl n, w) => finishes (n, at_frames i frames, w) r
         | (inr p, w) => resumes frames (ExitFailure (DieCause (capture p))) (at_frames i fs) w r
         end
       else resumes frames x (at_frames i fs) w r
   | recoverFrame handle =>
       if IsSuccess x then resumes frames x (at_frames i fs) w r
       else match handle (ExitCause x) w with
            | (inl n, w) => finishes (n, at_frames i frames, w) r
            | (inr p, w) =>
                resumes frames (ExitFailure (Then (ExitCause x) (DieCause (capture p))))
                  (at_frames i fs) w r
            end
   end) <->
  resumes (fr :: frames) x (at_frames i fs) w r.
Proof.
  destruct i as [c s e]. unfold resumes, at_frames. destruct fr; simpl; try done.
  - destruct (IsSuccess x); [|done]. by destruct (transformExit _ _ _).
  - unfold continueNode, captureDefect. destruct (IsSuccess x); simpl; [|done].
    by destruct (continueWith _ w) as [[] ?].
  - destruct (IsSuccess x); simpl; [done|]. by destruct (transformCause _ _ _).
  - unfold handleCause, captureDefect. destruct (IsSuccess x); simpl; [done|].
    by destruct (handle _ w) as [[] ?].
  - unfold interpretation; simpl. by destruct (observeExit _ _ _ _).
Qed.

Lemma settles node i F w r :
  evaluate node (at_frames i F) w
    = (let '(x, w') := settle (at_frames i F) node w in (x, at_frames i F, w')) ->
  (let '(x, w') := settle (at_frames i []) node w in resumes F x (at_frames i F) w' r) ->
  evaluates node (at_frames i F) w r.
Proof.
  unfold evaluates. intros ->.
  change (settle (at_frames i F) node w) with (settle (at_frames i []) node w).
  by destruct (settle (at_frames i []) node w) as [x w'].
Qed.

(** An instruction that replaces part of the ambient state: its source runs under
    a frame that restores it, and a panic while deriving it is popped through the
    same frame. *)
Ltac refused i := intros Hr; apply resumes_pop; cbn; destruct i; by eapply resumes_frames.
Ltac derived IH interp frames i :=
  intros Hr; apply (IH interp frames);
  match goal with |- context [denote ?source ?j ?w] => destruct (denote source j w) end;
  apply resumes_pop; cbn; destruct i; by eapply resumes_frames.

Lemma evaluates_denote node :
  forall i F w r,
    (let '(x, w') := denote node i w in resumes F x (at_frames i F) w' r) ->
    evaluates node (at_frames i F) w r.
Proof.
  induction node as [| | |create IH|source apply IH|source continue IHs IHk|source apply IH
    |source handle IHs IHk|source adapt IH|source derive IH|source derive IH|source observe IH|]
    using Node_program_ind; intros i F w r; try by apply settles.
  - cbn. unfold evaluates; cbn. change (interpretation (at_frames i F)) with
      (MkInterpretation (interp_Context i) (interp_State i) (interp_Environment i)).
    destruct i as [c s e]; cbn. destruct (create _ w) as [[n|p] w'] eqn:E; [|done].
    intros Hr. exact (IH _ _ _ _ E _ F w' r Hr).
  - cbn. intros Hr. apply (IH i (transformFrame apply :: F)).
    destruct (denote source i w) as [x w']. apply resumes_pop.
    destruct (if IsSuccess x then _ else _). by eapply resumes_frames.
  - cbn. intros Hr. apply (IHs i (bindFrame continue :: F)).
    destruct (denote source i w) as [x w']. apply resumes_pop.
    destruct (IsSuccess x); [|by eapply resumes_frames].
    destruct (continue _ w') as [[n|p] w''] eqn:E; [|by eapply resumes_frames].
    apply finishes_evaluates. by eapply IHk.
  - cbn. intros Hr. apply (IH i (transformCauseFrame apply :: F)).
    destruct (denote source i w) as [x w']. apply resumes_pop.
    destruct (if IsSuccess x then _ else _). by eapply resumes_frames.
  - cbn. intros Hr. apply (IHs i (recoverFrame handle :: F)).
    destruct (denote source i w) as [x w']. apply resumes_pop.
    destruct (IsSuccess x); [by eapply resumes_frames|].
    destruct (handle _ w') as [[n|p] w''] eqn:E; [|by eapply resumes_frames].
    apply finishes_evaluates. by eapply IHk.
  - cbn. unfold evaluates; cbn. destruct (adaptEnvironment _ _ w) as [[e|d] w'].
    + derived IH (MkInterpretation (interp_Context i) (interp_State i) e) (environmentFrame (interp_Environment i) :: F) i.
    + refused i.
  - cbn. unfold evaluates; cbn. destruct (deriveState _ _ w) as [[s|d] w'].
    + derived IH (MkInterpretation (interp_Context i) s (interp_Environment i)) (stateFrame (interp_State i) :: F) i.
    + refused i.
  - cbn. unfold evaluates; cbn. destruct (deriveContext _ _ w) as [[c|d] w'].
    + derived IH (MkInterpretation c (interp_State i) (interp_Environment i)) (contextFrame (interp_Context i) :: F) i.
    + refused i.
  - cbn. intros Hr. apply (IH i (exitHookFrame observe :: F)).
    destruct (denote source i w) as [x w']. apply resumes_pop.
    destruct (observeExit observe i x w'). by eapply resumes_frames.
Qed.

Lemma Interpret_total i node w :
  exists n, Interpret error_value unsupported n i node w = Some (denote node i w).
Proof.
  apply finishes_evaluates, (evaluates_denote node i []).
  by destruct (denote node i w).
Qed.

(** ** Observational equality *)

Definition node_equiv (n1 n2 : Node) : Prop := forall i w, denote n1 i w = denote n2 i w.

#[export] Instance node_equivalence : Equivalence node_equiv.
Proof.
  split; unfold node_equiv; [done | by intros ??? | intros ??? H1 H2 i w; by rewrite H1].
Qed.

(** Two callbacks that return equivalent programs in equal worlds, or panic
    alike. *)
Definition returns_equiv (r1 r2 : (Node + Panic V) * World) : Prop :=
  match r1, r2 with
  | (inl n1, w1), (inl n2, w2) => node_equiv n1 n2 /\ w1 = w2
  | (inr p1, w1), (inr p2, w2) => p1 = p2 /\ w1 = w2
  | _, _ => False
  end.

#[export] Instance Transform_proper : Proper (node_equiv ==> eq ==> node_equiv) Transform.
Proof. intros n1 n2 Hn f ? <- i w; cbn. by rewrite Hn. Qed.

#[export] Instance TransformCause_proper :
  Proper (node_equiv ==> eq ==> node_equiv) TransformCause.
Proof. intros n1 n2 Hn f ? <- i w; cbn. by rewrite Hn. Qed.

#[export] Instance OnExit_proper : Proper (node_equiv ==> eq ==> node_equiv) OnExit.
Proof. intros n1 n2 Hn f ? <- i w; cbn. by rewrite Hn. Qed.

#[export] Instance WithEnvironment_proper :
  Proper (node_equiv ==> eq ==> node_equiv) WithEnvironment.
Proof.
  intros n1 n2 Hn f ? <- i w; cbn. by destruct (adaptEnvironment _ _ _) as [[] ?].
Qed.

#[export] Instance WithState_proper : Proper (node_equiv ==> eq ==> node_equiv) WithState.
Proof. intros n1 n2 Hn f ? <- i w; cbn. by destruct (deriveState _ _ _) as [[] ?]. Qed.

#[export] Instance WithContext_proper : Proper (node_equiv ==> eq ==> node_equiv) WithContext.
Proof. intros n1 n2 Hn f ? <- i w; cbn. by destruct (deriveContext _ _ _) as [[] ?]. Qed.

#[export] Instance Bind_proper :
  Proper (node_equiv ==> pointwise_relation _ (pointwise_relation _ returns_equiv)
          ==> node_equiv) Bind.
Proof.
  intros n1 n2 Hn k1 k2 Hk i w; cbn. rewrite Hn.
  destruct (denote n2 i w) as [x w']. destruct (IsSuccess x); [|done].
  specialize (Hk (ExitValue x) w'). unfold returns_equiv in Hk.
  destruct (k1 _ _) as [[] ?], (k2 _ _) as [[] ?]; destruct_and?; try done; subst; [|done].
  naive_solver.
Qed.

#[export] Instance Recover_proper :
  Proper (node_equiv ==> pointwise_relation _ (pointwise_relation _ returns_equiv)
          ==> node_equiv) Recover.
Proof.
  intros n1 n2 Hn k1 k2 Hk i w; cbn. rewrite Hn.
  destruct (denote n2 i w) as [x w']. destruct (IsSuccess x); [done|].
  specialize (Hk (ExitCause x) w'). unfold returns_equiv in Hk.
  destruct (k1 _ _) as [[] ?], (k2 _ _) as [[] ?]; destruct_and?; try done; subst; [|done].
  naive_solver.
Qed.

(** ** Interruption *)

(** Programs whose first settling instruction is reached without running a
    callback. *)
Fixpoint straight (node : Node) : bool :=
  match node with
  | Succeed _ | Fail _ | Eval _ => true
  | Transform source _ | Bind source _ => straight source
  | _ => false
  end.

Definition interrupted_exit (i : Interpretation) (w : World) : Exit V :=
  ExitFailure (InterruptCause (CancellationReason (interp_Context i) w)).

Lemma denote_interrupted node i w e :
  ctx_Err (interp_Context i) w = Some e -> straight node = true ->
  denote node i w = (interrupted_exit i w, w).
Proof.
  intros He. induction node using Node_program_ind; cbn; try done;
    try (unfold settle, interruptCause, interrupted_exit; cbn; by rewrite He);
    intros Hs; by rewrite IHnode.
Qed.

Lemma CancellationReason_done (ctx : Ctx) (w : World) e :
  ctx_Err ctx w = Some e -> is_Some (CancellationReason ctx w).
Proof. unfold CancellationReason. intros ->. by destruct (ctx_Cause ctx w). Qed.

(** * Properties *)

(** C1. [Interpret] terminates on every program, whatever its callbacks return
    or panic with, and produces exactly the exit and the world of the reference
    semantics; more fuel changes nothing. *)
Theorem Interpret_reference (i : Interpretation) (node : Node) (w : World) :
  exists n, forall m, n <= m ->
    Interpret error_value unsupported m i node w = Some (denote node i w).
Proof.
  destruct (Interpret_total i node w) as [n Hn]. exists n. intros m Hle.
  unfold Interpret in *. by eapply iterate_more.
Qed.

(** Sequencing is associative, and a failed source, whatever its cause,
    skips the continuation. *)
Theorem Bind_laws (n : Node) (k h : option V -> call V World Node) :
  node_equiv (Bind (Bind n k) h)
    (Bind n (fun v => call_bind (k v) (fun n' => call_ret (Bind n' h))))
  /\ (forall i w x w', denote n i w = (x, w') -> IsSuccess x = false ->
        denote (Bind n k) i w = (x, w')).
Proof.
  split.
  - intros i w; cbn. destruct (denote n i w) as [x w']. unfold call_bind, call_ret.
    destruct (IsSuccess x) eqn:Ex; [|by rewrite Ex].
    destruct (k _ w') as [[n'|p] w'']; [by cbn|done].
  - intros i w x w' Hd Hx; cbn. by rewrite Hd, Hx.
Qed.

(** A done context stops a program at its first settling instruction: no
    leaf runs, no continuation runs, the world is untouched, and the exit is
    the interruption with the context's reason, which is present. *)
Theorem done_context_runs_nothing (node : Node) (i : Interpretation) (w : World) (e : error) :
  ctx_Err (interp_Context i) w = Some e -> straight node = true ->
  denote node i w = (interrupted_exit i w, w)
  /\ is_Some (CancellationReason (interp_Context i) w).
Proof.
  intros He Hs. split; [by eapply denote_interrupted | by eapply CancellationReason_done].
Qed.

Lemma Interpret_runs (i : Interpretation) (node : Node) (w : World) :
  exists n, forall m, n <= m ->
    Interpret error_value unsupported m i node w = Some (denote node i w).
Proof.
  destruct (Interpret_total i node w) as [n Hn]. exists n. intros m Hle.
  unfold Interpret in *. by eapply iterate_more.
Qed.

Lemma Interpret_denotes (i : Interpretation) (node : Node) (w : World) m r :
  Interpret error_value unsupported m i node w = Some r -> denote node i w = r.
Proof.
  intros Hm. destruct (Interpret_total i node w) as [n Hn]. unfold Interpret in *.
  by eapply iterate_det.
Qed.

Lemma capture_appended (x : Exit V) (p : Panic V) :
  leaves (Then (ExitCause x) (DieCause (capture p))) = leaves (ExitCause x) ++ [DieCause (capture p)].
Proof. by rewrite leaves_Then. Qed.

(** C31. A callback that panics on a failure never loses what was known of it. When
    the interpretation of a program comes to a failure, and a recovery handler
    offered its cause, or an exit hook shown its exit, panics, then the
    interpretation of the program under the handler or the hook ends too, in the
    world the panic left, with a failure whose cause is every failure known before,
    in their order, and the panic's defect after them. *)
Theorem panics_are_appended (n : Node) (handle : Cause V -> call V World Node)
    (observe : Interpretation -> Exit V -> call V World (Exit V))
    (i : Interpretation) (w w' w'' : World) (x : Exit V) (p : Panic V) (k : nat) :
  Interpret error_value unsupported k i n w = Some (x, w') -> IsSuccess x = false ->
  (handle (ExitCause x) w' = (inr p, w'') ->
     exists cause enough, leaves cause = leaves (ExitCause x) ++ [DieCause (capture p)]
     /\ forall m, enough <= m ->
        Interpret error_value unsupported m i (Recover n handle) w = Some (ExitFailure cause, w''))
  /\ (observe i x w' = (inr p, w'') ->
     exists cause enough, leaves cause = leaves (ExitCause x) ++ [DieCause (capture p)]
     /\ forall m, enough <= m ->
        Interpret error_value unsupported m i (OnExit n observe) w = Some (ExitFailure cause, w'')).
Proof.
  intros Hd%Interpret_denotes Hx.
  split; intros Hp; exists (Then (ExitCause x) (DieCause (capture p))).
  - destruct (Interpret_runs i (Recover n handle) w) as [enough Hrun]. exists enough.
    split; [apply capture_appended|]. intros m Hm. rewrite (Hrun m Hm); cbn. by rewrite Hd, Hx, Hp.
  - destruct (Interpret_runs i (OnExit n observe) w) as [enough Hrun]. exists enough.
    split; [apply capture_appended|]. intros m Hm. rewrite (Hrun m Hm); cbn.
    rewrite Hd. unfold observeExit, runHook. by rewrite Hp.
Qed.

(** A hook that panics on a success does replace it, by the defect alone. *)
Theorem hook_panics_replace_successes (n : Node)
    (observe : Interpretation -> Exit V -> call V World (Exit V))
    (i : Interpretation) (w w' w'' : World) (v : option V) (p : Panic V) :
  denote n i w = (ExitSuccess v, w') -> observe i (ExitSuccess v) w' = (inr p, w'') ->
  denote (OnExit n observe) i w = (ExitFailure (DieCause (capture p)), w'').
Proof. intros Hd Hp; cbn. rewrite Hd. unfold observeExit, runHook. by rewrite Hp. Qed.

End Facts.
