(* ===== verification/Algebra.v ===== *)
(** The algebra that preserves channels under composition
    ([effect/algebra.go]). *)

From S2P Require Import Prelude.

(** [Never]: an interface nobody implements, whose one value is nil. *)
Inductive Never : Type := nil_Never.

(** * Products *)

Record Product (A B : Type) : Type := ProductOf { First : A; Second : B }.
Arguments ProductOf {A B} _ _.
Arguments First {A B} _.
Arguments Second {A B} _.

Definition MapFirst {A B C} (p : Product A B) (f : A -> C) : Product C B :=
  ProductOf (f (First p)) (Second p).
Definition MapSecond {A B C} (p : Product A B) (f : B -> C) : Product A C :=
  ProductOf (First p) (f (Second p)).
Definition Product_Bimap {A B C D} (p : Product A B) (first : A -> C) (second : B -> D)
    : Product C D := ProductOf (first (First p)) (second (Second p)).

(** * Sums: right-biased, with one active case *)

Inductive Either (L R : Type) : Type :=
| EitherLeft (value : L)
| EitherRight (value : R).
Arguments EitherLeft {L R} _.
Arguments EitherRight {L R} _.

Definition IsLeft {L R} (e : Either L R) : bool :=
  match e with EitherLeft _ => true | EitherRight _ => false end.
Definition IsRight {L R} (e : Either L R) : bool :=
  match e with EitherLeft _ => false | EitherRight _ => true end.
Definition LeftValue {L R} (e : Either L R) : option L :=
  match e with EitherLeft l => Some l | EitherRight _ => None end.
Definition RightValue {L R} (e : Either L R) : option R :=
  match e with EitherLeft _ => None | EitherRight r => Some r end.
Definition Either_Fold {L R T} (e : Either L R) (lhs : L -> T) (rhs : R -> T) : T :=
  match e with EitherRight r => rhs r | EitherLeft l => lhs l end.
Definition Either_Map {L R T} (e : Either L R) (f : R -> T) : Either L T :=
  match e with EitherRight r => EitherRight (f r) | EitherLeft l => EitherLeft l end.
Definition Either_FlatMap {L R T} (e : Either L R) (f : R -> Either L T) : Either L T :=
  match e with EitherRight r => f r | EitherLeft l => EitherLeft l end.
Definition MapLeft {L R M} (e : Either L R) (f : L -> M) : Either M R :=
  match e with EitherRight r => EitherRight r | EitherLeft l => EitherLeft (f l) end.
Definition Either_Bimap {L R M T} (e : Either L R) (lhs : L -> M) (rhs : R -> T)
    : Either M T :=
  match e with EitherRight r => EitherRight (rhs r) | EitherLeft l => EitherLeft (lhs l) end.
Definition Swap {L R} (e : Either L R) : Either R L :=
  match e with EitherRight r => EitherLeft r | EitherLeft l => EitherRight l end.
