(* ===== verification/Effects.v ===== *)
(** Effects as typed descriptions over the erased instructions, and the
    sequential, recovering, channel-widening and finalizing combinators
    ([effect/effect.go], [erasure.go], [effect_composition.go],
    [effect_recovery.go], [effect_sequential.go], [finalization.go]).

    An application's callback of type [A -> B] is an effectful Go function
    [A -> call B]: it may read and write the world and it may panic. *)

From S2P Require Import Prelude Outcome Traversal Cause Interpreter Algebra.

Section Effects.
  Context {V World Ctx St : Type} `{ContextOps World Ctx} `{StateOps St}.
  Context (error_value : error -> V) (unsupported : error).
  (** The panic of a zero Effect: "effect: zero Effect has no instructions". *)
  Context (zero_effect : Panic V).

  #[local] Abbreviation Node := (Node V World Ctx St).
  #[local] Abbreviation Interpretation := (Interpretation V Ctx St).
  #[local] Abbreviation call := (call V World).

(** * Effects and their instructions *)

Record Effect (R E A : Type) : Type := MkEffect { effect_node : option Node }.

Definition fromInstructions {R E A} (node : Node) : Effect R E A := MkEffect R E A (Some node).

Definition noInstructions (_ : Interpretation) : call (Exit V) := call_panic zero_effect.

Definition instructions {R E A} (fx : Effect R E A) : Node :=
  match effect_node R E A fx with
  | None => Eval noInstructions
  | Some node => node
  end.

(** [fx.run]: a nested interpretation to completion. *)
Definition run {R E A} `{Erased V R} (fx : Effect R E A) (ctx : Ctx) (state : St) (env : R)
    : call (Exit V) :=
  fun w =>
    let '(exit, w') :=
      denote error_value unsupported (instructions fx)
        (MkInterpretation ctx state (erase env)) w in
    (inl exit, w').

(** * Erasure of callbacks ([erasure.go]) *)

Definition asEnvironment {R} `{Erased V R} (environment : option V) : R :=
  unerase environment.

Definition eraseTransform {A B} `{Erased V A} `{Erased V B} (transform : A -> call B)
    : option V -> call (option V) :=
  fun value => call_bind (transform (asValue value)) (fun b => call_ret (erase b)).

Definition eraseContinuation {R E A B} `{Erased V A} (continueWith : A -> call (Effect R E B))
    : option V -> call Node :=
  fun value => call_bind (continueWith (asValue value)) (fun fx => call_ret (instructions fx)).

Definition eraseAdapter {R0 R} `{Erased V R0} `{Erased V R} (adapt : R0 -> call R)
    : option V -> call (option V) :=
  fun environment => call_bind (adapt (asEnvironment environment)) (fun r => call_ret (erase r)).

Definition eraseRecovery {R E2 A} (handler : Cause V -> call (Effect R E2 A))
    : Cause V -> call Node :=
  fun cause => call_bind (handler cause) (fun fx => call_ret (instructions fx)).

Definition eraseWork {R E A} `{Erased V R} (fx : Effect R E A) (env : R)
    : Ctx -> St -> call (Exit V) :=
  fun ctx state => run fx ctx state env.

Definition fromRuntime {R E A} `{Erased V R} (eval : Ctx -> St -> R -> call (Exit V))
    : Effect R E A :=
  fromInstructions
    (Eval (fun i =>
       eval (interp_Context i) (interp_State i) (asEnvironment (interp_Environment i)))).

Definition suspendRuntime {R E A} `{Erased V R} (create : Ctx -> St -> R -> call (Effect R E A))
    : Effect R E A :=
  fromInstructions
    (Suspend (fun i =>
       call_bind
         (create (interp_Context i) (interp_State i) (asEnvironment (interp_Environment i)))
         (fun fx => call_ret (instructions fx)))).

(** * Constructors ([effect.go]) *)

Definition From {R E A} `{Erased V R} (eval : Ctx -> R -> call (Exit V)) : Effect R E A :=
  fromRuntime (fun ctx _ env => eval ctx env).

Definition FromEither {R E A} `{Erased V R} `{Erased V E} `{Erased V A}
    (eval : Ctx -> R -> call (Either E A)) : Effect R E A :=
  From (fun ctx env =>
    call_bind (eval ctx env) (fun e => call_ret (Either_Fold e ExitFailureOf ExitSuccessOf))).

Definition SucceedWith {R E A} `{Erased V A} (value : A) : Effect R E A :=
  fromInstructions (Succeed (erase value)).

Definition FailWithCause {R E A} (cause : Cause V) : Effect R E A :=
  fromInstructions (Fail cause).

(** [site] is the caller's file and line. *)
Definition FailWith {R E A} `{Erased V E} (site : string) (failure : E) : Effect R E A :=
  FailWithCause (WithOrigin (FailCauseOf failure) (MkOrigin site EmptyString)).

Definition Try {R E A} `{Erased V R} `{Erased V E} `{Erased V A}
    (eval : Ctx -> R -> call (A * option error)) (mapError : error -> E) : Effect R E A :=
  From (fun ctx env =>
    call_bind (eval ctx env) (fun '(value, err) =>
      match err with
      | Some err' => call_ret (ExitFailureOf (mapError err'))
      | None => call_ret (ExitSuccessOf value)
      end)).

Definition deferred_Node {R E A} (create : call (Effect R E A)) (_ : Interpretation)
    : call Node := call_bind create (fun fx => call_ret (instructions fx)).

Definition SuspendEffect {R E A} (create : call (Effect R E A)) : Effect R E A :=
  fromInstructions (Suspend (deferred_Node create)).

Definition Map {R E A B} `{Erased V A} `{Erased V B} (fx : Effect R E A) (f : A -> call B)
    : Effect R E B :=
  fromInstructions (Transform (instructions fx) (eraseTransform f)).

(** The failure transform of [MapError] is pure here: it is applied leaf by
    leaf inside [MapCauseFailure]. *)
Definition MapError {R E E2 A} `{Erased V E} `{Erased V E2} (fx : Effect R E A) (f : E -> E2)
    : Effect R E2 A :=
  fromInstructions
    (TransformCause (instructions fx) (fun c => call_ret (eraseFailureTransform f c))).

Definition ContramapEnv {R R0 E A} `{Erased V R} `{Erased V R0}
    (fx : Effect R E A) (f : R0 -> call R) : Effect R0 E A :=
  fromInstructions (WithEnvironment (instructions fx) (eraseAdapter f)).

Definition constantEnvironment {R0 R} (environment : R) : R0 -> call R :=
  fun _ => call_ret environment.

Definition Provide {R E A} `{Erased V R} `{Erased V unit} (fx : Effect R E A) (env : R)
    : Effect unit E A := ContramapEnv fx (constantEnvironment (R0 := unit) env).

Definition WidenError {R E0 E A} (fx : Effect R E0 A) : Effect R E A :=
  fromInstructions (instructions fx).

(** * Sequencing ([effect_sequential.go]) *)

Definition FlatMap {R E A B} `{Erased V A} (fx : Effect R E A) (f : A -> call (Effect R E B))
    : Effect R E B :=
  fromInstructions (Bind (instructions fx) (eraseContinuation f)).

Definition As {R E A B} `{Erased V A} `{Erased V B} (fx : Effect R E A) (value : B)
    : Effect R E B := Map fx (fun _ => call_ret value).

Definition Tap {R E A B} `{Erased V A} `{Erased V B}
    (fx : Effect R E A) (inspect : A -> call (Effect R E B)) : Effect R E A :=
  FlatMap fx (fun value => call_bind (inspect value) (fun fx' => call_ret (As fx' value))).

Definition AndThen {R E A B} `{Erased V A} (fx : Effect R E A) (that : Effect R E B)
    : Effect R E B := FlatMap fx (fun _ => call_ret that).

Definition Flatten {R E A} `{Erased V (Effect R E A)} (fx : Effect R E (Effect R E A))
    : Effect R E A := FlatMap fx (fun inner => call_ret inner).

Definition CheckInterrupt {R E} `{Erased V unit} : Effect R E unit := SucceedWith tt.

(** * Composition ([effect_composition.go]) *)

Definition Zip {R E A B} `{Erased V A} `{Erased V B} `{Erased V (Product A B)}
    (fx : Effect R E A) (that : Effect R E B) : Effect R E (Product A B) :=
  FlatMap fx (fun lhs =>
    call_ret (Map that (fun rhs => call_ret (ProductOf lhs rhs)))).

Section Channels.
  Context {R R2 E E2 : Type}.
  Context `{Erased V R} `{Erased V R2} `{Erased V E} `{Erased V E2}.
  Context `{Erased V (Product R R2)} `{Erased V (Either E E2)}.

Definition asLeftComponent {A} (fx : Effect R E A) : Effect (Product R R2) (Either E E2) A :=
  ContramapEnv (MapError fx EitherLeft)
    (fun env : Product R R2 => call_ret (First env)).

Definition asRightComponent {B} (that : Effect R2 E2 B)
    : Effect (Product R R2) (Either E E2) B :=
  ContramapEnv (MapError that EitherRight)
    (fun env : Product R R2 => call_ret (Second env)).

Definition FlatMapChannels {A B} `{Erased V A}
    (fx : Effect R E A) (f : A -> call (Effect R2 E2 B))
    : Effect (Product R R2) (Either E E2) B :=
  FlatMap (asLeftComponent fx) (fun value =>
    call_bind (f value) (fun that => call_ret (asRightComponent that))).

Definition ZipChannels {A B} `{Erased V A} `{Erased V B} `{Erased V (Product A B)}
    (fx : Effect R E A) (that : Effect R2 E2 B)
    : Effect (Product R R2) (Either E E2) (Product A B) :=
  Zip (asLeftComponent fx) (asRightComponent that).
End Channels.

(** * Recovery ([effect_recovery.go]) *)

Definition CatchCause {R E E2 A} (fx : Effect R E A) (handler : Cause V -> call (Effect R E2 A))
    : Effect R E2 A :=
  fromInstructions (Recover (instructions fx) (eraseRecovery handler)).

Definition CatchAll {R E A} `{Erased V E} (fx : Effect R E A)
    (handler : E -> call (Effect R E A)) : Effect R E A :=
  CatchCause fx (fun cause =>
    match Cause_Failure cause with
    | None => call_ret (FailWithCause cause)
    | Some failure => handler failure
    end).

Definition originalFailure {E E2} `{Erased V (Either E E2)} (cause : Cause V) : option E :=
  match Cause_Failure (E := Either E E2) cause with
  | None => None
  | Some failure => LeftValue failure
  end.

Definition CatchAllChannels {R E E2 A}
    `{Erased V E} `{Erased V E2} `{Erased V (Either E E2)}
    (fx : Effect R E A) (handler : E -> call (Effect R E2 A)) : Effect R (Either E E2) A :=
  CatchCause (MapError fx EitherLeft) (fun cause =>
    match originalFailure (E2 := E2) cause with
    | None => call_ret (FailWithCause cause)
    | Some original =>
        call_bind (handler original) (fun fx' => call_ret (MapError fx' EitherRight))
    end).

(** An [Exit[E, A]] as a value of another effect's success channel. *)
Context `{Erased V (Exit V)}.

Definition reifyExit (_ : Interpretation) (exit : Exit V) : call (Exit V) :=
  call_ret (ExitSuccess (erase exit)).

Definition ExitOf {R E0 E A} (fx : Effect R E A) : Effect R E0 (Exit V) :=
  fromInstructions (OnExit (instructions fx) reifyExit).

Definition FoldEffect {R E0 E A B} `{Erased V A} `{Erased V B} (fx : Effect R E A)
    (failure : Cause V -> call B) (success : A -> call B) : Effect R E0 B :=
  Map (ExitOf (E0 := E0) fx) (fun exit => Exit_Fold exit failure success).

Definition OrDie {R E0 E A} (fx : Effect R E A) : Effect R E0 A :=
  fromInstructions
    (TransformCause (instructions fx) (fun c => call_ret (FailuresAsDefects c))).

(** * Finalization ([finalization.go]) *)

Definition finalizeExit {R E0} `{Erased V R} (i : Interpretation)
    (finalize : Exit V -> call (Effect R E0 unit)) (exit : Exit V) : call (Cause V) :=
  let environment := asEnvironment (interp_Environment i) in
  let cleanup := ctx_WithoutCancel (interp_Context i) in
  call_bind (finalize exit) (fun fx =>
    call_bind (run fx cleanup (interp_State i) environment) (fun result =>
      call_ret (default zeroCause (Exit_Cause result)))).

Definition OnExitEffect {R E0 E A} `{Erased V R} (fx : Effect R E A)
    (finalize : Exit V -> call (Effect R E0 unit)) : Effect R E A :=
  fromInstructions
    (OnExit (instructions fx) (fun i exit =>
       call_bind (finalizeExit i finalize exit) (fun cleanup =>
         call_ret (if IsEmpty cleanup then exit
                   else ExitFailure (Then (ExitCause exit) cleanup))))).

Definition Ensuring {R E0 E A} `{Erased V R} (fx : Effect R E A) (finalize : Effect R E0 unit)
    : Effect R E A := OnExitEffect fx (fun _ => call_ret finalize).

End Effects.
