(* ===== verification/EffectsFacts.v ===== *)
(** The laws of the combinators: sequencing, recovery, reified exits,
    finalization and channel tagging, against the reference semantics the
    interpreter computes. *)

From S2P Require Import Prelude Outcome Traversal OutcomeFacts Cause Interpreter.
From S2P Require Import InterpreterFacts Algebra Effects.

Section Facts.
  Context {V World Ctx St : Type} `{ContextOps World Ctx} `{StateOps St}.
  Context (error_value : error -> V) (unsupported : error) (zero_effect : Panic V).

  #[local] Abbreviation Interpretation := (Interpretation V Ctx St).
  #[local] Abbreviation Effect := (@Effect V World Ctx St).
  #[local] Abbreviation call := (call V World).
  #[local] Abbreviation instructions := (instructions zero_effect).
  #[local] Abbreviation denote := (denote error_value unsupported).

(** What running an effect does. *)
Definition runs {R E A} (fx : Effect R E A) (i : Interpretation) (w : World)
    : Exit V * World := denote (instructions fx) i w.

(** Two effects no caller can tell apart. *)
Definition effect_equiv {R E A} (fx gx : Effect R E A) : Prop :=
  node_equiv error_value unsupported (instructions fx) (instructions gx).

Lemma effect_equiv_runs {R E A} (fx gx : Effect R E A) :
  (forall i w, runs fx i w = runs gx i w) -> effect_equiv fx gx.
Proof. done. Qed.

(** The cooperative checkpoint of a settling instruction, as an outcome. *)
Definition checkpoint (i : Interpretation) (w : World) (live : Exit V) : Exit V :=
  match ctx_Err (interp_Context i) w with
  | Some _ => interrupted_exit i w
  | None => live
  end.

Definition here (i : Interpretation) : Origin :=
  MkOrigin EmptyString (state_Operation (interp_State i)).

Definition with_environment (i : Interpretation) (environment : option V) : Interpretation :=
  MkInterpretation (interp_Context i) (interp_State i) environment.

(** ** Computation rules *)

Lemma runs_SucceedWith {R E A} `{Erased V A} (a : A) i w :
  runs (SucceedWith (R := R) (E := E) a) i w = (checkpoint i w (ExitSuccess (erase a)), w).
Proof.
  unfold runs, checkpoint, interrupted_exit; cbn. unfold settle, interruptCause; cbn.
  by destruct (ctx_Err _ w).
Qed.

Lemma runs_FailWithCause {R E A} (c : Cause V) i w :
  runs (FailWithCause (R := R) (E := E) (A := A) c) i w
  = (checkpoint i w (ExitFailure (WithOrigin c (here i))), w).
Proof.
  unfold runs, checkpoint, interrupted_exit; cbn. unfold settle, interruptCause; cbn.
  by destruct (ctx_Err _ w).
Qed.

(** The outcome of calling [k], which builds the effect to run next. *)
Definition runs_call {R E A} (k : call (Effect R E A)) (i : Interpretation) (w : World)
    : Exit V * World :=
  match k w with
  | (inl fx, w') => runs fx i w'
  | (inr p, w') => (ExitFailure (DieCause (capture p)), w')
  end.

Lemma runs_FlatMap {R E A B} `{Erased V A} (fx : Effect R E A)
    (f : A -> call (Effect R E B)) i w :
  runs (FlatMap zero_effect fx f) i w
  = let '(x, w') := runs fx i w in
    if IsSuccess x then runs_call (f (asValue (ExitValue x))) i w' else (x, w').
Proof.
  unfold runs, runs_call; cbn. destruct (denote _ i w) as [x w'].
  destruct (IsSuccess x); [|done]. unfold eraseContinuation, call_bind, call_ret.
  by destruct (f _ w') as [[gx|p] w''].
Qed.

Lemma runs_Map {R E A B} `{Erased V A} `{Erased V B} (fx : Effect R E A)
    (f : A -> call B) i w :
  runs (Map zero_effect fx f) i w
  = let '(x, w') := runs fx i w in
    if IsSuccess x then
      match f (asValue (ExitValue x)) w' with
      | (inl b, w'') => (ExitSuccess (erase b), w'')
      | (inr p, w'') => (ExitFailure (DieCause (capture p)), w'')
      end
    else (x, w').
Proof.
  unfold runs; cbn. destruct (denote _ i w) as [x w'].
  destruct (IsSuccess x); [|done].
  unfold transformExit, eraseTransform, call_bind, call_ret.
  by destruct (f _ w') as [[b|p] w''].
Qed.

Lemma runs_MapError {R E E2 A} `{Erased V E} `{Erased V E2} (fx : Effect R E A)
    (f : E -> E2) i w :
  runs (MapError zero_effect fx f) i w
  = let '(x, w') := runs fx i w in
    if IsSuccess x then (x, w')
    else (ExitFailure (eraseFailureTransform f (ExitCause x)), w').
Proof.
  unfold runs; cbn. destruct (denote _ i w) as [x w']. by destruct (IsSuccess x).
Qed.

Lemma runs_ContramapEnv {R R0 E A} `{Erased V R} `{Erased V R0} (fx : Effect R E A)
    (f : R0 -> call R) i w :
  runs (ContramapEnv zero_effect fx f) i w
  = match f (asEnvironment (interp_Environment i)) w with
    | (inl r, w') => runs fx (with_environment i (erase r)) w'
    | (inr p, w') => (ExitFailure (DieCause (capture p)), w')
    end.
Proof.
  unfold runs; cbn. unfold adaptEnvironment, captureDefect, eraseAdapter, call_bind, call_ret.
  by destruct (f _ w) as [[r|p] w'].
Qed.

Lemma runs_CatchCause {R E E2 A} (fx : Effect R E A)
    (handler : Cause V -> call (Effect R E2 A)) i w :
  runs (CatchCause zero_effect fx handler) i w
  = let '(x, w') := runs fx i w in
    if IsSuccess x then (x, w') else
      match handler (ExitCause x) w' with
      | (inl gx, w'') => runs gx i w''
      | (inr p, w'') => (ExitFailure (Then (ExitCause x) (DieCause (capture p))), w'')
      end.
Proof.
  unfold runs; cbn. destruct (denote _ i w) as [x w'].
  destruct (IsSuccess x); [done|]. unfold eraseRecovery, call_bind, call_ret.
  by destruct (handler _ w') as [[gx|p] w''].
Qed.

Lemma runs_ExitOf {R E0 E A} `{Erased V (Exit V)} (fx : Effect R E A) i w :
  runs (ExitOf zero_effect (E0 := E0) fx) i w
  = let '(x, w') := runs fx i w in (ExitSuccess (erase x), w').
Proof. unfold runs; cbn. by destruct (denote _ i w). Qed.

(** The detached interpretation a finalizer runs in. *)
Definition detached (i : Interpretation) : Interpretation :=
  MkInterpretation (ctx_WithoutCancel (interp_Context i)) (interp_State i)
    (interp_Environment i).

Definition cleanup_of (x : Exit V) : Cause V := default zeroCause (Exit_Cause x).

Lemma runs_OnExitEffect {R E0 E A} `{Erased V R} (fx : Effect R E A)
    (finalize : Exit V -> call (Effect R E0 unit)) i w :
  interp_Environment i = erase (asEnvironment (R := R) (interp_Environment i)) ->
  runs (OnExitEffect error_value unsupported zero_effect fx finalize) i w
  = let '(x, w') := runs fx i w in
    let '(c, w'') := runs_call (finalize x) (detached i) w' in
    (composeCleanup x (cleanup_of c), w'').
Proof.
  intros Henv. unfold runs, runs_call; cbn. destruct (denote _ i w) as [x w'].
  unfold observeExit, runHook, captureDefect, finalizeExit, call_bind, call_ret, detached.
  destruct (finalize x w') as [[gx|p] w''].
  - unfold run. rewrite <- Henv. unfold runs, composeCleanup, cleanup_of.
    by destruct (denote _ _ w'') as [c w3].
  - unfold composeCleanup, cleanup_of; cbn. done.
Qed.

(** What [OrDie] does to one leaf. *)
Definition die_leaf (leaf : Cause V) : Cause V :=
  match Kind leaf with
  | CauseFailure => DieCause (MkDefect (Failure leaf) EmptyString)
  | CauseDefect => DieCause (Cause_Defect leaf)
  | CauseInterrupt => InterruptCause (Interruption_Cause (Cause_Interruption leaf))
  | _ => leaf
  end.

Lemma leaves_FailuresAsDefects (c : Cause V) :
  leaves (FailuresAsDefects c) = map die_leaf (leaves c).
Proof.
  unfold FailuresAsDefects. rewrite FoldCause_eq; cbn.
  induction c as [k f d i o l r IHl IHr] using Cause_nested_ind.
  destruct k; simpl; try done; unfold combineFolds; simpl;
    rewrite ?leaves_Then, ?leaves_Both, map_app;
    (apply (f_equal2 app); [branch l IHl | branch r IHr]).
Qed.

Lemma FailuresAsDefects_no_failure (c : Cause V) :
  Forall (fun leaf => Kind leaf <> CauseFailure) (leaves (FailuresAsDefects c)).
Proof.
  rewrite leaves_FailuresAsDefects. apply Forall_forall. intros leaf.
  rewrite list_elem_of_fmap. intros (y & -> & _). unfold die_leaf.
  destruct (Kind y) eqn:E; cbn; congruence.
Qed.

(** * Properties *)

(** C27. Sequencing effects is associative; a pure source is the continuation
    itself once the checkpoint lets it pass; ending a program with the pure
    effect only adds that checkpoint; and two maps fuse into one, panics of
    either function included. *)
Theorem FlatMap_laws {R E A B C} `{Erased V A} `{Erased V B} `{Erased V C}
    (fx : Effect R E A) (f : A -> call (Effect R E B)) (g : B -> call (Effect R E C))
    (p : A -> call B) (q : B -> call C) :
  effect_equiv (FlatMap zero_effect (FlatMap zero_effect fx f) g)
    (FlatMap zero_effect fx (fun a =>
       call_bind (f a) (fun gx => call_ret (FlatMap zero_effect gx g))))
  /\ (forall a i w, runs (FlatMap zero_effect (SucceedWith a) f) i w
        = match ctx_Err (interp_Context i) w with
          | Some _ => (interrupted_exit i w, w)
          | None => runs_call (f a) i w
          end)
  /\ (forall i w, runs (FlatMap zero_effect fx (fun a => call_ret (SucceedWith a))) i w
        = let '(x, w') := runs fx i w in
          if IsSuccess x
          then (checkpoint i w' (ExitSuccess (erase (asValue (A := A) (ExitValue x)))), w')
          else (x, w'))
  /\ effect_equiv (Map zero_effect (Map zero_effect fx p) q)
       (Map zero_effect fx (fun a => call_bind (p a) q)).
Proof.
  split_and!; [apply effect_equiv_runs; intros i w | intros a i w | intros i w |
               apply effect_equiv_runs; intros i w].
  - rewrite !runs_FlatMap. destruct (runs fx i w) as [x w'].
    destruct (IsSuccess x) eqn:Hx; [|by rewrite Hx].
    unfold runs_call, call_bind, call_ret. destruct (f _ w') as [[gx|pn] w'']; [|done].
    by rewrite runs_FlatMap.
  - rewrite runs_FlatMap, runs_SucceedWith. unfold checkpoint, interrupted_exit.
    destruct (ctx_Err _ w); [done|]. cbn. unfold asValue. by rewrite unerase_erase.
  - rewrite runs_FlatMap. destruct (runs fx i w) as [x w']. destruct (IsSuccess x); [|done].
    unfold runs_call, call_ret. by rewrite runs_SucceedWith.
  - rewrite !runs_Map. destruct (runs fx i w) as [x w'].
    destruct (IsSuccess x) eqn:Hx; [|by rewrite Hx].
    unfold call_bind. destruct (p _ w') as [[b|pn] w'']; cbn; [|done].
    unfold asValue. by rewrite unerase_erase.
Qed.

(** [CatchAll] leaves a success alone, hands an exact leaf failure to the
    handler (a panic of which is appended to the failure), and re-raises any
    other cause through a new failing instruction: its leaves are kept, gaining
    the operation as their origin where they had none, but only while the
    context is live. Once the context is done the re-raise is itself
    interrupted and the cause, a defect included, is lost. *)
Theorem CatchAll_cases {R E A} `{Erased V E} (fx : Effect R E A)
    (handler : E -> call (Effect R E A)) (i : Interpretation) (w w' : World) (x : Exit V) :
  runs fx i w = (x, w') ->
  (IsSuccess x = true -> runs (CatchAll zero_effect fx handler) i w = (x, w'))
  /\ (forall e, IsSuccess x = false -> Cause_Failure (ExitCause x) = Some e ->
        runs (CatchAll zero_effect fx handler) i w
        = match handler e w' with
          | (inl gx, w'') => runs gx i w''
          | (inr p, w'') => (ExitFailure (Then (ExitCause x) (DieCause (capture p))), w'')
          end)
  /\ (IsSuccess x = false -> Cause_Failure (E := E) (ExitCause x) = None ->
        runs (CatchAll zero_effect fx handler) i w
        = (checkpoint i w' (ExitFailure (WithOrigin (ExitCause x) (here i))), w')
        /\ (ctx_Err (interp_Context i) w' <> None ->
            leaves (ExitCause (fst (runs (CatchAll zero_effect fx handler) i w)))
            = [InterruptCause (CancellationReason (interp_Context i) w')])).
Proof.
  intros Hfx. unfold CatchAll. rewrite runs_CatchCause, Hfx. split_and!.
  - by intros ->.
  - intros e -> ->. done.
  - intros -> ->. unfold call_ret. rewrite runs_FailWithCause. split; [done|].
    unfold checkpoint, interrupted_exit. by destruct (ctx_Err _ w').
Qed.

(** Reifying an exit never fails, runs the source once and changes nothing
    else; [Fold] calls exactly the handler of the outcome, and a panic of that
    handler is a defect of the result rather than an input of the other. *)
Theorem ExitOf_Fold_total {R E0 E A B} `{Erased V (Exit V)} `{Erased V A} `{Erased V B}
    (fx : Effect R E A) (failure : Cause V -> call B) (success : A -> call B)
    (i : Interpretation) (w : World) :
  runs (ExitOf zero_effect (E0 := E0) fx) i w
    = (let '(x, w') := runs fx i w in (ExitSuccess (erase x), w'))
  /\ runs (FoldEffect zero_effect (E0 := E0) fx failure success) i w
    = let '(x, w') := runs fx i w in
      match (if IsSuccess x then success (asValue (ExitValue x)) else failure (ExitCause x)) w'
      with
      | (inl b, w'') => (ExitSuccess (erase b), w'')
      | (inr p, w'') => (ExitFailure (DieCause (capture p)), w'')
      end.
Proof.
  split; [apply runs_ExitOf|]. unfold FoldEffect. rewrite runs_Map, runs_ExitOf.
  destruct (runs fx i w) as [x w']; cbn. unfold asValue. rewrite unerase_erase.
  unfold Exit_Fold, Exit_Value, Exit_Cause, asValue. by destruct (IsSuccess x).
Qed.

(** C9. A finalizer runs exactly once, after the source, in every outcome and
    even when the caller is cancelled: in a context that is not done, with the
    source's state and environment. Every failure of the source is kept, and
    whatever goes wrong in the finalizer, a panic while building it included,
    is appended after it. *)
Theorem OnExit_always_finalizes {R E0 E A} `{Erased V R} (fx : Effect R E A)
    (finalize : Exit V -> call (Effect R E0 unit)) (i : Interpretation) (w w' w'' : World)
    (x c : Exit V) :
  interp_Environment i = erase (asEnvironment (R := R) (interp_Environment i)) ->
  runs fx i w = (x, w') ->
  runs_call (finalize x) (detached i) w' = (c, w'') ->
  ctx_Err (interp_Context (detached i)) w' = None
  /\ runs (OnExitEffect error_value unsupported zero_effect fx finalize) i w
     = (composeCleanup x (cleanup_of c), w'')
  /\ leaves (ExitCause (composeCleanup x (cleanup_of c)))
     = leaves (ExitCause x) ++ leaves (cleanup_of c)
  /\ (IsSuccess c = true -> composeCleanup x (cleanup_of c) = x).
Proof.
  intros Henv Hfx Hfin. split_and!.
  - apply ctx_WithoutCancel_Err.
  - by rewrite runs_OnExitEffect, Hfx, Hfin.
  - unfold composeCleanup. destruct (IsEmpty (cleanup_of c)) eqn:He; cbn.
    + by rewrite (leaves_empty _ He), app_nil_r.
    + by rewrite leaves_Then.
  - unfold cleanup_of, Exit_Cause. by intros ->.
Qed.

(** [OrDie] leaves a success and the structure of a cause alone and turns
    every typed failure into a defect carrying the same value: afterwards no
    typed failure remains. *)
Theorem OrDie_no_typed_failure {R E0 E A} (fx : Effect R E A) (i : Interpretation)
    (w w' : World) (x : Exit V) :
  runs fx i w = (x, w') ->
  exists y, runs (OrDie zero_effect (E0 := E0) fx) i w = (y, w')
  /\ (IsSuccess x = true -> y = x)
  /\ (IsSuccess x = false -> IsSuccess y = false
        /\ leaves (ExitCause y) = map die_leaf (leaves (ExitCause x))
        /\ Forall (fun leaf => Kind leaf <> CauseFailure) (leaves (ExitCause y))).
Proof.
  intros Hfx. unfold runs, OrDie in *; cbn in *. rewrite Hfx.
  destruct (IsSuccess x) eqn:Hx; eexists; (split; [done|]); split; intros Hs; try done.
  cbn. split_and!; [done | apply leaves_FailuresAsDefects | apply FailuresAsDefects_no_failure].
Qed.

(** Zipping effects with different channels keeps them apart: each side
    runs in its own half of the environment, the left one first; a failure is
    tagged with the side it came from, leaf by leaf, and a success pairs both
    values. *)
Theorem ZipChannels_tags {R R2 E E2 A B} `{Erased V R} `{Erased V R2} `{Erased V E}
    `{Erased V E2} `{Erased V (Product R R2)} `{Erased V (Either E E2)}
    `{Erased V A} `{Erased V B} `{Erased V (Product A B)}
    (fx : Effect R E A) (gx : Effect R2 E2 B) (i : Interpretation) (w : World) :
  let env := asEnvironment (R := Product R R2) (interp_Environment i) in
  runs (ZipChannels zero_effect fx gx) i w
  = let '(x, w') := runs fx (with_environment i (erase (First env))) w in
    if negb (IsSuccess x)
    then (ExitFailure (eraseFailureTransform (EitherLeft (R := E2)) (ExitCause x)), w')
    else
      let '(y, w'') := runs gx (with_environment i (erase (Second env))) w' in
      if negb (IsSuccess y)
      then (ExitFailure (eraseFailureTransform (EitherRight (L := E)) (ExitCause y)), w'')
      else (ExitSuccess (erase (ProductOf (asValue (A := A) (ExitValue x))
                                          (asValue (A := B) (ExitValue y)))), w'').
Proof.
  intros env. unfold ZipChannels, Zip. rewrite runs_FlatMap.
  unfold asLeftComponent, asRightComponent. rewrite runs_ContramapEnv; unfold call_ret.
  rewrite runs_MapError. fold env. destruct (runs fx _ w) as [x w'].
  destruct (IsSuccess x) eqn:Hx; cbn [negb IsSuccess exit_success ExitFailure]; [|done].
  rewrite Hx; unfold runs_call. rewrite runs_Map, runs_ContramapEnv, runs_MapError.
  unfold call_ret. fold env. destruct (runs gx _ w') as [y w''].
  destruct (IsSuccess y) eqn:Hy; cbn; [by rewrite Hy | done].
Qed.

End Facts.
