(* ===== verification/Observation.v ===== *)
(** The ambient state, context and exit of an effect's subtree
    ([effect/effect_observation.go]): naming, annotating, spans, and the hooks the
    lifetimes are built from. *)

From S2P Require Import Prelude Outcome Traversal Cause Interpreter InterpreterFacts Algebra Effects.
From S2P Require Import EffectsFacts.

Section Observation.
  Context {V World Ctx St : Type} `{ContextOps World Ctx} `{StateOps St}.
  Context (zero_effect : Panic V).
  #[local] Abbreviation Effect := (@Effect V World Ctx St).
  #[local] Abbreviation call := (call V World).

(** The erased hook shape shared by spans, finalizers and exit reification. *)
Definition exitObserver : Type := Interpretation V Ctx St -> Exit V -> call (Exit V).

Definition withState {R E A} (fx : Effect R E A) (derive : St -> call St) : Effect R E A :=
  fromInstructions (WithState (instructions zero_effect fx) derive).

Definition withExitObserver {R E A} (fx : Effect R E A) (observe : exitObserver) : Effect R E A :=
  fromInstructions (OnExit (instructions zero_effect fx) observe).

Definition withContext {R E A} (fx : Effect R E A) (ctx : Ctx) : Effect R E A :=
  fromInstructions (WithContext (instructions zero_effect fx) (fun _ => call_ret ctx)).

Definition replaceState (state : St) : St -> call St := fun _ => call_ret state.

(** ** What they do *)

  Context (error_value : error -> V) (unsupported : error).
  #[local] Abbreviation runs := (runs error_value unsupported zero_effect).
  #[local] Abbreviation runs_call := (runs_call error_value unsupported zero_effect).

Definition in_state (state : St) (i : Interpretation V Ctx St) : Interpretation V Ctx St :=
  MkInterpretation (interp_Context i) state (interp_Environment i).
Definition in_context (ctx : Ctx) (i : Interpretation V Ctx St) : Interpretation V Ctx St :=
  MkInterpretation ctx (interp_State i) (interp_Environment i).

Lemma runs_suspendRuntime {R E A} `{Erased V R} (create : Ctx -> St -> R -> call (Effect R E A))
    i w :
  runs (suspendRuntime zero_effect create) i w
  = runs_call (create (interp_Context i) (interp_State i)
                 (asEnvironment (interp_Environment i))) i w.
Proof.
  unfold EffectsFacts.runs, EffectsFacts.runs_call; cbn. unfold call_bind, call_ret.
  by destruct (create _ _ _ w) as [[fx|p] w'].
Qed.

Lemma runs_fromRuntime {R E A} `{Erased V R} (eval : Ctx -> St -> R -> call (Exit V)) i w :
  runs (fromRuntime (E := E) (A := A) eval) i w
  = match ctx_Err (interp_Context i) w with
    | Some _ => (interrupted_exit i w, w)
    | None =>
        match eval (interp_Context i) (interp_State i) (asEnvironment (interp_Environment i)) w with
        | (inl x, w') => (x, w')
        | (inr p, w') => (ExitFailure (DieCause (capture p)), w')
        end
    end.
Proof.
  unfold EffectsFacts.runs; cbn. unfold settle, interruptCause, interrupted_exit, evalLeaf; cbn.
  destruct (ctx_Err _ w); [done|]. by destruct (eval _ _ _ w) as [[x|p] w'].
Qed.

Lemma runs_From {R E A} `{Erased V R} (eval : Ctx -> R -> call (Exit V)) i w :
  runs (From (E := E) (A := A) eval) i w
  = match ctx_Err (interp_Context i) w with
    | Some _ => (interrupted_exit i w, w)
    | None =>
        match eval (interp_Context i) (asEnvironment (interp_Environment i)) w with
        | (inl x, w') => (x, w')
        | (inr p, w') => (ExitFailure (DieCause (capture p)), w')
        end
    end.
Proof. exact (runs_fromRuntime (E := E) (A := A) (fun ctx _ env => eval ctx env) i w). Qed.

Lemma runs_SuspendEffect {R E A} (create : call (Effect R E A)) i w :
  runs (SuspendEffect zero_effect create) i w = runs_call create i w.
Proof.
  unfold EffectsFacts.runs, EffectsFacts.runs_call; cbn. unfold deferred_Node, call_bind, call_ret.
  by destruct (create w) as [[fx|p] w'].
Qed.

Lemma runs_AndThen {R E A B} `{Erased V A} (fx : Effect R E A) (that : Effect R E B) i w :
  runs (AndThen zero_effect fx that) i w
  = let '(x, w') := runs fx i w in if IsSuccess x then runs that i w' else (x, w').
Proof. unfold AndThen. by rewrite runs_FlatMap. Qed.

Lemma runs_withState {R E A} (fx : Effect R E A) derive i w :
  runs (withState fx derive) i w
  = match derive (interp_State i) w with
    | (inl state, w') => runs fx (in_state state i) w'
    | (inr p, w') => (ExitFailure (DieCause (capture p)), w')
    end.
Proof.
  unfold EffectsFacts.runs; cbn. unfold deriveState, captureDefect.
  by destruct (derive _ w) as [[state|p] w'].
Qed.

Lemma runs_withContext {R E A} (fx : Effect R E A) ctx i w :
  runs (withContext fx ctx) i w = runs fx (in_context ctx i) w.
Proof. done. Qed.

Lemma runs_withExitObserver {R E A} (fx : Effect R E A) observe i w :
  runs (withExitObserver fx observe) i w
  = let '(x, w') := runs fx i w in observeExit observe i x w'.
Proof. done. Qed.

Lemma observeExit_returns (observe : exitObserver) i x w y w' :
  observe i x w = (inl y, w') -> observeExit observe i x w = (y, w').
Proof. intros Ho. unfold observeExit, runHook, captureDefect. by rewrite Ho. Qed.

End Observation.
