(* ===== verification/Calls.v ===== *)
(** Go statements in sequence: notation for calls, the loops over a slice that call
    a function once an element, and variables that outlive the call that made them.

    A variable captured by a closure, a struct behind a pointer or a mutex-guarded
    field is a cell of a heap, a part of the world. A heap holds the cells of one
    type; an address is an index into it, and what is not an address is nil. *)

From S2P Require Import Prelude Interpreter.

Declare Scope call_scope.
Delimit Scope call_scope with call.
Notation "'let!' x ':=' m 'in' k" := (call_bind m (fun x => k))
  (at level 200, x pattern, m at level 100, k at level 200, right associativity) : call_scope.
Open Scope call_scope.

Section Calls.
  Context {V World : Type}.
  #[local] Abbreviation call := (call V World).

(** A Go function that only computes. *)
Definition pure {A B} (f : A -> B) : A -> call B := fun a => call_ret (f a).
Definition pure2 {A B C} (f : A -> B -> C) : A -> B -> call C := fun a b => call_ret (f a b).

Definition call_map {A B} (f : A -> B) (m : call A) : call B := let! a := m in call_ret (f a).

(** [for _, value := range values { state = combine(state, value) }]. *)
Fixpoint range_fold {A S} (combine : S -> A -> call S) (values : list A) (state : S) : call S :=
  match values with
  | [] => call_ret state
  | value :: rest => let! state := combine state value in range_fold combine rest state
  end.

Lemma call_bind_ret {A B} (a : A) (f : A -> call B) w : call_bind (call_ret a) f w = f a w.
Proof. done. Qed.

Lemma call_bind_assoc {A B C} (m : call A) (f : A -> call B) (g : B -> call C) w :
  call_bind (call_bind m f) g w = call_bind m (fun a => call_bind (f a) g) w.
Proof. unfold call_bind. by destruct (m w) as [[a|p] w']. Qed.

Lemma range_fold_pure {A S} (f : S -> A -> S) (values : list A) (state : S) w :
  range_fold (pure2 f) values state w = (inl (foldl f state values), w).
Proof. revert state. induction values as [|v vs IH]; intros state; cbn; [done|apply IH]. Qed.

Lemma range_fold_app {A S} (combine : S -> A -> call S) (xs ys : list A) (state : S) w :
  range_fold combine (xs ++ ys) state w
  = (let! state := range_fold combine xs state in range_fold combine ys state) w.
Proof.
  revert state w. induction xs as [|x xs IH]; intros state w; cbn; [done|].
  rewrite call_bind_assoc. unfold call_bind. destruct (combine state x w) as [[s|p] w']; [|done].
  apply IH.
Qed.

End Calls.

(** * Heaps *)

Class Heap (World T : Type) : Type := {
  heap_of : World -> list T;
  with_heap : list T -> World -> World;
  heap_of_with : forall cells w, heap_of (with_heap cells w) = cells;
  with_heap_of : forall w, with_heap (heap_of w) w = w;
  with_heap_with : forall cells cells' w, with_heap cells (with_heap cells' w) = with_heap cells w
}.
Arguments heap_of {World} T {_} _.

(** Changing one heap leaves the other alone. *)
Class HeapsApart (World T U : Type) `{Heap World T} `{Heap World U} : Prop :=
  heap_apart : forall (cells : list T) w, heap_of U (with_heap cells w) = heap_of U w.

Section Heap.
  Context {V World T : Type} `{Heap World T}.
  (** The run-time panic of a nil dereference. *)
  Context (nil_dereference : Panic V).
  #[local] Abbreviation call := (call V World).

Definition heap_fresh (w : World) : nat := length (heap_of T w).
Definition heap_get (address : nat) (w : World) : option T := heap_of T w !! address.
Definition heap_set (address : nat) (value : T) (w : World) : World :=
  with_heap (<[address := value]> (heap_of T w)) w.
Definition heap_new (value : T) (w : World) : nat * World :=
  (heap_fresh w, with_heap (heap_of T w ++ [value]) w).

Definition alloc (value : T) : call nat := fun w =>
  let '(address, w) := heap_new value w in (inl address, w).
Definition load (address : nat) : call T := fun w =>
  match heap_get address w with
  | Some value => (inl value, w)
  | None => (inr nil_dereference, w)
  end.
Definition store (address : nat) (value : T) : call unit := fun w =>
  match heap_get address w with
  | Some _ => (inl tt, heap_set address value w)
  | None => (inr nil_dereference, w)
  end.

Lemma heap_fresh_set l (v : T) w : heap_fresh (heap_set l v w) = heap_fresh w.
Proof. unfold heap_fresh, heap_set. by rewrite heap_of_with, length_insert. Qed.

Lemma heap_fresh_new (v : T) w : heap_fresh (snd (heap_new v w)) = S (heap_fresh w).
Proof. unfold heap_fresh, heap_new; cbn. rewrite heap_of_with, length_app; cbn. lia. Qed.

Lemma heap_get_lt l (v : T) w : heap_get l w = Some v -> l < heap_fresh w.
Proof. apply lookup_lt_Some. Qed.

Lemma heap_get_set l (v : T) w : l < heap_fresh w -> heap_get l (heap_set l v w) = Some v.
Proof.
  intros Hl. unfold heap_get, heap_set. rewrite heap_of_with. by apply list_lookup_insert_eq.
Qed.

Lemma heap_get_set_ne l l' (v : T) w : l <> l' -> heap_get l' (heap_set l v w) = heap_get l' w.
Proof.
  intros Hl. unfold heap_get, heap_set. rewrite heap_of_with. by apply list_lookup_insert_ne.
Qed.

Lemma heap_set_same l (v : T) w : heap_get l w = Some v -> heap_set l v w = w.
Proof.
  intros Hl. unfold heap_set. rewrite list_insert_id by done. apply with_heap_of.
Qed.

Lemma heap_set_set l (v v' : T) w : heap_set l v (heap_set l v' w) = heap_set l v w.
Proof.
  unfold heap_set. by rewrite heap_of_with, with_heap_with, list_insert_insert_eq.
Qed.

Lemma heap_get_new (v : T) w : heap_get (heap_fresh w) (snd (heap_new v w)) = Some v.
Proof.
  unfold heap_get, heap_new, heap_fresh; cbn. by rewrite heap_of_with, list_lookup_middle.
Qed.

Lemma heap_get_new_old l (v : T) w :
  l < heap_fresh w -> heap_get l (snd (heap_new v w)) = heap_get l w.
Proof.
  intros Hl. unfold heap_get, heap_new; cbn. rewrite heap_of_with. by apply lookup_app_l.
Qed.

Lemma load_Some l (v : T) w : heap_get l w = Some v -> load l w = (inl v, w).
Proof. unfold load. by intros ->. Qed.

Lemma store_Some l (v u : T) w :
  heap_get l w = Some u -> store l v w = (inl tt, heap_set l v w).
Proof. unfold store. by intros ->. Qed.

End Heap.

#[export] Hint Rewrite @heap_fresh_set @heap_fresh_new @heap_set_set : heap.

(** ** The heap that is a whole world *)

#[export] Program Instance list_heap {T} : Heap (list T) T := {|
  heap_of cells := cells;
  with_heap cells _ := cells
|}.
Solve All Obligations with done.
