(* ===== verification/Gen.v ===== *)
(** Direct style ([effect/gen.go], [gen_body.go], [interpreter.go]): a dependent
    sequence of effects written as ordinary Go.

    A body runs on a goroutine of its own, in lock step with the interpretation
    waiting for it, and a failed await ends that goroutine with [runtime.Goexit]. So
    a body is a call with a third ending. Which worker runs the goroutine
    ([gen_workers.go]) is not observable. *)

From stdpp Require Import relations.
From S2P Require Import Prelude Outcome Traversal OutcomeFacts Cause Interpreter InterpreterFacts.
From S2P Require Import Algebra Effects EffectsFacts Observation Calls.

(** * Goroutines that may exit *)

(** How a function called on such a goroutine ends. [recover] sees the panic of a
    deferred call even while the goroutine is exiting, but cannot stop the exit. *)
Inductive ending (V A : Type) : Type :=
| Returned (a : A)
| Panicking (p : Panic V) (exiting : bool)
| Exiting.
Arguments Returned {V A} _.
Arguments Panicking {V A} _ _.
Arguments Exiting {V A}.

Definition body (V World A : Type) : Type := World -> ending V A * World.

Section Body.
  Context {V World : Type}.
  #[local] Abbreviation body := (body V World).
  #[local] Abbreviation call := (call V World).

Definition body_ret {A} (a : A) : body A := fun w => (Returned a, w).
Definition Goexit {A} : body A := fun w => (Exiting, w).
Definition body_bind {A B} (m : body A) (f : A -> body B) : body B := fun w =>
  match m w with
  | (Returned a, w) => f a w
  | (Panicking p exiting, w) => (Panicking p exiting, w)
  | (Exiting, w) => (Exiting, w)
  end.
Definition body_call {A} (m : call A) : body A := fun w =>
  match m w with
  | (inl a, w) => (Returned a, w)
  | (inr p, w) => (Panicking p false, w)
  end.

(** [defer cleanup()] before the statements [m]. *)
Definition deferring {A} (m : body A) (cleanup : body unit) : body A := fun w =>
  let '(e, w) := m w in
  match cleanup w with
  | (Returned _, w) => (e, w)
  | (Panicking p exiting, w) =>
      (Panicking p (exiting || match e with
                               | Exiting => true
                               | Panicking _ exiting => exiting
                               | Returned _ => false
                               end), w)
  | (Exiting, w) => (Exiting, w)
  end.

(** [defer func() { if p := recover(); p != nil { result = handler(p) } }()] before
    the statements [m]. *)
Definition recovering {A} (m : body A) (handler : Panic V -> A) : body A := fun w =>
  match m w with
  | (Panicking p false, w) => (Returned (handler p), w)
  | (Panicking p true, w) => (Exiting, w)
  | r => r
  end.

Lemma bind_call {A B} (m : call A) (f : A -> body B) w a w' :
  m w = (inl a, w') -> body_bind (body_call m) f w = f a w'.
Proof. intros Hm. unfold body_bind, body_call. by rewrite Hm. Qed.

End Body.

Declare Scope body_scope.
Delimit Scope body_scope with body.
Notation "'let*' x ':=' m 'in' k" := (body_bind m (fun x => k))
  (at level 200, x pattern, m at level 100, k at level 200, right associativity) : body_scope.
Open Scope body_scope.

#[export] Program Instance never_erased {V} : Erased V Never := {|
  erase _ := None;
  unerase _ := nil_Never
|}.
Next Obligation. by intros V []. Qed.

(** What a Do's fields hold that change while its body runs. *)
Record doState (V : Type) : Type := MkDoState {
  do_cause : Cause V;
  do_failed : bool;
  do_live : bool;
  do_busy : bool
}.
Arguments MkDoState {V} _ _ _ _.
Arguments do_cause {V} _.
Arguments do_failed {V} _.
Arguments do_live {V} _.
Arguments do_busy {V} _.

Section Gen.
  Context {V World Ctx St : Type} `{ContextOps World Ctx} `{StateOps St}.
  (** The [interpreterValidity]s and the Dos of a run. *)
  Context `{Heap World bool} `{Heap World (doState V)}.
  Context (error_value : error -> V) (unsupported : error) (zero_effect nil_dereference : Panic V).
  Context (stack : string).
  #[local] Abbreviation Effect := (@Effect V World Ctx St).
  #[local] Abbreviation call := (call V World).
  #[local] Abbreviation body := (body V World).
  #[local] Abbreviation run := (run error_value unsupported zero_effect).

Definition errorf (identity : Z) (text : string) : Panic V :=
  MkPanic (error_value (MkError identity text [])) stack.

(** * Interpreters ([interpreter.go]) *)

(** The validity is a pointer; the zero Interpreter's is nil. *)
Record Interpreter (R E : Type) : Type := MkInterpreter {
  interpreter_ctx : Ctx;
  interpreter_state : St;
  interpreter_environment : R;
  validity : option nat
}.
Arguments MkInterpreter {R E} _ _ _ _.
Arguments interpreter_ctx {R E} _.
Arguments interpreter_state {R E} _.
Arguments interpreter_environment {R E} _.
Arguments validity {R E} _.

(** The deferred write happens however [use] ends. *)
Definition WithInterpreter {R E A} `{Erased V R} (use : Interpreter R E -> call (Exit V))
    : Effect R E A :=
  fromRuntime (fun ctx state env =>
    let! valid := alloc true in fun w =>
    let '(r, w) := use (MkInterpreter ctx state env (Some valid)) w in
    (r, heap_set valid false w)).

Definition used_after : Panic V :=
  errorf 701 "effect: Interpreter used after its WithInterpreter body returned".

Definition Interpret {R E A} `{Erased V R} (interpreter : Interpreter R E) (fx : Effect R E A)
    : call (Exit V) :=
  match validity interpreter with
  | None => call_panic used_after
  | Some valid =>
      let! live := load nil_dereference valid in
      if negb live then call_panic used_after
      else run fx (interpreter_ctx interpreter) (interpreter_state interpreter)
             (interpreter_environment interpreter)
  end.

Definition Interpreter_Context {R E} (interpreter : Interpreter R E) : Ctx :=
  interpreter_ctx interpreter.

(** * Bodies ([gen.go], [gen_body.go]) *)

(** A [*Do]: the field that never changes, and the address of the others. *)
Record Do (R E : Type) : Type := MkDo { do_interpreter : Interpreter R E; do_cell : nat }.
Arguments MkDo {R E} _ _.
Arguments do_interpreter {R E} _.
Arguments do_cell {R E} _.

Definition do_read {R E} (do : Do R E) : body (doState V) :=
  body_call (load nil_dereference (do_cell do)).
Definition do_write {R E} (do : Do R E) (s : doState V) : body unit :=
  body_call (store nil_dereference (do_cell do) s).

Definition used_outside : Panic V :=
  errorf 702 "effect: Do used outside the Gen body that created it".
Definition used_twice : Panic V := errorf 703 "effect: Do used from two goroutines at once".
Definition called_Goexit : Panic V := errorf 704 "effect: the Gen body called runtime.Goexit".

Definition set_busy (busy : bool) (s : doState V) : doState V :=
  MkDoState (do_cause s) (do_failed s) (do_live s) busy.
Definition set_dead (s : doState V) : doState V :=
  MkDoState (do_cause s) (do_failed s) false (do_busy s).
Definition set_failed (cause : Cause V) (s : doState V) : doState V :=
  MkDoState cause true (do_live s) (do_busy s).

Definition Await {R E A} `{Erased V R} `{Erased V A} (do : Do R E) (fx : Effect R E A) : body A :=
  let* s := do_read do in
  if negb (do_live s) then body_call (call_panic used_outside)
  else if do_busy s then body_call (call_panic used_twice)
  else
    let* _ := do_write do (set_busy true s) in
    let* exit := body_call (Interpret (do_interpreter do) fx) in
    let* s := do_read do in
    let* _ := do_write do (set_busy false s) in
    if IsSuccess exit then body_ret (asValue (A := A) (ExitValue exit))
    else
      let* _ := do_write do (set_failed (ExitCause exit) (set_busy false s)) in
      Goexit.

(** [site] is [callerLine()]. *)
Definition Do_Fail {R E} `{Erased V R} `{Erased V E} (site : string) (do : Do R E) (failure : E)
    : body Never :=
  Await do (FailWithCause (R := R) (E := E) (A := Never)
              (WithOrigin (FailCauseOf failure) (MkOrigin site EmptyString))).

(** The deferred function of [runGenBody] tells how the body ended. *)
Definition runGenBody {R E A} `{Erased V A} (do : Do R E) (f : Do R E -> body A) : call (Exit V) :=
  fun w =>
  let '(e, w) := f do w in
  (let! s := load nil_dereference (do_cell do) in
   let! _ := store nil_dereference (do_cell do) (set_dead s) in
   call_ret
     match e with
     | Returned a => ExitSuccessOf a
     | Panicking p _ => ExitFailure (DieCause (capture p))
     | Exiting =>
         if do_failed s then ExitFailure (do_cause s)
         else ExitFailure (DieCause (capture called_Goexit))
     end) w.

Definition Gen {R E A} `{Erased V R} `{Erased V A} (f : Do R E -> body A) : Effect R E A :=
  WithInterpreter (fun interpreter =>
    let! cell := alloc (MkDoState zeroCause false true false) in
    runGenBody (MkDo interpreter cell) f).

End Gen.

Arguments MkInterpreter {Ctx St R E} _ _ _ _.
Arguments interpreter_ctx {Ctx St R E} _.
Arguments interpreter_state {Ctx St R E} _.
Arguments interpreter_environment {Ctx St R E} _.
Arguments validity {Ctx St R E} _.
Arguments MkDo {Ctx St R E} _ _.
Arguments do_interpreter {Ctx St R E} _.
Arguments do_cell {Ctx St R E} _.
