(* ===== verification/GenFacts.v ===== *)
(** Direct style does what composing the same effects does: the goroutines, the
    pointers and the flags leave no trace but their own cells. *)

From stdpp Require Import relations.
From S2P Require Import Prelude Outcome Traversal OutcomeFacts Cause Interpreter InterpreterFacts.
From S2P Require Import Algebra Effects EffectsFacts Observation Calls Gen.

Section Facts.
  Context {V World Ctx St : Type} `{ContextOps World Ctx} `{StateOps St}.
  Context `{Heap World bool} `{Heap World (doState V)}.
  Context `{!HeapsApart World bool (doState V)} `{!HeapsApart World (doState V) bool}.
  Context (error_value : error -> V) (unsupported : error) (zero_effect nil_dereference : Panic V).
  Context (stack : string).
  #[local] Abbreviation Effect := (@Effect V World Ctx St).
  #[local] Abbreviation call := (call V World).
  #[local] Abbreviation body := (body V World).
  #[local] Abbreviation runs := (runs error_value unsupported zero_effect).
  #[local] Abbreviation Await := (Await error_value unsupported zero_effect nil_dereference stack).
  #[local] Abbreviation Do_Fail := (Do_Fail error_value unsupported zero_effect nil_dereference stack).
  #[local] Abbreviation Gen := (Gen error_value nil_dereference stack).
  #[local] Abbreviation dos := (heap_of (doState V)).
  #[local] Abbreviation valids := (heap_of bool).

(** ** Worlds alike but for what direct style keeps in them *)

Inductive kept : relation World :=
| kept_dos cells w : kept w (with_heap (T := doState V) cells w)
| kept_valids cells w : kept w (with_heap (T := bool) cells w).

Definition alike : relation World := rtsc kept.

#[export] Instance alike_equivalence : Equivalence alike := _.

Lemma alike_set_do c s w : alike (heap_set (T := doState V) c s w) w.
Proof. apply rtsc_rl, kept_dos. Qed.
Lemma alike_set_valid a b w : alike (heap_set (T := bool) a b w) w.
Proof. apply rtsc_rl, kept_valids. Qed.
Lemma alike_new_do s w : alike (snd (heap_new (T := doState V) s w)) w.
Proof. apply rtsc_rl, kept_dos. Qed.
Lemma alike_new_valid b w : alike (snd (heap_new (T := bool) b w)) w.
Proof. apply rtsc_rl, kept_valids. Qed.

(** Every cell there was is as it was. *)
Definition preserves (w w' : World) : Prop :=
  dos w `prefix_of` dos w' /\ valids w `prefix_of` valids w'.

#[export] Instance preserves_preorder : PreOrder preserves.
Proof.
  split; [by intros w; split|]. intros u v w [] []. split; by etransitivity.
Qed.

Lemma prefix_insert {A} (l k : list A) j a :
  l `prefix_of` k -> length l <= j -> l `prefix_of` <[j := a]> k.
Proof.
  intros [m ->] Hj. rewrite insert_app_r_alt by done. by apply prefix_app_r.
Qed.

Lemma preserves_set_do w0 w c s :
  preserves w0 w -> length (dos w0) <= c -> preserves w0 (heap_set (T := doState V) c s w).
Proof.
  intros [Hd Hv] Hc. unfold preserves, heap_set. rewrite heap_of_with, (heap_apart (T := doState V)).
  split; [by apply prefix_insert|done].
Qed.

Lemma preserves_set_valid w0 w a b :
  preserves w0 w -> length (valids w0) <= a -> preserves w0 (heap_set (T := bool) a b w).
Proof.
  intros [Hd Hv] Ha. unfold preserves, heap_set. rewrite heap_of_with, (heap_apart (T := bool)).
  split; [done|by apply prefix_insert].
Qed.

Lemma preserves_new_do s w : preserves w (snd (heap_new (T := doState V) s w)).
Proof.
  unfold preserves, heap_new; cbn. rewrite heap_of_with, (heap_apart (T := doState V)).
  split; [by apply prefix_app_r|done].
Qed.

Lemma preserves_new_valid b w : preserves w (snd (heap_new (T := bool) b w)).
Proof.
  unfold preserves, heap_new; cbn. rewrite heap_of_with, (heap_apart (T := bool)).
  split; [done|by apply prefix_app_r].
Qed.

Lemma preserves_do w w' c s :
  preserves w w' -> heap_get (T := doState V) c w = Some s -> heap_get c w' = Some s.
Proof. intros [Hd _] Hs. by eapply prefix_lookup_Some. Qed.

Lemma preserves_valid w w' a b :
  preserves w w' -> heap_get (T := bool) a w = Some b -> heap_get a w' = Some b.
Proof. intros [_ Hv] Hb. by eapply prefix_lookup_Some. Qed.

(** Code that does not see what direct style keeps, and leaves it alone. *)
Definition undisturbed {A} (f : World -> A * World) : Prop := forall w v, alike w v ->
  fst (f w) = fst (f v) /\ alike (snd (f w)) (snd (f v)) /\ preserves w (snd (f w)).

(** ** Programs in direct style *)

Inductive direct (R E A : Type) : Type :=
| Return (a : A)
| Perform {B : Type} `{Erased V B} (fx : Effect R E B) (k : B -> direct R E A)
| Guard (site : string) (failure : E) (rest : direct R E A)
| Compute {B : Type} (m : call B) (k : B -> direct R E A).
Arguments Return {R E A} _.
Arguments Perform {R E A B _} _ _.
Arguments Guard {R E A} _ _ _.
Arguments Compute {R E A B} _ _.

Section Programs.
  Context {R E A : Type} `{Erased V R} `{Erased V E} `{Erased V A}.

(** The program as a body. *)
Fixpoint direct_body (d : direct R E A) (do : Do R E) : body A :=
  match d with
  | Return a => body_ret a
  | Perform fx k => let* b := Await do fx in direct_body (k b) do
  | Guard site failure rest => let* _ := Do_Fail site do failure in direct_body rest do
  | Compute m k => let* b := body_call m in direct_body (k b) do
  end.

(** The effects of the program composed with [FlatMap]. *)
Fixpoint composed (d : direct R E A) : Effect R E A :=
  match d with
  | Return a => SucceedWith a
  | Perform fx k => FlatMap zero_effect fx (fun b => call_ret (composed (k b)))
  | Guard site failure _ => FailWith site failure
  | Compute m k => SuspendEffect zero_effect (call_map (fun b => composed (k b)) m)
  end.

(** What the program is meant to do. *)
Fixpoint sequential (d : direct R E A) (i : Interpretation V Ctx St) (w : World)
    : Exit V * World :=
  match d with
  | Return a => (ExitSuccess (erase a), w)
  | Perform fx k =>
      let '(x, w) := runs fx i w in
      if IsSuccess x then sequential (k (asValue (ExitValue x))) i w
      else (ExitFailure (ExitCause x), w)
  | Guard site failure _ => runs (FailWith (R := R) (E := E) (A := A) site failure) i w
  | Compute m k =>
      match m w with
      | (inl b, w) => sequential (k b) i w
      | (inr p, w) => (ExitFailure (DieCause (capture p)), w)
      end
  end.

Fixpoint unobtrusive (d : direct R E A) : Prop :=
  match d with
  | Return _ | Guard _ _ _ => True
  | Perform fx k => (forall i, undisturbed (runs fx i)) /\ forall b, unobtrusive (k b)
  | Compute m k => undisturbed m /\ forall b, unobtrusive (k b)
  end.

(** ** One await *)

  Context (indifferent : forall c w v, alike w v ->
    ctx_Err c w = ctx_Err c v /\ ctx_Cause c w = ctx_Cause c v).

Definition ready (cause : Cause V) : doState V := MkDoState cause false true false.
Definition ended (cause : Cause V) : doState V := MkDoState cause true true false.

Lemma get_valid_set_do a c s w :
  heap_get (T := bool) a (heap_set (T := doState V) c s w) = heap_get a w.
Proof. unfold heap_get, heap_set. by rewrite (heap_apart (T := doState V)). Qed.

Lemma get_do_set_valid a c b w :
  heap_get (T := doState V) c (heap_set (T := bool) a b w) = heap_get c w.
Proof. unfold heap_get, heap_set. by rewrite (heap_apart (T := bool)). Qed.

Section Running.
  Context (ctx : Ctx) (state : St) (env : R) (a c : nat) (w0 : World).
  #[local] Abbreviation i := (MkInterpretation ctx state (erase env)).
  #[local] Abbreviation do := (MkDo (E := E) (MkInterpreter ctx state env (Some a)) c).
  Context (fresh_do : length (dos w0) <= c).

(** A world in which the body of [do] is running and nothing is awaited, beside the
    world of the program. *)
Definition running (cause : Cause V) (w v : World) : Prop :=
  alike w v /\ preserves w0 w /\ heap_get a w = Some true /\ heap_get c w = Some (ready cause).

Lemma Await_cases {B} `{Erased V B} (fx : Effect R E B) cause w v :
  undisturbed (runs fx i) -> running cause w v ->
  let '(x, v1) := runs fx i v in
  if IsSuccess x
  then exists w1, Await do fx w = (Returned (asValue (ExitValue x)), w1) /\ running cause w1 v1
  else exists w1, Await do fx w = (Exiting, w1) /\ alike w1 v1 /\ preserves w0 w1
                  /\ heap_get c w1 = Some (ended (ExitCause x)).
Proof.
  intros Hfx (Hw & Hp & Ha & Hc). set (w1 := heap_set c (set_busy true (ready cause)) w).
  pose proof (heap_get_lt _ _ _ Hc) as Hlt.
  assert (alike w1 v) as Hw1 by (etransitivity; [apply alike_set_do|done]).
  destruct (Hfx w1 v Hw1) as (Hx & Hw2 & Hp2).
  assert (forall r, runs fx i w1 = r ->
    Interpret error_value unsupported zero_effect nil_dereference stack
      (MkInterpreter (E := E) ctx state env (Some a)) fx w1 = (inl (fst r), snd r)) as Hrun.
  { intros [x w2] Hr. unfold Interpret; cbn [validity]. unfold call_bind.
    rewrite (load_Some _ a true w1) by (unfold w1; by rewrite get_valid_set_do). cbn [negb].
    unfold run; cbn. unfold EffectsFacts.runs in Hr. by rewrite Hr. }
  specialize (Hrun _ eq_refl).
  destruct (runs fx i w1) as [x w2], (runs fx i v) as [y v1]; cbn in Hx, Hw2, Hp2, Hrun. subst y.
  assert (Await do fx w = (
    let* s := do_read nil_dereference do in
    let* _ := do_write nil_dereference do (set_busy false s) in
    if IsSuccess x then body_ret (asValue (A := B) (ExitValue x))
    else
      let* _ := do_write nil_dereference do (set_failed (ExitCause x) (set_busy false s)) in
      Goexit) w2) as ->.
  { unfold Gen.Await, do_read, do_write; cbn [do_cell do_interpreter].
    rewrite (bind_call _ _ _ _ _ (load_Some _ _ _ _ Hc)); cbn [negb do_live do_busy ready].
    rewrite (bind_call _ _ _ _ _ (store_Some _ _ _ _ _ Hc)).
    by rewrite (bind_call _ _ _ _ _ Hrun). }
  assert (heap_get c w2 = Some (set_busy true (ready cause))) as Hc2.
  { eapply preserves_do; [done|]. by apply heap_get_set. }
  assert (heap_get (T := bool) a w2 = Some true) as Ha2.
  { eapply preserves_valid; [done|]. unfold w1. by rewrite get_valid_set_do. }
  assert (preserves w0 w2) as Hp3 by (etransitivity; [by apply preserves_set_do|done]).
  pose proof (heap_get_lt _ _ _ Hc2) as Hlt2.
  unfold do_read, do_write; cbn [do_cell].
  rewrite (bind_call _ _ _ _ _ (load_Some _ _ _ _ Hc2)).
  rewrite (bind_call _ _ _ _ _ (store_Some _ _ _ _ _ Hc2)).
  change (set_busy false (set_busy true (ready cause))) with (ready cause).
  destruct (IsSuccess x).
  - eexists. split; [reflexivity|]. split_and!.
    + etransitivity; [apply alike_set_do|done].
    + by apply preserves_set_do.
    + by rewrite get_valid_set_do.
    + by apply heap_get_set.
  - rewrite (bind_call _ _ _ _ _ (store_Some _ _ _ _ _ (heap_get_set _ (ready cause) _ Hlt2))).
    rewrite heap_set_set. eexists. split; [reflexivity|]. split_and!.
    + etransitivity; [apply alike_set_do|done].
    + by apply preserves_set_do.
    + by apply heap_get_set.
Qed.

(** ** The whole body *)

(** How a body ended, the exit its program comes to, and what it left in its Do. *)
Definition ends_as (e : ending V A) (s : doState V) (x : Exit V) : Prop :=
  match e with
  | Returned a => x = ExitSuccess (erase a)
  | Panicking p _ => x = ExitFailure (DieCause (capture p))
  | Exiting => x = ExitFailure (do_cause s) /\ do_failed s = true
  end.

Lemma undisturbed_FailWithCause {B} (cause : Cause V) j :
  undisturbed (runs (FailWithCause (R := R) (E := E) (A := B) cause) j).
Proof.
  intros w v Hwv. rewrite !runs_FailWithCause; cbn. split_and!; [|done|done].
  unfold checkpoint, interrupted_exit, CancellationReason.
  destruct (indifferent (interp_Context j) w v Hwv) as [-> ->]. done.
Qed.

Lemma runs_fails {B} (cause : Cause V) j v :
  exists cause', runs (FailWithCause (R := R) (E := E) (A := B) cause) j v = (ExitFailure cause', v).
Proof.
  rewrite runs_FailWithCause. unfold checkpoint, interrupted_exit. destruct (ctx_Err _ v); eauto.
Qed.

Lemma direct_body_sequential (d : direct R E A) cause w v :
  unobtrusive d -> running cause w v ->
  let '(x, v1) := sequential d i v in
  exists e w1 s, direct_body d do w = (e, w1) /\ alike w1 v1 /\ preserves w0 w1
    /\ heap_get c w1 = Some s /\ ends_as e s x.
Proof.
  revert w v. induction d as [r|B HB fx k IH|site failure rest _|B m k IH]; intros w v Hd Hrun.
  - destruct Hrun as (? & ? & _ & Hc). cbn. by exists (Returned r), w, (ready cause).
  - destruct Hd as [Hfx Hk]. pose proof (Await_cases fx cause w v (Hfx i) Hrun) as Ha.
    cbn [sequential]. destruct (runs fx i v) as [x v1]. cbn [direct_body].
    unfold body_bind. destruct (IsSuccess x).
    + destruct Ha as (w1 & -> & Hrun1). by apply IH.
    + destruct Ha as (w1 & -> & ? & ? & ?). by exists Exiting, w1, (ended (ExitCause x)).
  - set (failing := FailWithCause (WithOrigin (FailCauseOf failure) (MkOrigin site EmptyString))
                      : Effect R E Never).
    pose proof (Await_cases failing cause w v (undisturbed_FailWithCause _ i) Hrun) as Ha.
    cbn [sequential]. change (runs (FailWith (A := A) site failure) i v) with (runs failing i v).
    destruct (runs_fails _ _ _ : exists c', runs failing i v = (ExitFailure c', v)) as [c' Hc'].
    rewrite Hc' in Ha |- *. destruct Ha as (w1 & Ha & Hw1 & Hp1 & Hc1).
    exists Exiting, w1, (ended c'). split_and!; [|done|done|exact Hc1|by split].
    cbn [direct_body]. unfold body_bind, Gen.Do_Fail. fold failing. by rewrite Ha.
  - destruct Hd as [Hm Hk]. destruct Hrun as (Hw & Hp & Ha & Hc).
    destruct (Hm w v Hw) as (Hfst & Hw1 & Hp1). cbn [sequential direct_body].
    unfold body_bind, body_call. destruct (m w) as [r w1], (m v) as [r' v1]; cbn in Hfst, Hw1, Hp1.
    subst r'. destruct r as [b|p].
    + apply IH; [by apply Hk|]. split_and!; [done|by etransitivity| |].
      * by eapply preserves_valid.
      * by eapply preserves_do.
    + exists (Panicking p false), w1, (ready cause). split_and!; [done|done|by etransitivity| |done].
      by eapply preserves_do.
Qed.

End Running.
(** The environment a body's effects run in: the one of its type. *)
Definition typed (i : Interpretation V Ctx St) : Interpretation V Ctx St :=
  with_environment i (erase (asEnvironment (interp_Environment i) : R)).

Lemma runs_Gen (d : direct R E A) i w v :
  unobtrusive d -> ctx_Err (interp_Context i) w = None -> alike w v ->
  let '(x, w1) := runs (Gen (direct_body d)) i w in
  let '(y, v1) := sequential d (typed i) v in
  x = y /\ alike w1 v1 /\ preserves w w1.
Proof.
  intros Hd Hlive Hwv. unfold Gen.Gen, WithInterpreter. rewrite runs_fromRuntime, Hlive.
  set (env := asEnvironment (interp_Environment i) : R).
  unfold call_bind at 1. unfold alloc at 1.
  set (a := heap_fresh (T := bool) w).
  change (heap_new true w) with (a, snd (heap_new (T := bool) true w)). cbv beta iota.
  set (w1 := snd (heap_new (T := bool) true w)).
  unfold call_bind at 1. unfold alloc at 1. set (c := heap_fresh (T := doState V) w1).
  change (heap_new (MkDoState zeroCause false true false) w1)
    with (c, snd (heap_new (T := doState V) (ready zeroCause) w1)). cbv beta iota.
  set (w2 := snd (heap_new (T := doState V) (ready zeroCause) w1)).
  assert (preserves w w2) as Hp2.
  { etransitivity; [apply preserves_new_valid|apply preserves_new_do]. }
  assert (length (dos w) <= c) as Hc.
  { apply prefix_length, (preserves_new_valid true w). }
  assert (length (valids w) <= a) as Ha by (unfold a, heap_fresh; lia).
  assert (running a c w zeroCause w2 v) as Hrun.
  { split_and!; [|done| |apply heap_get_new].
    - etransitivity; [apply alike_new_do|]. etransitivity; [apply alike_new_valid|done].
    - eapply preserves_valid; [apply preserves_new_do|]. apply heap_get_new. }
  pose proof (direct_body_sequential (interp_Context i) (interp_State i) env a c w Hc d
    zeroCause w2 v Hd Hrun) as Hbody.
  change (MkInterpretation (interp_Context i) (interp_State i) (erase env)) with (typed i) in Hbody.
  destruct (sequential d (typed i) v) as [y v1].
  destruct Hbody as (e & w3 & s & He & Hw3 & Hp3 & Hs & Hends).
  unfold runGenBody. cbn [do_cell]. rewrite He.
  unfold call_bind at 1. rewrite (load_Some _ _ _ _ Hs).
  unfold call_bind at 1. rewrite (store_Some _ _ _ _ _ Hs). unfold call_ret at 1.
  split_and!.
  - destruct e; cbn in Hends; [done|done|]. by destruct Hends as [-> ->].
  - etransitivity; [apply alike_set_valid|]. by etransitivity; [apply alike_set_do|].
  - apply preserves_set_valid; [|done]. by apply preserves_set_do.
Qed.

(** ** Properties *)

(** C11. A body in direct style does what the same effects do one after the other. On
    any program that awaits effects, guards, computes and returns, a run of [Gen]
    comes to the exit of running its effects in order, in the interpretation [Gen]
    was run in, until one of them does not succeed, whose cause it keeps; a panic of
    the body's own code is a defect; and but for the cells direct style keeps, the
    world is the one those effects leave, in which every older cell is as it was. A
    body whose effects do not see those cells is itself such an effect, so bodies
    nest. In a context that stays live, composing the effects with [FlatMap] comes
    to the same exit and world. *)
Theorem Gen_is_sequential (d : direct R E A) (i : Interpretation V Ctx St) :
  unobtrusive d ->
  (forall w v, ctx_Err (interp_Context i) w = None -> alike w v ->
     fst (runs (Gen (direct_body d)) i w) = fst (sequential d (typed i) v)
     /\ alike (snd (runs (Gen (direct_body d)) i w)) (snd (sequential d (typed i) v)))
  /\ undisturbed (runs (Gen (direct_body d)) i)
  /\ ((forall w, ctx_Err (interp_Context i) w = None) -> forall w,
      let '(x, w') := runs (composed d) i w in
      (if IsSuccess x then ExitSuccess (ExitValue x) else ExitFailure (ExitCause x), w')
      = sequential d i w).
Proof.
  intros Hd. split_and!.
  - intros w v Hlive Hwv. pose proof (runs_Gen d i w v Hd Hlive Hwv) as Hrun.
    destruct (runs _ i w), (sequential d _ v). by destruct Hrun as (? & ? & _).
  - intros w v Hwv. destruct (indifferent (interp_Context i) w v Hwv) as [Herr Hcause].
    destruct (ctx_Err (interp_Context i) w) as [err|] eqn:Hlive.
    + unfold Gen.Gen, WithInterpreter. rewrite !runs_fromRuntime, Hlive, <- Herr; cbn.
      unfold interrupted_exit, CancellationReason. by rewrite Hcause, Hlive, <- Herr.
    + pose proof (runs_Gen d i w w Hd Hlive (reflexivity _)) as Hw.
      pose proof (runs_Gen d i v w Hd (eq_sym Herr) (symmetry Hwv)) as Hv.
      destruct (runs _ i w) as [x w1], (runs _ i v) as [y v1], (sequential d _ w) as [z u].
      destruct Hw as (-> & Hwu & Hp), Hv as (-> & Hvu & _); cbn.
      split_and!; [done|by etransitivity|done].
  - intros Hlive. clear Hd. induction d as [r|B HB fx k IH|site failure rest _|B m k IH]; intros w; cbn [composed sequential].
    + rewrite runs_SucceedWith. unfold checkpoint. by rewrite Hlive.
    + rewrite runs_FlatMap. destruct (runs fx i w) as [x w1].
      destruct (IsSuccess x) eqn:Hx; [apply IH|]. by rewrite Hx.
    + change (FailWith site failure) with
        (FailWithCause (WithOrigin (FailCauseOf failure) (MkOrigin site EmptyString)) : Effect R E A).
      rewrite runs_FailWithCause. unfold checkpoint. by rewrite Hlive.
    + rewrite runs_SuspendEffect. unfold EffectsFacts.runs_call, call_map, call_bind, call_ret.
      destruct (m w) as [[b|p] w1]; [apply IH|done].
Qed.

End Programs.
End Facts.

Arguments Return {V World Ctx St R E A} _.
Arguments Perform {V World Ctx St R E A B _} _ _.
Arguments Guard {V World Ctx St R E A} _ _ _.
Arguments Compute {V World Ctx St R E A B} _ _.
