(* ===== verification/Chunk.v ===== *)
(** Chunks: the batches a stream moves ([effect/chunk.go]).

    A Go [int] is a [Z]; slicing copies nothing, so a chunk is its values. *)

From S2P Require Import Prelude Interpreter Calls.

Section Chunk.
  Context {V World : Type}.
  (** The run-time panic of an index that is out of range, with the length. *)
  Context (index_out_of_range : Z -> nat -> Panic V).
  #[local] Abbreviation call := (call V World).

Record Chunk (A : Type) : Type := MkChunk { chunk_values : list A }.
Arguments MkChunk {A} _.
Arguments chunk_values {A} _.

Definition ChunkOf {A} (values : list A) : Chunk A := MkChunk values.
Definition Chunk_Len {A} (chunk : Chunk A) : Z := Z.of_nat (length (chunk_values chunk)).
Definition Chunk_IsEmpty {A} (chunk : Chunk A) : bool := (Chunk_Len chunk =? 0)%Z.
Definition Chunk_Values {A} (chunk : Chunk A) : list A := chunk_values chunk.

Definition Chunk_At {A} (chunk : Chunk A) (index : Z) : call A :=
  if (index <? 0)%Z then call_panic (index_out_of_range index (length (chunk_values chunk)))
  else match chunk_values chunk !! Z.to_nat index with
       | Some value => call_ret value
       | None => call_panic (index_out_of_range index (length (chunk_values chunk)))
       end.

Definition MapChunk {A B} (chunk : Chunk A) (transform : A -> call B) : call (Chunk B) :=
  let! values := range_fold (fun values value =>
                   let! b := transform value in call_ret (values ++ [b])) (chunk_values chunk) [] in
  call_ret (MkChunk values).

Definition FoldChunk {A S} (chunk : Chunk A) (state : S) (combine : S -> A -> call S) : call S :=
  range_fold combine (chunk_values chunk) state.

Definition Chunk_Filter {A} (chunk : Chunk A) (keep : A -> call bool) : call (Chunk A) :=
  let! values := range_fold (fun values value =>
                   let! kept := keep value in
                   call_ret (if kept : bool then values ++ [value] else values))
                   (chunk_values chunk) [] in
  call_ret (MkChunk values).

Definition TakeFirst {A} (chunk : Chunk A) (count : Z) : Chunk A :=
  if (Chunk_Len chunk <=? count)%Z then chunk
  else if (count <? 1)%Z then MkChunk []
  else MkChunk (take (Z.to_nat count) (chunk_values chunk)).

Definition DropFirst {A} (chunk : Chunk A) (count : Z) : Chunk A :=
  if (Chunk_Len chunk <=? count)%Z then MkChunk []
  else if (count <? 1)%Z then chunk
  else MkChunk (drop (Z.to_nat count) (chunk_values chunk)).

(** The loop of [TakeWhile], [before] the values it has accepted. *)
Fixpoint take_while_from {A} (chunk : Chunk A) (keep : A -> call bool) (before rest : list A)
    : call (Chunk A * bool) :=
  match rest with
  | [] => call_ret (chunk, false)
  | value :: rest =>
      let! kept := keep value in
      if kept : bool then take_while_from chunk keep (before ++ [value]) rest
      else call_ret (MkChunk before, true)
  end.

Definition Chunk_TakeWhile {A} (chunk : Chunk A) (keep : A -> call bool) : call (Chunk A * bool) :=
  take_while_from chunk keep [] (chunk_values chunk).

End Chunk.

Arguments MkChunk {A} _.
Arguments chunk_values {A} _.

Section Facts.
  Context {V World : Type}.
  #[local] Abbreviation call := (call V World).

(** The longest prefix a predicate accepts. *)
Fixpoint takeWhile {A} (keep : A -> bool) (values : list A) : list A :=
  match values with
  | [] => []
  | value :: rest => if keep value then value :: takeWhile keep rest else []
  end.

Lemma takeWhile_length {A} (keep : A -> bool) values :
  length (takeWhile keep values) <= length values.
Proof. induction values as [|v vs IH]; cbn; [lia|]. destruct (keep v); cbn; lia. Qed.

Lemma takeWhile_forallb {A} (keep : A -> bool) values :
  forallb keep values = true -> takeWhile keep values = values.
Proof.
  induction values as [|v vs IH]; cbn; [done|]. destruct (keep v); cbn; [|done].
  intros H. by rewrite IH.
Qed.

Lemma takeWhile_app {A} (keep : A -> bool) xs ys :
  takeWhile keep (xs ++ ys)
  = if forallb keep xs then xs ++ takeWhile keep ys else takeWhile keep xs.
Proof.
  induction xs as [|x xs IH]; cbn; [done|]. destruct (keep x); cbn; [|done].
  rewrite IH. by destruct (forallb keep xs).
Qed.

Definition keeping {A} (keep : A -> bool) (values : list A) : list A := List.filter keep values.

(** ** Each operation on pure callbacks, as a list function *)

Lemma MapChunk_pure {A B} (f : A -> B) (c : Chunk A) (w : World) :
  MapChunk (V := V) c (pure f) w = (inl (MkChunk (map f (chunk_values c))), w).
Proof.
  unfold MapChunk.
  assert (forall vs acc, range_fold (V := V) (fun values value =>
            let! b := pure f value in call_ret (values ++ [b])) vs acc w
          = (inl (acc ++ map f vs), w)) as Hf.
  { induction vs as [|v vs IH]; intros acc; cbn [range_fold map keeping List.filter]; [by rewrite app_nil_r|].
    rewrite call_bind_assoc. unfold pure. rewrite !call_bind_ret, IH. by rewrite <- app_assoc. }
  unfold call_bind at 1. by rewrite Hf.
Qed.

Lemma Chunk_Filter_pure {A} (f : A -> bool) (c : Chunk A) (w : World) :
  Chunk_Filter (V := V) c (pure f) w = (inl (MkChunk (keeping f (chunk_values c))), w).
Proof.
  unfold Chunk_Filter.
  assert (forall vs acc, range_fold (V := V) (fun values value =>
            let! kept := pure f value in
            call_ret (if kept : bool then values ++ [value] else values)) vs acc w
          = (inl (acc ++ keeping f vs), w)) as Hf.
  { induction vs as [|v vs IH]; intros acc; cbn [range_fold map keeping List.filter]; [by rewrite app_nil_r|].
    rewrite call_bind_assoc. unfold pure. rewrite !call_bind_ret, IH.
    destruct (f v); [by rewrite <- app_assoc|done]. }
  unfold call_bind at 1. by rewrite Hf.
Qed.

Lemma FoldChunk_pure {A S} (f : S -> A -> S) (c : Chunk A) (s : S) (w : World) :
  FoldChunk (V := V) c s (pure2 f) w = (inl (foldl f s (chunk_values c)), w).
Proof. apply range_fold_pure. Qed.

Lemma Chunk_TakeWhile_pure {A} (f : A -> bool) (c : Chunk A) (w : World) :
  Chunk_TakeWhile (V := V) c (pure f) w
  = (inl (MkChunk (takeWhile f (chunk_values c)), negb (forallb f (chunk_values c))), w).
Proof.
  unfold Chunk_TakeWhile.
  assert (forall rest before, chunk_values c = before ++ rest ->
            forallb f before = true ->
            take_while_from (V := V) c (pure f) before rest w
            = (inl (MkChunk (takeWhile f (chunk_values c)), negb (forallb f (chunk_values c))), w))
    as Hf; [|by apply Hf].
  induction rest as [|v vs IH]; intros before Hc Hb; cbn [take_while_from].
  - rewrite app_nil_r in Hc. destruct c as [cs]; cbn in *. subst.
    by rewrite Hb, takeWhile_forallb.
  - unfold pure at 1. rewrite call_bind_ret. destruct (f v) eqn:Hv.
    + apply IH; [by rewrite Hc, <- app_assoc|]. by rewrite forallb_app, Hb; cbn; rewrite Hv.
    + rewrite Hc, takeWhile_app, forallb_app, Hb; cbn. rewrite Hv; cbn. by rewrite app_nil_r.
Qed.

Lemma TakeFirst_values {A} (c : Chunk A) (count : Z) :
  chunk_values (TakeFirst c count) = take (Z.to_nat count) (chunk_values c).
Proof.
  unfold TakeFirst, Chunk_Len. destruct (Z.leb_spec (Z.of_nat (length (chunk_values c))) count).
  - symmetry. apply take_ge. lia.
  - destruct (Z.ltb_spec count 1); [|done]. by replace (Z.to_nat count) with 0 by lia.
Qed.

Lemma DropFirst_values {A} (c : Chunk A) (count : Z) :
  chunk_values (DropFirst c count) = drop (Z.to_nat count) (chunk_values c).
Proof.
  unfold DropFirst, Chunk_Len. destruct (Z.leb_spec (Z.of_nat (length (chunk_values c))) count).
  - symmetry. apply drop_ge. lia.
  - destruct (Z.ltb_spec count 1); [|done]. by replace (Z.to_nat count) with 0 by lia.
Qed.

(** * Properties *)

(** Chunks compute what the list functions do, whatever the count, negative and
    past the end included: taking and dropping split the values, and a prefix is
    cut exactly when a value is rejected. An index is answered exactly inside the
    bounds and panics, naming itself and the length, outside of them. *)
Theorem chunks_are_lists {A} (oob : Z -> nat -> Panic V) (c : Chunk A) (count : Z)
    (keep : A -> bool) (w : World) :
  chunk_values (TakeFirst c count) ++ chunk_values (DropFirst c count) = chunk_values c
  /\ Chunk_Len (TakeFirst c count) = (Z.max 0 count `min` Chunk_Len c)%Z
  /\ Chunk_Filter (V := V) c (pure keep) w = (inl (MkChunk (keeping keep (chunk_values c))), w)
  /\ (exists prefix cut, Chunk_TakeWhile (V := V) c (pure keep) w = (inl (prefix, cut), w)
        /\ chunk_values prefix `prefix_of` chunk_values c
        /\ forallb keep (chunk_values prefix) = true
        /\ (cut = true <-> length (chunk_values prefix) < length (chunk_values c)))
  /\ (forall index, Chunk_At oob c index w
        = match (if (0 <=? index)%Z then chunk_values c !! Z.to_nat index else None) with
          | Some value => (inl value, w)
          | None => (inr (oob index (length (chunk_values c))), w)
          end).
Proof.
  split_and!.
  - by rewrite TakeFirst_values, DropFirst_values, take_drop.
  - unfold Chunk_Len. rewrite TakeFirst_values, length_take. lia.
  - apply Chunk_Filter_pure.
  - do 2 eexists. split; [apply Chunk_TakeWhile_pure|]; cbn.
    induction (chunk_values c) as [|v vs IH]; cbn.
    + split_and!; [done|done|split; [done|lia]].
    + destruct (keep v) eqn:Hv; cbn; rewrite ?Hv; [|split_and!; [apply prefix_nil|done|split; [lia|done]]].
      destruct IH as (Hp & Hk & Hc). split_and!; [by apply prefix_cons|done|]. rewrite Hc. lia.
  - intros index. unfold Chunk_At. destruct (Z.ltb_spec index 0), (Z.leb_spec 0 index); try lia; [done|].
    by destruct (chunk_values c !! Z.to_nat index).
Qed.

End Facts.
