(* ===== verification/Queue.v ===== *)
(** The work queue ([effect/internal/lifetime/queue.go], [queue_policy.go],
    [queue_waiter.go]).

    Each definition is what one call does while it holds the queue's lock, or
    one receive on its own channel; the queue, and the channels of the callers
    parked on it, are the store it changes. [None] is a call that would block
    under the lock or panic. *)

From S2P Require Import Prelude.

Record Chan (T : Type) : Type := MkChan { buffer : list T; chan_open : bool }.
Arguments MkChan {T} _ _.
Arguments buffer {T} _.
Arguments chan_open {T} _.

Section Chan.
  Context {T : Type}.

(** [make(chan T, 1)] *)
Definition make_chan : Chan T := MkChan [] true.

(** [ch <- v]; [None] when the send would block or panic. *)
Definition chan_send (v : T) (ch : Chan T) : option (Chan T) :=
  if chan_open ch && (length (buffer ch) <? 1)%nat
  then Some (MkChan (buffer ch ++ [v]) true) else None.

(** [close(ch)]; [None] is the panic of closing twice. *)
Definition chan_close (ch : Chan T) : option (Chan T) :=
  if chan_open ch then Some (MkChan (buffer ch) false) else None.

(** [v, open := <-ch]; [None] when the receive would block. *)
Definition chan_recv (ch : Chan T) : option (option T * Chan T) :=
  match buffer ch with
  | v :: rest => Some (Some v, MkChan rest (chan_open ch))
  | [] => if chan_open ch then None else Some (None, ch)
  end.

(** A channel whose one message has been sent, or that was closed unused. *)
Definition settled (ch : Chan T) : Prop :=
  (exists v, ch = MkChan [v] true) \/ ch = MkChan [] false.

Lemma settled_recv ch : settled ch -> exists o ch', chan_recv ch = Some (o, ch').
Proof. intros [[v ->] | ->]; eauto. Qed.

End Chan.

(** [FullQueuePolicy]: the three implementations of the sealed interface. *)
Inductive FullQueuePolicy : Type := backPressure | dropNewest | dropOldest.

#[export] Instance FullQueuePolicy_eq_dec : EqDecision FullQueuePolicy.
Proof. solve_decision. Defined.

Section Queue.
  Context {A : Type} `{Zero A}.

(** A waiter is its address; an offerer's value never changes, so it is kept
    beside it. *)
Record Queue : Type := MkQueue {
  items : list A;
  capacity : Z;
  policy : option FullQueuePolicy;
  takers : list nat;
  offerers : list (nat * A);
  closed : bool
}.

Record store : Type := MkStore {
  queue : Queue;
  ready : gmap nat (Chan A);
  admission : gmap nat (Chan bool);
  next_waiter : nat
}.

Definition set_items (s : store) (l : list A) : store :=
  let q := queue s in
  MkStore (MkQueue l (capacity q) (policy q) (takers q) (offerers q) (closed q))
    (ready s) (admission s) (next_waiter s).
Definition set_takers (s : store) (l : list nat) : store :=
  let q := queue s in
  MkStore (MkQueue (items q) (capacity q) (policy q) l (offerers q) (closed q))
    (ready s) (admission s) (next_waiter s).
Definition set_offerers (s : store) (l : list (nat * A)) : store :=
  let q := queue s in
  MkStore (MkQueue (items q) (capacity q) (policy q) (takers q) l (closed q))
    (ready s) (admission s) (next_waiter s).
Definition set_closed (s : store) : store :=
  let q := queue s in
  MkStore (MkQueue (items q) (capacity q) (policy q) (takers q) (offerers q) true)
    (ready s) (admission s) (next_waiter s).
Definition set_ready (s : store) (m : gmap nat (Chan A)) : store :=
  MkStore (queue s) m (admission s) (next_waiter s).
Definition set_admission (s : store) (m : gmap nat (Chan bool)) : store :=
  MkStore (queue s) (ready s) m (next_waiter s).

(** ** Channels of the waiters *)

Definition on_ready {B} (id : nat) (f : Chan A -> option (B * Chan A)) (s : store)
    : option (B * store) :=
  ch ← ready s !! id; '(b, ch') ← f ch; Some (b, set_ready s (<[id := ch']> (ready s))).

Definition on_admission {B} (id : nat) (f : Chan bool -> option (B * Chan bool)) (s : store)
    : option (B * store) :=
  ch ← admission s !! id; '(b, ch') ← f ch;
  Some (b, set_admission s (<[id := ch']> (admission s))).

Definition silently {T} (f : Chan T -> option (Chan T)) (ch : Chan T)
    : option (unit * Chan T) := ch' ← f ch; Some (tt, ch').

(** [&takeWaiter{ready: make(chan A, 1)}] *)
Definition new_taker (s : store) : nat * store :=
  let id := next_waiter s in
  (id, MkStore (queue s) (<[id := make_chan]> (ready s)) (admission s) (S id)).

(** [&offerWaiter{value: value, admission: make(chan bool, 1)}] *)
Definition new_offerer (s : store) : nat * store :=
  let id := next_waiter s in
  (id, MkStore (queue s) (ready s) (<[id := make_chan]> (admission s)) (S id)).

(** ** Construction *)

Definition new_store (q : Queue) : store := MkStore q ∅ ∅ 0.

Definition NewQueue (capacity : Z) (policy : FullQueuePolicy) : Queue :=
  MkQueue [] (if (capacity <? 1)%Z then 1%Z else capacity) (Some policy) [] [] false.

Definition NewUnboundedQueue : Queue := MkQueue [] 0 None [] [] false.

Definition len {T} (l : list T) : Z := Z.of_nat (length l).

Definition Size (s : store) : Z := len (items (queue s)).
Definition IsShutdown (s : store) : bool := closed (queue s).

(** ** Offering *)

Definition handOff (value : A) (s : store) : option (bool * store) :=
  match takers (queue s) with
  | [] => Some (false, s)
  | taker :: rest =>
      '(_, s) ← on_ready taker (silently (chan_send value)) (set_takers s rest);
      Some (true, s)
  end.

Definition enqueue (value : A) (s : store) : bool * store :=
  let q := queue s in
  if negb (capacity q =? 0)%Z && (capacity q <=? len (items q))%Z then (false, s)
  else (true, set_items s (items q ++ [value])).

(** [FullQueuePolicy.admit]; slicing the head off an empty list panics. *)
Definition admit_value (p : FullQueuePolicy) (value : A) (s : store)
    : option (bool * option nat * store) :=
  match p with
  | backPressure =>
      let '(waiter, s) := new_offerer s in
      Some (false, Some waiter,
            set_offerers s (offerers (queue s) ++ [(waiter, value)]))
  | dropNewest => Some (false, None, s)
  | dropOldest =>
      match items (queue s) with
      | [] => None
      | _ :: rest => Some (true, None, set_items s (rest ++ [value]))
      end
  end.

(** What the caller is left with when the lock is released: an answer
    [(accepted, interrupted)], or a parked waiter to await. *)
Inductive offer_outcome : Type :=
| Answered (accepted interrupted : bool)
| ParkedOfferer (waiter : nat).

Definition Offer (value : A) (s : store) : option (offer_outcome * store) :=
  if closed (queue s) then Some (Answered false false, s)
  else
    '(handed, s) ← handOff value s;
    if handed : bool then Some (Answered true false, s)
    else
      let '(queued, s) := enqueue value s in
      if queued : bool then Some (Answered true false, s)
      else
        p ← policy (queue s);
        '(accepted, waiter, s) ← admit_value p value s;
        match waiter with
        | None => Some (Answered accepted false, s)
        | Some waiter => Some (ParkedOfferer waiter, s)
        end.

(** ** Taking *)

Definition admitOneOfferer (s : store) : option store :=
  match offerers (queue s) with
  | [] => Some s
  | (offerer, value) :: rest =>
      let s := set_offerers s rest in
      let s := set_items s (items (queue s) ++ [value]) in
      '(_, s) ← on_admission offerer (silently (chan_send true)) s;
      Some s
  end.

Definition dequeue (s : store) : option ((A * bool) * store) :=
  match items (queue s) with
  | [] => Some ((zero A, false), s)
  | value :: rest =>
      s ← admitOneOfferer (set_items s rest);
      Some ((value, true), s)
  end.

(** [(value, available, interrupted)], or a parked waiter to await. *)
Inductive take_outcome : Type :=
| Taken (value : A) (available interrupted : bool)
| ParkedTaker (waiter : nat).

Definition Take (s : store) : option (take_outcome * store) :=
  '((value, ok), s) ← dequeue s;
  if ok : bool then Some (Taken value true false, s)
  else if closed (queue s) then Some (Taken (zero A) false false, s)
  else
    let '(waiter, s) := new_taker s in
    Some (ParkedTaker waiter, set_takers s (takers (queue s) ++ [waiter])).

(** One turn of [drainUpTo]'s loop. *)
Definition drain_turn (limit : Z) (st : list A * store)
    : (list A * store) + option (list A * store) :=
  let '(batch, s) := st in
  if negb (len batch <? limit)%Z then inr (Some (batch, s))
  else match dequeue s with
       | None => inr None
       | Some ((value, available), s) =>
           if negb available then inr (Some (batch, s)) else inl (batch ++ [value], s)
       end.

(** The batch grows every turn, so [limit] turns and the last look suffice. *)
Definition drainUpTo (limit : Z) (batch : list A) (s : store) : option (list A * store) :=
  default None (iterate (drain_turn limit) (S (Z.to_nat limit)) (batch, s)).

Definition TakeAvailable (limit : Z) (s : store) : option (list A * store) :=
  if (limit <? 1)%Z then Some ([], s) else drainUpTo limit [] s.

(** [TakeUpTo] up to its call of [Take]: an early answer or what [Take] left. *)
Definition TakeUpTo (limit : Z) (s : store)
    : option ((list A * bool) + take_outcome) * store :=
  if (limit <? 1)%Z then (Some (inl ([], false)), s)
  else match Take s with
       | Some (o, s) => (Some (inr o), s)
       | None => (None, s)
       end.

(** [TakeUpTo] after its [Take] returned [(first, ok, interrupted)]: the lock
    was released in between. *)
Definition TakeUpTo_rest (limit : Z) (first : A) (ok interrupted : bool) (s : store)
    : option ((list A * bool) * store) :=
  if interrupted then Some (([], true), s)
  else if negb ok then Some (([], false), s)
  else '(batch, s) ← drainUpTo limit [first] s; Some ((batch, false), s).

(** ** Parking ([queue_waiter.go]) *)

Fixpoint remove_waiter {T} (is_it : T -> bool) (l : list T) : option (list T) :=
  match l with
  | [] => None
  | x :: rest => if is_it x then Some rest else (cons x) <$> remove_waiter is_it rest
  end.

Definition abandonTaker (waiter : nat) (s : store) : bool * store :=
  match remove_waiter (Nat.eqb waiter) (takers (queue s)) with
  | Some l => (true, set_takers s l)
  | None => (false, s)
  end.

Definition abandonOfferer (waiter : nat) (s : store) : bool * store :=
  match remove_waiter (fun parked => Nat.eqb waiter (fst parked)) (offerers (queue s)) with
  | Some l => (true, set_offerers s l)
  | None => (false, s)
  end.

(** Which ready case a [select] takes. *)
Inductive select_case : Type := case_message | case_done.

(** [admitted := <-waiter.admission]: a closed channel reads as [false]. *)
Definition receive_admission (waiter : nat) (s : store) : option (bool * bool * store) :=
  '(admitted, s) ← on_admission waiter chan_recv s;
  Some (default false admitted, false, s).

(** [value, open := <-waiter.ready] *)
Definition receive_value (waiter : nat) (s : store) : option (A * bool * bool * store) :=
  '(value, s) ← on_ready waiter chan_recv s;
  Some (default (zero A) value, bool_decide (is_Some value), false, s).

Definition awaitRoom (choice : select_case) (waiter : nat) (s : store)
    : option (bool * bool * store) :=
  match choice with
  | case_message => receive_admission waiter s
  | case_done =>
      let '(abandoned, s) := abandonOfferer waiter s in
      if abandoned : bool then Some (false, true, s) else receive_admission waiter s
  end.

Definition awaitValue (choice : select_case) (waiter : nat) (s : store)
    : option (A * bool * bool * store) :=
  match choice with
  | case_message => receive_value waiter s
  | case_done =>
      let '(abandoned, s) := abandonTaker waiter s in
      if abandoned : bool then Some (zero A, false, true, s) else receive_value waiter s
  end.

(** ** Shutdown *)

(** Under the lock: the waiters to wake, or [None] when already shut down. *)
Definition beginShutdown (s : store) : option (list nat * list nat) * store :=
  if closed (queue s) then (None, s)
  else
    let q := queue s in
    (Some (takers q, (offerers q).*1), set_offerers (set_takers (set_closed s) []) []).

Definition close_taker (taker : nat) (s : store) : option store :=
  '(_, s) ← on_ready taker (silently chan_close) s; Some s.
Definition close_offerer (offerer : nat) (s : store) : option store :=
  '(_, s) ← on_admission offerer (silently chan_close) s; Some s.

Fixpoint close_all (close : nat -> store -> option store) (l : list nat) (s : store)
    : option store :=
  match l with
  | [] => Some s
  | waiter :: rest => s ← close waiter s; close_all close rest s
  end.

Definition Shutdown (s : store) : option store :=
  match beginShutdown s with
  | (None, s) => Some s
  | (Some (ts, os), s) => s ← close_all close_taker ts s; close_all close_offerer os s
  end.

End Queue.

Arguments Queue : clear implicits.
Arguments store : clear implicits.
Arguments offer_outcome : clear implicits.
Arguments take_outcome : clear implicits.
