(* ===== verification/QueueFacts.v ===== *)
(** The queue under concurrency: every interleaving of offers, takes, drains,
    cancellations and shutdowns, as a labelled step relation over the lock
    sections and channel receives of Queue.v; its invariant, its order, and
    what a cancelled or woken waiter is told. *)

From S2P Require Import Prelude Queue.

Section Facts.
  Context {A : Type} `{Zero A}.
  #[local] Abbreviation Queue := (Queue A).
  #[local] Abbreviation store := (store A).

(** ** Waiters and their channels

    [parked] are registered with the queue, [closing] have been taken off it by
    a shutdown that has not closed them yet, [open] are the calls that have not
    returned. *)
Definition waiting_ok {T} (chans : gmap nat (Chan T)) (parked closing open : list nat)
    (next : nat) : Prop :=
  NoDup (parked ++ closing)
  /\ (forall id, id ∈ parked ++ closing -> id ∈ open)
  /\ (forall id, id ∈ open -> id < next /\ exists ch, chans !! id = Some ch
        /\ (id ∈ parked ++ closing -> ch = make_chan)
        /\ (id ∉ parked ++ closing -> settled ch)).

Definition returned (id : nat) (open : list nat) : list nat := filter (fun x => x <> id) open.

Section Waiting.
  Context {T : Type} (chans : gmap nat (Chan T)).

Lemma waiting_next parked closing open next :
  waiting_ok chans parked closing open next ->
  waiting_ok chans parked closing open (S next).
Proof.
  intros (? & ? & Hch). split_and!; try done. intros id Hid.
  destruct (Hch id Hid) as [? ?]. split; [lia|done].
Qed.

Lemma waiting_park parked closing open next :
  waiting_ok chans parked closing open next ->
  waiting_ok (<[next := make_chan]> chans) (parked ++ [next]) closing (next :: open) (S next).
Proof.
  intros (Hnd & Hsub & Hch).
  assert (next ∉ parked ++ closing) as Hfresh.
  { intros Hin. destruct (Hch next (Hsub _ Hin)) as [? _]. lia. }
  split_and!.
  - rewrite <- app_assoc, (Permutation_app_comm [next] closing), app_assoc.
    apply NoDup_app. split_and!; [done | | apply NoDup_singleton].
    intros x Hx. rewrite list_elem_of_singleton. by intros ->.
  - intros id. rewrite <- app_assoc, !elem_of_app, list_elem_of_singleton, elem_of_cons.
    intros [?|[->|?]]; [right; apply Hsub | by left | right; apply Hsub]; set_solver.
  - intros id. rewrite elem_of_cons. intros [->|Hid].
    + split; [lia|]. exists make_chan. rewrite lookup_insert_eq. split_and!; [done|done|].
      set_solver.
    + destruct (Hch id Hid) as (? & ch & Hl & Hm & Hs). split; [lia|]. exists ch.
      rewrite lookup_insert_ne by lia. split_and!; [done| |].
      * rewrite <- app_assoc, !elem_of_app, list_elem_of_singleton.
        intros [?|[->|?]]; [|lia|]; apply Hm; set_solver.
      * intros Hn. apply Hs. set_solver.
Qed.

(** A parked or closing waiter leaves the list with its channel settled. *)
Lemma waiting_settle id ch parked closing open next parked' closing' :
  waiting_ok chans parked closing open next ->
  parked ++ closing ≡ₚ id :: parked' ++ closing' -> settled ch ->
  waiting_ok (<[id := ch]> chans) parked' closing' open next.
Proof.
  intros (Hnd & Hsub & Hch) Hp Hs. rewrite Hp in Hnd. apply NoDup_cons in Hnd as [Hnin Hnd].
  split_and!; [done | |].
  - intros x Hx. apply Hsub. rewrite Hp. set_solver.
  - intros x Hx. destruct (Hch x Hx) as (? & ch' & Hl & Hm & Hst). split; [done|].
    destruct (decide (x = id)) as [->|Hne].
    + exists ch. by rewrite lookup_insert_eq.
    + exists ch'. rewrite lookup_insert_ne by done. split_and!; [done| |].
      * intros ?. apply Hm. rewrite Hp. set_solver.
      * intros ?. apply Hst. rewrite Hp. set_solver.
Qed.

(** A call returns: it is open no longer. *)
Lemma waiting_return id ch parked closing open next :
  waiting_ok chans parked closing open next -> id ∉ parked ++ closing ->
  waiting_ok (<[id := ch]> chans) parked closing (returned id open) next.
Proof.
  intros (Hnd & Hsub & Hch) Hn. split_and!; [done | |].
  - intros x Hx. apply list_elem_of_filter. split; [congruence | by apply Hsub].
  - intros x [Hne Hx]%list_elem_of_filter. rewrite lookup_insert_ne by done. by apply Hch.
Qed.

Lemma waiting_abandon id parked closing open next parked' :
  waiting_ok chans parked closing open next -> parked ≡ₚ id :: parked' ->
  waiting_ok chans parked' closing (returned id open) next.
Proof.
  intros (Hnd & Hsub & Hch) Hp. rewrite Hp in Hnd; cbn in Hnd.
  apply NoDup_cons in Hnd as [Hnin Hnd]. split_and!; [done | |].
  - intros x Hx. apply list_elem_of_filter. split; [congruence|]. apply Hsub. rewrite Hp. set_solver.
  - intros x [Hne Hx]%list_elem_of_filter. destruct (Hch x Hx) as (? & ch' & Hl & Hm & Hst).
    split; [done|]. exists ch'. split_and!; [done| |].
    + intros ?. apply Hm. rewrite Hp. set_solver.
    + intros ?. apply Hst. rewrite Hp. set_solver.
Qed.

(** A shutdown takes every parked waiter off the queue. *)
Lemma waiting_shutdown parked open next :
  waiting_ok chans parked [] open next -> waiting_ok chans [] parked open next.
Proof. unfold waiting_ok. rewrite app_nil_r. by cbn. Qed.

Lemma waiting_parked id parked closing open next :
  waiting_ok chans parked closing open next -> id ∈ parked ++ closing ->
  chans !! id = Some make_chan.
Proof.
  intros (_ & Hsub & Hch) Hin. destruct (Hch id (Hsub id Hin)) as (_ & ch & Hl & Hm & _).
  by rewrite <- (Hm Hin).
Qed.

End Waiting.

Lemma remove_waiter_perm {T} (is_it : T -> bool) (l l' : list T) :
  remove_waiter is_it l = Some l' ->
  exists x, is_it x = true /\ l ≡ₚ x :: l' /\ l' `sublist_of` l.
Proof.
  revert l'. induction l as [|y l IH]; intros l'; cbn; [done|].
  destruct (is_it y) eqn:E.
  - intros [= <-]. exists y. split_and!; [done|done|by constructor].
  - destruct (remove_waiter is_it l) as [l''|]; [|done]. intros [= <-].
    destruct (IH l'' eq_refl) as (x & ? & Hp & ?). exists x. split_and!; [done| |by constructor].
    by rewrite Hp, Permutation_swap.
Qed.

Lemma remove_waiter_None {T} (is_it : T -> bool) (l : list T) :
  remove_waiter is_it l = None -> forall x, x ∈ l -> is_it x = false.
Proof.
  induction l as [|y l IH]; cbn; [set_solver|].
  destruct (is_it y) eqn:E; [done|]. destruct (remove_waiter is_it l); [done|].
  intros _ x [->|]%elem_of_cons; auto.
Qed.

(** ** The system: a queue and the calls in progress on it *)

Record config : Type := MkConfig {
  st : store;
  closing_takers : list nat;
  closing_offerers : list nat;
  open_takes : list nat;
  open_offers : list nat
}.

Definition with_store (c : config) (s : store) : config :=
  MkConfig s (closing_takers c) (closing_offerers c) (open_takes c) (open_offers c).

(** Everything waiting to be taken, the parked offers behind the items. *)
Definition backlog (s : store) : list A := items (queue s) ++ (offerers (queue s)).*2.

(** What a step did: the values that entered the queue, the values that left it
    for a caller, each with the parked take it was put into the channel of
    ([None] for a value the step's own call returns), the values the queue will
    never hand out, and what a parked take came back with. *)
Record label : Type := MkLabel {
  ins : list A;
  given : list (option nat * A);
  lost : list A;
  answered : list (nat * A)
}.

Definition outs (l : label) : list A := (given l).*2.

Definition handed (l : label) : list (nat * A) :=
  omap (fun '(to, v) => (fun id => (id, v)) <$> to) (given l).

Definition direct (vs : list A) : list (option nat * A) := (fun v => (None, v)) <$> vs.

Definition silent : label := MkLabel [] [] [] [].

Definition offer_label (v : A) (o : offer_outcome) (s : store) : label :=
  match o with
  | Answered true _ =>
      match takers (queue s) with
      | taker :: _ => MkLabel [v] [(Some taker, v)] [] []
      | [] =>
          if negb (capacity (queue s) =? 0)%Z
             && (capacity (queue s) <=? len (items (queue s)))%Z
          then MkLabel [v] [] (take 1 (items (queue s))) []
          else MkLabel [v] [] [] []
      end
  | Answered false _ => silent
  | ParkedOfferer _ => MkLabel [v] [] [] []
  end.

Definition after_offer (c : config) (o : offer_outcome) (s : store) : config :=
  MkConfig s (closing_takers c) (closing_offerers c) (open_takes c)
    (match o with ParkedOfferer id => id :: open_offers c | _ => open_offers c end).

Definition take_label (o : take_outcome A) : label :=
  match o with Taken v true _ => MkLabel [] (direct [v]) [] [] | _ => silent end.

Definition after_take (c : config) (o : take_outcome A) (s : store) : config :=
  MkConfig s (closing_takers c) (closing_offerers c)
    (match o with ParkedTaker id => id :: open_takes c | _ => open_takes c end)
    (open_offers c).

(** The value of a parked offer that gives up. *)
Definition parked_value (id : nat) (s : store) : list A :=
  (filter (fun parked => fst parked = id) (offerers (queue s))).*2.

Inductive step (c : config) : label -> config -> Prop :=
| step_offer v o s :
    Offer v (st c) = Some (o, s) ->
    step c (offer_label v o (st c)) (after_offer c o s)
| step_take o s :
    Take (st c) = Some (o, s) -> step c (take_label o) (after_take c o s)
| step_take_available limit batch s :
    TakeAvailable limit (st c) = Some (batch, s) ->
    step c (MkLabel [] (direct batch) [] []) (with_store c s)
| step_take_rest limit first batch interrupted s :
    TakeUpTo_rest limit first true false (st c) = Some ((batch, interrupted), s) ->
    step c (MkLabel [] (direct (tail batch)) [] []) (with_store c s)
| step_await_room choice id accepted interrupted s :
    id ∈ open_offers c ->
    awaitRoom choice id (st c) = Some (accepted, interrupted, s) ->
    step c (MkLabel [] [] (if interrupted : bool then parked_value id (st c) else []) [])
      (MkConfig s (closing_takers c) (closing_offerers c) (open_takes c)
         (returned id (open_offers c)))
| step_await_value choice id v ok interrupted s :
    id ∈ open_takes c ->
    awaitValue choice id (st c) = Some (v, ok, interrupted, s) ->
    step c (MkLabel [] [] [] (if ok : bool then [(id, v)] else []))
      (MkConfig s (closing_takers c) (closing_offerers c)
         (returned id (open_takes c)) (open_offers c))
| step_shutdown ts os s :
    beginShutdown (st c) = (Some (ts, os), s) ->
    step c (MkLabel [] [] (offerers (queue (st c))).*2 [])
      (MkConfig s (closing_takers c ++ ts) (closing_offerers c ++ os)
         (open_takes c) (open_offers c))
| step_close_taker id rest s :
    closing_takers c = id :: rest -> close_taker id (st c) = Some s ->
    step c silent (MkConfig s rest (closing_offerers c) (open_takes c) (open_offers c))
| step_close_offerer id rest s :
    closing_takers c = [] -> closing_offerers c = id :: rest ->
    close_offerer id (st c) = Some s ->
    step c silent (MkConfig s [] rest (open_takes c) (open_offers c)).

Inductive steps : config -> list label -> config -> Prop :=
| steps_here c : steps c [] c
| steps_next c l c' ls c'' : step c l c' -> steps c' ls c'' -> steps c (l :: ls) c''.

(** The values put into the channels of takes that have not returned yet. *)
Definition flight (chans : gmap nat (Chan A)) (open : list nat) : list (nat * A) :=
  omap (fun id => ch ← chans !! id; (fun v => (id, v)) <$> head (buffer ch)) open.

#[local] Arguments flight : simpl never.

Definition in_flight (c : config) : list (nat * A) := flight (ready (st c)) (open_takes c).

Lemma outs_direct vs l a : outs (MkLabel l (direct vs) [] a) = vs.
Proof. unfold outs, direct; cbn. rewrite <- list_fmap_compose. apply list_fmap_id. Qed.

(** ** The invariant *)

Record queue_ok (q : Queue) : Prop := {
  ok_capacity : (0 <= capacity q)%Z;
  ok_policy : capacity q <> 0%Z -> is_Some (policy q);
  ok_bound : capacity q <> 0%Z -> (len (items q) <= capacity q)%Z;
  ok_takers : takers q <> [] -> items q = [];
  ok_offerers : offerers q <> [] -> capacity q <> 0%Z /\ len (items q) = capacity q;
  ok_parked : offerers q <> [] -> policy q = Some backPressure;
  ok_closed : closed q = true -> takers q = [] /\ offerers q = []
}.

Record config_ok (c : config) : Prop := {
  ok_queue : queue_ok (queue (st c));
  ok_takes : waiting_ok (ready (st c)) (takers (queue (st c))) (closing_takers c)
               (open_takes c) (next_waiter (st c));
  ok_offers : waiting_ok (admission (st c)) (offerers (queue (st c))).*1 (closing_offerers c)
                (open_offers c) (next_waiter (st c));
  ok_closing : closed (queue (st c)) = false ->
               closing_takers c = [] /\ closing_offerers c = []
}.

Definition start (q : Queue) : config := MkConfig (new_store q) [] [] [] [].

Lemma start_ok q :
  queue_ok q -> takers q = [] -> offerers q = [] -> config_ok (start q).
Proof.
  intros Hq Ht Ho. constructor; cbn; rewrite ?Ht, ?Ho; try done;
    (split_and!; cbn; [apply NoDup_nil_2 | set_solver | set_solver]).
Qed.

Lemma NewQueue_ok n p : queue_ok (NewQueue n p).
Proof. constructor; cbn; unfold len; cbn; try done; destruct (Z.ltb_spec n 1); eauto; lia. Qed.

Lemma NewUnboundedQueue_ok : queue_ok (NewUnboundedQueue (A := A)).
Proof. by constructor. Qed.

(** ** Lock sections *)

(** What an operation that touches one waiter's channel does. *)
Lemma on_ready_some {B} id f (s : store) ch (b : B) ch' :
  ready s !! id = Some ch -> f ch = Some (b, ch') ->
  on_ready id f s = Some (b, set_ready s (<[id := ch']> (ready s))).
Proof. unfold on_ready. intros -> ; cbn. by intros ->. Qed.

Lemma on_admission_some {B} id f (s : store) ch (b : B) ch' :
  admission s !! id = Some ch -> f ch = Some (b, ch') ->
  on_admission id f s = Some (b, set_admission s (<[id := ch']> (admission s))).
Proof. unfold on_admission. intros -> ; cbn. by intros ->. Qed.

Lemma sent_settled {T} (v : T) : settled (MkChan [v] true).
Proof. left. eauto. Qed.
Lemma closed_settled {T} : settled (MkChan (T := T) [] false).
Proof. by right. Qed.

Ltac lock_ok := constructor; cbn in *; eauto; try done; try (intros; lia).

(** The queue's own invariant after a step, from its parts before. *)
Ltac queue_solve :=
  constructor; cbn in *; unfold len in *; cbn in *; rewrite ?length_app in *; cbn in *;
  try done; try lia; intros; naive_solver (lia || eauto).

Lemma dequeue_spec c :
  config_ok c ->
  match backlog (st c) with
  | [] => dequeue (st c) = Some ((zero A, false), st c)
  | v :: rest =>
      exists s, dequeue (st c) = Some ((v, true), s)
      /\ config_ok (with_store c s) /\ backlog s = rest
      /\ takers (queue s) = takers (queue (st c)) /\ closed (queue s) = closed (queue (st c))
  end.
Proof.
  intros [Hq Ht Ho Hc]. destruct c as [[[it cap pol tk off cl] rd ad nx] ct co ot oo].
  unfold backlog, dequeue; cbn in *. destruct Hq as [Hcap Hpol Hbound Htk Hoff Hpark Hcl]; cbn in *.
  destruct it as [|v it]; cbn.
  - destruct off as [|[id w] off]; [done|]. unfold len in *; cbn in *. exfalso.
    destruct Hoff as [? ?]; [done|lia].
  - unfold admitOneOfferer; cbn. destruct off as [|[id w] off]; cbn.
    + eexists. split; [done|]. cbn. rewrite !app_nil_r. split_and!; try done.
      lock_ok. constructor; cbn; unfold len in *; cbn in *; try done.
      * intros Hne. specialize (Hbound Hne). lia.
      * intros Hne. specialize (Htk Hne). done.
    + pose proof (waiting_parked _ id _ _ _ _ Ho) as Hid. cbn in Hid.
      erewrite on_admission_some; [|cbn; apply Hid; set_solver | done]. cbn.
      eexists. split; [done|]. cbn. split_and!; try done; [|by rewrite <- app_assoc].
      destruct Hoff as [Hne Hlen]; [done|]. unfold len in *. cbn in *.
      lock_ok.
      * queue_solve.
      * eapply waiting_settle; [exact Ho | done | apply sent_settled].
Qed.

Lemma drainUpTo_spec limit c batch :
  config_ok c ->
  let k := Z.to_nat (limit - len batch) in
  exists s, drainUpTo limit batch (st c) = Some (batch ++ take k (backlog (st c)), s)
    /\ config_ok (with_store c s) /\ backlog s = drop k (backlog (st c))
    /\ takers (queue s) = takers (queue (st c)) /\ closed (queue s) = closed (queue (st c)).
Proof.
  intros Hok k. unfold drainUpTo.
  assert (k < S (Z.to_nat limit)) as Hfuel by (unfold k, len; lia).
  revert Hfuel. generalize (S (Z.to_nat limit)) as fuel. intros fuel. subst k.
  revert c batch Hok. induction fuel as [|fuel IH]; intros c batch Hok Hfuel; [lia|].
  cbn [iterate]. unfold drain_turn at 1. destruct (Z.ltb_spec (len batch) limit) as [Hlt|Hge].
  - cbn [negb]. pose proof (dequeue_spec c Hok) as Hd.
    destruct (backlog (st c)) as [|v rest] eqn:Hb.
    + rewrite Hd; cbn. exists (st c). rewrite take_nil, drop_nil, app_nil_r.
      by destruct c.
    + destruct Hd as (s & -> & Hok' & <- & Htk & Hcl); cbn [negb].
      destruct (IH (with_store c s) (batch ++ [v]) Hok') as (s' & Hit & ? & Hb' & Ht' & Hc').
      { unfold len in *. rewrite length_app; cbn. lia. }
      cbn [st with_store] in *. rewrite Hit. exists s'.
      replace (Z.to_nat (limit - len batch))
        with (S (Z.to_nat (limit - len (batch ++ [v]))))
        by (unfold len in *; rewrite length_app; cbn; lia).
      cbn [take drop]. rewrite <- app_assoc. split_and!; [done|done|done|congruence|congruence].
  - cbn. exists (st c). replace (Z.to_nat (limit - len batch)) with 0 by lia.
    cbn. rewrite app_nil_r. by destruct c.
Qed.

Lemma Take_spec c :
  config_ok c ->
  exists o s, Take (st c) = Some (o, s)
  /\ config_ok (after_take c o s)
  /\ match backlog (st c) with
     | v :: rest => o = Taken v true false /\ backlog s = rest
     | [] => backlog s = [] /\
             if closed (queue (st c)) then o = Taken (zero A) false false /\ s = st c
             else o = ParkedTaker (next_waiter (st c))
                  /\ takers (queue s) = takers (queue (st c)) ++ [next_waiter (st c)]
     end.
Proof.
  intros Hok. pose proof (dequeue_spec c Hok) as Hd. unfold Take.
  destruct (backlog (st c)) as [|v rest] eqn:Hb.
  - rewrite Hd; cbn. destruct (closed (queue (st c))) eqn:Hcl.
    + exists (Taken (zero A) false false), (st c). by destruct c.
    + do 2 eexists. split; [done|]. cbn. split; [|by unfold backlog in *; cbn].
      destruct Hok as [Hq Ht Ho Hc], Hq as [?????? Hclosed].
      unfold backlog in Hb. apply app_eq_nil in Hb as [Hi _].
      lock_ok.
      * constructor; cbn; try done. by rewrite Hcl.
      * by apply waiting_park.
      * by apply waiting_next.
  - destruct Hd as (s & -> & Hok' & Hbs & _). cbn.
    exists (Taken v true false), s. by destruct c.
Qed.

Lemma Offer_spec c v :
  config_ok c ->
  exists o s, Offer v (st c) = Some (o, s)
  /\ config_ok (after_offer c o s)
  /\ (let l := offer_label v o (st c) in
      backlog (st c) ++ ins l = outs l ++ lost l ++ backlog s)
  /\ (o = Answered false false -> s = st c).
Proof.
  intros [Hq Ht Ho Hc]. destruct c as [[[it cap pol tk off cl] rd ad nx] ct co ot oo].
  unfold backlog, Offer, offer_label, handOff, enqueue; cbn in *.
  destruct Hq as [Hcap Hpol Hbound Htk Hoff Hpark Hcl]; cbn in *.
  destruct cl; [by do 2 eexists; split; [done|]; cbn; rewrite app_nil_r|].
  destruct tk as [|id tk]; cbn.
  - destruct (negb (cap =? 0)%Z && (cap <=? len it)%Z) eqn:Hfull; cbn.
    + apply andb_true_iff in Hfull as [Hne Hle].
      apply negb_true_iff, Z.eqb_neq in Hne. apply Z.leb_le in Hle.
      specialize (Hbound Hne). destruct (Hpol Hne) as [p ->]; cbn.
      destruct p; cbn.
      * do 2 eexists. split; [done|]. cbn. split_and!; try done.
        -- lock_ok; [queue_solve | by apply waiting_next |].
           rewrite fmap_app; cbn. by apply waiting_park.
        -- by rewrite fmap_app, app_assoc.
      * do 2 eexists. split; [done|]. cbn. rewrite app_nil_r. split_and!; try done.
      * destruct it as [|x it]; [unfold len in *; cbn in *; lia|].
        assert (off = []) as -> by (destruct off; [done|]; naive_solver).
        do 2 eexists. split; [done|]. cbn. rewrite !app_nil_r. split_and!; try done.
        lock_ok. queue_solve.
    + assert (off = []) as ->.
      { destruct off; [done|]. destruct Hoff as [? ?]; [done|].
        apply andb_false_iff in Hfull as [Hf|Hf]; [|lia].
        apply negb_false_iff, Z.eqb_eq in Hf. done. }
      do 2 eexists. split; [done|]. cbn. rewrite !app_nil_r. split_and!; try done.
      lock_ok. apply andb_false_iff in Hfull. constructor; cbn; try done.
      unfold len in *. rewrite length_app; cbn. intros Hne.
      destruct Hfull as [Hf|Hf]; [|lia]. by apply negb_false_iff, Z.eqb_eq in Hf.
  - assert (it = []) as -> by by apply Htk.
    assert (off = []) as ->.
    { destruct off; [done|]. destruct Hoff as [? ?]; [done|]. unfold len in *; cbn in *; lia. }
    pose proof (waiting_parked _ id _ _ _ _ Ht) as Hid. cbn in Hid.
    erewrite on_ready_some; [|cbn; apply Hid; set_solver | done]. cbn.
    do 2 eexists. split; [done|]. cbn. split_and!; try done.
    lock_ok; first [eapply waiting_settle; [exact Ht | done | apply sent_settled] | queue_solve].
Qed.

(** ** Parked callers *)

Lemma on_ready_inv {B} id f (s : store) (b : B) s' :
  on_ready id f s = Some (b, s') ->
  exists ch ch', ready s !! id = Some ch /\ f ch = Some (b, ch')
    /\ s' = set_ready s (<[id := ch']> (ready s)).
Proof.
  unfold on_ready. destruct (ready s !! id) as [ch|]; cbn; [|done].
  destruct (f ch) as [[b' ch']|] eqn:Hf; cbn; [|done]. intros [= <- <-]. eauto 10.
Qed.

Lemma on_admission_inv {B} id f (s : store) (b : B) s' :
  on_admission id f s = Some (b, s') ->
  exists ch ch', admission s !! id = Some ch /\ f ch = Some (b, ch')
    /\ s' = set_admission s (<[id := ch']> (admission s)).
Proof.
  unfold on_admission. destruct (admission s !! id) as [ch|]; cbn; [|done].
  destruct (f ch) as [[b' ch']|] eqn:Hf; cbn; [|done]. intros [= <- <-]. eauto 10.
Qed.

(** A channel that can be received from is not a parked waiter's. *)
Lemma waiting_received {T} (chans : gmap nat (Chan T)) parked closing open next id ch o ch' :
  waiting_ok chans parked closing open next -> chans !! id = Some ch ->
  chan_recv ch = Some (o, ch') -> id ∉ parked ++ closing.
Proof.
  intros Hw Hl Hr Hin. pose proof (waiting_parked _ id _ _ _ _ Hw Hin) as Hl'.
  rewrite Hl in Hl'. injection Hl' as ->. done.
Qed.

Lemma queue_ok_takers q l :
  queue_ok q -> l `sublist_of` takers q ->
  queue_ok (MkQueue (items q) (capacity q) (policy q) l (offerers q) (closed q)).
Proof.
  intros [] Hl. constructor; cbn; try done.
  - intros Hne. apply ok_takers0. intros Heq. rewrite Heq in Hl. by apply sublist_nil_r in Hl.
  - intros Hc. destruct (ok_closed0 Hc) as [Heq ?]. rewrite Heq in Hl.
    by apply sublist_nil_r in Hl.
Qed.

Lemma queue_ok_offerers q l :
  queue_ok q -> l `sublist_of` offerers q ->
  queue_ok (MkQueue (items q) (capacity q) (policy q) (takers q) l (closed q)).
Proof.
  intros [] Hl.
  assert (l <> [] -> offerers q <> []) as Hn.
  { intros Hne Heq. rewrite Heq in Hl. by apply sublist_nil_r in Hl. }
  constructor; cbn; try done; auto.
  intros Hc. destruct (ok_closed0 Hc) as [? Heq]. rewrite Heq in Hl.
  by apply sublist_nil_r in Hl.
Qed.

Lemma awaitValue_ok c choice id v ok interrupted s :
  config_ok c -> awaitValue choice id (st c) = Some (v, ok, interrupted, s) ->
  config_ok (MkConfig s (closing_takers c) (closing_offerers c)
               (returned id (open_takes c)) (open_offers c))
  /\ backlog s = backlog (st c).
Proof.
  intros [Hq Ht Ho Hc] Haw.
  assert (forall s', receive_value id (st c) = Some (v, ok, interrupted, s') ->
    config_ok (MkConfig s' (closing_takers c) (closing_offerers c)
                 (returned id (open_takes c)) (open_offers c)) /\ backlog s' = backlog (st c))
    as Hrecv.
  { intros s' Hr. unfold receive_value in Hr.
    destruct (on_ready id chan_recv (st c)) as [[o s'']|] eqn:E; cbn in Hr; [|done].
    injection Hr as <- <- <- <-.
    apply on_ready_inv in E as (ch & ch' & Hl & Hf & ->). split; [|done].
    constructor; cbn; try done. apply waiting_return; [done|].
    by eapply waiting_received. }
  unfold awaitValue in Haw. destruct choice; [by apply Hrecv|].
  unfold abandonTaker in Haw.
  destruct (remove_waiter _ _) as [l|] eqn:E; [|by apply Hrecv]. injection Haw as <- <- <- <-.
  apply remove_waiter_perm in E as (x & Hx & Hp & Hsub). apply Nat.eqb_eq in Hx as <-.
  split; [|done]. constructor; cbn; try done.
  - by apply queue_ok_takers.
  - by eapply waiting_abandon.
Qed.

Lemma filter_one id w (rest : list (nat * A)) :
  id ∉ rest.*1 -> filter (fun parked => fst parked = id) ((id, w) :: rest) = [(id, w)].
Proof.
  intros Hn. rewrite filter_cons_True by done. f_equal. induction rest as [|[j u] rest IH]; [done|].
  cbn in Hn. rewrite filter_cons_False by set_solver. apply IH. set_solver.
Qed.

Lemma awaitRoom_ok c choice id accepted interrupted s :
  config_ok c -> awaitRoom choice id (st c) = Some (accepted, interrupted, s) ->
  config_ok (MkConfig s (closing_takers c) (closing_offerers c) (open_takes c)
               (returned id (open_offers c)))
  /\ backlog s `sublist_of` backlog (st c)
  /\ backlog (st c)
     ≡ₚ (if interrupted : bool then parked_value id (st c) else []) ++ backlog s.
Proof.
  intros [Hq Ht Ho Hc] Haw.
  assert (forall s', receive_admission id (st c) = Some (accepted, interrupted, s') ->
    config_ok (MkConfig s' (closing_takers c) (closing_offerers c) (open_takes c)
                 (returned id (open_offers c)))
    /\ backlog s' `sublist_of` backlog (st c)
    /\ backlog (st c)
       ≡ₚ (if interrupted : bool then parked_value id (st c) else []) ++ backlog s') as Hrecv.
  { intros s' Hr. unfold receive_admission in Hr.
    destruct (on_admission id chan_recv (st c)) as [[o s'']|] eqn:E; cbn in Hr; [|done].
    injection Hr as <- <- <-.
    apply on_admission_inv in E as (ch & ch' & Hl & Hf & ->). split; [|done].
    constructor; cbn; try done. apply waiting_return; [done|]. by eapply waiting_received. }
  unfold awaitRoom in Haw. destruct choice; [by apply Hrecv|].
  unfold abandonOfferer in Haw.
  destruct (remove_waiter _ _) as [l|] eqn:E; [|by apply Hrecv]. injection Haw as <- <- <-.
  apply remove_waiter_perm in E as ([x w] & Hx & Hp & Hsub). apply Nat.eqb_eq in Hx; cbn in Hx.
  subst x. split_and!.
  - constructor; cbn; try done; [by apply queue_ok_offerers|].
    eapply waiting_abandon; [exact Ho|]. by rewrite Hp.
  - unfold backlog; cbn. apply sublist_app; [done|]. by apply fmap_sublist.
  - unfold backlog, parked_value; cbn. rewrite Hp, filter_one.
    + cbn. rewrite <- Permutation_middle. done.
    + destruct Ho as [Hnd _]. rewrite Hp in Hnd; cbn in Hnd.
      apply NoDup_cons in Hnd as [Hn _]. set_solver.
Qed.

(** ** Shutdown *)

Lemma beginShutdown_ok c ts os s :
  config_ok c -> beginShutdown (st c) = (Some (ts, os), s) ->
  config_ok (MkConfig s (closing_takers c ++ ts) (closing_offerers c ++ os)
               (open_takes c) (open_offers c))
  /\ backlog (st c) = backlog s ++ (offerers (queue (st c))).*2
  /\ closed (queue s) = true /\ ts = takers (queue (st c))
  /\ os = (offerers (queue (st c))).*1
  /\ closed (queue (st c)) = false.
Proof.
  intros [Hq Ht Ho Hc]. unfold beginShutdown.
  destruct (closed (queue (st c))) eqn:Hcl; [done|]. intros [= <- <- <-].
  destruct (Hc eq_refl) as [Hct Hco]. rewrite Hct, Hco in *; cbn. split_and!; try done.
  - destruct Hq. constructor; cbn; try done; by apply waiting_shutdown.
  - unfold backlog; cbn. by rewrite app_nil_r.
Qed.

Lemma close_taker_ok c id rest :
  config_ok c -> closing_takers c = id :: rest ->
  exists s, close_taker id (st c) = Some s
  /\ config_ok (MkConfig s rest (closing_offerers c) (open_takes c) (open_offers c))
  /\ queue s = queue (st c).
Proof.
  intros [Hq Ht Ho Hc] Hcl. rewrite Hcl in *. pose proof (waiting_parked _ id _ _ _ _ Ht) as Hid.
  unfold close_taker. erewrite on_ready_some; [|apply Hid; set_solver | done]. cbn.
  eexists. split; [done|]. split; [|done]. constructor; cbn; try done.
  - eapply waiting_settle; [exact Ht | by rewrite Permutation_middle | apply closed_settled].
  - intros Hf. by destruct (Hc Hf).
Qed.

Lemma close_offerer_ok c id rest :
  config_ok c -> closing_offerers c = id :: rest ->
  exists s, close_offerer id (st c) = Some s
  /\ config_ok (MkConfig s (closing_takers c) rest (open_takes c) (open_offers c))
  /\ queue s = queue (st c).
Proof.
  intros [Hq Ht Ho Hc] Hcl. rewrite Hcl in *. pose proof (waiting_parked _ id _ _ _ _ Ho) as Hid.
  unfold close_offerer. erewrite on_admission_some; [|apply Hid; set_solver | done]. cbn.
  eexists. split; [done|]. split; [|done]. constructor; cbn; try done.
  - eapply waiting_settle; [exact Ho | by rewrite Permutation_middle | apply closed_settled].
  - intros Hf. by destruct (Hc Hf).
Qed.

(** ** Every step *)

Lemma sublist_all {T} (l k : list T) : l `sublist_of` k -> length k <= length l -> l = k.
Proof.
  induction 1 as [|x l k Hsub IH|x l k Hsub IH]; cbn; intros Hle; [done| |].
  - f_equal. apply IH. lia.
  - apply sublist_length in Hsub. lia.
Qed.

Definition keeps_order (before after : list A) (l : label) : Prop :=
  outs l ++ after `sublist_of` before ++ ins l
  /\ before ++ ins l ≡ₚ outs l ++ lost l ++ after.

Lemma keeps_order_eq before after l :
  before ++ ins l = outs l ++ lost l ++ after -> keeps_order before after l.
Proof.
  unfold keeps_order. intros ->. split; [|done]. apply sublist_app; [done|].
  by apply sublist_inserts_l.
Qed.

Lemma step_ok c l c' :
  config_ok c -> step c l c' ->
  config_ok c' /\ keeps_order (backlog (st c)) (backlog (st c')) l.
Proof.
  intros Hok Hstep. destruct Hstep as [v o s Ho | o s Ht | limit batch s Ht
    | limit first batch intr s Ht | choice id acc intr s Hin Hr | choice id v ok intr s Hin Hr
    | ts os s Hs | id rest s Hcl Hs | id rest s Hct Hcl Hs]; cbn.
  - destruct (Offer_spec c v Hok) as (o' & s' & Ho' & Hok' & Hb & _).
    rewrite Ho in Ho'. injection Ho' as <- <-. split; [done|]. by apply keeps_order_eq.
  - destruct (Take_spec c Hok) as (o' & s' & Ht' & Hok' & Hb).
    rewrite Ht in Ht'. injection Ht' as <- <-. split; [done|]. apply keeps_order_eq.
    destruct (backlog (st c)) as [|v rest].
    + destruct Hb as [-> Hb]. destruct (closed _); destruct Hb as [-> _]; done.
    + destruct Hb as [-> ->]. cbn. by rewrite app_nil_r.
  - unfold TakeAvailable in Ht. destruct (limit <? 1)%Z.
    + injection Ht as <- <-. split; [by destruct c|]. apply keeps_order_eq; cbn. by rewrite app_nil_r.
    + destruct (drainUpTo_spec limit c [] Hok) as (s' & Hd & Hok' & Hb & _).
      rewrite Ht in Hd. injection Hd as -> ->. split; [done|]. apply keeps_order_eq.
      by rewrite outs_direct; cbn; rewrite Hb, app_nil_r, take_drop.
  - unfold TakeUpTo_rest in Ht.
    destruct (drainUpTo_spec limit c [first] Hok) as (s' & Hd & Hok' & Hb & _).
    rewrite Hd in Ht; cbn in Ht. injection Ht as <- <- <-. split; [done|].
    apply keeps_order_eq. by rewrite outs_direct; cbn; rewrite Hb, app_nil_r, take_drop.
  - destruct (awaitRoom_ok c choice id acc intr s Hok Hr) as (? & Hsub & Hp). split; [done|].
    split; cbn; rewrite app_nil_r; [done | exact Hp].
  - destruct (awaitValue_ok c choice id v ok intr s Hok Hr) as (? & Hb). split; [done|].
    apply keeps_order_eq; cbn. by rewrite Hb, app_nil_r.
  - destruct (beginShutdown_ok c ts os s Hok Hs) as (? & Hb & _). split; [done|].
    split; cbn; rewrite app_nil_r, Hb; [by apply sublist_inserts_r | apply Permutation_app_comm].
  - destruct (close_taker_ok c id rest Hok Hcl) as (s' & Hs' & ? & Hq).
    rewrite Hs in Hs'. injection Hs' as <-. split; [done|]. apply keeps_order_eq; cbn.
    unfold backlog. by rewrite Hq, app_nil_r.
  - destruct (close_offerer_ok c id rest Hok Hcl) as (s' & Hs' & Hok' & Hq).
    rewrite Hs in Hs'. injection Hs' as <-. rewrite Hct in Hok'. split; [done|].
    apply keeps_order_eq; cbn. unfold backlog. by rewrite Hq, app_nil_r.
Qed.

Lemma steps_ok c ls c' : config_ok c -> steps c ls c' -> config_ok c'.
Proof.
  intros Hok Hs. induction Hs as [|c l c' ls c'' Hst _ IH]; [done|].
  apply IH. by destruct (step_ok c l c' Hok Hst).
Qed.

Lemma steps_order c ls c' :
  config_ok c -> steps c ls c' ->
  concat (map outs ls) ++ backlog (st c') `sublist_of` backlog (st c) ++ concat (map ins ls)
  /\ backlog (st c) ++ concat (map ins ls)
     ≡ₚ concat (map outs ls) ++ concat (map lost ls) ++ backlog (st c').
Proof.
  intros Hok Hs. induction Hs as [c|c l c' ls c'' Hst _ IH]; cbn; [by rewrite app_nil_r|].
  destruct (step_ok c l c' Hok Hst) as [Hok' [Hsub Hperm]].
  destruct (IH Hok') as [Hsub' Hperm']. split.
  - rewrite <- app_assoc. transitivity (outs l ++ backlog (st c') ++ concat (map ins ls)).
    + by apply sublist_app.
    + rewrite !app_assoc. by apply sublist_app.
  - rewrite app_assoc, Hperm, <- !app_assoc. f_equiv.
    rewrite Hperm'. apply Permutation_app_swap_app.
Qed.

(** What one [select] of a parked caller can report. *)
Lemma awaitValue_spec c id :
  config_ok c -> id ∈ open_takes c ->
  if decide (id ∈ takers (queue (st c))) then
    awaitValue case_message id (st c) = None
    /\ exists s, awaitValue case_done id (st c) = Some (zero A, false, true, s)
                 /\ backlog s = backlog (st c)
  else if decide (id ∈ closing_takers c) then
    forall choice, awaitValue choice id (st c) = None
  else exists ch, ready (st c) !! id = Some ch /\ settled ch /\
    forall choice, exists s, awaitValue choice id (st c)
      = Some (default (zero A) (head (buffer ch)), chan_open ch, false, s).
Proof.
  intros [Hq Ht Ho Hc] Hin. destruct Ht as (Hnd & Hsub & Hch).
  destruct (Hch id Hin) as (_ & ch & Hl & Hm & Hs).
  assert (id ∈ takers (queue (st c)) ++ closing_takers c -> receive_value id (st c) = None) as Hnone.
  { intros Hp. unfold receive_value, on_ready. rewrite Hl, (Hm Hp). done. }
  assert (id ∉ takers (queue (st c)) ->
          forall choice, awaitValue choice id (st c) = receive_value id (st c)) as Hrecv.
  { intros Hn [|]; [done|]. cbn. unfold abandonTaker.
    destruct (remove_waiter _ _) as [l|] eqn:E; [|done]. exfalso.
    apply remove_waiter_perm in E as (x & Hx & Hp & _). apply Nat.eqb_eq in Hx as <-.
    apply Hn. rewrite Hp. set_solver. }
  case_decide as Hp; [split|case_decide as Hcl].
  - apply Hnone. set_solver.
  - cbn. unfold abandonTaker. destruct (remove_waiter _ _) as [l|] eqn:E; [by eexists|].
    exfalso. pose proof (remove_waiter_None _ _ E id Hp) as Hf. by rewrite Nat.eqb_refl in Hf.
  - intros choice. rewrite Hrecv by done. apply Hnone. set_solver.
  - exists ch. split; [done|]. assert (settled ch) as Hset by (apply Hs; set_solver).
    split; [done|]. intros choice. rewrite Hrecv by done. unfold receive_value, on_ready.
    rewrite Hl; cbn. destruct Hset as [[v ->]| ->]; cbn; eauto.
Qed.

(** ** What parked takes come back with

    Only a hand-over, a close and the take's own receive touch its channel. *)

Lemma flight_app chans l k : flight chans (l ++ k) = flight chans l ++ flight chans k.
Proof. apply omap_app. Qed.

Lemma returned_split id open : NoDup open -> id ∈ open -> open ≡ₚ id :: returned id open.
Proof.
  intros Hnd Hin. unfold returned. apply NoDup_Permutation; [done| |].
  - constructor; [|by apply NoDup_filter]. rewrite list_elem_of_filter. tauto.
  - intros x. rewrite elem_of_cons, list_elem_of_filter. destruct (decide (x = id)); naive_solver.
Qed.

Lemma flight_ext chans chans' open :
  (forall id, id ∈ open -> chans !! id = chans' !! id) -> flight chans open = flight chans' open.
Proof.
  induction open as [|id open IH]; intros Heq; [done|]. unfold flight in *; cbn.
  rewrite (Heq id) by set_solver. rewrite IH by (intros; apply Heq; set_solver). done.
Qed.

Lemma flight_at chans id open :
  flight chans (id :: open) = flight chans [id] ++ flight chans open.
Proof. apply (flight_app chans [id]). Qed.

(** The channel of one open take changes; the others' do not. *)
Lemma flight_insert chans id ch open :
  NoDup open -> id ∈ open ->
  flight (<[id := ch]> chans) open
  ≡ₚ flight (<[id := ch]> chans) [id] ++ flight chans (returned id open).
Proof.
  intros Hnd Hin. unfold flight at 1. rewrite (returned_split id open Hnd Hin) at 1.
  change (flight (<[id := ch]> chans) (id :: returned id open)
          ≡ₚ flight (<[id := ch]> chans) [id] ++ flight chans (returned id open)).
  rewrite flight_at. f_equiv. erewrite flight_ext; [done|].
  intros x [? _]%list_elem_of_filter. by rewrite lookup_insert_ne.
Qed.

Lemma flight_split chans id open :
  NoDup open -> id ∈ open ->
  flight chans open ≡ₚ flight chans [id] ++ flight chans (returned id open).
Proof.
  intros Hnd Hin. unfold flight at 1. rewrite (returned_split id open Hnd Hin) at 1.
  by change (flight chans (id :: returned id open)
          ≡ₚ flight chans [id] ++ flight chans (returned id open)); rewrite flight_at.
Qed.

Lemma flight_one chans id ch :
  chans !! id = Some ch ->
  flight chans [id] = match head (buffer ch) with Some v => [(id, v)] | None => [] end.
Proof. unfold flight; cbn. intros ->; cbn. by destruct (head (buffer ch)). Qed.

Lemma dequeue_ready s r s' : dequeue s = Some (r, s') -> ready s' = ready s.
Proof.
  unfold dequeue. destruct (items (queue s)); [by intros [= _ <-]|].
  unfold admitOneOfferer. destruct (offerers _) as [|[id w] rest]; cbn; [by intros [= _ <-]|].
  destruct (on_admission _ _ _) as [[u s1]|] eqn:E; cbn; [|done]. intros [= _ <-].
  by apply on_admission_inv in E as (? & ? & _ & _ & ->).
Qed.

Lemma dequeue_empty s v s' : dequeue s = Some ((v, false), s') -> s' = s.
Proof.
  unfold dequeue. destruct (items (queue s)); [by intros [= _ <-]|].
  destruct (admitOneOfferer _); cbn; [done|done].
Qed.

Lemma drainUpTo_ready limit batch (s : store) r s' :
  drainUpTo limit batch s = Some (r, s') -> ready s' = ready s.
Proof.
  unfold drainUpTo. generalize (S (Z.to_nat limit)) as fuel. intros fuel. revert batch s.
  induction fuel as [|fuel IH]; intros batch s; cbn [iterate]; [done|].
  unfold drain_turn at 1. destruct (negb (len batch <? limit)%Z); [by intros [= _ <-]|].
  destruct (dequeue s) as [[[v available] s1]|] eqn:E; [|done].
  apply dequeue_ready in E as <-. destruct available; cbn; [apply IH | by intros [= _ <-]].
Qed.

Definition keeps_flight (c : config) (l : label) (c' : config) : Prop :=
  NoDup (open_takes c') /\ in_flight c ++ handed l ≡ₚ answered l ++ in_flight c'.

(** A step that hands nothing over, receives nothing and leaves the channels. *)
Lemma keeps_flight_same c l c' :
  NoDup (open_takes c) -> open_takes c' = open_takes c ->
  ready (st c') = ready (st c) -> handed l = [] -> answered l = [] -> keeps_flight c l c'.
Proof.
  intros Hnd Ho Hr Hh Ha. unfold keeps_flight, in_flight. rewrite Ho, Hr, Hh, Ha, app_nil_r. done.
Qed.

Lemma handed_direct i vs lo a : handed (MkLabel i (direct vs) lo a) = [].
Proof. unfold handed, direct; cbn. induction vs; [done|]. by cbn. Qed.

Lemma Offer_flight c v o s :
  config_ok c -> NoDup (open_takes c) -> Offer v (st c) = Some (o, s) ->
  keeps_flight c (offer_label v o (st c)) (after_offer c o s).
Proof.
  intros Hok Hnd Hof. pose proof Hof as Hof'. unfold Offer in Hof'.
  destruct (closed (queue (st c))) eqn:Hcl.
  { injection Hof' as <- <-. by apply keeps_flight_same. }
  unfold handOff in Hof'. destruct (takers (queue (st c))) as [|id rest] eqn:Htk.
  - assert (ready s = ready (st c)) as Hr.
    { cbn in Hof'. unfold enqueue, admit_value in Hof'.
      repeat (case_match; simplify_option_eq; try done). }
    apply keeps_flight_same; try done; unfold offer_label; rewrite Htk; repeat case_match; done.
  - destruct (on_ready _ _ _) as [[u s1]|] eqn:E; cbn in Hof'; [|done].
    injection Hof' as <- <-. apply on_ready_inv in E as (ch & ch' & Hl & Hf & ->). cbn in Hl.
    destruct (ok_takes c Hok) as (_ & Hsub & Hch). rewrite Htk in *.
    pose proof (waiting_parked _ id _ _ _ _ (ok_takes c Hok)) as Hmk. rewrite Htk in Hmk.
    rewrite Hmk in Hl by set_solver. injection Hl as <-. cbn in Hf. injection Hf as <- <-.
    specialize (Hmk ltac:(set_solver)).
    assert (id ∈ open_takes c) as Hin by (apply Hsub; set_solver).
    split; [done|]. unfold in_flight; cbn. unfold offer_label; rewrite Htk; cbn.
    rewrite flight_insert, (flight_split (ready (st c)) id) by done.
    erewrite !flight_one; [|apply lookup_insert_eq|done]. cbn. by rewrite Permutation_app_comm.
Qed.

Lemma Take_flight c o s :
  config_ok c -> NoDup (open_takes c) -> Take (st c) = Some (o, s) ->
  keeps_flight c (take_label o) (after_take c o s).
Proof.
  intros Hok Hnd Ht. unfold Take in Ht.
  destruct (dequeue (st c)) as [[[v ok] s1]|] eqn:E; cbn in Ht; [|done].
  destruct ok; [apply dequeue_ready in E; injection Ht as <- <-; by apply keeps_flight_same|].
  apply dequeue_empty in E as ->.
  destruct (closed (queue (st c))); [injection Ht as <- <-; by apply keeps_flight_same|].
  injection Ht as <- <-. destruct (ok_takes c Hok) as (_ & _ & Hch).
  assert (next_waiter (st c) ∉ open_takes c) as Hfresh.
  { intros Hin. destruct (Hch _ Hin) as [Hlt _]. lia. }
  split; cbn; [by constructor|]. unfold in_flight; cbn. rewrite app_nil_r, flight_at.
  rewrite (flight_one _ _ make_chan) by apply lookup_insert_eq. cbn. erewrite flight_ext; [done|].
  intros id Hin. rewrite lookup_insert_ne; [done|]. by intros <-.
Qed.

Lemma awaitValue_flight c choice id v ok interrupted s :
  config_ok c -> NoDup (open_takes c) -> id ∈ open_takes c ->
  awaitValue choice id (st c) = Some (v, ok, interrupted, s) ->
  keeps_flight c (MkLabel [] [] [] (if ok : bool then [(id, v)] else []))
    (MkConfig s (closing_takers c) (closing_offerers c)
       (returned id (open_takes c)) (open_offers c)).
Proof.
  intros Hok Hnd Hin Haw. split; [by apply NoDup_filter|]. unfold in_flight; cbn.
  rewrite app_nil_r, (flight_split (ready (st c)) id) by done.
  pose proof (awaitValue_spec c id Hok Hin) as Hspec.
  case_decide as Hp; [|case_decide as Hcl; [by rewrite Hspec in Haw|]].
  - destruct Hspec as [Hnone _]. destruct choice; [by rewrite Hnone in Haw|].
    rewrite (flight_one _ _ make_chan) by
      (eapply waiting_parked; [apply (ok_takes c Hok) | set_solver]).
    cbn in Haw. unfold abandonTaker in Haw.
    destruct (remove_waiter _ _) as [l|] eqn:E; [by injection Haw as <- <- <- <-|].
    exfalso. pose proof (remove_waiter_None _ _ E id Hp) as Hf. by rewrite Nat.eqb_refl in Hf.
  - destruct Hspec as (ch & Hl & Hset & Hall). destruct (Hall choice) as [s' Haw'].
    rewrite (flight_one _ _ ch Hl). rewrite Haw in Haw'. injection Haw' as Hv Hopen _ _.
    assert (receive_value id (st c) = Some (v, ok, interrupted, s)) as Hr.
    { destruct choice; [done|]. cbn in Haw. unfold abandonTaker in Haw.
      destruct (remove_waiter _ _) as [l|] eqn:E; [|done]. exfalso.
      apply remove_waiter_perm in E as (x & Hx & Hpm & _). apply Nat.eqb_eq in Hx as <-.
      apply Hp. rewrite Hpm. set_solver. }
    unfold receive_value in Hr. destruct (on_ready _ _ _) as [[r s1]|] eqn:E; cbn in Hr; [|done].
    injection Hr as _ _ _ <-. apply on_ready_inv in E as (ch1 & ch2 & Hl1 & _ & ->). cbn.
    assert (flight (<[id := ch2]> (ready (st c))) (returned id (open_takes c))
            = flight (ready (st c)) (returned id (open_takes c))) as ->.
    { apply flight_ext. intros x [? _]%list_elem_of_filter. by rewrite lookup_insert_ne. }
    subst v ok. by destruct Hset as [[u ->]| ->].
Qed.

Lemma awaitRoom_ready choice id (s : store) r s' :
  awaitRoom choice id s = Some (r, s') -> ready s' = ready s.
Proof.
  assert (receive_admission id s = Some (r, s') -> ready s' = ready s) as Hrecv.
  { unfold receive_admission. destruct (on_admission _ _ _) as [[o s1]|] eqn:E; cbn; [|done].
    intros [= _ <-]. by apply on_admission_inv in E as (? & ? & _ & _ & ->). }
  destruct choice; cbn; [done|]. unfold abandonOfferer.
  destruct (remove_waiter _ _); [by intros [= _ <-]|done].
Qed.

Lemma close_taker_flight c id rest s :
  config_ok c -> NoDup (open_takes c) -> closing_takers c = id :: rest ->
  close_taker id (st c) = Some s ->
  keeps_flight c silent (MkConfig s rest (closing_offerers c) (open_takes c) (open_offers c)).
Proof.
  intros Hok Hnd Hcl Hs. split; [done|]. cbn. rewrite app_nil_r. unfold in_flight; cbn.
  destruct (ok_takes c Hok) as (_ & Hsub & _).
  assert (id ∈ open_takes c) as Hin by (apply Hsub; rewrite Hcl; set_solver).
  assert (ready (st c) !! id = Some make_chan) as Hmk.
  { eapply waiting_parked; [apply (ok_takes c Hok) | rewrite Hcl; set_solver]. }
  unfold close_taker in Hs. erewrite on_ready_some in Hs by done. cbn in Hs. injection Hs as <-.
  cbn. rewrite flight_insert, (flight_split (ready (st c)) id) by done.
  by erewrite !flight_one by (apply lookup_insert_eq || exact Hmk).
Qed.

Lemma close_offerer_ready id (s s' : store) : close_offerer id s = Some s' -> ready s' = ready s.
Proof.
  unfold close_offerer. destruct (on_admission _ _ _) as [[o s1]|] eqn:E; cbn; [|done].
  intros [= <-]. by apply on_admission_inv in E as (? & ? & _ & _ & ->).
Qed.

Lemma step_flight c l c' :
  config_ok c -> NoDup (open_takes c) -> step c l c' -> keeps_flight c l c'.
Proof.
  intros Hok Hnd Hstep. destruct Hstep as [v o s Ho | o s Ht | limit batch s Ht
    | limit first batch intr s Ht | choice id acc intr s Hin Hr | choice id v ok intr s Hin Hr
    | ts os s Hs | id rest s Hcl Hs | id rest s Hct Hcl Hs].
  - by apply Offer_flight.
  - by apply Take_flight.
  - apply keeps_flight_same; try done; [|apply handed_direct]. cbn. unfold TakeAvailable in Ht.
    destruct (limit <? 1)%Z; [by injection Ht as _ <- | by eapply drainUpTo_ready].
  - apply keeps_flight_same; try done; [|apply handed_direct]. cbn. unfold TakeUpTo_rest in Ht.
    destruct (drainUpTo _ _ _) as [[b s1]|] eqn:E; cbn in Ht; [|done].
    injection Ht as _ _ <-. by eapply drainUpTo_ready.
  - apply keeps_flight_same; try done. by eapply awaitRoom_ready.
  - by eapply awaitValue_flight.
  - apply keeps_flight_same; try done. unfold beginShutdown in Hs.
    destruct (closed _); [done|]. by injection Hs as _ _ <-.
  - by eapply close_taker_flight.
  - apply keeps_flight_same; try done. by eapply close_offerer_ready.
Qed.

Lemma steps_flight c ls c' :
  config_ok c -> NoDup (open_takes c) -> steps c ls c' ->
  NoDup (open_takes c')
  /\ in_flight c ++ concat (map handed ls) ≡ₚ concat (map answered ls) ++ in_flight c'.
Proof.
  intros Hok Hnd Hs. induction Hs as [c|c l c' ls c'' Hst _ IH]; cbn; [by rewrite app_nil_r|].
  destruct (step_flight c l c' Hok Hnd Hst) as [Hnd' Hp].
  destruct (step_ok c l c' Hok Hst) as [Hok' _].
  destruct (IH Hok' Hnd') as [Hnd'' Hp']. split; [done|].
  by rewrite app_assoc, Hp, <- !app_assoc, Hp'.
Qed.

(** Adding one call that has not begun: a system anyone may start from. *)
Definition reachable (c : config) : Prop :=
  (exists n p ls, steps (start (NewQueue n p)) ls c)
  \/ (exists ls, steps (start NewUnboundedQueue) ls c).

Lemma reachable_ok c : reachable c -> config_ok c.
Proof.
  intros [(n & p & ls & Hs) | (ls & Hs)]; eapply steps_ok; try exact Hs; apply start_ok;
    auto using NewQueue_ok, NewUnboundedQueue_ok.
Qed.

Lemma reachable_open c : reachable c -> NoDup (open_takes c).
Proof.
  intros [(n & p & ls & Hs) | (ls & Hs)]; eapply steps_flight; try exact Hs;
    try apply start_ok; auto using NewQueue_ok, NewUnboundedQueue_ok; apply NoDup_nil_2.
Qed.

(** * Properties *)

(** C5. In every interleaving the queue stays within its capacity, never holds
    items while a taker waits, never parks an offer while it has room, and has
    no waiter once shut down; and no lock section ever blocks on a waiter's
    channel or panics: every offer, take, drain and shutdown completes. *)
Theorem queue_invariant (c : config) :
  reachable c ->
  (capacity (queue (st c)) <> 0%Z ->
     (len (items (queue (st c))) <= capacity (queue (st c)))%Z)
  /\ (takers (queue (st c)) <> [] -> items (queue (st c)) = [])
  /\ (offerers (queue (st c)) <> [] -> len (items (queue (st c))) = capacity (queue (st c)))
  /\ (closed (queue (st c)) = true ->
        takers (queue (st c)) = [] /\ offerers (queue (st c)) = [])
  /\ (forall v, is_Some (Offer v (st c)))
  /\ is_Some (Take (st c))
  /\ (forall limit, is_Some (TakeAvailable limit (st c)))
  /\ (forall limit first ok intr, is_Some (TakeUpTo_rest limit first ok intr (st c))).
Proof.
  intros Hr. pose proof (reachable_ok c Hr) as Hok. pose proof (ok_queue c Hok) as Hq.
  split_and!.
  - apply Hq.
  - apply Hq.
  - intros Hne. by apply Hq.
  - apply Hq.
  - intros v. destruct (Offer_spec c v Hok) as (o & s & -> & _). eauto.
  - destruct (Take_spec c Hok) as (o & s & -> & _). eauto.
  - intros limit. unfold TakeAvailable. destruct (limit <? 1)%Z; [eauto|].
    destruct (drainUpTo_spec limit c [] Hok) as (s & -> & _). eauto.
  - intros limit first ok intr. unfold TakeUpTo_rest. destruct intr; [eauto|]. destruct ok; [|cbn; eauto].
    destruct (drainUpTo_spec limit c [first] Hok) as (s & -> & _). eauto.
Qed.

(** C2. Values leave in the order they entered, whatever the interleaving, the
    policy, the cancellations and the shutdown. What has been given to takes and
    drains, followed by the backlog, is a subsequence of what came in, and every
    value that came in was given to one, is waiting, or is accounted for as
    dropped by the policy, given up by its interrupted offer or turned away by
    the shutdown; when nothing was lost the order is exact. And what is given is
    what the calls return: a value not handed to a parked take is in the answer
    of the step's own call, and the values handed to parked takes are, take by
    take, those their calls have come back with, each once, and those still in
    the channel of a take that has yet to return; a batch that had to wait
    starts with the value its take came back with. *)
Theorem queue_fifo (c c' : config) (ls : list label) :
  reachable c -> steps c ls c' ->
  concat (map outs ls) ++ backlog (st c') `sublist_of` backlog (st c) ++ concat (map ins ls)
  /\ backlog (st c) ++ concat (map ins ls)
     ≡ₚ concat (map outs ls) ++ concat (map lost ls) ++ backlog (st c')
  /\ (concat (map lost ls) = [] ->
        backlog (st c) ++ concat (map ins ls) = concat (map outs ls) ++ backlog (st c'))
  /\ in_flight c ++ concat (map handed ls) ≡ₚ concat (map answered ls) ++ in_flight c'
  /\ (forall limit first, exists batch s,
        TakeUpTo_rest limit first true false (st c') = Some ((first :: batch, false), s)).
Proof.
  intros Hr Hs. pose proof (reachable_ok c Hr) as Hok.
  destruct (steps_order c ls c' Hok Hs) as [Hsub Hp].
  split_and!; [done|done| | |].
  - intros Hl. rewrite Hl in Hp; cbn in Hp. symmetry. apply sublist_all; [done|]. by rewrite Hp.
  - eapply steps_flight; [done | by apply reachable_open | done].
  - intros limit first. unfold TakeUpTo_rest.
    destruct (drainUpTo_spec limit c' [first] (steps_ok c ls c' Hok Hs)) as (s & -> & _).
    cbn. eauto.
Qed.

Lemma awaitRoom_spec c id :
  config_ok c -> id ∈ open_offers c ->
  if decide (id ∈ (offerers (queue (st c))).*1) then
    awaitRoom case_message id (st c) = None
    /\ exists s, awaitRoom case_done id (st c) = Some (false, true, s)
                 /\ items (queue s) = items (queue (st c))
  else if decide (id ∈ closing_offerers c) then
    forall choice, awaitRoom choice id (st c) = None
  else exists ch, admission (st c) !! id = Some ch /\ settled ch /\
    forall choice, exists s, awaitRoom choice id (st c)
      = Some (default false (head (buffer ch)), false, s).
Proof.
  intros [Hq Ht Ho Hc] Hin. destruct Ho as (Hnd & Hsub & Hch).
  destruct (Hch id Hin) as (_ & ch & Hl & Hm & Hs).
  assert (id ∈ (offerers (queue (st c))).*1 ++ closing_offerers c ->
          receive_admission id (st c) = None) as Hnone.
  { intros Hp. unfold receive_admission, on_admission. rewrite Hl, (Hm Hp). done. }
  assert (id ∉ (offerers (queue (st c))).*1 ->
          forall choice, awaitRoom choice id (st c) = receive_admission id (st c)) as Hrecv.
  { intros Hn [|]; [done|]. cbn. unfold abandonOfferer.
    destruct (remove_waiter _ _) as [l|] eqn:E; [|done]. exfalso.
    apply remove_waiter_perm in E as (x & Hx & Hp & _). apply Nat.eqb_eq in Hx.
    apply Hn. rewrite Hp, Hx. set_solver. }
  case_decide as Hp; [split|case_decide as Hcl].
  - apply Hnone. set_solver.
  - cbn. unfold abandonOfferer. destruct (remove_waiter _ _) as [l|] eqn:E; [by eexists|].
    exfalso. apply list_elem_of_fmap in Hp as (x & -> & Hp).
    pose proof (remove_waiter_None _ _ E x Hp) as Hf. cbn in Hf. by rewrite Nat.eqb_refl in Hf.
  - intros choice. rewrite Hrecv by done. apply Hnone. set_solver.
  - exists ch. split; [done|]. assert (settled ch) as Hset by (apply Hs; set_solver).
    split; [done|]. intros choice. rewrite Hrecv by done. unfold receive_admission, on_admission.
    rewrite Hl; cbn. destruct Hset as [[v ->]| ->]; cbn; eauto.
Qed.

(** A shutdown's closes always complete. *)
Lemma closes_complete c :
  config_ok c ->
  exists ls c', steps c ls c' /\ config_ok c' /\ closing_takers c' = []
    /\ closing_offerers c' = [] /\ queue (st c') = queue (st c)
    /\ open_takes c' = open_takes c /\ open_offers c' = open_offers c.
Proof.
  remember (closing_takers c) as ts eqn:Hts. revert c Hts.
  induction ts as [|t ts IHt]; intros c Hts Hok.
  - remember (closing_offerers c) as os eqn:Hos. revert c Hts Hos Hok.
    induction os as [|o os IHo]; intros c Hts Hos Hok.
    + exists [], c. split_and!; eauto using steps.
    + destruct (close_offerer_ok c o os Hok (eq_sym Hos)) as (s & Hs & Hok' & Hq).
      rewrite <- Hts in Hok'.
      destruct (IHo (MkConfig s [] os (open_takes c) (open_offers c))) as (ls & c' & Hst & Hr);
        [done|done|done|].
      exists (silent :: ls), c'. split; [|by cbn in Hr; rewrite <- Hq].
      eapply steps_next; [|exact Hst]. by eapply step_close_offerer.
  - destruct (close_taker_ok c t ts Hok (eq_sym Hts)) as (s & Hs & Hok' & Hq).
    destruct (IHt (MkConfig s ts (closing_offerers c) (open_takes c) (open_offers c)))
      as (ls & c' & Hst & Hr); [done|done|].
    exists (silent :: ls), c'. split; [|by cbn in Hr; rewrite <- Hq].
    eapply steps_next; [|exact Hst]. by eapply step_close_taker.
Qed.

(** C32. A cancelled caller never loses a value. A take reports interruption
    only while it is still registered, having been handed nothing; a value
    handed over before the cancellation was noticed is returned instead, and a
    close reads as the end. An offer reports interruption only while its value
    is still its own: once its value is in the queue it reports the admission. *)
Theorem cancellation_loses_nothing (c : config) (id : nat) :
  reachable c ->
  (id ∈ open_takes c -> forall v ok s,
     awaitValue case_done id (st c) = Some (v, ok, true, s) ->
     id ∈ takers (queue (st c)) /\ backlog s = backlog (st c) /\ ok = false)
  /\ (id ∈ open_takes c -> forall choice v s,
     awaitValue choice id (st c) = Some (v, true, false, s) ->
     ready (st c) !! id = Some (MkChan [v] true))
  /\ (id ∈ open_offers c -> forall accepted s,
     awaitRoom case_done id (st c) = Some (accepted, true, s) ->
     id ∈ (offerers (queue (st c))).*1 /\ items (queue s) = items (queue (st c))
     /\ accepted = false).
Proof.
  intros Hr. pose proof (reachable_ok c Hr) as Hok. split_and!; intros Hin.
  - intros v ok s Haw. pose proof (awaitValue_spec c id Hok Hin) as Hspec.
    case_decide; [|case_decide].
    + destruct Hspec as (_ & s' & Haw' & Hb). rewrite Haw in Haw'. by injection Haw' as -> -> ->.
    + by rewrite Hspec in Haw.
    + destruct Hspec as (ch & _ & _ & Hall). destruct (Hall case_done) as [s' Haw'].
      by rewrite Haw in Haw'.
  - intros choice v s Haw. pose proof (awaitValue_spec c id Hok Hin) as Hspec.
    case_decide; [|case_decide].
    + destruct Hspec as (Hn & s' & Haw' & _). destruct choice; congruence.
    + by rewrite Hspec in Haw.
    + destruct Hspec as (ch & Hl & Hset & Hall). destruct (Hall choice) as [s' Haw'].
      rewrite Haw in Haw'. injection Haw' as Hv Hopen _.
      destruct Hset as [[u ->]| ->]; [by cbn in Hv; subst u | done].
  - intros accepted s Haw. pose proof (awaitRoom_spec c id Hok Hin) as Hspec.
    case_decide; [|case_decide].
    + destruct Hspec as (_ & s' & Haw' & Hb). rewrite Haw in Haw'. by injection Haw' as -> ->.
    + by rewrite Hspec in Haw.
    + destruct Hspec as (ch & _ & _ & Hall). destruct (Hall case_done) as [s' Haw'].
      by rewrite Haw in Haw'.
Qed.

(** A batch takes exactly the oldest values, up to the limit and no more,
    those of parked offers included, and leaves the rest; a blocking batch puts
    the value it waited for first. *)
Theorem batches_take_the_oldest (c : config) (limit : Z) (first : A) :
  reachable c -> (1 <= limit)%Z ->
  (exists s, TakeAvailable limit (st c) = Some (take (Z.to_nat limit) (backlog (st c)), s)
     /\ backlog s = drop (Z.to_nat limit) (backlog (st c)))
  /\ (exists s, TakeUpTo_rest limit first true false (st c)
       = Some ((first :: take (Z.to_nat limit - 1) (backlog (st c)), false), s)
     /\ backlog s = drop (Z.to_nat limit - 1) (backlog (st c))).
Proof.
  intros Hr Hlim. pose proof (reachable_ok c Hr) as Hok. split.
  - destruct (drainUpTo_spec limit c [] Hok) as (s & Hd & _ & Hb & _). exists s.
    unfold TakeAvailable. destruct (Z.ltb_spec limit 1); [lia|]. rewrite Hd, Hb.
    by replace (Z.to_nat (limit - len [])) with (Z.to_nat limit) by (unfold len; cbn; lia).
  - destruct (drainUpTo_spec limit c [first] Hok) as (s & Hd & _ & Hb & _). exists s.
    unfold TakeUpTo_rest. rewrite Hd, Hb; cbn.
    by replace (Z.to_nat (limit - len [first])) with (Z.to_nat limit - 1)
      by (unfold len; cbn; lia).
Qed.

(** C39. A shutdown reaches everyone: its closes always complete, and then every
    parked call can return, whichever case its select takes; the items stay for
    consumers to drain, later offers are declined without effect, and a take
    returns the next item or, once drained, reports the end. *)
Theorem shutdown_wakes_everyone (c : config) :
  reachable c -> closed (queue (st c)) = true ->
  (exists ls c', steps c ls c' /\ items (queue (st c')) = items (queue (st c))
     /\ open_takes c' = open_takes c /\ open_offers c' = open_offers c
     /\ (forall id choice, id ∈ open_takes c' -> is_Some (awaitValue choice id (st c')))
     /\ (forall id choice, id ∈ open_offers c' -> is_Some (awaitRoom choice id (st c'))))
  /\ (forall v, Offer v (st c) = Some (Answered false false, st c))
  /\ match items (queue (st c)) with
     | [] => Take (st c) = Some (Taken (zero A) false false, st c)
     | v :: rest => exists s, Take (st c) = Some (Taken v true false, s)
                    /\ items (queue s) = rest
     end.
Proof.
  intros Hr Hcl. pose proof (reachable_ok c Hr) as Hok. split_and!.
  - destruct (closes_complete c Hok) as (ls & c' & Hst & Hok' & Hct & Hco & Hq & Hot & Hoo).
    exists ls, c'. destruct (ok_closed _ (ok_queue c' Hok')) as [Htk Hoff]; [by rewrite Hq|].
    split_and!; [done|by rewrite Hq|done|done| |]; intros id choice Hin.
    + pose proof (awaitValue_spec c' id Hok' Hin) as Hs. rewrite Htk, Hct in Hs.
      rewrite !decide_False in Hs by set_solver. destruct Hs as (ch & _ & _ & Hall).
      destruct (Hall choice) as [s ->]. eauto.
    + pose proof (awaitRoom_spec c' id Hok' Hin) as Hs. rewrite Hoff, Hco in Hs.
      rewrite !decide_False in Hs by set_solver. destruct Hs as (ch & _ & _ & Hall).
      destruct (Hall choice) as [s ->]. eauto.
  - intros v. unfold Offer. by rewrite Hcl.
  - destruct (ok_closed _ (ok_queue c Hok) Hcl) as [_ Hoff].
    unfold Take, dequeue. destruct (items (queue (st c))) as [|v rest]; cbn.
    + by rewrite Hcl.
    + unfold admitOneOfferer; cbn. rewrite Hoff; cbn. eauto.
Qed.

End Facts.
