(* ===== verification/Completion.v ===== *)
(** Write-once results, fibers and the ledger of live work
    ([effect/internal/lifetime/completion.go], [fiber.go], [ledger.go]).

    A blocking observation is [None] while it has to wait. *)

From S2P Require Import Prelude Outcome Queue.

Section Completion.
  Context {V : Type}.

(** * Completions *)

(** [once] has run exactly when [done] is closed: both change in one [Do]. *)
Record Completion : Type := MkCompletion { done : bool; result : Exit V }.

Definition NewCompletion : Completion := MkCompletion false (zero (Exit V)).

Definition Complete (exit : Exit V) (c : Completion) : bool * Completion :=
  if done c then (false, c) else (true, MkCompletion true exit).

(** [recover()] stops a panic only when the function that calls it is the one a
    [defer] statement named; called one level further down it returns nil and the
    panic goes on. *)
Definition recover {P} (deferred : bool) (panicking : option P) : option P :=
  if deferred then panicking else None.

(** [panicking] is the panic under way with the stack, if there is one;
    [deferred] whether this very call was deferred. The panic that goes on, and
    the completion. *)
Definition CompleteOnPanic (deferred : bool) (panicking : option (V * string)) (c : Completion)
    : option (V * string) * Completion :=
  match recover deferred panicking with
  | None => (panicking, c)
  | Some (panicValue, stack) =>
      (None, snd (Complete (ExitFailure (DieCause (CaptureDefect (Some panicValue) stack))) c))
  end.

Definition Poll (c : Completion) : Exit V * bool :=
  if done c then (result c, true) else (zero (Exit V), false).

(** [choice] is the ready case the select takes; [ctx_done] whether the other
    one is ready at all. *)
Definition Await (choice : select_case) (ctx_done : bool) (c : Completion)
    : option (Exit V * bool) :=
  match choice with
  | case_message => if done c then Some (result c, true) else None
  | case_done => if ctx_done then Some (zero (Exit V), false) else None
  end.

Definition Wait (c : Completion) : option (Exit V) := if done c then Some (result c) else None.

(** * Fibers *)

(** [cancel] is the context's cancel function: the first reason it is given. *)
Record Fiber : Type := MkFiber {
  fiber_id : Z;
  fiber_cancelled : option error;
  terminal : Completion
}.

Definition NewFiber (id : Z) : Fiber := MkFiber id None NewCompletion.

Definition fiber_Complete (exit : Exit V) (f : Fiber) : Fiber :=
  MkFiber (fiber_id f) (fiber_cancelled f) (snd (Complete exit (terminal f))).

(** The method a fiber's body defers: it is the deferred call, so the one it makes
    is not. *)
Definition fiber_CompleteOnPanic (panicking : option (V * string)) (f : Fiber)
    : option (V * string) * Fiber :=
  let '(panicking, c) := CompleteOnPanic false panicking (terminal f) in
  (panicking, MkFiber (fiber_id f) (fiber_cancelled f) c).

Definition fiber_Poll (f : Fiber) : Exit V * bool := Poll (terminal f).
Definition fiber_Await (choice : select_case) (ctx_done : bool) (f : Fiber)
    : option (Exit V * bool) := Await choice ctx_done (terminal f).
Definition fiber_Wait (f : Fiber) : option (Exit V) := Wait (terminal f).

Definition cancel_once (reason : error) (cancelled : option error) : option error :=
  match cancelled with None => Some reason | _ => cancelled end.

(** [Interrupt] asks first, then waits: the request, and the wait's result. *)
Definition fiber_Interrupt (reason : error) (f : Fiber) : Fiber * option (Exit V) :=
  let f := MkFiber (fiber_id f) (cancel_once reason (fiber_cancelled f)) (terminal f) in
  (f, fiber_Wait f).

(** * The ledger

    Counters are atomic [int64]s; a nil ledger is [None]. *)
Record Ledger : Type := MkLedger {
  fiberStarts : Z; fiberCompletions : Z; acquisitions : Z; releases : Z
}.

Record LiveWork : Type := MkLiveWork { Fibers : Z; Resources : Z }.

Definition LiveWork_IsEmpty (work : LiveWork) : bool :=
  (Fibers work =? 0)%Z && (Resources work =? 0)%Z.

Definition RecordFiberStart (ledger : option Ledger) : option Ledger :=
  l ← ledger; Some (MkLedger (wrap64 (fiberStarts l + 1)) (fiberCompletions l)
                      (acquisitions l) (releases l)).
Definition RecordFiberCompletion (ledger : option Ledger) : option Ledger :=
  l ← ledger; Some (MkLedger (fiberStarts l) (wrap64 (fiberCompletions l + 1))
                      (acquisitions l) (releases l)).
Definition RecordAcquisition (ledger : option Ledger) : option Ledger :=
  l ← ledger; Some (MkLedger (fiberStarts l) (fiberCompletions l)
                      (wrap64 (acquisitions l + 1)) (releases l)).
Definition RecordRelease (ledger : option Ledger) : option Ledger :=
  l ← ledger; Some (MkLedger (fiberStarts l) (fiberCompletions l)
                      (acquisitions l) (wrap64 (releases l + 1))).

Definition Live (ledger : option Ledger) : LiveWork :=
  match ledger with
  | None => MkLiveWork 0 0
  | Some l => MkLiveWork (wrap64 (fiberStarts l - fiberCompletions l))
                (wrap64 (acquisitions l - releases l))
  end.

(** What is recorded on a ledger. *)
Inductive work_event : Type := FiberStarted | FiberCompleted | Acquired | Released.

Definition record (e : work_event) (ledger : option Ledger) : option Ledger :=
  match e with
  | FiberStarted => RecordFiberStart ledger
  | FiberCompleted => RecordFiberCompletion ledger
  | Acquired => RecordAcquisition ledger
  | Released => RecordRelease ledger
  end.

End Completion.

Arguments Completion : clear implicits.
Arguments Fiber : clear implicits.

Section Facts.
  Context {V : Type}.

Lemma completes_done (exits : list (Exit V)) (c : Completion V) :
  done c = true -> foldl (fun c exit => snd (Complete exit c)) c exits = c.
Proof.
  revert c. induction exits as [|x exits IH]; intros c Hc; cbn; [done|].
  unfold Complete. rewrite Hc; cbn. by apply IH.
Qed.

#[export] Instance work_event_eq_dec : EqDecision work_event.
Proof. solve_decision. Defined.

(** How often an event was recorded. *)
Definition count (e : work_event) (events : list work_event) : Z :=
  Z.of_nat (length (filter (fun e' => e' = e) events)).

Lemma count_cons e e' events :
  count e (e' :: events) = (count e events + if decide (e' = e) then 1 else 0)%Z.
Proof.
  unfold count. case_decide.
  - rewrite filter_cons_True by done. cbn. lia.
  - rewrite filter_cons_False by done. lia.
Qed.

Lemma wrap64_wrap_add a b : wrap64 (wrap64 a + b) = wrap64 (a + b).
Proof.
  unfold wrap64. f_equal.
  replace ((a + 2 ^ 63) mod 2 ^ 64 - 2 ^ 63 + b + 2 ^ 63)%Z
    with ((a + 2 ^ 63) mod 2 ^ 64 + b)%Z by lia.
  rewrite Zplus_mod_idemp_l. f_equal. lia.
Qed.

Lemma wrap64_wrap_sub a b c d :
  wrap64 a = wrap64 c -> wrap64 b = wrap64 d -> wrap64 (a - b) = wrap64 (c - d).
Proof.
  unfold wrap64. intros Ha Hb.
  assert ((a + 2 ^ 63) mod 2 ^ 64 = (c + 2 ^ 63) mod 2 ^ 64)%Z as Ha' by lia.
  assert ((b + 2 ^ 63) mod 2 ^ 64 = (d + 2 ^ 63) mod 2 ^ 64)%Z as Hb' by lia.
  f_equal.
  replace (a - b + 2 ^ 63)%Z with (a + 2 ^ 63 - (b + 2 ^ 63) + 2 ^ 63)%Z by lia.
  replace (c - d + 2 ^ 63)%Z with (c + 2 ^ 63 - (d + 2 ^ 63) + 2 ^ 63)%Z by lia.
  rewrite Zplus_mod, Zminus_mod, Ha', Hb', <- Zminus_mod, <- Zplus_mod. done.
Qed.

(** * Properties *)

(** A completion is written once and read for ever: of any sequence of
    attempts only the first wins and its result is what every poll, wait and
    await that takes the message observes. [CompleteOnPanic], deferred itself,
    changes nothing after a result was recorded, and before it completes with a
    defect, so that no observer waits for ever. *)
Theorem completion_write_once (exit : Exit V) (exits : list (Exit V))
    (panicValue : V) (stack : string) :
  let c := foldl (fun c x => snd (Complete x c)) (NewCompletion (V := V)) (exit :: exits) in
  fst (Complete exit (NewCompletion (V := V))) = true
  /\ (forall x, fst (Complete x c) = false)
  /\ Poll c = (exit, true) /\ Wait c = Some exit
  /\ (forall ctx_done, Await case_message ctx_done c = Some (exit, true))
  /\ CompleteOnPanic true (Some (panicValue, stack)) c = (None, c)
  /\ Wait (snd (CompleteOnPanic true (Some (panicValue, stack)) (NewCompletion (V := V))))
     = Some (ExitFailure (DieCause (CaptureDefect (Some panicValue) stack)))
  /\ Wait (NewCompletion (V := V)) = None.
Proof.
  intros c. assert (c = MkCompletion true exit) as -> by (by apply (completes_done exits (MkCompletion true exit))).
  by split_and!.
Qed.

(** The fiber's own recovery never recovers: [recover] is called by the method it
    defers and not by the deferred method, so a panic of the runtime's fiber body
    goes on, and the fiber is left as it was, uncompleted if it was. *)
Theorem fiber_panic_goes_on (panicking : V * string) (f : Fiber V) :
  fiber_CompleteOnPanic (Some panicking) f = (Some panicking, f)
  /\ (fiber_Wait f = None ->
      fiber_Wait (snd (fiber_CompleteOnPanic (Some panicking) f)) = None).
Proof. by destruct f as [id reason [d x]]. Qed.

(** The ledger reports exactly the work started and not finished, and the
    resources acquired and not released, in the width of its counters; a nil
    ledger records nothing and reports nothing. *)
Theorem ledger_balance (events : list work_event) :
  Live (foldr record (Some (MkLedger 0 0 0 0)) events)
  = MkLiveWork (wrap64 (count FiberStarted events - count FiberCompleted events))
      (wrap64 (count Acquired events - count Released events))
  /\ Live (foldr record None events) = MkLiveWork 0 0.
Proof.
  split.
  - assert (exists l, foldr record (Some (MkLedger 0 0 0 0)) events = Some l
      /\ wrap64 (fiberStarts l) = wrap64 (count FiberStarted events)
      /\ wrap64 (fiberCompletions l) = wrap64 (count FiberCompleted events)
      /\ wrap64 (acquisitions l) = wrap64 (count Acquired events)
      /\ wrap64 (releases l) = wrap64 (count Released events)) as (l & -> & H1 & H2 & H3 & H4).
    { induction events as [|e events (l & Hl & H1 & H2 & H3 & H4)]; [by eexists|].
      cbn [foldr]. rewrite Hl. rewrite !count_cons.
      assert (forall a b, wrap64 a = wrap64 b -> wrap64 (wrap64 (a + 1)) = wrap64 (b + 1)) as Hs.
      { intros a b Hab. rewrite (wrap64_id (wrap64 _)) by apply wrap64_range.
        by rewrite <- (wrap64_wrap_add a), Hab, wrap64_wrap_add. }
      destruct e; cbn; eexists; (split; [done|]); cbn; rewrite ?Z.add_0_r;
        split_and!; auto. }
    cbn. f_equal; by apply wrap64_wrap_sub.
  - assert (foldr record None events = None) as ->; [|done].
    induction events as [|e events IH]; [done|]. cbn. rewrite IH. by destruct e.
Qed.

End Facts.
