(* ===== verification/Scope.v ===== *)
(** Scopes ([effect/internal/lifetime/scope.go]): the lifetime boundary that
    cancels and waits for the work it owns and then releases its resources, the
    last acquired first.

    Every operation that holds the scope's lock is a function of the scope; a
    close, which releases the lock between its phases, is a machine whose turns
    interleave with the other callers'. *)

From S2P Require Import Prelude Outcome OutcomeFacts Interpreter Completion.

(** A registered finalizer is a closure, code over the variables it captures. The
    scope only keeps it and calls it, so it is any type of values that can be
    called this way: the functions of [Finalizer], or the captured variables of
    one piece of code. *)
Definition Finalizer (V World Ctx : Type) : Type := Ctx -> Exit V -> call V World (Cause V).

Class FinalizerOps (F V World Ctx : Type) : Type := call_finalizer : F -> Finalizer V World Ctx.

#[export] Instance function_finalizer {V World Ctx} : FinalizerOps (Finalizer V World Ctx) V World Ctx :=
  fun finalizer => finalizer.

Section Scope.
  Context {V World Ctx F : Type} `{ContextOps World Ctx} `{FinalizerOps F V World Ctx}.

Inductive scopeStatus : Type := scopeOpen | scopeClosing | scopeClosed.

#[export] Instance scopeStatus_eq_dec : EqDecision scopeStatus.
Proof. solve_decision. Defined.

(** [cancelled] is the first reason the scope's context was cancelled with;
    [children] the wait group's counter. *)
Record Scope : Type := MkScope {
  status : scopeStatus;
  closeExit : Exit V;
  cancelled : option error;
  children : nat;
  finalizers : list F
}.

Definition NewScope : Scope := MkScope scopeOpen (zero (Exit V)) None 0 [].

Definition runFinalizer (ctx : Ctx) (finalizer : F) (exit : Exit V) (w : World)
    : Cause V * World :=
  match call_finalizer finalizer ctx exit w with
  | (inl cause, w') => (cause, w')
  | (inr p, w') => (DieCause (CaptureDefect (Some (panic_value p)) (panic_stack p)), w')
  end.

Definition AddFinalizer (ctx : Ctx) (finalizer : F) (s : Scope) (w : World)
    : (bool * Cause V) * Scope * World :=
  if bool_decide (status s = scopeOpen) then
    (true, zeroCause,
     MkScope (status s) (closeExit s) (cancelled s) (children s) (finalizers s ++ [finalizer]),
     w)
  else
    let '(cause, w') := runFinalizer (ctx_WithoutCancel ctx) finalizer (closeExit s) w in
    (false, cause, s, w').

Definition Fork (s : Scope) : bool * Scope :=
  if negb (bool_decide (status s = scopeOpen)) then (false, s)
  else (true, MkScope (status s) (closeExit s) (cancelled s) (S (children s)) (finalizers s)).

(** A child's function returns: the wait group counts it out. *)
Definition childReturned (s : Scope) : Scope :=
  MkScope (status s) (closeExit s) (cancelled s) (pred (children s)) (finalizers s).

Definition Interrupt (reason : error) (s : Scope) : Scope :=
  MkScope (status s) (closeExit s) (cancel_once reason (cancelled s)) (children s)
    (finalizers s).

Definition beginClose (exit : Exit V) (s : Scope) : (list F * bool) * Scope :=
  if negb (bool_decide (status s = scopeOpen)) then ([], false, s)
  else (finalizers s, true, MkScope scopeClosing exit (cancelled s) (children s) []).

Definition finishClose (s : Scope) : Scope :=
  MkScope scopeClosed (closeExit s) (cancelled s) (children s) (finalizers s).

(** ** Close

    Where a call of [Close] stands: about to cancel with the finalizers it took,
    waiting for the children, releasing the finalizers not released yet, or
    returned with its cause. *)
Inductive closing : Type :=
| cancelling (taken : list F)
| waiting (taken : list F)
| releasing (remaining : list F) (cause : Cause V)
| returned_with (cause : Cause V).

Definition startClose (exit : Exit V) (s : Scope) : closing * Scope :=
  match beginClose exit s with
  | (_, false, s) => (returned_with zeroCause, s)
  | (taken, true, s) => (cancelling taken, s)
  end.

(** [finalizers[index]] for the largest index remaining. *)
Definition lastFinalizer (fs : list F) : option (list F * F) :=
  match reverse fs with
  | [] => None
  | f :: rest => Some (reverse rest, f)
  end.

(** One turn of [Close]; [None] while it waits for children. *)
Definition close_turn (ctx : Ctx) (exit : Exit V) (reason : error) (pc : closing)
    (s : Scope) (w : World) : option (closing * Scope * World) :=
  match pc with
  | cancelling taken => Some (waiting taken, Interrupt reason s, w)
  | waiting taken =>
      if (children s =? 0)%nat then Some (releasing taken zeroCause, s, w) else None
  | releasing remaining cause =>
      match lastFinalizer remaining with
      | None => Some (returned_with cause, finishClose s, w)
      | Some (rest, f) =>
          let '(c, w') := runFinalizer (ctx_WithoutCancel ctx) f exit w in
          Some (releasing rest (Then cause c), s, w')
      end
  | returned_with cause => None
  end.

(** [Close] left to itself: all its turns, with a bound on their number. *)
Fixpoint close_run (fuel : nat) (ctx : Ctx) (exit : Exit V) (reason : error) (pc : closing)
    (s : Scope) (w : World) : option (Cause V * Scope * World) :=
  match fuel with
  | O => None
  | Datatypes.S n =>
      match pc with
      | returned_with cause => Some (cause, s, w)
      | _ =>
          '(pc, s, w) ← close_turn ctx exit reason pc s w;
          close_run n ctx exit reason pc s w
      end
  end.

Definition Close (ctx : Ctx) (exit : Exit V) (reason : error) (s : Scope) (w : World)
    : option (Cause V * Scope * World) :=
  let '(pc, s') := startClose exit s in
  close_run (length (finalizers s) + 4) ctx exit reason pc s' w.

(** * The system

    A scope, the call that is closing it if one is, and the world. *)
Record system : Type := MkSystem {
  scope : Scope;
  closer : option closing;
  world : World
}.

(** What a step did with finalizers: accepted one, released one in the close, or
    released one at once, in its caller's context, because the scope was not
    open; or what code that is not the scope's did to the world. *)
Inductive action : Type :=
| accepts (f : F)
| releases (f : F)
| releases_at_once (ctx : Ctx) (f : F)
| elsewhere (change : World -> World)
| nothing.

Definition close_action (pc : closing) : action :=
  match pc with
  | releasing remaining _ =>
      match lastFinalizer remaining with Some (_, f) => releases f | None => nothing end
  | _ => nothing
  end.

(** [ctx], [exit] and [reason] are those of the close that wins. *)
Inductive scope_step (ctx : Ctx) (exit : Exit V) (reason : error)
    : system -> action -> system -> Prop :=
| step_add sys ctx' f accepted cause s w :
    AddFinalizer ctx' f (scope sys) (world sys) = (accepted, cause, s, w) ->
    scope_step ctx exit reason sys
      (if accepted : bool then accepts f else releases_at_once ctx' f)
      (MkSystem s (closer sys) w)
| step_fork sys accepted s :
    Fork (scope sys) = (accepted, s) ->
    scope_step ctx exit reason sys nothing (MkSystem s (closer sys) (world sys))
| step_child sys :
    0 < children (scope sys) ->
    scope_step ctx exit reason sys nothing
      (MkSystem (childReturned (scope sys)) (closer sys) (world sys))
| step_interrupt sys why :
    scope_step ctx exit reason sys nothing
      (MkSystem (Interrupt why (scope sys)) (closer sys) (world sys))
| step_begin sys pc s :
    closer sys = None -> startClose exit (scope sys) = (pc, s) ->
    scope_step ctx exit reason sys nothing (MkSystem s (Some pc) (world sys))
| step_begin_again sys exit' pc s :
    closer sys <> None -> startClose exit' (scope sys) = (pc, s) ->
    scope_step ctx exit reason sys nothing (MkSystem s (closer sys) (world sys))
| step_close sys pc pc' s w :
    closer sys = Some pc ->
    close_turn ctx exit reason pc (scope sys) (world sys) = Some (pc', s, w) ->
    scope_step ctx exit reason sys (close_action pc) (MkSystem s (Some pc') w)
| step_world sys change :
    scope_step ctx exit reason sys (elsewhere change)
      (MkSystem (scope sys) (closer sys) (change (world sys))).

Inductive scope_steps (ctx : Ctx) (exit : Exit V) (reason : error)
    : system -> list action -> system -> Prop :=
| scope_here sys : scope_steps ctx exit reason sys [] sys
| scope_next sys l sys' ls sys'' :
    scope_steps ctx exit reason sys ls sys' -> scope_step ctx exit reason sys' l sys'' ->
    scope_steps ctx exit reason sys (ls ++ [l]) sys''.

Definition opened (w : World) : system := MkSystem NewScope None w.

Definition accepted_of (a : action) : list F :=
  match a with accepts f => [f] | _ => [] end.
Definition released_of (a : action) : list F :=
  match a with releases f => [f] | _ => [] end.

Definition all_accepted (ls : list action) : list F := ls ≫= accepted_of.
Definition all_released (ls : list action) : list F := ls ≫= released_of.

(** What the actions make of the world and the failures they leave, if the
    finalizers of the releases are called, once each and in that order, and
    nothing else of the scope's touches the world. *)
Definition replay (ctx : Ctx) (exit : Exit V) (st : World * list (Cause V)) (a : action)
    : World * list (Cause V) :=
  let '(w, causes) := st in
  match a with
  | accepts _ | nothing => (w, causes)
  | elsewhere change => (change w, causes)
  | releases_at_once ctx' f =>
      (snd (call_finalizer f (ctx_WithoutCancel ctx') exit w), causes)
  | releases f =>
      match call_finalizer f (ctx_WithoutCancel ctx) exit w with
      | (inl cause, w) => (w, causes ++ [cause])
      | (inr p, w) =>
          (w, causes ++ [DieCause (CaptureDefect (Some (panic_value p)) (panic_stack p))])
      end
  end.

Definition replay_all (ctx : Ctx) (exit : Exit V) (w : World) (ls : list action)
    : World * list (Cause V) := foldl (replay ctx exit) (w, []) ls.

End Scope.

Arguments Scope : clear implicits.
Arguments closing : clear implicits.
Arguments system : clear implicits.
Arguments action : clear implicits.

Section Facts.
  Context {V World Ctx F : Type} `{ContextOps World Ctx} `{FinalizerOps F V World Ctx}.
  #[local] Abbreviation Scope := (Scope V F).
  #[local] Abbreviation system := (system V World F).
  #[local] Abbreviation action := (action World Ctx F).

Lemma lastFinalizer_nil : lastFinalizer (F := F) [] = None.
Proof. done. Qed.

Lemma lastFinalizer_snoc (fs : list F) f :
  lastFinalizer (fs ++ [f]) = Some (fs, f).
Proof. unfold lastFinalizer. by rewrite reverse_snoc, reverse_involutive. Qed.

Lemma snoc_case {T} (l : list T) : l = [] \/ exists l' x, l = l' ++ [x].
Proof. induction l using rev_ind; eauto. Qed.

Lemma all_accepted_snoc (ls : list action) a :
  all_accepted (ls ++ [a]) = all_accepted ls ++ accepted_of a.
Proof. unfold all_accepted. rewrite bind_app; cbn. by rewrite app_nil_r. Qed.

Lemma all_released_snoc (ls : list action) a :
  all_released (ls ++ [a]) = all_released ls ++ released_of a.
Proof. unfold all_released. rewrite bind_app; cbn. by rewrite app_nil_r. Qed.

(** Where the accepted finalizers are, at every point of the lifetime. *)
Definition scope_inv (sys : system) (acc rel : list F) : Prop :=
  match closer sys with
  | None => status (scope sys) = scopeOpen /\ finalizers (scope sys) = acc /\ rel = []
  | Some pc =>
      finalizers (scope sys) = []
      /\ match pc with
         | cancelling taken => status (scope sys) = scopeClosing /\ taken = acc /\ rel = []
         | waiting taken =>
             status (scope sys) = scopeClosing /\ taken = acc /\ rel = []
             /\ is_Some (cancelled (scope sys))
         | releasing remaining cause =>
             status (scope sys) = scopeClosing /\ acc = remaining ++ reverse rel
             /\ children (scope sys) = 0 /\ is_Some (cancelled (scope sys))
         | returned_with cause =>
             status (scope sys) = scopeClosed /\ rel = reverse acc
             /\ children (scope sys) = 0 /\ is_Some (cancelled (scope sys))
         end
  end.

Lemma scope_inv_open_closer sys acc rel :
  scope_inv sys acc rel -> status (scope sys) = scopeOpen -> closer sys = None.
Proof.
  unfold scope_inv. destruct (closer sys) as [[]|]; [..|done];
    intros (_ & Hs & _) Ho; rewrite Hs in Ho; discriminate Ho.
Qed.

Lemma scope_inv_closer sys acc rel :
  scope_inv sys acc rel -> closer sys <> None -> status (scope sys) <> scopeOpen.
Proof.
  intros Hi Hc Ho. by apply Hc, (scope_inv_open_closer sys acc rel).
Qed.

Lemma scope_step_inv ctx exit reason sys a sys' acc rel :
  scope_step ctx exit reason sys a sys' -> scope_inv sys acc rel ->
  scope_inv sys' (acc ++ accepted_of a) (rel ++ released_of a).
Proof.
  intros Hst Hi. destruct Hst as [sys ctx' f accepted cause s w Ha | sys accepted s Hf | sys Hc
    | sys why | sys pc s Hn Hb | sys exit' pc s Hn Hb | sys pc pc' s w Hpc Ht | sys change];
    cbn [accepted_of released_of]; rewrite ?app_nil_r; try done.
  - unfold AddFinalizer in Ha. case_bool_decide as Ho.
    + injection Ha as <- <- <- <-. pose proof (scope_inv_open_closer _ _ _ Hi Ho) as Hn.
      unfold scope_inv in *; cbn. rewrite Hn in *. destruct Hi as (? & -> & ->); cbn.
      by rewrite ?app_nil_r.
    + destruct (runFinalizer _ f _ _) as [c w'] in Ha. injection Ha as <- <- <- <-.
      cbn. by rewrite ?app_nil_r.
  - unfold Fork in Hf. case_bool_decide as Ho; cbn in Hf; injection Hf as <- <-; [|done].
    pose proof (scope_inv_open_closer _ _ _ Hi Ho) as Hn.
    unfold scope_inv in *; cbn. by rewrite Hn in *.
  - unfold scope_inv in *; cbn. destruct (closer sys) as [[]|]; naive_solver lia.
  - unfold scope_inv in *; cbn. unfold cancel_once.
    destruct (closer sys) as [[]|]; try done; destruct (cancelled (scope sys)); naive_solver.
  - unfold scope_inv in *; rewrite Hn in Hi; cbn. destruct Hi as (Ho & <- & ->).
    unfold startClose, beginClose in Hb. rewrite Ho in Hb; cbn in Hb.
    by injection Hb as <- <-.
  - pose proof (scope_inv_closer _ _ _ Hi Hn) as Ho. unfold startClose, beginClose in Hb.
    rewrite bool_decide_eq_false_2 in Hb by done; cbn in Hb. by injection Hb as <- <-.
  - unfold scope_inv in *; rewrite Hpc in Hi; cbn. destruct pc as [taken|taken|remaining c|c]; cbn in *.
    + injection Ht as <- <- <-; cbn. destruct Hi as (? & ? & ? & ->).
      rewrite ?app_nil_r. split_and!; try done. unfold cancel_once.
      by destruct (cancelled _).
    + destruct (children (scope sys) =? 0) eqn:Hz; [|done]. injection Ht as <- <- <-.
      apply Nat.eqb_eq in Hz. destruct Hi as (? & ? & -> & -> & ?); cbn.
      by rewrite ?app_nil_r.
    + destruct Hi as (? & ? & -> & ?).
      destruct (snoc_case remaining) as [->|(remaining' & f & ->)].
      * cbn in Ht. injection Ht as <- <- <-. cbn -[reverse]. by rewrite ?app_nil_r, reverse_involutive.
      * rewrite lastFinalizer_snoc in *. destruct (runFinalizer _ f _ _) as [c' w'] in Ht.
        injection Ht as <- <- <-. cbn -[reverse]. by rewrite ?app_nil_r, reverse_snoc, <- app_assoc.
    + done.
Qed.

Lemma scope_steps_inv ctx exit reason w ls sys :
  scope_steps ctx exit reason (opened w) ls sys ->
  scope_inv sys (all_accepted ls) (all_released ls).
Proof.
  remember (opened w) as sys0 eqn:He. induction 1 as [sys|sys l sys' ls sys'' Hs IH Hst].
  - subst sys. done.
  - rewrite all_accepted_snoc, all_released_snoc. eapply scope_step_inv; [exact Hst|auto].
Qed.

(** The world is where the releases have brought it, and the cause a close is
    collecting holds their failures. *)
Definition replay_inv (exit : Exit V) (sys : system) (st : World * list (Cause V)) : Prop :=
  world sys = st.1
  /\ match closer sys with
     | None => st.2 = []
     | Some pc =>
         closeExit (scope sys) = exit
         /\ match pc with
            | releasing _ cause | returned_with cause => leaves cause = concat (map leaves st.2)
            | _ => st.2 = []
            end
     end.

Lemma runFinalizer_replay ctx exit f w (causes : list (Cause V)) c w' :
  runFinalizer (ctx_WithoutCancel ctx) f exit w = (c, w') ->
  replay ctx exit (w, causes) (releases f) = (w', causes ++ [c])
  /\ snd (call_finalizer f (ctx_WithoutCancel ctx) exit w) = w'.
Proof.
  unfold runFinalizer; cbn. destruct (call_finalizer _ _ _ _) as [[cause|p] w1];
    by intros [= <- <-].
Qed.

Lemma scope_step_replay ctx exit reason sys a sys' acc rel st :
  scope_step ctx exit reason sys a sys' -> scope_inv sys acc rel -> replay_inv exit sys st ->
  replay_inv exit sys' (replay ctx exit st a).
Proof.
  intros Hst Hi [Hw Hc]. destruct st as [w0 causes]; cbn in Hw, Hc. subst w0.
  destruct Hst as [sys ctx' f accepted cause s w Ha | sys accepted s Hf | sys Hch
    | sys why | sys pc s Hn Hb | sys exit' pc s Hn Hb | sys pc pc' s w Hpc Ht | sys change].
  - unfold AddFinalizer in Ha. case_bool_decide as Ho.
    + injection Ha as <- <- <- <-. split; [done|]. cbn.
      by rewrite (scope_inv_open_closer _ _ _ Hi Ho) in *.
    + destruct (runFinalizer _ f _ _) as [c w'] eqn:Hr in Ha. injection Ha as <- <- <- <-.
      unfold scope_inv in Hi. unfold replay_inv; cbn. destruct (closer sys) as [pc|]; [|by destruct Hi].
      destruct Hc as [He Hc]. rewrite He in Hr.
      destruct (runFinalizer_replay ctx' exit f (world sys) causes _ _ Hr) as [_ ->]. done.
  - unfold Fork in Hf. destruct (negb _); injection Hf as <- <-; done.
  - done.
  - done.
  - unfold scope_inv in Hi. rewrite Hn in *. destruct Hi as (Ho & _ & _).
    unfold startClose, beginClose in Hb. rewrite Ho in Hb; cbn in Hb. by injection Hb as <- <-.
  - pose proof (scope_inv_closer _ _ _ Hi Hn) as Ho. unfold startClose, beginClose in Hb.
    rewrite bool_decide_eq_false_2 in Hb by done; cbn in Hb. by injection Hb as <- <-.
  - rewrite Hpc in Hc. destruct Hc as [He Hc]. destruct pc as [taken|taken|remaining c|c]; cbn in Ht.
    + by injection Ht as <- <- <-.
    + destruct (_ =? 0); [|done]. by injection Ht as <- <- <-; subst causes.
    + unfold close_action. destruct (lastFinalizer remaining) as [[rest f]|].
      * destruct (runFinalizer _ f _ _) as [c' w'] eqn:Hr in Ht. injection Ht as <- <- <-.
        destruct (runFinalizer_replay ctx exit f (world sys) causes _ _ Hr) as [-> _].
        split; [done|]; cbn. split; [done|].
        by rewrite leaves_Then, Hc, map_app, concat_app; cbn; rewrite app_nil_r.
      * by injection Ht as <- <- <-.
    + done.
  - done.
Qed.

Lemma scope_steps_replay ctx exit reason w ls sys :
  scope_steps ctx exit reason (opened w) ls sys ->
  replay_inv exit sys (replay_all ctx exit w ls).
Proof.
  intros Hs. remember (opened w) as sys0 eqn:He.
  induction Hs as [sys|sys l sys' ls sys'' Hs IH Hst]; [by subst sys|].
  unfold replay_all. rewrite foldl_app; cbn [foldl]. subst sys.
  eapply scope_step_replay; [exact Hst | by eapply scope_steps_inv | by apply IH].
Qed.

(** Running finalizers in a given order: their causes, and the world after. *)
Fixpoint run_all (ctx : Ctx) (fs : list F) (exit : Exit V) (w : World)
    : list (Cause V) * World :=
  match fs with
  | [] => ([], w)
  | f :: rest =>
      let '(c, w) := runFinalizer ctx f exit w in
      let '(cs, w) := run_all ctx rest exit w in (c :: cs, w)
  end.

Lemma leaves_foldl_Then (cs : list (Cause V)) acc :
  leaves (foldl Then acc cs) = leaves acc ++ concat (map leaves cs).
Proof.
  revert acc. induction cs as [|c cs IH]; intros acc; cbn; [by rewrite app_nil_r|].
  by rewrite IH, leaves_Then, app_assoc.
Qed.

Lemma close_run_releasing ctx exit reason fs cause (s : Scope) w n :
  length fs + 2 <= n ->
  close_run n ctx exit reason (releasing fs cause) s w
  = let '(cs, w') := run_all (ctx_WithoutCancel ctx) (reverse fs) exit w in
    Some (foldl Then cause cs, finishClose s, w').
Proof.
  revert cause w n. induction fs as [|f fs IH] using rev_ind; intros cause w n Hn.
  - destruct n as [|[|n]]; [cbn in Hn; lia..|]. done.
  - rewrite length_app in Hn; cbn in Hn. destruct n as [|n]; [lia|].
    cbn [close_run close_turn]. rewrite lastFinalizer_snoc, reverse_snoc. cbn [run_all].
    destruct (runFinalizer _ f _ w) as [c w1]. cbn [mbind option_bind].
    rewrite IH by lia. by destruct (run_all _ _ _ w1) as [cs w2].
Qed.

(** * Properties *)

(** C3. However registration, forking, interruption and any number of closes
    interleave, finalizers are released at most once and in exactly the reverse
    order of their acceptance; when the close has returned every accepted
    finalizer has been released; and a finalizer is released only when the
    scope refuses new work, its context has been cancelled and every child has
    returned. Released means run: the world is at every point what calling
    exactly the finalizers released so far, in that order and in a detached
    context, makes of it, beside what other code does to it, and the cause the
    close returns holds the failures of all those calls, panics included. *)
Theorem scope_releases_once_in_reverse (ctx : Ctx) (exit : Exit V) (reason : error)
    (w : World) (ls : list action) (sys : system) :
  scope_steps ctx exit reason (opened w) ls sys ->
  (exists later, reverse (all_accepted ls) = all_released ls ++ later)
  /\ world sys = (replay_all ctx exit w ls).1
  /\ (forall cause, closer sys = Some (returned_with cause) ->
        all_released ls = reverse (all_accepted ls) /\ status (scope sys) = scopeClosed
        /\ leaves cause = concat (map leaves (replay_all ctx exit w ls).2))
  /\ (forall f sys', scope_step ctx exit reason sys (releases f) sys' ->
        children (scope sys) = 0 /\ is_Some (cancelled (scope sys))
        /\ status (scope sys) = scopeClosing).
Proof.
  intros Hs. pose proof (scope_steps_inv _ _ _ _ _ _ Hs) as Hi.
  destruct (scope_steps_replay _ _ _ _ _ _ Hs) as [Hw Hcs]. split_and!.
  - unfold scope_inv in Hi. destruct (closer sys) as [[taken|taken|remaining c|c]|].
    + destruct Hi as (_ & _ & _ & ->). by eexists.
    + destruct Hi as (_ & _ & _ & -> & _). by eexists.
    + destruct Hi as (_ & _ & -> & _). exists (reverse remaining).
      by rewrite reverse_app, reverse_involutive.
    + destruct Hi as (_ & _ & -> & _). exists []. by rewrite app_nil_r.
    + destruct Hi as (_ & _ & ->). by eexists.
  - exact Hw.
  - intros cause Hc. unfold scope_inv in Hi. rewrite Hc in Hi, Hcs.
    destruct Hi as (_ & ? & ? & _). by destruct Hcs as [_ ?].
  - intros f sys' Hst. remember (releases f) as a eqn:Ha.
    destruct Hst as [? ? ? acc| | | | | |? pc pc' s w' Hpc Ht|]; try done; [by destruct acc|].
    unfold scope_inv in Hi. rewrite Hpc in Hi. destruct pc; cbn in Ha; try done.
    by destruct Hi as (_ & ? & _ & ? & ?).
Qed.

(** A resource acquired too late cannot leak: on a scope that is no longer
    open a finalizer is run at once, exactly once and in a context that is not
    done even if the caller's is, with the exit the scope closed with; its
    failure, a panic included, is returned; and no new child is started. *)
Theorem late_registration_releases (ctx : Ctx) (f : F) (s : Scope) (w : World) :
  status s <> scopeOpen ->
  AddFinalizer ctx f s w
  = (let '(cause, w') := runFinalizer (ctx_WithoutCancel ctx) f (closeExit s) w in
     (false, cause, s, w'))
  /\ ctx_Err (ctx_WithoutCancel ctx) w = None
  /\ (forall p w', call_finalizer f (ctx_WithoutCancel ctx) (closeExit s) w = (inr p, w') ->
        AddFinalizer ctx f s w
        = (false, DieCause (CaptureDefect (Some (panic_value p)) (panic_stack p)), s, w'))
  /\ Fork s = (false, s)
  /\ (forall exit, startClose exit s = (returned_with zeroCause, s)).
Proof.
  intros Ho. unfold AddFinalizer, Fork, startClose, beginClose.
  rewrite bool_decide_eq_false_2 by done. split_and!; try done.
  - apply ctx_WithoutCancel_Err.
  - intros p w' Hf. unfold runFinalizer. by rewrite Hf.
Qed.

(** A close with no child running returns: it runs every finalizer, newest
    first, in the detached context, keeps the failures of all of them in that
    order, and leaves the scope closed; closing again does nothing and reports
    no failure. *)
Theorem Close_complete (ctx : Ctx) (exit : Exit V) (reason : error) (s : Scope) (w : World) :
  status s = scopeOpen -> children s = 0 ->
  exists cause s' cs w',
    run_all (ctx_WithoutCancel ctx) (reverse (finalizers s)) exit w = (cs, w')
    /\ Close ctx exit reason s w = Some (cause, s', w')
    /\ leaves cause = concat (map leaves cs)
    /\ status s' = scopeClosed /\ is_Some (cancelled s')
    /\ Close ctx exit reason s' w' = Some (zeroCause, s', w').
Proof.
  intros Ho Hc.
  destruct (run_all (ctx_WithoutCancel ctx) (reverse (finalizers s)) exit w) as [cs w'] eqn:Hr.
  exists (foldl Then zeroCause cs). do 3 eexists. split; [reflexivity|].
  unfold Close at 1, startClose, beginClose. rewrite Ho.
  rewrite bool_decide_eq_true_2 by done; cbn [negb].
  replace (length (finalizers s) + 4) with (S (S (length (finalizers s) + 2))) by lia.
  cbn [close_run close_turn mbind option_bind]. cbn [children Interrupt]. rewrite Hc.
  cbn [Nat.eqb mbind option_bind].
  rewrite close_run_releasing, Hr by lia. split; [reflexivity|].
  rewrite leaves_foldl_Then. split; [done|]. split; [done|]. split; [|done].
  unfold Interrupt, cancel_once; cbn. destruct (cancelled s); eauto.
Qed.

End Facts.
