(* ===== verification/Hub.v ===== *)
(** The broadcast hub ([effect/internal/lifetime/hub.go]): one inbox per
    subscriber, and a publish that offers a value to each of a snapshot of them
    in subscription order. *)

From stdpp Require Import sorting.
From S2P Require Import Prelude Queue QueueFacts.

Section Hub.
  Context {A : Type} `{Zero A}.

(** An inbox is the index of its queue: a publisher's snapshot may outlive the
    subscription. *)
Record Hub : Type := MkHub {
  inboxes : gmap Z nat;
  nextID : Z;
  hub_capacity : Z;
  hub_policy : FullQueuePolicy;
  hub_closed : bool
}.

Record hub_store : Type := MkHubStore { hub : Hub; queues : list (store A) }.

Definition NewHub (capacity : Z) (policy : FullQueuePolicy) : hub_store :=
  MkHubStore (MkHub ∅ 0 capacity policy false) [].

Definition Subscribe (hs : hub_store) : option (nat * Z) * hub_store :=
  let h := hub hs in
  if hub_closed h then (None, hs)
  else
    let token := wrapu64 (nextID h + 1) in
    let inbox := length (queues hs) in
    (Some (inbox, token),
     MkHubStore
       (MkHub (<[token := inbox]> (inboxes h)) token (hub_capacity h) (hub_policy h)
          (hub_closed h))
       (queues hs ++ [new_store (NewQueue (hub_capacity h) (hub_policy h))])).

(** A method call on one inbox. *)
Definition on_inbox {B} (inbox : nat) (f : store A -> option (B * store A)) (hs : hub_store)
    : option (B * hub_store) :=
  q ← queues hs !! inbox; '(b, q') ← f q;
  Some (b, MkHubStore (hub hs) (<[inbox := q']> (queues hs))).

Definition shutdown_inbox (hs : option hub_store) (inbox : nat) : option hub_store :=
  hs ← hs; '(_, hs) ← on_inbox inbox (fun q => q ← Shutdown q; Some (tt, q)) hs; Some hs.

Definition Unsubscribe (token : Z) (hs : hub_store) : option hub_store :=
  let h := hub hs in
  let removed :=
    MkHubStore (MkHub (delete token (inboxes h)) (nextID h) (hub_capacity h) (hub_policy h)
                  (hub_closed h)) (queues hs) in
  match inboxes h !! token with
  | Some inbox => shutdown_inbox (Some removed) inbox
  | None => Some removed
  end.

(** The tokens in map order, sorted; then the inboxes in that order. *)
Definition currentInboxes (hs : hub_store) : list nat * bool :=
  let h := hub hs in
  if hub_closed h then ([], false)
  else
    let tokens := merge_sort Z.le (map_to_list (inboxes h)).*1 in
    (omap (fun token => inboxes h !! token) tokens, true).

(** Where a publish stands: about to offer to the remaining inboxes, parked on
    one of them, or returned with [(accepted, interrupted)]. *)
Inductive publishing : Type :=
| delivering (remaining : list nat)
| parked_on (inbox waiter : nat) (remaining : list nat)
| published (accepted interrupted : bool).

Definition startPublish (hs : hub_store) : publishing :=
  match currentInboxes hs with
  | (_, false) => published false false
  | (inboxes, true) => delivering inboxes
  end.

(** One turn of [Publish]: an offer under an inbox's lock, or the select of a
    parked one; [None] while it waits. *)
Definition publish_turn (choice : select_case) (value : A) (pc : publishing) (hs : hub_store)
    : option (publishing * hub_store) :=
  match pc with
  | published _ _ => None
  | delivering [] => Some (published true false, hs)
  | delivering (inbox :: rest) =>
      '(o, hs) ← on_inbox inbox (Offer value) hs;
      match o with
      | Answered _ true => Some (published false true, hs)
      | Answered _ false => Some (delivering rest, hs)
      | ParkedOfferer waiter => Some (parked_on inbox waiter rest, hs)
      end
  | parked_on inbox waiter rest =>
      '(r, hs) ← on_inbox inbox
        (fun q => '(accepted, interrupted, q) ← awaitRoom choice waiter q;
                  Some ((accepted, interrupted), q)) hs;
      let '(_, wasInterrupted) := (r : bool * bool) in
      if wasInterrupted : bool then Some (published false true, hs)
      else Some (delivering rest, hs)
  end.

Definition hub_Shutdown (hs : hub_store) : option hub_store :=
  let h := hub hs in
  if hub_closed h then Some hs
  else
    let snapshot := (map_to_list (inboxes h)).*2 in
    foldl shutdown_inbox
      (Some (MkHubStore (MkHub ∅ (nextID h) (hub_capacity h) (hub_policy h) true) (queues hs)))
      snapshot.

Definition Subscribers (hs : hub_store) : nat := size (inboxes (hub hs)).
Definition hub_IsShutdown (hs : hub_store) : bool := hub_closed (hub hs).

(** A publish with nothing else running, with a bound on its turns. *)
Fixpoint publish_run (fuel : nat) (value : A) (pc : publishing) (hs : hub_store)
    : option (bool * bool * hub_store) :=
  match fuel with
  | O => None
  | S n =>
      match pc with
      | published accepted interrupted => Some (accepted, interrupted, hs)
      | _ => '(pc, hs) ← publish_turn case_message value pc hs; publish_run n value pc hs
      end
  end.

End Hub.

Arguments hub_store : clear implicits.

Section Facts.
  Context {A : Type} `{Zero A}.

(** ** Inboxes *)

(** Every subscription is one of the hub's queues, each its own, and later
    tokens are later queues. *)
Record hub_ok (hs : hub_store A) : Prop := {
  hub_ids : forall token inbox, inboxes (hub hs) !! token = Some inbox ->
              (0 < token <= nextID (hub hs))%Z /\ inbox < length (queues hs);
  hub_distinct : forall t1 t2 inbox, inboxes (hub hs) !! t1 = Some inbox ->
              inboxes (hub hs) !! t2 = Some inbox -> t1 = t2;
  hub_monotone : forall t1 t2 i1 i2, inboxes (hub hs) !! t1 = Some i1 ->
              inboxes (hub hs) !! t2 = Some i2 -> (t1 < t2)%Z -> i1 < i2;
  hub_next : (0 <= nextID (hub hs))%Z
}.

Lemma NewHub_ok n p : hub_ok (NewHub n p).
Proof. by constructor. Qed.

Lemma Subscribe_ok (hs hs' : hub_store A) r :
  hub_ok hs -> (nextID (hub hs) < uint64_max)%Z -> Subscribe hs = (r, hs') -> hub_ok hs'.
Proof.
  intros [Hids Hdist Hmono Hnext] Hlt. unfold Subscribe.
  destruct (hub_closed (hub hs)); intros [= <- <-]; [done|].
  assert (wrapu64 (nextID (hub hs) + 1) = nextID (hub hs) + 1)%Z as Hw
    by (apply wrapu64_id; unfold is_uint64, uint64_max in *; lia).
  constructor; cbn; rewrite Hw.
  - intros t i. rewrite lookup_insert_Some, length_app; cbn.
    intros [[<- <-]|[? Hl]]; [lia|]. destruct (Hids t i Hl). lia.
  - intros t1 t2 i. rewrite !lookup_insert_Some.
    intros [[<- <-]|[? H1]] [[<- Hi]|[? H2]]; try done; try (by eapply Hdist).
    + destruct (Hids _ _ H2). lia.
    + subst i. destruct (Hids _ _ H1). lia.
  - intros t1 t2 i1 i2. rewrite !lookup_insert_Some.
    intros [[<- <-]|[? H1]] [[<- <-]|[? H2]] Ht; try lia.
    + destruct (Hids _ _ H2). lia.
    + destruct (Hids _ _ H1). lia.
    + by eapply (Hmono t1 t2).
  - lia.
Qed.

(** ** The snapshot *)

Lemma omap_lookup_sorted (m : gmap Z nat) (tokens : list Z) :
  (forall t1 t2 i1 i2, m !! t1 = Some i1 -> m !! t2 = Some i2 -> (t1 < t2)%Z -> i1 < i2) ->
  NoDup tokens -> StronglySorted Z.le tokens ->
  StronglySorted lt (omap (fun token => m !! token) tokens).
Proof.
  intros Hm Hnd Hs. induction Hs as [|t tokens Hs IH Hall]; [constructor|].
  apply NoDup_cons in Hnd as [Hn Hnd]. cbn. destruct (m !! t) as [i|] eqn:Hi; [|auto].
  constructor; [auto|]. apply Forall_forall. intros j.
  rewrite list_elem_of_omap. intros (u & Hu & Hj).
  rewrite Forall_forall in Hall. specialize (Hall u Hu).
  apply (Hm t u i j); [done|done|]. assert (t <> u) by (by intros ->). lia.
Qed.

Lemma elem_of_currentInboxes (hs : hub_store A) inbox :
  hub_closed (hub hs) = false ->
  inbox ∈ fst (currentInboxes hs)
  <-> exists token, inboxes (hub hs) !! token = Some inbox.
Proof.
  unfold currentInboxes. intros ->. cbn [fst]. rewrite list_elem_of_omap.
  split; [naive_solver|]. intros (token & Hl). exists token. split; [|done].
  rewrite merge_sort_Permutation, list_elem_of_fmap. exists (token, inbox). split; [done|].
  by apply elem_of_map_to_list.
Qed.

Lemma currentInboxes_sorted (hs : hub_store A) :
  hub_ok hs -> StronglySorted lt (fst (currentInboxes hs)).
Proof.
  intros Hok. unfold currentInboxes. destruct (hub_closed (hub hs)); [constructor|]. cbn [fst].
  apply omap_lookup_sorted; [apply Hok | |].
  - rewrite merge_sort_Permutation. apply NoDup_fst_map_to_list.
  - assert (Total Z.le) by (intros x y; lia). apply (StronglySorted_merge_sort Z.le).
Qed.

(** ** Publishing *)

(** What one inbox becomes when the value is offered to it. *)
Definition offered (value : A) (q : store A) : store A :=
  match Offer value q with Some (_, q') => q' | None => q end.

(** An offer to this inbox answers at once. *)
Definition answers (value : A) (q : store A) : Prop :=
  exists accepted q', Offer value q = Some (Answered accepted false, q').

(** An offer is interrupted only by waiting, and waits only under
    backpressure. *)
Lemma Offer_outcome (value : A) (q q' : store A) o :
  Offer value q = Some (o, q') ->
  match o with
  | Answered _ interrupted => interrupted = false
  | ParkedOfferer _ => policy (queue q) = Some backPressure
  end.
Proof.
  destruct q as [[it cap pol tk off cl] rd ad nx]. unfold Offer, handOff, enqueue; cbn.
  destruct cl; [by intros [= <- _]|]. destruct tk as [|taker tk]; cbn.
  - destruct (negb _ && _); cbn; [|by intros [= <- _]].
    destruct pol as [p|]; cbn; [|done].
    destruct p; cbn; [by intros [= <- _] | by intros [= <- _] |].
    destruct it; [done|]; cbn. by intros [= <- _].
  - destruct (on_ready _ _ _) as [[[] ?]|]; cbn; [by intros [= <- _] | done].
Qed.

(** Dropping policies never park the publisher. *)
Lemma dropping_answers (value : A) c :
  config_ok c -> policy (queue (st c)) <> Some backPressure -> answers value (st c).
Proof.
  intros Hok Hp. destruct (Offer_spec c value Hok) as (o & s & Ho & _).
  pose proof (Offer_outcome _ _ _ _ Ho) as Hout. unfold answers.
  destruct o as [a i|waiter]; [|done]. subst i. eauto.
Qed.

Lemma publish_run_delivering value targets (hs : hub_store A) n :
  NoDup targets ->
  (forall i, i ∈ targets -> exists q, queues hs !! i = Some q /\ answers value q) ->
  length targets + 2 <= n ->
  exists hs', publish_run n value (delivering targets) hs = Some (true, false, hs')
  /\ hub hs' = hub hs
  /\ forall i, queues hs' !! i
       = if decide (i ∈ targets) then offered value <$> queues hs !! i else queues hs !! i.
Proof.
  revert hs n. induction targets as [|t targets IH]; intros hs n Hnd Hans Hn; cbn in Hn.
  - destruct n as [|[|n]]; [lia..|]. exists hs. split_and!; [done|done|].
    intros i. by rewrite decide_False by set_solver.
  - destruct n as [|n]; [lia|]. apply NoDup_cons in Hnd as [Hnin Hnd].
    destruct (Hans t ltac:(set_solver)) as (q & Hq & a & q' & Ho).
    cbn [publish_run publish_turn]. unfold on_inbox. rewrite Hq; cbn [mbind option_bind].
    rewrite Ho; cbn [mbind option_bind].
    destruct (IH (MkHubStore (hub hs) (<[t:=q']> (queues hs))) n Hnd) as (hs' & Hrun & Hh & Hqs).
    + intros i Hi. cbn. rewrite list_lookup_insert_ne by congruence. apply Hans. set_solver.
    + lia.
    + exists hs'. split_and!; [done|done|]. intros i. rewrite Hqs; cbn.
      destruct (decide (i = t)) as [->|Hne].
      * rewrite decide_False by done. rewrite decide_True by set_solver.
        rewrite list_lookup_insert_eq by by eapply lookup_lt_Some.
        rewrite Hq; cbn. unfold offered. by rewrite Ho.
      * rewrite list_lookup_insert_ne by congruence.
        destruct (decide (i ∈ targets)); [rewrite decide_True by set_solver; done|].
        by rewrite decide_False by set_solver.
Qed.

(** * Properties *)

(** Publishing under a dropping policy never waits: the value is offered
    exactly once to every current subscriber, in the order they subscribed, and
    to nothing else, and the hub reports that it accepted it. *)
Theorem publish_reaches_every_subscriber (hs : hub_store A) (value : A) :
  hub_ok hs -> hub_closed (hub hs) = false ->
  (forall inbox q, queues hs !! inbox = Some q ->
     exists c, reachable c /\ st c = q /\ policy (queue q) <> Some backPressure) ->
  exists targets hs' n,
    startPublish hs = delivering targets
    /\ StronglySorted lt targets
    /\ (forall inbox, inbox ∈ targets
          <-> exists token, inboxes (hub hs) !! token = Some inbox)
    /\ (forall m, n <= m -> publish_run m value (startPublish hs) hs = Some (true, false, hs'))
    /\ hub hs' = hub hs
    /\ forall i, queues hs' !! i
         = if decide (i ∈ targets) then offered value <$> queues hs !! i else queues hs !! i.
Proof.
  intros Hok Hopen Hq. pose proof (currentInboxes_sorted hs Hok) as Hsort.
  pose proof (fun inbox => elem_of_currentInboxes hs inbox Hopen) as Helem.
  assert (startPublish hs = delivering (fst (currentInboxes hs))) as Hstart.
  { unfold startPublish, currentInboxes. by rewrite Hopen. }
  revert Hstart Hsort Helem. generalize (fst (currentInboxes hs)). intros targets Hstart Hsort Helem.
  assert (NoDup targets) as Hnd.
  { clear -Hsort. induction Hsort as [|x l Hs IH Hall]; [constructor|]. constructor; [|done].
    intros Hin. rewrite Forall_forall in Hall. specialize (Hall x Hin). lia. }
  assert (forall i, i ∈ targets -> exists q, queues hs !! i = Some q /\ answers value q) as Hans.
  { intros i Hi. apply Helem in Hi as [token Hl]. destruct (hub_ids hs Hok _ _ Hl) as [_ Hlt].
    apply lookup_lt_is_Some in Hlt as [q Hlq]. exists q. split; [done|].
    destruct (Hq i q Hlq) as (c & Hr & <- & Hp). apply dropping_answers; [|done].
    by apply reachable_ok. }
  destruct (publish_run_delivering value targets hs (length targets + 2) Hnd Hans) as
    (hs' & Hrun & Hh & Hqs); [done|].
  exists targets, hs', (length targets + 2). rewrite Hstart. split_and!; try done.
  intros m Hm. destruct (publish_run_delivering value targets hs m Hnd Hans Hm) as
    (hs2 & Hrun2 & Hh2 & Hqs2). rewrite Hrun2. do 2 f_equal.
  destruct hs' as [h1 q1], hs2 as [h2 q2]; cbn in *. subst h1 h2. f_equal.
  apply list_eq. intros i. by rewrite Hqs, Hqs2.
Qed.

End Facts.
