(* ===== verification/Time.v ===== *)
(** Instants and durations.

    A [time.Duration] is an [int64] of nanoseconds. A [time.Time] is an instant
    of unbounded range in nanoseconds (Go's own range, some 292 billion years of
    seconds, is not reached); the zero time is instant 0. *)

From S2P Require Import Prelude.

Definition Duration : Type := Z.
Definition Time : Type := Z.
Definition zero_time : Time := 0%Z.

Definition time_Add (t : Time) (d : Duration) : Time := (t + d)%Z.
Definition time_After (t u : Time) : bool := (u <? t)%Z.
Definition time_Before (t u : Time) : bool := (t <? u)%Z.

(** [t.Sub(u)] saturates at the ends of [int64]. *)
Definition time_Sub (t u : Time) : Duration := Z.max int64_min (Z.min int64_max (t - u)).

Lemma time_Sub_exact t u : is_int64 (t - u) -> time_Sub t u = (t - u)%Z.
Proof. unfold is_int64, time_Sub. lia. Qed.

Definition duration_add (a b : Duration) : Duration := wrap64 (a + b).
Definition duration_sub (a b : Duration) : Duration := wrap64 (a - b).
Definition duration_mul (a b : Duration) : Duration := wrap64 (a * b).
(** Go's integer division truncates toward zero. *)
Definition duration_quot (a b : Duration) : Duration := wrap64 (Z.quot a b).
