(* ===== verification/Cache.v ===== *)
(** The in-process cache ([effect/cache/cache.go], [lru.go], [memory.go]): a
    bounded, dated, least-recently-used set of entries with an index of what
    each is about. *)

From S2P Require Import Prelude Time.

Section LRU.
  Context {A : Type} `{Zero A}.

Record lruEntry : Type := MkEntry {
  key : string;
  about : string;
  value : A;
  until : Time
}.

(** A [*list.Element] is its address and its immutable value. *)
Record Element : Type := MkElement { element_id : nat; Value : lruEntry }.

(** [order] is the list, its front first; [next_element] the allocator's next
    address. *)
Record LRU : Type := MkLRU {
  most : Z;
  elements : gmap string Element;
  order : list Element;
  abouts : gmap string (gset string);
  next_element : nat
}.

Definition NewLRU (most : Z) : LRU :=
  MkLRU (if (most <? 1)%Z then 1%Z else most) ∅ [] ∅ 0.

(** [order.Remove(element)] *)
Definition order_Remove (element : Element) (order : list Element) : list Element :=
  filter (fun e => element_id e <> element_id element) order.

(** [order.MoveToFront(element)], of an element of the list. *)
Definition MoveToFront (element : Element) (order : list Element) : list Element :=
  element :: order_Remove element order.

Definition drop_about (entry : lruEntry) (abouts : gmap string (gset string))
    : gmap string (gset string) :=
  match abouts !! about entry with
  | None => abouts
  | Some keys =>
      let keys := keys ∖ {[ key entry ]} in
      if bool_decide (keys = ∅) then delete (about entry) abouts
      else <[about entry := keys]> abouts
  end.

Definition drop_element (element : Element) (cache : LRU) : LRU :=
  let entry := Value element in
  MkLRU (most cache) (delete (key entry) (elements cache))
    (order_Remove element (order cache)) (drop_about entry (abouts cache))
    (next_element cache).

Definition Get (now : Time) (k : string) (cache : LRU) : (A * bool) * LRU :=
  match elements cache !! k with
  | None => (zero A, false, cache)
  | Some element =>
      let entry := Value element in
      if time_After now (until entry) then (zero A, false, drop_element element cache)
      else
        (value entry, true,
         MkLRU (most cache) (elements cache) (MoveToFront element (order cache))
           (abouts cache) (next_element cache))
  end.

(** The eviction loop of [Put]: every turn shortens the list. *)
Fixpoint evict (fuel : nat) (cache : LRU) : LRU :=
  match fuel with
  | O => cache
  | S n =>
      if (most cache <? Z.of_nat (length (order cache)))%Z then
        match last (order cache) with
        | Some element => evict n (drop_element element cache)
        | None => cache
        end
      else cache
  end.

Definition note_about (k a : string) (abouts : gmap string (gset string))
    : gmap string (gset string) :=
  if bool_decide (a <> EmptyString)
  then <[a := default ∅ (abouts !! a) ∪ {[ k ]}]> abouts else abouts.

Definition Put (now : Time) (k a : string) (v : A) (fresh : Duration) (cache : LRU) : LRU :=
  if bool_decide (k = EmptyString) || (fresh <=? 0)%Z then cache
  else
    let cache :=
      match elements cache !! k with
      | Some element => drop_element element cache
      | None => cache
      end in
    let element := MkElement (next_element cache) (MkEntry k a v (time_Add now fresh)) in
    let cache :=
      MkLRU (most cache) (<[k := element]> (elements cache)) (element :: order cache)
        (note_about k a (abouts cache)) (S (next_element cache)) in
    evict (length (order cache)) cache.

(** One key of [Invalidate]'s loop over the subject's keys. *)
Definition invalidate_key (cache : LRU) (k : string) : LRU :=
  match elements cache !! k with
  | Some element => drop_element element cache
  | None => cache
  end.

Definition Invalidate (subject : string) (cache : LRU) : LRU :=
  let keys := default ∅ (abouts cache !! subject) in
  let cache := foldl invalidate_key cache (base.elements keys) in
  MkLRU (most cache) (elements cache) (order cache) (delete subject (abouts cache))
    (next_element cache).

Definition Len (cache : LRU) : Z := Z.of_nat (length (order cache)).

(** * The store over it ([memory.go]) *)

Record Entry : Type := MkStored { Key : string; About : string; Entity : A; Fresh : Duration }.

Definition IsStorable (entry : Entry) : bool :=
  bool_decide (Key entry <> EmptyString) && (0 <? Fresh entry)%Z.

Record Lookup : Type := MkLookup { lookup_Entity : A; Found : bool }.

Record Fault : Type := MkFault { Op : string; fault_Key : string; fault_Err : option error }.

Definition Fault_Error (fault : Fault) : string :=
  let message := ("cache: " ++ Op fault)%string in
  let message := if bool_decide (fault_Key fault <> EmptyString)
                 then (message ++ " " ++ fault_Key fault)%string else message in
  match fault_Err fault with
  | Some err => (message ++ ": " ++ error_text err)%string
  | None => message
  end.

Definition ErrUnworthy : error := MkError 201 "a entry has a key and a lifetime" [].

Definition store_Get (now : Time) (k : string) (store : LRU) : Lookup * option Fault * LRU :=
  let '((entity, found), store) := Get now k store in (MkLookup entity found, None, store).

Definition store_Put (now : Time) (entry : Entry) (store : LRU) : option Fault * LRU :=
  if negb (IsStorable entry) then (Some (MkFault "write" (Key entry) (Some ErrUnworthy)), store)
  else (None, Put now (Key entry) (About entry) (Entity entry) (Fresh entry) store).

Definition store_Invalidate (subject : string) (store : LRU) : option Fault * LRU :=
  (None, Invalidate subject store).

(** * The specification

    What the cache promises: a list of entries, the most recently used first. *)

Definition spec_get (now : Time) (k : string) (l : list lruEntry) : (A * bool) * list lruEntry :=
  match list_find (fun e => key e = k) l with
  | None => (zero A, false, l)
  | Some (_, e) =>
      let others := filter (fun e' => key e' <> k) l in
      if time_After now (until e) then (zero A, false, others)
      else (value e, true, e :: others)
  end.

Definition spec_put (bound : Z) (now : Time) (k a : string) (v : A) (fresh : Duration)
    (l : list lruEntry) : list lruEntry :=
  if bool_decide (k = EmptyString) || (fresh <=? 0)%Z then l
  else take (Z.to_nat bound)
         (MkEntry k a v (time_Add now fresh) :: filter (fun e => key e <> k) l).

Definition spec_invalidate (subject : string) (l : list lruEntry) : list lruEntry :=
  filter (fun e => about e <> subject \/ subject = EmptyString) l.

End LRU.

Arguments lruEntry : clear implicits.
Arguments Element : clear implicits.
Arguments LRU : clear implicits.
Arguments Entry : clear implicits.
Arguments Lookup : clear implicits.
