(* ===== verification/CacheFacts.v ===== *)
(** The cache keeps its three structures consistent and its bound, and behaves
    as the list of entries its specification describes. *)

From S2P Require Import Prelude Time Cache.

Section Facts.
  Context {A : Type} `{Zero A}.
  #[local] Abbreviation LRU := (LRU A).
  #[local] Abbreviation Element := (Element A).
  #[local] Abbreviation lruEntry := (lruEntry A).

(** What the cache holds, the most recently used first. *)
Definition contents (c : LRU) : list lruEntry := Value <$> order c.

Definition element_key (e : Element) : string := key (Value e).
Definition element_about (e : Element) : string := about (Value e).

(** Everything but the bound. *)
Record lru_core (c : LRU) : Prop := {
  ok_most : (1 <= most c)%Z;
  ok_ids : NoDup (element_id <$> order c);
  ok_next : forall e, e ∈ order c -> element_id e < next_element c;
  ok_keys : NoDup (element_key <$> order c);
  ok_named : forall e, e ∈ order c -> element_key e <> EmptyString;
  ok_elements : forall k e, elements c !! k = Some e <-> e ∈ order c /\ element_key e = k;
  ok_listed : forall a ks, abouts c !! a = Some ks -> ks <> ∅;
  ok_about : forall a k, k ∈ default ∅ (abouts c !! a)
               <-> a <> EmptyString
                   /\ exists e, e ∈ order c /\ element_key e = k /\ element_about e = a
}.

Definition lru_ok (c : LRU) : Prop :=
  lru_core c /\ (Z.of_nat (length (order c)) <= most c)%Z.

Lemma NewLRU_ok n : lru_ok (NewLRU (A := A) n).
Proof.
  unfold NewLRU. destruct (Z.ltb_spec n 1); (split; [constructor|]); cbn; try lia;
    try apply NoDup_nil_2; intros; rewrite ?lookup_empty; set_solver.
Qed.

(** ** Lists with distinct keys *)

Lemma NoDup_fmap_inj {X Y} (f : X -> Y) (l : list X) x y :
  NoDup (f <$> l) -> x ∈ l -> y ∈ l -> f x = f y -> x = y.
Proof.
  intros Hnd Hx Hy Hf. apply list_elem_of_lookup in Hx as [i Hi], Hy as [j Hj].
  assert (i = j) as ->; [|congruence].
  eapply (NoDup_lookup (f <$> l)); [done| |]; rewrite list_lookup_fmap; [by rewrite Hi|].
  by rewrite Hj, Hf.
Qed.

Lemma NoDup_fmap_filter {X Y} (f : X -> Y) (P : X -> Prop) `{forall x, Decision (P x)}
    (l : list X) : NoDup (f <$> l) -> NoDup (f <$> filter P l).
Proof.
  intros Hnd. apply (sublist_NoDup _ (f <$> l)); [done|]. apply fmap_sublist, sublist_filter.
Qed.

Lemma filter_ext_in {X} (P Q : X -> Prop) `{forall x, Decision (P x)}
    `{forall x, Decision (Q x)} (l : list X) :
  (forall x, x ∈ l -> P x <-> Q x) -> filter P l = filter Q l.
Proof.
  induction l as [|x l IH]; intros Hpq; [done|]. rewrite !filter_cons.
  destruct (Hpq x ltac:(set_solver)) as [? ?].
  repeat case_decide; try tauto; [f_equal|]; apply IH; intros; apply Hpq; set_solver.
Qed.

Lemma fmap_filter {X Y} (f : X -> Y) (P : Y -> Prop) `{forall y, Decision (P y)} (l : list X) :
  filter P (f <$> l) = f <$> filter (fun x => P (f x)) l.
Proof.
  induction l as [|x l IH]; [done|]. cbn [fmap list_fmap]. rewrite !filter_cons.
  case_decide; cbn; by rewrite IH.
Qed.

Lemma list_find_NoDup {X} (f : X -> string) (l : list X) x :
  NoDup (f <$> l) -> x ∈ l -> exists i, list_find (fun y => f y = f x) l = Some (i, x).
Proof.
  intros Hnd Hx.
  destruct (list_find_elem_of (fun y => f y = f x) l x Hx eq_refl) as [[i y] Hf].
  exists i. rewrite Hf. do 2 f_equal.
  apply list_find_Some in Hf as (Hl & Hy & _).
  apply (NoDup_fmap_inj f l); [done| by eapply list_elem_of_lookup_2 | done | done].
Qed.

Lemma filter_last {X} (f : X -> string) (l : list X) x :
  NoDup (f <$> l) -> last l = Some x ->
  filter (fun y => f y <> f x) l = take (length l - 1) l.
Proof.
  intros Hnd Hl. apply last_Some in Hl as [l' ->]. rewrite fmap_app in Hnd; cbn in Hnd.
  apply NoDup_app in Hnd as (_ & Hnin & _). rewrite filter_app, filter_cons_False by tauto.
  rewrite filter_nil, app_nil_r, length_app; cbn. rewrite Nat.add_sub, take_app_length.
  induction l' as [|y l' IH]; [done|]. cbn in Hnin. rewrite filter_cons_True.
  - f_equal. apply IH. set_solver.
  - intros Heq. apply (Hnin (f y)); set_solver.
Qed.

Lemma filter_all {X} (P : X -> Prop) `{forall x, Decision (P x)} (l : list X) :
  (forall x, x ∈ l -> P x) -> filter P l = l.
Proof.
  induction l as [|x l IH]; intros Hp; [done|]. rewrite filter_cons_True by set_solver.
  f_equal. apply IH. set_solver.
Qed.

Lemma Permutation_move_front {X} (f : X -> string) (l : list X) x :
  NoDup (f <$> l) -> x ∈ l -> x :: filter (fun y => f y <> f x) l ≡ₚ l.
Proof.
  intros Hnd Hx. apply list_elem_of_split in Hx as (l1 & l2 & ->).
  rewrite fmap_app in Hnd; cbn in Hnd. apply NoDup_app in Hnd as (_ & Hn1 & [Hn2 _]%NoDup_cons).
  rewrite filter_app, filter_cons_False by tauto. rewrite !filter_all.
  - apply Permutation_middle.
  - intros y Hy Heq. apply Hn2. rewrite <- Heq. by apply list_elem_of_fmap_2.
  - intros y Hy Heq. apply (Hn1 (f y)); [by apply list_elem_of_fmap_2|]. rewrite Heq. set_solver.
Qed.

(** ** Dropping one entry *)

Lemma order_Remove_key (c : LRU) e :
  lru_core c -> e ∈ order c ->
  order_Remove e (order c) = filter (fun e' => element_key e' <> element_key e) (order c).
Proof.
  intros Hc He. apply filter_ext_in. intros x Hx. split; intros Hne Heq; apply Hne.
  - by rewrite (NoDup_fmap_inj element_key (order c) x e (ok_keys c Hc) Hx He Heq).
  - by rewrite (NoDup_fmap_inj element_id (order c) x e (ok_ids c Hc) Hx He Heq).
Qed.

Lemma drop_about_spec (e : lruEntry) (m : gmap string (gset string)) a k :
  (forall a ks, m !! a = Some ks -> ks <> ∅) ->
  k ∈ default ∅ (drop_about e m !! a)
  <-> k ∈ default ∅ (m !! a) /\ ~ (a = about e /\ k = key e).
Proof.
  intros Hne. unfold drop_about. destruct (m !! about e) as [ks|] eqn:Hl.
  - case_bool_decide as Hempty.
    + destruct (decide (a = about e)) as [->|Hn].
      * rewrite lookup_delete_eq, Hl; cbn. set_solver.
      * rewrite lookup_delete_ne by done. naive_solver.
    + destruct (decide (a = about e)) as [->|Hn].
      * rewrite lookup_insert_eq, Hl; cbn. set_solver.
      * rewrite lookup_insert_ne by done. naive_solver.
  - split; [|naive_solver]. intros Hk. split; [done|]. intros [-> _].
    rewrite Hl in Hk; cbn in Hk. set_solver.
Qed.

Lemma drop_about_listed (e : lruEntry) (m : gmap string (gset string)) a ks :
  (forall a ks, m !! a = Some ks -> ks <> ∅) -> drop_about e m !! a = Some ks -> ks <> ∅.
Proof.
  intros Hne. unfold drop_about. destruct (m !! about e) as [ks'|]; [|apply Hne].
  case_bool_decide as Hempty.
  - rewrite lookup_delete_Some. intros [_ Hl]. by eapply Hne.
  - rewrite lookup_insert_Some. intros [[_ <-]|[_ Hl]]; [done|by eapply Hne].
Qed.

Lemma drop_element_ok (c : LRU) e :
  lru_core c -> e ∈ order c ->
  lru_core (drop_element e c)
  /\ contents (drop_element e c) = filter (fun x => key x <> element_key e) (contents c).
Proof.
  intros Hc He. unfold drop_element. rewrite (order_Remove_key c e Hc He). split.
  - destruct Hc as [Hm Hids Hnext Hkeys Hnamed Hel Hlist Hab]. constructor; cbn.
    + done.
    + by apply NoDup_fmap_filter.
    + intros x [_ Hx]%list_elem_of_filter. by apply Hnext.
    + by apply NoDup_fmap_filter.
    + intros x [_ Hx]%list_elem_of_filter. by apply Hnamed.
    + intros k x. rewrite lookup_delete_Some, Hel, list_elem_of_filter.
      unfold element_key in *. naive_solver.
    + intros a ks. by apply drop_about_listed.
    + intros a k. rewrite drop_about_spec, Hab by done. unfold element_key, element_about in *.
      split.
      * intros [(Ha & x & Hx & Hk & Hxa) Hn]. split; [done|]. exists x.
        rewrite list_elem_of_filter. split_and!; try done. intros Heq. apply Hn.
        rewrite (NoDup_fmap_inj (fun e => key (Value e)) (order c) x e) in Hk, Hxa; done.
      * intros (Ha & x & Hx & Hk & Hxa). rewrite list_elem_of_filter in Hx.
        destruct Hx as [Hne Hx]. split; [eauto|]. naive_solver.
  - unfold contents; cbn. by rewrite fmap_filter.
Qed.

Lemma lookup_element (c : LRU) k :
  lru_core c ->
  match elements c !! k with
  | Some e => e ∈ order c /\ element_key e = k
              /\ exists i, list_find (fun x => key x = k) (contents c) = Some (i, Value e)
  | None => list_find (fun x => key x = k) (contents c) = None
            /\ filter (fun x => key x <> k) (contents c) = contents c
  end.
Proof.
  intros Hc. destruct (elements c !! k) as [e|] eqn:Hl.
  - apply Hc in Hl as [He Hk]. split_and!; [done|done|]. subst k.
    apply (list_find_NoDup key (contents c) (Value e)).
    + unfold contents. rewrite <- list_fmap_compose. apply Hc.
    + unfold contents. by apply list_elem_of_fmap_2.
  - assert (forall x, x ∈ contents c -> key x <> k) as Hn.
    { intros x Hx Hk. apply list_elem_of_fmap in Hx as (e & -> & He).
      assert (elements c !! k = Some e) by (by apply Hc). congruence. }
    split.
    + apply list_find_None, Forall_forall. exact Hn.
    + by apply filter_all.
Qed.

(** ** Each operation against its specification *)

Lemma evict_ok (c : LRU) n :
  lru_core c -> length (order c) <= n ->
  lru_ok (evict n c) /\ contents (evict n c) = take (Z.to_nat (most c)) (contents c).
Proof.
  revert c. induction n as [|n IH]; intros c Hc Hn; cbn [evict].
  - pose proof (ok_most c Hc). destruct (order c) eqn:Ho; [|cbn in Hn; lia].
    split; [split; [done|rewrite Ho; cbn; lia]|]. unfold contents. rewrite Ho; cbn.
    by rewrite take_nil.
  - destruct (Z.ltb_spec (most c) (Z.of_nat (length (order c)))) as [Hlt|Hle].
    + destruct (last (order c)) as [e|] eqn:Hlast.
      * assert (e ∈ order c) as He.
        { apply last_Some in Hlast as [l' ->]. set_solver. }
        destruct (drop_element_ok c e Hc He) as [Hc' Hcont].
        assert (filter (fun x => key x <> element_key e) (contents c)
                = take (length (contents c) - 1) (contents c)) as Hfilt.
        { apply (filter_last key (contents c) (Value e)).
          - unfold contents. rewrite <- list_fmap_compose. apply Hc.
          - unfold contents. by rewrite fmap_last, Hlast. }
        rewrite Hfilt in Hcont. clear Hfilt.
        assert (length (order (drop_element e c)) = length (order c) - 1) as Hlen.
        { rewrite <- (length_fmap Value), <- (length_fmap Value (order c)).
          fold (contents (drop_element e c)) (contents c). rewrite Hcont, length_take. lia. }
        destruct (IH (drop_element e c) Hc' ltac:(lia)) as [Hok Heq]. split; [done|].
        rewrite Heq, Hcont, take_take. f_equal. cbn.
        assert (length (contents c) = length (order c)) by (unfold contents; by rewrite length_fmap).
        lia.
      * apply last_None in Hlast. rewrite Hlast in Hlt. cbn in Hlt.
        pose proof (ok_most c Hc). lia.
    + split; [by split|]. symmetry. apply take_ge. unfold contents. rewrite length_fmap. lia.
Qed.

Lemma MoveToFront_ok (c : LRU) e :
  lru_core c -> e ∈ order c ->
  let c' := MkLRU (most c) (elements c) (MoveToFront e (order c)) (abouts c)
              (next_element c) in
  lru_core c' /\ length (order c') = length (order c)
  /\ contents c' = Value e :: filter (fun x => key x <> element_key e) (contents c).
Proof.
  intros Hc He c'.
  assert (order c' ≡ₚ order c) as Hp.
  { cbn. unfold MoveToFront. rewrite (order_Remove_key c e Hc He).
    apply (Permutation_move_front element_key); [apply Hc | done]. }
  split_and!.
  - destruct Hc as [Hm Hids Hnext Hkeys Hnamed Hel Hlist Hab].
    constructor; try done; intros *; rewrite ?Hp; auto.
    change (abouts c') with (abouts c). setoid_rewrite Hp. apply Hab.
  - by rewrite Hp.
  - unfold contents; cbn. rewrite (order_Remove_key c e Hc He). by rewrite fmap_filter.
Qed.

Lemma Get_ok (c : LRU) now k :
  lru_ok c ->
  let '(r, c') := Get now k c in
  lru_ok c' /\ most c' = most c /\ (r, contents c') = spec_get now k (contents c).
Proof.
  intros [Hc Hb]. unfold Get, spec_get. pose proof (lookup_element c k Hc) as Hl.
  destruct (elements c !! k) as [e|].
  - destruct Hl as (He & <- & [i ->]). destruct (time_After now (until (Value e))).
    + destruct (drop_element_ok c e Hc He) as [Hc' Hcont]. rewrite Hcont. split_and!; try done.
      split; [done|]. cbn. unfold order_Remove.
      pose proof (length_filter (fun e0 => element_id e0 <> element_id e) (order c)). lia.
    + destruct (MoveToFront_ok c e Hc He) as (Hc' & Hlen & Hcont). rewrite Hcont.
      split_and!; try done. split; [done|]. rewrite Hlen. done.
  - destruct Hl as [-> _]. by split_and!.
Qed.

Lemma Put_front_ok (c : LRU) k a v t :
  lru_core c -> k <> EmptyString -> (forall e, e ∈ order c -> element_key e <> k) ->
  let e := MkElement (next_element c) (MkEntry k a v t) in
  lru_core (MkLRU (most c) (<[k := e]> (elements c)) (e :: order c)
              (note_about k a (abouts c)) (S (next_element c))).
Proof.
  intros Hc Hk Hfresh e. destruct Hc as [Hm Hids Hnext Hkeys Hnamed Hel Hlist Hab].
  constructor; cbn.
  - done.
  - constructor; [|done]. intros Hin. apply list_elem_of_fmap in Hin as (x & Hx & Hxo).
    specialize (Hnext x Hxo). cbn in Hx. lia.
  - intros x [->|Hx]%elem_of_cons; [cbn; lia|]. specialize (Hnext x Hx). lia.
  - constructor; [|done]. intros Hin. apply list_elem_of_fmap in Hin as (x & Hx & Hxo).
    by apply (Hfresh x Hxo).
  - intros x [->|Hx]%elem_of_cons; [done|by apply Hnamed].
  - intros j x. rewrite lookup_insert_Some, elem_of_cons, Hel. split.
    + intros [[<- <-]|[Hn [? ?]]]; [by split; [left|]|by split; [right|]].
    + intros [[->|Hx] Hj]; [by left|]. right. split; [|done]. intros ->. by apply (Hfresh x).
  - intros b ks. unfold note_about. case_bool_decide as Ha; [|apply Hlist].
    rewrite lookup_insert_Some. intros [[_ <-]|[_ Hl]]; [set_solver|by eapply Hlist].
  - intros b j. unfold note_about.
    assert (j ∈ default ∅ (abouts c !! b) \/ (b = a /\ a <> EmptyString /\ j = k) <->
            b <> EmptyString /\ (exists x, x ∈ e :: order c /\ element_key x = j
                                          /\ element_about x = b)) as Hgoal.
    { rewrite Hab. setoid_rewrite elem_of_cons. unfold element_key, element_about. split.
      - intros [(Hb & x & Hx & ? & ?)|(-> & Ha & ->)]; [by eauto 10|].
        split; [done|]. exists e. by split; [left|].
      - intros (Hb & x & [->|Hx] & <- & <-); [right|left]; eauto 10. }
    rewrite <- Hgoal. case_bool_decide as Ha.
    + destruct (decide (b = a)) as [->|Hn].
      * rewrite lookup_insert_eq; cbn. set_solver.
      * rewrite lookup_insert_ne by done. naive_solver.
    + naive_solver.
Qed.

Lemma Put_ok (c : LRU) now k a v fresh :
  lru_ok c ->
  lru_ok (Put now k a v fresh c)
  /\ contents (Put now k a v fresh c) = spec_put (most c) now k a v fresh (contents c).
Proof.
  intros [Hc Hb]. unfold Put, spec_put. case_bool_decide as Hk; cbn [orb]; [done|].
  destruct (fresh <=? 0)%Z; [done|].
  set (c0 := match elements c !! k with Some e => drop_element e c | None => c end).
  assert (lru_core c0 /\ most c0 = most c
          /\ contents c0 = filter (fun x => key x <> k) (contents c)) as (Hc0 & Hm & Hcont).
  { unfold c0. pose proof (lookup_element c k Hc) as Hl.
    destruct (elements c !! k) as [e|].
    - destruct Hl as (He & <- & _). by destruct (drop_element_ok c e Hc He).
    - destruct Hl as [_ ->]. done. }
  assert (forall e, e ∈ order c0 -> element_key e <> k) as Hfresh.
  { intros e He. assert (Value e ∈ contents c0) as Hin by by apply list_elem_of_fmap_2.
    rewrite Hcont in Hin. by apply list_elem_of_filter in Hin as [? _]. }
  pose proof (Put_front_ok c0 k a v (time_Add now fresh) Hc0 Hk Hfresh) as Hc1.
  destruct (evict_ok _ _ Hc1 (le_n _)) as [Hok Hcont1]. split; [done|].
  rewrite Hcont1. cbn [most]. rewrite Hm. f_equal. rewrite <- Hcont. done.
Qed.

Lemma invalidate_keys_ok (c : LRU) ks :
  lru_core c ->
  let c' := foldl invalidate_key c ks in
  lru_core c' /\ most c' = most c
  /\ contents c' = filter (fun x => key x ∉ ks) (contents c).
Proof.
  revert c. induction ks as [|k ks IH]; intros c Hc.
  - split_and!; [done|done|]. symmetry. apply filter_all. set_solver.
  - cbn. assert (lru_core (invalidate_key c k) /\ most (invalidate_key c k) = most c
      /\ contents (invalidate_key c k) = filter (fun x => key x <> k) (contents c))
      as (Hc' & Hm & Hcont).
    { unfold invalidate_key. pose proof (lookup_element c k Hc) as Hl.
      destruct (elements c !! k) as [e|].
      - destruct Hl as (He & <- & _). by destruct (drop_element_ok c e Hc He).
      - destruct Hl as [_ ->]. done. }
    destruct (IH _ Hc') as (? & Hm' & Hcont'). split_and!; [done|congruence|].
    rewrite Hcont', Hcont, list_filter_filter. apply filter_ext_in. set_solver.
Qed.

Lemma Invalidate_ok (c : LRU) subject :
  lru_ok c ->
  lru_ok (Invalidate subject c)
  /\ contents (Invalidate subject c) = spec_invalidate subject (contents c).
Proof.
  intros [Hc Hb]. unfold Invalidate.
  set (ks := base.elements (default ∅ (abouts c !! subject))).
  destruct (invalidate_keys_ok c ks Hc) as (Hc' & Hm & Hcont).
  assert (forall x, x ∈ contents c ->
          key x ∉ ks <-> about x <> subject \/ subject = EmptyString) as Hks.
  { intros x Hx. apply list_elem_of_fmap in Hx as (e & -> & He). unfold ks.
    rewrite elem_of_elements, (ok_about c Hc).
    destruct (decide (subject = EmptyString)) as [->|Hs]; [naive_solver|]. split.
    - intros Hn. left. intros Heq. apply Hn. split; [done|]. by exists e.
    - intros [Hn|?] (_ & e' & He' & Hk & Ha); [|done]. apply Hn.
      rewrite (NoDup_fmap_inj element_key (order c) e e'); try done. apply Hc. }
  assert (contents (foldl invalidate_key c ks) = spec_invalidate subject (contents c)) as Hspec.
  { rewrite Hcont. by apply filter_ext_in. }
  assert (delete subject (abouts (foldl invalidate_key c ks))
          = abouts (foldl invalidate_key c ks)) as Hdel.
  { apply delete_id. destruct (abouts (foldl invalidate_key c ks) !! subject) as [l|] eqn:Hl; [|done].
    exfalso.
    apply (ok_listed _ Hc' _ _ Hl), set_eq. intros k. split; [|set_solver]. intros Hk.
    assert (k ∈ default ∅ (abouts (foldl invalidate_key c ks) !! subject)) as Hin
      by by rewrite Hl.
    apply (ok_about _ Hc') in Hin as (Hs & e & He & _ & Ha).
    assert (Value e ∈ contents (foldl invalidate_key c ks)) as Hv by by apply list_elem_of_fmap_2.
    rewrite Hspec in Hv. apply list_elem_of_filter in Hv as [[?|?] _]; done. }
  rewrite Hdel. destruct (foldl invalidate_key c ks) as [m el o ab nx] eqn:Hf.
  split; [|done]. split; [done|]. cbn in *. rewrite Hm.
  assert (length (Value <$> o) <= length (contents c)) as Hlen.
  { unfold contents in Hspec at 1; cbn in Hspec. rewrite Hspec. apply length_filter. }
  rewrite length_fmap in Hlen. unfold contents in Hlen. rewrite length_fmap in Hlen. lia.
Qed.

(** ** Sequences of calls *)

Inductive cache_op : Type :=
| OpGet (now : Time) (k : string)
| OpPut (now : Time) (k a : string) (v : A) (fresh : Duration)
| OpInvalidate (subject : string).

Definition run_op (op : cache_op) (c : LRU) : option (A * bool) * LRU :=
  match op with
  | OpGet now k => let '(r, c) := Get now k c in (Some r, c)
  | OpPut now k a v fresh => (None, Put now k a v fresh c)
  | OpInvalidate subject => (None, Invalidate subject c)
  end.

Definition run_spec (bound : Z) (op : cache_op) (l : list lruEntry)
    : option (A * bool) * list lruEntry :=
  match op with
  | OpGet now k => let '(r, l) := spec_get now k l in (Some r, l)
  | OpPut now k a v fresh => (None, spec_put bound now k a v fresh l)
  | OpInvalidate subject => (None, spec_invalidate subject l)
  end.

Fixpoint run_ops {S} (run : cache_op -> S -> option (A * bool) * S) (ops : list cache_op) (s : S)
    : list (option (A * bool)) * S :=
  match ops with
  | [] => ([], s)
  | op :: rest => let '(r, s) := run op s in let '(rs, s) := run_ops run rest s in (r :: rs, s)
  end.

Lemma evict_most (c : LRU) n : most (evict n c) = most c.
Proof.
  revert c. induction n as [|n IH]; intros c; cbn [evict]; [done|].
  destruct (_ <? _)%Z; [|done]. destruct (last _); [|done]. by rewrite IH.
Qed.

Lemma run_op_ok (c : LRU) op :
  lru_ok c ->
  let '(r, c') := run_op op c in
  lru_ok c' /\ most c' = most c /\ (r, contents c') = run_spec (most c) op (contents c).
Proof.
  intros Hok. destruct op as [now k|now k a v fresh|subject]; cbn [run_op run_spec].
  - pose proof (Get_ok c now k Hok) as Hg. destruct (Get now k c) as [r c'].
    destruct Hg as (? & ? & <-). done.
  - destruct (Put_ok c now k a v fresh Hok) as [? ->]. split_and!; [done| |done].
    unfold Put. destruct (_ || _); [done|]. rewrite evict_most; cbn.
    by destruct (elements c !! k).
  - destruct (Invalidate_ok c subject Hok) as [? ->]. split_and!; [done| |done].
    unfold Invalidate; cbn. by apply invalidate_keys_ok, Hok.
Qed.

Lemma run_ops_ok (ops : list cache_op) (c : LRU) :
  lru_ok c ->
  let '(rs, c') := run_ops run_op ops c in
  lru_ok c' /\ most c' = most c
  /\ run_ops (run_spec (most c)) ops (contents c) = (rs, contents c').
Proof.
  revert c. induction ops as [|op ops IH]; intros c Hok; cbn; [done|].
  pose proof (run_op_ok c op Hok) as Hop. destruct (run_op op c) as [r c1].
  destruct Hop as (Hok1 & Hm & <-). specialize (IH c1 Hok1).
  destruct (run_ops run_op ops c1) as [rs c2]. destruct IH as (? & ? & Hrun).
  rewrite Hm in Hrun. rewrite Hrun. split_and!; [done|congruence|done].
Qed.

(** * Properties *)

(** C4. Whatever sequence of reads, writes and invalidations a cache sees, it
    answers as the list of entries its specification describes: reads move an
    entry to the front, entries past their date are dropped, writes evict from
    the back beyond the bound, an invalidation drops exactly the entries about
    its subject; and the cache never holds more than its bound. *)
Theorem LRU_refines_spec (n : Z) (ops : list cache_op) :
  let '(answers, cache) := run_ops run_op ops (NewLRU n) in
  run_ops (run_spec (Z.max 1 n)) ops [] = (answers, contents cache)
  /\ (Len cache <= Z.max 1 n)%Z /\ lru_core cache.
Proof.
  pose proof (run_ops_ok ops (NewLRU n) (NewLRU_ok n)) as Hrun.
  assert (most (NewLRU (A := A) n) = Z.max 1 n) as Hm
    by (unfold NewLRU; cbn; destruct (Z.ltb_spec n 1); lia).
  destruct (run_ops run_op ops (NewLRU n)) as [rs c]. destruct Hrun as ([? ?] & Hm' & Hr).
  rewrite Hm in *. split_and!; [exact Hr | unfold Len; lia | done].
Qed.

(** A value just written is served up to and including its last instant and
    never after it, and not at all once what it is about has been invalidated. *)
Theorem LRU_serves_while_fresh (c : LRU) (now later : Time) (k a : string) (v : A)
    (fresh : Duration) :
  lru_ok c -> k <> EmptyString -> (0 < fresh)%Z ->
  fst (Get later k (Put now k a v fresh c))
  = (if (later <=? time_Add now fresh)%Z then (v, true) else (zero A, false))
  /\ (a <> EmptyString ->
      fst (Get later k (Invalidate a (Put now k a v fresh c))) = (zero A, false)).
Proof.
  intros Hok Hk Hf. destruct (Put_ok c now k a v fresh Hok) as [Hok' Hcont].
  assert (exists n, contents (Put now k a v fresh c)
    = take (S n) (MkEntry k a v (time_Add now fresh) :: filter (fun e => key e <> k) (contents c)))
    as [n Hc].
  { rewrite Hcont. unfold spec_put. rewrite bool_decide_eq_false_2 by done.
    destruct (Z.leb_spec fresh 0); [lia|]. cbn [orb].
    exists (Z.to_nat (most c) - 1). f_equal. pose proof (ok_most c (proj1 Hok)). lia. }
  split.
  - pose proof (Get_ok _ later k Hok') as Hg. destruct (Get later k _) as [r c'].
    destruct Hg as (_ & _ & Hg). rewrite Hc in Hg. unfold spec_get in Hg.
    cbn [take list_find] in Hg. rewrite decide_True in Hg by done. cbn [until value] in Hg.
    unfold time_After in Hg. destruct (Z.ltb_spec (time_Add now fresh) later);
      injection Hg as -> _; destruct (Z.leb_spec later (time_Add now fresh)); done || lia.
  - intros Ha. destruct (Invalidate_ok _ a Hok') as [Hok2 Hinv].
    pose proof (Get_ok _ later k Hok2) as Hg. destruct (Get later k _) as [r c'].
    destruct Hg as (_ & _ & Hg). rewrite Hinv, Hc in Hg. unfold spec_get in Hg.
    assert (list_find (fun e => key e = k) (spec_invalidate a
      (take (S n) (MkEntry k a v (time_Add now fresh)
                   :: filter (fun e => key e <> k) (contents c)))) = None) as Hnone.
    { apply list_find_None, Forall_forall. intros e He.
      apply list_elem_of_filter in He as [Hne He]. cbn [take] in He.
      apply elem_of_cons in He as [->|He]; [destruct Hne; done|].
      apply elem_of_take in He as (i & Hi & _).
      apply list_elem_of_lookup_2, list_elem_of_filter in Hi as [? _]. done. }
    rewrite Hnone in Hg. by injection Hg as -> _.
Qed.

End Facts.
