(* ===== verification/Rate.v ===== *)
(** Rate allowances and the in-process limiter ([effect/rate/rate.go],
    [memory.go]): the generic cell rate algorithm over [int64] durations. *)

From S2P Require Import Prelude Time.

Record Allowance : Type := MkAllowance { Name : string; Most : Z; Every : Duration }.

Definition IsStated (allowance : Allowance) : bool :=
  bool_decide (Name allowance <> EmptyString) && (0 <? Most allowance)%Z
  && (0 <? Every allowance)%Z.

Definition Spacing (allowance : Allowance) : Duration :=
  if negb (IsStated allowance) then 0%Z
  else duration_quot (Every allowance) (Most allowance).

Definition ErrUnstated : error :=
  MkError 301 "an allowance is a count and a period, under a name" [].
Definition ErrLimitExceeded : error :=
  MkError 302 "the queue is longer than this program will wait" [].

Record Fault : Type := MkFault { fault_Allowance : string; Err : option error }.

Definition Fault_Error (fault : Fault) : string :=
  let message := ("rate: " ++ fault_Allowance fault)%string in
  match Err fault with
  | Some err => (message ++ ": " ++ error_text err)%string
  | None => message
  end.

(** [nextArrival]: a missing name reads as the zero time. *)
Abbreviation MemoryLimiter := (gmap string Time).

Definition Turn (now : Time) (allowance : Allowance) (longest : Duration)
    (limiter : MemoryLimiter) : (Duration * option Fault) * MemoryLimiter :=
  if negb (IsStated allowance)
  then (0%Z, Some (MkFault (Name allowance) (Some ErrUnstated)), limiter)
  else
    let spacing := Spacing allowance in
    let nextArrival := default zero_time (limiter !! Name allowance) in
    let nextArrival := if time_Before nextArrival now then now else nextArrival in
    let tolerance := duration_mul (wrap64 (Most allowance - 1)) spacing in
    let wait := time_Sub (time_Add nextArrival (wrap64 (- tolerance))) now in
    let wait := if (wait <? 0)%Z then 0%Z else wait in
    if (0 <? longest)%Z && (longest <? wait)%Z
    then (wait, Some (MkFault (Name allowance) (Some ErrLimitExceeded)), limiter)
    else (wait, None, <[Name allowance := time_Add nextArrival spacing]> limiter).

(** ** Runs

    Callers ask for turns under one allowance at given instants, each with its
    own ceiling; the moments granted are the instants plus the waits. *)
Fixpoint grants (allowance : Allowance) (asks : list (Time * Duration)) (limiter : MemoryLimiter)
    : list Time :=
  match asks with
  | [] => []
  | (now, longest) :: rest =>
      match Turn now allowance longest limiter with
      | (wait, None, limiter) => time_Add now wait :: grants allowance rest limiter
      | (_, Some _, limiter) => grants allowance rest limiter
      end
  end.

Section Facts.

Definition allowance_ok (a : Allowance) : Prop :=
  IsStated a = true /\ is_int64 (Most a) /\ is_int64 (Every a).

Definition tolerance (a : Allowance) : Z := ((Most a - 1) * Spacing a)%Z.

Lemma IsStated_spec a :
  IsStated a = true -> Name a <> EmptyString /\ (0 < Most a)%Z /\ (0 < Every a)%Z.
Proof.
  unfold IsStated. rewrite !andb_true_iff. intros [[? ?] ?].
  by rewrite bool_decide_eq_true, !Z.ltb_lt in *.
Qed.

Lemma Spacing_spec a :
  allowance_ok a -> Spacing a = (Every a / Most a)%Z
  /\ (0 <= Spacing a)%Z /\ (Most a * Spacing a <= Every a)%Z.
Proof.
  intros (Hs & Hm & He). unfold Spacing. rewrite Hs; cbn [negb].
  destruct (IsStated_spec a Hs) as (_ & Hm0 & He0). unfold duration_quot.
  rewrite Z.quot_div_nonneg by lia.
  pose proof (Z.div_pos (Every a) (Most a)). pose proof (Z.mul_div_le (Every a) (Most a)).
  assert (Every a / Most a <= Every a)%Z by (apply Z.div_le_upper_bound; nia).
  rewrite wrap64_id; [|unfold is_int64, int64_min, int64_max in *; lia]. lia.
Qed.

Lemma tolerance_spec a :
  allowance_ok a ->
  duration_mul (wrap64 (Most a - 1)) (Spacing a) = tolerance a
  /\ wrap64 (- tolerance a) = (- tolerance a)%Z /\ (0 <= tolerance a < Every a)%Z.
Proof.
  intros Hok. destruct (Spacing_spec a Hok) as (_ & Hs0 & Hs). destruct Hok as (Hst & Hm & He).
  destruct (IsStated_spec a Hst) as (_ & Hm0 & He0). unfold tolerance, duration_mul.
  assert (0 <= (Most a - 1) * Spacing a < Every a)%Z by nia.
  unfold is_int64, int64_min, int64_max in *.
  rewrite (wrap64_id (Most a - 1)) by (unfold is_int64, int64_min, int64_max; lia).
  rewrite !wrap64_id by (unfold is_int64, int64_min, int64_max; lia). lia.
Qed.

(** When a limiter is within the range of durations of an instant. *)
Definition in_range (a : Allowance) (now : Time) (limiter : MemoryLimiter) : Prop :=
  (default zero_time (limiter !! Name a) - now <= int64_max)%Z.

(** The arrival a turn claims. *)
Definition arrival (a : Allowance) (now : Time) (limiter : MemoryLimiter) : Time :=
  Z.max now (default zero_time (limiter !! Name a)).

Lemma Turn_spec a now longest limiter :
  allowance_ok a -> in_range a now limiter ->
  let wait := Z.max 0 (arrival a now limiter - tolerance a - now) in
  Turn now a longest limiter
  = if (0 <? longest)%Z && (longest <? wait)%Z
    then (wait, Some (MkFault (Name a) (Some ErrLimitExceeded)), limiter)
    else (wait, None, <[Name a := (arrival a now limiter + Spacing a)%Z]> limiter).
Proof.
  intros Hok Hr wait. destruct (tolerance_spec a Hok) as (Ht & Hn & Hb).
  pose proof Hok as (Hs & Hm & He). unfold Turn. rewrite Hs, Ht, Hn; cbn [negb].
  unfold time_Before.
  assert ((if (default zero_time (limiter !! Name a) <? now)%Z then now
           else default zero_time (limiter !! Name a)) = arrival a now limiter) as ->.
  { unfold arrival. destruct (Z.ltb_spec (default zero_time (limiter !! Name a)) now); lia. }
  unfold time_Add. rewrite time_Sub_exact.
  - assert ((if (arrival a now limiter + - tolerance a - now <? 0)%Z then 0%Z
             else arrival a now limiter + - tolerance a - now)%Z = wait) as ->; [|done].
    unfold wait. destruct (Z.ltb_spec (arrival a now limiter + - tolerance a - now) 0); lia.
  - unfold in_range, is_int64, int64_min, int64_max, arrival in *. lia.
Qed.

(** Everything granted from here on is at or after the earliest moment the
    kept arrival allows, [k] turns later. *)
Definition not_before (a : Allowance) (limiter : MemoryLimiter) (k : Z) : Z :=
  (default zero_time (limiter !! Name a) + k * Spacing a - tolerance a)%Z.

(** Asks whose waits stay within the range of durations. *)
Fixpoint asks_in_range (a : Allowance) (asks : list (Time * Duration)) (limiter : MemoryLimiter)
    : Prop :=
  match asks with
  | [] => True
  | (now, longest) :: rest =>
      in_range a now limiter
      /\ asks_in_range a rest (snd (Turn now a longest limiter))
  end.

Lemma grants_not_before a asks limiter k g :
  allowance_ok a -> asks_in_range a asks limiter ->
  grants a asks limiter !! k = Some g -> (not_before a limiter (Z.of_nat k) <= g)%Z.
Proof.
  intros Hok. revert limiter k. induction asks as [|[now longest] asks IH]; intros limiter k; [done|].
  intros [Hr Hrest]. cbn [grants]. pose proof (Turn_spec a now longest limiter Hok Hr) as Ht.
  cbv zeta in Ht. rewrite Ht in *. destruct (_ && _).
  - cbn [snd] in Hrest. by apply IH.
  - cbn [snd] in Hrest. destruct k as [|k]; cbn [lookup list_lookup].
    + intros [= <-]. unfold not_before, time_Add, arrival. lia.
    + intros Hg. specialize (IH _ _ Hrest Hg). unfold not_before in *.
      rewrite lookup_insert_eq in IH. cbn [default from_option id] in IH.
      unfold arrival in IH. lia.
Qed.

Lemma grants_spacing a asks limiter j k gj gk :
  allowance_ok a -> asks_in_range a asks limiter ->
  grants a asks limiter !! j = Some gj -> grants a asks limiter !! k = Some gk -> j < k ->
  (gj + (Z.of_nat k - Z.of_nat j) * Spacing a - tolerance a <= gk)%Z.
Proof.
  intros Hok. revert limiter j k.
  induction asks as [|[now longest] asks IH]; intros limiter j k; [done|].
  intros [Hr Hrest]. cbn [grants]. pose proof (Turn_spec a now longest limiter Hok Hr) as Ht.
  cbv zeta in Ht. rewrite Ht in *. destruct (_ && _); cbn [snd] in Hrest.
  - by apply IH.
  - intros Hj Hk Hlt. destruct k as [|k]; [lia|]. cbn [lookup list_lookup] in Hk.
    destruct j as [|j]; cbn [lookup list_lookup] in Hj.
    + injection Hj as <-. pose proof (grants_not_before _ _ _ _ _ Hok Hrest Hk) as Hb.
      unfold not_before in Hb. rewrite lookup_insert_eq in Hb.
      cbn [default from_option id] in Hb. destruct (tolerance_spec a Hok) as (_ & _ & Htol).
      unfold time_Add, arrival in *. lia.
    + specialize (IH _ _ _ Hrest Hj Hk ltac:(lia)). lia.
Qed.

(** * Properties *)

(** C22. However callers interleave and whatever they are willing to wait, the
    turns granted under one allowance are spaced: any two of them, [d] turns
    apart, are at least [d - (Most - 1)] spacings apart. *)
Theorem turns_are_spaced (a : Allowance) (asks : list (Time * Duration))
    (limiter : MemoryLimiter) (j k : nat) (gj gk : Time) :
  allowance_ok a -> asks_in_range a asks limiter ->
  grants a asks limiter !! j = Some gj -> grants a asks limiter !! k = Some gk -> j < k ->
  (gj + (Z.of_nat k - Z.of_nat j - (Most a - 1)) * Spacing a <= gk)%Z.
Proof.
  intros Hok Hr Hj Hk Hlt. pose proof (grants_spacing a asks limiter j k gj gk Hok Hr Hj Hk Hlt).
  unfold tolerance in *. lia.
Qed.

(** A turn is all or nothing: a refusal names the allowance, reports a wait
    longer than the caller's ceiling and leaves the limiter exactly as it was;
    a grant waits no longer than a positive ceiling and moves only its own
    allowance along by one spacing; and no wait overflows. *)
Theorem Turn_reserves_or_refuses (a : Allowance) (now : Time) (longest : Duration)
    (limiter : MemoryLimiter) :
  allowance_ok a -> in_range a now limiter ->
  let '(wait, fault, limiter') := Turn now a longest limiter in
  (0 <= wait <= int64_max)%Z
  /\ match fault with
     | Some f => f = MkFault (Name a) (Some ErrLimitExceeded) /\ limiter' = limiter
                 /\ (0 < longest < wait)%Z
     | None => ((0 < longest)%Z -> (wait <= longest)%Z)
               /\ limiter' = <[Name a := (arrival a now limiter + Spacing a)%Z]> limiter
     end.
Proof.
  intros Hok Hr. pose proof (Turn_spec a now longest limiter Hok Hr) as Ht. cbv zeta in Ht.
  destruct (tolerance_spec a Hok) as (_ & _ & Htol).
  assert (Z.max 0 (arrival a now limiter - tolerance a - now) <= int64_max)%Z as Hw.
  { unfold in_range, arrival in *. unfold int64_max in *. lia. }
  rewrite Ht. destruct (_ && _) eqn:E; (split; [lia|]).
  - apply andb_true_iff in E as [?%Z.ltb_lt ?%Z.ltb_lt]. done.
  - split; [|done]. intros Hl. apply andb_false_iff in E as [?%Z.ltb_ge|?%Z.ltb_ge]; lia.
Qed.

(** The rate is not a ceiling on every window: with three turns a second,
    five callers are let through within the same second. *)
Theorem burst_exceeds_the_rate :
  let a := MkAllowance "service" 3 1000000000%Z in
  let granted := grants a (map (fun t => (t, 0%Z)) [10; 10; 10; 333333343; 666666676]%Z) ∅ in
  granted = [10; 10; 10; 333333343; 666666676]%Z
  /\ Forall (fun g => 10 <= g < 10 + Every a)%Z granted
  /\ (Most a < Z.of_nat (length granted))%Z.
Proof.
  intros a granted. assert (granted = [10; 10; 10; 333333343; 666666676]%Z) as Hg.
  { vm_compute. reflexivity. }
  rewrite Hg. split_and!; [done| |done]. by repeat constructor.
Qed.

End Facts.
