(* ===== verification/ConfigError.v ===== *)
(** Why a description could not be read ([effect/config/error.go]): a tree of
    failures with [And] and [Or]. *)

From S2P Require Import Prelude GoStrings.

Inductive Kind : Type :=
| KindEmpty | KindMissing | KindInvalid | KindUnavailable | KindAnd | KindOr.

#[export] Instance Kind_eq_dec : EqDecision Kind.
Proof. solve_decision. Defined.

(** The struct as the code has it: every field in every node, and either branch
    possibly nil. *)
Inductive node : Type :=
| MkNode (kind : Kind) (path : list string) (message : string) (err : option error)
    (lhs rhs : option node).

Definition node_kind (n : node) : Kind := let 'MkNode k _ _ _ _ _ := n in k.

(** An [Error] is a possibly nil node. *)
Definition Error : Type := option node.

Record Failure : Type := MkFailure {
  failure_Kind : Kind;
  failure_Path : list string;
  failure_Message : string;
  failure_Err : option error
}.

Definition no_error : Error := None.

Definition Missing (path : list string) : Error :=
  Some (MkNode KindMissing path EmptyString None None None).
Definition Invalid (message : string) (path : list string) : Error :=
  Some (MkNode KindInvalid path message None None None).
Definition Unavailable (err : option error) (path : list string) : Error :=
  Some (MkNode KindUnavailable path EmptyString err None None).

Definition IsEmpty (failure : Error) : bool :=
  match failure with None => true | Some n => bool_decide (node_kind n = KindEmpty) end.

Definition compose (kind : Kind) (failure that : Error) : Error :=
  if IsEmpty failure then that
  else if IsEmpty that then failure
  else Some (MkNode kind [] EmptyString None failure that).

Definition And (failure that : Error) : Error := compose KindAnd failure that.
Definition Or (failure that : Error) : Error := compose KindOr failure that.

Definition Error_Kind (failure : Error) : Kind :=
  match failure with None => KindEmpty | Some n => node_kind n end.

Fixpoint appendLeaves (into : list Failure) (failure : node) : list Failure :=
  let 'MkNode kind path message err lhs rhs := failure in
  match kind with
  | KindEmpty => into
  | KindAnd | KindOr =>
      let into := match lhs with None => into | Some l => appendLeaves into l end in
      match rhs with None => into | Some r => appendLeaves into r end
  | _ => into ++ [MkFailure kind path message err]
  end.

Definition Failures (failure : Error) : list Failure :=
  match failure with None => [] | Some n => appendLeaves [] n end.

Definition IsMissingOnly (failure : Error) : bool :=
  let leaves := Failures failure in
  if bool_decide (length leaves = 0) then false
  else forallb (fun leaf => bool_decide (failure_Kind leaf = KindMissing)) leaves.

Fixpoint withPrefix (prefix : list string) (failure : node) : node :=
  let 'MkNode kind path message err lhs rhs := failure in
  match kind with
  | KindAnd | KindOr =>
      MkNode kind [] EmptyString None
        (match lhs with None => None | Some l => Some (withPrefix prefix l) end)
        (match rhs with None => None | Some r => Some (withPrefix prefix r) end)
  | _ => MkNode kind (prefix ++ path) message err lhs rhs
  end.

Definition Prefixed (prefix : list string) (failure : Error) : Error :=
  if IsEmpty failure || bool_decide (length prefix = 0) then failure
  else match failure with None => None | Some n => Some (withPrefix prefix n) end.

Definition Render (path : list string) : string :=
  if bool_decide (length path = 0) then "the root" else Join path ".".

(** [None] is the panic of following a nil branch or printing a nil error. *)
Fixpoint render (failure : node) : option string :=
  let 'MkNode kind path message err lhs rhs := failure in
  match kind with
  | KindAnd =>
      l ← lhs ≫= render; r ← rhs ≫= render; Some (l ++ " and " ++ r)%string
  | KindOr =>
      l ← lhs ≫= render; r ← rhs ≫= render; Some (l ++ " or " ++ r)%string
  | KindMissing => Some ("no value at " ++ Render path)%string
  | KindInvalid => Some (Render path ++ " is not " ++ message)%string
  | KindUnavailable =>
      e ← err; Some (Render path ++ " could not be read: " ++ error_text e)%string
  | KindEmpty => Some "no configuration failure"%string
  end.

Definition Error_text (failure : Error) : option string :=
  if IsEmpty failure then Some "no configuration failure"%string
  else failure ≫= render.

(** * Facts *)

Section Facts.

Lemma node_nested_ind (P : node -> Prop) :
  (forall k p m e l r,
      (forall l', l = Some l' -> P l') -> (forall r', r = Some r' -> P r') ->
      P (MkNode k p m e l r)) ->
  forall n, P n.
Proof.
  intros H. fix IH 1. intros [k p m e l r].
  apply H; intros n' Heq; [destruct l as [x|] | destruct r as [x|]]; try discriminate Heq;
    injection Heq as <-; apply IH.
Qed.

Lemma appendLeaves_app n into : appendLeaves into n = into ++ appendLeaves [] n.
Proof.
  revert into. induction n as [k p m e l r IHl IHr] using node_nested_ind. intros into.
  destruct k; cbn; rewrite ?app_nil_r; try done;
    (destruct r as [r|]; [rewrite (IHr r eq_refl)|]);
    (destruct l as [l|]; [rewrite (IHl l eq_refl)|]); try done;
    rewrite ?(IHr r eq_refl (appendLeaves [] l)), ?app_nil_r, ?app_assoc; done.
Qed.

Lemma Failures_compose k failure that :
  k = KindAnd \/ k = KindOr -> Failures (compose k failure that) = Failures failure ++ Failures that.
Proof.
  assert (forall e, IsEmpty e = true -> Failures e = []) as Hempty.
  { intros [[[] p m er l r]|] He; cbn in He; done. }
  intros Hk. unfold compose. destruct (IsEmpty failure) eqn:Hf; [by rewrite (Hempty failure)|].
  destruct (IsEmpty that) eqn:Ht; [by rewrite (Hempty that), app_nil_r|].
  destruct failure as [n|]; [|done]. destruct that as [m|]; [|done].
  destruct Hk as [-> | ->]; cbn; by rewrite appendLeaves_app.
Qed.

Lemma Failures_And failure that : Failures (And failure that) = Failures failure ++ Failures that.
Proof. apply Failures_compose; auto. Qed.

Lemma Failures_Or failure that : Failures (Or failure that) = Failures failure ++ Failures that.
Proof. apply Failures_compose; auto. Qed.

Lemma error_compose_IsEmpty k failure that :
  k <> KindEmpty -> IsEmpty (compose k failure that) = IsEmpty failure && IsEmpty that.
Proof.
  intros Hk. unfold compose. destruct (IsEmpty failure) eqn:Hf; [done|].
  destruct (IsEmpty that) eqn:Ht; [by rewrite Hf|]. cbn. by rewrite bool_decide_eq_false_2.
Qed.

Lemma IsEmpty_And failure that : IsEmpty (And failure that) = IsEmpty failure && IsEmpty that.
Proof. by apply error_compose_IsEmpty. Qed.

Lemma IsEmpty_Or failure that : IsEmpty (Or failure that) = IsEmpty failure && IsEmpty that.
Proof. by apply error_compose_IsEmpty. Qed.

Lemma IsMissingOnly_spec failure :
  IsMissingOnly failure = true
  <-> Failures failure <> [] /\ Forall (fun leaf => failure_Kind leaf = KindMissing) (Failures failure).
Proof.
  unfold IsMissingOnly. case_bool_decide as Hl.
  - split; [done|]. intros [Hne _]. by destruct (Failures failure).
  - rewrite Forall_forall, forallb_forall. setoid_rewrite bool_decide_eq_true.
    setoid_rewrite <- list_elem_of_In. split; [|by intros [_ ?]].
    intros H. split; [|done]. intros Heq. by rewrite Heq in Hl.
Qed.

(** What a constructor or combinator of this package can have built: branches
    present and not empty, a source's error present, and no leaf that is empty. *)
Fixpoint error_wf (n : node) : bool :=
  let 'MkNode kind path message err lhs rhs := n in
  match kind with
  | KindEmpty => false
  | KindAnd | KindOr =>
      (match lhs with None => false | Some l => error_wf l end)
      && (match rhs with None => false | Some r => error_wf r end)
  | KindUnavailable => bool_decide (is_Some err)
  | _ => true
  end.

Definition wf_error (failure : Error) : bool :=
  match failure with None => true | Some n => error_wf n end.

Lemma error_compose_wf k failure that :
  k = KindAnd \/ k = KindOr -> wf_error failure = true -> wf_error that = true ->
  wf_error (compose k failure that) = true.
Proof.
  intros Hk Hf Ht. unfold compose. destruct (IsEmpty failure) eqn:Ef; [done|].
  destruct (IsEmpty that) eqn:Et; [done|].
  destruct failure as [n|]; [|done]. destruct that as [m|]; [|done].
  cbn in *. destruct Hk as [-> | ->]; by rewrite Hf, Ht.
Qed.

Lemma wf_Failures failure :
  wf_error failure = true -> IsEmpty failure = false -> Failures failure <> [].
Proof.
  destruct failure as [n|]; [|done]. cbn. intros Hw _.
  induction n as [k p m e l r IHl IHr] using node_nested_ind. destruct k; cbn in *; try done;
    apply andb_true_iff in Hw as [Hl Hr]; destruct l as [l|]; try done;
    destruct r as [r|]; try done; rewrite appendLeaves_app; intros Heq;
    apply app_eq_nil in Heq as [Heq _]; by apply (IHl l).
Qed.

Lemma render_wf n : error_wf n = true -> is_Some (render n).
Proof.
  induction n as [k p m e l r IHl IHr] using node_nested_ind. destruct k; cbn; try (by eauto).
  - intros Hw. apply bool_decide_eq_true in Hw as [x ->]; cbn. eauto.
  - intros Hw. apply andb_true_iff in Hw as [Hl Hr]. destruct l as [l|]; [|done].
    destruct r as [r|]; [|done]. destruct (IHl l eq_refl Hl) as [s1 Hs1].
    destruct (IHr r eq_refl Hr) as [s2 Hs2]. cbn. rewrite Hs1; cbn. rewrite Hs2; cbn. eauto.
  - intros Hw. apply andb_true_iff in Hw as [Hl Hr]. destruct l as [l|]; [|done].
    destruct r as [r|]; [|done]. destruct (IHl l eq_refl Hl) as [s1 Hs1].
    destruct (IHr r eq_refl Hr) as [s2 Hs2]. cbn. rewrite Hs1; cbn. rewrite Hs2; cbn. eauto.
Qed.

Lemma error_renders_text failure : wf_error failure = true -> is_Some (Error_text failure).
Proof.
  intros Hw. unfold Error_text. destruct (IsEmpty failure) eqn:He; [eauto|].
  destruct failure as [n|]; [|done]. cbn. by apply render_wf.
Qed.

(** The leaf [Prefixed] makes of a leaf. *)
Definition prefix_leaf (prefix : list string) (leaf : Failure) : Failure :=
  MkFailure (failure_Kind leaf) (prefix ++ failure_Path leaf) (failure_Message leaf)
    (failure_Err leaf).

Lemma Failures_withPrefix prefix n :
  appendLeaves [] (withPrefix prefix n) = map (prefix_leaf prefix) (appendLeaves [] n).
Proof.
  induction n as [k p m e l r IHl IHr] using node_nested_ind.
  destruct k; cbn; try done;
    (destruct r as [r|]; [rewrite (appendLeaves_app (withPrefix prefix r)), (appendLeaves_app r)|]);
    (destruct l as [l|]); rewrite ?map_app, ?(IHl l eq_refl), ?(IHr r eq_refl); done.
Qed.

Lemma Failures_Prefixed prefix failure :
  Failures (Prefixed prefix failure) = map (prefix_leaf prefix) (Failures failure).
Proof.
  unfold Prefixed. destruct (IsEmpty failure) eqn:He; cbn [orb].
  - by destruct failure as [[[] ?????]|].
  - case_bool_decide as Hl.
    + destruct prefix; [|done]. rewrite <- (List.map_id (Failures failure)) at 1.
      apply map_ext. by intros [].
    + destruct failure as [n|]; [|done]. apply Failures_withPrefix.
Qed.

(** * Properties *)

(** The empty error is the identity of both compositions, which lose and
    reorder nothing: the leaves of a composition are the leaves of its sides, in
    the order the description asked for them. Prefixing changes only the paths
    of the leaves, and flattening reports no failure exactly for the empty
    error. *)
Theorem error_composition_keeps_failures (failure that : Error) (prefix : list string) :
  wf_error failure = true ->
  And no_error failure = failure /\ And failure no_error = failure
  /\ Or no_error failure = failure /\ Or failure no_error = failure
  /\ Failures (And failure that) = Failures failure ++ Failures that
  /\ Failures (Or failure that) = Failures failure ++ Failures that
  /\ Failures (Prefixed prefix failure) = map (prefix_leaf prefix) (Failures failure)
  /\ (IsEmpty failure = true <-> Failures failure = [])
  /\ (wf_error that = true -> wf_error (And failure that) = true /\ wf_error (Or failure that) = true).
Proof.
  intros Hw. assert (forall k, compose k failure no_error = failure) as Hright.
  { intros k. unfold compose. destruct failure as [n|]; [|done].
    cbn. by destruct n as [[] ?????]. }
  unfold And, Or. rewrite !Hright. split_and!; try done.
  - apply Failures_And.
  - apply Failures_Or.
  - apply Failures_Prefixed.
  - split; [by destruct failure as [[[] ?????]|]|].
    intros Heq. destruct (IsEmpty failure) eqn:He; [done|]. by apply wf_Failures in Heq.
  - intros Ht. split; apply error_compose_wf; auto.
Qed.

(** Every error the package can build renders, and a stand-in may cover it
    exactly when it has leaves and all of them are paths nobody supplied. *)
Theorem error_renders (failure : Error) :
  wf_error failure = true ->
  is_Some (Error_text failure)
  /\ (IsMissingOnly failure = true
      <-> Failures failure <> []
          /\ Forall (fun leaf => failure_Kind leaf = KindMissing) (Failures failure)).
Proof.
  intros Hw. split; [by apply error_renders_text | apply IsMissingOnly_spec].
Qed.

End Facts.
