(* ===== verification/ConfigSource.v ===== *)
(** Where settings come from ([effect/config/source.go], [environment.go]):
    flat maps, the environment, and the sources composed from them.

    A source is what it answers while one description is read: a function of the
    path.

    Composed sources keep precedence, a failure stops the search, and the keys
    beneath a path are listed once each. *)

From stdpp Require Import sorting.
From S2P Require Import Prelude GoStrings ConfigError.

(** [capability.ConfigSource]. *)
Record Source : Type := MkSource {
  Value : list string -> string * bool * option error;
  Children : list string -> list string * option error
}.

(** [slices.Sort] on strings: byte order. *)
Definition string_le (s t : string) : Prop := String.leb s t = true.

#[export] Instance string_le_dec : RelDecision string_le.
Proof. intros s t. unfold string_le. apply _. Defined.

Definition keysOf (values : gmap string string) : list string :=
  merge_sort string_le (map_to_list values).*1.

(** The loop of [childrenOf]: the set of children seen, and their list. *)
Definition children_turn (prefix separator : string) (st : gset string * list string)
    (key : string) : gset string * list string :=
  let '(seen, children) := st in
  if bool_decide (prefix <> EmptyString) && negb (HasPrefix key prefix) then st
  else
    let beneath := TrimPrefix key prefix in
    if bool_decide (beneath = EmptyString) then st
    else
      let child := fst (fst (Cut beneath separator)) in
      if bool_decide (child ∈ seen) then st
      else ({[ child ]} ∪ seen, children ++ [child]).

Definition childrenOf (keys : list string) (prefix separator : string) : list string :=
  let prefix := if bool_decide (prefix <> EmptyString) then (prefix ++ separator)%string
                else prefix in
  snd (foldl (children_turn prefix separator) (∅, []) keys).

(** * Maps *)

Definition mapSource (values : gmap string string) : Source :=
  MkSource
    (fun path =>
       match values !! Render path with
       | Some value => (value, true, None)
       | None => (EmptyString, false, None)
       end)
    (fun path => (childrenOf (keysOf values) (Render path) ".", None)).

Definition FromMap (values : gmap string string) : Source := mapSource values.

(** * Several sources *)

Fixpoint fallback_Value (sources : list Source) (path : list string)
    : string * bool * option error :=
  match sources with
  | [] => (EmptyString, false, None)
  | candidate :: rest =>
      match Value candidate path with
      | (_, _, Some err) => (EmptyString, false, Some err)
      | (value, true, None) => (value, true, None)
      | (_, false, None) => fallback_Value rest path
      end
  end.

(** One source's children added to those gathered so far. *)
Definition gather (st : gset string * list string) (child : string)
    : gset string * list string :=
  let '(seen, names) := st in
  if bool_decide (child ∈ seen) then st else ({[ child ]} ∪ seen, names ++ [child]).

Fixpoint fallback_Children (sources : list Source) (path : list string)
    (st : gset string * list string) : list string * option error :=
  match sources with
  | [] => (snd st, None)
  | candidate :: rest =>
      match Children candidate path with
      | (_, Some err) => ([], Some err)
      | (children, None) => fallback_Children rest path (foldl gather st children)
      end
  end.

Definition fallback (sources : list Source) : Source :=
  MkSource (fallback_Value sources) (fun path => fallback_Children sources path (∅, [])).

Definition Sources (sources : list (option Source)) : Source :=
  match omap (fun s => s) sources with
  | [source] => source
  | present => fallback present
  end.

(** * Views of a source *)

Definition subtree (source : Source) (prefix : list string) : Source :=
  MkSource (fun path => Value source (prefix ++ path))
    (fun path => Children source (prefix ++ path)).

Definition Beneath (source : option Source) (path : list string) : option Source :=
  match source with
  | None => None
  | Some s => if bool_decide (length path = 0) then Some s else Some (subtree s path)
  end.

Definition mapPath (spell : string -> string) (path : list string) : list string :=
  map spell path.

Definition inputMap (source : Source) (spell : string -> string) : Source :=
  MkSource (fun path => Value source (mapPath spell path))
    (fun path => Children source (mapPath spell path)).

Definition MapInput (source : option Source) (spell : option (string -> string))
    : option Source :=
  match source, spell with
  | Some s, Some f => Some (inputMap s f)
  | _, _ => source
  end.

Definition one (value : string) : Source :=
  MkSource (fun _ => (value, true, None)) (fun _ => ([], None)).

(** * The environment *)

Definition environmentKey (path : list string) : string := Join (map ToUpper path) "_".

Definition lowerCase (children : list string) : list string := map ToLower children.

(** Later entries overwrite earlier ones; an entry without [=] is skipped. *)
Definition environment_values (entries : list string) : gmap string string :=
  foldl (fun values entry =>
           let '(name, value, found) := Cut entry "=" in
           if found : bool then <[name := value]> values else values) ∅ entries.

Definition environmentOf (entries : list string) : Source :=
  let values := environment_values entries in
  let keys := keysOf values in
  MkSource
    (fun path =>
       match values !! environmentKey path with
       | Some value => (value, true, None)
       | None => (EmptyString, false, None)
       end)
    (fun path => (lowerCase (childrenOf keys (environmentKey path) "_"), None)).

Definition EnvironmentOf (entries : list string) : Source := environmentOf entries.

(** ** Gathering without repeats *)

Definition gathered (st : gset string * list string) : Prop :=
  NoDup (snd st) /\ forall c, c ∈ fst st <-> c ∈ snd st.

Lemma gather_ok st c :
  gathered st -> gathered (gather st c) /\ (forall x, x ∈ snd (gather st c) <-> x ∈ snd st \/ x = c).
Proof.
  destruct st as [seen names]. intros [Hnd Hs]; cbn in *. case_bool_decide as Hc; cbn.
  - split; [by split|]. intros x. split; [auto|]. intros [?| ->]; [done|by apply Hs].
  - split; [split; cbn|].
    + apply NoDup_app. split_and!; [done| |apply NoDup_singleton].
      intros x Hx ->%list_elem_of_singleton. apply Hc. by apply Hs.
    + intros x. rewrite elem_of_union, elem_of_singleton, elem_of_app, list_elem_of_singleton, Hs.
      tauto.
    + intros x. by rewrite elem_of_app, list_elem_of_singleton.
Qed.

Lemma gather_all_ok l st :
  gathered st ->
  gathered (foldl gather st l) /\ (forall x, x ∈ snd (foldl gather st l) <-> x ∈ snd st \/ x ∈ l).
Proof.
  revert st. induction l as [|c l IH]; intros st Hst; cbn; [split; [done|set_solver]|].
  destruct (gather_ok st c Hst) as [Hst' Hc]. destruct (IH _ Hst') as [? Hx]. split; [done|].
  intros x. rewrite Hx, Hc, elem_of_cons. tauto.
Qed.

Lemma gathered_empty : gathered (∅, []).
Proof. split; [apply NoDup_nil_2|set_solver]. Qed.

(** ** Children of flat keys *)

(** The part of a key beneath a prefix, and the child it names. *)
Definition names_child (prefix separator key child : string) : Prop :=
  exists beneath, key = (prefix ++ beneath)%string /\ beneath <> EmptyString
    /\ child = fst (fst (Cut beneath separator)).

Lemma children_turn_gather prefix separator st key :
  (exists child, names_child prefix separator key child
                 /\ children_turn prefix separator st key = gather st child)
  \/ ((forall child, ~ names_child prefix separator key child)
      /\ children_turn prefix separator st key = st).
Proof.
  destruct st as [seen children]. unfold children_turn.
  assert (forall b, key = (prefix ++ b)%string -> TrimPrefix key prefix = b) as Htrim
    by (intros b ->; apply TrimPrefix_app).
  destruct (HasPrefix key prefix) eqn:Hp.
  - rewrite andb_false_r. assert (exists b, key = (prefix ++ b)%string) as [b Hb]
      by (eexists; by apply HasPrefix_spec).
    rewrite (Htrim b Hb). case_bool_decide as He.
    + right. split; [|done]. intros child (b' & Hb' & Hne & _). apply Hne.
      by rewrite <- (Htrim b' Hb'), (Htrim b Hb).
    + left. eexists. split; [by exists b|]. cbn. by case_bool_decide.
  - right. assert (prefix <> EmptyString) as Hne by (intros ->; by destruct key).
    rewrite bool_decide_eq_true_2 by done. split; [|done].
    intros child (b & -> & _). by rewrite HasPrefix_app in Hp.
Qed.

Lemma children_foldl prefix separator keys st :
  gathered st ->
  gathered (foldl (children_turn prefix separator) st keys)
  /\ (forall child, child ∈ snd (foldl (children_turn prefix separator) st keys)
      <-> child ∈ snd st \/ exists key, key ∈ keys /\ names_child prefix separator key child).
Proof.
  revert st. induction keys as [|key keys IH]; intros st Hst; cbn; [split; [done|set_solver]|].
  destruct (children_turn_gather prefix separator st key) as [(c & Hc & ->)|(Hn & ->)].
  - destruct (gather_ok st c Hst) as [Hst' Hg]. destruct (IH _ Hst') as [? Hx].
    split; [done|]. intros child. rewrite Hx, Hg. setoid_rewrite elem_of_cons. split.
    + intros [[?| ->]|(k & ? & ?)]; eauto 10.
    + intros [?|(k & [->|?] & Hk)]; [auto| |eauto 10]. left. right.
      destruct Hc as (b & Hb & _ & ->), Hk as (b' & Hb' & _ & ->).
      assert (b' = b) as ->; [|done].
      by rewrite <- (TrimPrefix_app prefix b), <- (TrimPrefix_app prefix b'), <- Hb, Hb'.
  - destruct (IH st Hst) as [? Hx]. split; [done|]. intros child. rewrite Hx.
    setoid_rewrite elem_of_cons. split; [naive_solver|].
    intros [?|(k & [->|?] & Hk)]; [auto| |eauto 10]. by destruct (Hn child).
Qed.

Lemma fallback_Children_ok sources path st :
  gathered st ->
  match fallback_Children sources path st with
  | (names, None) =>
      NoDup names
      /\ (forall s, s ∈ sources -> snd (Children s path) = None)
      /\ forall c, c ∈ names <-> c ∈ snd st \/ exists s, s ∈ sources /\ c ∈ fst (Children s path)
  | (names, Some err) =>
      names = [] /\ exists before s after, sources = before ++ s :: after
        /\ (forall s', s' ∈ before -> snd (Children s' path) = None)
        /\ snd (Children s path) = Some err
  end.
Proof.
  revert st. induction sources as [|s sources IH]; intros st Hst; cbn.
  - split_and!; [apply Hst|set_solver|]. intros c. set_solver.
  - destruct (Children s path) as [children [err|]] eqn:Hs.
    + split; [done|]. exists [], s, sources. rewrite Hs. split_and!; [done|set_solver|done].
    + destruct (gather_all_ok children st Hst) as [Hst' Hg]. specialize (IH _ Hst').
      destruct (fallback_Children sources path _) as [names [err|]].
      * destruct IH as (-> & before & s' & after & -> & Hb & He). split; [done|].
        exists (s :: before), s', after. split_and!; [done| |done].
        intros x [->|?]%elem_of_cons; [by rewrite Hs|auto].
      * destruct IH as (? & Hall & Hn). split_and!; [done| |].
        -- intros x [->|?]%elem_of_cons; [by rewrite Hs|auto].
        -- intros c. rewrite Hn, Hg. setoid_rewrite elem_of_cons. split.
           ++ intros [[?|?]|(x & ? & ?)]; [auto| |eauto 10].
              right. exists s. rewrite Hs. auto.
           ++ intros [?|(x & [->|?] & Hx)]; [auto| |eauto 10]. rewrite Hs in Hx. auto.
Qed.

(** * Properties *)

(** Several sources answer as the first that carries a path: the ones before
    it said they do not, and the ones after it are not consulted. A source that
    cannot be consulted ends the search with its own error, before any source
    beneath it. A key is listed once, by whichever sources list it, unless one
    of them cannot be consulted. *)
Theorem Sources_take_the_first (sources : list Source) (path : list string) :
  2 <= length sources ->
  let composed := Sources (map Some sources) in
  (forall before s after value, sources = before ++ s :: after ->
     (forall s', s' ∈ before -> exists v, Value s' path = (v, false, None)) ->
     (Value s path = (value, true, None) -> Value composed path = (value, true, None))
     /\ (forall v b err, Value s path = (v, b, Some err) ->
           Value composed path = (EmptyString, false, Some err)))
  /\ ((forall s, s ∈ sources -> exists v, Value s path = (v, false, None)) ->
        Value composed path = (EmptyString, false, None))
  /\ match Children composed path with
     | (names, None) =>
         NoDup names /\ forall c, c ∈ names <-> exists s, s ∈ sources /\ c ∈ fst (Children s path)
     | (names, Some err) => names = [] /\ exists s, s ∈ sources /\ snd (Children s path) = Some err
     end.
Proof.
  intros Hlen composed. assert (composed = fallback sources) as ->.
  { unfold composed, Sources. assert (omap (fun s => s) (map Some sources) = sources) as ->
      by (clear; induction sources as [|s l IH]; [done|]; cbn; by rewrite IH).
    by destruct sources as [|? [|? ?]]; [..|done]; cbn in Hlen; lia. }
  clear Hlen. split_and!.
  - intros before s after value -> Hb. cbn. induction before as [|b before IH]; cbn.
    + destruct (Value s path) as [[v found] [err|]]; split; try done.
      * intros v' b' err' Heq. simplify_eq. by destruct b'.
      * by intros [= -> ->].
    + destruct (Hb b) as [v ->]; [set_solver|]. apply IH. intros. apply Hb. set_solver.
  - intros Hall. cbn. induction sources as [|s sources IH]; cbn; [done|].
    destruct (Hall s) as [v ->]; [set_solver|]. apply IH. intros. apply Hall. set_solver.
  - cbn. pose proof (fallback_Children_ok sources path (∅, []) gathered_empty) as Hc.
    destruct (fallback_Children _ _ _) as [names [err|]].
    + destruct Hc as (-> & before & s & after & -> & _ & He). split; [done|].
      exists s. split; [set_solver|done].
    + destruct Hc as (? & _ & Hn). split; [done|]. intros c. rewrite Hn; cbn. set_solver.
Qed.

(** The keys listed beneath a prefix are exactly the next segments of the
    keys that continue it, each once. *)
Theorem childrenOf_spec (keys : list string) (prefix separator child : string) :
  let prefix' := if bool_decide (prefix <> EmptyString) then (prefix ++ separator)%string
                 else prefix in
  NoDup (childrenOf keys prefix separator)
  /\ (child ∈ childrenOf keys prefix separator
      <-> exists key, key ∈ keys /\ names_child prefix' separator key child).
Proof.
  intros prefix'. unfold childrenOf. fold prefix'.
  destruct (children_foldl prefix' separator keys (∅, []) gathered_empty) as [[? _] Hx].
  split; [done|]. rewrite Hx; cbn. split; [|auto]. intros [?|?]; [set_solver|done].
Qed.
