(* ===== verification/Config.v ===== *)
(** Descriptions of settings and their combinators ([effect/config/config.go],
    [primitives.go], [composition.go], [collections.go], [structure.go],
    [secret.go], [document.go]). *)

From S2P Require Import Prelude GoStrings ConfigError ConfigSource.
From Stdlib Require Ascii.

(** [errors.New(text)] where only the text is read again. *)
Definition errors_New (text : string) : error := MkError 0 text [].

(** What [fmt.Sprintf("%v", value)] prints for a type of settings. *)
Class Formatted (A : Type) : Type := sprint_value : A -> string.

(** The nil map. *)
#[export] Instance zero_map A : Zero (gmap string A) := (∅ : gmap string A).

(** * Secrets ([secret.go]) *)

Record Secret : Type := MkSecret { secret_value : string }.

Definition redacted : string := "<redacted>".
Definition NewSecret (value : string) : Secret := MkSecret value.
Definition Reveal (secret : Secret) : string := secret_value secret.
Definition Secret_IsEmpty (secret : Secret) : bool :=
  bool_decide (secret_value secret = EmptyString).
Definition Secret_String (_ : Secret) : string := redacted.
Definition MarshalText (_ : Secret) : string * option error := (redacted, None).
Definition LogValue (_ : Secret) : string := redacted.

#[export] Instance zero_Secret : Zero Secret := MkSecret EmptyString.
#[export] Instance formatted_string : Formatted string := fun s => s.
#[export] Instance formatted_Z : Formatted Z := decimal.
#[export] Instance formatted_bool : Formatted bool := fun b => if b then "true" else "false".
#[export] Instance formatted_Secret : Formatted Secret := Secret_String.

(** * Descriptions ([config.go]) *)

Record Expectation : Type := MkExpectation {
  exp_Path : list string;
  exp_Type : string;
  exp_Description : string;
  exp_Default : string;
  exp_Optional : bool;
  exp_Secret : bool
}.

Definition expectation (path : list string) (type : string) : Expectation :=
  MkExpectation path type EmptyString EmptyString false false.

Record cursor : Type := MkCursor { cursor_source : Source; cursor_path : list string }.

Definition under (at_ : cursor) (name : string) : cursor :=
  if bool_decide (name = EmptyString) then at_
  else MkCursor (cursor_source at_) (cursor_path at_ ++ [name]).

(** [read] is nil in a description nobody built. *)
Record Config (A : Type) : Type := MkConfig {
  read : option (cursor -> A * Error);
  expects : list Expectation
}.
Arguments MkConfig {A} _ _.
Arguments read {A} _.
Arguments expects {A} _.

Definition errZeroDescription : Error :=
  Invalid "described; the zero Config describes nothing" [].

Definition errNoSource : error := MkError 401 "config: no source to read from" [].

Definition reader {A} `{Zero A} (description : Config A) : cursor -> A * Error :=
  match read description with
  | Some read => read
  | None => fun _ => (zero A, errZeroDescription)
  end.

Definition Read {A} `{Zero A} (source : option Source) (description : Config A) : A * Error :=
  match source with
  | None => (zero A, Unavailable (Some errNoSource) [])
  | Some source => reader description (MkCursor source [])
  end.

Definition Expects {A} (description : Config A) : list Expectation := expects description.

Definition Map {A B} `{Zero A} `{Zero B} (description : Config A) (transform : A -> B)
    : Config B :=
  MkConfig
    (Some (fun at_ =>
       let '(value, failure) := reader description at_ in
       if negb (IsEmpty failure) then (zero B, failure) else (transform value, no_error)))
    (expects description).

Definition subject {A} (description : Config A) : list string :=
  match expects description with [] => [] | e :: _ => exp_Path e end.

Definition MapOrFail {A B} `{Zero A} `{Zero B} (description : Config A)
    (transform : A -> B * option error) : Config B :=
  MkConfig
    (Some (fun at_ =>
       let '(value, failure) := reader description at_ in
       if negb (IsEmpty failure) then (zero B, failure)
       else
         let '(result, err) := transform value in
         match err with
         | Some err =>
             (zero B, Invalid (error_text err) (cursor_path at_ ++ subject description))
         | None => (result, no_error)
         end))
    (expects description).

Definition Validate {A} `{Zero A} (description : Config A) (message : string) (keep : A -> bool)
    : Config A :=
  MapOrFail description (fun value =>
    if negb (keep value) then (value, Some (errors_New message)) else (value, None)).

Definition describe (doc : string) (e : Expectation) : Expectation :=
  if bool_decide (exp_Description e = EmptyString)
  then MkExpectation (exp_Path e) (exp_Type e) doc (exp_Default e) (exp_Optional e)
         (exp_Secret e)
  else e.

Definition WithDescription {A} (description : Config A) (doc : string) : Config A :=
  MkConfig (read description) (map (describe doc) (expects description)).

Definition prefixExpectations (name : string) (expectations : list Expectation)
    : list Expectation :=
  if bool_decide (name = EmptyString) then expectations
  else map (fun e => MkExpectation (name :: exp_Path e) (exp_Type e) (exp_Description e)
                       (exp_Default e) (exp_Optional e) (exp_Secret e)) expectations.

(** * Primitives ([primitives.go]) *)

Definition pathOf (name : string) : list string :=
  if bool_decide (name = EmptyString) then [] else [name].

Definition Of {A} `{Zero A} (name reads : string) (parse : string -> A * option error)
    : Config A :=
  MkConfig
    (Some (fun at_ =>
       let here := under at_ name in
       match Value (cursor_source here) (cursor_path here) with
       | (_, _, Some err) => (zero A, Unavailable (Some err) (cursor_path here))
       | (_, false, None) => (zero A, Missing (cursor_path here))
       | (raw, true, None) =>
           match parse raw with
           | (_, Some err) => (zero A, Invalid (error_text err) (cursor_path here))
           | (value, None) => (value, no_error)
           end
       end))
    [expectation (pathOf name) reads].

Definition Text (name : string) : Config string := Of name "text" (fun raw => (raw, None)).

Definition NonEmptyText (name : string) : Config string :=
  Of name "non-empty text" (fun raw =>
    if bool_decide (TrimSpace raw = EmptyString)
    then (EmptyString, Some (errors_New "non-empty text")) else (raw, None)).

(** [strconv.Atoi]: an optional sign and decimal digits, within [int]. *)
Fixpoint digits_value (s : string) (acc : Z) : option Z :=
  match s with
  | EmptyString => Some acc
  | String a rest =>
      let n := Ascii.nat_of_ascii a in
      if (48 <=? n)%nat && (n <=? 57)%nat
      then digits_value rest (acc * 10 + (Z.of_nat n - 48))%Z else None
  end.

Definition unsigned_value (s : string) : option Z :=
  match s with EmptyString => None | _ => digits_value s 0 end.

Definition Atoi (s : string) : option Z :=
  let value :=
    match s with
    | String a rest =>
        if Ascii.eqb a (Ascii.ascii_of_nat 45) then Z.opp <$> unsigned_value rest
        else if Ascii.eqb a (Ascii.ascii_of_nat 43) then unsigned_value rest else unsigned_value s
    | EmptyString => None
    end in
  n ← value;
  if (int64_min <=? n)%Z && (n <=? int64_max)%Z then Some n else None.

Definition parse_Int (raw : string) : Z * option error :=
  match Atoi (TrimSpace raw) with
  | None => (0%Z, Some (errors_New "an integer"))
  | Some value => (value, None)
  end.

Definition Int (name : string) : Config Z := Of name "an integer" parse_Int.

(** [Float] and [Duration] over the standard library's parsers. *)
Definition Float {F} `{Zero F} (ParseFloat : string -> F * option error) (name : string)
    : Config F :=
  Of name "a number" (fun raw =>
    match ParseFloat (TrimSpace raw) with
    | (_, Some _) => (zero F, Some (errors_New "a number"))
    | (value, None) => (value, None)
    end).

Definition parse_Bool (raw : string) : bool * option error :=
  let text := ToLower (TrimSpace raw) in
  if bool_decide (text ∈ ["1"; "t"; "true"; "yes"; "y"; "on"]%string) then (true, None)
  else if bool_decide (text ∈ ["0"; "f"; "false"; "no"; "n"; "off"]%string) then (false, None)
  else (false, Some (errors_New "a flag: true or false, yes or no, on or off")).

Definition Bool (name : string) : Config bool := Of name "a flag" parse_Bool.

Definition ConfigDuration (ParseDuration : string -> Z * option error) (name : string)
    : Config Z :=
  Of name "a duration" (fun raw =>
    match ParseDuration (TrimSpace raw) with
    | (_, Some _) => (0%Z, Some (errors_New "a duration, as 250ms or 1m30s"))
    | (value, None) => (value, None)
    end).

Definition parse_Port (raw : string) : Z * option error :=
  match Atoi (TrimSpace raw) with
  | Some value =>
      if (value <? 1)%Z || (65535 <? value)%Z
      then (0%Z, Some (errors_New "a port between 1 and 65535")) else (value, None)
  | None => (0%Z, Some (errors_New "a port between 1 and 65535"))
  end.

Definition Port (name : string) : Config Z := Of name "a port" parse_Port.

Definition SecretOf (name : string) : Config Secret :=
  let secret := Of name "a secret" (fun raw => (MkSecret raw, None)) in
  MkConfig (read secret)
    (map (fun e => MkExpectation (exp_Path e) (exp_Type e) (exp_Description e) (exp_Default e)
                     (exp_Optional e) true) (expects secret)).

Definition renderDefault {A} `{Formatted A} (value : A) : string := sprint_value value.

(** * Composition ([composition.go]) *)

Definition ZipWith {A B C} `{Zero A} `{Zero B} `{Zero C} (first : Config A) (second : Config B)
    (combine : A -> B -> C) : Config C :=
  MkConfig
    (Some (fun at_ =>
       let '(lhs, lhsFailure) := reader first at_ in
       let '(rhs, rhsFailure) := reader second at_ in
       let failure := And lhsFailure rhsFailure in
       if negb (IsEmpty failure) then (zero C, failure) else (combine lhs rhs, no_error)))
    (expects first ++ expects second).

Definition all_turn {A} (at_ : cursor) (st : list A * Error) (read : cursor -> A * Error)
    : list A * Error :=
  let '(values, failure) := st in
  let '(value, refusal) := read at_ in (values ++ [value], And failure refusal).

Definition All {A} `{Zero A} (descriptions : list (Config A)) : Config (list A) :=
  MkConfig
    (Some (fun at_ =>
       let '(values, failure) := foldl (all_turn at_) ([], no_error) (map reader descriptions) in
       if negb (IsEmpty failure) then ([], failure) else (values, no_error)))
    (concat (map expects descriptions)).

Definition Nested {A} `{Zero A} (name : string) (of_ : Config A) : Config A :=
  MkConfig (Some (fun at_ => reader of_ (under at_ name)))
    (prefixExpectations name (expects of_)).

Definition with_default (rendered : string) (e : Expectation) : Expectation :=
  if bool_decide (exp_Default e = EmptyString)
  then MkExpectation (exp_Path e) (exp_Type e) (exp_Description e) rendered (exp_Optional e)
         (exp_Secret e)
  else e.

Definition optional (e : Expectation) : Expectation :=
  MkExpectation (exp_Path e) (exp_Type e) (exp_Description e) (exp_Default e) true (exp_Secret e).

Definition WithDefault {A} `{Zero A} `{Formatted A} (description : Config A) (value : A)
    : Config A :=
  MkConfig
    (Some (fun at_ =>
       let '(read, failure) := reader description at_ in
       if IsMissingOnly failure then (value, no_error) else (read, failure)))
    (map (with_default (renderDefault value)) (expects description)).

Definition OrElse {A} `{Zero A} (description that : Config A) : Config A :=
  MkConfig
    (Some (fun at_ =>
       let '(value, failure) := reader description at_ in
       if IsEmpty failure then (value, no_error)
       else
         let '(alternative, refused) := reader that at_ in
         if IsEmpty refused then (alternative, no_error) else (zero A, Or failure refused)))
    (map optional (expects description) ++ expects that).

Definition Optional {A B} `{Zero A} `{Zero B} (of_ : Config A) (present : A -> B)
    (absent : unit -> B) : Config B :=
  MkConfig
    (Some (fun at_ =>
       let '(value, failure) := reader of_ at_ in
       if IsMissingOnly failure then (absent tt, no_error)
       else if negb (IsEmpty failure) then (zero B, failure)
       else (present value, no_error)))
    (map optional (expects of_)).

(** * Collections ([collections.go]) *)

Definition typesIn (expects : list Expectation) : string :=
  match expects with [] => "values" | e :: _ => exp_Type e end.

Definition table_turn {A} (here : cursor) (read : cursor -> A * Error)
    (st : gmap string A * Error) (child : string) : gmap string A * Error :=
  let '(entries, failure) := st in
  let '(value, refusal) := read (under here child) in
  (if IsEmpty refusal then <[child := value]> entries else entries, And failure refusal).

(** The nil map of a failed table reads as the empty map. *)
Definition Table {A} `{Zero A} (name : string) (of_ : Config A) : Config (gmap string A) :=
  MkConfig
    (Some (fun at_ =>
       let here := under at_ name in
       match Children (cursor_source here) (cursor_path here) with
       | (_, Some err) => (∅, Unavailable (Some err) (cursor_path here))
       | (children, None) =>
           let '(entries, failure) := foldl (table_turn here (reader of_)) (∅, no_error) children in
           if negb (IsEmpty failure) then (∅, failure) else (entries, no_error)
       end))
    [MkExpectation (pathOf name) ("a table of " ++ typesIn (expects of_)) EmptyString EmptyString
       true false].

Definition many_turn {A} (here : cursor) (read : cursor -> A * Error) (st : list A * Error)
    (piece : string) : list A * Error :=
  let '(values, failure) := st in
  let '(value, refusal) := read (MkCursor (one (TrimSpace piece)) (cursor_path here)) in
  (values ++ [value], And failure refusal).

Definition Many {A} `{Zero A} (name separator : string) (of_ : Config A) : Config (list A) :=
  MkConfig
    (Some (fun at_ =>
       let here := under at_ name in
       match Value (cursor_source here) (cursor_path here) with
       | (_, _, Some err) => ([], Unavailable (Some err) (cursor_path here))
       | (_, false, None) => ([], Missing (cursor_path here))
       | (raw, true, None) =>
           let pieces := Split raw separator in
           let '(values, failure) := foldl (many_turn here (reader of_)) ([], no_error) pieces in
           if negb (IsEmpty failure) then ([], failure) else (values, no_error)
       end))
    [expectation (pathOf name)
       (typesIn (expects of_) ++ " separated by " ++ quote ++ separator ++ quote)].

(** * Structures ([structure.go])

    A field's [assign] is the new settings value instead of a write through a
    pointer. *)
Record Field (S : Type) : Type := MkField {
  field_read : option (cursor -> S -> S * Error);
  field_expects : list Expectation
}.
Arguments MkField {S} _ _.
Arguments field_read {S} _.
Arguments field_expects {S} _.

Definition Setting {S A} `{Zero A} (of_ : Config A) (assign : S -> A -> S) : Field S :=
  MkField
    (Some (fun at_ into =>
       let '(value, failure) := reader of_ at_ in
       if negb (IsEmpty failure) then (into, failure) else (assign into value, no_error)))
    (expects of_).

Definition struct_turn {S} (at_ : cursor) (st : S * Error) (field : Field S) : S * Error :=
  let '(value, failure) := st in
  match field_read field with
  | None => (value, And failure errZeroDescription)
  | Some read => let '(value, refusal) := read at_ value in (value, And failure refusal)
  end.

Definition Struct {S} `{Zero S} (fields : list (Field S)) : Config S :=
  MkConfig
    (Some (fun at_ =>
       let '(value, failure) := foldl (struct_turn at_) (zero S, no_error) fields in
       if negb (IsEmpty failure) then (zero S, failure) else (value, no_error)))
    (concat (map field_expects fields)).

(** * Documents ([document.go]) *)

Definition expectationText (e : Expectation) : string :=
  if bool_decide (exp_Default e <> EmptyString) then exp_Default e
  else if exp_Optional e then "optional" else "required".

(** [sort.SliceStable] by rendered path, as a stable insertion. *)
Fixpoint insert_by_path (e : Expectation) (l : list Expectation) : list Expectation :=
  match l with
  | [] => [e]
  | e' :: rest =>
      if String.leb (Render (exp_Path e)) (Render (exp_Path e')) then e :: l
      else e' :: insert_by_path e rest
  end.

Definition rowsOf (expects : list Expectation) : list (list string) :=
  map (fun e => [Render (exp_Path e); exp_Type e; expectationText e; exp_Description e])
    (foldr insert_by_path [] expects).

(** One row's cells folded into the widths, column by column; a missing column
    is the index panic. *)
Fixpoint widen (widths : list nat) (row : list string) : option (list nat) :=
  match row, widths with
  | [], _ => Some widths
  | cell :: row, width :: widths =>
      rest ← widen widths row; Some (Nat.max width (String.length cell) :: rest)
  | _ :: _, [] => None
  end.

Definition widthsOf (rows : list (list string)) : option (list nat) :=
  match rows with
  | [] => None
  | row :: _ => foldl (fun widths row => w ← widths; widen w row)
                  (Some (replicate (length row) 0)) rows
  end.

(** [strings.Repeat], which panics on a negative count. *)
Definition RepeatZ (s : string) (count : Z) : option string :=
  if (count <? 0)%Z then None else Some (Repeat s (Z.to_nat count)).

Fixpoint lineOf (row : list string) (widths : list nat) : option string :=
  match row, widths with
  | [], _ => Some EmptyString
  | [cell], _ => Some cell
  | cell :: row, width :: widths =>
      padding ← RepeatZ " " (Z.of_nat width - Z.of_nat (String.length cell) + 2);
      rest ← lineOf row widths; Some (cell ++ padding ++ rest)%string
  | _, [] => None
  end.

Definition Document (expects : list Expectation) : option string :=
  match expects with
  | [] => Some ("nothing" ++ newline)%string
  | _ =>
      let rows := rowsOf expects in
      widths ← widthsOf rows;
      foldl (fun text row =>
               text ← text; line ← lineOf row widths;
               Some (text ++ TrimRightByte ("  " ++ line) (Ascii.ascii_of_nat 32) ++ newline)%string)
        (Some EmptyString) rows
  end.

Definition Expectation_String (e : Expectation) : string :=
  let line := (Render (exp_Path e) ++ " (" ++ exp_Type e ++ ", " ++ expectationText e ++ ")")%string in
  if bool_decide (exp_Description e = EmptyString) then line
  else (line ++ ": " ++ exp_Description e)%string.

(** The error of [Load] is its text; [None] on the outside is a panic while
    printing it. *)
Definition Load {A} `{Zero A} (source : option Source) (description : Config A)
    : option (A * option string) :=
  let '(settings, failure) := Read source description in
  if negb (IsEmpty failure) then
    text ← Error_text failure; document ← Document (Expects description);
    Some (settings,
          Some (text ++ newline ++ newline ++ "what this program reads:" ++ newline ++ document)%string)
  else Some (settings, None).
