(* ===== verification/ConfigFacts.v ===== *)
(** What reading a description guarantees: everything wrong is reported at once,
    stand-ins cover absence only, a nested description reads its subtree, and
    every failure can be printed. *)

From S2P Require Import Prelude GoStrings ConfigError ConfigSource Config.

(** * Descriptions the package can build *)

Inductive built : forall A : Type, Zero A -> Config A -> Prop :=
| built_Of A z name reads parse : built A z (Of name reads parse)
| built_Secret A z name reads parse l :
    built A z (MkConfig (Config.read (Of name reads parse)) l)
| built_Map A B z z' d (f : A -> B) : built A z d -> built B z' (Map d f)
| built_MapOrFail A B z z' d (f : A -> B * option error) :
    built A z d -> built B z' (MapOrFail d f)
| built_WithDescription A z d doc : built A z d -> built A z (WithDescription d doc)
| built_ZipWith A B C z z' z'' d d' (f : A -> B -> C) :
    built A z d -> built B z' d' -> built C z'' (ZipWith d d' f)
| built_All A z ds z' : (forall d, d ∈ ds -> built A z d) -> built (list A) z' (All ds)
| built_Nested A z name d : built A z d -> built A z (Nested name d)
| built_WithDefault A z F d v : built A z d -> built A z (@WithDefault A z F d v)
| built_OrElse A z d d' : built A z d -> built A z d' -> built A z (OrElse d d')
| built_Optional A B z z' d (f : A -> B) g : built A z d -> built B z' (Optional d f g)
| built_Table A z name d z' : built A z d -> built (gmap string A) z' (Table name d)
| built_Many A z name sep d z' : built A z d -> built (list A) z' (Many name sep d)
| built_Struct S z fields : (forall f, f ∈ fields -> built_field S f) -> built S z (Struct fields)
with built_field : forall S : Type, Field S -> Prop :=
| built_Setting S A z d (assign : S -> A -> S) :
    built A z d -> built_field S (Setting d assign).

Scheme built_mut := Minimality for built Sort Prop
with built_field_mut := Minimality for built_field Sort Prop.

(** ** Failures and prefixes *)

Lemma Prefixed_leaf k prefix path m e :
  k <> KindAnd -> k <> KindOr -> k <> KindEmpty ->
  Prefixed prefix (Some (MkNode k path m e None None))
  = Some (MkNode k (prefix ++ path) m e None None).
Proof.
  intros Ha Ho He. unfold Prefixed; cbn. rewrite bool_decide_eq_false_2 by done; cbn.
  case_bool_decide as Hl; [by destruct prefix|]. by destruct k.
Qed.

Lemma IsEmpty_Prefixed prefix e : IsEmpty (Prefixed prefix e) = IsEmpty e.
Proof.
  unfold Prefixed. destruct (IsEmpty e) eqn:He; cbn [orb]; [done|].
  case_bool_decide; [done|]. destruct e as [[[] ?????]|]; done.
Qed.

Lemma Prefixed_compose prefix k e e' :
  k = KindAnd \/ k = KindOr ->
  Prefixed prefix (compose k e e') = compose k (Prefixed prefix e) (Prefixed prefix e').
Proof.
  intros Hk. unfold compose. rewrite !IsEmpty_Prefixed.
  destruct (IsEmpty e) eqn:He; [done|]. destruct (IsEmpty e') eqn:He'; [done|].
  unfold Prefixed. rewrite He, He'. destruct e as [n|]; [|done]. destruct e' as [n'|]; [|done].
  assert (IsEmpty (Some (MkNode k [] EmptyString None (Some n) (Some n'))) = false) as ->
    by (destruct Hk as [-> | ->]; done).
  cbn [orb]. case_bool_decide; [done|]. by destruct Hk as [-> | ->].
Qed.

Lemma Prefixed_And prefix e e' :
  Prefixed prefix (And e e') = And (Prefixed prefix e) (Prefixed prefix e').
Proof. apply Prefixed_compose; auto. Qed.

Lemma Prefixed_Or prefix e e' :
  Prefixed prefix (Or e e') = Or (Prefixed prefix e) (Prefixed prefix e').
Proof. apply Prefixed_compose; auto. Qed.

Lemma Prefixed_none prefix : Prefixed prefix no_error = no_error.
Proof. done. Qed.

Lemma IsMissingOnly_Prefixed prefix e : IsMissingOnly (Prefixed prefix e) = IsMissingOnly e.
Proof.
  unfold IsMissingOnly. rewrite Failures_Prefixed, length_map. case_bool_decide as Hl; [done|]. clear Hl.
  induction (Failures e) as [|x l IH]; [done|]. cbn. by rewrite IH.
Qed.

(** ** Where a description reads *)

(** Read at a path beneath a prefix, a description does what it does at the path
    in the subtree, its failures reported under the prefix. *)
Definition located {A} `{Zero A} (d : Config A) : Prop :=
  forall source prefix path,
    reader d (MkCursor source (prefix ++ path))
    = let '(value, failure) := reader d (MkCursor (subtree source prefix) path) in
      (value, Prefixed prefix failure).

Lemma under_app source prefix path name :
  under (MkCursor source (prefix ++ path)) name
  = MkCursor source (prefix ++ cursor_path (under (MkCursor (subtree source prefix) path) name)).
Proof. unfold under; cbn. case_bool_decide; [done|]. cbn. by rewrite app_assoc. Qed.

Lemma under_source at_ name : cursor_source (under at_ name) = cursor_source at_.
Proof. unfold under. by case_bool_decide. Qed.

Lemma under_subtree source prefix path name :
  under (MkCursor (subtree source prefix) path) name
  = MkCursor (subtree source prefix) (cursor_path (under (MkCursor (subtree source prefix) path) name)).
Proof. unfold under. by case_bool_decide. Qed.

Lemma Missing_app prefix path : Missing (prefix ++ path) = Prefixed prefix (Missing path).
Proof. unfold Missing. by rewrite Prefixed_leaf. Qed.
Lemma Invalid_app m prefix path : Invalid m (prefix ++ path) = Prefixed prefix (Invalid m path).
Proof. unfold Invalid. by rewrite Prefixed_leaf. Qed.
Lemma Unavailable_app e prefix path :
  Unavailable e (prefix ++ path) = Prefixed prefix (Unavailable e path).
Proof. unfold Unavailable. by rewrite Prefixed_leaf. Qed.

#[export] Hint Rewrite Missing_app Invalid_app Unavailable_app IsEmpty_Prefixed
  IsMissingOnly_Prefixed @Prefixed_none : located.

(** Use a description's own location and split on what it read. *)
Ltac locate H :=
  rewrite H; destruct (reader _ (MkCursor (subtree _ _) _)) as [? ?];
  autorewrite with located; repeat case_match; simplify_eq; autorewrite with located;
  try done.

Section Located.
  Context {A B C : Type} {z : Zero A} {z' : Zero B} {z'' : Zero C}.
  Context {zl : Zero (list A)} {zt : Zero (gmap string A)}.

Lemma located_Of name reads parse : located (Of (A := A) name reads parse).
Proof.
  intros source prefix path. cbn [reader read Of].
  rewrite under_app, (under_subtree source prefix path name). cbn [cursor_source cursor_path].
  cbn [Value subtree]. repeat case_match; simplify_eq; autorewrite with located; done.
Qed.

Lemma located_Map (d : Config A) (f : A -> B) : located d -> located (Map d f).
Proof. intros Hd source prefix path. cbn [reader read Map]. locate Hd. Qed.

Lemma located_MapOrFail (d : Config A) (f : A -> B * option error) :
  located d -> located (MapOrFail d f).
Proof.
  intros Hd source prefix path. cbn [reader read MapOrFail cursor_path].
  rewrite <- app_assoc. locate Hd.
Qed.

Lemma located_WithDescription (d : Config A) doc : located d -> located (WithDescription d doc).
Proof. intros Hd source prefix path. apply Hd. Qed.

Lemma located_ZipWith (d : Config A) (d' : Config B) (f : A -> B -> C) :
  located d -> located d' -> located (ZipWith d d' f).
Proof.
  intros Hd Hd' source prefix path. cbn [reader read ZipWith].
  rewrite Hd, Hd'. destruct (reader d _) as [a e], (reader d' _) as [b e'].
  rewrite <- Prefixed_And, IsEmpty_Prefixed. by case_match.
Qed.

Lemma located_Nested name (d : Config A) : located d -> located (Nested name d).
Proof.
  intros Hd source prefix path. cbn [reader read Nested].
  rewrite under_app, (under_subtree source prefix path name). apply Hd.
Qed.

Lemma located_WithDefault `{Formatted A} (d : Config A) v : located d -> located (WithDefault d v).
Proof. intros Hd source prefix path. cbn [reader read WithDefault]. locate Hd. Qed.

Lemma located_OrElse (d d' : Config A) : located d -> located d' -> located (OrElse d d').
Proof.
  intros Hd Hd' source prefix path. cbn [reader read OrElse].
  rewrite Hd, Hd'. destruct (reader d _) as [a e], (reader d' _) as [b e'].
  rewrite !IsEmpty_Prefixed, <- Prefixed_Or. by repeat case_match.
Qed.

Lemma located_Optional (d : Config A) (f : A -> B) g : located d -> located (Optional d f g).
Proof. intros Hd source prefix path. cbn [reader read Optional]. locate Hd. Qed.

(** A loop over readers whose states differ only by the prefix. *)
Lemma foldl_prefixed {S X} prefix (turn turn' : S * Error -> X -> S * Error) (l : list X) s e :
  (forall x s e, x ∈ l -> turn (s, Prefixed prefix e) x
     = let '(s', e') := turn' (s, e) x in (s', Prefixed prefix e')) ->
  foldl turn (s, Prefixed prefix e) l
  = let '(s', e') := foldl turn' (s, e) l in (s', Prefixed prefix e').
Proof.
  revert s e. induction l as [|x l IH]; intros s e Hturn; [done|]. cbn.
  rewrite Hturn by set_solver. destruct (turn' (s, e) x) as [s1 e1].
  apply IH. intros; apply Hturn; set_solver.
Qed.

Lemma located_All (ds : list (Config A)) :
  (forall d, d ∈ ds -> located d) -> @located _ zl (All ds).
Proof.
  intros Hds source prefix path. cbn [reader read All].
  rewrite <- (Prefixed_none prefix) at 1.
  rewrite (foldl_prefixed prefix _ (all_turn (MkCursor (subtree source prefix) path))).
  - destruct (foldl _ _ _) as [vs e]. rewrite IsEmpty_Prefixed. by case_match.
  - intros r s e Hr. apply list_elem_of_In, in_map_iff in Hr as (d & <- & Hd).
    unfold all_turn. rewrite (Hds d) by by apply list_elem_of_In.
    destruct (reader d _) as [a e']. by rewrite Prefixed_And.
Qed.

Lemma located_Table name (d : Config A) : located d -> @located _ zt (Table name d).
Proof.
  intros Hd source prefix path. cbn [reader read Table].
  rewrite under_app, (under_subtree source prefix path name). cbn [cursor_source cursor_path].
  generalize (cursor_path (under (MkCursor (subtree source prefix) path) name)) as p. intros p.
  cbn [Children subtree]. destruct (Children source (prefix ++ p)) as [children [err|]].
  - by rewrite Unavailable_app.
  - rewrite <- (Prefixed_none prefix) at 1.
    rewrite (foldl_prefixed prefix _ (table_turn (MkCursor (subtree source prefix) p) (reader d))).
    + destruct (foldl _ _ _) as [vs e]. rewrite IsEmpty_Prefixed. by case_match.
    + intros child s e _. unfold table_turn.
      rewrite under_app, (under_subtree source prefix p child), Hd; cbn [cursor_path].
      destruct (reader d _) as [a e']. by rewrite IsEmpty_Prefixed, Prefixed_And.
Qed.

Lemma located_Many name sep (d : Config A) : located d -> @located _ zl (Many name sep d).
Proof.
  intros Hd source prefix path. cbn [reader read Many].
  rewrite under_app, (under_subtree source prefix path name). cbn [cursor_source cursor_path].
  generalize (cursor_path (under (MkCursor (subtree source prefix) path) name)) as p. intros p.
  cbn [Value subtree]. destruct (Value source (prefix ++ p)) as [[raw found] [err|]].
  - rewrite Unavailable_app. by destruct found.
  - destruct found; [|by rewrite Missing_app]. rewrite <- (Prefixed_none prefix) at 1.
    rewrite (foldl_prefixed prefix _ (many_turn (MkCursor (subtree source prefix) p) (reader d))).
    + destruct (foldl _ _ _) as [vs e]. rewrite IsEmpty_Prefixed. by case_match.
    + intros piece s e _. unfold many_turn; cbn [cursor_path]. rewrite Hd.
      change (subtree (one (TrimSpace piece)) prefix) with (one (TrimSpace piece)).
      destruct (reader d _) as [a e']. by rewrite Prefixed_And.
Qed.

(** A field's location. *)
Definition located_field (f : Field A) : Prop :=
  exists r, field_read f = Some r /\ forall source prefix path into,
    r (MkCursor source (prefix ++ path)) into
    = let '(value, failure) := r (MkCursor (subtree source prefix) path) into in
      (value, Prefixed prefix failure).

Lemma located_Setting (d : Config B) (assign : A -> B -> A) :
  located d -> located_field (Setting d assign).
Proof.
  intros Hd. eexists. split; [done|]. intros source prefix path into. cbn. locate Hd.
Qed.

Lemma located_Struct (fields : list (Field A)) :
  (forall f, f ∈ fields -> located_field f) -> located (Struct fields).
Proof.
  intros Hf source prefix path. cbn [reader read Struct].
  rewrite <- (Prefixed_none prefix) at 1.
  rewrite (foldl_prefixed prefix _ (struct_turn (MkCursor (subtree source prefix) path))).
  - destruct (foldl _ _ _) as [vs e]. rewrite IsEmpty_Prefixed. by case_match.
  - intros f s e Hin. destruct (Hf f Hin) as (r & Hr & Hloc). unfold struct_turn. rewrite Hr, Hloc.
    destruct (r _ s) as [v e']. by rewrite Prefixed_And.
Qed.
End Located.

Lemma located_expects {A} {z : Zero A} (d : Config A) l :
  located d -> located (MkConfig (Config.read d) l).
Proof. intros Hd source prefix path. apply Hd. Qed.

Lemma built_located A z d : built A z d -> @located A z d.
Proof.
  apply (built_mut (fun A z d => @located A z d) (fun S f => located_field f));
    intros; try (first [apply located_Of | apply located_Map | apply located_MapOrFail
      | apply located_WithDescription | apply located_ZipWith | apply located_All
      | apply located_Nested | apply located_WithDefault | apply located_OrElse
      | apply located_Optional | apply located_Table | apply located_Many
      | apply located_Struct | apply located_Setting | apply located_expects, located_Of];
      by auto).
Qed.

(** ** What a description reports *)

Definition reads_wf {A} `{Zero A} (d : Config A) : Prop :=
  forall at_, wf_error (snd (reader d at_)) = true.

Definition field_wf {S} (f : Field S) : Prop :=
  forall r, field_read f = Some r -> forall at_ into, wf_error (snd (r at_ into)) = true.

Lemma wf_And e e' : wf_error e = true -> wf_error e' = true -> wf_error (And e e') = true.
Proof. apply error_compose_wf; auto. Qed.

Lemma wf_Or e e' : wf_error e = true -> wf_error e' = true -> wf_error (Or e e') = true.
Proof. apply error_compose_wf; auto. Qed.

Lemma foldl_wf {S X} (turn : S * Error -> X -> S * Error) (l : list X) s e :
  wf_error e = true ->
  (forall x s e, x ∈ l -> wf_error e = true -> wf_error (snd (turn (s, e) x)) = true) ->
  wf_error (snd (foldl turn (s, e) l)) = true.
Proof.
  revert s e. induction l as [|x l IH]; intros s e He Hturn; [done|]. cbn.
  pose proof (Hturn x s e ltac:(set_solver) He) as Hx.
  destruct (turn (s, e) x) as [s1 e1]. apply IH; [done|]. intros; apply Hturn; set_solver.
Qed.

(** Split on what a sub-description read and use what is known of its error. *)
Ltac split_read d H :=
  match goal with
  | at_ : cursor |- _ => pose proof (H at_); destruct (reader d at_) as [? ?]
  end.

Section Wf.
  Context {A B C : Type} {z : Zero A} {z' : Zero B} {z'' : Zero C}.
  Context {zl : Zero (list A)} {zt : Zero (gmap string A)}.

Lemma wf_Of name reads parse : reads_wf (Of (A := A) name reads parse).
Proof.
  intros at_. cbn [reader read Of].
  destruct (Value _ _) as [[raw []] [err|]]; try done. by destruct (parse raw) as [v [err|]].
Qed.

Lemma wf_Map (d : Config A) (f : A -> B) : reads_wf d -> reads_wf (Map d f).
Proof. intros Hd at_. cbn [reader read Map]. split_read d Hd. by case_match. Qed.

Lemma wf_MapOrFail (d : Config A) (f : A -> B * option error) :
  reads_wf d -> reads_wf (MapOrFail d f).
Proof.
  intros Hd at_. cbn [reader read MapOrFail]. split_read d Hd. case_match; [done|].
  by destruct (f _) as [b [err|]].
Qed.

Lemma wf_ZipWith (d : Config A) (d' : Config B) (f : A -> B -> C) :
  reads_wf d -> reads_wf d' -> reads_wf (ZipWith d d' f).
Proof.
  intros Hd Hd' at_. cbn [reader read ZipWith]. split_read d Hd. split_read d' Hd'.
  case_match; [by apply wf_And|done].
Qed.

Lemma wf_All (ds : list (Config A)) :
  (forall d, d ∈ ds -> reads_wf d) -> @reads_wf _ zl (All ds).
Proof.
  intros Hds at_. cbn [reader read All].
  assert (wf_error (snd (foldl (all_turn at_) ([], no_error) (map reader ds))) = true) as Hf.
  { apply foldl_wf; [done|]. intros r s e Hr He.
    apply list_elem_of_In, in_map_iff in Hr as (d & <- & Hd). unfold all_turn.
    pose proof (Hds d ltac:(by apply list_elem_of_In) at_) as Hw.
    destruct (reader d at_). by apply wf_And. }
  destruct (foldl _ _ _) as [vs e]. by case_match.
Qed.

Lemma wf_Nested name (d : Config A) : reads_wf d -> reads_wf (Nested name d).
Proof. intros Hd at_. apply Hd. Qed.

Lemma wf_WithDefault `{Formatted A} (d : Config A) v : reads_wf d -> reads_wf (WithDefault d v).
Proof. intros Hd at_. cbn [reader read WithDefault]. split_read d Hd. by case_match. Qed.

Lemma wf_OrElse (d d' : Config A) : reads_wf d -> reads_wf d' -> reads_wf (OrElse d d').
Proof.
  intros Hd Hd' at_. cbn [reader read OrElse]. split_read d Hd. split_read d' Hd'.
  repeat case_match; try done. by apply wf_Or.
Qed.

Lemma wf_Optional (d : Config A) (f : A -> B) g : reads_wf d -> reads_wf (Optional d f g).
Proof. intros Hd at_. cbn [reader read Optional]. split_read d Hd. by repeat case_match. Qed.

Lemma wf_Table name (d : Config A) : reads_wf d -> @reads_wf _ zt (Table name d).
Proof.
  intros Hd at_. cbn [reader read Table]. destruct (Children _ _) as [children [err|]]; [done|].
  assert (wf_error (snd (foldl (table_turn (under at_ name) (reader d)) (∅, no_error) children))
          = true) as Hf.
  { apply foldl_wf; [done|]. intros child s e _ He. unfold table_turn.
    pose proof (Hd (under (under at_ name) child)) as Hw. destruct (reader d _).
    by apply wf_And. }
  destruct (foldl _ _ _) as [vs e]. by case_match.
Qed.

Lemma wf_Many name sep (d : Config A) : reads_wf d -> @reads_wf _ zl (Many name sep d).
Proof.
  intros Hd at_. cbn [reader read Many]. destruct (Value _ _) as [[raw []] [err|]]; try done.
  assert (wf_error (snd (foldl (many_turn (under at_ name) (reader d)) ([], no_error)
                           (Split raw sep))) = true) as Hf.
  { apply foldl_wf; [done|]. intros piece s e _ He. unfold many_turn.
    pose proof (Hd (MkCursor (one (TrimSpace piece)) (cursor_path (under at_ name)))) as Hw.
    destruct (reader d _). by apply wf_And. }
  destruct (foldl _ _ _) as [vs e]. by case_match.
Qed.

Lemma wf_Setting (d : Config B) (assign : A -> B -> A) : reads_wf d -> field_wf (Setting d assign).
Proof. intros Hd r [= <-] at_ into. cbn. split_read d Hd. by case_match. Qed.

Lemma wf_Struct (fields : list (Field A)) :
  (forall f, f ∈ fields -> field_wf f) -> reads_wf (Struct fields).
Proof.
  intros Hf at_. cbn [reader read Struct].
  assert (wf_error (snd (foldl (struct_turn at_) (z, no_error) fields)) = true) as Hw.
  { apply foldl_wf; [done|]. intros f s e Hin He. unfold struct_turn.
    destruct (field_read f) as [r|] eqn:Hr; [|by apply wf_And].
    pose proof (Hf f Hin r Hr at_ s) as Hw. destruct (r at_ s). by apply wf_And. }
  unfold zero. destruct (foldl _ _ _) as [vs e]. by case_match.
Qed.
End Wf.

Lemma wf_expects {A} {z : Zero A} (d : Config A) l :
  reads_wf d -> reads_wf (MkConfig (Config.read d) l).
Proof. intros Hd at_. apply Hd. Qed.

Lemma built_wf A z d : built A z d -> @reads_wf A z d.
Proof.
  apply (built_mut (fun A z d => @reads_wf A z d) (fun S f => field_wf f));
    intros; try (first [apply wf_Of | apply wf_Map | apply wf_MapOrFail
      | apply wf_ZipWith | apply wf_All | apply wf_Nested | apply wf_WithDefault
      | apply wf_OrElse | apply wf_Optional | apply wf_Table | apply wf_Many
      | apply wf_Struct | apply wf_Setting | apply wf_expects, wf_Of | apply wf_expects];
      by auto).
Qed.

#[local] Instance zero_pair A B `{Zero A} `{Zero B} : Zero (A * B) := (zero A, zero B).
#[local] Instance formatted_pair : Formatted (string * Z) :=
  fun '(host, port) => (host ++ " " ++ decimal port)%string.

(** ** Loops over readers *)

Lemma foldl_failures {S X} (turn : S * Error -> X -> S * Error) (report : X -> Error)
    (l : list X) s e :
  (forall x s e, x ∈ l -> snd (turn (s, e) x) = And e (report x)) ->
  Failures (snd (foldl turn (s, e) l)) = Failures e ++ concat (map (fun x => Failures (report x)) l)
  /\ IsEmpty (snd (foldl turn (s, e) l)) = IsEmpty e && forallb (fun x => IsEmpty (report x)) l.
Proof.
  revert s e. induction l as [|x l IH]; intros s e Hturn; cbn.
  - by rewrite app_nil_r, andb_true_r.
  - pose proof (Hturn x s e ltac:(set_solver)) as Hx. destruct (turn (s, e) x) as [s1 e1].
    cbn in Hx. subst e1. destruct (IH s1 (And e (report x))) as [Hf He];
      [intros; apply Hturn; set_solver|]. rewrite Hf, He.
    by rewrite Failures_And, IsEmpty_And, <- app_assoc, andb_assoc.
Qed.

Lemma forallb_map {X Y} (f : Y -> bool) (g : X -> Y) (l : list X) :
  forallb f (map g l) = forallb (fun x => f (g x)) l.
Proof. induction l as [|x l IH]; [done|]. cbn. by rewrite IH. Qed.

(** What a field reports, whatever has been assigned so far. *)
Definition field_error {S} `{Zero S} (f : Field S) (at_ : cursor) : Error :=
  match field_read f with None => errZeroDescription | Some r => snd (r at_ (zero S)) end.

Lemma built_field_independent S f (z : Zero S) :
  built_field S f -> forall at_ into r, field_read f = Some r ->
  snd (r at_ into) = field_error f at_.
Proof.
  intros Hf at_ into r Hr. destruct Hf as [S A zA d assign _]. injection Hr as <-.
  unfold field_error; cbn. destruct (reader d at_). by case_match.
Qed.

Lemma Failures_nil_IsEmpty e : wf_error e = true -> Failures e = [] -> IsEmpty e = true.
Proof. intros Hw Hf. destruct (IsEmpty e) eqn:He; [done|]. by apply wf_Failures in Hf. Qed.

(** * Properties *)

(** C26. A description that needs several values reports everything that is
    wrong with all of them, in the order it asks, and produces a value only when
    all of them were read: pairs, lists and structures alike. *)
Theorem everything_wrong_is_reported {A B C S} {zA : Zero A} {zB : Zero B} {zC : Zero C}
    {zS : Zero S} (d : Config A) (d' : Config B) (combine : A -> B -> C)
    (ds : list (Config A)) (fields : list (Field S)) (at_ : cursor) :
  (forall f, f ∈ fields -> built_field S f) ->
  (let '(a, e) := reader d at_ in let '(b, e') := reader d' at_ in
   let '(c, failure) := reader (ZipWith d d' combine) at_ in
   Failures failure = Failures e ++ Failures e'
   /\ (if IsEmpty e && IsEmpty e' then c = combine a b else c = zero C))
  /\ (let '(values, failure) := reader (All ds) at_ in
      Failures failure = concat (map (fun d => Failures (snd (reader d at_))) ds)
      /\ (if forallb (fun d => IsEmpty (snd (reader d at_))) ds
          then values = map (fun d => fst (reader d at_)) ds else values = []))
  /\ (let '(value, failure) := reader (Struct fields) at_ in
      Failures failure = concat (map (fun f => Failures (field_error f at_)) fields)
      /\ (forallb (fun f => IsEmpty (field_error f at_)) fields = false -> value = zero S)).
Proof.
  intros Hfields. split_and!.
  - cbn [reader read ZipWith]. destruct (reader d at_) as [a e], (reader d' at_) as [b e'].
    rewrite IsEmpty_And. destruct (IsEmpty e && IsEmpty e') eqn:He; cbn [negb].
    + split; [|done]. rewrite <- Failures_And. assert (IsEmpty (And e e') = true) as Hemp
        by by rewrite IsEmpty_And. by destruct (And e e') as [[[] ?????]|].
    + by rewrite Failures_And.
  - cbn [reader read All].
    destruct (foldl_failures (all_turn at_) (fun r => snd (r at_)) (map reader ds) [] no_error)
      as [Hf He]; [intros r s e _; unfold all_turn; by destruct (r at_)|].
    assert (forall l acc e, fst (foldl (all_turn at_) (acc, e) (map (reader (A := A)) l))
      = acc ++ map (fun d => fst (reader d at_)) l) as Hvals.
    { induction l as [|x l IH]; intros acc e; cbn [map foldl]; [by rewrite app_nil_r|].
      assert (all_turn at_ (acc, e) (reader x)
              = (acc ++ [fst (reader x at_)], And e (snd (reader x at_)))) as ->
        by (unfold all_turn; by destruct (reader x at_)).
      by rewrite IH, <- app_assoc. }
    specialize (Hvals ds [] no_error). destruct (foldl _ _ _) as [vs e]; cbn in *.
    rewrite map_map in Hf. rewrite forallb_map in He. rewrite He.
    destruct (forallb _ ds) eqn:Hall; cbn [negb]; [|done].
    rewrite <- Hf. split; [|done]. by destruct e as [[[] ?????]|].
  - cbn [reader read Struct].
    destruct (foldl_failures (struct_turn at_) (fun f => field_error f at_) fields zS no_error)
      as [Hf He].
    { intros f s e Hin. unfold struct_turn.
      destruct (field_read f) as [r|] eqn:Hr; [|by unfold field_error; rewrite Hr].
      pose proof (built_field_independent S f zS (Hfields f Hin) at_ s r Hr) as Hi.
      destruct (r at_ s). cbn in *. by rewrite Hi. }
    unfold zero. destruct (foldl _ _ _) as [v e]; cbn in *. rewrite He.
    destruct (forallb _ fields) eqn:Hall; cbn [negb]; [|done].
    split; [|done]. rewrite <- Hf. by destruct e as [[[] ?????]|].
Qed.

(** A stand-in covers absence and nothing else. A default or an absent case
    is used exactly when there was a failure and every leaf of it is a path
    nobody supplied; a refused value or an unreachable source is reported
    unchanged; a value that was read is kept. An alternative is tried after any
    failure, and when it fails too both sets of failures are kept. *)
Theorem stand_ins_cover_absence_only {A B} {zA : Zero A} {zB : Zero B} `{Formatted A}
    (d d' : Config A) (v : A) (present : A -> B) (absent : unit -> B) (at_ : cursor) :
  let '(a, e) := reader d at_ in
  reader (WithDefault d v) at_
    = (if IsMissingOnly e then (v, no_error) else (a, e))
  /\ reader (Optional d present absent) at_
    = (if IsMissingOnly e then (absent tt, no_error)
       else if IsEmpty e then (present a, no_error) else (zero B, e))
  /\ (let '(a', e') := reader d' at_ in
      reader (OrElse d d') at_
      = (if IsEmpty e then (a, no_error) else if IsEmpty e' then (a', no_error)
         else (zero A, Or e e'))
      /\ Failures (Or e e') = Failures e ++ Failures e')
  /\ (IsMissingOnly e = true <-> Failures e <> []
        /\ Forall (fun leaf => failure_Kind leaf = KindMissing) (Failures e)).
Proof.
  destruct (reader d at_) as [a e] eqn:Hd. split_and!.
  - cbn [reader read WithDefault]. by rewrite Hd.
  - cbn [reader read Optional]. rewrite Hd. by destruct (IsMissingOnly e), (IsEmpty e).
  - destruct (reader d' at_) as [a' e'] eqn:Hd'. split; [|apply Failures_Or].
    cbn [reader read OrElse]. by rewrite Hd, Hd'.
  - apply IsMissingOnly_spec.
Qed.

(** C13. Nesting a description under a name reads exactly what the description
    reads from the subtree at that name, and reports the same failures with the
    name in front of their paths. *)
Theorem Nested_reads_the_subtree {A} {z : Zero A} (d : Config A) (source : Source)
    (name : string) :
  built A z d -> name <> EmptyString ->
  Read (Some source) (Nested name d)
  = let '(value, failure) := Read (Beneath (Some source) [name]) d in
    (value, Prefixed [name] failure).
Proof.
  intros Hb Hn. unfold Read. cbn [reader read Nested Beneath length].
  rewrite bool_decide_eq_false_2 by done. unfold under. rewrite bool_decide_eq_false_2 by done.
  cbn [cursor_source cursor_path]. exact (built_located A z d Hb source [name] []).
Qed.

(** ** Documents *)

Definition fits (row : list string) (widths : list nat) : Prop :=
  Forall2 (fun cell width => String.length cell <= width) row widths.

Lemma widen_fits row widths :
  length row = length widths ->
  exists widths', widen widths row = Some widths' /\ length widths' = length widths
    /\ fits row widths' /\ (forall r, fits r widths -> fits r widths').
Proof.
  revert widths. induction row as [|cell row IH]; intros [|width widths] Hlen; try done.
  - exists []. split_and!; [done|done|by constructor|done].
  - injection Hlen as Hlen. destruct (IH widths Hlen) as (ws & Hw & Hl & Hf & Hk).
    exists (Nat.max width (String.length cell) :: ws). cbn. rewrite Hw; cbn.
    split_and!; [done|by rewrite Hl|constructor; [lia|done]|].
    intros [|c r] Hr; inversion Hr; subst. constructor; [lia|]. by apply Hk.
Qed.

Lemma widths_fit rows widths n :
  Forall (fun row => length row = n) rows -> length widths = n ->
  exists widths',
    foldl (fun widths row => w ← widths; widen w row) (Some widths) rows = Some widths'
    /\ length widths' = n /\ Forall (fun row => fits row widths') rows
    /\ (forall r, fits r widths -> fits r widths').
Proof.
  revert widths. induction rows as [|row rows IH]; intros widths Hrows Hlen.
  - exists widths. by split_and!.
  - apply Forall_cons in Hrows as [Hrow Hrows].
    destruct (widen_fits row widths) as (w1 & Hw1 & Hl1 & Hf1 & Hk1); [congruence|].
    destruct (IH w1 Hrows) as (w2 & Hw2 & Hl2 & Hf2 & Hk2); [congruence|].
    exists w2. cbn. rewrite Hw1. split_and!; [done|done|constructor; [auto|done]|auto].
Qed.

Lemma lineOf_fits row widths : fits row widths -> is_Some (lineOf row widths).
Proof.
  induction 1 as [|cell width row widths Hc Hf IH]; [cbn; eauto|].
  destruct row as [|cell' row]; [cbn; eauto|].
  assert (lineOf (cell :: cell' :: row) (width :: widths)
          = padding ← RepeatZ " " (Z.of_nat width - Z.of_nat (String.length cell) + 2);
            rest ← lineOf (cell' :: row) widths; Some (cell ++ padding ++ rest)%string) as -> by done.
  unfold RepeatZ. destruct (Z.ltb_spec (Z.of_nat width - Z.of_nat (String.length cell) + 2) 0); [lia|].
  destruct IH as [rest ->]. cbn. eauto.
Qed.

Lemma rowsOf_length l : Forall (fun row => length row = 4) (rowsOf l).
Proof.
  unfold rowsOf. apply Forall_forall. intros row Hr.
  apply list_elem_of_In, in_map_iff in Hr as (e & <- & _). done.
Qed.

Lemma rowsOf_nonempty e l : rowsOf (e :: l) <> [].
Proof.
  unfold rowsOf; cbn. generalize (foldr insert_by_path [] l). intros k. destruct k as [|e' k]; [done|].
  cbn. by destruct (String.leb _ _).
Qed.

Lemma widthsOf_fits rows :
  rows <> [] -> Forall (fun row => length row = 4) rows ->
  exists widths, widthsOf rows = Some widths /\ Forall (fun row => fits row widths) rows.
Proof.
  destruct rows as [|row rows]; [done|]. intros _ Hlen. unfold widthsOf.
  pose proof Hlen as Hlen'. apply Forall_cons in Hlen' as [Hrow _].
  destruct (widths_fit (row :: rows) (replicate (length row) 0) 4) as (w & -> & _ & Hf & _);
    [done|by rewrite length_replicate|]. eauto.
Qed.

Lemma Document_total l : is_Some (Document l).
Proof.
  unfold Document. destruct l as [|e l]; [eauto|]. cbv zeta.
  destruct (widthsOf_fits (rowsOf (e :: l)) (rowsOf_nonempty e l) (rowsOf_length (e :: l)))
    as (w & -> & Hf). cbn [mbind option_bind]. revert Hf.
  assert (is_Some (Some EmptyString)) as Ht by eauto. revert Ht.
  generalize (rowsOf (e :: l)) as rows. generalize (Some EmptyString) as text. intros text rows.
  revert text. induction rows as [|r rows IH]; intros text [t ->] Hf; [cbn; eauto|].
  apply Forall_cons in Hf as [Hr Hf]. cbn. destruct (lineOf_fits r w Hr) as [line ->]. cbn.
  apply IH; eauto.
Qed.

(** Loading settings always answers: whatever the source holds and however
    it fails, every error a description reports can be printed and the table of
    what the program reads can be laid out, and an error is returned exactly
    when something was wrong. *)
Theorem Load_total {A} {z : Zero A} (d : Config A) (source : option Source) :
  built A z d ->
  wf_error (snd (Read source d)) = true
  /\ is_Some (Document (expects d))
  /\ exists settings err, Load source d = Some (settings, err)
     /\ settings = fst (Read source d)
     /\ (err = None <-> Failures (snd (Read source d)) = []).
Proof.
  intros Hb. assert (wf_error (snd (Read source d)) = true) as Hw.
  { destruct source as [s|]; [|done]. by apply built_wf. }
  destruct (Document_total (expects d)) as [doc Hdoc].
  split_and!; [done|by rewrite Hdoc|]. unfold Load, Expects.
  destruct (Read source d) as [v e]; cbn in *. destruct (IsEmpty e) eqn:He; cbn [negb].
  - exists v, None. split_and!; try done. split; [|done]. intros _.
    by destruct e as [[[] ?????]|].
  - destruct (error_renders_text e Hw) as [text Ht]. rewrite Ht, Hdoc; cbn. do 2 eexists.
    split_and!; [done|done|]. split; [done|]. intros Hf. by apply wf_Failures in Hf.
Qed.

(** ** Tables *)

Lemma table_foldl {A} (here : cursor) (rd : cursor -> A * Error) children entries e k :
  fst (foldl (table_turn here rd) (entries, e) children) !! k
  = if decide (k ∈ children)
    then (if IsEmpty (snd (rd (under here k))) then Some (fst (rd (under here k)))
          else entries !! k)
    else entries !! k.
Proof.
  revert entries e. induction children as [|c children IH]; intros entries e; [done|].
  cbn [foldl].
  assert (table_turn here rd (entries, e) c
          = (if IsEmpty (snd (rd (under here c)))
             then <[c := fst (rd (under here c))]> entries else entries,
             And e (snd (rd (under here c))))) as ->
    by (unfold table_turn; by destruct (rd (under here c))).
  destruct (rd (under here c)) as [v r] eqn:Hc; cbn [fst snd]. rewrite IH. destruct (decide (k = c)) as [->|Hne].
  - rewrite (decide_True (P := c ∈ c :: children)) by set_solver. rewrite Hc; cbn.
    destruct (IsEmpty r); [rewrite lookup_insert_eq|]; by case_decide.
  - destruct (decide (k ∈ children)).
    + rewrite (decide_True (P := k ∈ c :: children)) by set_solver.
      destruct (IsEmpty r); [by rewrite lookup_insert_ne by done|done].
    + rewrite (decide_False (P := k ∈ c :: children)) by set_solver.
      destruct (IsEmpty r); [by rewrite lookup_insert_ne by done|done].
Qed.

(** A table asks the source which keys exist and reads its entry once beneath
    each: the entries are exactly the keys the source lists, each with the value
    read beneath it, provided all of them could be read; otherwise every failure
    is reported, in the source's order, and a source that cannot list its keys
    is unavailable rather than empty. *)
Theorem Table_reads_every_key {A} {z : Zero A} (d : Config A) (name : string) (at_ : cursor) :
  let here := under at_ name in
  match Children (cursor_source here) (cursor_path here) with
  | (_, Some err) =>
      reader (Table name d) at_ = (∅, Unavailable (Some err) (cursor_path here))
  | (children, None) =>
      let '(entries, failure) := reader (Table name d) at_ in
      Failures failure = concat (map (fun c => Failures (snd (reader d (under here c)))) children)
      /\ (if forallb (fun c => IsEmpty (snd (reader d (under here c)))) children
          then forall k, entries !! k
                 = if decide (k ∈ children) then Some (fst (reader d (under here k))) else None
          else entries = ∅)
  end.
Proof.
  cbn zeta. cbn [reader read Table]. set (here := under at_ name).
  destruct (Children _ _) as [children [err|]]; [done|].
  destruct (foldl_failures (table_turn here (reader d))
    (fun c => snd (reader d (under here c))) children ∅ no_error) as [Hf He].
  { intros c s e _. unfold table_turn. by destruct (reader d _). }
  pose proof (table_foldl here (reader d) children ∅ no_error) as Hl.
  destruct (foldl _ _ _) as [entries e]; cbn [fst snd] in *. rewrite He.
  change (IsEmpty no_error) with true. change (Failures no_error) with (@nil Failure) in Hf.
  rewrite andb_true_l. cbn [app] in Hf.
  destruct (forallb _ _) eqn:Hall; cbn [negb]; [|done].
  split; [rewrite <- Hf; by destruct e as [[[] ?????]|]|]. intros k. rewrite Hl.
  case_decide as Hk; [|done]. rewrite forallb_forall in Hall.
  rewrite (Hall k) by by apply list_elem_of_In. done.
Qed.

(** A table at the root of a flat map is always empty, whatever the map
    holds: the source spells the root path as a key of its own, so no key lies
    beneath it, and the settings are neither read nor reported. The same
    settings in the environment, or one level down, are read. *)
Theorem FromMap_root_table_is_empty :
  (forall values, Forall (fun key => HasPrefix key "the root." = false) (keysOf values) ->
     forall A (z : Zero A) (d : Config A),
     Read (Some (FromMap values)) (Table EmptyString d) = (∅, no_error))
  /\ Read (Some (FromMap {["read" := "1"]})) (Table EmptyString (Int EmptyString)) = (∅, no_error)
  /\ Read (Some (EnvironmentOf ["READ=1"])) (Table EmptyString (Int EmptyString))
     = ({["read" := 1%Z]}, no_error)
  /\ Read (Beneath (Some (FromMap {["limits.read" := "1"]})) ["limits"])
       (Table EmptyString (Int EmptyString)) = ({["read" := 1%Z]}, no_error).
Proof.
  split_and!; [|vm_compute; reflexivity..]. intros values Hv A z d. unfold Read.
  cbn [reader read Table]. change (cursor_path (under (MkCursor (FromMap values) []) EmptyString))
    with (@nil string).
  change (Children (cursor_source (under (MkCursor (FromMap values) []) EmptyString)) [])
    with (childrenOf (keysOf values) "the root" ".", @None error).
  assert (childrenOf (keysOf values) "the root" "." = []) as ->; [|done].
  unfold childrenOf. change (if bool_decide ("the root" <> EmptyString) then _ else _)
    with "the root."%string.
  induction (keysOf values) as [|key keys IH]; [done|].
  apply Forall_cons in Hv as [Hk Hv]. cbn [foldl]. unfold children_turn at 2. rewrite Hk.
  by apply IH.
Qed.

(** A default on a description of several values stands in for all of them
    as soon as one is missing: a value that was supplied is dropped without a
    report. *)
Theorem composite_default_drops_supplied_values :
  let settings := ZipWith (Text "host") (Port "port") pair in
  let source := FromMap {["host" := "db.internal"]} in
  fst (Read (Some source) (Text "host")) = "db.internal"%string
  /\ Read (Some source) (WithDefault settings ("localhost"%string, 5432%Z))
     = (("localhost"%string, 5432%Z), no_error).
Proof. split; vm_compute; reflexivity. Qed.

(** A transform after an alternative blames the first description's path
    even when the value it refuses was read by the alternative. *)
Theorem refusal_blames_the_first_alternative :
  let described := Validate (OrElse (Int "PORT") (Int "FALLBACK_PORT")) "below 1024"
                     (fun port => (port <? 1024)%Z) in
  Failures (snd (Read (Some (FromMap {["FALLBACK_PORT" := "8080"]})) described))
  = [MkFailure KindInvalid ["PORT"] "below 1024" None].
Proof. vm_compute. reflexivity. Qed.
