(* ===== verification/ConfigNumbers.v ===== *)
(** Numbers as settings: reading back what was written, and the ranges a
    description accepts. *)

From S2P Require Import Prelude GoStrings ConfigError ConfigSource Config.
From Stdlib Require Import Ascii.

Lemma digit_value d : (0 <= d < 10)%Z -> Ascii.nat_of_ascii (digit d) = 48 + Z.to_nat d.
Proof. intros Hd. unfold digit. apply Ascii.nat_ascii_embedding. lia. Qed.

Lemma digits_value_digit d s acc :
  (0 <= d < 10)%Z -> digits_value (String (digit d) s) acc = digits_value s (acc * 10 + d)%Z.
Proof.
  intros Hd. cbn [digits_value]. rewrite digit_value by done.
  destruct (Nat.leb_spec 48 (48 + Z.to_nat d)); [|lia].
  destruct (Nat.leb_spec (48 + Z.to_nat d) 57); [|lia]. cbn [andb]. f_equal. lia.
Qed.

Lemma digits_value_decimal fuel z acc :
  (0 <= z < 10 ^ Z.of_nat fuel)%Z -> fuel <> 0 ->
  exists k, forall a, digits_value (decimal_fuel fuel z acc) a
    = digits_value acc (a * 10 ^ Z.of_nat k + z)%Z.
Proof.
  revert z acc. induction fuel as [|fuel IH]; intros z acc Hz Hf; [done|]. cbn [decimal_fuel].
  pose proof (Z.mod_pos_bound z 10 ltac:(lia)) as Hm. pose proof (Z.div_mod z 10 ltac:(lia)) as Hdm.
  destruct (Z.ltb_spec z 10).
  - exists 1. intros a. rewrite digits_value_digit by lia. f_equal.
    rewrite Z.mod_small by lia. lia.
  - assert (z / 10 < 10 ^ Z.of_nat fuel)%Z as Hlt.
    { apply Z.div_lt_upper_bound; [lia|]. rewrite Nat2Z.inj_succ, Z.pow_succ_r in Hz by lia. lia. }
    assert (1 <= z / 10)%Z by (apply Z.div_le_lower_bound; lia).
    destruct fuel as [|fuel]; [cbn in Hlt; lia|].
    destruct (IH (z / 10)%Z (String (digit (z mod 10)) acc)) as [k Hk]; [lia|done|].
    exists (S k). intros a. rewrite Hk, digits_value_digit by lia. f_equal.
    rewrite Nat2Z.inj_succ, Z.pow_succ_r by lia. lia.
Qed.

Lemma decimal_fuel_digits fuel z acc :
  (0 <= z)%Z -> fuel <> 0 ->
  exists d s, (0 <= d < 10)%Z /\ decimal_fuel fuel z acc = String (digit d) s.
Proof.
  revert z acc. induction fuel as [|fuel IH]; intros z acc Hz Hf; [done|]. cbn [decimal_fuel].
  pose proof (Z.mod_pos_bound z 10 ltac:(lia)) as Hm.
  destruct (Z.ltb_spec z 10); [eauto|]. destruct fuel as [|fuel]; [eauto|].
  apply IH; [|done]. apply Z.div_pos; lia.
Qed.

Lemma decimal_fuel_bound z : (0 <= z < 10 ^ Z.of_nat (S (Z.to_nat (Z.log2 z))))%Z \/ (z < 0)%Z.
Proof.
  destruct (Z.lt_ge_cases z 0) as [?|Hz]; [by right|]. left. split; [done|].
  rewrite Nat2Z.inj_succ, Z2Nat.id by apply Z.log2_nonneg.
  destruct (Z.eq_dec z 0%Z) as [->|Hne]; [cbn; lia|].
  pose proof (Z.log2_spec z ltac:(lia)) as [_ Hlt].
  eapply Z.lt_le_trans; [exact Hlt|]. apply Z.pow_le_mono_l. lia.
Qed.

Lemma unsigned_value_decimal z :
  (0 <= z)%Z -> unsigned_value (decimal_fuel (S (Z.to_nat (Z.log2 z))) z EmptyString) = Some z.
Proof.
  intros Hz. destruct (decimal_fuel_bound z) as [Hb|?]; [|lia].
  destruct (digits_value_decimal _ z EmptyString Hb) as [k Hk]; [done|].
  destruct (decimal_fuel_digits (S (Z.to_nat (Z.log2 z))) z EmptyString Hz) as (d & s & _ & Heq); [done|].
  specialize (Hk 0%Z). cbn [digits_value] in Hk. rewrite Z.mul_0_l, Z.add_0_l in Hk.
  rewrite <- Hk. unfold unsigned_value. by rewrite Heq.
Qed.

Lemma digit_not_sign d : (0 <= d < 10)%Z ->
  Ascii.eqb (digit d) (Ascii.ascii_of_nat 45) = false
  /\ Ascii.eqb (digit d) (Ascii.ascii_of_nat 43) = false /\ is_space (digit d) = false.
Proof.
  intros Hd. assert (d = 0 \/ d = 1 \/ d = 2 \/ d = 3 \/ d = 4 \/ d = 5 \/ d = 6 \/ d = 7
                     \/ d = 8 \/ d = 9)%Z as Hc by lia.
  by repeat (destruct Hc as [->|Hc]; [done|]); subst.
Qed.

Lemma Atoi_decimal n : is_int64 n -> Atoi (decimal n) = Some n.
Proof.
  intros Hn. unfold is_int64 in Hn.
  assert (forall m, (m = n) -> (x ← Some m; if (int64_min <=? x)%Z && (x <=? int64_max)%Z then Some x else None) = Some n) as Hrange.
  { intros m ->. cbn. destruct (Z.leb_spec int64_min n); [|lia].
    by destruct (Z.leb_spec n int64_max); [|lia]. }
  unfold Atoi, decimal. destruct (Z.ltb_spec n 0) as [Hneg|Hpos].
  - rewrite string_app_cons, string_app_nil_l.
    change (Ascii.eqb "-" (Ascii.ascii_of_nat 45)) with true. cbv iota.
    rewrite unsigned_value_decimal by lia. cbn [fmap option_fmap option_map]. apply Hrange. lia.
  - pose proof (unsigned_value_decimal n Hpos) as Hu.
    destruct (decimal_fuel_digits (S (Z.to_nat (Z.log2 n))) n EmptyString Hpos) as (d & s & Hd & Heq); [done|].
    rewrite Heq in *. destruct (digit_not_sign d Hd) as (-> & -> & _). rewrite Hu. by apply Hrange.
Qed.

(** ** White space *)

Fixpoint no_space (s : string) : bool :=
  match s with EmptyString => true | String a s' => negb (is_space a) && no_space s' end.

Lemma TrimSpace_no_space s : no_space s = true -> TrimSpace s = s.
Proof.
  intros Hs. unfold TrimSpace. assert (trim_left s = s) as ->.
  { destruct s as [|a s]; [done|]. cbn in *. by destruct (is_space a). }
  induction s as [|a s IH]; [done|]. cbn in *. apply andb_true_iff in Hs as [Ha Hs].
  rewrite (IH Hs). destruct s; [|done]. by destruct (is_space a).
Qed.

Lemma no_space_decimal_fuel fuel z acc :
  no_space acc = true -> no_space (decimal_fuel fuel z acc) = true.
Proof.
  revert z acc. induction fuel as [|fuel IH]; intros z acc Ha; [done|]. cbn [decimal_fuel].
  assert (no_space (String (digit (z mod 10)) acc) = true) as Hc.
  { cbn [no_space]. destruct (digit_not_sign (z mod 10)) as (_ & _ & ->); [|done].
    apply Z.mod_pos_bound. lia. }
  destruct (z <? 10)%Z; [done|]. by apply IH.
Qed.

Lemma no_space_decimal z : no_space (decimal z) = true.
Proof.
  unfold decimal. destruct (z <? 0)%Z; [|by apply no_space_decimal_fuel].
  rewrite string_app_cons, string_app_nil_l. cbn [no_space].
  by rewrite no_space_decimal_fuel.
Qed.

Lemma Atoi_range s n : Atoi s = Some n -> is_int64 n.
Proof.
  unfold Atoi, is_int64. destruct s as [|a s]; [done|].
  destruct (if Ascii.eqb a _ then _ else _) as [m|]; cbn; [|done].
  destruct (Z.leb_spec int64_min m), (Z.leb_spec m int64_max); cbn; try done.
  by intros [= <-].
Qed.

(** * Properties *)

