(* ===== verification/Schedule.v ===== *)
(** Recurrence policies ([effect/schedule.go], [schedule_policy.go],
    [schedule_backoff.go], [schedule_composition.go]).

    The code's step is a function that returns its successor; here it is a state
    with a transition, the state holding what the successive closures capture. *)

From S2P Require Import Prelude Time Algebra.

Record ScheduleDecision (Out : Type) : Type := MkDecision {
  output : Out;
  delay : Duration;
  continues : bool
}.
Arguments MkDecision {Out} _ _ _.
Arguments output {Out} _.
Arguments delay {Out} _.
Arguments continues {Out} _.

(** A schedule's driver state, its start and its step. *)
Record steps (In Out : Type) : Type := MkSteps {
  sched_state : Type;
  sched_start : sched_state;
  sched_step : sched_state -> Time -> In -> ScheduleDecision Out * sched_state
}.
Arguments MkSteps {In Out} _ _ _.
Arguments sched_state {In Out} _.
Arguments sched_start {In Out} _.
Arguments sched_step {In Out} _ _ _ _.

(** The zero schedule has no start; using it panics. *)
Definition Schedule (In Out : Type) : Type := option (steps In Out).

Definition continueSchedule {Out} (output : Out) (delay : Duration) : ScheduleDecision Out :=
  MkDecision output (if (delay <? 0)%Z then 0%Z else delay) true.

Definition stopSchedule {Out} (output : Out) : ScheduleDecision Out :=
  MkDecision output 0%Z false.

(** * Drivers *)

Record ScheduleDriver (In Out : Type) : Type := MkDriver {
  driver_steps : steps In Out;
  driver_state : sched_state driver_steps
}.
Arguments MkDriver {In Out} _ _.
Arguments driver_steps {In Out} _.
Arguments driver_state {In Out} _.

Definition Start {In Out} (schedule : Schedule In Out) : option (ScheduleDriver In Out) :=
  s ← schedule; Some (MkDriver s (sched_start s)).

Definition Next {In Out} (driver : ScheduleDriver In Out) (now : Time) (input : In)
    : ScheduleDecision Out * ScheduleDriver In Out :=
  let '(decision, next) := sched_step (driver_steps driver) (driver_state driver) now input in
  (decision, MkDriver (driver_steps driver) next).

(** * Transformations *)

Definition mapScheduleStep {In Out Out2} (s : steps In Out) (transform : Out -> Out2)
    (st : sched_state s) (now : Time) (input : In) : ScheduleDecision Out2 * sched_state s :=
  let '(decision, next) := sched_step s st now input in
  (MkDecision (transform (output decision)) (delay decision) (continues decision), next).

Definition MapOutput {In Out Out2} (schedule : Schedule In Out) (transform : Out -> Out2)
    : Schedule In Out2 :=
  s ← schedule; Some (MkSteps (sched_state s) (sched_start s) (mapScheduleStep s transform)).

Definition whileInputStep {In Out} (s : steps In Out) (predicate : In -> bool)
    (st : sched_state s) (now : Time) (input : In) : ScheduleDecision Out * sched_state s :=
  let '(decision, next) := sched_step s st now input in
  (if negb (predicate input) then MkDecision (output decision) 0%Z false else decision, next).

Definition WhileInput {In Out} (schedule : Schedule In Out) (predicate : In -> bool)
    : Schedule In Out :=
  s ← schedule; Some (MkSteps (sched_state s) (sched_start s) (whileInputStep s predicate)).

Definition whileOutputStep {In Out} (s : steps In Out) (predicate : Out -> bool)
    (st : sched_state s) (now : Time) (input : In) : ScheduleDecision Out * sched_state s :=
  let '(decision, next) := sched_step s st now input in
  (if negb (predicate (output decision)) then MkDecision (output decision) 0%Z false
   else decision, next).

Definition WhileOutput {In Out} (schedule : Schedule In Out) (predicate : Out -> bool)
    : Schedule In Out :=
  s ← schedule; Some (MkSteps (sched_state s) (sched_start s) (whileOutputStep s predicate)).

(** * Policies ([schedule_policy.go]) *)

Definition Stop {In} : Schedule In unit :=
  Some (MkSteps unit tt (fun _ _ _ => (stopSchedule tt, tt))).

Definition nextCount (count : Z) : Z :=
  if (count =? uint64_max)%Z then uint64_max else (count + 1)%Z.

Definition countStep {In} (delay : Duration) (limit : option Z) (count : Z) (_ : Time) (_ : In)
    : ScheduleDecision Z * Z :=
  let next := nextCount count in
  match limit with
  | Some limit =>
      if (limit <=? count)%Z then (stopSchedule count, next)
      else (continueSchedule count delay, next)
  | None => (continueSchedule count delay, next)
  end.

Definition normalizeDuration (duration : Duration) : Duration :=
  if (duration <? 0)%Z then 0%Z else duration.

Definition Forever {In} : Schedule In Z := Some (MkSteps Z 0%Z (countStep 0%Z None)).
Definition Recurs {In} (count : Z) : Schedule In Z :=
  Some (MkSteps Z 0%Z (countStep 0%Z (Some count))).
Definition Spaced {In} (delay : Duration) : Schedule In Z :=
  Some (MkSteps Z 0%Z (countStep (normalizeDuration delay) None)).

Definition decideElapsed (elapsed limit : Duration) : ScheduleDecision Duration :=
  if (limit <=? elapsed)%Z then stopSchedule elapsed else continueSchedule elapsed 0%Z.

(** The state is the instant of the first decision, once there has been one. *)
Definition upToStep {In} (limit : Duration) (st : option Time) (now : Time) (_ : In)
    : ScheduleDecision Duration * option Time :=
  match st with
  | None => (decideElapsed 0%Z limit, Some now)
  | Some start =>
      (decideElapsed (normalizeDuration (time_Sub now start)) limit, Some start)
  end.

Definition UpTo {In} (limit : Duration) : Schedule In Duration :=
  let limit := normalizeDuration limit in Some (MkSteps (option Time) None (upToStep limit)).

(** * Backoff ([schedule_backoff.go]) *)

Definition doubleWithin (value maximum : Duration) : Duration :=
  if (maximum <=? value)%Z || (wrap64 (maximum - value) <? value)%Z then maximum
  else wrap64 (value * 2).

Definition addWithin (lhs rhs maximum : Duration) : Duration :=
  if (maximum <=? lhs)%Z || (wrap64 (maximum - lhs) <=? rhs)%Z then maximum
  else wrap64 (lhs + rhs).

Definition exponentialStep {In} (maximum : Duration) (delay : Duration) (_ : Time) (_ : In)
    : ScheduleDecision Duration * Duration :=
  (continueSchedule delay delay, doubleWithin delay maximum).

Definition Exponential {In} (base maximum : Duration) : Schedule In Duration :=
  let base := normalizeDuration base in
  let maximum := normalizeDuration maximum in
  let base := if (maximum <? base)%Z then maximum else base in
  Some (MkSteps Duration base (exponentialStep maximum)).

Definition fibonacciStep {In} (maximum : Duration) (st : Duration * Duration) (_ : Time) (_ : In)
    : ScheduleDecision Duration * (Duration * Duration) :=
  let '(current, next) := st in
  let following := addWithin current next maximum in
  (continueSchedule current current, (next, following)).

Definition Fibonacci {In} (one maximum : Duration) : Schedule In Duration :=
  let one := normalizeDuration one in
  let maximum := normalizeDuration maximum in
  let one := if (maximum <? one)%Z then maximum else one in
  Some (MkSteps (Duration * Duration) (one, one) (fibonacciStep maximum)).

(** * Composition ([schedule_composition.go]) *)

Definition andScheduleStep {In L R} (lhs : steps In L) (rhs : steps In R)
    (st : sched_state lhs * sched_state rhs) (now : Time) (input : In)
    : ScheduleDecision (Product L R) * (sched_state lhs * sched_state rhs) :=
  let '(leftDecision, nextLeft) := sched_step lhs (fst st) now input in
  let '(rightDecision, nextRight) := sched_step rhs (snd st) now input in
  let output := ProductOf (output leftDecision) (output rightDecision) in
  (if negb (continues leftDecision) || negb (continues rightDecision) then stopSchedule output
   else continueSchedule output (Z.max (delay leftDecision) (delay rightDecision)),
   (nextLeft, nextRight)).

Definition IntersectSchedules {In L R} (lhs : Schedule In L) (rhs : Schedule In R)
    : Schedule In (Product L R) :=
  l ← lhs; r ← rhs;
  Some (MkSteps (sched_state l * sched_state r) (sched_start l, sched_start r)
          (andScheduleStep l r)).

Record ScheduleUnion (L R : Type) : Type := MkUnion {
  union_Left : L;
  union_Right : R;
  LeftContinues : bool;
  RightContinues : bool
}.
Arguments MkUnion {L R} _ _ _ _.

Definition activeMinimumDelay {L R} (lhs : ScheduleDecision L) (rhs : ScheduleDecision R)
    : Duration :=
  if negb (continues lhs) then delay rhs
  else if negb (continues rhs) then delay lhs
  else Z.min (delay lhs) (delay rhs).

Definition orScheduleStep {In L R} (lhs : steps In L) (rhs : steps In R)
    (st : sched_state lhs * sched_state rhs) (now : Time) (input : In)
    : ScheduleDecision (ScheduleUnion L R) * (sched_state lhs * sched_state rhs) :=
  let '(leftDecision, nextLeft) := sched_step lhs (fst st) now input in
  let '(rightDecision, nextRight) := sched_step rhs (snd st) now input in
  let output := MkUnion (output leftDecision) (output rightDecision)
                  (continues leftDecision) (continues rightDecision) in
  (if negb (continues leftDecision) && negb (continues rightDecision) then stopSchedule output
   else continueSchedule output (activeMinimumDelay leftDecision rightDecision),
   (nextLeft, nextRight)).

Definition UnionSchedules {In L R} (lhs : Schedule In L) (rhs : Schedule In R)
    : Schedule In (ScheduleUnion L R) :=
  l ← lhs; r ← rhs;
  Some (MkSteps (sched_state l * sched_state r) (sched_start l, sched_start r)
          (orScheduleStep l r)).

(** * Runs

    The decisions of one driver fed a list of inputs, each at its instant. *)
Fixpoint decisions_from {In Out} (s : steps In Out) (st : sched_state s)
    (inputs : list (Time * In)) : list (ScheduleDecision Out) :=
  match inputs with
  | [] => []
  | (now, input) :: rest =>
      let '(decision, next) := sched_step s st now input in
      decision :: decisions_from s next rest
  end.

Definition decisions {In Out} (schedule : Schedule In Out) (inputs : list (Time * In))
    : list (ScheduleDecision Out) :=
  match schedule with
  | None => []
  | Some s => decisions_from s (sched_start s) inputs
  end.

Section Facts.

(** ** Counting *)

Lemma nextCount_spec count : (0 <= count <= uint64_max)%Z ->
  nextCount count = Z.min uint64_max (count + 1).
Proof. unfold nextCount. intros H. destruct (Z.eqb_spec count uint64_max); lia. Qed.

Lemma count_decisions {In} d limit (inputs : list (Time * In)) count k dec :
  (0 <= count <= uint64_max)%Z -> (0 <= d)%Z ->
  decisions_from (MkSteps Z 0%Z (countStep d limit)) count inputs !! k = Some dec ->
  let c := Z.min uint64_max (count + Z.of_nat k) in
  dec = match limit with
        | Some l => if (l <=? c)%Z then stopSchedule c else MkDecision c d true
        | None => MkDecision c d true
        end.
Proof.
  intros Hc Hd. revert count k Hc. induction inputs as [|[now input] inputs IH]; intros count k Hc; [done|].
  cbn [decisions_from sched_step]. unfold countStep at 1.
  assert (forall o, continueSchedule o d = MkDecision (Out := Z) o d true) as Hcont.
  { intros o. unfold continueSchedule. destruct (Z.ltb_spec d 0); [lia|done]. }
  destruct k as [|k].
  - rewrite Z.add_0_r, Z.min_r by lia. destruct limit as [l|].
    + destruct (Z.leb_spec l count); cbn; intros [= <-]; [done|by rewrite Hcont].
    + cbn. intros [= <-]. by rewrite Hcont.
  - assert (forall rest, (let '(decision, next) := match limit with
        | Some l => if (l <=? count)%Z then (stopSchedule count, nextCount count)
                    else (continueSchedule count d, nextCount count)
        | None => (continueSchedule count d, nextCount count) end in
        decision :: rest next) !! S k = rest (nextCount count) !! k) as Hnext.
    { intros rest. destruct limit as [l|]; [|done]. by destruct (_ <=? _)%Z. }
    rewrite Hnext. intros Hk. rewrite nextCount_spec in Hk by lia.
    apply IH in Hk; [|unfold uint64_max in *; lia]. cbn zeta in *. rewrite Hk.
    replace (Z.min uint64_max (Z.min uint64_max (count + 1) + Z.of_nat k))
      with (Z.min uint64_max (count + Z.of_nat (S k))) by lia. done.
Qed.

(** ** Backoff *)

Lemma doubleWithin_spec v m :
  (0 <= v <= m)%Z -> (m <= int64_max)%Z -> doubleWithin v m = Z.min m (2 * v).
Proof.
  unfold doubleWithin, int64_max. intros Hv Hm.
  rewrite (wrap64_id (m - v)) by (unfold is_int64, int64_min, int64_max; lia).
  destruct (Z.leb_spec m v); cbn [orb]; [lia|]. destruct (Z.ltb_spec (m - v) v); [lia|].
  rewrite wrap64_id by (unfold is_int64, int64_min, int64_max; lia). lia.
Qed.

Lemma addWithin_spec a b m :
  (0 <= a <= m)%Z -> (0 <= b <= m)%Z -> (m <= int64_max)%Z -> addWithin a b m = Z.min m (a + b).
Proof.
  unfold addWithin, int64_max. intros Ha Hb Hm.
  rewrite (wrap64_id (m - a)) by (unfold is_int64, int64_min, int64_max; lia).
  destruct (Z.leb_spec m a); cbn [orb]; [lia|]. destruct (Z.leb_spec (m - a) b); [lia|].
  rewrite wrap64_id by (unfold is_int64, int64_min, int64_max; lia). lia.
Qed.

Lemma continue_nonneg (o d : Z) : (0 <= d)%Z -> continueSchedule o d = MkDecision o d true.
Proof. intros Hd. unfold continueSchedule. destruct (Z.ltb_spec d 0); [lia|done]. Qed.

Lemma exponential_decisions {In} m d (inputs : list (Time * In)) k dec start :
  (0 <= d <= m)%Z -> (m <= int64_max)%Z ->
  decisions_from (MkSteps Duration start (exponentialStep m)) d inputs !! k = Some dec ->
  dec = MkDecision (Z.min m (d * 2 ^ Z.of_nat k)) (Z.min m (d * 2 ^ Z.of_nat k)) true.
Proof.
  intros Hd Hm. revert d k Hd. induction inputs as [|[now input] inputs IH]; intros d k Hd; [done|].
  cbn [decisions_from sched_step]. unfold exponentialStep at 1. destruct k as [|k]; cbn [lookup list_lookup].
  - intros [= <-]. rewrite continue_nonneg by lia.
    replace (Z.min m (d * 2 ^ Z.of_nat 0)) with d by (cbn; lia). done.
  - intros Hk. rewrite doubleWithin_spec in Hk by lia. apply IH in Hk; [|lia].
    rewrite Hk, Nat2Z.inj_succ, Z.pow_succ_r by lia.
    pose proof (Z.pow_pos_nonneg 2 (Z.of_nat k)).
    assert (Z.min m (Z.min m (2 * d) * 2 ^ Z.of_nat k) = Z.min m (d * (2 * 2 ^ Z.of_nat k))) as ->;
      [|done].
    destruct (Z.le_gt_cases m (2 * d)); [rewrite (Z.min_l m (2 * d)) by lia|rewrite (Z.min_r m (2 * d)) by lia]; nia.
Qed.

Fixpoint fib (n : nat) : Z :=
  match n with
  | O => 1
  | S n' => match n' with O => 1 | S n'' => fib n' + fib n'' end
  end%Z.

Lemma fib_nonneg n : (1 <= fib n)%Z /\ (1 <= fib (S n))%Z.
Proof. induction n as [|n [IH1 IH2]]; [done|]. split; [done|]. change (fib (S (S n))) with (fib (S n) + fib n)%Z. lia. Qed.

Lemma fibonacci_decisions {In} m a (inputs : list (Time * In)) j k dec start :
  (0 <= a <= m)%Z -> (m <= int64_max)%Z ->
  decisions_from (MkSteps (Duration * Duration) start (fibonacciStep m))
    (Z.min m (a * fib j), Z.min m (a * fib (S j))) inputs !! k = Some dec ->
  dec = MkDecision (Z.min m (a * fib (j + k))) (Z.min m (a * fib (j + k))) true.
Proof.
  intros Ha Hm. revert j k. induction inputs as [|[now input] inputs IH]; intros j k; [done|].
  cbn [decisions_from sched_step]. unfold fibonacciStep at 1.
  destruct (fib_nonneg j) as [H1 H2].
  assert (0 <= a * fib j)%Z by nia. assert (0 <= a * fib (S j))%Z by nia.
  destruct k as [|k]; cbn [lookup list_lookup].
  - intros [= <-]. rewrite continue_nonneg by lia. by rewrite Nat.add_0_r.
  - rewrite addWithin_spec by lia.
    replace (Z.min m (Z.min m (a * fib j) + Z.min m (a * fib (S j))))
      with (Z.min m (a * fib (S (S j))))
      by (change (fib (S (S j))) with (fib (S j) + fib j)%Z; lia).
    intros Hk. apply IH in Hk. by rewrite <- Nat.add_succ_comm.
Qed.

(** * Properties *)

(** A counting policy recurs exactly as often as it says: fed any inputs,
    its k-th decision continues if and only if k is below the count, with the
    number so far as output, which saturates instead of wrapping. *)
Theorem Recurs_counts {In} (n : Z) (inputs : list (Time * In)) (k : nat)
    (dec : ScheduleDecision Z) :
  is_uint64 n -> (Z.of_nat k <= uint64_max)%Z ->
  decisions (Recurs n) inputs !! k = Some dec ->
  output dec = Z.of_nat k /\ continues dec = (Z.of_nat k <? n)%Z /\ delay dec = 0%Z.
Proof.
  intros Hn Hk Hd. unfold decisions, Recurs in Hd; cbn [sched_start] in Hd.
  apply count_decisions in Hd; [|unfold uint64_max; lia|lia]. cbn zeta in Hd.
  rewrite Z.add_0_l, Z.min_r in Hd by lia.
  destruct (Z.leb_spec n (Z.of_nat k)), (Z.ltb_spec (Z.of_nat k) n); try lia; by subst dec.
Qed.

(** C30. Backoff delays are exactly the doubled, respectively Fibonacci, multiples
    of the first one, capped at the maximum and never negative: no durations
    overflow, however long the policy runs. *)
Theorem backoff_delays {In} (base maximum : Duration) (inputs : list (Time * In)) (k : nat) :
  is_int64 base -> is_int64 maximum ->
  let base' := Z.max 0 base in let maximum' := Z.max 0 maximum in
  (forall dec, decisions (Exponential base maximum) inputs !! k = Some dec ->
     continues dec = true /\ delay dec = Z.min maximum' (base' * 2 ^ Z.of_nat k)%Z
     /\ output dec = delay dec /\ (0 <= delay dec <= maximum')%Z)
  /\ (forall dec, decisions (Fibonacci base maximum) inputs !! k = Some dec ->
     continues dec = true /\ delay dec = Z.min maximum' (base' * fib k)%Z
     /\ output dec = delay dec /\ (0 <= delay dec <= maximum')%Z).
Proof.
  intros Hb Hm base' maximum'. unfold is_int64 in *.
  assert (forall d, normalizeDuration d = Z.max 0 d) as Hnorm.
  { intros d. unfold normalizeDuration. destruct (Z.ltb_spec d 0); lia. }
  pose proof (fib_nonneg k) as [Hfib _]. pose proof (Z.pow_pos_nonneg 2 (Z.of_nat k)) as Hpow.
  split; intros dec Hd; unfold decisions, Exponential, Fibonacci in Hd; cbv zeta in Hd; cbn [sched_start] in Hd;
    rewrite !Hnorm in Hd; fold base' maximum' in Hd.
  - apply exponential_decisions in Hd;
      [|destruct (Z.ltb_spec maximum' base'); unfold base', maximum', int64_max in *; lia..].
    subst dec; cbn. destruct (Z.ltb_spec maximum' base'); split_and!; try done;
      unfold base', maximum' in *; nia.
  - set (one := if (maximum' <? base')%Z then maximum' else base') in Hd.
    assert (one = Z.min maximum' base') as Hone
      by (unfold one; destruct (Z.ltb_spec maximum' base'); lia).
    rewrite (fibonacci_decisions maximum' one inputs 0 k dec (one, one)).
    + cbn. rewrite Hone. split_and!; try done; unfold base', maximum' in *; nia.
    + rewrite Hone. unfold base', maximum'. lia.
    + unfold maximum', int64_max in *. lia.
    + cbn [fib]. rewrite !Z.mul_1_r, !Z.min_r by lia. exact Hd.
Qed.

(** A composite policy is exactly its two parts run side by side on the same
    inputs. An intersection continues while both parts do and waits for the longer
    delay; a union continues while either does and waits for the shortest delay
    among the parts still continuing. Neither part's state is disturbed by the
    other's having stopped. *)
Theorem composites_pair_their_parts {In L R} (l : steps In L) (r : steps In R)
    (inputs : list (Time * In)) :
  let dl := decisions (Some l) inputs in
  let dr := decisions (Some r) inputs in
  decisions (IntersectSchedules (Some l) (Some r)) inputs
  = zip_with (fun a b =>
      let o := ProductOf (output a) (output b) in
      if continues a && continues b
      then MkDecision o (Z.max 0 (Z.max (delay a) (delay b))) true
      else MkDecision o 0%Z false) dl dr
  /\ decisions (UnionSchedules (Some l) (Some r)) inputs
  = zip_with (fun a b =>
      let o := MkUnion (output a) (output b) (continues a) (continues b) in
      match continues a, continues b with
      | true, true => MkDecision o (Z.max 0 (Z.min (delay a) (delay b))) true
      | true, false => MkDecision o (Z.max 0 (delay a)) true
      | false, true => MkDecision o (Z.max 0 (delay b)) true
      | false, false => MkDecision o 0%Z false
      end) dl dr.
Proof.
  unfold decisions; cbn. generalize (sched_start l, sched_start r) at 1 3. intros start.
  generalize (sched_start l), (sched_start r).
  assert (forall A (o : A) d, continueSchedule o d = MkDecision o (Z.max 0 d) true) as Hc.
  { intros A o d. unfold continueSchedule. f_equal. destruct (Z.ltb_spec d 0); lia. }
  induction inputs as [|[now input] inputs IH]; intros sl sr; [done|].
  cbn. unfold andScheduleStep, orScheduleStep; cbn.
  destruct (sched_step l sl now input) as [da sl'], (sched_step r sr now input) as [db sr']; cbn.
  destruct (IH sl' sr') as [IHi IHu].
  destruct da as [oa ea []], db as [ob eb []]; cbn -[Z.max Z.min] in *;
    split; (apply (f_equal2 cons); [by rewrite ?Hc|done]).
Qed.

(** A transformed policy keeps the state of the one it wraps: [MapOutput]
    rewrites outputs only, and the [While] forms turn exactly the decisions whose
    input, respectively output, is refused into stops without a delay. *)
Theorem transformations_act_per_decision {In Out Out2} (s : steps In Out)
    (transform : Out -> Out2) (onInput : In -> bool) (onOutput : Out -> bool)
    (inputs : list (Time * In)) :
  let ds := decisions (Some s) inputs in
  let stopped d := MkDecision (output d) 0%Z false in
  decisions (MapOutput (Some s) transform) inputs
  = (fun d => MkDecision (transform (output d)) (delay d) (continues d)) <$> ds
  /\ decisions (WhileInput (Some s) onInput) inputs
  = zip_with (fun d i => if onInput (snd i) then d else stopped d) ds inputs
  /\ decisions (WhileOutput (Some s) onOutput) inputs
  = (fun d => if onOutput (output d) then d else stopped d) <$> ds.
Proof.
  unfold decisions; cbn. generalize (sched_start s) at 1 4 7. intros start.
  generalize (sched_start s).
  induction inputs as [|[now input] inputs IH]; intros st; [done|].
  cbn. unfold mapScheduleStep, whileInputStep, whileOutputStep; cbn.
  destruct (sched_step s st now input) as [d st']; cbn.
  destruct (IH st') as (IHm & IHi & IHo).
  split_and!; (apply (f_equal2 cons); [|done]); [done|..].
  - by destruct (onInput input).
  - by destruct (onOutput (output d)).
Qed.

End Facts.
