(* ===== verification/Jitter.v ===== *)
(** Delays scaled by an injected random fraction ([effect/schedule_jitter.go]).

    A [float64] is the Standard Library's specification of binary64, so its arithmetic
    is computed here, exactly and without axioms. *)

From Stdlib Require Import Floats.SpecFloat.
From S2P Require Import Prelude Time Schedule.

Open Scope Z_scope.

(** * [float64] *)

Definition float64 : Type := spec_float.

Definition fadd : float64 -> float64 -> float64 := SFadd 53 1024.
Definition fsub : float64 -> float64 -> float64 := SFsub 53 1024.
Definition fmul : float64 -> float64 -> float64 := SFmul 53 1024.

(** [float64(n)], rounded to the nearest. *)
Definition of_int64 (n : Z) : float64 := binary_normalize 53 1024 n 0 false.

Definition fzero : float64 := S754_zero false.
Definition fone : float64 := of_int64 1.

Definition IsNaN (f : float64) : bool := match f with S754_nan => true | _ => false end.
Definition IsInf (f : float64) : bool := match f with S754_infinity s => negb s | _ => false end.

(** The integer part of [m * 2 ^ e]. *)
Definition truncate (m : positive) (e : Z) : Z := if 0 <=? e then Zpos m * 2 ^ e else Zpos m / 2 ^ (- e).

Section Jitter.
  (** What converting a float that no [int64] is near to gives, which Go leaves to the
      implementation. *)
  Context (unrepresentable : float64 -> Z).

(** [int64(f)]. *)
Definition to_int64 (f : float64) : Z :=
  match f with
  | S754_zero _ => 0
  | S754_finite s m e =>
      let n := if s then - truncate m e else truncate m e in
      if bool_decide (is_int64 n) then n else unrepresentable f
  | _ => unrepresentable f
  end.

(** * Jitter *)

Definition nonNegativeFactor (factor : float64) : float64 :=
  if IsNaN factor || SFltb factor fzero then fzero else factor.

Definition normalizeJitterBounds (minimum maximum : float64) : float64 * float64 :=
  let minimum := nonNegativeFactor minimum in
  let maximum := nonNegativeFactor maximum in
  let maximum := if SFltb maximum minimum then minimum else maximum in
  (minimum, maximum).

Definition normalizeFraction (fraction : float64) : float64 :=
  if IsNaN fraction || SFltb fraction fzero then fzero
  else if SFltb fone fraction then fone
  else fraction.

Definition scaleDuration (duration : Duration) (factor : float64) : Duration :=
  let nanos := fmul (of_int64 (normalizeDuration duration)) factor in
  if IsInf nanos || SFleb (of_int64 int64_max) nanos then int64_max
  else to_int64 nanos.

(** The product is rounded before it is added to, which is what Go does where it does
    not fuse the two. *)
Definition jitterFactor (fraction minimum maximum : float64) : float64 :=
  fadd minimum (fmul (normalizeFraction fraction) (fsub maximum minimum)).

(** [fractions n] is what the injected function returns to the driver when it is called
    for the [n]th time; the state counts the calls. *)
Definition jitterStep {In Out} (s : steps In Out) (fractions : nat -> float64) (minimum maximum : float64)
    (st : sched_state s * nat) (now : Time) (input : In) : ScheduleDecision Out * (sched_state s * nat) :=
  let '(decision, next) := sched_step s st.1 now input in
  if continues decision then
    (MkDecision (output decision)
       (scaleDuration (delay decision) (jitterFactor (fractions st.2) minimum maximum)) true, (next, S st.2))
  else (decision, (next, st.2)).

Definition Jittered {In Out} (schedule : Schedule In Out) (fractions : nat -> float64)
    (minimumFactor maximumFactor : float64) : Schedule In Out :=
  let '(minimum, maximum) := normalizeJitterBounds minimumFactor maximumFactor in
  s ← schedule;
  Some (MkSteps (sched_state s * nat) (sched_start s, 0%nat) (jitterStep s fractions minimum maximum)).
End Jitter.

(** * Rounding *)

(** A magnitude in units of [2 ^ -2148], of which every product of two floats is a
    multiple. *)
Definition units (m e : Z) : Z := m * 2 ^ (e + 2148).

(** The least float is [2 ^ 1074] units. *)
Definition least : Z := 2 ^ 1074.

Lemma shr_1_half x : 0 <= shr_m x -> shr_m (shr_1 x) = shr_m x / 2.
Proof.
  destruct x as [m r s]; simpl. intros Hm. destruct m as [|[p|p|]|p]; simpl; try done; try lia.
  - rewrite Pos2Z.inj_xI. rewrite Z.mul_comm, Z.div_add_l by lia. change (1 / 2) with 0. lia.
  - rewrite Pos2Z.inj_xO, Z.mul_comm, Z.div_mul by lia. done.
Qed.

Lemma pow2_pos k : 0 <= k -> 0 < 2 ^ k.
Proof. intros. by apply Z.pow_pos_nonneg. Qed.

Lemma div_pow2_nonneg m k : 0 <= m -> 0 <= k -> 0 <= m / 2 ^ k.
Proof. intros. apply Z.div_pos; [done|by apply pow2_pos]. Qed.

Lemma shr_m_iter p x : 0 <= shr_m x -> shr_m (SpecFloat.iter_pos shr_1 p x) = shr_m x / 2 ^ Zpos p.
Proof.
  revert x. induction p as [p IH|p IH|]; intros x Hx; simpl.
  - assert (H1 : 0 <= shr_m (shr_1 x)) by (rewrite shr_1_half by done; by apply (div_pow2_nonneg _ 1)).
    assert (H2 : 0 <= shr_m (SpecFloat.iter_pos shr_1 p (shr_1 x))) by (rewrite IH by done; by apply div_pow2_nonneg).
    rewrite IH, IH, shr_1_half by done.
    pose proof (pow2_pos (Zpos p)) as Hp. rewrite !Z.div_div by lia.
    f_equal. replace (Zpos p~1) with (Zpos p + Zpos p + 1) by lia. rewrite !Z.pow_add_r by lia. ring.
  - assert (H2 : 0 <= shr_m (SpecFloat.iter_pos shr_1 p x)) by (rewrite IH by done; by apply div_pow2_nonneg).
    pose proof (pow2_pos (Zpos p)) as Hp. rewrite IH, IH, Z.div_div by (done || lia). f_equal.
    replace (Zpos p~0) with (Zpos p + Zpos p) by lia. by rewrite Z.pow_add_r by lia.
  - by rewrite shr_1_half.
Qed.

Lemma digits2_pos_bounds m : 2 ^ (Zpos (digits2_pos m) - 1) <= Zpos m < 2 ^ Zpos (digits2_pos m).
Proof.
  induction m as [m IH|m IH|]; simpl digits2_pos; [| |done];
    set (d := digits2_pos m) in *; rewrite Pos2Z.inj_succ;
    (replace (Z.succ (Zpos d) - 1) with (Z.succ (Zpos d - 1)) by lia);
    rewrite !Z.pow_succ_r by lia; lia.
Qed.

Lemma units_shift m e k : 0 <= k -> -2148 <= e -> units (m * 2 ^ k) e = units m (e + k).
Proof.
  intros. unfold units. replace (e + k + 2148) with (k + (e + 2148)) by lia.
  rewrite (Z.pow_add_r 2 k (e + 2148)) by lia. ring.
Qed.

Lemma units_mono m m' e : m <= m' -> -2148 <= e -> units m e <= units m' e.
Proof. intros. unfold units. pose proof (pow2_pos (e + 2148)). nia. Qed.

(** Where [shr_fexp] leaves a mantissa: it is shifted down by [k], into 53 bits unless
    the exponent is the least there is. *)
Lemma shr_fexp_spec m e l : 0 < m -> -2148 <= e ->
  exists k mrs, shr_fexp 53 1024 m e l = (mrs, e + k) /\ 0 <= k /\ shr_m mrs = m / 2 ^ k
    /\ -1074 <= e + k /\ m / 2 ^ k < 2 ^ 53
    /\ units 1 (e + k) <= units m e + least.
Proof.
  intros Hm He. destruct m as [|m|]; try lia. unfold shr_fexp. simpl Zdigits2.
  set (d := Zpos (digits2_pos m)). pose proof (digits2_pos_bounds m) as [Hd1 Hd2]. fold d in Hd1, Hd2.
  assert (Hd : 1 <= d) by (unfold d; lia).
  unfold fexp, emin. set (n := Z.max (d + e - 53) (3 - 1024 - 53) - e).
  assert (Hs : shr_m (shr_record_of_loc (Zpos m) l) = Zpos m) by (destruct l as [|[]]; done).
  exists (Z.max 0 n).
  assert (Hr : exists mrs, shr (shr_record_of_loc (Zpos m) l) e n = (mrs, e + Z.max 0 n)
    /\ shr_m mrs = Zpos m / 2 ^ Z.max 0 n).
  { unfold shr. destruct n as [|k|k] eqn:E.
    - rewrite Z.max_id, Z.add_0_r. eexists. split; [done|]. by rewrite Hs, Z.div_1_r.
    - rewrite Z.max_r by lia. eexists. split; [done|]. by rewrite shr_m_iter, Hs by (rewrite Hs; lia).
    - rewrite Z.max_l, Z.add_0_r by lia. eexists. split; [done|]. by rewrite Hs, Z.div_1_r. }
  destruct Hr as (mrs & E & Hmr). exists mrs. rewrite E. split_and!; [done|lia|done|lia| |].
  - apply Z.div_lt_upper_bound; [apply pow2_pos; lia|].
    rewrite <-Z.pow_add_r by lia. eapply Z.lt_le_trans; [exact Hd2|]. apply Z.pow_le_mono_r; lia.
  - unfold units, least. rewrite Z.mul_1_l.
    pose proof (pow2_pos 1074) as H1074. pose proof (pow2_pos (e + 2148)) as Hpe.
    destruct (Z.max_spec 0 n) as [[? Hn]|[? Hn]]; rewrite Hn; [|rewrite Z.add_0_r; nia].
    unfold n. destruct (Z.max_spec (d + e - 53) (3 - 1024 - 53)) as [[? Hx]|[? Hx]]; rewrite Hx.
    + replace (e + (3 - 1024 - 53 - e) + 2148) with 1074 by lia. nia.
    + transitivity (2 ^ (d - 1) * 2 ^ (e + 2148)); [|nia].
      rewrite <-Z.pow_add_r by lia. apply Z.pow_le_mono_r; lia.
Qed.

Lemma units_div m e k : 0 <= k -> -2148 <= e -> units (m / 2 ^ k) (e + k) <= units m e.
Proof.
  intros. rewrite <-units_shift by done. apply units_mono; [|done].
  rewrite Z.mul_comm. apply Z.mul_div_le. by apply pow2_pos.
Qed.

Lemma round_nearest_even_cases m l : round_nearest_even m l = m \/ round_nearest_even m l = m + 1.
Proof. destruct l as [|[]]; simpl; try destruct (Z.even m); auto. Qed.

(** * What stays finite *)

(** Zero, or a positive float whose mantissa fits. *)
Definition fin (x : float64) : Prop :=
  match x with
  | S754_zero _ => True
  | S754_finite s m e => s = false /\ Zpos m < 2 ^ 53 /\ -1074 <= e <= 971
  | _ => False
  end.

Definition mag (x : float64) : Z := match x with S754_finite _ m e => units (Zpos m) e | _ => 0 end.

(** Beyond it nothing overflows: it is less than any float that is too large. *)
Definition huge : Z := 2 ^ 3120.

Definition rounds (u : Z) (x : float64) : Prop :=
  fin x /\ mag x <= 2 * u + least \/ x = S754_infinity false /\ huge <= 2 * u + least.

Lemma shr_fexp_zero e l : exists e', shr_m (shr_fexp 53 1024 0 e l).1 = 0 /\ (shr_fexp 53 1024 0 e l).2 = e'.
Proof.
  eexists. split; [|done]. unfold shr_fexp, shr.
  assert (Hs : shr_m (shr_record_of_loc 0 l) = 0) by (destruct l as [|[]]; done).
  destruct (_ - _) as [|k|k]; simpl; [done| |done]. by rewrite shr_m_iter, Hs by lia.
Qed.

Lemma round_aux_rounds m e : 0 < m -> -2148 <= e ->
  rounds (units m e) (binary_round_aux 53 1024 false m e loc_Exact).
Proof.
  intros Hm He. unfold binary_round_aux.
  destruct (shr_fexp_spec m e loc_Exact Hm He) as (k & mrs & -> & Hk & Hmrs & Hke & Hlt & Hu).
  pose proof (units_div m e k Hk He) as Hd. pose proof (div_pow2_nonneg m k) as Hnn.
  set (m2 := round_nearest_even _ _).
  assert (Hm2 : 0 <= m2 <= m / 2 ^ k + 1).
  { unfold m2. rewrite Hmrs. destruct (round_nearest_even_cases (m / 2 ^ k) (loc_of_shr_record mrs)) as [-> | ->]; lia. }
  assert (Hu2 : units m2 (e + k) <= 2 * units m e + least).
  { transitivity (units (m / 2 ^ k + 1) (e + k)); [apply units_mono; lia|].
    unfold units at 1. rewrite Z.mul_add_distr_r. unfold units in *. lia. }
  destruct (decide (m2 = 0)) as [-> |Hne].
  { destruct (shr_fexp_zero (e + k) loc_Exact) as (e' & E & _).
    destruct (shr_fexp _ _ _ _ _) as [x y]. simpl in E. rewrite E. left. split; [done|]. simpl.
    exact Hu2. }
  destruct (shr_fexp_spec m2 (e + k) loc_Exact) as (k2 & mrs2 & -> & Hk2 & Hmrs2 & Hke2 & Hlt2 & _); [lia..|].
  pose proof (units_div m2 (e + k) k2 Hk2) as Hd2.
  rewrite Hmrs2. pose proof (div_pow2_nonneg m2 k2) as Hnn2.
  destruct (m2 / 2 ^ k2) as [|p|p]; [|destruct (Z.leb_spec (e + k + k2) (1024 - 53)) as [Hle|Hgt]|lia].
  - left. split; [done|]. simpl. unfold units in *. lia.
  - left. split; [simpl; lia|]. simpl. lia.
  - right. split; [done|]. transitivity (units (Zpos p) (e + k + k2)); [|lia].
    unfold units, huge. transitivity (2 ^ (e + k + k2 + 2148)); [apply Z.pow_le_mono_r; lia|].
    pose proof (pow2_pos (e + k + k2 + 2148)). nia.
Qed.

Lemma rounds_mono u u' x : u <= u' -> rounds u x -> rounds u' x.
Proof. unfold rounds. intros Hu [[? ?]|[? ?]]; [left|right]; (split; [done|lia]). Qed.

Lemma rounds_fin u x : 2 * u + least < huge -> rounds u x -> fin x /\ mag x <= 2 * u + least.
Proof. intros Hu [?|[_ ?]]; [done|lia]. Qed.

Lemma rounds_self u x : fin x -> 0 <= mag x <= u -> rounds u x.
Proof. intros. left. split; [done|]. unfold least. lia. Qed.

Lemma mag_nonneg x : fin x -> 0 <= mag x.
Proof.
  destruct x as [| | |s m e]; simpl; try done. intros (_ & _ & ? & _).
  unfold units. pose proof (pow2_pos (e + 2148)). nia.
Qed.

Lemma iter_xO m d : Zpos (Pos.iter xO m d) = Zpos m * 2 ^ Zpos d.
Proof.
  induction d as [|d IH] using Pos.peano_ind; [simpl; lia|].
  rewrite Pos.iter_succ, Pos2Z.inj_xO, IH, Pos2Z.inj_succ, Z.pow_succ_r by lia. ring.
Qed.

Lemma shl_align_units m e e' : -2148 <= e -> -2148 <= e' ->
  units (Zpos (shl_align m e e').1) (shl_align m e e').2 = units (Zpos m) e /\ -2148 <= (shl_align m e e').2.
Proof.
  intros He He'. unfold shl_align. destruct (e' - e) as [|d|d] eqn:E; simpl; [done..|].
  split; [|done]. rewrite iter_xO, units_shift by lia. f_equal. lia.
Qed.

(** Aligned to an exponent that is no greater, a mantissa counts as much. *)
Lemma shl_align_down m e e' : -2148 <= e' <= e -> units (Zpos (shl_align m e e').1) e' = units (Zpos m) e.
Proof.
  intros. unfold shl_align. destruct (e' - e) as [|d|d] eqn:E; simpl; [|lia|].
  - by replace e' with e by lia.
  - rewrite iter_xO, units_shift by lia. f_equal. lia.
Qed.

Lemma normalize_rounds m e : 0 <= m -> -2148 <= e -> rounds (units m e) (binary_normalize 53 1024 m e false).
Proof.
  intros Hm He. destruct m as [|m|]; [|simpl|lia].
  - apply rounds_self; [done|]. unfold units. simpl. lia.
  - unfold binary_round. set (t := fexp _ _ _).
    assert (Ht : -1074 <= t) by (unfold t, fexp, emin; lia).
    destruct (shl_align_units m e t) as [Hu Hz]; [lia..|].
    destruct (shl_align m e t) as [mz ez]. simpl in Hu, Hz. rewrite <-Hu. by apply round_aux_rounds.
Qed.

(** * Sums, differences and products *)

Lemma fmul_rounds x y u : fin x -> fin y -> 0 <= u -> mag x * mag y <= u * 2 ^ 2148 -> rounds u (fmul x y).
Proof.
  destruct x as [s1| | |s1 m1 e1], y as [s2| | |s2 m2 e2]; simpl; try done; intros Hx Hy Hu Hm;
    try (apply rounds_self; simpl; [done|lia]).
  destruct Hx as (-> & Hm1 & He1), Hy as (-> & Hm2 & He2). unfold fmul. simpl.
  eapply rounds_mono; [|apply round_aux_rounds; lia].
  apply (Z.mul_le_mono_pos_r _ _ (2 ^ 2148)); [by apply pow2_pos|]. etransitivity; [|exact Hm]. apply Z.eq_le_incl.
  unfold units. rewrite Pos2Z.inj_mul.
  replace (e1 + e2 + 2148) with ((e1 + 1074) + (e2 + 1074)) by lia.
  replace (e1 + 2148) with ((e1 + 1074) + 1074) by lia. replace (e2 + 2148) with ((e2 + 1074) + 1074) by lia.
  replace (2 ^ 2148) with (2 ^ 1074 * 2 ^ 1074) by (rewrite <-Z.pow_add_r by lia; done).
  assert (Ha : 0 <= e1 + 1074) by lia. assert (Hb : 0 <= e2 + 1074) by lia.
  generalize dependent (e1 + 1074). intros a Ha. generalize dependent (e2 + 1074). intros b Hb.
  rewrite !Z.pow_add_r by lia. ring.
Qed.

Lemma fadd_rounds x y : fin x -> fin y -> rounds (mag x + mag y) (fadd x y).
Proof.
  intros Hx Hy. pose proof (mag_nonneg x Hx). pose proof (mag_nonneg y Hy).
  destruct x as [s1| | |s1 m1 e1], y as [s2| | |s2 m2 e2]; try done; unfold fadd; simpl.
  - destruct s1, s2; by apply rounds_self.
  - apply rounds_self; [done|simpl in *; lia].
  - apply rounds_self; [done|simpl in *; lia].
  - destruct Hx as (-> & Hm1 & He1), Hy as (-> & Hm2 & He2). simpl cond_Zopp.
    rewrite <-(shl_align_down m1 e1 (Z.min e1 e2)), <-(shl_align_down m2 e2 (Z.min e1 e2)) by lia.
    unfold units. rewrite <-Z.mul_add_distr_r. apply normalize_rounds; lia.
Qed.

Lemma fsub_rounds x y : fin x -> fin y -> mag y <= mag x -> rounds (mag x) (fsub x y).
Proof.
  intros Hx Hy Hle. pose proof (mag_nonneg x Hx). pose proof (mag_nonneg y Hy).
  destruct x as [s1| | |s1 m1 e1], y as [s2| | |s2 m2 e2]; try done; unfold fsub; simpl.
  - destruct s1, s2; by apply rounds_self.
  - simpl in *. destruct Hy as (_ & _ & ?). unfold units in Hle. pose proof (pow2_pos (e2 + 2148)). nia.
  - apply rounds_self; [done|simpl in *; lia].
  - destruct Hx as (-> & Hm1 & He1), Hy as (-> & Hm2 & He2). simpl cond_Zopp. simpl in Hle.
    pose proof (shl_align_down m1 e1 (Z.min e1 e2)) as E1. pose proof (shl_align_down m2 e2 (Z.min e1 e2)) as E2.
    set (a1 := Zpos (shl_align m1 e1 (Z.min e1 e2)).1) in *. set (a2 := Zpos (shl_align m2 e2 (Z.min e1 e2)).1) in *.
    assert (Hp : 0 < 2 ^ (Z.min e1 e2 + 2148)) by (apply pow2_pos; lia).
    assert (Ha : a2 <= a1) by (unfold units in *; nia).
    eapply rounds_mono; [|apply normalize_rounds; lia]. rewrite <-E1 by lia. apply units_mono; lia.
Qed.

(** * Comparisons *)

Lemma valid_finite m e : valid_binary 53 1024 (S754_finite false m e) = true ->
  Zpos m < 2 ^ 53 /\ -1074 <= e <= 971 /\ (-1074 < e -> 2 ^ 52 <= Zpos m).
Proof.
  simpl. unfold bounded, canonical_mantissa, fexp, emin.
  intros [Hc%Z.eqb_eq He%Z.leb_le]%andb_true_iff. pose proof (digits2_pos_bounds m) as [H1 H2].
  set (d := Zpos (digits2_pos m)) in *. assert (1 <= d) by (unfold d; lia). split_and!; [|lia..|].
  - eapply Z.lt_le_trans; [exact H2|]. apply Z.pow_le_mono_r; lia.
  - intros. etransitivity; [|exact H1]. apply Z.pow_le_mono_r; lia.
Qed.

Lemma Pos_compare_cont_ge m m' : Pos.compare_cont Eq m m' <> Lt -> (m' <= m)%positive.
Proof. change (Pos.compare_cont Eq m m') with (Pos.compare m m'). intros H. by apply Pos.compare_ge_iff in H. Qed.

(** Of two positive floats the one that is not the less has the greater magnitude. *)
Lemma not_less_mag m1 e1 m2 e2 :
  valid_binary 53 1024 (S754_finite false m1 e1) = true -> valid_binary 53 1024 (S754_finite false m2 e2) = true ->
  SFltb (S754_finite false m1 e1) (S754_finite false m2 e2) = false ->
  units (Zpos m2) e2 <= units (Zpos m1) e1.
Proof.
  intros (H1 & He1 & Hn1)%valid_finite (H2 & He2 & Hn2)%valid_finite. unfold SFltb. simpl.
  destruct (Z.compare_spec e1 e2) as [->|Hlt|Hgt]; intros H.
  - apply units_mono; [|lia]. assert (m2 <= m1)%positive; [|lia].
    apply Pos_compare_cont_ge. intros E. by rewrite E in H.
  - done.
  - specialize (Hn1 ltac:(lia)). unfold units. transitivity (2 ^ 53 * 2 ^ (e2 + 2148)).
    + pose proof (pow2_pos (e2 + 2148)). nia.
    + transitivity (2 ^ 52 * 2 ^ (e1 + 2148)); [|pose proof (pow2_pos (e1 + 2148)); nia].
      rewrite <-!Z.pow_add_r by lia. apply Z.pow_le_mono_r; lia.
Qed.

Lemma not_less_exponent m1 e1 m2 e2 :
  SFltb (S754_finite false m1 e1) (S754_finite false m2 e2) = false -> e2 <= e1.
Proof. unfold SFltb. simpl. destruct (Z.compare_spec e1 e2); [lia|done|lia]. Qed.

Lemma not_leb_finite m1 e1 m2 e2 :
  SFleb (S754_finite false m1 e1) (S754_finite false m2 e2) = false ->
  e2 < e1 \/ e2 = e1 /\ (m2 < m1)%positive.
Proof.
  unfold SFleb. simpl. destruct (Z.compare_spec e1 e2) as [->|?|?]; [|done|by left].
  change (Pos.compare_cont Eq m1 m2) with (Pos.compare m1 m2).
  destruct (Pos.compare_spec m1 m2); [done..|by right].
Qed.

(** ** The bounds and the fraction, as they are normalised *)

Definition valid (f : float64) : Prop := valid_binary 53 1024 f = true.

(** Zero or positive, and not a NaN. *)
Definition nonnegative (f : float64) : Prop := match f with S754_zero _ | S754_infinity false | S754_finite false _ _ => True | _ => False end.

Lemma nonNegativeFactor_spec f : valid f ->
  valid (nonNegativeFactor f) /\ nonnegative (nonNegativeFactor f)
  /\ (nonNegativeFactor f = f \/ nonNegativeFactor f = fzero).
Proof. destruct f as [[]|[]| |[] m e]; unfold nonNegativeFactor; simpl; repeat split; auto. Qed.

(** What is at most [2 ^ 900], or no number. *)
Definition two_900 : float64 := S754_finite false 4503599627370496 848.
Definition moderate (f : float64) : Prop := SFltb two_900 f = false.

Lemma moderate_fin f : valid f -> nonnegative f -> moderate f -> fin f /\ 0 <= mag f <= 2 ^ 3049.
Proof.
  pose proof (pow2_pos 3049) as Hp. unfold moderate.
  destruct f as [s|[]| |[] m e]; try done.
  intros (H1 & He & _)%valid_finite _ Hle%not_less_exponent.
  split; [done|]. change (mag _) with (units (Zpos m) e). unfold units. pose proof (pow2_pos (e + 2148)).
  split; [nia|]. transitivity (2 ^ 53 * 2 ^ (e + 2148)); [nia|].
  rewrite <-Z.pow_add_r by lia. apply Z.pow_le_mono_r; lia.
Qed.

Lemma normalizeJitterBounds_spec minimum maximum lo hi :
  normalizeJitterBounds minimum maximum = (lo, hi) ->
  valid minimum -> valid maximum -> moderate minimum -> moderate maximum ->
  fin lo /\ fin hi /\ 0 <= mag lo <= mag hi /\ mag hi <= 2 ^ 3049.
Proof.
  intros [= <- <-] Hv1 Hv2 Hm1 Hm2.
  destruct (nonNegativeFactor_spec _ Hv1) as (Hv1' & Hn1 & E1), (nonNegativeFactor_spec _ Hv2) as (Hv2' & Hn2 & E2).
  assert (M1 : moderate (nonNegativeFactor minimum)) by by destruct E1 as [-> | ->].
  assert (M2 : moderate (nonNegativeFactor maximum)) by by destruct E2 as [-> | ->].
  clear E1 E2. generalize dependent (nonNegativeFactor minimum). generalize dependent (nonNegativeFactor maximum).
  intros hi Hv2' Hn2 M2 lo Hv1' Hn1 M1.
  destruct (moderate_fin lo) as [F1 B1]; [done..|]. destruct (moderate_fin hi) as [F2 B2]; [done..|].
  destruct (SFltb hi lo) eqn:E; [split_and!; (done || lia)|]. split_and!; [done..|lia| |lia].
  destruct lo as [s1|[]| |[] m1 e1], hi as [s2|[]| |[] m2 e2]; simpl in *; try done; try lia.
  by apply not_less_mag.
Qed.

Lemma normalizeFraction_spec f : valid f -> fin (normalizeFraction f) /\ 0 <= mag (normalizeFraction f) <= 2 ^ 2148.
Proof.
  unfold normalizeFraction. intros Hv. destruct f as [s|[]| |[] m e]; simpl; try done.
  destruct (SFltb fone _) eqn:E; [done|]. pose proof (valid_finite _ _ Hv) as (H1 & He & _).
  split; [done|]. split; [apply (mag_nonneg (S754_finite false m e)); done|].
  change (2 ^ 2148) with (mag fone). by apply not_less_mag.
Qed.

(** * What jitter promises *)

(** Below a huge magnitude a rounded result is a float again. *)
Ltac settle H := apply rounds_fin in H; [destruct H as [? ?]|unfold huge, least in *; lia].

Lemma jitterFactor_fin fraction lo hi : valid fraction -> fin lo -> fin hi ->
  0 <= mag lo <= mag hi -> mag hi <= 2 ^ 3049 -> fin (jitterFactor fraction lo hi).
Proof.
  intros Hv Hlo Hhi Hle Hmax. unfold jitterFactor.
  destruct (normalizeFraction_spec fraction Hv) as [Hf Hf1].
  set (fr := normalizeFraction fraction) in *. clearbody fr.
  assert (H1 : rounds (2 ^ 3049) (fsub hi lo)) by (eapply rounds_mono; [|apply fsub_rounds]; tauto).
  settle H1. pose proof (mag_nonneg (fsub hi lo)) as Hnn.
  assert (H2 : rounds (2 ^ 3051) (fmul fr (fsub hi lo))).
  { apply fmul_rounds; [done..|by apply Z.pow_nonneg|].
    rewrite Z.mul_comm. apply Z.mul_le_mono_nonneg; [tauto| |tauto|tauto]. unfold least in *. lia. }
  settle H2.
  assert (H3 : rounds (2 ^ 3053) (fadd lo (fmul fr (fsub hi lo)))).
  { eapply rounds_mono; [|by apply fadd_rounds]. unfold least in *. lia. }
  by settle H3.
Qed.

Lemma truncate_bounds m e : Zpos m < 2 ^ 53 -> e <= 10 -> 0 <= truncate m e < 2 ^ 63.
Proof.
  intros Hm He. unfold truncate. destruct (Z.leb_spec 0 e).
  - pose proof (pow2_pos e). split; [nia|]. apply Z.lt_le_trans with (2 ^ 53 * 2 ^ e); [nia|].
    rewrite <-Z.pow_add_r by lia. apply Z.pow_le_mono_r; lia.
  - pose proof (pow2_pos (- e)) as Hp. split; [by apply Z.div_pos; lia|].
    apply Z.div_lt_upper_bound; [lia|]. transitivity (2 ^ 53); [done|]. nia.
Qed.

Lemma of_int64_fin d : 0 <= d <= int64_max -> fin (of_int64 d) /\ 0 <= mag (of_int64 d) <= 2 ^ 2213.
Proof.
  intros Hd. assert (H : rounds (2 ^ 2211) (of_int64 d)).
  { eapply rounds_mono; [|apply normalize_rounds; lia]. unfold units. simpl Z.add.
    replace (2 ^ 2211) with (2 ^ 63 * 2 ^ 2148) by (rewrite <-Z.pow_add_r by lia; done).
    apply Z.mul_le_mono_nonneg_r; [by apply Z.pow_nonneg|]. unfold int64_max in Hd. lia. }
  settle H. split; [done|]. split; [by apply mag_nonneg|]. unfold least in *. lia.
Qed.

(** Whatever the implementation does with what is not an [int64], no such conversion
    is made of a finite factor. *)
Lemma scaleDuration_bounds unrepresentable d factor : is_int64 d -> fin factor ->
  0 <= scaleDuration unrepresentable d factor <= int64_max.
Proof.
  intros Hd Hf. unfold scaleDuration.
  destruct (of_int64_fin (normalizeDuration d)) as [Hn Hn'].
  { unfold normalizeDuration, is_int64, int64_max in *. destruct (Z.ltb_spec d 0); lia. }
  set (n := of_int64 (normalizeDuration d)) in *.
  pose proof (mag_nonneg factor Hf) as Hfm.
  assert (H : rounds (mag n * mag factor) (fmul n factor)) by (apply fmul_rounds; [done|done|nia|]; nia).
  destruct H as [[H _]|[-> _]]; [|simpl; unfold int64_max; lia].
  destruct (fmul n factor) as [s| | |s m e]; simpl in H; try done.
  destruct H as (-> & Hm & _). simpl IsInf.
  destruct (SFleb (of_int64 int64_max) (S754_finite false m e)) eqn:E; [simpl; unfold int64_max; lia|].
  assert (Ht : 0 <= truncate m e < 2 ^ 63).
  { change (of_int64 int64_max) with (S754_finite false 4503599627370496 11) in E.
    apply not_leb_finite in E as [?|[-> ?]]; [apply truncate_bounds; lia|].
    unfold truncate. change (0 <=? 11) with true. cbv iota.
    assert (Hm2 : Zpos m < 4503599627370496) by assumption. clear - Hm2. lia. }
  cbn [orb to_int64]. clear - Ht.
  rewrite bool_decide_true; unfold is_int64, int64_max, int64_min; lia.
Qed.

(** C38. Jitter changes a decision in its delay alone, of the ones that go on: there it is a
    duration again, never negative, whatever fractions are drawn and however Go converts
    what is not an [int64], if the factors are no more than [2 ^ 900]. *)
Theorem jitter_keeps_delays {In Out} (s : steps In Out) unrepresentable fractions minimum maximum lo hi st now input :
  valid minimum -> valid maximum -> moderate minimum -> moderate maximum -> (forall n, valid (fractions n)) ->
  normalizeJitterBounds minimum maximum = (lo, hi) ->
  let '(decision, next) := sched_step s st.1 now input in
  is_int64 (delay decision) ->
  let '(jittered, next') := jitterStep unrepresentable s fractions lo hi st now input in
  output jittered = output decision /\ continues jittered = continues decision /\ next'.1 = next
  /\ if continues decision then 0 <= delay jittered <= int64_max /\ next'.2 = S st.2
     else delay jittered = delay decision /\ next'.2 = st.2.
Proof.
  intros Hv1 Hv2 Hm1 Hm2 Hf Hb. unfold jitterStep.
  destruct (normalizeJitterBounds_spec _ _ _ _ Hb) as (Hlo & Hhi & Hle & Hmax); [done..|].
  destruct (sched_step s st.1 now input) as [decision next]. intros Hd.
  destruct (continues decision) eqn:E; simpl; [|done]. split_and!; try done;
    apply scaleDuration_bounds; try done; by apply jitterFactor_fin.
Qed.

(** An infinite factor is no number of times as long: when the fraction drawn is zero,
    or is no number, the delay is whatever Go converts a NaN to, not the least one. *)
Lemma infinite_factor_is_no_duration unrepresentable d fraction lo : valid fraction -> fin lo ->
  normalizeFraction fraction = fzero ->
  scaleDuration unrepresentable d (jitterFactor fraction lo (S754_infinity false)) = unrepresentable S754_nan.
Proof.
  intros _ Hlo E. unfold jitterFactor. rewrite E.
  assert (Hn : forall x, fmul x S754_nan = S754_nan) by by intros [].
  destruct lo as [| | |[] m e]; try done; unfold scaleDuration; cbn [fsub SFsub fmul SFmul fadd SFadd fzero];
    by rewrite Hn.
Qed.

(** * Ten seconds, scaled by between a half and one and a half *)

Definition fhalf : float64 := S754_finite false 4503599627370496 (-53).
Definition three_halves : float64 := S754_finite false 6755399441055744 (-52).

Example a_quarter_of_the_way :
  scaleDuration (fun _ => int64_min) 10000000000 (jitterFactor (S754_finite false 4503599627370496 (-54)) fhalf three_halves)
  = 7500000000.
Proof. reflexivity. Qed.

Example a_wait_without_end :
  scaleDuration (fun _ => int64_min) 0 (S754_infinity false) = int64_min.
Proof. reflexivity. Qed.

Lemma jitter_keeps_delays_witness :
  let d := fst (jitterStep (In := unit) (fun _ => int64_min) (MkSteps Z 0 (countStep 10000000000 None))
                  (fun _ => fone) fhalf three_halves (0, 0%nat) 0 tt) in
  delay d = 15000000000 /\ 0 <= delay d <= int64_max.
Proof.
  assert (Hd : is_int64 10000000000) by (split; discriminate).
  split; [reflexivity|].
  destruct (jitter_keeps_delays (In := unit) (MkSteps Z 0 (countStep 10000000000 None)) (fun _ => int64_min) (fun _ => fone)
    fhalf three_halves fhalf three_halves (0, 0%nat) 0 tt eq_refl eq_refl eq_refl eq_refl (fun _ => eq_refl) eq_refl
    Hd) as (_ & _ & _ & H & _).
  exact H.
Defined.
