(* ===== verification/State.v ===== *)
(** The runtime's own state, its events and the body of a fiber
    ([effect/internal/runtime/state.go], [events.go], [spawn.go],
    [effect/schedule_events.go]).

    A state is immutable metadata over shared services. The identity counters are
    atomic and shared by every state of a runtime: the operations that draw from
    them take them and return them. *)

From S2P Require Import Prelude Outcome Traversal OutcomeFacts Cause Interpreter Completion Time.
From S2P Require Import Scope ConfigSource.

(** * The capability vocabulary ([capability.go]) *)

Inductive EventKind : Type :=
| EventFiberStarted | EventFiberCompleted | EventScopeOpened | EventScopeClosing
| EventScopeClosed | EventResourceAcquired | EventResourceReleased | EventRuntimeClosing
| EventRuntimeClosed | EventSpanStarted | EventSpanEnded | EventRetryScheduled
| EventRetryExhausted | EventRetrySucceeded | EventRepeatScheduled | EventRepeatCompleted
| EventLogEmitted.

Definition EventKind_string (kind : EventKind) : string :=
  match kind with
  | EventFiberStarted => "fiber_started"
  | EventFiberCompleted => "fiber_completed"
  | EventScopeOpened => "scope_opened"
  | EventScopeClosing => "scope_closing"
  | EventScopeClosed => "scope_closed"
  | EventResourceAcquired => "resource_acquired"
  | EventResourceReleased => "resource_released"
  | EventRuntimeClosing => "runtime_closing"
  | EventRuntimeClosed => "runtime_closed"
  | EventSpanStarted => "span_started"
  | EventSpanEnded => "span_ended"
  | EventRetryScheduled => "retry_scheduled"
  | EventRetryExhausted => "retry_exhausted"
  | EventRetrySucceeded => "retry_succeeded"
  | EventRepeatScheduled => "repeat_scheduled"
  | EventRepeatCompleted => "repeat_completed"
  | EventLogEmitted => "log_emitted"
  end.

Inductive FaultComponent : Type := FaultLogger | FaultObserver | FaultRuntime.

Record RuntimeFault : Type := MkRuntimeFault {
  Component : FaultComponent;
  fault_Operation : string;
  fault_Err : option error
}.

Section State.
  Context {V World Ctx Attr FS Logger : Type} `{ContextOps World Ctx}.
  (** What [fmt] prints for a panic value. *)
  Context (sprint : V -> string).
  #[local] Abbreviation call := (call V World).

Record RuntimeEvent : Type := MkEvent {
  event_Kind : EventKind;
  event_Timestamp : Time;
  event_Duration : Duration;
  event_Operation : string;
  event_Source : string;
  event_FiberID : Z;
  event_ParentFiber : Z;
  event_SpanID : Z;
  event_ParentID : Z;
  event_Attempt : Z;
  event_Delay : Duration;
  event_Status : EventStatus;
  event_Attributes : list Attr
}.

(** A clock's wait reports an infrastructure error, if any. *)
Record Clock : Type := MkClock {
  clock_Now : call Time;
  clock_Sleep : Ctx -> Duration -> call (option error)
}.

(** [capability.Set]; a nil observer or diagnostics is [None]. *)
Record CapabilitySet : Type := MkSet {
  cap_Clock : Clock;
  cap_FileSystem : FS;
  cap_Logger : Logger;
  cap_Observer : option (Ctx -> RuntimeEvent -> call unit);
  cap_Diagnostics : option (Ctx -> RuntimeFault -> call unit);
  cap_ConfigSource : option Source
}.

(** * State ([state.go]) *)

Record Metadata : Type := MkMetadata {
  md_Operation : string;
  md_Source : string;
  FiberID : Z;
  ParentFiber : Z;
  SpanID : Z;
  ParentID : Z;
  Attributes : list Attr
}.

Definition zeroMetadata : Metadata := MkMetadata EmptyString EmptyString 0 0 0 0 [].

Record identifiers : Type := MkIdentifiers { spans : Z; fibers : Z }.

(** Scopes and the ledger are addresses. *)
Record State : Type := MkState {
  capabilities : CapabilitySet;
  metadata : Metadata;
  state_scope : nat;
  state_root : nat;
  state_ledger : option nat
}.

Definition NewState (caps : CapabilitySet) (root : nat) (ledger : option nat)
    : State * identifiers :=
  (MkState caps zeroMetadata root root ledger, MkIdentifiers 0 0).

Definition set_metadata (state : State) (m : Metadata) : State :=
  MkState (capabilities state) m (state_scope state) (state_root state) (state_ledger state).

Definition WithScope (state : State) (scope : nat) : State :=
  MkState (capabilities state) (metadata state) scope (state_root state) (state_ledger state).

Definition WithConfigSource (state : State) (source : option Source) : State :=
  let c := capabilities state in
  MkState (MkSet (cap_Clock c) (cap_FileSystem c) (cap_Logger c) (cap_Observer c)
             (cap_Diagnostics c) source)
    (metadata state) (state_scope state) (state_root state) (state_ledger state).

Definition WithName (state : State) (name : string) : State :=
  let m := metadata state in
  set_metadata state (MkMetadata name (md_Source m) (FiberID m) (ParentFiber m) (SpanID m)
                        (ParentID m) (Attributes m)).

Definition WithAttributes (state : State) (attributes : list Attr) : State :=
  let m := metadata state in
  set_metadata state (MkMetadata (md_Operation m) (md_Source m) (FiberID m) (ParentFiber m)
                        (SpanID m) (ParentID m) (Attributes m ++ attributes)).

Record SpanBoundary : Type := MkBoundary {
  span_Name : string;
  span_Source : string;
  span_Attributes : list Attr
}.

Definition WithSpan (state : State) (boundary : SpanBoundary) (ids : identifiers)
    : State * identifiers :=
  let m := metadata state in
  let span := wrapu64 (spans ids + 1) in
  (set_metadata state
     (MkMetadata (span_Name boundary) (span_Source boundary) (FiberID m) (ParentFiber m) span
        (SpanID m) (Attributes m ++ span_Attributes boundary)),
   MkIdentifiers span (fibers ids)).

Definition ForChild (state : State) (scope : nat) (fiberID : Z) : State :=
  let m := metadata state in
  MkState (capabilities state)
    (MkMetadata (md_Operation m) (md_Source m) fiberID (FiberID m) (SpanID m) (ParentID m)
       (Attributes m))
    scope (state_root state) (state_ledger state).

Definition NextFiberID (ids : identifiers) : Z * identifiers :=
  let fiber := wrapu64 (fibers ids + 1) in (fiber, MkIdentifiers (spans ids) fiber).

Definition HasObserver (state : State) : bool :=
  bool_decide (is_Some (cap_Observer (capabilities state))).

Definition Event (state : State) (kind : EventKind) : call RuntimeEvent :=
  call_bind (clock_Now (cap_Clock (capabilities state))) (fun now =>
    let m := metadata state in
    call_ret (MkEvent kind now 0%Z (md_Operation m) (md_Source m) (FiberID m) (ParentFiber m)
                (SpanID m) (ParentID m) 0 0%Z EventStatusNone (Attributes m))).

Definition Report (state : State) (ctx : Ctx) (fault : RuntimeFault) : call unit :=
  match cap_Diagnostics (capabilities state) with
  | None => call_ret tt
  | Some report => fun w => let '(_, w') := report ctx fault w in (inl tt, w')
  end.

Definition observer_fault (event : RuntimeEvent) (p : Panic V) : RuntimeFault :=
  MkRuntimeFault FaultObserver (EventKind_string (event_Kind event))
    (Some (MkError 0 ("effect: observer panicked: " ++ sprint (panic_value p))%string [])).

Definition Emit (state : State) (ctx : Ctx) (event : RuntimeEvent) : call unit :=
  match cap_Observer (capabilities state) with
  | None => call_ret tt
  | Some observe => fun w =>
      match observe ctx event w with
      | (inl _, w') => (inl tt, w')
      | (inr p, w') => Report state ctx (observer_fault event p) w'
      end
  end.

(** * Lifecycle events ([events.go]) *)

Definition nonNegative (duration : Duration) : Duration :=
  if (duration <? 0)%Z then 0%Z else duration.

Definition EmitStart (state : State) (ctx : Ctx) (kind : EventKind) : call Time :=
  if negb (HasObserver state) then clock_Now (cap_Clock (capabilities state))
  else call_bind (Event state kind) (fun event =>
         call_bind (Emit state ctx event) (fun _ => call_ret (event_Timestamp event))).

Definition ending (event : RuntimeEvent) (start : Time) (status : EventStatus) : RuntimeEvent :=
  MkEvent (event_Kind event) (event_Timestamp event)
    (nonNegative (time_Sub (event_Timestamp event) start)) (event_Operation event)
    (event_Source event) (event_FiberID event) (event_ParentFiber event) (event_SpanID event)
    (event_ParentID event) (event_Attempt event) (event_Delay event) status
    (event_Attributes event).

Definition EmitEnd (state : State) (ctx : Ctx) (kind : EventKind) (start : Time)
    (status : EventStatus) : call unit :=
  if negb (HasObserver state) then call_ret tt
  else call_bind (Event state kind) (fun event => Emit state ctx (ending event start status)).

Definition EmitMark (state : State) (ctx : Ctx) (kind : EventKind) : call unit :=
  if negb (HasObserver state) then call_ret tt
  else call_bind (Event state kind) (fun event => Emit state ctx event).

(** * Attempts ([schedule_events.go]) *)

Definition attemptEventOf (kind : EventKind) (attempt : Z) (delay : Duration)
    (status : EventStatus) : State -> call RuntimeEvent :=
  fun state => call_bind (Event state kind) (fun event =>
    call_ret (MkEvent (event_Kind event) (event_Timestamp event) (event_Duration event)
                (event_Operation event) (event_Source event) (event_FiberID event)
                (event_ParentFiber event) (event_SpanID event) (event_ParentID event)
                attempt delay status (event_Attributes event))).

Definition retryScheduledEvent (attempt : Z) (delay : Duration) : State -> call RuntimeEvent :=
  attemptEventOf EventRetryScheduled attempt delay EventStatusFailure.
Definition retryExhaustedEvent (attempt : Z) : State -> call RuntimeEvent :=
  attemptEventOf EventRetryExhausted attempt 0%Z EventStatusFailure.
Definition retrySucceededEvent (attempt : Z) : State -> call RuntimeEvent :=
  attemptEventOf EventRetrySucceeded attempt 0%Z EventStatusSuccess.
Definition repeatScheduledEvent (attempt : Z) (delay : Duration) : State -> call RuntimeEvent :=
  attemptEventOf EventRepeatScheduled attempt delay EventStatusSuccess.
Definition repeatCompletedEvent (attempt : Z) : State -> call RuntimeEvent :=
  attemptEventOf EventRepeatCompleted attempt 0%Z EventStatusSuccess.

(** [emitAttempt]: the event is only built when somebody observes. *)
Definition emitAttempt (ctx : Ctx) (state : State) (describe : State -> call RuntimeEvent)
    : call unit :=
  if negb (HasObserver state) then call_ret tt
  else call_bind (describe state) (fun event => Emit state ctx event).

(** * Fibers ([spawn.go]) *)

Definition ErrFiberInterrupted : error := MkError 502 "effect: fiber interrupted" [].
Definition ErrScopeClosed : error := MkError 501 "effect: scope closed" [].

(** The statements of a fiber's body up to its completion, its deferred calls
    aside. [close] is its own scope's [Close], which returns once the fiber's
    children have. *)
Definition fiber_statements (childState : State) (childCtx : Ctx)
    (work : Ctx -> State -> call (Exit V)) (close : Exit V -> call (Cause V)) : call (Exit V) :=
  call_bind (EmitStart childState childCtx EventFiberStarted) (fun start =>
    call_bind (work childCtx childState) (fun exit =>
      call_bind (close exit) (fun cleanup =>
        let exit := if negb (IsEmpty cleanup) then ExitFailure (Then (ExitCause exit) cleanup)
                    else exit in
        call_bind (EmitEnd childState childCtx EventFiberCompleted start (ExitStatus exit))
          (fun _ => call_ret exit)))).

Definition cancel_fiber (reason : error) (f : Fiber V) : Fiber V :=
  MkFiber (fiber_id f) (cancel_once reason (fiber_cancelled f)) (terminal f).

(** The goroutine: the body, then the deferred calls, the last one first. A panic
    left over in the end takes the process down. *)
Definition fiber_goroutine (childState : State) (childCtx : Ctx)
    (work : Ctx -> State -> call (Exit V)) (close : Exit V -> call (Cause V))
    (f : Fiber V) (ledger : option Ledger) (w : World)
    : option (V * string) * Fiber V * option Ledger * World :=
  let '(panicking, f, w) :=
    match fiber_statements childState childCtx work close w with
    | (inl exit, w') => (None, fiber_Complete exit f, w')
    | (inr p, w') => (Some (panic_value p, panic_stack p), f, w')
    end in
  let ledger := RecordFiberCompletion ledger in
  let f := cancel_fiber ErrFiberInterrupted f in
  let '(panicking, f) := fiber_CompleteOnPanic panicking f in
  (panicking, f, ledger, w).

(** [StartFiber] up to the goroutine's first statement: the new fiber with its
    state, unless the owner refuses it. *)
Definition StartFiber {F : Type} (owner : Scope V F) (childScope : nat) (state : State)
    (ids : identifiers) (ledger : option Ledger)
    : option (Fiber V * State) * Scope V F * identifiers * option Ledger :=
  let '(id, ids) := NextFiberID ids in
  let childState := ForChild state childScope id in
  let ledger := RecordFiberStart ledger in
  match Fork owner with
  | (true, owner) => (Some (NewFiber id, childState), owner, ids, ledger)
  | (false, owner) => (None, owner, ids, RecordFiberCompletion ledger)
  end.

#[export] Instance state_ops : StateOps State :=
  {| state_Operation state := md_Operation (metadata state) |}.

End State.

Section Facts.
  Context {V World Ctx Attr FS Logger : Type} `{ContextOps World Ctx}.
  Context (sprint : V -> string).
  #[local] Abbreviation call := (call V World).
  #[local] Abbreviation State := (@State V World Ctx Attr FS Logger).

(** A call that returns. *)
Definition returns {A} (m : call A) (w : World) (a : A) (w' : World) : Prop := m w = (inl a, w').
Definition total {A} (m : call A) : Prop := forall w, exists a w', returns m w a w'.

Lemma total_ret {A} (a : A) : total (call_ret a).
Proof. intros w. by exists a, w. Qed.

Lemma total_bind {A B} (m : call A) (f : A -> call B) :
  total m -> (forall a, total (f a)) -> total (call_bind m f).
Proof.
  intros Hm Hf w. destruct (Hm w) as (a & w1 & H1). destruct (Hf a w1) as (b & w2 & H2).
  exists b, w2. unfold returns, call_bind in *. by rewrite H1.
Qed.

Lemma total_Report (state : State) ctx fault : total (Report state ctx fault).
Proof.
  unfold Report. destruct (cap_Diagnostics _) as [report|]; [|apply total_ret].
  intros w. unfold returns. destruct (report ctx fault w) as [? w']. eauto.
Qed.

Lemma total_Emit (state : State) ctx event : total (Emit sprint state ctx event).
Proof.
  unfold Emit. destruct (cap_Observer _) as [observe|]; [|apply total_ret].
  intros w. unfold returns. destruct (observe ctx event w) as [[u|p] w'] eqn:E; [eauto|].
  apply (total_Report state ctx (observer_fault sprint event p) w').
Qed.

Lemma total_Event (state : State) kind :
  total (clock_Now (cap_Clock (capabilities state))) -> total (Event state kind).
Proof. intros Hc. apply total_bind; [done|]. intros. apply total_ret. Qed.

Ltac solve_total :=
  repeat first
    [ assumption | apply total_ret | apply total_Emit | apply total_Event
    | apply total_bind; [|intros] ].

Lemma total_EmitStart (state : State) ctx kind :
  total (clock_Now (cap_Clock (capabilities state))) -> total (EmitStart sprint state ctx kind).
Proof.
  intros Hc. unfold EmitStart. destruct (HasObserver state); cbn [negb]; [|done].
  solve_total.
Qed.

Lemma total_EmitEnd (state : State) ctx kind start status :
  total (clock_Now (cap_Clock (capabilities state))) ->
  total (EmitEnd sprint state ctx kind start status).
Proof.
  intros Hc. unfold EmitEnd. destruct (HasObserver state); cbn [negb]; [|apply total_ret].
  solve_total.
Qed.

(** ** Identities *)

(** What draws from a runtime's counters. *)
Inductive draw : Type := draw_span | draw_fiber.

Fixpoint drawn (draws : list draw) (ids : identifiers) : list Z * list Z :=
  match draws with
  | [] => ([], [])
  | draw_span :: rest =>
      let span := wrapu64 (spans ids + 1) in
      let '(ss, fs) := drawn rest (MkIdentifiers span (fibers ids)) in (span :: ss, fs)
  | draw_fiber :: rest =>
      let '(fiber, ids) := NextFiberID ids in
      let '(ss, fs) := drawn rest ids in (ss, fiber :: fs)
  end.

Lemma drawn_above (draws : list draw) (ids : identifiers) :
  (0 <= spans ids)%Z -> (0 <= fibers ids)%Z ->
  (spans ids + Z.of_nat (length draws) <= uint64_max)%Z ->
  (fibers ids + Z.of_nat (length draws) <= uint64_max)%Z ->
  NoDup (fst (drawn draws ids)) /\ NoDup (snd (drawn draws ids))
  /\ Forall (fun id => spans ids < id)%Z (fst (drawn draws ids))
  /\ Forall (fun id => fibers ids < id)%Z (snd (drawn draws ids)).
Proof.
  revert ids. induction draws as [|[] draws IH]; intros [s f] Hs Hf Hs' Hf'; cbn in *.
  - split_and!; constructor.
  - rewrite wrapu64_id by (unfold is_uint64; lia).
    destruct (IH (MkIdentifiers (s + 1) f)) as (H1 & H2 & H3 & H4); cbn; try lia.
    destruct (drawn draws _) as [ss fs]; cbn in *. split_and!; [|done| |done].
    + apply NoDup_cons. split; [|done]. rewrite Forall_forall in H3. intros Hin.
      specialize (H3 _ Hin). lia.
    + constructor; [lia|]. eapply Forall_impl; [exact H3|]. cbn. lia.
  - rewrite wrapu64_id by (unfold is_uint64; lia).
    destruct (IH (MkIdentifiers s (f + 1))) as (H1 & H2 & H3 & H4); cbn; try lia.
    destruct (drawn draws _) as [ss fs]; cbn in *. split_and!; [done| |done|].
    + apply NoDup_cons. split; [|done]. rewrite Forall_forall in H4. intros Hin.
      specialize (H4 _ Hin). lia.
    + constructor; [lia|]. eapply Forall_impl; [exact H4|]. cbn. lia.
Qed.

(** * Properties *)

(** Instrumentation cannot change a program: whatever the observer and the
    diagnostics do, panics included, delivering an event returns, and so does
    every lifecycle report whose clock can be read. Without an observer an end, a
    mark or an attempt does nothing at all. *)
Theorem emission_is_contained (state : State) (ctx : Ctx) (event : RuntimeEvent)
    (kind : EventKind) (start : Time) (status : EventStatus)
    (describe : State -> call (@RuntimeEvent Attr)) :
  total (Emit sprint state ctx event)
  /\ (total (clock_Now (cap_Clock (capabilities state))) ->
      total (EmitStart sprint state ctx kind)
      /\ total (EmitEnd sprint state ctx kind start status)
      /\ total (EmitMark sprint state ctx kind))
  /\ (cap_Observer (capabilities state) = None -> forall w,
      EmitEnd sprint state ctx kind start status w = (inl tt, w)
      /\ EmitMark sprint state ctx kind w = (inl tt, w)
      /\ emitAttempt sprint ctx state describe w = (inl tt, w)).
Proof.
  split_and!; [apply total_Emit| |].
  - intros Hc. split_and!; [by apply total_EmitStart|by apply total_EmitEnd|].
    unfold EmitMark. destruct (HasObserver state); cbn [negb]; [|apply total_ret].
    solve_total.
  - intros Ho w. unfold EmitEnd, EmitMark, emitAttempt, HasObserver. by rewrite Ho.
Qed.

(** A runtime never reuses an identity: of any sequence of spans and fibers
    started in any of its states, within the width of the counters, no two spans
    and no two fibers share one, and none is the zero that stands for the root. *)
Theorem identities_are_unique (draws : list draw) (caps : CapabilitySet) (root : nat)
    (ledger : option nat) :
  (Z.of_nat (length draws) <= uint64_max)%Z ->
  let ids := snd (NewState (V := V) (World := World) (Ctx := Ctx) (Attr := Attr) (FS := FS)
                    (Logger := Logger) caps root ledger) in
  let '(ss, fs) := drawn draws ids in
  NoDup ss /\ NoDup fs /\ Forall (fun id => 0 < id)%Z ss /\ Forall (fun id => 0 < id)%Z fs.
Proof.
  intros Hl ids. pose proof (drawn_above draws ids) as Hd. unfold ids in *; cbn in *.
  destruct (drawn draws _) as [ss fs]. apply Hd; lia.
Qed.

(** C24. A fiber whose work returns and whose clock can be read always completes:
    with its work's exit, after which its scope was closed with that exit, the
    failures of the close after it; its completion is counted, and no panic
    leaves its goroutine. *)
Theorem fiber_completes (childState : State) (childCtx : Ctx)
    (work : Ctx -> State -> call (Exit V)) (close : Exit V -> call (Cause V))
    (id : Z) (ledger : option Ledger) (w : World) :
  total (clock_Now (cap_Clock (capabilities childState))) ->
  total (work childCtx childState) -> (forall exit, total (close exit)) ->
  exists w1 w2 w3 w4 exit cleanup f,
    returns (work childCtx childState) w1 exit w2 /\ returns (close exit) w2 cleanup w3
    /\ fiber_goroutine sprint childState childCtx work close (NewFiber id) ledger w
       = (None, f, RecordFiberCompletion ledger, w4)
    /\ fiber_Wait f = Some (composeCleanup exit cleanup).
Proof.
  intros Hclock Hwork Hclose.
  destruct (total_EmitStart childState childCtx EventFiberStarted Hclock w) as (start & w1 & H1).
  destruct (Hwork w1) as (exit & w2 & H2). destruct (Hclose exit w2) as (cleanup & w3 & H3).
  destruct (total_EmitEnd childState childCtx EventFiberCompleted start
    (ExitStatus (composeCleanup exit cleanup)) Hclock w3) as ([] & w4 & H4).
  exists w1, w2, w3, w4, exit, cleanup. eexists. split; [exact H2|]. split; [exact H3|].
  assert (fiber_statements sprint childState childCtx work close w
          = (inl (composeCleanup exit cleanup), w4)) as Hs.
  { unfold fiber_statements, call_bind. unfold returns in *. rewrite H1, H2, H3.
    assert ((if negb (IsEmpty cleanup) then ExitFailure (Then (ExitCause exit) cleanup) else exit)
            = composeCleanup exit cleanup) as ->.
    { unfold composeCleanup. by destruct (IsEmpty cleanup). }
    by rewrite H4. }
  unfold fiber_goroutine. rewrite Hs. split; [reflexivity|]. done.
Qed.

(** A fiber is not safe from its own runtime: when reading the clock panics
    the panic leaves the goroutine, which takes the process down, and the fiber
    is not completed, although its body defers a call meant to complete it with a
    defect. *)
Theorem panicking_clock_escapes (childState : State) (childCtx : Ctx)
    (work : Ctx -> State -> call (Exit V)) (close : Exit V -> call (Cause V))
    (id : Z) (ledger : option Ledger) (p : Panic V) (w w' : World) :
  clock_Now (cap_Clock (capabilities childState)) w = (inr p, w') ->
  exists f, fiber_goroutine sprint childState childCtx work close (NewFiber id) ledger w
    = (Some (panic_value p, panic_stack p), f, RecordFiberCompletion ledger, w')
  /\ fiber_Wait f = None.
Proof.
  intros Hp.
  assert (fiber_statements sprint childState childCtx work close w = (inr p, w')) as Hs.
  { unfold fiber_statements, EmitStart, call_bind, Event.
    destruct (HasObserver childState); cbn [negb]; unfold call_bind; by rewrite Hp. }
  eexists. unfold fiber_goroutine. rewrite Hs. split; reflexivity.
Qed.

(** Starting a fiber is accounted for exactly: a scope that is open takes it,
    with a fresh identity, its parent's fiber recorded, its names and span
    inherited, and one more live fiber in the ledger; a scope that is not refuses
    it and leaves the ledger's balance as it was. *)
Theorem StartFiber_accounts {F : Type} (owner : Scope V F) (childScope : nat) (state : State)
    (ids : identifiers) (ledger : Ledger) :
  match StartFiber owner childScope state ids (Some ledger) with
  | (Some (f, child), owner', ids', ledger') =>
      status owner = scopeOpen /\ children owner' = S (children owner)
      /\ fiber_id f = fibers ids' /\ fiber_Wait f = None
      /\ FiberID (metadata child) = fiber_id f
      /\ ParentFiber (metadata child) = FiberID (metadata state)
      /\ SpanID (metadata child) = SpanID (metadata state)
      /\ md_Operation (metadata child) = md_Operation (metadata state)
      /\ Live ledger' = MkLiveWork (wrap64 (Fibers (Live (Some ledger)) + 1))
                          (Resources (Live (Some ledger)))
  | (None, owner', ids', ledger') =>
      status owner <> scopeOpen /\ owner' = owner /\ Live ledger' = Live (Some ledger)
  end.
Proof.
  unfold StartFiber, NextFiberID, Fork. case_bool_decide as Ho; cbn -[wrap64 wrapu64].
  - split_and!; try done. f_equal. rewrite wrap64_wrap_add.
    replace (fiberStarts ledger - fiberCompletions ledger + 1)%Z
      with (fiberStarts ledger + 1 - fiberCompletions ledger)%Z by lia.
    apply wrap64_wrap_sub; [|done]. by rewrite (wrap64_id (wrap64 _)) by apply wrap64_range.
  - split_and!; try done. f_equal.
    replace (fiberStarts ledger - fiberCompletions ledger)%Z
      with (fiberStarts ledger + 1 - (fiberCompletions ledger + 1))%Z by lia.
    apply wrap64_wrap_sub; by rewrite (wrap64_id (wrap64 _)) by apply wrap64_range.
Qed.

End Facts.
