(* ===== verification/RuntimePort.v ===== *)
(** What the effects ask of the runtime state they run in: lifecycle events, the
    scope that owns new work, and the ledger ([effect/internal/runtime/state.go],
    [events.go], [effect/internal/lifetime/ledger.go]).

    The lifetimes are stated against this interface; the state of [State] provides
    it. *)

From S2P Require Import Prelude Outcome Traversal OutcomeFacts Cause Interpreter Calls Completion Time State.

Class RuntimePort (V World Ctx St : Type) : Type := {
  port_EmitStart : St -> Ctx -> EventKind -> call V World Time;
  port_EmitEnd : St -> Ctx -> EventKind -> Time -> EventStatus -> call V World unit;
  port_EmitMark : St -> Ctx -> EventKind -> call V World unit;
  port_WithScope : St -> nat -> St;
  port_Scope : St -> nat;
  port_Root : St -> nat;
  (** [state.Ledger().Record...()] *)
  port_Record : St -> work_event -> call V World unit
}.

(** A call that returns, leaving the heap of [T]s as it was. *)
Definition settles {V World A} (T : Type) `{Heap World T} (m : call V World A) : Prop :=
  forall w, exists a w', m w = (inl a, w') /\ heap_of T w' = heap_of T w.

(** The states whose instrumentation returns and leaves the [T]s alone. *)
Class QuietPort (V World Ctx St T : Type) `{RuntimePort V World Ctx St} `{Heap World T} : Type := {
  quiet : St -> Prop;
  quiet_start : forall st ctx kind, quiet st -> settles T (port_EmitStart st ctx kind);
  quiet_end : forall st ctx kind start status,
    quiet st -> settles T (port_EmitEnd st ctx kind start status);
  quiet_mark : forall st ctx kind, quiet st -> settles T (port_EmitMark st ctx kind);
  quiet_record : forall st e, quiet st -> settles T (port_Record st e);
  quiet_WithScope : forall st scope, quiet st -> quiet (port_WithScope st scope);
  port_Scope_WithScope : forall st scope, port_Scope (port_WithScope st scope) = scope
}.

Section Settles.
  Context {V World T : Type} `{Heap World T}.
  #[local] Abbreviation call := (call V World).

Lemma settles_ret {A} (a : A) : settles T (call_ret a : call A).
Proof. intros w. by exists a, w. Qed.

Lemma settles_bind {A B} (m : call A) (f : A -> call B) :
  settles T m -> (forall a, settles T (f a)) -> settles T (call_bind m f).
Proof.
  intros Hm Hf w. destruct (Hm w) as (a & w1 & H1 & E1). destruct (Hf a w1) as (b & w2 & H2 & E2).
  exists b, w2. unfold call_bind. rewrite H1. by rewrite H2, E2.
Qed.

End Settles.

(** * The runtime's state is such a port *)
Section StatePort.
  Context {V World Ctx Attr FS Logger : Type} `{ContextOps World Ctx} `{Heap World Ledger}.
  Context (sprint : V -> string) (nil_dereference : Panic V).
  #[local] Abbreviation State := (@State V World Ctx Attr FS Logger).
  #[local] Abbreviation call := (call V World).

(** Every [Record] method of a ledger: nothing on a nil one, an atomic addition
    otherwise. *)
Definition recorded (ledger : option nat) (e : work_event) : call unit :=
  match ledger with
  | None => call_ret tt
  | Some address =>
      let! l := load nil_dereference address in
      match record e (Some l) with
      | Some l => store nil_dereference address l
      | None => call_ret tt
      end
  end.

#[export] Instance state_port : RuntimePort V World Ctx State := {|
  port_EmitStart state ctx kind := EmitStart sprint state ctx kind;
  port_EmitEnd state ctx kind start status := EmitEnd sprint state ctx kind start status;
  port_EmitMark state ctx kind := EmitMark sprint state ctx kind;
  port_WithScope state scope := WithScope state scope;
  port_Scope state := state_scope state;
  port_Root state := state_root state;
  port_Record state e := recorded (state_ledger state) e
|}.

  Context {T : Type} `{Heap World T}.

(** A state whose clock can be read, whose capabilities leave the [T]s alone, and
    which keeps no ledger. *)
Definition quiet_state (state : State) : Prop :=
  settles T (clock_Now (cap_Clock (capabilities state)))
  /\ (forall observe, cap_Observer (capabilities state) = Some observe ->
        forall ctx event w, heap_of T (snd (observe ctx event w)) = heap_of T w)
  /\ (forall report, cap_Diagnostics (capabilities state) = Some report ->
        forall ctx fault w, heap_of T (snd (report ctx fault w)) = heap_of T w)
  /\ state_ledger state = None.

Lemma settles_Emit (state : State) ctx event :
  quiet_state state -> settles T (Emit sprint state ctx event).
Proof.
  intros (_ & Ho & Hd & _). unfold Emit. destruct (cap_Observer _) as [observe|] eqn:Eo; [|apply settles_ret].
  specialize (Ho observe eq_refl). intros w. specialize (Ho ctx event w).
  destruct (observe ctx event w) as [[u|p] w1]; cbn in Ho; [by exists tt, w1|].
  unfold Report. destruct (cap_Diagnostics _) as [report|] eqn:Ed; [|by exists tt, w1].
  specialize (Hd report eq_refl ctx (observer_fault sprint event p) w1).
  destruct (report ctx _ w1) as [u w2]; cbn in Hd. exists tt, w2. by rewrite Hd.
Qed.

Lemma settles_Event (state : State) kind : quiet_state state -> settles T (Event state kind).
Proof. intros [Hc _]. apply settles_bind; [done|]. intros. apply settles_ret. Qed.

#[export] Program Instance state_quiet : QuietPort V World Ctx State T := {| quiet := quiet_state |}.
Next Obligation.
  intros state ctx kind Hq; cbn. unfold EmitStart. destruct (HasObserver state); cbn [negb]; [|by destruct Hq].
  apply settles_bind; [by apply settles_Event|]. intros event.
  apply settles_bind; [by apply settles_Emit|]. intros. apply settles_ret.
Qed.
Next Obligation.
  intros state ctx kind start status Hq; cbn. unfold EmitEnd.
  destruct (HasObserver state); cbn [negb]; [|apply settles_ret].
  apply settles_bind; [by apply settles_Event|]. intros event. by apply settles_Emit.
Qed.
Next Obligation.
  intros state ctx kind Hq; cbn. unfold EmitMark. destruct (HasObserver state); cbn [negb]; [|apply settles_ret].
  apply settles_bind; [by apply settles_Event|]. intros event. by apply settles_Emit.
Qed.
Next Obligation.
  intros state e (_ & _ & _ & Hl); cbn. rewrite Hl. apply settles_ret.
Qed.
Next Obligation. intros state scope Hq; exact Hq. Qed.
Next Obligation. done. Qed.

End StatePort.
