(* ===== verification/Lifetimes.v ===== *)
(** Scopes as programs use them ([effect/scope.go]): a lexical lifetime, and
    resources whose release it owns.

    The scopes of a run are cells of the world, each the [Scope] record of
    [Scope]; what a scope registers is of a type [F] of closures. Closing waits
    for the scope's children: [await_children] is the world after they have run.

    A scope always closes, and what was acquired in it is released by then. *)

From S2P Require Import Prelude Outcome Traversal OutcomeFacts Cause Interpreter InterpreterFacts Algebra Effects EffectsFacts Observation Calls Completion Scope Time State RuntimePort.

(** [context.WithCancelCause(parent)] of a scope's own context, as far as the code
    relies on it: done once its parent is or the scope has been cancelled. *)
Class ScopeContexts (V World Ctx F : Type) `{ContextOps World Ctx} `{Heap World (Scope V F)}
    : Type := {
  scope_ctx : nat -> Ctx -> Ctx;
  scope_ctx_live : forall address parent w s,
    ctx_Err parent w = None -> heap_get address w = Some s -> cancelled s = None ->
    ctx_Err (scope_ctx address parent) w = None;
  scope_ctx_done : forall address parent w s reason,
    heap_get address w = Some s -> cancelled s = Some reason ->
    is_Some (ctx_Err (scope_ctx address parent) w)
}.

(** [children.Wait()]: nothing when there are none, and none after it. *)
Class ScopeChildren (V World F : Type) `{Heap World (Scope V F)} : Type := {
  await_children : nat -> World -> World;
  await_no_children : forall address w s,
    heap_get address w = Some s -> children s = 0 -> await_children address w = w
}.

Section Lifetimes.
  Context {V World Ctx St F : Type} `{ContextOps World Ctx} `{StateOps St}.
  Context `{FinalizerOps F V World Ctx} `{Heap World (Scope V F)}.
  Context `{!ScopeContexts V World Ctx F} `{!ScopeChildren V World F}.
  Context `{RuntimePort V World Ctx St}.
  Context (error_value : error -> V) (unsupported : error) (zero_effect nil_dereference : Panic V).
  #[local] Abbreviation Effect := (@Effect V World Ctx St).
  #[local] Abbreviation call := (call V World).
  #[local] Abbreviation run := (run error_value unsupported zero_effect).

(** * The scope's methods on its cell *)

Definition scope_load (address : nat) : call (Scope V F) := load nil_dereference address.
Definition scope_store (address : nat) (s : Scope V F) : call unit :=
  store nil_dereference address s.

Definition scope_AddFinalizer (address : nat) (ctx : Ctx) (f : F) : call (bool * Cause V) :=
  let! s := scope_load address in fun w =>
  match AddFinalizer ctx f s w with
  | (true, cause, s, w) => (inl (true, cause), heap_set address s w)
  | (false, cause, _, w) => (inl (false, cause), w)
  end.

Definition scope_Interrupt (address : nat) (reason : error) : call unit :=
  let! s := scope_load address in scope_store address (Interrupt reason s).

(** [for index := len(finalizers) - 1; index >= 0; index--]. *)
Definition release_all (cleanup : Ctx) (exit : Exit V) (fs : list F) : call (Cause V) :=
  range_fold (fun cause f w =>
    let '(c, w) := runFinalizer cleanup f exit w in (inl (Then cause c), w)) (reverse fs) zeroCause.

Definition scope_Close (address : nat) (ctx : Ctx) (exit : Exit V) (reason : error)
    : call (Cause V) :=
  let! s := scope_load address in
  let '((fs, accepted), s) := beginClose exit s in
  let! _ := scope_store address s in
  if negb accepted then call_ret zeroCause else
  let! _ := scope_Interrupt address reason in
  let! _ := (fun w => (inl tt, await_children address w)) in
  let! cause := release_all (ctx_WithoutCancel ctx) exit fs in
  let! s := scope_load address in
  let! _ := scope_store address (finishClose s) in
  call_ret cause.

(** * Releases

    A release function with the closures made of it: [captured] packs the variables
    [releaseFinalizer]'s closure captures, and calling it runs that closure. *)

Definition releaseFinalizer {R E0 A} `{Erased V R} (release : A -> call (Effect R E0 unit))
    (state : St) (environment : R) (resource : A) : Finalizer V World Ctx := fun ctx _ =>
  let! fx := release resource in
  let! result := run fx ctx state environment in
  let! _ := port_Record state Released in
  let! _ := port_EmitMark state ctx EventResourceReleased in
  call_ret (default zeroCause (Exit_Cause result)).

Record Release (R A : Type) `{Erased V R} : Type := MkRelease {
  release : A -> call (Effect R Never unit);
  captured : St -> R -> A -> F;
  captured_calls : forall state environment resource,
    call_finalizer (captured state environment resource)
    = releaseFinalizer release state environment resource
}.

Definition registerRelease {R A} `{Erased V R} `{Erased V A} (scope : nat) (rel : Release R A)
    : exitObserver := fun i exit =>
  if negb (IsSuccess exit) then call_ret exit else
  let resource := asValue (A := A) (ExitValue exit) in
  let! (accepted, cleanup) :=
    scope_AddFinalizer scope (interp_Context i)
      (captured _ _ rel (interp_State i) (asEnvironment (interp_Environment i)) resource) in
  if accepted : bool then
    let! _ := port_Record (interp_State i) Acquired in
    let! _ := port_EmitMark (interp_State i) (interp_Context i) EventResourceAcquired in
    call_ret exit
  else call_ret (ExitFailure (Then (InterruptCause (Some ErrScopeClosed)) cleanup)).

Definition AcquireRelease {R E A} `{Erased V R} `{Erased V A} (scope : nat)
    (acquire : Effect R E A) (rel : Release R A) : Effect R E A :=
  withExitObserver zero_effect acquire (registerRelease scope rel).

(** The public [AddFinalizer]: a Go release function as a release workflow. *)
Definition AddFinalizerEffect {R E0} `{Erased V R} `{Erased V unit}
    (release : Ctx -> call (option error)) : Effect R E0 unit :=
  From (fun ctx _ =>
    let! err := release ctx in
    match err with
    | Some err => call_ret (ExitFailure (DieCause (MkDefect (Some (error_value err)) EmptyString)))
    | None => call_ret (ExitSuccessOf tt)
    end).

(** * Scoped *)

Definition closeScope (scope : nat) (start : Time) : exitObserver := fun i exit =>
  let ctx := interp_Context i in
  let state := interp_State i in
  let! _ := port_EmitMark state ctx EventScopeClosing in
  let! cleanup := scope_Close scope ctx exit ErrScopeClosed in
  let! _ := port_EmitEnd state ctx EventScopeClosed start (CleanupStatus cleanup) in
  if IsEmpty cleanup then call_ret exit
  else call_ret (ExitFailure (Then (ExitCause exit) cleanup)).

Definition Scoped {R E A} `{Erased V R} (use : nat -> call (Effect R E A)) : Effect R E A :=
  suspendRuntime zero_effect (fun ctx state _ =>
    let! scope := alloc NewScope in
    let! start := port_EmitStart state ctx EventScopeOpened in
    let body : Effect R E A := suspendRuntime zero_effect (fun _ _ _ => use scope) in
    call_ret (withContext zero_effect
                (withState zero_effect
                   (withExitObserver zero_effect body (closeScope scope start))
                   (replaceState (port_WithScope state scope)))
                (scope_ctx scope ctx))).

(** [withCurrentScope] hands over the ambient scope ([effect/layer.go]). *)
Definition withCurrentScope {R E A} `{Erased V R} (use : nat -> call (Effect R E A))
    : Effect R E A :=
  suspendRuntime zero_effect (fun _ state _ => use (port_Scope state)).

End Lifetimes.

Arguments release {V World Ctx St F _ _ _ _ error_value unsupported zero_effect R A _} _ _.
Arguments captured {V World Ctx St F _ _ _ _ error_value unsupported zero_effect R A _} _ _ _ _.
Arguments captured_calls {V World Ctx St F _ _ _ _ error_value unsupported zero_effect R A _} _ _ _ _.

Section Facts.
  Context {V World Ctx St F : Type} `{ContextOps World Ctx} `{StateOps St}.
  Context `{FinalizerOps F V World Ctx} `{Heap World (Scope V F)}.
  Context `{!ScopeContexts V World Ctx F} `{!ScopeChildren V World F}.
  Context `{RuntimePort V World Ctx St} `{!QuietPort V World Ctx St (Scope V F)}.
  Context (error_value : error -> V) (unsupported : error) (zero_effect nil_dereference : Panic V).
  #[local] Abbreviation Effect := (@Effect V World Ctx St).
  #[local] Abbreviation call := (call V World).
  #[local] Abbreviation runs := (runs error_value unsupported zero_effect).
  #[local] Abbreviation runs_call := (runs_call error_value unsupported zero_effect).
  #[local] Abbreviation scopes := (heap_of (Scope V F)).

Lemma release_all_run_all (cleanup : Ctx) (exit : Exit V) (fs : list F) w :
  release_all cleanup exit fs w
  = let '(cs, w') := run_all cleanup (reverse fs) exit w in (inl (foldl Then zeroCause cs), w').
Proof.
  unfold release_all. generalize (zeroCause (V := V)). generalize (reverse fs). clear fs.
  intros fs. revert w. induction fs as [|f fs IH]; intros w cause; cbn [range_fold run_all]; [done|].
  unfold call_bind. destruct (runFinalizer cleanup f exit w) as [c w1].
  rewrite IH. by destruct (run_all cleanup fs exit w1).
Qed.

Lemma scope_load_get address w s :
  heap_get address w = Some s -> scope_load nil_dereference address w = (inl s, w).
Proof. apply load_Some. Qed.

Lemma scope_store_get address w s s' :
  heap_get address w = Some s ->
  scope_store nil_dereference address s' w = (inl tt, heap_set address s' w).
Proof. apply store_Some. Qed.

(** The record a close leaves while it releases. *)
Definition closing_scope (exit : Exit V) (reason : error) (s : Scope V F) : Scope V F :=
  Interrupt reason (MkScope scopeClosing exit (cancelled s) (children s) []).

Lemma scope_Close_open address ctx exit reason w s cs w' s' :
  heap_get address w = Some s -> status s = scopeOpen ->
  run_all (ctx_WithoutCancel ctx) (reverse (finalizers s)) exit
    (await_children address (heap_set address (closing_scope exit reason s) w)) = (cs, w') ->
  heap_get address w' = Some s' ->
  scope_Close nil_dereference address ctx exit reason w
  = (inl (foldl Then zeroCause cs), heap_set address (finishClose s') w').
Proof.
  intros Hs Ho Hr Hs'. pose proof (heap_get_lt _ _ _ Hs) as Hlt.
  unfold scope_Close, call_bind at 1. rewrite (scope_load_get _ _ _ Hs).
  unfold beginClose. rewrite Ho. rewrite bool_decide_eq_true_2 by done; cbn [negb].
  unfold call_bind at 1. rewrite (scope_store_get _ _ _ _ Hs).
  unfold scope_Interrupt, call_bind at 1 2.
  rewrite (scope_load_get _ _ _ (heap_get_set address _ w Hlt)).
  rewrite (scope_store_get _ _ _ _ (heap_get_set address _ w Hlt)), heap_set_set.
  unfold call_bind at 1 2. rewrite release_all_run_all. fold (closing_scope exit reason s).
  rewrite Hr. unfold call_bind. rewrite (scope_load_get _ _ _ Hs').
  by rewrite (scope_store_get _ _ _ _ Hs').
Qed.

Lemma scope_Close_closed address ctx exit reason w s :
  heap_get address w = Some s -> status s <> scopeOpen ->
  scope_Close nil_dereference address ctx exit reason w = (inl zeroCause, heap_set address s w).
Proof.
  intros Hs Ho. unfold scope_Close, call_bind at 1. rewrite (scope_load_get _ _ _ Hs).
  unfold beginClose. rewrite bool_decide_eq_false_2 by done; cbn [negb].
  unfold call_bind. by rewrite (scope_store_get _ _ _ _ Hs).
Qed.

Lemma scope_AddFinalizer_open address ctx f w s :
  heap_get address w = Some s -> status s = scopeOpen ->
  scope_AddFinalizer nil_dereference address ctx f w
  = (inl (true, zeroCause),
     heap_set address (MkScope scopeOpen (closeExit s) (cancelled s) (children s)
                         (finalizers s ++ [f])) w).
Proof.
  intros Hs Ho. unfold scope_AddFinalizer, call_bind. rewrite (scope_load_get _ _ _ Hs).
  unfold AddFinalizer. rewrite Ho. by rewrite bool_decide_eq_true_2 by done.
Qed.

Lemma scope_AddFinalizer_closed address ctx f w s :
  heap_get address w = Some s -> status s <> scopeOpen ->
  scope_AddFinalizer nil_dereference address ctx f w
  = let '(cause, w') := runFinalizer (ctx_WithoutCancel ctx) f (closeExit s) w in
    (inl (false, cause), w').
Proof.
  intros Hs Ho. unfold scope_AddFinalizer, call_bind. rewrite (scope_load_get _ _ _ Hs).
  unfold AddFinalizer. rewrite bool_decide_eq_false_2 by done.
  by destruct (runFinalizer _ f _ w).
Qed.

(** What the body of a scope runs in. *)
Definition inside (scope : nat) (i : Interpretation V Ctx St) : Interpretation V Ctx St :=
  MkInterpretation (scope_ctx scope (interp_Context i)) (port_WithScope (interp_State i) scope)
    (interp_Environment i).

Lemma runs_Scoped {R E A} `{Erased V R} (use : nat -> call (Effect R E A)) i w :
  runs (Scoped zero_effect nil_dereference use) i w
  = let '(scope, w1) := heap_new NewScope w in
    match port_EmitStart (interp_State i) (interp_Context i) EventScopeOpened w1 with
    | (inr p, w2) => (ExitFailure (DieCause (capture p)), w2)
    | (inl start, w2) =>
        let '(x, w3) := runs_call (use scope) (inside scope i) w2 in
        observeExit (closeScope nil_dereference scope start) (inside scope i) x w3
    end.
Proof.
  unfold Scoped. rewrite runs_suspendRuntime. unfold EffectsFacts.runs_call at 1.
  unfold call_bind at 1. unfold alloc. destruct (heap_new NewScope w) as [scope w1].
  unfold call_bind at 1. destruct (port_EmitStart _ _ _ w1) as [[start|p] w2]; [|done].
  unfold call_ret at 1. rewrite runs_withContext, runs_withState. unfold replaceState, call_ret at 1.
  rewrite runs_withExitObserver, runs_suspendRuntime. done.
Qed.

Lemma closeScope_returns scope start i x w s :
  quiet (interp_State i) ->
  heap_get scope w = Some s -> status s = scopeOpen ->
  exists w1, port_EmitMark (interp_State i) (interp_Context i) EventScopeClosing w = (inl tt, w1)
  /\ scopes w1 = scopes w
  /\ let w2 := heap_set scope (closing_scope x ErrScopeClosed s) w1 in
  heap_get scope w2 = Some (closing_scope x ErrScopeClosed s) /\
  forall cs w3 s',
    run_all (ctx_WithoutCancel (interp_Context i)) (reverse (finalizers s)) x
      (await_children scope w2) = (cs, w3) ->
    heap_get scope w3 = Some s' ->
    exists w4, closeScope nil_dereference scope start i x w
      = (inl (composeCleanup x (foldl Then zeroCause cs)), w4)
      /\ heap_get scope w4 = Some (finishClose s').
Proof.
  intros Hq Hs Ho. unfold closeScope.
  destruct (quiet_mark (interp_State i) (interp_Context i) EventScopeClosing Hq w) as ([] & w1 & Hm & E1).
  assert (heap_get scope w1 = Some s) as Hs1 by (unfold heap_get in *; by rewrite E1).
  exists w1. split_and!; [done|done|apply heap_get_set; by eapply heap_get_lt|].
  intros cs w3 s' Hr Hs'. unfold call_bind. rewrite Hm.
  rewrite (scope_Close_open _ _ _ _ _ _ _ _ _ Hs1 Ho Hr Hs').
  destruct (quiet_end (interp_State i) (interp_Context i) EventScopeClosed start
    (CleanupStatus (foldl Then zeroCause cs)) Hq (heap_set scope (finishClose s') w3)) as ([] & w4 & He & E2).
  rewrite He. exists w4. unfold composeCleanup.
  destruct (IsEmpty (foldl Then zeroCause cs)); (split; [done|]);
    unfold heap_get; rewrite E2; apply heap_get_set; by eapply heap_get_lt.
Qed.

(** * Properties *)


(** Acquiring a resource in a scope. A failed acquisition registers nothing. A
    successful one on an open scope registers, in the same step, exactly one
    release, after those already there, and yields the resource; calling what was
    registered runs the release function on the resource, in the acquirer's state
    and environment, a panic of it included. On a scope no longer open the resource
    is released at once in a context that is not done, its failure is kept, and the
    acquirer is told that the scope is closed. *)
Theorem AcquireRelease_registers {R E A} `{Erased V R} `{Erased V A} (scope : nat)
    (acquire : Effect R E A) (rel : Release error_value unsupported zero_effect R A) (i : Interpretation V Ctx St)
    (w w1 : World) (x : Exit V) (s : Scope V F) :
  quiet (interp_State i) ->
  runs acquire i w = (x, w1) ->
  heap_get scope w1 = Some s ->
  let acquired := runs (AcquireRelease error_value unsupported zero_effect nil_dereference scope acquire rel) i w in
  let resource := asValue (A := A) (ExitValue x) in
  let finalizer := captured rel (interp_State i) (asEnvironment (interp_Environment i)) resource in
  call_finalizer finalizer
    = releaseFinalizer error_value unsupported zero_effect (release rel) (interp_State i)
        (asEnvironment (interp_Environment i)) resource
  /\ (IsSuccess x = false -> acquired = (x, w1))
  /\ (IsSuccess x = true -> status s = scopeOpen ->
        fst acquired = x
        /\ scopes (snd acquired)
           = <[scope := MkScope scopeOpen (closeExit s) (cancelled s) (children s)
                          (finalizers s ++ [finalizer])]> (scopes w1))
  /\ (IsSuccess x = true -> status s <> scopeOpen ->
        let '(cause, w2) := runFinalizer (ctx_WithoutCancel (interp_Context i)) finalizer
                              (closeExit s) w1 in
        acquired = (ExitFailure (Then (InterruptCause (Some ErrScopeClosed)) cause), w2)
        /\ ctx_Err (ctx_WithoutCancel (interp_Context i)) w1 = None).
Proof.
  intros Hq Hx Hs acquired resource finalizer.
  assert (acquired = observeExit (registerRelease error_value unsupported zero_effect
    nil_dereference scope rel) i x w1) as ->.
  { unfold acquired, AcquireRelease. by rewrite runs_withExitObserver, Hx. }
  split_and!; [apply captured_calls|..]; intros Hx'.
  { apply observeExit_returns. unfold registerRelease. by rewrite Hx'. }
  - intros Ho. set (registered := MkScope scopeOpen _ _ _ _).
    destruct (quiet_record (interp_State i) Acquired Hq (heap_set scope registered w1))
      as ([] & w3 & Hw3 & E3).
    destruct (quiet_mark (interp_State i) (interp_Context i) EventResourceAcquired Hq w3)
      as ([] & w4 & Hw4 & E4).
    rewrite (observeExit_returns _ i x w1 x w4).
    + split; [done|]. cbn [snd]. rewrite E4, E3. unfold heap_set. by rewrite heap_of_with.
    + unfold registerRelease. rewrite Hx'; cbn [negb]. fold resource finalizer.
      unfold call_bind at 1. rewrite (scope_AddFinalizer_open _ _ _ _ _ Hs Ho).
      fold registered. unfold call_bind. by rewrite Hw3, Hw4.
  - intros Ho. pose proof (scope_AddFinalizer_closed scope (interp_Context i) finalizer w1 s Hs Ho) as Ha.
    destruct (runFinalizer _ finalizer (closeExit s) w1) as [cause w2].
    split; [|apply ctx_WithoutCancel_Err]. apply observeExit_returns.
    unfold registerRelease. rewrite Hx'; cbn [negb]. fold resource finalizer.
    unfold call_bind. by rewrite Ha.
Qed.

End Facts.
