(* ===== verification/Layer.v ===== *)
(** Layers ([effect/layer.go]): effectful construction of an environment, and the
    lifetime it shares with the effect that consumes it. *)

From S2P Require Import Prelude Outcome Traversal OutcomeFacts Cause Interpreter InterpreterFacts.
From S2P Require Import Algebra Effects EffectsFacts Observation Calls Completion Scope Time State.
From S2P Require Import RuntimePort Lifetimes.

Section Layer.
  Context {V World Ctx St F : Type} `{ContextOps World Ctx} `{StateOps St}.
  Context `{FinalizerOps F V World Ctx} `{Heap World (Scope V F)}.
  Context `{!ScopeContexts V World Ctx F} `{!ScopeChildren V World F}.
  Context `{RuntimePort V World Ctx St}.
  Context (error_value : error -> V) (unsupported : error) (zero_effect nil_dereference : Panic V).
  #[local] Abbreviation Effect := (@Effect V World Ctx St).
  #[local] Abbreviation call := (call V World).

Record Layer (RIn E ROut : Type) : Type := MkLayer { build : Effect RIn E ROut }.
Arguments MkLayer {RIn E ROut} _.
Arguments build {RIn E ROut} _.

Definition LayerFromEffect {RIn E ROut} (build : Effect RIn E ROut) : Layer RIn E ROut :=
  MkLayer build.

Definition LayerScoped {RIn E ROut} `{Erased V RIn} (use : nat -> call (Effect RIn E ROut))
    : Layer RIn E ROut := LayerFromEffect (withCurrentScope zero_effect use).

Definition Build {RIn E ROut} (layer : Layer RIn E ROut) : Effect RIn E ROut := build layer.

Definition Layer_MapError {RIn E E2 ROut} `{Erased V E} `{Erased V E2} (layer : Layer RIn E ROut)
    (adapt : E -> E2) : Layer RIn E2 ROut :=
  LayerFromEffect (MapError zero_effect (build layer) adapt).

Definition Layer_Map {RIn E ROut ROut2} `{Erased V ROut} `{Erased V ROut2}
    (layer : Layer RIn E ROut) (f : ROut -> call ROut2) : Layer RIn E ROut2 :=
  LayerFromEffect (Map zero_effect (build layer) f).

Definition ThenLayers {RIn E ROut E2 ROut2} `{Erased V RIn} `{Erased V ROut} `{Erased V E}
    `{Erased V E2} `{Erased V (Either E E2)} (layer : Layer RIn E ROut)
    (next : Layer ROut E2 ROut2) : Layer RIn (Either E E2) ROut2 :=
  LayerFromEffect
    (FlatMap zero_effect (MapError zero_effect (build layer) (EitherLeft (R := E2)))
       (fun output => call_ret
          (ContramapEnv zero_effect (MapError zero_effect (build next) (EitherRight (L := E)))
             (constantEnvironment (R0 := RIn) output)))).

Definition ZipLayers {RIn E ROut RIn2 E2 ROut2} `{Erased V RIn} `{Erased V RIn2} `{Erased V E}
    `{Erased V E2} `{Erased V (Product RIn RIn2)} `{Erased V (Either E E2)}
    `{Erased V ROut} `{Erased V ROut2} `{Erased V (Product ROut ROut2)}
    (layer : Layer RIn E ROut) (that : Layer RIn2 E2 ROut2)
    : Layer (Product RIn RIn2) (Either E E2) (Product ROut ROut2) :=
  LayerFromEffect (ZipChannels zero_effect (build layer) (build that)).

Definition ProvideLayer {R E A RIn LE} `{Erased V R} `{Erased V RIn} `{Erased V E} `{Erased V LE}
    `{Erased V (Either LE E)} (fx : Effect R E A) (layer : Layer RIn LE R)
    : Effect RIn (Either LE E) A :=
  Scoped zero_effect nil_dereference (fun _ => call_ret
    (FlatMap zero_effect (MapError zero_effect (build layer) (EitherLeft (R := E)))
       (fun output => call_ret
          (ContramapEnv zero_effect (MapError zero_effect fx (EitherRight (L := LE)))
             (constantEnvironment (R0 := RIn) output))))).

Definition ProvideLayerSame {R E A RIn} `{Erased V R} `{Erased V RIn} (fx : Effect R E A)
    (layer : Layer RIn E R) : Effect RIn E A :=
  Scoped zero_effect nil_dereference (fun _ => call_ret
    (FlatMap zero_effect (build layer) (fun output => call_ret
       (ContramapEnv zero_effect fx (constantEnvironment (R0 := RIn) output))))).

(** * Facts *)

  #[local] Abbreviation runs := (runs error_value unsupported zero_effect).
  #[local] Abbreviation runs_call := (runs_call error_value unsupported zero_effect).

(** Construct with [build], then run [fx] in what it constructed; a failure of the
    one goes through [lhs], of the other through [rhs]. *)
Definition construct_then {RIn LE R E A} `{Erased V R} (lhs rhs : Cause V -> Cause V)
    (build : Effect RIn LE R) (fx : Effect R E A) (i : Interpretation V Ctx St) (w : World)
    : Exit V * World :=
  let '(x, w1) := runs build i w in
  if negb (IsSuccess x) then (ExitFailure (lhs (ExitCause x)), w1)
  else
    let output := asValue (A := R) (ExitValue x) in
    let '(y, w2) := runs fx (with_environment i (erase output)) w1 in
    (if IsSuccess y then y else ExitFailure (rhs (ExitCause y)), w2).

Lemma runs_construct_then {RIn LE R E A} `{Erased V R} `{Erased V RIn} `{Erased V E}
    `{Erased V LE} `{Erased V (Either LE E)} (build : Effect RIn LE R) (fx : Effect R E A) i w :
  runs (FlatMap zero_effect (MapError zero_effect build (EitherLeft (R := E)))
       (fun output => call_ret
          (ContramapEnv zero_effect (MapError zero_effect fx (EitherRight (L := LE)))
             (constantEnvironment (R0 := RIn) output)))) i w
  = construct_then (eraseFailureTransform (EitherLeft (R := E)))
      (eraseFailureTransform (EitherRight (L := LE))) build fx i w.
Proof.
  unfold construct_then. rewrite runs_FlatMap, runs_MapError. destruct (runs build i w) as [x w1].
  destruct (IsSuccess x) eqn:Hx; cbn [negb IsSuccess exit_success ExitFailure]; [|done].
  rewrite Hx. unfold EffectsFacts.runs_call, call_ret. rewrite runs_ContramapEnv.
  unfold constantEnvironment, call_ret. rewrite runs_MapError.
  destruct (runs fx _ w1) as [y w2]. by destruct (IsSuccess y).
Qed.

(** * Properties *)

(** Providing a layer runs construction and consumer in one lifetime: a scope is
    opened, the layer is built in it, the effect runs in the environment the layer
    built, and only then is the scope closed, with the outcome of the two and
    whichever of them failed. A layer's failure is told apart from the effect's,
    leaf by leaf; a failed layer means the effect never runs. A resource a scoped
    layer acquires is registered with that very scope, and chaining layers does the
    same without opening one. *)
Theorem layers_live_as_long_as_their_consumer {R E A RIn LE} `{Erased V R} `{Erased V RIn}
    `{Erased V E} `{Erased V LE} `{Erased V (Either LE E)} (fx : Effect R E A)
    (layer : Layer RIn LE R) (use : nat -> call (Effect RIn LE R))
    (i : Interpretation V Ctx St) (w : World) :
  let tagged := construct_then (eraseFailureTransform (EitherLeft (R := E)))
                  (eraseFailureTransform (EitherRight (L := LE))) in
  runs (ProvideLayer fx layer) i w
  = (let '(scope, w1) := heap_new NewScope w in
     match port_EmitStart (interp_State i) (interp_Context i) EventScopeOpened w1 with
     | (inr p, w2) => (ExitFailure (DieCause (capture p)), w2)
     | (inl start, w2) =>
         let '(x, w3) := tagged (build layer) fx (inside scope i) w2 in
         observeExit (closeScope nil_dereference scope start) (inside scope i) x w3
     end)
  /\ runs (build (ThenLayers layer (LayerFromEffect fx))) i w = tagged (build layer) fx i w
  /\ runs (build (LayerScoped use)) i w = runs_call (use (port_Scope (interp_State i))) i w.
Proof.
  intros tagged. split_and!.
  - unfold ProvideLayer. rewrite runs_Scoped. destruct (heap_new NewScope w) as [scope w1].
    destruct (port_EmitStart _ _ _ w1) as [[start|p] w2]; [|done].
    unfold EffectsFacts.runs_call, call_ret at 1. by rewrite runs_construct_then.
  - cbn. apply runs_construct_then.
  - unfold LayerScoped, LayerFromEffect, withCurrentScope; cbn [build]. by rewrite runs_suspendRuntime.
Qed.

End Layer.
