(* ===== verification/Services.v ===== *)
(** A program's dependencies, each found by its own type ([effect/env/env.go],
    [complete.go], [group.go], [resolver.go]).

    [reflect.Type] is a type of keys with the name it prints; Go's [any] is an
    [option V] as everywhere, so a nil interface registered under an interface type
    is an entry whose value is [None]. *)

From stdpp Require Import sorting.
From S2P Require Import Prelude GoStrings Outcome Traversal OutcomeFacts Cause Interpreter.
From S2P Require Import InterpreterFacts Algebra Effects EffectsFacts Observation Layer ConfigSource.

(** What Go's type system gives a value of type [A]: its key, its conversion to
    [any], and the assertion back, which succeeds on what fits the type and on
    nothing else. *)
Class TypeNames (rtype V : Type) : Type := {
  rtype_String : rtype -> string;
  fits : rtype -> V -> Prop
}.

Class ServiceType (rtype V A : Type) `{TypeNames rtype V} : Type := {
  TypeFor : rtype;
  as_any : A -> option V;
  assertion : V -> option A;
  assertion_as_any : forall a v, as_any a = Some v -> assertion v = Some a;
  fits_assertion : forall v, fits TypeFor v <-> is_Some (assertion v)
}.
Arguments TypeFor {rtype V} A {_ _}.

Section Services.
  Context {V rtype : Type} `{Countable rtype} `{!TypeNames rtype V}.

(** * The environment *)

Record Services : Type := MkServices { byType : gmap rtype (option V) }.

Definition Empty : Services := MkServices ∅.

(** [for key, value := range from { into[key] = value }]. *)
Definition copy_into (from into : gmap rtype (option V)) : gmap rtype (option V) :=
  foldl (fun m '(key, value) => <[key := value]> m) into (map_to_list from).

Definition With {A} `{!ServiceType rtype V A} (services : Services) (service : A) : Services :=
  MkServices (<[TypeFor A := as_any service]> (copy_into (byType services) ∅)).

Definition WithAll (services other : Services) : Services :=
  MkServices (copy_into (byType other) (copy_into (byType services) ∅)).

(** The zero value beside a [false] is not represented. *)
Definition Resolve (A : Type) `{!ServiceType rtype V A} (services : Services) : option A :=
  match byType services !! TypeFor A with
  | None => None
  | Some value => value ≫= assertion
  end.

Definition Holds (A : Type) `{!ServiceType rtype V A} (services : Services) : bool :=
  bool_decide (is_Some (Resolve A services)).

Definition Types (services : Services) : list string :=
  merge_sort string_le (map (fun '(dependency, _) => rtype_String dependency)
                          (map_to_list (byType services))).

Record MissingDependency : Type := MkMissingDependency {
  Type' : string;
  missing_Available : list string
}.

Definition MissingDependency_Error (failure : MissingDependency) : string :=
  ("env: no dependency of type " ++ Type' failure ++
   " was provided; this program was given " ++ Join (missing_Available failure) ", ")%string.

Definition missingDependency (A : Type) `{!ServiceType rtype V A} (services : Services)
    : MissingDependency := MkMissingDependency (rtype_String (TypeFor A)) (Types services).

(** * Whether a program was given everything it will ask for *)

(** [None] is the zero Requirement, whose type is a nil interface. *)
Record Requirement : Type := MkRequirement { dependency : option rtype }.

Definition Want (A : Type) `{!ServiceType rtype V A} : Requirement :=
  MkRequirement (Some (TypeFor A)).

Definition Requirement_String (requirement : Requirement) : string :=
  match dependency requirement with
  | None => "an unnamed dependency"
  | Some dependency => rtype_String dependency
  end.

Record Incomplete : Type := MkIncomplete {
  Absent : list string;
  Available : list string
}.

Definition complete_turn (services : Services) (st : list string * gset rtype)
    (want : Requirement) : list string * gset rtype :=
  let '(absent, seen) := st in
  match dependency want with
  | None => st
  | Some wanted =>
      if bool_decide (wanted ∈ seen) then st
      else
        let seen := {[ wanted ]} ∪ seen in
        match byType services !! wanted with
        | None => (absent ++ [Requirement_String want], seen)
        | Some _ => (absent, seen)
        end
  end.

Definition Complete (services : Services) (requirements : list Requirement) : option Incomplete :=
  let '(absent, _) := foldl (complete_turn services) ([], ∅) requirements in
  match absent with
  | [] => None
  | _ => Some (MkIncomplete absent (Types services))
  end.

Definition Incomplete_Error (incomplete : Incomplete) : string :=
  ("env: this program will ask for dependencies it was not given: " ++
   Join (Absent incomplete) ", " ++ "; it was given " ++ Join (Available incomplete) ", ")%string.

(** * Facts *)

Lemma foldl_insert_union (l : list (rtype * option V)) (into : gmap rtype (option V)) :
  NoDup l.*1 ->
  foldl (fun m '(key, value) => <[key := value]> m) into l = list_to_map l ∪ into.
Proof.
  revert into. induction l as [|[k v] l IH]; intros into Hl; cbn; [by rewrite (left_id_L _ _)|].
  apply NoDup_cons in Hl as [Hk Hl]. rewrite IH by done.
  rewrite <- insert_union_r by by apply not_elem_of_list_to_map_1. by rewrite insert_union_l.
Qed.

Lemma copy_into_union (from into : gmap rtype (option V)) : copy_into from into = from ∪ into.
Proof.
  unfold copy_into. rewrite foldl_insert_union by apply NoDup_fst_map_to_list.
  by rewrite list_to_map_to_list.
Qed.

Lemma byType_With {A} `{!ServiceType rtype V A} s (service : A) :
  byType (With s service) = <[TypeFor A := as_any service]> (byType s).
Proof. cbn. by rewrite copy_into_union, (right_id_L ∅ (∪)). Qed.

Lemma byType_WithAll s other : byType (WithAll s other) = byType other ∪ byType s.
Proof. cbn. by rewrite !copy_into_union, (right_id_L ∅ (∪)). Qed.

(** The environments a program can build. *)
Inductive provided : Services -> Prop :=
| provided_Empty : provided Empty
| provided_With {A} `{!ServiceType rtype V A} s (service : A) :
    provided s -> provided (With s service)
| provided_WithAll s other : provided s -> provided other -> provided (WithAll s other).

Definition well_typed (s : Services) : Prop :=
  map_Forall (fun t value => forall v, value = Some v -> fits t v) (byType s).

Lemma as_any_fits {A} `{!ServiceType rtype V A} (service : A) v :
  as_any service = Some v -> fits (TypeFor A) v.
Proof. intros Hv. apply fits_assertion. rewrite (assertion_as_any _ _ Hv). by eexists. Qed.

Lemma provided_well_typed s : provided s -> well_typed s.
Proof.
  unfold well_typed. induction 1 as [|A HA s service _ IH|s other _ IH _ IHo].
  - apply map_Forall_empty.
  - rewrite byType_With. apply map_Forall_insert_2; [|done]. intros v. apply as_any_fits.
  - rewrite byType_WithAll. by apply map_Forall_union_2.
Qed.

Lemma Resolve_With_same {A} `{!ServiceType rtype V A} s (service : A) :
  Resolve A (With s service) = if as_any service then Some service else None.
Proof.
  unfold Resolve. rewrite byType_With, lookup_insert_eq.
  destruct (as_any service) as [v|] eqn:Hv; [|done]. by apply assertion_as_any.
Qed.

Lemma Resolve_With_other {A B} `{!ServiceType rtype V A} `{!ServiceType rtype V B} s (service : A) :
  TypeFor A <> TypeFor B -> Resolve B (With s service) = Resolve B s.
Proof. intros Hne. unfold Resolve. by rewrite byType_With, lookup_insert_ne. Qed.

Lemma Resolve_WithAll {A} `{!ServiceType rtype V A} s other :
  Resolve A (WithAll s other)
  = if byType other !! TypeFor A then Resolve A other else Resolve A s.
Proof.
  unfold Resolve. rewrite byType_WithAll, lookup_union.
  by destruct (byType other !! _), (byType s !! _).
Qed.

(** ** What [Complete] reports *)

Fixpoint first_occurrences (l : list rtype) : list rtype :=
  match l with
  | [] => []
  | t :: l => t :: filter (fun u => u <> t) (first_occurrences l)
  end.

Definition absent_types (s : Services) (requirements : list Requirement) : list rtype :=
  filter (fun t => byType s !! t = None) (first_occurrences (omap dependency requirements)).

Lemma elem_of_first_occurrences t l : t ∈ first_occurrences l <-> t ∈ l.
Proof.
  induction l as [|u l IH]; cbn; [done|].
  rewrite !elem_of_cons, list_elem_of_filter, IH. destruct (decide (t = u)); naive_solver.
Qed.

Lemma NoDup_first_occurrences l : NoDup (first_occurrences l).
Proof.
  induction l as [|u l IH]; cbn; constructor; [|by apply NoDup_filter].
  rewrite list_elem_of_filter. naive_solver.
Qed.

Lemma first_occurrences_snoc l t :
  first_occurrences (l ++ [t]) = first_occurrences l ++ if decide (t ∈ l) then [] else [t].
Proof.
  induction l as [|u l IH]; cbn; [done|]. rewrite IH, filter_app. f_equal. f_equal.
  destruct (decide (t ∈ l)), (decide (t ∈ u :: l)); try done.
  - by destruct n; right.
  - rewrite filter_cons_False; [done|]. set_solver.
  - rewrite filter_cons_True; [done|]. set_solver.
Qed.

Lemma complete_loop s requirements :
  foldl (complete_turn s) ([], ∅) requirements
  = (map rtype_String (absent_types s requirements), list_to_set (omap dependency requirements)).
Proof.
  unfold absent_types. induction requirements as [|[d] rs IH] using rev_ind; [done|].
  rewrite foldl_snoc, IH, omap_app. cbn. destruct d as [t|]; cbn; [|by rewrite app_nil_r].
  rewrite list_to_set_app_L, first_occurrences_snoc, filter_app, map_app; cbn.
  assert (t ∈@{gset rtype} list_to_set (omap dependency rs) <-> t ∈ omap dependency rs)
    as Hin by by rewrite elem_of_list_to_set.
  case_bool_decide as Hs; (destruct (decide _); [|]); try naive_solver.
  - rewrite app_nil_r. f_equal. set_solver.
  - destruct (byType s !! t) eqn:Ht.
    + rewrite filter_cons_False by by rewrite Ht. rewrite app_nil_r. f_equal. set_solver.
    + rewrite filter_cons_True by done. f_equal. set_solver.
Qed.

(** * Properties *)

(** C20. Whatever an environment is built from, every entry fits the type it is found
    by, so resolving never fails its assertion: a type resolves exactly when it was
    registered with something other than a nil interface. What was registered last
    is what is found, under its own type only; of two environments the other one
    wins where both hold a type. *)
Theorem services_hold_their_types (s : Services) (Hs : provided s) :
  well_typed s
  /\ (forall A (HA : ServiceType rtype V A),
        Resolve A s = None
        <-> byType s !! TypeFor A = None \/ byType s !! TypeFor A = Some None)
  /\ (forall A (HA : ServiceType rtype V A) (service : A),
        Resolve A (With s service) = (if as_any service then Some service else None)
        /\ forall B (HB : ServiceType rtype V B), TypeFor A <> TypeFor B ->
             Resolve B (With s service) = Resolve B s)
  /\ (forall A (HA : ServiceType rtype V A) other,
        Resolve A (WithAll s other)
        = if byType other !! TypeFor A then Resolve A other else Resolve A s).
Proof.
  pose proof (provided_well_typed s Hs) as Hwt. split_and!; [done| |intros A HA service; split|].
  - intros A HA. unfold Resolve. destruct (byType s !! TypeFor A) as [[v|]|] eqn:Hl; cbn; [|naive_solver..].
    destruct (proj1 (fits_assertion v) (Hwt _ _ Hl _ eq_refl)) as [a ->]. naive_solver.
  - apply Resolve_With_same.
  - intros B HB. by apply Resolve_With_other.
  - intros A HA other. apply Resolve_WithAll.
Qed.

(** Checking an environment against what a program will ask for reports every type
    it holds no entry for, once each, in the order first asked, by name, along with
    what was given; it reports nothing exactly when every named requirement has an
    entry. An environment that passes resolves all of them, those registered as a
    nil interface apart. *)
Theorem Complete_reports_every_absence (s : Services) (requirements : list Requirement) :
  Complete s requirements
  = (if decide (absent_types s requirements = []) then None
     else Some (MkIncomplete (map rtype_String (absent_types s requirements)) (Types s)))
  /\ NoDup (absent_types s requirements)
  /\ (forall t, t ∈ absent_types s requirements
                <-> MkRequirement (Some t) ∈ requirements /\ byType s !! t = None)
  /\ (provided s -> Complete s requirements = None ->
      forall A (HA : ServiceType rtype V A), Want A ∈ requirements ->
      byType s !! TypeFor A = Some None \/ is_Some (Resolve A s)).
Proof.
  assert (forall t, t ∈ absent_types s requirements
                <-> MkRequirement (Some t) ∈ requirements /\ byType s !! t = None) as Hin.
  { intros t. unfold absent_types.
    rewrite list_elem_of_filter, elem_of_first_occurrences, list_elem_of_omap.
    split; [intros (? & [[u|]] & ? & ?)|intros []]; naive_solver. }
  assert (Complete s requirements
    = (if decide (absent_types s requirements = []) then None
       else Some (MkIncomplete (map rtype_String (absent_types s requirements)) (Types s)))) as Hc.
  { unfold Complete. rewrite complete_loop. by destruct (absent_types s requirements). }
  split_and!; [done| |done|].
  - apply NoDup_filter, NoDup_first_occurrences.
  - intros Hs Hnone A HA Hwant. rewrite Hc in Hnone. destruct (decide _) as [Habsent|]; [|done].
    destruct (byType s !! TypeFor A) as [[v|]|] eqn:Hl; [|by left|].
    + right. unfold Resolve. rewrite Hl; cbn. apply fits_assertion.
      by apply (provided_well_typed s Hs _ _ Hl).
    + assert (TypeFor A ∈ absent_types s requirements) as Hbad by by apply Hin.
      rewrite Habsent in Hbad. by apply not_elem_of_nil in Hbad.
Qed.

(** A nil interface is an entry, so checking an environment finds nothing wrong
    with it, and resolving it finds nothing there. *)
Lemma nil_interface_is_complete_but_unresolved {A} `{!ServiceType rtype V A} s (service : A) :
  as_any service = None ->
  Complete (With s service) [Want A] = None /\ Resolve A (With s service) = None.
Proof.
  intros Hnil. rewrite Resolve_With_same, Hnil. split; [|done].
  unfold Complete; cbn. rewrite copy_into_union, lookup_insert_eq. by case_bool_decide.
Qed.

End Services.

(** * Environments built in groups *)

Section Groups.
  Context {V World Ctx St rtype : Type} `{ContextOps World Ctx} `{StateOps St}.
  Context `{Countable rtype} `{!TypeNames rtype V}.
  #[local] Abbreviation Services := (@Services V rtype _ _).
  Context `{Erased V Services}.
  Context (error_value : error -> V) (unsupported : error) (zero_effect : Panic V).
  Context (missing_value : MissingDependency -> V).
  #[local] Abbreviation Effect := (@Effect V World Ctx St).
  #[local] Abbreviation call := (call V World).

Definition Group (E : Type) : Type := @Layer V World Ctx St Services E Services.

Definition GroupFromEffect {E} (build : Effect Services E Services) : Group E :=
  LayerFromEffect build.

Definition GroupOf {E} (services : Services) : Group E := GroupFromEffect (SucceedWith services).

Definition extend {E} (soFar : Services) (group : Group E) : Effect Services E Services :=
  Map zero_effect
    (ContramapEnv zero_effect (Build group) (fun _ : Services => call_ret soFar))
    (fun additions => call_ret (WithAll soFar additions)).

Definition ThenGroup {E} (first next : Group E) : Group E :=
  GroupFromEffect
    (FlatMap zero_effect (Build first) (fun environment => call_ret (extend environment next))).

Definition Assemble {E} (groups : list (Group E)) : Group E :=
  foldl ThenGroup (GroupOf Empty) groups.

(** A dependency resolved from the environment: a defect when there is none. *)
Definition Service (A E : Type) `{!ServiceType rtype V A} `{Erased V A} : Effect Services E A :=
  From (fun _ services =>
    match Resolve A services with
    | None =>
        call_ret (ExitFailure (DieCause
          (MkDefect (Some (missing_value (missingDependency A services))) EmptyString)))
    | Some service => call_ret (ExitSuccessOf service)
    end).

  #[local] Abbreviation runs := (runs error_value unsupported zero_effect).

(** What assembling is meant to do: each group is built from what is there so far
    and adds to it, until one of them does not succeed. *)
Fixpoint accumulate {E} (groups : list (Group E)) (soFar : Services)
    (i : Interpretation V Ctx St) (w : World) : Exit V * World :=
  match groups with
  | [] => (ExitSuccess (erase soFar), w)
  | group :: rest =>
      let '(x, w') := runs (Build group) (with_environment i (erase soFar)) w in
      if IsSuccess x then accumulate rest (WithAll soFar (asValue (ExitValue x))) i w'
      else (x, w')
  end.

Lemma runs_extend {E} soFar (group : Group E) i w :
  runs (extend soFar group) i w = accumulate [group] soFar i w.
Proof.
  unfold extend. rewrite runs_Map, runs_ContramapEnv. unfold call_ret; cbn [accumulate].
  by destruct (runs (Build group) _ w) as [x w'].
Qed.

Lemma accumulate_app {E} (groups rest : list (Group E)) soFar i w :
  accumulate (groups ++ rest) soFar i w
  = let '(x, w') := accumulate groups soFar i w in
    if IsSuccess x then accumulate rest (asValue (ExitValue x)) i w' else (x, w').
Proof.
  revert soFar w. induction groups as [|group groups IH]; intros soFar w; cbn.
  - by rewrite unerase_erase.
  - destruct (runs _ _ w) as [x w']. destruct (IsSuccess x) eqn:Hx; [apply IH|]. by rewrite Hx.
Qed.

Lemma runs_ThenGroup {E} (first next : Group E) i w :
  runs (Build (ThenGroup first next)) i w
  = let '(x, w') := runs (Build first) i w in
    if IsSuccess x then accumulate [next] (asValue (ExitValue x)) i w' else (x, w').
Proof.
  change (Build (ThenGroup first next)) with
    (FlatMap zero_effect (Build first) (fun environment => call_ret (extend environment next))).
  rewrite runs_FlatMap. destruct (runs (Build first) i w) as [x w'].
  destruct (IsSuccess x); [|done]. apply runs_extend.
Qed.

(** Assembling groups builds them in the order given, each from everything the
    earlier ones provided and nothing else, and answers with all of it, the later
    word winning; the first group that does not succeed ends it with its outcome.
    Nothing of the environment the assembly itself is run in reaches a group. *)
Theorem Assemble_accumulates {E} (groups : list (Group E)) i w :
  runs (Build (Assemble groups)) i w
  = match ctx_Err (interp_Context i) w with
    | Some _ => (interrupted_exit i w, w)
    | None => accumulate groups Empty i w
    end.
Proof.
  unfold Assemble. induction groups as [|group groups IH] using rev_ind.
  - cbn [foldl accumulate].
    change (Build (GroupOf Empty)) with (SucceedWith Empty : Effect Services E Services).
    rewrite runs_SucceedWith. unfold checkpoint. by destruct (ctx_Err _ w).
  - rewrite foldl_snoc, runs_ThenGroup, IH, accumulate_app.
    by destruct (ctx_Err _ w).
Qed.

(** So a group made by assembling others is not built from the ones before it,
    although a group composed after another is. *)
Lemma nested_Assemble_starts_over {E} (first group : Group E) i w environment w' :
  runs (Build first) i w = (ExitSuccess (erase environment), w') ->
  ctx_Err (interp_Context i) w' = None ->
  let '(x, w'') := runs (Build group) (with_environment i (erase Empty)) w' in
  let '(y, v'') := runs (Build group) (with_environment i (erase environment)) w' in
  runs (Build (ThenGroup first (Assemble [group]))) i w
  = (if IsSuccess x
     then ExitSuccess (erase (WithAll environment (WithAll Empty (asValue (ExitValue x))))) else x,
     w'')
  /\ runs (Build (ThenGroup first group)) i w
     = (if IsSuccess y
        then ExitSuccess (erase (WithAll environment (asValue (ExitValue y)))) else y, v'').
Proof.
  intros Hfirst Hlive. destruct (runs (Build group) (with_environment i (erase Empty)) w') as [x w''] eqn:Hx.
  destruct (runs (Build group) (with_environment i (erase environment)) w') as [y v''] eqn:Hy.
  assert (forall s : Services, asValue (ExitValue (ExitSuccess (erase s))) = s) as Hvalue
    by apply unerase_erase.
  rewrite !runs_ThenGroup, Hfirst, Hvalue. cbn [accumulate].
  rewrite Hy, Assemble_accumulates. cbn [with_environment interp_Context]. rewrite Hlive.
  change (IsSuccess (ExitSuccess _)) with true; cbn [accumulate]. split; [|by destruct (IsSuccess y)].
  change (with_environment (with_environment i _) (erase Empty))
    with (with_environment i (erase Empty)).
  rewrite Hx. destruct (IsSuccess x) eqn:Hsx; [by rewrite Hvalue|]. by rewrite Hsx.
Qed.

(** Asking for a dependency succeeds with it, and is a defect carrying the report
    of what is missing, never a failure, when the environment resolves none. *)
Lemma runs_Service {A E} `{!ServiceType rtype V A} `{Erased V A} i w :
  let services := asEnvironment (interp_Environment i) in
  runs (Service A E) i w
  = (checkpoint i w
       (match Resolve A services with
        | Some service => ExitSuccess (erase service)
        | None =>
            ExitFailure (DieCause
              (MkDefect (Some (missing_value (missingDependency A services))) EmptyString))
        end), w).
Proof.
  cbn zeta. unfold Service. rewrite runs_From. unfold checkpoint.
  destruct (ctx_Err _ w); [done|]. by destruct (Resolve A _).
Qed.

End Groups.
