(* ===== verification/Runtime.v ===== *)
(** Runtimes ([effect/runtime.go], [runtime_options.go]): construction from
    validated options, a run inside a lifetime of its own, and the close that ends
    the root lifetime, flushes what buffers and reports what was left over.

    The live capabilities of the platform and the buffering capabilities an
    application passes are parameters. *)

From S2P Require Import Prelude GoStrings Outcome Traversal OutcomeFacts Cause Interpreter InterpreterFacts.
From S2P Require Import Algebra Effects EffectsFacts Observation Calls Completion Scope ConfigSource Time.
From S2P Require Import State RuntimePort Lifetimes.

Section Runtime.
  Context {V World Ctx Attr FS Logger F : Type} `{ContextOps World Ctx}.
  Context `{FinalizerOps F V World Ctx} `{Heap World (Scope V F)} `{Heap World Ledger}.
  Context `{!ScopeContexts V World Ctx F} `{!ScopeChildren V World F} `{Erased V unit}.
  #[local] Abbreviation State := (@State V World Ctx Attr FS Logger).
  #[local] Abbreviation CapabilitySet := (@CapabilitySet V World Ctx Attr FS Logger).
  #[local] Abbreviation Effect := (@Effect V World Ctx State).
  #[local] Abbreviation call := (call V World).
  #[local] Abbreviation Clock := (@Clock V World Ctx).
  #[local] Abbreviation Observe := (Ctx -> @RuntimeEvent Attr -> call unit).
  #[local] Abbreviation Diagnose := (Ctx -> RuntimeFault -> call unit).
  (** [capability.Flusher]. *)
  #[local] Abbreviation Flush := (Ctx -> call (option error)).
  Context (sprint : V -> string) (error_value : error -> V) (unsupported : error).
  Context (zero_effect nil_dereference nil_runtime : Panic V).
  (** What [debug.Stack] prints, and a runtime fault as a panic value. *)
  Context (stack : string) (fault_value : RuntimeFault -> V).
  (** The live capabilities, and the type assertions to [Flusher]. *)
  Context (LiveClock : Clock) (LiveFileSystem : FS) (LiveLogger : Logger).
  Context (LiveDiagnostics : Diagnose) (Environment : Source).
  Context (observer_Flusher : Observe -> option Flush) (logger_Flusher : Logger -> option Flush).

(** * Options ([runtime_options.go]) *)

Record runtimeConfig : Type := MkConfig {
  config_capabilities : CapabilitySet;
  config_ledger : option nat
}.

(** Each option type, with the possibly nil capability it carries. *)
Inductive RuntimeOption : Type :=
| clockOption (clock : option Clock)
| fileSystemOption (fileSystem : option FS)
| loggerOption (logger : option Logger)
| configSourceOption (source : option Source)
| debugTracking
| diagnosticsOption (diagnostics : option Diagnose)
| observerOption (observer : option Observe).

Definition WithClock (clock : option Clock) : RuntimeOption := clockOption clock.
Definition WithFileSystem (fileSystem : option FS) : RuntimeOption := fileSystemOption fileSystem.
Definition WithLogger (logger : option Logger) : RuntimeOption := loggerOption logger.
Definition WithConfigSource (source : option Source) : RuntimeOption := configSourceOption source.
Definition WithDebugTracking : RuntimeOption := debugTracking.
Definition WithDiagnostics (diagnostics : option Diagnose) : RuntimeOption :=
  diagnosticsOption diagnostics.
Definition WithObserver (observer : option Observe) : RuntimeOption := observerOption observer.

Definition must_not_be_nil (identity : Z) (what : string) : error :=
  MkError identity ("effect: " ++ what ++ " must not be nil")%string [].

Definition set_capabilities (config : runtimeConfig) (caps : CapabilitySet)
    : call (option error * runtimeConfig) :=
  call_ret (None, MkConfig caps (config_ledger config)).

Definition refuse (config : runtimeConfig) (err : error) : call (option error * runtimeConfig) :=
  call_ret (Some err, config).

(** Each option's [apply] writes to the configuration it is given a pointer to. *)
Definition clockOption_apply (clock : option Clock) (config : runtimeConfig)
    : call (option error * runtimeConfig) :=
  match clock with
  | None => refuse config (must_not_be_nil 601 "Clock capability")
  | Some clock =>
      let c := config_capabilities config in
      set_capabilities config (MkSet clock (cap_FileSystem c) (cap_Logger c)
                                 (cap_Observer c) (cap_Diagnostics c) (cap_ConfigSource c))
  end.

Definition fileSystemOption_apply (fileSystem : option FS) (config : runtimeConfig)
    : call (option error * runtimeConfig) :=
  match fileSystem with
  | None => refuse config (must_not_be_nil 602 "FileSystem capability")
  | Some fileSystem =>
      let c := config_capabilities config in
      set_capabilities config (MkSet (cap_Clock c) fileSystem (cap_Logger c)
                                 (cap_Observer c) (cap_Diagnostics c) (cap_ConfigSource c))
  end.

Definition loggerOption_apply (logger : option Logger) (config : runtimeConfig)
    : call (option error * runtimeConfig) :=
  match logger with
  | None => refuse config (must_not_be_nil 603 "Logger capability")
  | Some logger =>
      let c := config_capabilities config in
      set_capabilities config (MkSet (cap_Clock c) (cap_FileSystem c) logger
                                 (cap_Observer c) (cap_Diagnostics c) (cap_ConfigSource c))
  end.

Definition configSourceOption_apply (source : option Source) (config : runtimeConfig)
    : call (option error * runtimeConfig) :=
  match source with
  | None => refuse config (must_not_be_nil 604 "ConfigSource capability")
  | Some source =>
      let c := config_capabilities config in
      set_capabilities config (MkSet (cap_Clock c) (cap_FileSystem c) (cap_Logger c)
                                 (cap_Observer c) (cap_Diagnostics c) (Some source))
  end.

Definition debugTracking_apply (config : runtimeConfig) : call (option error * runtimeConfig) :=
  let! ledger := alloc (MkLedger 0 0 0 0) in
  call_ret (None, MkConfig (config_capabilities config) (Some ledger)).

Definition diagnosticsOption_apply (diagnostics : option Diagnose) (config : runtimeConfig)
    : call (option error * runtimeConfig) :=
  match diagnostics with
  | None => refuse config (must_not_be_nil 605 "Diagnostics capability")
  | Some diagnostics =>
      let c := config_capabilities config in
      set_capabilities config (MkSet (cap_Clock c) (cap_FileSystem c) (cap_Logger c)
                                 (cap_Observer c) (Some diagnostics) (cap_ConfigSource c))
  end.

Definition observerOption_apply (observer : option Observe) (config : runtimeConfig)
    : call (option error * runtimeConfig) :=
  match observer with
  | None => refuse config (must_not_be_nil 606 "Observer")
  | Some observer =>
      let c := config_capabilities config in
      set_capabilities config (MkSet (cap_Clock c) (cap_FileSystem c) (cap_Logger c)
                                 (Some observer) (cap_Diagnostics c) (cap_ConfigSource c))
  end.

Definition apply (this : RuntimeOption) (config : runtimeConfig)
    : call (option error * runtimeConfig) :=
  match this with
  | clockOption clock => clockOption_apply clock config
  | fileSystemOption fileSystem => fileSystemOption_apply fileSystem config
  | loggerOption logger => loggerOption_apply logger config
  | configSourceOption source => configSourceOption_apply source config
  | debugTracking => debugTracking_apply config
  | diagnosticsOption diagnostics => diagnosticsOption_apply diagnostics config
  | observerOption observer => observerOption_apply observer config
  end.

(** * Construction ([runtime.go]) *)

(** A nil Runtime is [None]; the zero Runtime has a nil state. *)
Record Runtime : Type := MkRuntime {
  runtime_state : option State;
  runtime_root : nat;
  runtime_ledger : option nat
}.

Definition live_capabilities : CapabilitySet :=
  MkSet LiveClock LiveFileSystem LiveLogger None (Some LiveDiagnostics) (Some Environment).

Definition nil_option : error := must_not_be_nil 607 "RuntimeOption".

(** The loop over the options: the first error, or the configuration. *)
Fixpoint applyAll (options : list (option RuntimeOption)) (setup : runtimeConfig)
    : call (runtimeConfig + error) :=
  match options with
  | [] => call_ret (inl setup)
  | None :: _ => call_ret (inr nil_option)
  | Some this :: rest =>
      let! (err, setup) := apply this setup in
      match err with
      | Some err => call_ret (inr err)
      | None => applyAll rest setup
      end
  end.

Definition NewRuntime (options : list (option RuntimeOption))
    : call (Runtime * identifiers + error) :=
  let! setup := applyAll options (MkConfig live_capabilities None) in
  match setup with
  | inr err => call_ret (inr err)
  | inl setup =>
      let! root := alloc NewScope in
      let '(state, ids) := NewState (config_capabilities setup) root (config_ledger setup) in
      call_ret (inl (MkRuntime (Some state) root (config_ledger setup), ids))
  end.

(** * Running *)

Definition ErrRuntimeClosed : error := MkError 507 "effect: runtime closed" [].

Definition Runtime_Run {R E A} `{Erased V R} (runtime : option Runtime) (ctx : Ctx) (env : R)
    (fx : Effect R E A) : call (Exit V) :=
  match runtime ≫= runtime_state with
  | None => call_panic nil_runtime
  | Some state =>
      let! scope := alloc NewScope in
      let! exit := run error_value unsupported zero_effect fx (scope_ctx scope ctx)
                     (WithScope state scope) env in
      let! cleanup := scope_Close nil_dereference scope ctx exit ErrScopeClosed in
      call_ret (composeCleanup exit cleanup)
  end.

(** * Closing *)

Definition flushOne (ctx : Ctx) (subject : option Flush) (component : FaultComponent)
    : call (Cause V) :=
  match subject with
  | None => call_ret zeroCause
  | Some flush =>
      let! err := flush ctx in
      match err with
      | None => call_ret zeroCause
      | Some err =>
          call_ret (DieCause (CaptureDefect
            (Some (fault_value (MkRuntimeFault component "flush" (Some err)))) stack))
      end
  end.

Definition flushCapabilities (ctx : Ctx) (state : State) : call (Cause V) :=
  let caps := capabilities state in
  let! cause := flushOne ctx (cap_Observer caps ≫= observer_Flusher) FaultObserver in
  let! logger := flushOne ctx (logger_Flusher (cap_Logger caps)) FaultLogger in
  call_ret (Then cause logger).

(** [runtime.ledger.Live()]. *)
Definition LiveWorkOf (runtime : Runtime) : call LiveWork :=
  match runtime_ledger runtime with
  | None => call_ret (Live None)
  | Some address => let! l := load nil_dereference address in call_ret (Live (Some l))
  end.

Definition remaining_work (live : LiveWork) : RuntimeFault :=
  MkRuntimeFault FaultRuntime "close"
    (Some (MkError 608 ("effect: " ++ decimal (Fibers live) ++ " fiber(s) and "
             ++ decimal (Resources live) ++ " resource(s) were still owned at Close")%string [])).

Definition reportRemainingWork (runtime : Runtime) (state : State) (ctx : Ctx) : call unit :=
  let! live := LiveWorkOf runtime in
  if LiveWork_IsEmpty live then call_ret tt else Report state ctx (remaining_work live).

(** [runtime.close], whose state is not nil. *)
Definition runtime_close (runtime : Runtime) (state : State) (ctx : Ctx) : call (Cause V) :=
  let! _ := reportRemainingWork runtime state ctx in
  let! start := EmitStart sprint state ctx EventRuntimeClosing in
  let! cleanup := scope_Close nil_dereference (runtime_root runtime) ctx
                    (ExitSuccessOf tt) ErrRuntimeClosed in
  let! flushed := flushCapabilities ctx state in
  let cleanup := Then cleanup flushed in
  let! _ := EmitEnd sprint state ctx EventRuntimeClosed start (CleanupStatus cleanup) in
  call_ret cleanup.

Definition Runtime_Close (runtime : option Runtime) (ctx : Ctx) : call (Cause V) :=
  match runtime with
  | None => call_panic nil_runtime
  | Some runtime =>
      match runtime_state runtime with
      | None => call_panic nil_runtime
      | Some state => runtime_close runtime state ctx
      end
  end.

(** The package's [Run]: a runtime of its own, closed before it returns. *)
Definition Run {R E A} `{Erased V R} (ctx : Ctx) (env : R) (fx : Effect R E A) : call (Exit V) :=
  let! created := NewRuntime [] in
  match created with
  | inr err => call_panic (MkPanic (error_value err) stack)
  | inl (runtime, _) =>
      let! exit := Runtime_Run (Some runtime) ctx env fx in
      let! cleanup := Runtime_Close (Some runtime) ctx in
      call_ret (composeCleanup exit cleanup)
  end.

(** * Facts *)

Definition last_override {A} (select : RuntimeOption -> option A) (options : list RuntimeOption)
    (live : A) : A := foldl (fun a this => default a (select this)) live options.

Definition clock_of (this : RuntimeOption) : option Clock :=
  match this with clockOption clock => clock | _ => None end.
Definition fileSystem_of (this : RuntimeOption) : option FS :=
  match this with fileSystemOption fileSystem => fileSystem | _ => None end.
Definition logger_of (this : RuntimeOption) : option Logger :=
  match this with loggerOption logger => logger | _ => None end.
Definition observer_of (this : RuntimeOption) : option (option Observe) :=
  match this with observerOption observer => Some observer | _ => None end.
Definition diagnostics_of (this : RuntimeOption) : option (option Diagnose) :=
  match this with diagnosticsOption diagnostics => Some diagnostics | _ => None end.
Definition source_of (this : RuntimeOption) : option (option Source) :=
  match this with configSourceOption source => Some source | _ => None end.

(** What options are meant to make of a set of capabilities. *)
Definition overridden (options : list RuntimeOption) (c : CapabilitySet) : CapabilitySet :=
  MkSet (last_override clock_of options (cap_Clock c))
    (last_override fileSystem_of options (cap_FileSystem c))
    (last_override logger_of options (cap_Logger c))
    (last_override observer_of options (cap_Observer c))
    (last_override diagnostics_of options (cap_Diagnostics c))
    (last_override source_of options (cap_ConfigSource c)).

Definition is_tracking (this : RuntimeOption) : bool :=
  match this with debugTracking => true | _ => false end.

(** Why an option is refused, if it is. *)
Definition refusal (this : option RuntimeOption) : option error :=
  match this with
  | None => Some nil_option
  | Some (clockOption None) => Some (must_not_be_nil 601 "Clock capability")
  | Some (fileSystemOption None) => Some (must_not_be_nil 602 "FileSystem capability")
  | Some (loggerOption None) => Some (must_not_be_nil 603 "Logger capability")
  | Some (configSourceOption None) => Some (must_not_be_nil 604 "ConfigSource capability")
  | Some (diagnosticsOption None) => Some (must_not_be_nil 605 "Diagnostics capability")
  | Some (observerOption None) => Some (must_not_be_nil 606 "Observer")
  | _ => None
  end.

Lemma apply_cases (this : RuntimeOption) config w :
  exists w', heap_of Ledger w' = heap_of Ledger w ++ (if is_tracking this then [MkLedger 0 0 0 0] else [])
  /\ (forall `{!HeapsApart World Ledger (Scope V F)},
         heap_of (Scope V F) w' = heap_of (Scope V F) w)
  /\ apply this config w
  = (inl match refusal (Some this) with
         | Some err => (Some err, config)
         | None => (None, MkConfig (overridden [this] (config_capabilities config))
                            (if is_tracking this then Some (heap_fresh (T := Ledger) w)
                             else config_ledger config))
         end, w').
Proof.
  destruct this as [[clock|]|[fs|]|[logger|]|[source|]| |[diagnose|]|[observe|]]; cbn [is_tracking].
  all: try (exists w; rewrite app_nil_r; split_and!; [done|done|by destruct config as [[]]]).
  eexists. split_and!; [| |destruct config as [[] ?]; cbn; reflexivity].
  - by rewrite heap_of_with.
  - intros Hapart. apply (heap_apart (T := Ledger)).
Qed.

Lemma overridden_cons this options c :
  overridden options (overridden [this] c) = overridden (this :: options) c.
Proof. done. Qed.

Definition tracked (options : list RuntimeOption) : bool := existsb is_tracking options.

Lemma applyAll_cases `{!HeapsApart World Ledger (Scope V F)} options config w :
  exists r w', applyAll options config w = (inl r, w')
  /\ heap_of (Scope V F) w' = heap_of (Scope V F) w
  /\ heap_of Ledger w `prefix_of` heap_of Ledger w'
  /\ match head (omap refusal options) with
     | Some err => r = inr err
     | None => exists ledger,
         r = inl (MkConfig (overridden (omap id options) (config_capabilities config)) ledger)
         /\ if tracked (omap id options)
            then exists address, ledger = Some address
                 /\ heap_get address w' = Some (MkLedger 0 0 0 0)
            else ledger = config_ledger config
     end.
Proof.
  revert config w. induction options as [|[this|] options IH]; intros config w.
  - exists (inl config), w. split_and!; [done..|]. exists (config_ledger config).
    by destruct config as [[]].
  - destruct (apply_cases this config w) as (w1 & El & Es & Ha).
    cbn [applyAll]. unfold call_bind. rewrite Ha; clear Ha.
    change (head (omap refusal (Some this :: options))) with
      (head match refusal (Some this) with
            | Some err => err :: omap refusal options
            | None => omap refusal options
            end).
    destruct (refusal (Some this)) as [err|]; cbn [head].
    { exists (inr err), w1. split_and!; [done|by apply Es| |done]. rewrite El. by apply prefix_app_r. }
    destruct (IH (MkConfig (overridden [this] (config_capabilities config))
                  (if is_tracking this then Some (heap_fresh (T := Ledger) w)
                   else config_ledger config)) w1) as (r & w2 & Hr & Es2 & El2 & Hcase).
    exists r, w2. split_and!; [done|by rewrite Es2, Es| |].
    { etransitivity; [|done]. rewrite El. by apply prefix_app_r. }
    destruct (head (omap refusal options)) as [err|]; [done|].
    destruct Hcase as (ledger & -> & Hl). exists ledger. split; [done|].
    change (tracked (omap id (Some this :: options)))
      with (is_tracking this || tracked (omap id options)).
    destruct (tracked (omap id options)).
    { by rewrite orb_true_r. }
    rewrite orb_false_r. cbn in Hl. destruct (is_tracking this); [|done].
    exists (heap_fresh (T := Ledger) w). split; [done|]. unfold heap_get, heap_fresh.
    eapply prefix_lookup_Some; [|done]. rewrite El. by apply list_lookup_middle.
  - exists (inr nil_option), w. by split_and!.
Qed.

(** * Properties *)

(** Options are applied in order over the live defaults, the last word on each
    capability winning. The first one that is nil, or carries a nil capability,
    refuses the runtime with its own error, before any lifetime is opened; otherwise
    a runtime is made, whose root is fresh and open, and which counts its work, on a
    ledger at zero, exactly when it was asked to. *)
Theorem NewRuntime_applies_options `{!HeapsApart World Ledger (Scope V F)}
    (options : list (option RuntimeOption)) (w : World) :
  match head (omap refusal options) with
  | Some err =>
      exists w', NewRuntime options w = (inl (inr err), w')
      /\ heap_of (Scope V F) w' = heap_of (Scope V F) w
  | None =>
      let root := heap_fresh (T := Scope V F) w in
      exists state ledger w',
      NewRuntime options w
      = (inl (inl (MkRuntime (Some state) root ledger, MkIdentifiers 0 0)), w')
      /\ state = MkState (overridden (omap id options) live_capabilities) zeroMetadata root root ledger
      /\ heap_of (Scope V F) w' = heap_of (Scope V F) w ++ [NewScope]
      /\ (tracked (omap id options) = false -> ledger = None)
      /\ (tracked (omap id options) = true -> is_Some ledger)
  end.
Proof.
  destruct (applyAll_cases options (MkConfig live_capabilities None) w) as (r & w1 & Hr & Es & _ & Hcase).
  unfold NewRuntime, call_bind. rewrite Hr.
  destruct (head (omap refusal options)) as [err|]; [by rewrite Hcase; eauto|].
  destruct Hcase as (ledger & -> & Hl). eexists _, ledger, _. split_and!; [|reflexivity|..].
  - cbn. unfold heap_fresh. by rewrite Es.
  - by rewrite heap_of_with, ?Es.
  - by destruct (tracked (omap id options)).
  - destruct (tracked (omap id options)); [|done]. by destruct Hl as (address & -> & _).
Qed.

  #[local] Abbreviation runs := (runs error_value unsupported zero_effect).

Lemma run_runs {R E A} `{Erased V R} (fx : Effect R E A) ctx state (env : R) w :
  run error_value unsupported zero_effect fx ctx state env w
  = let '(x, w') := runs fx (MkInterpretation ctx state (erase env)) w in (inl x, w').
Proof. done. Qed.

(** Running an effect opens a lifetime of its own, runs the effect in it, and
    closes it before it returns, however the effect ended: everything registered in
    it by then is released, newest first, after its children are done; the exit is
    the effect's with the failures of the releases after it. *)
Theorem Run_closes_its_lifetime {R E A} `{Erased V R} runtime state (ctx : Ctx) (env : R)
    (fx : Effect R E A) w x w1 s cs w2 s' :
  runtime_state runtime = Some state ->
  let scope := heap_fresh (T := Scope V F) w in
  let i := MkInterpretation (scope_ctx scope ctx) (WithScope state scope) (erase env) in
  runs fx i (snd (heap_new (T := Scope V F) NewScope w)) = (x, w1) ->
  heap_get scope w1 = Some s -> status s = scopeOpen ->
  run_all (ctx_WithoutCancel ctx) (reverse (finalizers s)) x
    (await_children scope (heap_set scope (closing_scope x ErrScopeClosed s) w1)) = (cs, w2) ->
  heap_get scope w2 = Some s' ->
  exists cause,
  Runtime_Run (Some runtime) ctx env fx w
  = (inl (composeCleanup x cause), heap_set scope (finishClose s') w2)
  /\ leaves cause = concat (map leaves cs).
Proof.
  intros Hstate scope i Hx Hs Ho Hr Hs'. exists (foldl Then zeroCause cs).
  split; [|by rewrite leaves_foldl_Then].
  unfold Runtime_Run; cbn [mbind option_bind]. rewrite Hstate.
  unfold call_bind at 1. unfold alloc.
  change (heap_new NewScope w) with (scope, snd (heap_new (T := Scope V F) NewScope w)).
  unfold call_bind at 1. rewrite run_runs. fold i. rewrite Hx.
  unfold call_bind. by rewrite (scope_Close_open _ _ _ _ _ _ _ _ _ _ Hs Ho Hr Hs').
Qed.

(** What flushing comes to: the failures of the observer, then of the logger. *)
Lemma flushOne_cases ctx (subject : option Flush) component w :
  flushOne ctx subject component w
  = match subject with
    | None => (inl zeroCause, w)
    | Some flush =>
        match flush ctx w with
        | (inl None, w') => (inl zeroCause, w')
        | (inl (Some err), w') =>
            (inl (DieCause (CaptureDefect
               (Some (fault_value (MkRuntimeFault component "flush" (Some err)))) stack)), w')
        | (inr p, w') => (inr p, w')
        end
    end.
Proof.
  destruct subject as [flush|]; [|done]. unfold flushOne, call_bind.
  by destruct (flush ctx w) as [[[err|]|p] w'].
Qed.

Lemma settles_reportRemainingWork (runtime : Runtime) (state : State) ctx :
  runtime_ledger runtime = None ->
  reportRemainingWork runtime state ctx = (fun w => (inl tt, w)).
Proof. intros Hl. unfold reportRemainingWork, LiveWorkOf. by rewrite Hl. Qed.

(** Closing a runtime ends the root lifetime: it refuses new work, is cancelled,
    waits for the work detached to it and releases what was registered with it,
    newest first; only then are the capabilities that buffer flushed, the observer
    before the logger, and a flush that fails is a defect after the failures of the
    releases. *)
Theorem Close_releases_then_flushes runtime state (ctx : Ctx) w :
  runtime_state runtime = Some state -> runtime_ledger runtime = None ->
  quiet_state (T := Scope V F) state ->
  exists start w1,
  EmitStart sprint state ctx EventRuntimeClosing w = (inl start, w1)
  /\ heap_of (Scope V F) w1 = heap_of (Scope V F) w
  /\ forall s, heap_get (runtime_root runtime) w = Some s ->
     (status s <> scopeOpen ->
        Runtime_Close (Some runtime) ctx w
        = (let! flushed := flushCapabilities ctx state in
           let! _ := EmitEnd sprint state ctx EventRuntimeClosed start (CleanupStatus flushed) in
           call_ret flushed) w1)
     /\ (status s = scopeOpen ->
        forall cs w2 s',
        run_all (ctx_WithoutCancel ctx) (reverse (finalizers s)) (ExitSuccessOf tt)
          (await_children (runtime_root runtime)
             (heap_set (runtime_root runtime)
                (closing_scope (ExitSuccessOf tt) ErrRuntimeClosed s) w1)) = (cs, w2) ->
        heap_get (runtime_root runtime) w2 = Some s' ->
        exists cause, leaves cause = concat (map leaves cs)
        /\ Runtime_Close (Some runtime) ctx w
        = (let! flushed := flushCapabilities ctx state in
           let! _ := EmitEnd sprint state ctx EventRuntimeClosed start
                       (CleanupStatus (Then cause flushed)) in
           call_ret (Then cause flushed))
            (heap_set (runtime_root runtime) (finishClose s') w2)).
Proof.
  intros Hstate Hledger Hq.
  destruct (quiet_start (QuietPort := state_quiet sprint nil_dereference) state ctx EventRuntimeClosing Hq w)
    as (start & w1 & Hstart & Hsame); cbn in Hstart.
  exists start, w1. split_and!; [done|done|]. intros s Hs.
  assert (heap_get (runtime_root runtime) w1 = Some s) as Hs1 by (unfold heap_get in *; by rewrite Hsame).
  unfold Runtime_Close. rewrite Hstate. unfold runtime_close.
  rewrite settles_reportRemainingWork by done.
  unfold call_bind at 1. unfold call_bind at 1. rewrite Hstart. split.
  - intros Hopen. unfold call_bind at 1.
    rewrite (scope_Close_closed _ _ _ _ _ _ _ Hs1 Hopen).
    by rewrite (heap_set_same _ _ _ Hs1).
  - intros Ho cs w2 s' Hr Hs'. exists (foldl Then zeroCause cs).
    split; [by rewrite leaves_foldl_Then|]. unfold call_bind at 1 2. rewrite Hstart.
    unfold call_bind at 1. by rewrite (scope_Close_open _ _ _ _ _ _ _ _ _ _ Hs1 Ho Hr Hs').
Qed.

(** A nil or zero runtime runs nothing and closes nothing: using it panics. *)
Lemma nil_runtime_panics {R E A} `{Erased V R} runtime (ctx : Ctx) (env : R) (fx : Effect R E A) w :
  runtime ≫= runtime_state = None ->
  Runtime_Run runtime ctx env fx w = (inr nil_runtime, w)
  /\ Runtime_Close runtime ctx w = (inr nil_runtime, w).
Proof.
  intros Hnil. unfold Runtime_Run, Runtime_Close. rewrite Hnil. split; [done|].
  destruct runtime as [runtime|]; [|done]. cbn in Hnil. by rewrite Hnil.
Qed.

End Runtime.
