(* ===== verification/Waiting.v ===== *)
(** Waiting: a [select] between something another goroutine does and the
    cancellation of the caller's context.

    A primitive that may have to wait is a partial function on the world, [None]
    while it waits. What the other goroutines do meanwhile is not the caller's to
    say: [waits] is the world when the caller goes on, and the case it goes on with,
    or [None] when nothing ever lets it. *)

From S2P Require Import Prelude Outcome Traversal Cause Interpreter InterpreterFacts Queue.

Class Waiting (World Ctx : Type) `{ContextOps World Ctx} : Type := {
  waits : Ctx -> (World -> bool) -> World -> option (select_case * World);
  (** The case taken is ready. *)
  waits_message : forall ctx ready w w',
    waits ctx ready w = Some (case_message, w') -> ready w' = true;
  waits_done : forall ctx ready w w',
    waits ctx ready w = Some (case_done, w') -> is_Some (ctx_Err ctx w');
  (** When one case is ready and the other is not, there is nothing to wait for. *)
  waits_ready : forall ctx ready w,
    ready w = true -> ctx_Err ctx w = None -> waits ctx ready w = Some (case_message, w)
}.

Section Waiting.
  Context {V World Ctx : Type} `{Waiting World Ctx}.
  (** What stands for a call that does not go on: a wait that never ends, or a lock
      section that can go on neither way. The code never returns from the one and
      never reaches the other. *)
  Context (stuck : Panic V).
  #[local] Abbreviation call := (call V World).

Definition can_proceed {B} (attempt : World -> option (B * World)) (w : World) : bool :=
  match attempt w with Some _ => true | None => false end.

(** A step that does not wait. *)
Definition proceed {B} (attempt : World -> option (B * World)) : call B := fun w =>
  match attempt w with Some (b, w) => (inl b, w) | None => (inr stuck, w) end.

(** [select { case <-message: ...; case <-ctx.Done(): ... }]. *)
Definition select {B} (ctx : Ctx) (attempt : World -> option (B * World)) (on_done : call B)
    : call B := fun w =>
  match waits ctx (can_proceed attempt) w with
  | Some (case_message, w) => proceed attempt w
  | Some (case_done, w) => on_done w
  | None => (inr stuck, w)
  end.

(** A wait nothing cancels. *)
Definition await_alone {B} (ctx : Ctx) (attempt : World -> option (B * World)) : call B :=
  select (ctx_WithoutCancel ctx) attempt (call_panic stuck).

Lemma proceed_bind {B C} (attempt : World -> option (B * World)) (f : B -> call C) w b w' :
  attempt w = Some (b, w') -> call_bind (proceed attempt) f w = f b w'.
Proof. intros Ha. unfold call_bind, proceed. by rewrite Ha. Qed.

Lemma select_ready {B} ctx (attempt : World -> option (B * World)) on_done w b w' :
  ctx_Err ctx w = None -> attempt w = Some (b, w') -> select ctx attempt on_done w = (inl b, w').
Proof.
  intros Hlive Ha. unfold select. rewrite waits_ready; [|by unfold can_proceed; rewrite Ha|done].
  unfold proceed. by rewrite Ha.
Qed.

(** The wait ends, one way or the other. *)
Definition wait_ends {B} (ctx : Ctx) (attempt : World -> option (B * World)) (w : World) : Prop :=
  is_Some (waits ctx (can_proceed attempt) w).

(** However long it waits, a select goes on with a message there is, or with the
    context done. *)
Lemma select_cases {B} ctx (attempt : World -> option (B * World)) on_done w :
  wait_ends ctx attempt w ->
  (exists w1 b w2, attempt w1 = Some (b, w2) /\ select ctx attempt on_done w = (inl b, w2))
  \/ (exists w1, is_Some (ctx_Err ctx w1) /\ select ctx attempt on_done w = on_done w1).
Proof.
  unfold wait_ends, select. intros [[[|] w1] Hw]; rewrite Hw.
  - left. apply waits_message in Hw. unfold can_proceed in Hw. unfold proceed.
    destruct (attempt w1) as [[b w2]|] eqn:Ha; [|done]. by exists w1, b, w2.
  - right. exists w1. split; [by eapply waits_done|done].
Qed.

Lemma await_alone_cases {B} ctx (attempt : World -> option (B * World)) w :
  wait_ends (ctx_WithoutCancel ctx) attempt w ->
  exists w1 b w2, attempt w1 = Some (b, w2) /\ await_alone ctx attempt w = (inl b, w2).
Proof.
  intros Hw.
  destruct (select_cases (ctx_WithoutCancel ctx) attempt (call_panic stuck) w Hw)
    as [?|(w1 & Hdone & _)]; [done|].
  rewrite ctx_WithoutCancel_Err in Hdone. by destruct Hdone.
Qed.

End Waiting.
