(* ===== verification/Handles.v ===== *)
(** Handles programs hold on shared state: refs ([effect/ref.go]), deferred values
    ([deferred.go]), fibers ([fiber.go], [fork.go]) and timeouts ([timeout.go]).

    A handle is an address. An operation is an effect that does one atomic step on
    the cell, or waits for it. *)

From S2P Require Import Prelude Outcome Traversal OutcomeFacts Cause Interpreter InterpreterFacts.
From S2P Require Import Algebra Effects EffectsFacts Observation Queue Calls Completion Scope Time State.
From S2P Require Import RuntimePort Lifetimes Waiting.

(** * Refs *)

Section Ref.
  Context {V World Ctx St A : Type} `{ContextOps World Ctx} `{StateOps St} `{Heap World A}.
  Context (zero_effect nil_dereference : Panic V).
  #[local] Abbreviation Effect := (@Effect V World Ctx St).
  #[local] Abbreviation call := (call V World).

(** [Ref[A]]: the address of its cell. *)
Record Ref : Type := MkRef { ref_state : nat }.

  Context {R E : Type} `{Erased V R} `{Erased V unit} `{Erased V A} `{Erased V Ref}.

Definition NewRef (initial : A) : Effect R E Ref :=
  From (fun _ _ => let! state := alloc initial in call_ret (ExitSuccessOf (MkRef state))).

Definition Get (ref : Ref) : Effect R E A :=
  From (fun _ _ => let! value := load nil_dereference (ref_state ref) in
                   call_ret (ExitSuccessOf value)).

(** [change] runs under the lock: nothing else touches the cell meanwhile. *)
Definition Modify {B} `{Erased V B} (ref : Ref) (change : A -> call (A * B)) : Effect R E B :=
  From (fun _ _ =>
    let! value := load nil_dereference (ref_state ref) in
    let! (next, result) := change value in
    let! _ := store nil_dereference (ref_state ref) next in
    call_ret (ExitSuccessOf result)).

Definition Update (ref : Ref) (change : A -> call A) : Effect R E unit :=
  Modify ref (fun current => let! next := change current in call_ret (next, tt)).

Definition SetRef (ref : Ref) (value : A) : Effect R E unit :=
  Update ref (fun _ => call_ret value).

Definition GetAndUpdate (ref : Ref) (change : A -> call A) : Effect R E A :=
  Modify ref (fun current => let! next := change current in call_ret (next, current)).

Definition GetAndSet (ref : Ref) (value : A) : Effect R E A :=
  GetAndUpdate ref (fun _ => call_ret value).

Definition UpdateAndGet (ref : Ref) (change : A -> call A) : Effect R E A :=
  Modify ref (fun current => let! next := change current in call_ret (next, next)).

(** ** Facts *)

  Context (error_value : error -> V) (unsupported : error).
  #[local] Abbreviation runs := (runs error_value unsupported zero_effect).

Lemma runs_Modify {B} `{Erased V B} ref (change : A -> call (A * B)) i w v :
  ctx_Err (interp_Context i) w = None -> heap_get (ref_state ref) w = Some v ->
  runs (Modify ref change) i w
  = match change v w with
    | (inl (next, result), w') =>
        match heap_get (T := A) (ref_state ref) w' with
        | Some _ => (ExitSuccess (erase result), heap_set (ref_state ref) next w')
        | None => (ExitFailure (DieCause (capture nil_dereference)), w')
        end
    | (inr p, w') => (ExitFailure (DieCause (capture p)), w')
    end.
Proof.
  intros Hlive Hv. unfold Modify. rewrite runs_From, Hlive. unfold call_bind, call_ret.
  rewrite (load_Some _ _ _ _ Hv). destruct (change v w) as [[[next result]|p] w']; [|done].
  unfold store. by destruct (heap_get _ w').
Qed.

(** Every operation on a ref is one step on its cell: reading leaves it, writing
    replaces it, and a change is applied exactly once to what the cell holds at that
    moment, the result being the value before or after as the operation says. A
    change that panics is a defect and leaves the cell alone. A new ref holds its
    initial value, in a cell no other ref has. *)
Theorem ref_operations_are_single_steps (ref : Ref) (i : Interpretation V Ctx St) w v :
  ctx_Err (interp_Context i) w = None -> heap_get (ref_state ref) w = Some v ->
  runs (Get ref) i w = (ExitSuccess (erase v), w)
  /\ (forall a, runs (SetRef ref a) i w = (ExitSuccess (erase tt), heap_set (ref_state ref) a w)
             /\ runs (GetAndSet ref a) i w = (ExitSuccess (erase v), heap_set (ref_state ref) a w))
  /\ (forall f, let w' := heap_set (ref_state ref) (f v) w in
        runs (Update ref (pure f)) i w = (ExitSuccess (erase tt), w')
        /\ runs (GetAndUpdate ref (pure f)) i w = (ExitSuccess (erase v), w')
        /\ runs (UpdateAndGet ref (pure f)) i w = (ExitSuccess (erase (f v)), w')
        /\ heap_get (ref_state ref) w' = Some (f v)
        /\ (forall other, ref_state other <> ref_state ref ->
              heap_get (T := A) (ref_state other) w' = heap_get (ref_state other) w))
  /\ (forall B (HB : Erased V B) (change : A -> call (A * B)) p w',
        change v w = (inr p, w') ->
        runs (Modify ref change) i w = (ExitFailure (DieCause (capture p)), w'))
  /\ (forall a, exists fresh, runs (NewRef a) i w
                = (ExitSuccess (erase fresh), snd (heap_new a w))
                /\ heap_get (ref_state fresh) (snd (heap_new a w)) = Some a
                /\ heap_get (T := A) (ref_state fresh) w = None).
Proof.
  intros Hlive Hv. pose proof (heap_get_lt _ _ _ Hv) as Hlt.
  split_and!; [|intros a; split|intros f; split_and!| |intros a; exists (MkRef (heap_fresh (T := A) w)); split_and!].
  - unfold Get. rewrite runs_From, Hlive. unfold call_bind. by rewrite (load_Some _ _ _ _ Hv).
  - unfold SetRef, Update. rewrite (runs_Modify _ _ _ _ _ Hlive Hv). cbn. by rewrite Hv.
  - unfold GetAndSet, GetAndUpdate. rewrite (runs_Modify _ _ _ _ _ Hlive Hv). cbn. by rewrite Hv.
  - unfold Update. rewrite (runs_Modify _ _ _ _ _ Hlive Hv). cbn. by rewrite Hv.
  - unfold GetAndUpdate. rewrite (runs_Modify _ _ _ _ _ Hlive Hv). cbn. by rewrite Hv.
  - unfold UpdateAndGet. rewrite (runs_Modify _ _ _ _ _ Hlive Hv). cbn. by rewrite Hv.
  - by apply heap_get_set.
  - intros other Hne. apply heap_get_set_ne. congruence.
  - intros B HB change p w' Hp. rewrite (runs_Modify _ _ _ _ _ Hlive Hv). by rewrite Hp.
  - unfold NewRef. rewrite runs_From, Hlive. done.
  - apply heap_get_new.
  - apply lookup_ge_None_2. done.
Qed.

End Ref.

(** * Deferred values *)

Section Deferred.
  Context {V World Ctx St : Type} `{Waiting World Ctx} `{StateOps St}.
  Context `{Heap World (Completion V)}.
  Context (zero_effect nil_dereference stuck : Panic V).
  #[local] Abbreviation Effect := (@Effect V World Ctx St).
  #[local] Abbreviation call := (call V World).

Record Deferred : Type := MkDeferred { deferred_state : nat }.

  Context {R E : Type} `{Erased V R} `{Erased V bool} `{Erased V Deferred}.

Definition NewDeferred : Effect R E Deferred :=
  From (fun _ _ => let! state := alloc NewCompletion in call_ret (ExitSuccessOf (MkDeferred state))).

Definition Deferred_Complete (deferred : Deferred) (exit : Exit V) : Effect R E bool :=
  From (fun _ _ =>
    let! c := load nil_dereference (deferred_state deferred) in
    let '(first, c) := Complete exit c in
    let! _ := Calls.store nil_dereference (deferred_state deferred) c in
    call_ret (ExitSuccessOf first)).

Definition Deferred_Succeed {A} `{Erased V A} (deferred : Deferred) (value : A) : Effect R E bool :=
  Deferred_Complete deferred (ExitSuccessOf value).

Definition Deferred_Fail {F} `{Erased V F} (deferred : Deferred) (failure : F) : Effect R E bool :=
  Deferred_Complete deferred (ExitFailureOf failure).

(** [<-completion.done], and the result behind it. *)
Definition completed (address : nat) (w : World) : option (Exit V * World) :=
  c ← heap_get address w; '(exit, _) ← Completion.Await case_message false c; Some (exit, w).

Definition cancelled_wait (ctx : Ctx) : call (Exit V) :=
  fun w => (inl (exitInterrupt (CancellationReason ctx w)), w).

Definition Deferred_Await {A} (deferred : Deferred) : Effect R E A :=
  From (fun ctx _ => select stuck ctx (completed (deferred_state deferred)) (cancelled_wait ctx)).

Definition Deferred_Poll (deferred : Deferred) : call (Exit V * bool) :=
  let! c := load nil_dereference (deferred_state deferred) in call_ret (Poll c).

  Context (error_value : error -> V) (unsupported : error).
  #[local] Abbreviation runs := (runs error_value unsupported zero_effect).

Lemma completed_cases address w x w' :
  completed address w = Some (x, w') <->
  w' = w /\ exists c, heap_get address w = Some c /\ done c = true /\ result c = x.
Proof.
  unfold completed. destruct (heap_get address w) as [c|]; cbn.
  - destruct (done c) eqn:Hd; cbn; split.
    + intros [= <- <-]. eauto.
    + by intros (-> & c' & [= <-] & _ & <-).
    + by intros [=].
    + intros (_ & c' & [= <-] & Hd' & _). congruence.
  - split; [by intros [=]|by intros (_ & c' & [=] & _)].
Qed.

(** A deferred value is supplied once and seen by all: the first completion is the
    one that counts and is told so, later ones change nothing and are told so too;
    whoever awaits it, before or after, adopts exactly the exit supplied, whatever
    it is, unless their own context is done first, which is all a waiter that gives
    up reports. *)
Theorem deferred_is_supplied_once {A : Type} (deferred : Deferred) (exit : Exit V)
    (i : Interpretation V Ctx St) w c :
  ctx_Err (interp_Context i) w = None -> heap_get (deferred_state deferred) w = Some c ->
  runs (Deferred_Complete deferred exit) i w
  = (ExitSuccess (erase (negb (done c))),
     heap_set (deferred_state deferred) (if done c then c else MkCompletion true exit) w)
  /\ (done c = true -> runs (Deferred_Await (A := A) deferred) i w = (result c, w))
  /\ (wait_ends (interp_Context i) (completed (deferred_state deferred)) w ->
      exists x w', runs (Deferred_Await (A := A) deferred) i w = (x, w')
        /\ ((exists c', heap_get (deferred_state deferred) w' = Some c'
                        /\ done c' = true /\ result c' = x)
            \/ (is_Some (ctx_Err (interp_Context i) w') /\ x = interrupted_exit i w'))).
Proof.
  intros Hlive Hc. split_and!.
  - unfold Deferred_Complete. rewrite runs_From, Hlive. unfold call_bind.
    rewrite (load_Some _ _ _ _ Hc). unfold Complete. destruct (done c) eqn:Hd; rewrite (store_Some _ _ _ _ _ Hc); done.
  - intros Hd. unfold Deferred_Await. rewrite runs_From, Hlive.
    rewrite (select_ready stuck _ _ _ w (result c) w Hlive); [done|]. apply completed_cases. eauto.
  - intros Hends. unfold Deferred_Await. rewrite runs_From, Hlive.
    destruct (select_cases stuck (interp_Context i) (completed (deferred_state deferred))
      (cancelled_wait (interp_Context i)) w Hends) as [(w1 & x & w2 & Ha & ->)|(w1 & Hdone & ->)].
    + apply completed_cases in Ha as [-> ?]. eauto.
    + exists (interrupted_exit i w1), w1. eauto.
Qed.

End Deferred.

(** * Fibers *)

Section Fibers.
  Context {V World Ctx Attr FS Logger F : Type} `{Waiting World Ctx}.
  Context `{FinalizerOps F V World Ctx} `{Heap World (Scope V F)} `{Heap World (Fiber V)}.
  Context `{Heap World identifiers} `{Heap World Ledger}.
  Context (error_value : error -> V) (unsupported : error).
  Context (zero_effect nil_dereference stuck : Panic V).
  #[local] Abbreviation State := (@State V World Ctx Attr FS Logger).
  #[local] Abbreviation Effect := (@Effect V World Ctx State).
  #[local] Abbreviation call := (call V World).

Record FiberHandle : Type := MkFiberHandle { fiber_state : nat }.

  Context {R E : Type} `{Erased V R} `{Erased V (Exit V)} `{Erased V FiberHandle}.

(** ** Observing *)

Definition FiberHandle_ID (fiber : FiberHandle) : call Z :=
  let! f := load nil_dereference (fiber_state fiber) in call_ret (fiber_id f).

Definition FiberHandle_Poll (fiber : FiberHandle) : call (Exit V * bool) :=
  let! f := load nil_dereference (fiber_state fiber) in call_ret (fiber_Poll f).

(** [<-fiber.Done()], and the result behind it. *)
Definition terminated (address : nat) (w : World) : option (Exit V * World) :=
  f ← heap_get address w; '(exit, _) ← fiber_Await case_message false f; Some (exit, w).

Definition terminated_successfully (address : nat) (w : World) : option (Exit V * World) :=
  '(exit, w) ← terminated address w; Some (ExitSuccessOf exit, w).

Definition FiberHandle_Await (fiber : FiberHandle) : Effect R E (Exit V) :=
  fromRuntime (fun ctx _ _ =>
    select stuck ctx (terminated_successfully (fiber_state fiber)) (cancelled_wait ctx)).

Definition Join {A} (fiber : FiberHandle) : Effect R E A :=
  fromRuntime (fun ctx _ _ =>
    select stuck ctx (terminated (fiber_state fiber)) (cancelled_wait ctx)).

Definition waited_for (address : nat) (w : World) : option (Exit V * World) :=
  f ← heap_get address w; exit ← fiber_Wait f; Some (exit, w).

Definition InterruptFiber (fiber : FiberHandle) : Effect R E (Exit V) :=
  fromRuntime (fun ctx _ _ =>
    let! f := load nil_dereference (fiber_state fiber) in
    let! _ := Calls.store nil_dereference (fiber_state fiber)
                (fst (fiber_Interrupt ErrFiberInterrupted f)) in
    let! terminal := await_alone stuck ctx (waited_for (fiber_state fiber)) in
    call_ret (ExitSuccessOf terminal)).

(** ** Forking ([fork.go])

    The goroutine a fork starts is the body of [State.fiber_goroutine]; [go] makes
    it runnable. What it runs is a closure of type [W]: [captured_work] packs the
    variables [eraseWork]'s closure captures, and calling it runs that closure. *)
  Context {W : Type} (call_work : W -> Ctx -> State -> call (Exit V)).
  Context (go : nat -> Ctx -> State -> W -> World -> World) (identifiers_cell : nat).

Record Work (A : Type) : Type := MkWork {
  work_effect : Effect R E A;
  captured_work : R -> W;
  captured_work_calls : forall env,
    call_work (captured_work env) = eraseWork error_value unsupported zero_effect work_effect env
}.
Arguments work_effect {A} _.
Arguments captured_work {A} _ _.

(** The part of a nil-tolerant ledger's record that [StartFiber] writes back. *)
Definition load_ledger (ledger : option nat) : call (option Ledger) :=
  match ledger with
  | None => call_ret None
  | Some address => let! l := load nil_dereference address in call_ret (Some l)
  end.
Definition store_ledger (ledger : option nat) (l : option Ledger) : call unit :=
  match ledger, l with
  | Some address, Some l => Calls.store nil_dereference address l
  | _, _ => call_ret tt
  end.

Definition start_fiber (owner : nat) (parent : Ctx) (state : State) (work : W)
    : call (option nat) :=
  let! child := alloc (T := Scope V F) NewScope in
  let! scope := load (T := Scope V F) nil_dereference owner in
  let! ids := load nil_dereference identifiers_cell in
  let! ledger := load_ledger (state_ledger state) in
  let '(started, scope, ids, ledger) := StartFiber scope child state ids ledger in
  let! _ := Calls.store nil_dereference owner scope in
  let! _ := Calls.store nil_dereference identifiers_cell ids in
  let! _ := store_ledger (state_ledger state) ledger in
  match started with
  | None => call_ret None
  | Some (fiber, childState) =>
      let! address := alloc fiber in fun w =>
      (inl (Some address), go address parent childState work w)
  end.

Definition forkFiber {A} (fx : Work A) (selectOwner : State -> nat) : Effect R E FiberHandle :=
  fromRuntime (fun ctx state env =>
    let! started := start_fiber (selectOwner state) ctx state (captured_work fx env) in
    match started with
    | None => call_ret (exitInterrupt (Some ErrScopeClosed))
    | Some fiber => call_ret (ExitSuccessOf (MkFiberHandle fiber))
    end).

Definition ForkFiber {A} (fx : Work A) : Effect R E FiberHandle := forkFiber fx state_scope.
Definition ForkIn {A} (scope : nat) (fx : Work A) : Effect R E FiberHandle :=
  forkFiber fx (fun _ => scope).
Definition ForkDaemon {A} (fx : Work A) : Effect R E FiberHandle := forkFiber fx state_root.

  #[local] Abbreviation runs := (runs error_value unsupported zero_effect).

Lemma terminated_cases address w x w' :
  terminated address w = Some (x, w') <->
  w' = w /\ exists f, heap_get address w = Some f /\ fiber_Wait f = Some x.
Proof.
  unfold terminated, fiber_Await, Completion.Await, fiber_Wait, Wait.
  destruct (heap_get address w) as [f|]; cbn.
  - destruct (done (terminal f)) eqn:Hd; cbn; split.
    + intros [= <- <-]. split; [done|]. exists f. by rewrite Hd.
    + intros (-> & f' & [= <-] & Hx). rewrite Hd in Hx. by injection Hx as ->.
    + by intros [=].
    + intros (_ & f' & [= <-] & Hx). by rewrite Hd in Hx.
  - split; [by intros [=]|by intros (_ & f' & [=] & _)].
Qed.

(** Observing a fiber. Joining adopts the fiber's own exit, whatever it is; awaiting
    succeeds with it; both only once the fiber has terminated, and a wait given up
    reports only that the waiter's own context is done. Interrupting asks first,
    with the first reason ever given standing, and returns nothing but the exit of
    the terminated fiber: the caller's own cancellation does not cut it short. *)
Theorem observing_a_fiber {A : Type} (fiber : FiberHandle) (i : Interpretation V Ctx State) w f :
  ctx_Err (interp_Context i) w = None -> heap_get (fiber_state fiber) w = Some f ->
  (wait_ends (interp_Context i) (terminated (fiber_state fiber)) w ->
   exists x w', runs (Join (A := A) fiber) i w = (x, w')
     /\ ((exists f', heap_get (fiber_state fiber) w' = Some f' /\ fiber_Wait f' = Some x)
         \/ (is_Some (ctx_Err (interp_Context i) w') /\ x = interrupted_exit i w')))
  /\ (wait_ends (interp_Context i) (terminated_successfully (fiber_state fiber)) w ->
     exists x w', runs (FiberHandle_Await fiber) i w = (x, w')
     /\ ((exists f' y, heap_get (fiber_state fiber) w' = Some f' /\ fiber_Wait f' = Some y
                       /\ x = ExitSuccess (erase y))
         \/ (is_Some (ctx_Err (interp_Context i) w') /\ x = interrupted_exit i w')))
  /\ (wait_ends (ctx_WithoutCancel (interp_Context i)) (waited_for (fiber_state fiber))
       (heap_set (fiber_state fiber) (fst (fiber_Interrupt ErrFiberInterrupted f)) w) ->
     exists w', runs (InterruptFiber fiber) i w = w'
     /\ exists f' y, heap_get (fiber_state fiber) (snd w') = Some f' /\ fiber_Wait f' = Some y
        /\ fst w' = ExitSuccess (erase y))
  /\ (forall x, fiber_Wait f = Some x ->
        runs (Join (A := A) fiber) i w = (x, w)
        /\ runs (FiberHandle_Await fiber) i w = (ExitSuccess (erase x), w)).
Proof.
  intros Hlive Hf. split_and!.
  - intros Hends. unfold Join. rewrite runs_fromRuntime, Hlive.
    destruct (select_cases stuck (interp_Context i) (terminated (fiber_state fiber))
      (cancelled_wait (interp_Context i)) w Hends) as [(w1 & x & w2 & Ha & ->)|(w1 & Hdone & ->)].
    + apply terminated_cases in Ha as [-> ?]. eauto.
    + exists (interrupted_exit i w1), w1. eauto.
  - intros Hends. unfold FiberHandle_Await. rewrite runs_fromRuntime, Hlive.
    destruct (select_cases stuck (interp_Context i) (terminated_successfully (fiber_state fiber))
      (cancelled_wait (interp_Context i)) w Hends) as [(w1 & x & w2 & Ha & ->)|(w1 & Hdone & ->)].
    + unfold terminated_successfully in Ha. destruct (terminated _ w1) as [[y w3]|] eqn:Ht; [|done]. injection Ha as <- <-.
      apply terminated_cases in Ht as [-> (f' & ? & ?)]. eauto 10.
    + exists (interrupted_exit i w1), w1. eauto.
  - intros Hends. unfold InterruptFiber. rewrite runs_fromRuntime, Hlive. unfold call_bind at 1 2.
    rewrite (load_Some _ _ _ _ Hf), (store_Some _ _ _ _ _ Hf). unfold call_bind.
    destruct (await_alone_cases stuck (interp_Context i) (waited_for (fiber_state fiber))
      (heap_set (fiber_state fiber) (fst (fiber_Interrupt ErrFiberInterrupted f)) w) Hends)
      as (w1 & y & w2 & Ha & ->). unfold waited_for in Ha.
    destruct (heap_get (fiber_state fiber) w1) as [f'|] eqn:Hf'; [|done]. cbn in Ha.
    destruct (fiber_Wait f') as [z|] eqn:Hz; [|done]. injection Ha as <- <-.
    eexists. split; [done|]. cbn. eauto.
  - intros x Hx. split.
    + unfold Join. rewrite runs_fromRuntime, Hlive.
      rewrite (select_ready stuck _ _ _ w x w Hlive); [done|]. apply terminated_cases. eauto.
    + unfold FiberHandle_Await. rewrite runs_fromRuntime, Hlive.
      rewrite (select_ready stuck _ _ _ w (ExitSuccessOf x) w Hlive); [done|].
      unfold terminated_successfully.
      assert (terminated (fiber_state fiber) w = Some (x, w)) as -> by (apply terminated_cases; eauto).
      done.
Qed.

(** ** Forking *)

  Context `{!HeapsApart World (Scope V F) identifiers} `{!HeapsApart World (Scope V F) (Fiber V)}.
  Context `{!HeapsApart World identifiers (Scope V F)} `{!HeapsApart World identifiers (Fiber V)}.
  Context `{!HeapsApart World (Fiber V) (Scope V F)}.
  #[local] Abbreviation scopes := (heap_of (Scope V F)).
  #[local] Abbreviation fibers := (heap_of (Fiber V)).

(** One start of a fiber, on the owner and the identities it reads. *)
Lemma start_fiber_steps owner address ids (i : Interpretation V Ctx State) w work :
  state_ledger (interp_State i) = None ->
  heap_get (T := Scope V F) address w = Some owner ->
  heap_get identifiers_cell w = Some ids ->
  let child := heap_fresh (T := Scope V F) w in
  forall started owner' ids',
  StartFiber owner child (interp_State i) ids None = (started, owner', ids', None) ->
  exists w2,
  start_fiber address (interp_Context i) (interp_State i) work w
  = match started with
    | None => (inl None, w2)
    | Some (f, childState) =>
        let '(fiber, w3) := heap_new f w2 in
        (inl (Some fiber), go fiber (interp_Context i) childState work w3)
    end
  /\ scopes w2 = <[address := owner']> (scopes w) ++ [NewScope]
  /\ fibers w2 = fibers w.
Proof.
  intros Hledger Howner Hids child started owner' ids' Hs.
  pose proof (heap_get_lt _ _ _ Howner) as Hlt.
  set (w1 := snd (heap_new (T := Scope V F) NewScope w)).
  assert (scopes w1 = scopes w ++ [NewScope]) as Hw1 by (unfold w1, heap_new; cbn; by rewrite heap_of_with).
  assert (fibers w1 = fibers w) as Hf1 by (unfold w1, heap_new; cbn; by rewrite (heap_apart (T := Scope V F))).
  assert (heap_get (T := Scope V F) address w1 = Some owner) as Howner1
    by (unfold w1; by rewrite heap_get_new_old).
  assert (heap_get identifiers_cell w1 = Some ids) as Hids1.
  { unfold w1, heap_get, heap_new in *; cbn. by rewrite (heap_apart (T := Scope V F)). }
  assert (heap_get identifiers_cell (heap_set address owner' w1) = Some ids) as Hids2
    by (unfold heap_get, heap_set in *; by rewrite (heap_apart (T := Scope V F))).
  exists (heap_set identifiers_cell ids' (heap_set address owner' w1)). split_and!.
  - unfold start_fiber. rewrite Hledger; cbn [load_ledger store_ledger].
    unfold call_bind at 1. unfold alloc at 1.
    change (heap_new NewScope w) with (child, w1). cbv beta iota.
    unfold call_bind at 1. rewrite (load_Some _ _ _ _ Howner1).
    unfold call_bind at 1. rewrite (load_Some _ _ _ _ Hids1).
    unfold call_bind at 1, call_ret at 1. rewrite Hs.
    unfold call_bind at 1. rewrite (store_Some _ _ _ _ _ Howner1).
    unfold call_bind at 1. rewrite (store_Some _ _ _ _ _ Hids2).
    unfold call_bind at 1, call_ret at 1. destruct started as [[f childState]|]; [|done].
    unfold call_bind, alloc. by destruct (heap_new f _).
  - unfold heap_set. rewrite (heap_apart (T := identifiers)), heap_of_with, Hw1. by apply insert_app_l.
  - unfold heap_set. by rewrite (heap_apart (T := identifiers)), (heap_apart (T := Scope V F)).
Qed.

(** Forking never starts work nobody owns. An open owner takes the fiber in, one
    child more, in the step that starts it: a new fiber with the runtime's next
    identity, its own open scope, and the state of its creator made a child's; the
    handle is that fiber. An owner that has begun closing takes nothing: no fiber
    exists, nothing runs, the owner is as it was, and the caller is told the scope
    is closed. *)
Theorem forks_are_owned {A : Type} (fx : Work A) (selectOwner : State -> nat)
    (i : Interpretation V Ctx State) w owner ids :
  ctx_Err (interp_Context i) w = None ->
  state_ledger (interp_State i) = None ->
  heap_get (T := Scope V F) (selectOwner (interp_State i)) w = Some owner ->
  heap_get identifiers_cell w = Some ids ->
  let child := heap_fresh (T := Scope V F) w in
  let fiber := heap_fresh (T := Fiber V) w in
  let id := wrapu64 (State.fibers ids + 1) in
  (status owner = scopeOpen -> exists w',
     runs (forkFiber fx selectOwner) i w
     = (ExitSuccess (erase (MkFiberHandle fiber)),
        go fiber (interp_Context i) (ForChild (interp_State i) child id)
          (captured_work fx (asEnvironment (interp_Environment i))) w')
     /\ scopes w' = <[selectOwner (interp_State i) :=
          MkScope scopeOpen (closeExit owner) (cancelled owner) (S (children owner))
            (finalizers owner)]> (scopes w) ++ [NewScope]
     /\ fibers w' = fibers w ++ [NewFiber id])
  /\ (status owner <> scopeOpen -> exists w',
     runs (forkFiber fx selectOwner) i w
     = (ExitFailure (InterruptCause (Some ErrScopeClosed)), w')
     /\ scopes w' = scopes w ++ [NewScope] /\ fibers w' = fibers w).
Proof.
  intros Hlive Hledger Howner Hids child fiber id. split; intros Hopen.
  - assert (StartFiber owner child (interp_State i) ids None
      = (Some (NewFiber id, ForChild (interp_State i) child id),
         MkScope scopeOpen (closeExit owner) (cancelled owner) (S (children owner)) (finalizers owner),
         MkIdentifiers (spans ids) id, None)) as Hs.
    { unfold StartFiber, Fork, NextFiberID. rewrite Hopen. by rewrite bool_decide_eq_true_2. }
    destruct (start_fiber_steps _ _ _ i w (captured_work fx (asEnvironment (interp_Environment i)))
      Hledger Howner Hids _ _ _ Hs) as (w2 & Hstart & Hw2 & Hf2).
    exists (snd (heap_new (NewFiber id) w2)). split_and!.
    + unfold forkFiber. rewrite runs_fromRuntime, Hlive. unfold call_bind at 1. rewrite Hstart.
      assert (heap_new (NewFiber id) w2 = (fiber, snd (heap_new (NewFiber id) w2))) as ->
        by (unfold heap_new, fiber, heap_fresh; cbn; by rewrite Hf2).
      reflexivity.
    + unfold heap_new; cbn. by rewrite (heap_apart (T := Fiber V)).
    + unfold heap_new; cbn. by rewrite heap_of_with, Hf2.
  - assert (StartFiber owner child (interp_State i) ids None
      = (None, owner, MkIdentifiers (spans ids) id, None)) as Hs.
    { unfold StartFiber, Fork, NextFiberID. by rewrite bool_decide_eq_false_2. }
    destruct (start_fiber_steps _ _ _ i w (captured_work fx (asEnvironment (interp_Environment i)))
      Hledger Howner Hids _ _ _ Hs) as (w2 & Hstart & Hw2 & Hf2).
    exists w2. split_and!; [|by rewrite Hw2, list_insert_id|done].
    unfold forkFiber. rewrite runs_fromRuntime, Hlive. unfold call_bind at 1. by rewrite Hstart.
Qed.

End Fibers.

Arguments work_effect {V World Ctx Attr FS Logger _ error_value unsupported zero_effect R E _ W call_work A} _.
Arguments captured_work {V World Ctx Attr FS Logger _ error_value unsupported zero_effect R E _ W call_work A} _ _.
