(* ===== verification/QueueEffects.v ===== *)
(** Queues, hubs and native channels as effects ([effect/queue.go], [hub.go],
    [channels.go]).

    A call is the lock sections of [Queue] and [Hub] in the order the code makes
    them, with a wait where the code waits. A queue is used at a place: a queue of
    its own, or a hub's inbox. *)

From S2P Require Import Prelude Outcome Traversal OutcomeFacts Cause Interpreter InterpreterFacts.
From S2P Require Import Algebra Effects EffectsFacts Observation Queue Hub Calls Completion Scope Time.
From S2P Require Import State RuntimePort Lifetimes Waiting.

(** [lifetime.ErrHubShutdown]. *)
Definition ErrHubShutdown : error := MkError 506 "effect: hub shut down" [].

(** [WhenFull]: a [uint8] with three named values. *)
Definition WhenFull : Type := Z.
Definition SuspendWhenFull : WhenFull := 0%Z.
Definition DropNewestWhenFull : WhenFull := 1%Z.
Definition DropOldestWhenFull : WhenFull := 2%Z.

Definition fullQueuePolicy (whenFull : WhenFull) : FullQueuePolicy :=
  if (whenFull =? DropNewestWhenFull)%Z then dropNewest
  else if (whenFull =? DropOldestWhenFull)%Z then dropOldest
  else backPressure.

(** [Receive[A]]: Go's two-value form. *)
Record Receive (A : Type) : Type := MkReceive { receive_Value : A; receive_OK : bool }.
Arguments MkReceive {A} _ _.
Arguments receive_Value {A} _.
Arguments receive_OK {A} _.

Section QueueCalls.
  Context {V World Ctx A : Type} `{Waiting World Ctx} `{Zero A}.
  Context (stuck : Panic V).
  #[local] Abbreviation call := (call V World).

(** A method call on one queue of the world, under its lock. *)
Definition place : Type :=
  forall B, (Queue.store A -> option (B * Queue.store A)) -> World -> option (B * World).

Definition parked_offer (p : place) (choice : select_case) (waiter : nat) (w : World)
    : option ((bool * bool) * World) :=
  p _ (fun q => '(accepted, interrupted, q) ← awaitRoom choice waiter q;
                Some ((accepted, interrupted), q)) w.

Definition parked_take (p : place) (choice : select_case) (waiter : nat) (w : World)
    : option ((A * bool * bool) * World) :=
  p _ (fun q => '(value, ok, interrupted, q) ← awaitValue choice waiter q;
                Some ((value, ok, interrupted), q)) w.

(** [queue.Offer(ctx, value)]. *)
Definition offer_at (p : place) (ctx : Ctx) (value : A) : call (bool * bool) :=
  let! o := proceed stuck (p _ (Offer value)) in
  match o with
  | Answered accepted interrupted => call_ret (accepted, interrupted)
  | ParkedOfferer waiter =>
      select stuck ctx (parked_offer p case_message waiter)
        (proceed stuck (parked_offer p case_done waiter))
  end.

Definition take_rest (p : place) (ctx : Ctx) (o : take_outcome A) : call (A * bool * bool) :=
  match o with
  | Taken value available interrupted => call_ret (value, available, interrupted)
  | ParkedTaker waiter =>
      select stuck ctx (parked_take p case_message waiter)
        (proceed stuck (parked_take p case_done waiter))
  end.

(** [queue.Take(ctx)]. *)
Definition take_at (p : place) (ctx : Ctx) : call (A * bool * bool) :=
  let! o := proceed stuck (p _ Take) in take_rest p ctx o.

(** [queue.TakeAvailable(limit)]. *)
Definition takeAvailable_at (p : place) (limit : Z) : call (list A) :=
  proceed stuck (p _ (TakeAvailable limit)).

(** [queue.TakeUpTo(ctx, limit)]: the lock is released between the two sections. *)
Definition takeUpTo_at (p : place) (ctx : Ctx) (limit : Z) : call (list A * bool) :=
  let! early := proceed stuck (p _ (fun q =>
    let '(o, q) := TakeUpTo limit q in o ← o; Some (o, q))) in
  match early with
  | inl answer => call_ret answer
  | inr o =>
      let! ((first, ok), interrupted) := take_rest p ctx o in
      proceed stuck (p _ (TakeUpTo_rest limit first ok interrupted))
  end.

Definition shutdown_at (p : place) : call unit :=
  proceed stuck (p _ (fun q => q ← Shutdown q; Some (tt, q))).

Definition size_at (p : place) : call Z := proceed stuck (p _ (fun q => Some (Size q, q))).
Definition isShutdown_at (p : place) : call bool :=
  proceed stuck (p _ (fun q => Some (IsShutdown q, q))).

End QueueCalls.

(** * The effects *)

Section QueueEffects.
  Context {V World Ctx St A : Type} `{Waiting World Ctx} `{StateOps St} `{Zero A}.
  Context `{Heap World (Queue.store A)} `{Heap World (hub_store A)}.
  Context (stuck : Panic V).
  #[local] Abbreviation Effect := (@Effect V World Ctx St).
  #[local] Abbreviation call := (call V World).

  Context {R E : Type} `{Erased V R} `{Erased V bool} `{Erased V unit}.
  Context `{Erased V (Receive A)} `{Erased V (list A)}.

(** The operations on whatever place, as the effects that end by interruption when
    the wait was cancelled. *)
Definition settled_by {B} `{Erased V B} (ctx : Ctx) (m : call (B * bool)) : call (Exit V) :=
  let! (value, interrupted) := m in fun w =>
  (inl (if interrupted : bool then exitInterrupt (CancellationReason ctx w) else ExitSuccessOf value), w).

Definition OfferAt (p : @place World A) (value : A) : Effect R E bool :=
  From (fun ctx _ => settled_by ctx (offer_at stuck p ctx value)).

Definition TakeAt (p : @place World A) : Effect R E (Receive A) :=
  From (fun ctx _ => settled_by ctx
    (call_map (fun '(value, ok, interrupted) => (MkReceive value ok, interrupted))
       (take_at stuck p ctx))).

Definition TakeAvailableAt (p : @place World A) (limit : Z) : Effect R E (list A) :=
  From (fun _ _ => let! batch := takeAvailable_at stuck p limit in call_ret (ExitSuccessOf batch)).

Definition TakeUpToAt (p : @place World A) (limit : Z) : Effect R E (list A) :=
  From (fun ctx _ => settled_by ctx (takeUpTo_at stuck p ctx limit)).

(** ** Queues ([queue.go]) *)

Record QueueHandle : Type := MkQueueHandle { queue_state : nat }.
  Context `{Erased V QueueHandle}.

Definition queue_place (queue : QueueHandle) : @place World A := fun B f w =>
  q ← heap_get (queue_state queue) w; '(b, q) ← f q; Some (b, heap_set (queue_state queue) q w).

Definition NewQueueEffect (capacity : Z) (whenFull : WhenFull) : Effect R E QueueHandle :=
  From (fun _ _ =>
    let! state := alloc (new_store (A := A) (NewQueue capacity (fullQueuePolicy whenFull))) in
    call_ret (ExitSuccessOf (MkQueueHandle state))).

Definition NewUnboundedQueueEffect : Effect R E QueueHandle :=
  From (fun _ _ =>
    let! state := alloc (new_store (A := A) NewUnboundedQueue) in
    call_ret (ExitSuccessOf (MkQueueHandle state))).

Definition QueueOffer (queue : QueueHandle) (value : A) : Effect R E bool :=
  OfferAt (queue_place queue) value.
Definition QueueTake (queue : QueueHandle) : Effect R E (Receive A) := TakeAt (queue_place queue).
Definition QueueTakeAvailable (queue : QueueHandle) (limit : Z) : Effect R E (list A) :=
  TakeAvailableAt (queue_place queue) limit.
Definition QueueTakeUpTo (queue : QueueHandle) (limit : Z) : Effect R E (list A) :=
  TakeUpToAt (queue_place queue) limit.
Definition QueueShutdown (queue : QueueHandle) : Effect R E unit :=
  From (fun _ _ => let! _ := shutdown_at stuck (queue_place queue) in call_ret (ExitSuccessOf tt)).
Definition QueueSize (queue : QueueHandle) : call Z := size_at stuck (queue_place queue).
Definition QueueIsShutdown (queue : QueueHandle) : call bool := isShutdown_at stuck (queue_place queue).

(** ** Hubs ([hub.go]) *)

Record HubHandle : Type := MkHubHandle { hub_state : nat }.
Record Subscription : Type := MkSubscription {
  subscription_hub : nat;
  subscription_token : Z;
  subscription_inbox : nat
}.
  Context `{Erased V HubHandle} `{Erased V Subscription}.

(** A method call on one hub of the world. *)
Definition on_hub {B} (hub : nat) (f : hub_store A -> option (B * hub_store A)) (w : World)
    : option (B * World) :=
  h ← heap_get hub w; '(b, h) ← f h; Some (b, heap_set hub h w).

Definition inbox_place (hub inbox : nat) : @place World A := fun B f => on_hub hub (on_inbox inbox f).

Definition NewHubEffect (capacity : Z) (whenFull : WhenFull) : Effect R E HubHandle :=
  From (fun _ _ =>
    let! state := alloc (NewHub (A := A) capacity (fullQueuePolicy whenFull)) in
    call_ret (ExitSuccessOf (MkHubHandle state))).

Definition subscribe (hub : HubHandle) : Effect R E Subscription :=
  From (fun _ _ =>
    let! subscribed := proceed stuck (on_hub (hub_state hub) (fun h => Some (Subscribe h))) in
    match subscribed with
    | None => call_ret (exitInterrupt (Some ErrHubShutdown))
    | Some (inbox, token) => call_ret (ExitSuccessOf (MkSubscription (hub_state hub) token inbox))
    end).

Definition unsubscribe (subscription : Subscription) : Effect R E unit :=
  From (fun _ _ =>
    let! _ := proceed stuck (on_hub (subscription_hub subscription)
      (fun h => h ← Unsubscribe (subscription_token subscription) h; Some (tt, h))) in
    call_ret (ExitSuccessOf tt)).

(** The loop of [hub.Publish] over the snapshot, one inbox after the other. *)
Fixpoint deliver (hub : nat) (ctx : Ctx) (value : A) (inboxes : list nat) : call (bool * bool) :=
  match inboxes with
  | [] => call_ret (true, false)
  | inbox :: rest =>
      let! (_, interrupted) := offer_at stuck (inbox_place hub inbox) ctx value in
      if interrupted : bool then call_ret (false, true) else deliver hub ctx value rest
  end.

Definition publish_calls (hub : nat) (ctx : Ctx) (value : A) : call (bool * bool) :=
  let! (inboxes, open) := proceed stuck (on_hub hub (fun h => Some (currentInboxes (A := A) h, h))) in
  if negb open then call_ret (false, false) else deliver hub ctx value inboxes.

Definition Publish (hub : HubHandle) (value : A) : Effect R E bool :=
  From (fun ctx _ => settled_by ctx (publish_calls (hub_state hub) ctx value)).

Definition HubShutdown (hub : HubHandle) : Effect R E unit :=
  From (fun _ _ =>
    let! _ := proceed stuck (on_hub (hub_state hub) (fun h => h ← hub_Shutdown (A := A) h; Some (tt, h))) in
    call_ret (ExitSuccessOf tt)).

Definition HubSubscribers (hub : HubHandle) : call nat :=
  proceed stuck (on_hub (hub_state hub) (fun h => Some (Subscribers (A := A) h, h))).
Definition HubIsShutdown (hub : HubHandle) : call bool :=
  proceed stuck (on_hub (hub_state hub) (fun h => Some (hub_IsShutdown (A := A) h, h))).

Definition subscription_place (s : Subscription) : @place World A :=
  inbox_place (subscription_hub s) (subscription_inbox s).
Definition SubscriptionTake (s : Subscription) : Effect R E (Receive A) := TakeAt (subscription_place s).
Definition SubscriptionTakeAvailable (s : Subscription) (limit : Z) : Effect R E (list A) :=
  TakeAvailableAt (subscription_place s) limit.
Definition SubscriptionTakeUpTo (s : Subscription) (limit : Z) : Effect R E (list A) :=
  TakeUpToAt (subscription_place s) limit.
Definition SubscriptionPending (s : Subscription) : call Z := size_at stuck (subscription_place s).

(** ** Facts *)

  Context (error_value : error -> V) (unsupported : error) (zero_effect : Panic V).
  #[local] Abbreviation runs := (runs error_value unsupported zero_effect).

(** How an effect ends that may have been cancelled while it waited. *)
Definition settled_exit {B} `{Erased V B} (i : Interpretation V Ctx St)
    (r : ((B * bool) + Panic V) * World) : Exit V * World :=
  match r with
  | (inl (value, interrupted), w) =>
      (if interrupted : bool then interrupted_exit i w else ExitSuccess (erase value), w)
  | (inr p, w) => (ExitFailure (DieCause (capture p)), w)
  end.

Lemma runs_settled {B} `{Erased V B} (m : Ctx -> call (B * bool)) i w :
  ctx_Err (interp_Context i) w = None ->
  runs (From (R := R) (E := E) (A := B) (fun ctx _ => settled_by ctx (m ctx))) i w
  = settled_exit i (m (interp_Context i) w).
Proof.
  intros Hlive. rewrite runs_From, Hlive. unfold settled_by, call_bind, settled_exit.
  destruct (m _ w) as [[[value [|]]|p] w']; done.
Qed.

(** A wait's end: which case, at which world, and that it was ready. *)
Definition wait_ended (ctx : Ctx) (attempt : select_case -> World -> bool) (c : select_case)
    (w : World) : Prop :=
  match c with
  | case_message => attempt case_message w = true
  | case_done => is_Some (ctx_Err ctx w)
  end.

Lemma select_ended {B} ctx (attempt : select_case -> World -> option (B * World)) w :
  wait_ends ctx (attempt case_message) w ->
  exists c w1, wait_ended ctx (fun c w => can_proceed (attempt c) w) c w1
  /\ select stuck ctx (attempt case_message) (proceed stuck (attempt case_done)) w
     = proceed stuck (attempt c) w1.
Proof.
  intros [[[|] w1] Hw]; unfold select; rewrite Hw.
  - exists case_message, w1. split; [exact (waits_message _ _ _ _ Hw)|done].
  - exists case_done, w1. split; [exact (waits_done _ _ _ _ Hw)|done].
Qed.

(** Offering and taking are the queue's own lock sections, at a queue as at an
    inbox. An offer the queue answers is answered at once. One it parks goes on
    exactly when its own channel has the answer or the caller's context is done;
    then it is that answer, unless it was still parked and its context done: only
    then does it report interruption. Taking is the same, a finished queue being a
    value that says so rather than a failure. *)
Theorem queue_effects_are_lock_sections (p : @place World A) (value : A)
    (i : Interpretation V Ctx St) w :
  ctx_Err (interp_Context i) w = None ->
  (forall o w1, p _ (Offer value) w = Some (o, w1) ->
     match o with
     | Answered accepted false => runs (OfferAt p value) i w = (ExitSuccess (erase accepted), w1)
     | Answered _ true => runs (OfferAt p value) i w = (interrupted_exit i w1, w1)
     | ParkedOfferer waiter =>
         wait_ends (interp_Context i) (parked_offer p case_message waiter) w1 -> exists c w2,
         wait_ended (interp_Context i) (fun c w => can_proceed (parked_offer p c waiter) w) c w2
         /\ runs (OfferAt p value) i w = settled_exit i (proceed stuck (parked_offer p c waiter) w2)
     end)
  /\ (forall o w1, p _ Take w = Some (o, w1) ->
     match o with
     | Taken v available false =>
         runs (TakeAt p) i w = (ExitSuccess (erase (MkReceive v available)), w1)
     | Taken _ _ true => runs (TakeAt p) i w = (interrupted_exit i w1, w1)
     | ParkedTaker waiter =>
         wait_ends (interp_Context i) (parked_take p case_message waiter) w1 -> exists c w2,
         wait_ended (interp_Context i) (fun c w => can_proceed (parked_take p c waiter) w) c w2
         /\ runs (TakeAt p) i w
            = settled_exit i
                (call_map (fun '(v, ok, interrupted) => (MkReceive v ok, interrupted))
                   (proceed stuck (parked_take p c waiter)) w2)
     end).
Proof.
  intros Hlive. split; intros o w1 Ho.
  - unfold OfferAt. rewrite (runs_settled (fun ctx => offer_at stuck p ctx value)) by done.
    rewrite (proceed_bind stuck _ _ _ _ _ Ho : offer_at stuck p _ value w = _).
    destruct o as [accepted [|]|waiter]; [done|done|].
    intros Hends.
    destruct (select_ended (interp_Context i) (fun c => parked_offer p c waiter) w1 Hends)
      as (c & w2 & Hc & ->). by exists c, w2.
  - unfold TakeAt. rewrite (runs_settled (fun ctx => call_map _ (take_at stuck p ctx))) by done.
    assert (forall C (g : A * bool * bool -> C), call_map g (take_at stuck p (interp_Context i)) w
        = call_map g (take_rest stuck p (interp_Context i) o) w1) as ->.
    { intros C g. unfold call_map, call_bind at 1.
      by rewrite (proceed_bind stuck _ _ _ _ _ Ho : take_at stuck p _ w = _). }
    destruct o as [v available [|]|waiter]; [done|done|].
    intros Hends. unfold take_rest.
    destruct (select_ended (interp_Context i) (fun c => parked_take p c waiter) w1 Hends)
      as (c & w2 & Hc & Hs). exists c, w2. split; [done|].
    unfold call_map, call_bind. by rewrite Hs.
Qed.

Lemma on_hub_get {B} hub (f : hub_store A -> option (B * hub_store A)) w h b h' :
  heap_get hub w = Some h -> f h = Some (b, h') -> on_hub hub f w = Some (b, heap_set hub h' w).
Proof. intros Hh Hf. unfold on_hub. rewrite Hh; cbn. by rewrite Hf. Qed.

Lemma deliver_publish_run hub ctx value n : forall inboxes w h accepted interrupted h',
  (forall w, ctx_Err ctx w = None) -> heap_get hub w = Some h ->
  publish_run n value (delivering inboxes) h = Some (accepted, interrupted, h') ->
  deliver hub ctx value inboxes w = (inl (accepted, interrupted), heap_set hub h' w).
Proof.
  induction n as [n IH] using lt_wf_ind. intros inboxes w h accepted interrupted h' Hlive Hh Hrun.
  pose proof (heap_get_lt _ _ _ Hh) as Hlt.
  destruct n as [|n]; [done|]. destruct inboxes as [|inbox rest]; cbn in Hrun.
  { destruct n as [|n]; [done|]. injection Hrun as <- <- <-. by rewrite heap_set_same. }
  destruct (on_inbox inbox (Offer value) h) as [[o h1]|] eqn:Ho; [|done]; cbn in Hrun.
  pose proof (on_hub_get hub _ w h _ _ Hh Ho) as Hstep.
  change (on_hub hub (on_inbox inbox (Offer value)) w)
    with (inbox_place hub inbox _ (Offer value) w) in Hstep.
  pose proof (heap_get_set hub h1 w Hlt) as Hh1.
  cbn [deliver]. unfold call_bind at 1. unfold offer_at.
  rewrite (proceed_bind stuck _ _ _ _ _ Hstep).
  destruct o as [acc [|]|waiter].
  - destruct n as [|n]; [done|]. by injection Hrun as <- <- <-.
  - cbn. rewrite <- (heap_set_set hub h' h1). eapply (IH n); [lia|done|done|done].
  - destruct n as [|n]; [done|]. cbn in Hrun.
    set (await := fun q : Queue.store A => '(accepted, interrupted, q) ← receive_admission waiter q;
                           Some ((accepted, interrupted), q)).
    fold await in Hrun. destruct (on_inbox inbox await h1) as [[[acc int] h2]|] eqn:Ha; [|done].
    pose proof (on_hub_get hub _ _ h1 _ _ Hh1 Ha) as Hawait. rewrite heap_set_set in Hawait.
    change (parked_offer (inbox_place hub inbox) case_message waiter (heap_set hub h1 w)
      = Some ((acc, int), heap_set hub h2 w)) in Hawait.
    rewrite (select_ready stuck _ _ _ _ _ _ (Hlive _) Hawait).
    cbn in Hrun. destruct int.
    + destruct n as [|n]; [done|]. by injection Hrun as <- <- <-.
    + rewrite <- (heap_set_set hub h' h2). eapply (IH n); [lia|done| |done].
      by apply heap_get_set.
Qed.

(** Publishing, with nothing else running, is the hub's own publish: whatever it
    does with the inboxes it snapshots, and whatever it answers. *)
Theorem Publish_is_the_hubs_publish (hub : HubHandle) (value : A) (i : Interpretation V Ctx St)
    w h fuel accepted interrupted h' :
  (forall w, ctx_Err (interp_Context i) w = None) ->
  heap_get (hub_state hub) w = Some h ->
  publish_run fuel value (startPublish h) h = Some (accepted, interrupted, h') ->
  let w' := heap_set (hub_state hub) h' w in
  runs (Publish hub value) i w
  = (if interrupted : bool then interrupted_exit i w' else ExitSuccess (erase accepted), w').
Proof.
  intros Hlive Hh Hrun w'. unfold Publish.
  rewrite (runs_settled (fun ctx => publish_calls (hub_state hub) ctx value)) by done.
  assert (publish_calls (hub_state hub) (interp_Context i) value w
    = (inl (accepted, interrupted), w')) as ->; [|done].
  unfold publish_calls.
  assert (on_hub (hub_state hub) (fun h => Some (currentInboxes h, h)) w
    = Some (currentInboxes h, w)) as Hsnap.
  { erewrite on_hub_get; [|done|done]. by rewrite heap_set_same. }
  rewrite (proceed_bind stuck _ _ _ _ _ Hsnap). unfold startPublish in Hrun.
  destruct (currentInboxes h) as [inboxes [|]]; cbn.
  - by eapply deliver_publish_run.
  - destruct fuel as [|fuel]; [done|]. injection Hrun as <- <- <-.
    unfold w'. by rewrite heap_set_same.
Qed.

End QueueEffects.

(** * In a scope, and in a program's own channels *)

Section Scoped.
  Context {V World Ctx St A F : Type} `{Waiting World Ctx} `{StateOps St} `{Zero A}.
  Context `{Heap World (Queue.store A)} `{Heap World (hub_store A)}.
  Context `{FinalizerOps F V World Ctx} `{Heap World (Scope V F)} `{RuntimePort V World Ctx St}.
  Context (error_value : error -> V) (unsupported : error).
  Context (zero_effect nil_dereference stuck : Panic V).
  #[local] Abbreviation Effect := (@Effect V World Ctx St).
  Context {R E : Type} `{Erased V R} `{Erased V bool} `{Erased V unit}.
  Context `{Erased V (Receive A)} `{Erased V (list A)}.
  Context `{Erased V QueueHandle} `{Erased V HubHandle} `{Erased V Subscription}.

  (** The closures [AcquireRelease] is given: they shut down, or unsubscribe. *)
  #[local] Abbreviation Release := (Release error_value unsupported zero_effect).
  Context (queue_release : {rel : Release R QueueHandle
             | release rel = fun queue => call_ret (QueueShutdown (A := A) stuck queue)}).
  Context (hub_release : {rel : Release R HubHandle
             | release rel = fun hub => call_ret (HubShutdown (A := A) stuck hub)}).
  Context (subscription_release : {rel : Release R Subscription
             | release rel = fun s => call_ret (unsubscribe (A := A) stuck s)}).

Definition acquireQueue (scope : nat) (create : Effect R E QueueHandle) : Effect R E QueueHandle :=
  AcquireRelease error_value unsupported zero_effect nil_dereference scope create (proj1_sig queue_release).

Definition ScopedQueue (scope : nat) (capacity : Z) (whenFull : WhenFull) : Effect R E QueueHandle :=
  acquireQueue scope (NewQueueEffect (A := A) capacity whenFull).
Definition ScopedUnboundedQueue (scope : nat) : Effect R E QueueHandle :=
  acquireQueue scope (NewUnboundedQueueEffect (A := A)).

Definition ScopedHub (scope : nat) (capacity : Z) (whenFull : WhenFull) : Effect R E HubHandle :=
  AcquireRelease error_value unsupported zero_effect nil_dereference scope
    (NewHubEffect (A := A) capacity whenFull) (proj1_sig hub_release).

Definition ScopedSubscribe (scope : nat) (hub : HubHandle) : Effect R E Subscription :=
  AcquireRelease error_value unsupported zero_effect nil_dereference scope
    (subscribe (A := A) stuck hub) (proj1_sig subscription_release).

(** The carrier forms: the same effect in the channels of the program around it. *)
Definition ops_Queue capacity whenFull : Effect R E QueueHandle :=
  WidenError zero_effect (E0 := Never) (NewQueueEffect (A := A) capacity whenFull).
Definition ops_Offer (queue : QueueHandle) (value : A) : Effect R E bool :=
  WidenError zero_effect (E0 := Never) (QueueOffer stuck queue value).
Definition ops_Take (queue : QueueHandle) : Effect R E (Receive A) :=
  WidenError zero_effect (E0 := Never) (QueueTake stuck queue).
Definition ops_TakeUpTo (queue : QueueHandle) (limit : Z) : Effect R E (list A) :=
  WidenError zero_effect (E0 := Never) (QueueTakeUpTo stuck queue limit).
Definition ops_TakeAvailable (queue : QueueHandle) (limit : Z) : Effect R E (list A) :=
  WidenError zero_effect (E0 := Never) (QueueTakeAvailable stuck queue limit).
Definition ops_Publish (hub : HubHandle) (value : A) : Effect R E bool :=
  WidenError zero_effect (E0 := Never) (Publish stuck hub value).
Definition ops_Receive (s : Subscription) : Effect R E (Receive A) :=
  WidenError zero_effect (E0 := Never) (SubscriptionTake stuck s).
Definition ops_ReceiveUpTo (s : Subscription) (limit : Z) : Effect R E (list A) :=
  WidenError zero_effect (E0 := Never) (SubscriptionTakeUpTo stuck s limit).
Definition ops_ReceiveAvailable (s : Subscription) (limit : Z) : Effect R E (list A) :=
  WidenError zero_effect (E0 := Never) (SubscriptionTakeAvailable stuck s limit).

End Scoped.

(** * Native channels ([channels.go])

    A channel as this goroutine sees it: what is buffered, the room there is for
    more (its capacity and the receivers waiting at it), the values of the senders
    waiting at it, and whether it is closed. A nil channel is [None]. *)

Record NativeChannel (A : Type) : Type := MkNative {
  native_buffer : list A;
  native_room : nat;
  native_senders : list A;
  native_closed : bool
}.
Arguments MkNative {A} _ _ _ _.
Arguments native_buffer {A} _.
Arguments native_room {A} _.
Arguments native_senders {A} _.
Arguments native_closed {A} _.

Section Native.
  Context {V World Ctx St A : Type} `{Waiting World Ctx} `{StateOps St} `{Zero A}.
  Context `{Heap World (NativeChannel A)}.
  Context (stuck send_on_closed : Panic V).
  #[local] Abbreviation Effect := (@Effect V World Ctx St).
  #[local] Abbreviation call := (call V World).
  Context {R E : Type} `{Erased V R} `{Erased V unit} `{Erased V A} `{Erased V (Receive A)} `{Erased V E}.

(** [ch <- value]: [None] while it blocks, [false] is the panic. *)
Definition native_send (ch : option nat) (value : A) (w : World) : option (bool * World) :=
  address ← ch; c ← heap_get address w;
  if native_closed c then Some (false, w)
  else if length (native_buffer c) <? native_room c then
    Some (true, heap_set address (MkNative (native_buffer c ++ [value]) (native_room c)
                                    (native_senders c) false) w)
  else None.

(** [value, open := <-ch]: a value makes room for the first sender waiting. *)
Definition native_recv (ch : option nat) (w : World) : option ((A * bool) * World) :=
  address ← ch; c ← heap_get address w;
  match native_buffer c, native_senders c with
  | value :: rest, [] =>
      Some ((value, true), heap_set address (MkNative rest (native_room c) [] (native_closed c)) w)
  | value :: rest, sent :: senders =>
      Some ((value, true), heap_set address
                             (MkNative (rest ++ [sent]) (native_room c) senders (native_closed c)) w)
  | [], sent :: senders =>
      Some ((sent, true), heap_set address (MkNative [] (native_room c) senders (native_closed c)) w)
  | [], [] => if native_closed c then Some ((zero A, false), w) else None
  end.

Definition interrupted_call (ctx : Ctx) : call (Exit V) :=
  fun w => (inl (exitInterrupt (CancellationReason ctx w)), w).

Definition Send (ch : option nat) (value : A) : Effect R E unit :=
  From (fun ctx _ =>
    let! exit := select stuck ctx
      (fun w => '(sent, w) ← native_send ch value w;
                Some (if sent : bool then Some (ExitSuccessOf tt) else None, w))
      (call_map Some (interrupted_call ctx)) in
    match exit with
    | Some exit => call_ret exit
    | None => call_panic send_on_closed
    end).

Definition Recv (ch : option nat) : Effect R E (Receive A) :=
  From (fun ctx _ => select stuck ctx
    (fun w => '((value, open), w) ← native_recv ch w;
              Some (ExitSuccessOf (MkReceive value open), w))
    (interrupted_call ctx)).

Definition RecvOrFail (ch : option nat) (closeFailure : E) : Effect R E A :=
  From (fun ctx _ => select stuck ctx
    (fun w => '((value, open), w) ← native_recv ch w;
              Some (if negb open then ExitFailureOf closeFailure else ExitSuccessOf value, w))
    (interrupted_call ctx)).

  Context (error_value : error -> V) (unsupported : error) (zero_effect : Panic V).
  #[local] Abbreviation runs := (runs error_value unsupported zero_effect).

(** Native channels keep Go's own semantics: a receive on a closed and drained
    channel is a value that says so, or the failure chosen for it; a send on a closed
    channel is its panic, as a defect; a value goes in at the end and comes out at
    the front; and on a channel that will never be ready, a nil one among them,
    cancellation is all there is to wait for. *)
Theorem channels_keep_go_semantics (ch : option nat) (value : A) (failure : E)
    (i : Interpretation V Ctx St) w :
  ctx_Err (interp_Context i) w = None ->
  (forall sent w', native_send ch value w = Some (sent, w') ->
     runs (Send ch value) i w
     = (if sent : bool then ExitSuccess (erase tt)
        else ExitFailure (DieCause (capture send_on_closed)), w'))
  /\ (forall v open w', native_recv ch w = Some ((v, open), w') ->
     runs (Recv ch) i w = (ExitSuccess (erase (MkReceive v open)), w')
     /\ runs (RecvOrFail ch failure) i w
        = (if open : bool then ExitSuccess (erase v)
           else ExitFailure (FailCause (erase failure)), w'))
  /\ (forall w', waits (interp_Context i) (fun _ => false) w = Some (case_done, w') ->
     runs (Send None value) i w = (interrupted_exit i w', w')
     /\ runs (Recv None) i w = (interrupted_exit i w', w')).
Proof.
  intros Hlive. split_and!.
  - intros sent w' Hs. unfold Send. rewrite runs_From, Hlive. unfold call_bind.
    erewrite select_ready; [|done|by rewrite Hs]. by destruct sent.
  - intros v open w' Hr. split.
    + unfold Recv. rewrite runs_From, Hlive. erewrite select_ready; [|done|by rewrite Hr]. done.
    + unfold RecvOrFail. rewrite runs_From, Hlive. erewrite select_ready; [|done|by rewrite Hr].
      by destruct open.
  - intros w' Hw. split.
    + unfold Send. rewrite runs_From, Hlive. unfold call_bind, select.
      change (can_proceed _) with (fun _ : World => false). by rewrite Hw.
    + unfold Recv. rewrite runs_From, Hlive. unfold select.
      change (can_proceed _) with (fun _ : World => false). by rewrite Hw.
Qed.

End Native.
