(* ===== verification/Capabilities.v ===== *)
(** The runtime's capabilities as effects: names, annotations and spans
    ([effect/effect_observation.go]), logging ([log.go]), settings
    ([configuration.go]), the requirements an effect was given ([environment.go]),
    the clock ([clock.go]) and the filesystem ([filesystem.go], [io_error.go]).

    The ports an application supplies, the logger and the filesystem, are
    parameters. *)

From S2P Require Import Prelude GoStrings Outcome Traversal OutcomeFacts Cause Interpreter InterpreterFacts.
From S2P Require Import Algebra Effects EffectsFacts Observation Calls Completion Scope ConfigError.
From S2P Require Import ConfigSource Config Time State RuntimePort Lifetimes Layer.

(** [capability.LogRecord]; a level is its [int]. *)
Record LogRecord (Attr : Type) : Type := MkLogRecord {
  log_Timestamp : Time;
  log_Level : Z;
  log_Message : string;
  log_Fields : list Attr;
  log_Operation : string;
  log_FiberID : Z;
  log_SpanID : Z;
  log_ParentID : Z
}.
Arguments MkLogRecord {Attr} _ _ _ _ _ _ _ _.
Arguments log_Timestamp {Attr} _.
Arguments log_Fields {Attr} _.

(** [IOOperation], [IOError] and the operation an [IOError] names. *)
Inductive IOOperation : Type :=
| IOReadFile | IOWriteFile | IOStat | IOReadDir | IOMkdirAll | IORemove | IORename.

Definition IOOperation_string (operation : IOOperation) : string :=
  match operation with
  | IOReadFile => "read-file"
  | IOWriteFile => "write-file"
  | IOStat => "stat"
  | IOReadDir => "read-dir"
  | IOMkdirAll => "mkdir-all"
  | IORemove => "remove"
  | IORename => "rename"
  end.

Record IOError : Type := MkIOError {
  io_Operation : IOOperation;
  io_Path : string;
  io_TargetPath : string;
  io_Err : option error
}.

Definition IOError_Unwrap (failure : IOError) : option error := io_Err failure.

Record fileOperation : Type := MkFileOperation {
  file_name : IOOperation;
  file_path : string;
  file_targetPath : string
}.

(** [mergeAttributes]: a key the record states is not inherited too. *)
Definition mergeAttributes {Attr} (attr_Key : Attr -> string) (span record : list Attr) : list Attr :=
  match record with
  | [] => span
  | _ =>
      let recordKeys : gset string :=
        foldl (fun keys field => {[ attr_Key field ]} ∪ keys) ∅ record in
      foldl (fun attrs field =>
               if bool_decide (attr_Key field ∈ recordKeys) then attrs else attrs ++ [field])
            [] span
      ++ record
  end.

Section Capabilities.
  Context {V World Ctx Attr FS Logger : Type} `{ContextOps World Ctx} `{Heap World identifiers}.
  #[local] Abbreviation State := (@State V World Ctx Attr FS Logger).
  #[local] Abbreviation Effect := (@Effect V World Ctx State).
  #[local] Abbreviation call := (call V World).
  Context (sprint : V -> string) (attr_Key : Attr -> string).
  Context (zero_effect nil_dereference : Panic V) (identifiers_cell : nat).
  (** [Logger.Log] and the [FileSystem] port. *)
  Context (logger_Log : Logger -> Ctx -> LogRecord Attr -> call (option error)).
  Context {Bytes FileMode FileInfo DirEntry : Type}.
  Context (fs_ReadFile : FS -> Ctx -> string -> call (Bytes * option error)).
  Context (fs_WriteFile : FS -> Ctx -> string -> Bytes -> FileMode -> call (option error)).
  Context (fs_Stat : FS -> Ctx -> string -> call (FileInfo * option error)).
  Context (fs_ReadDir : FS -> Ctx -> string -> call (list DirEntry * option error)).
  Context (fs_MkdirAll : FS -> Ctx -> string -> FileMode -> call (option error)).
  Context (fs_Remove : FS -> Ctx -> string -> call (option error)).
  Context (fs_Rename : FS -> Ctx -> string -> string -> call (option error)).

(** * Names, annotations and spans *)

Definition WithNameEffect {R E A} (fx : Effect R E A) (name : string) : Effect R E A :=
  withState zero_effect fx (fun state => call_ret (WithName state name)).

Definition Annotate {R E A} (fx : Effect R E A) (attributes : list Attr) : Effect R E A :=
  withState zero_effect fx (fun state => call_ret (WithAttributes state attributes)).

Definition endSpan (start : Time) : @exitObserver V World Ctx State := fun i exit =>
  let! _ := EmitEnd sprint (interp_State i) (interp_Context i) EventSpanEnded start
              (ExitStatus exit) in
  call_ret exit.

(** [source] is the call site. *)
Definition WithSpanEffect {R E A} `{Erased V R} (fx : Effect R E A) (source name : string)
    (attributes : list Attr) : Effect R E A :=
  let boundary := MkBoundary name source attributes in
  suspendRuntime zero_effect (fun ctx state _ =>
    let! ids := load nil_dereference identifiers_cell in
    let '(span, ids) := WithSpan state boundary ids in
    let! _ := store nil_dereference identifiers_cell ids in
    if negb (HasObserver span) then call_ret (withState zero_effect fx (replaceState span))
    else
      let! started := Event span EventSpanStarted in
      let! _ := Emit sprint span ctx started in
      call_ret (withState zero_effect
                  (withExitObserver zero_effect fx (endSpan (event_Timestamp started)))
                  (replaceState span))).

(** * Logging *)

Definition log_event (event : @RuntimeEvent Attr) (timestamp : Time) : @RuntimeEvent Attr :=
  MkEvent (event_Kind event) timestamp (event_Duration event) (event_Operation event)
    (event_Source event) (event_FiberID event) (event_ParentFiber event) (event_SpanID event)
    (event_ParentID event) (event_Attempt event) (event_Delay event) EventStatusSuccess
    (event_Attributes event).

Definition log_fault (err : error) : RuntimeFault := MkRuntimeFault FaultLogger "log" (Some err).

Definition log_record (state : State) (now : Time) (level : Z) (message : string)
    (fields : list Attr) : LogRecord Attr :=
  let m := metadata state in
  MkLogRecord now level message (mergeAttributes attr_Key (Attributes m) fields)
    (md_Operation m) (FiberID m) (SpanID m) (ParentID m).

Definition Log {R E} `{Erased V R} `{Erased V unit} (level : Z) (message : string)
    (fields : list Attr) : Effect R E unit :=
  fromRuntime (fun ctx state _ =>
    let! now := clock_Now (cap_Clock (capabilities state)) in
    let record := log_record state now level message fields in
    let! err := logger_Log (cap_Logger (capabilities state)) ctx record in
    match err with
    | Some err =>
        let! _ := Report state ctx (log_fault err) in call_ret (ExitSuccessOf tt)
    | None =>
        if HasObserver state then
          let! event := Event state EventLogEmitted in
          let! _ := Emit sprint state ctx (log_event event (log_Timestamp record)) in
          call_ret (ExitSuccessOf tt)
        else call_ret (ExitSuccessOf tt)
    end).

Definition LevelDebug : Z := -4.
Definition LevelInfo : Z := 0.
Definition LevelWarn : Z := 4.
Definition LevelError : Z := 8.

Definition LogDebug {R E} `{Erased V R} `{Erased V unit} message fields : Effect R E unit :=
  Log LevelDebug message fields.
Definition LogInfo {R E} `{Erased V R} `{Erased V unit} message fields : Effect R E unit :=
  Log LevelInfo message fields.
Definition LogWarn {R E} `{Erased V R} `{Erased V unit} message fields : Effect R E unit :=
  Log LevelWarn message fields.
Definition LogError {R E} `{Erased V R} `{Erased V unit} message fields : Effect R E unit :=
  Log LevelError message fields.

(** * The clock, and the checkpoint beside a call that cannot be cancelled *)

Definition Now {R E} `{Erased V R} `{Erased V Time} : Effect R E Time :=
  fromRuntime (fun _ state _ =>
    let! now := clock_Now (cap_Clock (capabilities state)) in call_ret (ExitSuccessOf now)).

Definition interruptExit (ctx : Ctx) (w : World) : option (Exit V) :=
  match ctx_Err ctx w with
  | None => None
  | Some _ => Some (exitInterrupt (CancellationReason ctx w))
  end.

(** What a call came to, unless the context is done by now. *)
Definition checkpointed (ctx : Ctx) (exit : Exit V) : call (Exit V) := fun w =>
  (inl (default exit (interruptExit ctx w)), w).

(** * Settings *)

Definition LoadConfig {R A} `{Erased V R} `{Erased V A} `{Erased V Error} `{Zero A}
    (description : Config A) : Effect R Error A :=
  fromRuntime (fun ctx state _ =>
    let '(value, failure) := Read (cap_ConfigSource (capabilities state)) description in
    checkpointed ctx
      (if negb (IsEmpty failure) then ExitFailureOf failure else ExitSuccessOf value)).

Definition WithConfigSourceEffect {R E A} (fx : Effect R E A) (source : option Source)
    : Effect R E A :=
  match source with
  | None => fx
  | Some source => withState zero_effect fx (fun state => call_ret (WithConfigSource state (Some source)))
  end.

Definition ConfigLayer {R A} `{Erased V R} `{Erased V A} `{Erased V Error} `{Zero A}
    (description : Config A) : Layer R Error A := LayerFromEffect (LoadConfig description).

(** * Requirements *)

Definition Environment {R E} `{Erased V R} : Effect R E R :=
  From (fun _ environment => call_ret (ExitSuccessOf environment)).

Definition EnvironmentWith {R E A} `{Erased V R} `{Erased V A} (read : R -> call A) : Effect R E A :=
  From (fun _ environment => let! a := read environment in call_ret (ExitSuccessOf a)).

Definition Anywhere {R E A} `{Erased V R} `{Erased V unit} (fx : Effect unit E A) : Effect R E A :=
  ContramapEnv zero_effect fx (constantEnvironment (R0 := R) tt).

(** * The filesystem *)

Definition filesystemEffect {R A} `{Erased V R} `{Erased V A} `{Erased V IOError}
    (operation : fileOperation) (execute : Ctx -> FS -> call (A * option error))
    : Effect R IOError A :=
  fromRuntime (fun ctx state _ =>
    let! (value, err) := execute ctx (cap_FileSystem (capabilities state)) in
    checkpointed ctx
      match err with
      | Some err => ExitFailureOf (MkIOError (file_name operation) (file_path operation)
                                     (file_targetPath operation) (Some err))
      | None => ExitSuccessOf value
      end).

Definition on_file (name : IOOperation) (path : string) : fileOperation :=
  MkFileOperation name path EmptyString.

Definition answers_unit (m : call (option error)) : call (unit * option error) :=
  call_map (fun err => (tt, err)) m.

Section Files.
  Context {R : Type} `{Erased V R} `{Erased V unit} `{Erased V IOError} `{Erased V Bytes}.
  Context `{Erased V FileInfo} `{Erased V (list DirEntry)}.

Definition ReadFile (path : string) : Effect R IOError Bytes :=
  filesystemEffect (on_file IOReadFile path) (fun ctx fs => fs_ReadFile fs ctx path).
Definition WriteFile (path : string) (data : Bytes) (permissions : FileMode)
    : Effect R IOError unit :=
  filesystemEffect (on_file IOWriteFile path)
    (fun ctx fs => answers_unit (fs_WriteFile fs ctx path data permissions)).
Definition Stat (path : string) : Effect R IOError FileInfo :=
  filesystemEffect (on_file IOStat path) (fun ctx fs => fs_Stat fs ctx path).
Definition ReadDir (path : string) : Effect R IOError (list DirEntry) :=
  filesystemEffect (on_file IOReadDir path) (fun ctx fs => fs_ReadDir fs ctx path).
Definition MkdirAll (path : string) (permissions : FileMode) : Effect R IOError unit :=
  filesystemEffect (on_file IOMkdirAll path)
    (fun ctx fs => answers_unit (fs_MkdirAll fs ctx path permissions)).
Definition Remove (path : string) : Effect R IOError unit :=
  filesystemEffect (on_file IORemove path) (fun ctx fs => answers_unit (fs_Remove fs ctx path)).
Definition Rename (oldPath newPath : string) : Effect R IOError unit :=
  filesystemEffect (MkFileOperation IORename oldPath newPath)
    (fun ctx fs => answers_unit (fs_Rename fs ctx oldPath newPath)).
End Files.

(** * Properties *)

  Context (error_value : error -> V) (unsupported : error).
  #[local] Abbreviation runs := (runs error_value unsupported zero_effect).

(** Observing an effect never changes what it comes to. A span runs the effect once,
    in the state of a new span nested in the current one, and yields its very exit,
    whatever the observer does; without an observer nothing else happens at all.
    Names and annotations only change what nested work is told. *)
Theorem observation_is_transparent {R E A} `{Erased V R} (fx : Effect R E A)
    (source name : string) (attributes : list Attr) (i : Interpretation V Ctx State) w ids :
  total (clock_Now (cap_Clock (capabilities (interp_State i)))) ->
  heap_get identifiers_cell w = Some ids ->
  let '(span, ids') := WithSpan (interp_State i) (MkBoundary name source attributes) ids in
  let spanned := runs (WithSpanEffect fx source name attributes) i w in
  (SpanID (metadata span) = wrapu64 (spans ids + 1)
   /\ ParentID (metadata span) = SpanID (metadata (interp_State i))
   /\ FiberID (metadata span) = FiberID (metadata (interp_State i))
   /\ Attributes (metadata span) = Attributes (metadata (interp_State i)) ++ attributes)
  /\ (exists w1, fst spanned = fst (runs fx (in_state span i) w1)
      /\ (HasObserver (interp_State i) = false ->
          w1 = heap_set identifiers_cell ids' w /\ spanned = runs fx (in_state span i) w1))
  /\ runs (WithNameEffect fx name) i w = runs fx (in_state (WithName (interp_State i) name) i) w
  /\ runs (Annotate fx attributes) i w
     = runs fx (in_state (WithAttributes (interp_State i) attributes) i) w.
Proof.
  intros Hclock Hids. set (boundary := MkBoundary name source attributes).
  destruct (WithSpan (interp_State i) boundary ids) as [span ids'] eqn:Hspan.
  assert (span = fst (WithSpan (interp_State i) boundary ids)) as Hs by by rewrite Hspan.
  cbn in Hs. split_and!; [by rewrite Hs..| | |].
  - remember (runs (WithSpanEffect fx source name attributes) i w) as spanned eqn:Hsp.
    unfold WithSpanEffect in Hsp. fold boundary in Hsp. rewrite runs_suspendRuntime in Hsp.
    unfold runs_call, call_bind at 1 in Hsp. rewrite (load_Some _ _ _ _ Hids), Hspan in Hsp.
    unfold call_bind at 1 in Hsp. rewrite (store_Some _ _ _ _ _ Hids) in Hsp.
    set (w0 := heap_set identifiers_cell ids' w) in *.
    assert (HasObserver span = HasObserver (interp_State i)) as Hobs by by rewrite Hs.
    rewrite Hobs in Hsp. destruct (HasObserver (interp_State i)); cbn [negb] in Hsp.
    + assert (total (clock_Now (cap_Clock (capabilities span)))) as Hc by by rewrite Hs.
      destruct (total_Event span EventSpanStarted Hc w0) as (started & w1 & He).
      unfold call_bind at 1 in Hsp. rewrite He in Hsp.
      destruct (total_Emit sprint span (interp_Context i) started w1) as ([] & w2 & Hemit).
      unfold call_bind at 1 in Hsp. rewrite Hemit in Hsp. unfold call_ret at 1 in Hsp.
      exists w2. split; [|done]. subst spanned. rewrite runs_withState. unfold replaceState, call_ret at 1.
      rewrite runs_withExitObserver. destruct (runs fx _ w2) as [x w3].
      destruct (total_EmitEnd sprint span (interp_Context i) EventSpanEnded (event_Timestamp started)
        (ExitStatus x) Hc w3) as ([] & w4 & Hend).
      rewrite (observeExit_returns (endSpan (event_Timestamp started)) (in_state span i) x w3 x w4); [done|].
      unfold endSpan, call_bind; cbn. by rewrite Hend.
    + unfold call_ret at 1 in Hsp. rewrite runs_withState in Hsp.
      exists w0. by subst spanned.
  - unfold WithNameEffect. by rewrite runs_withState.
  - unfold Annotate. by rewrite runs_withState.
Qed.

(** Logging always succeeds: the record, stamped by the runtime's clock, is handed
    to the logger once, with the metadata of where it was logged; a logger that
    cannot deliver it is reported to diagnostics, once, and nobody observes it. Only
    a logger that panics makes a defect of it. *)
Theorem logging_never_fails {R E} `{Erased V R} `{Erased V unit} level message fields
    (i : Interpretation V Ctx State) w now w1 r w2 :
  ctx_Err (interp_Context i) w = None ->
  total (clock_Now (cap_Clock (capabilities (interp_State i)))) ->
  clock_Now (cap_Clock (capabilities (interp_State i))) w = (inl now, w1) ->
  logger_Log (cap_Logger (capabilities (interp_State i))) (interp_Context i)
    (log_record (interp_State i) now level message fields) w1 = (r, w2) ->
  let logged := runs (Log (R := R) (E := E) level message fields) i w in
  match r with
  | inl None => fst logged = ExitSuccess (erase tt)
      /\ (HasObserver (interp_State i) = false -> snd logged = w2)
  | inl (Some err) => exists w3,
      Report (interp_State i) (interp_Context i) (log_fault err) w2 = (inl tt, w3)
      /\ logged = (ExitSuccess (erase tt), w3)
  | inr p => logged = (ExitFailure (DieCause (capture p)), w2)
  end.
Proof.
  intros Hlive Hclock Hnow Hlog logged. subst logged.
  remember (runs (Log level message fields) i w) as logged eqn:Hl. unfold Log in Hl.
  rewrite runs_fromRuntime, Hlive in Hl. unfold call_bind at 1 in Hl. rewrite Hnow in Hl.
  unfold call_bind at 1 in Hl. rewrite Hlog in Hl. destruct r as [[err|]|p]; [| |done].
  - destruct (total_Report (interp_State i) (interp_Context i) (log_fault err) w2) as ([] & w3 & Hr).
    unfold call_bind in Hl. rewrite Hr in Hl. eauto.
  - destruct (HasObserver (interp_State i)); [|by subst logged]. split; [|done].
    destruct (total_Event (interp_State i) EventLogEmitted Hclock w2) as (event & w3 & He).
    unfold call_bind at 1 in Hl. rewrite He in Hl.
    destruct (total_Emit sprint (interp_State i) (interp_Context i)
      (log_event event (log_Timestamp (log_record (interp_State i) now level message fields))) w3)
      as ([] & w4 & Hemit).
    unfold call_bind in Hl. rewrite Hemit in Hl. by subst logged.
Qed.

Lemma recordKeys_spec (record : list Attr) (keys : gset string) key :
  key ∈ foldl (fun keys field => {[ attr_Key field ]} ∪ keys) keys record
  <-> key ∈ keys \/ key ∈ map attr_Key record.
Proof.
  revert keys. induction record as [|field record IH]; intros keys; cbn; [set_solver|].
  rewrite IH. set_solver.
Qed.

Lemma foldl_keep (P : Attr -> Prop) `{!forall a, Decision (P a)} (span acc : list Attr) :
  foldl (fun attrs field => if bool_decide (P field) then attrs else attrs ++ [field]) acc span
  = acc ++ filter (fun field => ~ P field) span.
Proof.
  revert acc. induction span as [|field span IH]; intros acc; cbn [foldl]; [by rewrite app_nil_r|].
  rewrite IH. case_bool_decide.
  - by rewrite filter_cons_False by naive_solver.
  - rewrite filter_cons_True by done. by rewrite <- (assoc_L (++)).
Qed.

(** Merging keeps the span's attributes in order without those the record states
    itself, then the record's: no key is said twice that was not said twice by one
    of them, none is lost, and where both state a key only the record's is there. *)
Theorem mergeAttributes_states_a_key_once (span record : list Attr) :
  mergeAttributes attr_Key span record
  = filter (fun field => attr_Key field ∉ map attr_Key record) span ++ record
  /\ (NoDup (map attr_Key span) -> NoDup (map attr_Key record) ->
      NoDup (map attr_Key (mergeAttributes attr_Key span record)))
  /\ (forall key, key ∈ map attr_Key (mergeAttributes attr_Key span record)
        <-> key ∈ map attr_Key span \/ key ∈ map attr_Key record).
Proof.
  assert (mergeAttributes attr_Key span record
    = filter (fun field => attr_Key field ∉ map attr_Key record) span ++ record) as Hm.
  { destruct record as [|field record]; cbn [mergeAttributes].
    - rewrite app_nil_r. induction span as [|field span IH]; [done|].
      rewrite filter_cons_True by apply not_elem_of_nil. by rewrite <- IH.
    - rewrite foldl_keep. cbn [app]. f_equal. apply list_filter_iff. intros a.
      rewrite recordKeys_spec. set_solver. }
  rewrite Hm, map_app. split_and!; [done|..].
  - intros Hspan Hrecord. apply NoDup_app. split_and!; [| |done].
    2:{ intros key Hk. apply list_elem_of_fmap in Hk as (field & -> & Hf).
        by apply list_elem_of_filter in Hf as [? _]. }
    eapply sublist_NoDup; [exact Hspan|]. apply fmap_sublist, sublist_filter.
  - intros key. rewrite elem_of_app. destruct (decide (key ∈ map attr_Key record)); [tauto|].
    split; (intros [Hk|]; [left|by right]); apply list_elem_of_fmap in Hk as (field & -> & Hf).
    + apply list_elem_of_fmap. exists field. by apply list_elem_of_filter in Hf as [_ ?].
    + apply list_elem_of_fmap. exists field. by rewrite list_elem_of_filter.
Qed.

End Capabilities.
