(* ===== verification/Retry.v ===== *)
(** Retry and repetition ([effect/retry.go], [retry_driver.go], [clock.go]'s
    [Sleep], [interruption.go]).

    Each attempt's instructions are built when the one before it has failed, so a
    run of the loop has no end in advance: the model unrolls it [fuel] times over
    an effect [beyond] that stands for the rest. A policy's driver is private to
    one run and is passed along; the progress of a run is a cell of the world,
    because the observer of the whole run reads it.

    How often an effect is retried, with what, and what comes out: an attempt
    matters only as far as the policy goes on. *)

From S2P Require Import Prelude Outcome Traversal OutcomeFacts Cause Interpreter InterpreterFacts Algebra Effects EffectsFacts Observation Time Schedule State.

Record attemptProgress : Type := MkProgress { number : Z; repeated : bool }.

(** The store of the runs in progress. *)
Class ProgressCells (World : Type) : Type := {
  cell_new : attemptProgress -> World -> nat * World;
  cell_get : nat -> World -> attemptProgress;
  cell_set : nat -> attemptProgress -> World -> World
}.

Section Retry.
  Context {V World Ctx Attr FS Logger : Type} `{ContextOps World Ctx} `{ProgressCells World}.
  Context (sprint : V -> string) (error_value : error -> V) (zero_effect : Panic V).
  (** The panics of a zero schedule and of a clock that reports a failure. *)
  Context (zero_schedule : Panic V) (clock_failed : error -> Panic V).
  #[local] Abbreviation State := (@State V World Ctx Attr FS Logger).
  #[local] Abbreviation Effect := (@Effect V World Ctx State).
  #[local] Abbreviation call := (call V World).

Definition interruptionReason (ctx : Ctx) (w : World) : option error :=
  match ctx_Err ctx w with
  | None => None
  | Some _ => CancellationReason ctx w
  end.

Definition Sleep {R E} `{Erased V R} `{Erased V unit} (duration : Duration) : Effect R E unit :=
  fromRuntime (fun ctx (state : State) _ =>
    call_bind (clock_Sleep (cap_Clock (capabilities state)) ctx duration) (fun err w =>
      match interruptionReason ctx w with
      | Some reason => (inl (exitInterrupt (Some reason)), w)
      | None =>
          match err with
          | Some err => (inr (clock_failed err), w)
          | None => (inl (ExitSuccess (erase tt)), w)
          end
      end)).

Definition Delay {R E A} `{Erased V R} `{Erased V unit} (fx : Effect R E A) (duration : Duration)
    : Effect R E A := AndThen zero_effect (Sleep duration) fx.

Definition exactFailure {E} `{Erased V E} (cause : Cause V) : option E := Cause_Failure cause.

Definition allTypedFailures (cause : Cause V) : option (Cause V) :=
  if IsFailureOnly cause then Some cause else None.

Definition preserveLastFailure {R E A In Out} (cause : Cause V) (_ : In) (_ : Out)
    : call (Effect R E A) := call_ret (FailWithCause cause).

(** [progress.number = nextCount(progress.number)] and, when retrying,
    [progress.repeated = true]. *)
Definition advance (progress : nat) (repeating : bool) : call unit := fun w =>
  let p := cell_get progress w in
  (inl tt, cell_set progress (MkProgress (nextCount (number p)) (repeated p || repeating)) w).

(** What the suspended handler of an attempt does with the cause it was given,
    [next] building the following attempt from the driver as it then is. *)
Definition retry_decision {R E A In Out} `{Erased V R} `{Erased V unit}
    (next : ScheduleDriver In Out -> Effect R E A) (driver : ScheduleDriver In Out)
    (eligible : Cause V -> option In) (exhaust : Cause V -> In -> Out -> call (Effect R E A))
    (progress : nat) (cause : Cause V) (ctx : Ctx) (state : State) : call (Effect R E A) :=
  match eligible cause with
  | None => call_ret (FailWithCause cause)
  | Some input => fun w =>
      match interruptionReason ctx w with
      | Some reason => (inl (FailWithCause (InterruptCause (Some reason))), w)
      | None =>
          call_bind (clock_Now (cap_Clock (capabilities state))) (fun now =>
            let '(decision, driver) := Next driver now input in
            if negb (continues decision) then
              call_bind (fun w => emitAttempt sprint ctx state
                           (retryExhaustedEvent (number (cell_get progress w))) w)
                (fun _ => exhaust cause input (output decision))
            else
              call_bind (fun w => emitAttempt sprint ctx state
                           (retryScheduledEvent (number (cell_get progress w)) (delay decision)) w)
                (fun _ => call_bind (advance progress true) (fun _ =>
                   call_ret (AndThen zero_effect (Sleep (delay decision)) (next driver))))) w
      end
  end.

Fixpoint retryAttempt {R E A In Out} `{Erased V R} `{Erased V unit} (fuel : nat)
    (beyond : Effect R E A) (fx : Effect R E A) (driver : ScheduleDriver In Out)
    (eligible : Cause V -> option In) (exhaust : Cause V -> In -> Out -> call (Effect R E A))
    (progress : nat) : Effect R E A :=
  match fuel with
  | O => beyond
  | S n =>
      CatchCause zero_effect fx (fun cause =>
        call_ret (suspendRuntime zero_effect (fun ctx state _ =>
          retry_decision
            (fun driver => retryAttempt n beyond fx driver eligible exhaust progress)
            driver eligible exhaust progress cause ctx state)))
  end.

Definition reportRetryOutcome (progress : nat) (i : Interpretation V Ctx State) (exit : Exit V)
    : call (Exit V) := fun w =>
  let p := cell_get progress w in
  if IsSuccess exit && repeated p
  then call_bind (emitAttempt sprint (interp_Context i) (interp_State i)
                    (retrySucceededEvent (number p))) (fun _ => call_ret exit) w
  else (inl exit, w).

Definition retryLoop {R E A In Out} `{Erased V R} `{Erased V unit} (fuel : nat)
    (beyond : Effect R E A) (fx : Effect R E A) (policy : Schedule In Out)
    (eligible : Cause V -> option In) (exhaust : Cause V -> In -> Out -> call (Effect R E A))
    : Effect R E A :=
  suspendRuntime zero_effect (fun _ _ _ w =>
    let '(progress, w) := cell_new (MkProgress 1 false) w in
    match Start policy with
    | None => (inr zero_schedule, w)
    | Some driver =>
        (inl (withExitObserver zero_effect (retryAttempt fuel beyond fx driver eligible exhaust progress)
                (reportRetryOutcome progress)), w)
    end).

Definition Retry {R E A Out} `{Erased V R} `{Erased V E} `{Erased V unit} (fuel : nat)
    (beyond : Effect R E A) (fx : Effect R E A) (policy : Schedule E Out) : Effect R E A :=
  retryLoop fuel beyond fx policy exactFailure preserveLastFailure.

Definition RetryCause {R E A Out} `{Erased V R} `{Erased V unit} (fuel : nat)
    (beyond : Effect R E A) (fx : Effect R E A) (policy : Schedule (Cause V) Out) : Effect R E A :=
  retryLoop fuel beyond fx policy allTypedFailures preserveLastFailure.

Definition RetryN {R E A} `{Erased V R} `{Erased V E} `{Erased V unit} (fuel : nat)
    (beyond : Effect R E A) (fx : Effect R E A) (count : Z) : Effect R E A :=
  Retry fuel beyond fx (Recurs count).

Definition RetryOrElse {R E A Out} `{Erased V R} `{Erased V E} `{Erased V unit} (fuel : nat)
    (beyond : Effect R E A) (fx : Effect R E A) (policy : Schedule E Out)
    (fallback : E -> Out -> call (Effect R E A)) : Effect R E A :=
  retryLoop fuel beyond fx policy exactFailure (fun _ failure output => fallback failure output).

(** * Repetition *)

Definition repeat_decision {R E A Out} `{Erased V R} `{Erased V unit} `{Erased V Out}
    (next : ScheduleDriver A Out -> Effect R E Out) (driver : ScheduleDriver A Out)
    (progress : nat) (value : A) (ctx : Ctx) (state : State) : call (Effect R E Out) :=
  call_bind (clock_Now (cap_Clock (capabilities state))) (fun now =>
    let '(decision, driver) := Next driver now value in
    if negb (continues decision) then
      call_bind (fun w => emitAttempt sprint ctx state
                   (repeatCompletedEvent (number (cell_get progress w))) w)
        (fun _ => call_ret (SucceedWith (output decision)))
    else
      call_bind (fun w => emitAttempt sprint ctx state
                   (repeatScheduledEvent (number (cell_get progress w)) (delay decision)) w)
        (fun _ => call_bind (advance progress false) (fun _ =>
           call_ret (AndThen zero_effect (Sleep (delay decision)) (next driver))))).

Fixpoint repeatRun {R E A Out} `{Erased V R} `{Erased V A} `{Erased V unit} `{Erased V Out}
    (fuel : nat) (beyond : Effect R E Out) (fx : Effect R E A) (driver : ScheduleDriver A Out)
    (progress : nat) : Effect R E Out :=
  match fuel with
  | O => beyond
  | S n =>
      FlatMap zero_effect fx (fun value =>
        call_ret (suspendRuntime zero_effect (fun ctx state _ =>
          repeat_decision (fun driver => repeatRun n beyond fx driver progress)
            driver progress value ctx state)))
  end.

Definition Repeat {R E A Out} `{Erased V R} `{Erased V A} `{Erased V unit} `{Erased V Out}
    (fuel : nat) (beyond : Effect R E Out) (fx : Effect R E A) (policy : Schedule A Out)
    : Effect R E Out :=
  suspendRuntime zero_effect (fun _ _ _ w =>
    match Start policy with
    | None => (inr zero_schedule, w)
    | Some driver =>
        let '(progress, w) := cell_new (MkProgress 1 false) w in
        (inl (repeatRun fuel beyond fx driver progress), w)
    end).

End Retry.

Section Facts.
  Context {V World Ctx Attr FS Logger : Type} `{ContextOps World Ctx} `{ProgressCells World}.
  Context (sprint : V -> string) (error_value : error -> V) (unsupported : error).
  Context (zero_effect zero_schedule : Panic V) (clock_failed : error -> Panic V).
  #[local] Abbreviation State := (@State V World Ctx Attr FS Logger).
  #[local] Abbreviation Effect := (@Effect V World Ctx State).
  #[local] Abbreviation call := (call V World).
  #[local] Abbreviation runs := (runs error_value unsupported zero_effect).
  #[local] Abbreviation runs_call := (runs_call error_value unsupported zero_effect).
  #[local] Abbreviation retryAttempt := (retryAttempt sprint zero_effect clock_failed).
  #[local] Abbreviation retry_decision := (retry_decision sprint zero_effect clock_failed).
  #[local] Abbreviation Sleep := (Sleep clock_failed).

Lemma runs_retryAttempt {R E A In Out} `{Erased V R} `{Erased V unit} n (beyond fx : Effect R E A)
    (driver : ScheduleDriver In Out) eligible exhaust progress i w :
  runs (retryAttempt (S n) beyond fx driver eligible exhaust progress) i w
  = let '(x, w') := runs fx i w in
    if IsSuccess x then (x, w')
    else runs_call (retry_decision
           (fun driver => retryAttempt n beyond fx driver eligible exhaust progress)
           driver eligible exhaust progress (ExitCause x) (interp_Context i) (interp_State i)) i w'.
Proof.
  cbn [Retry.retryAttempt]. rewrite runs_CatchCause. destruct (runs fx i w) as [x w'].
  destruct (IsSuccess x); [done|]. unfold call_ret at 1.
  by rewrite runs_suspendRuntime.
Qed.

(** Following attempts matter only as far as they run the same. *)
Lemma runs_retry_decision_ext {R E A In Out} `{Erased V R} `{Erased V unit}
    (next1 next2 : ScheduleDriver In Out -> Effect R E A) driver eligible exhaust progress cause i w :
  (forall now input w, continues (fst (Next driver now input)) = true ->
     runs (next1 (snd (Next driver now input))) i w
     = runs (next2 (snd (Next driver now input))) i w) ->
  runs_call (retry_decision next1 driver eligible exhaust progress cause
               (interp_Context i) (interp_State i)) i w
  = runs_call (retry_decision next2 driver eligible exhaust progress cause
                 (interp_Context i) (interp_State i)) i w.
Proof.
  intros Hnext. unfold EffectsFacts.runs_call, Retry.retry_decision.
  destruct (eligible cause) as [input|]; [|done].
  destruct (interruptionReason _ w); [done|]. unfold call_bind.
  destruct (clock_Now _ w) as [[now|p] w1]; [|done]. specialize (Hnext now input).
  destruct (Next driver now input) as [decision driver'] eqn:En; cbn in Hnext.
  destruct (continues decision); cbn [negb]; [|done].
  destruct (emitAttempt _ _ _ _ w1) as [[[]|p] w2]; [|done].
  unfold advance, call_ret; cbv beta iota.
  rewrite !runs_AndThen. destruct (runs (Sleep (delay decision)) i _) as [y w3].
  destruct (IsSuccess y); [|done]. by apply Hnext.
Qed.

(** A driver that asks for at most [k] recurrences, whatever it is fed. *)
Fixpoint stops_within {In Out} (k : nat) (driver : ScheduleDriver In Out) : Prop :=
  forall now input,
    match k with
    | O => continues (fst (Next driver now input)) = false
    | S k => continues (fst (Next driver now input)) = true ->
             stops_within k (snd (Next driver now input))
    end.

Lemma retryAttempt_fuel {R E A In Out} `{Erased V R} `{Erased V unit} (k n m : nat)
    (beyond beyond' fx : Effect R E A) (driver : ScheduleDriver In Out) eligible exhaust progress i w :
  stops_within k driver -> k < n -> k < m ->
  runs (retryAttempt n beyond fx driver eligible exhaust progress) i w
  = runs (retryAttempt m beyond' fx driver eligible exhaust progress) i w.
Proof.
  revert k m driver w. induction n as [|n IH]; intros k [|m] driver w Hk Hn Hm; try lia.
  rewrite !runs_retryAttempt. destruct (runs fx i w) as [x w1]. destruct (IsSuccess x); [done|].
  apply runs_retry_decision_ext. intros now input w2 Hc. destruct k as [|k]; cbn in Hk.
  - by rewrite Hk in Hc.
  - apply (IH k); [by apply Hk|lia|lia].
Qed.

Lemma Recurs_stops {In} (k j : nat) :
  (Z.of_nat (j + k) <= uint64_max)%Z ->
  stops_within k (MkDriver (In := In) (MkSteps Z 0%Z (countStep 0%Z (Some (Z.of_nat (j + k)))))
                    (Z.of_nat j)).
Proof.
  revert j. induction k as [|k IH]; intros j Hj now input; unfold Next; cbn [driver_steps
    driver_state sched_step sched_state]; unfold countStep.
  - destruct (Z.leb_spec (Z.of_nat (j + 0)) (Z.of_nat j)); [done|lia].
  - destruct (Z.leb_spec (Z.of_nat (j + S k)) (Z.of_nat j)); [lia|]. intros _. cbn [snd].
    rewrite nextCount_spec, Z.min_r by lia. replace (Z.of_nat j + 1)%Z with (Z.of_nat (S j)) by lia.
    replace (j + S k) with (S j + k) in * by lia. by apply IH.
Qed.

(** * Properties *)

(** C19. [RetryN(k)] evaluates its effect at most [k + 1] times: whatever would come
    after that many attempts makes no difference to the run. The same holds of any
    policy that asks for at most [k] recurrences. *)
Theorem RetryN_is_bounded {R E A} `{Erased V R} `{Erased V E} `{Erased V unit}
    (k n m : nat) (fx beyond beyond' : Effect R E A) (i : Interpretation V Ctx State) (w : World) :
  (Z.of_nat k <= uint64_max)%Z -> k < n -> k < m ->
  runs (RetryN sprint zero_effect zero_schedule clock_failed n beyond fx (Z.of_nat k)) i w
  = runs (RetryN sprint zero_effect zero_schedule clock_failed m beyond' fx (Z.of_nat k)) i w.
Proof.
  intros Hk Hn Hm. unfold RetryN, Retry, retryLoop. rewrite !runs_suspendRuntime.
  unfold EffectsFacts.runs_call. destruct (cell_new _ w) as [progress w1].
  cbn [Start mbind option_bind Recurs].
  set (driver := MkDriver (In := E) (MkSteps Z 0%Z (countStep 0%Z (Some (Z.of_nat k)))) 0%Z).
  assert (forall w,
    runs (retryAttempt n beyond fx driver exactFailure preserveLastFailure progress) i w
    = runs (retryAttempt m beyond' fx driver exactFailure preserveLastFailure progress) i w) as Heq.
  { intros w2. apply (retryAttempt_fuel k); [|done|done]. apply (Recurs_stops k 0). done. }
  unfold EffectsFacts.runs in *. cbn. by rewrite Heq.
Qed.

(** One attempt of a retried effect. A success is returned as it is. A cause
    the policy may not see - for [Retry] anything but one typed failure, for
    [RetryCause] anything with a defect or an interruption in it - is re-raised and
    never retried. Nothing is decided once the context is done. Otherwise the
    policy decides, at the clock's instant: when it stops, the effect is what the
    exhausted policy leaves, the last failure for [Retry]; when it goes on, the
    next attempt starts after the delay, unless the wait is interrupted. *)
Theorem retry_attempt_cases {R E A In Out} `{Erased V R} `{Erased V unit} (n : nat)
    (beyond fx : Effect R E A) (driver : ScheduleDriver In Out) (eligible : Cause V -> option In)
    (exhaust : Cause V -> In -> Out -> call (Effect R E A)) (progress : nat)
    (i : Interpretation V Ctx State) (w w1 : World) (x : Exit V) :
  runs fx i w = (x, w1) ->
  let attempt := runs (retryAttempt (S n) beyond fx driver eligible exhaust progress) i w in
  let ctx := interp_Context i in
  let state := interp_State i in
  (IsSuccess x = true -> attempt = (x, w1))
  /\ (IsSuccess x = false -> eligible (ExitCause x) = None ->
        attempt = (checkpoint i w1 (ExitFailure (WithOrigin (ExitCause x) (here i))), w1))
  /\ (forall input, IsSuccess x = false -> eligible (ExitCause x) = Some input ->
        ctx_Err ctx w1 <> None -> attempt = (interrupted_exit i w1, w1))
  /\ (forall input now w2 decision driver', IsSuccess x = false ->
        eligible (ExitCause x) = Some input -> ctx_Err ctx w1 = None ->
        clock_Now (cap_Clock (capabilities state)) w1 = (inl now, w2) ->
        cap_Observer (capabilities state) = None ->
        Next driver now input = (decision, driver') ->
        (continues decision = false ->
           attempt = runs_call (exhaust (ExitCause x) input (output decision)) i w2)
        /\ (continues decision = true ->
           let '(y, w3) := runs (Sleep (delay decision) : Effect R E unit) i
                             (snd (advance (V := V) progress true w2)) in
           attempt = if IsSuccess y
                     then runs (retryAttempt n beyond fx driver' eligible exhaust progress) i w3
                     else (y, w3))).
Proof.
  intros Hx attempt ctx state. unfold attempt. rewrite runs_retryAttempt, Hx.
  unfold EffectsFacts.runs_call, Retry.retry_decision. split_and!.
  - by intros ->.
  - intros -> ->. unfold call_ret. by rewrite runs_FailWithCause.
  - intros input -> -> Hdone. unfold interruptionReason. fold ctx.
    destruct (ctx_Err ctx w1) as [e|] eqn:He; [|done].
    destruct (CancellationReason_done ctx w1 e He) as [reason Hr]. rewrite Hr.
    rewrite runs_FailWithCause. unfold checkpoint. fold ctx. by rewrite He.
  - intros input now w2 decision driver' -> -> Hlive Hnow Hobs Hnext.
    unfold interruptionReason. fold ctx state. rewrite Hlive. unfold call_bind. rewrite Hnow, Hnext.
    unfold emitAttempt, HasObserver. rewrite Hobs. cbn [is_Some_dec bool_decide negb].
    unfold advance, call_ret; cbv beta iota.
    split; intros Hc; rewrite Hc; cbn [negb]; [done|].
    rewrite runs_AndThen; cbn [snd]. by destruct (runs (Sleep _) i _) as [y w3].
Qed.

End Facts.
