(* ===== verification/Fault.v ===== *)
(** The vocabulary of failure the layers of a program share
    ([effect/fault/fault.go]): four kinds, what a fault is about, and the error
    behind it.

    [errors.As] is what an error's dynamic type answers for the first of its chain,
    depth first. *)

From S2P Require Import Prelude.

(** [errors.As]: the first error of the chain whose dynamic type is the target's. *)
Section As.
  Context {T : Type} (is_a : error -> option T).
Fixpoint errors_As (err : error) : option T :=
  match is_a err with
  | Some t => Some t
  | None =>
      let 'MkError _ _ wraps := err in
      (fix any_As (l : list error) : option T :=
         match l with
         | [] => None
         | e :: l => match errors_As e with Some t => Some t | None => any_As l end
         end) wraps
  end.
End As.

(** * The vocabulary *)

Inductive Kind : Type := Unavailable | Missing | Unreadable | Unacceptable.

Definition Kind_String (kind : Kind) : string :=
  match kind with
  | Missing => "missing"
  | Unreadable => "unreadable"
  | Unacceptable => "unacceptable"
  | Unavailable => "unavailable"
  end.

Record Fault : Type := MkFault { kind : Kind; subject : string; err : option error }.

Definition About (k : Kind) (about : string) (cause : option error) : Fault := MkFault k about cause.

Section Classified.
  (** The dynamic type of an error: whether it is a [Fault], and the kind it states
      when it is [Classified]. A [Fault] is. *)
  Context (is_fault : error -> option Fault) (classified : error -> option Kind).
  Context (fault_classified : forall e f, is_fault e = Some f -> classified e = Some (kind f)).

Definition KindOf (e : option error) : Kind :=
  match e with
  | None => Unavailable
  | Some e => default Unavailable (errors_As classified e)
  end.

Definition From (e : error) : Fault :=
  match is_fault e with
  | Some already => already
  | None => MkFault (KindOf (Some e)) EmptyString (Some e)
  end.

Definition Message (fault : Fault) : string :=
  match err fault with
  | None => Kind_String (kind fault)
  | Some e => error_text e
  end.

Definition Fault_Error (fault : Fault) : string :=
  if bool_decide (subject fault = EmptyString)
  then (Kind_String (kind fault) ++ ": " ++ Message fault)%string
  else (Kind_String (kind fault) ++ ": " ++ subject fault ++ ": " ++ Message fault)%string.

(** Adopting an error keeps the kind it states, its first classified error's, and
    adopting a fault, or what was adopted before, changes nothing. *)
Lemma From_keeps_the_kind e :
  kind (From e) = KindOf (Some e)
  /\ (forall f, is_fault e = Some f -> From e = f).
Proof.
  unfold From. split; [|by intros f ->]. destruct (is_fault e) as [f|] eqn:Hf; [|done].
  unfold KindOf. destruct e as [n t ws]; cbn. by rewrite (fault_classified _ _ Hf).
Qed.

End Classified.
