(* ===== verification/Platform.v ===== *)
(** What a program is run on and written with: the live capabilities
    ([effect/internal/platform]), the body of a program's main ([effect/process.go]),
    and the handles that fix the channels of a program ([operations.go],
    [io_operations.go], [task.go]).

    The operating system, the slog handler and the process's signals are parameters. *)

From S2P Require Import Prelude GoStrings Outcome Traversal OutcomeFacts Cause CauseFacts Interpreter InterpreterFacts.
From S2P Require Import Algebra Effects EffectsFacts Observation Calls Queue Completion Scope ConfigSource Time.
From S2P Require Import State RuntimePort Lifetimes Runtime Waiting Capabilities Fault.

(** * Live capabilities *)

Section Live.
  Context {V World Ctx Attr : Type} `{Waiting World Ctx}.
  #[local] Abbreviation call := (call V World).

(** A deferred call that cannot panic runs whatever the body came to. *)
Definition deferred {A} (last : World -> World) (body : call A) : call A := fun w =>
  let '(r, w) := body w in (r, last w).

(** ** The filesystem ([internal/platform/filesystem.go]) *)

Section FileSystem.
  Context {Bytes FileMode FileInfo DirEntry : Type} (no_data : Bytes) (no_info : FileInfo).
  Context (os_ReadFile : string -> call (Bytes * option error)).
  Context (os_WriteFile : string -> Bytes -> FileMode -> call (option error)).
  Context (os_Stat : string -> call (FileInfo * option error)).
  Context (os_ReadDir : string -> call (list DirEntry * option error)).
  Context (os_MkdirAll : string -> FileMode -> call (option error)).
  Context (os_Remove : string -> call (option error)).
  Context (os_Rename : string -> string -> call (option error)).

Definition LiveFileSystem_ReadFile (ctx : Ctx) (path : string) : call (Bytes * option error) := fun w =>
  match ctx_Cause ctx w with
  | Some err => (inl (no_data, Some err), w)
  | None => os_ReadFile path w
  end.

Definition LiveFileSystem_WriteFile (ctx : Ctx) (path : string) (data : Bytes) (permissions : FileMode)
    : call (option error) := fun w =>
  match ctx_Cause ctx w with
  | Some err => (inl (Some err), w)
  | None => os_WriteFile path data permissions w
  end.

Definition LiveFileSystem_Stat (ctx : Ctx) (path : string) : call (FileInfo * option error) := fun w =>
  match ctx_Cause ctx w with
  | Some err => (inl (no_info, Some err), w)
  | None => os_Stat path w
  end.

Definition LiveFileSystem_ReadDir (ctx : Ctx) (path : string) : call (list DirEntry * option error) := fun w =>
  match ctx_Cause ctx w with
  | Some err => (inl ([], Some err), w)
  | None => os_ReadDir path w
  end.

Definition LiveFileSystem_MkdirAll (ctx : Ctx) (path : string) (permissions : FileMode) : call (option error) :=
  fun w =>
  match ctx_Cause ctx w with
  | Some err => (inl (Some err), w)
  | None => os_MkdirAll path permissions w
  end.

Definition LiveFileSystem_Remove (ctx : Ctx) (path : string) : call (option error) := fun w =>
  match ctx_Cause ctx w with
  | Some err => (inl (Some err), w)
  | None => os_Remove path w
  end.

Definition LiveFileSystem_Rename (ctx : Ctx) (oldPath newPath : string) : call (option error) := fun w =>
  match ctx_Cause ctx w with
  | Some err => (inl (Some err), w)
  | None => os_Rename oldPath newPath w
  end.
End FileSystem.

(** ** The clock ([internal/platform/clock.go]) *)

Section Clock.
  (** [time.NewTimer], whether its channel has been sent to, and [Stop]. *)
  Context (NewTimer : Duration -> call nat) (timer_C : nat -> World -> option (unit * World)).
  Context (timer_Stop : nat -> World -> World) (stuck : Panic V).

(** The case of the select that returns nil. *)
Definition timer_fires (timer : nat) (w : World) : option (option error * World) :=
  '(_, w) ← timer_C timer w; Some (None, w).

Definition LiveClock_Sleep (ctx : Ctx) (duration : Duration) : call (option error) :=
  let duration := if (duration <? 0)%Z then 0%Z else duration in
  let! timer := NewTimer duration in
  deferred (timer_Stop timer)
    (select stuck ctx (timer_fires timer) (fun w => (inl (ctx_Cause ctx w), w))).

(** A sleep stops its timer however it ends: it comes to nil once the timer has fired,
    unless the context is done for no reason, and to an error only the context gives. *)
Lemma LiveClock_Sleep_ends ctx duration w timer w1 :
  NewTimer (Z.max 0 duration) w = (inl timer, w1) ->
  exists r w2, LiveClock_Sleep ctx duration w = (r, timer_Stop timer w2) /\
  match r with
  | inl None => (exists w', timer_C timer w' = Some (tt, w2)) \/ ctx_Cause ctx w2 = None
  | inl (Some err) => ctx_Cause ctx w2 = Some err
  | inr p => p = stuck
  end.
Proof.
  intros Hn. unfold LiveClock_Sleep.
  replace (if (duration <? 0)%Z then 0%Z else duration) with (Z.max 0 duration)
    by (destruct (Z.ltb_spec duration 0); lia).
  unfold call_bind. rewrite Hn. unfold deferred, select.
  destruct (waits ctx _ w1) as [[[|] w2]|].
  - unfold proceed, timer_fires. destruct (timer_C timer w2) as [[[] w3]|] eqn:E; simpl.
    + exists (inl None), w3. eauto.
    + by exists (inr stuck), w2.
  - eexists _, w2. split; [done|]. destruct (ctx_Cause ctx w2); auto.
  - by eexists _, _.
Qed.
End Clock.

(** ** The logger and diagnostics ([internal/platform/logger.go], [diagnostics.go]) *)

(** [slog.Record], as far as the logger fills it. *)
Record slogRecord : Type := MkSlogRecord {
  slog_Time : Time; slog_Level : Z; slog_Message : string; slog_Attrs : list Attr
}.

(** [slog.Handler]. *)
Record Handler : Type := MkHandler {
  Enabled : Ctx -> Z -> call bool;
  Handle : Ctx -> slogRecord -> call (option error)
}.

Definition LiveLogger_Log (handler : Handler) (ctx : Ctx) (record : LogRecord Attr) : call (option error) :=
  let! enabled := Enabled handler ctx (log_Level _ record) in
  if negb enabled then call_ret None
  else Handle handler ctx
         (MkSlogRecord (log_Timestamp record) (log_Level _ record) (log_Message _ record) (log_Fields record)).

Definition FaultComponent_string (component : FaultComponent) : string :=
  match component with FaultLogger => "logger" | FaultObserver => "observer" | FaultRuntime => "runtime" end.

(** [quote] is [fmt]'s [%q]; [WriteString] is [io.WriteString] to a writer, and
    [Stderr] the process's own. *)
Definition LiveDiagnostics_Report {Writer : Type} (quote : string -> string)
    (WriteString : Writer -> string -> call (Z * option error)) (Stderr : Writer)
    (Output : option Writer) (_ : Ctx) (fault : RuntimeFault) : call unit :=
  let! _ := WriteString (default Stderr Output)
              ("effect: " ++ FaultComponent_string (Component fault) ++ " fault during "
               ++ quote (fault_Operation fault) ++ ": " ++ sprint_error (fault_Err fault) ++ newline)%string in
  call_ret tt.
End Live.

(** * The body of a main ([process.go]) *)

(** [errors.Join] of two: nil when both are, and else the text of each on its line. *)
Definition errors_Join (first second : option error) : option error :=
  match option_list first ++ option_list second with
  | [] => None
  | [err] => Some (MkError 0 (error_text err) [err])
  | errs => Some (MkError 0 (Join (map error_text errs) newline) errs)
  end.

Section Process.
  Context {V World Ctx Attr FS Logger F : Type} `{ContextOps World Ctx}.
  Context `{FinalizerOps F V World Ctx} `{Heap World (Scope V F)} `{Heap World Ledger}.
  Context `{!ScopeContexts V World Ctx F} `{!ScopeChildren V World F} `{Erased V unit}.
  Context (sprint : V -> string) (error_value : error -> V) (unsupported : error).
  Context (zero_effect nil_dereference nil_runtime out_of_range : Panic V) (stack : string).
  Context (fault_value : RuntimeFault -> V).
  #[local] Abbreviation State := (@State V World Ctx Attr FS Logger).
  #[local] Abbreviation Effect := (@Effect V World Ctx State).
  #[local] Abbreviation call := (call V World).
  #[local] Abbreviation Flush := (Ctx -> call (option error)).
  #[local] Abbreviation Observe := (Ctx -> @RuntimeEvent Attr -> call unit).
  #[local] Abbreviation Runtime := (@Runtime V World Ctx Attr FS Logger).
  Context (observer_Flusher : Observe -> option Flush) (logger_Flusher : Logger -> option Flush).
  (** [signal.NotifyContext] of the two signals, with its [stop]; [context.Background];
      what [fmt] prints of a failure. *)
  Context (NotifyContext : Ctx -> call (Ctx * (World -> World))) (Background : Ctx).
  Context (print : option V -> string).
  #[local] Abbreviation Runtime_Run := (Runtime_Run error_value unsupported zero_effect nil_dereference nil_runtime).
  #[local] Abbreviation Runtime_Close :=
    (Runtime_Close sprint nil_dereference nil_runtime stack fault_value observer_Flusher logger_Flusher).

(** [cause.String()], whose loop would panic where [renderCause] is [None]. *)
Definition Cause_String (cause : Cause V) : call string :=
  match renderCause print cause false with
  | Some text => call_ret text
  | None => call_panic out_of_range
  end.

(** [errors.New] of a text; no two are the same error. *)
Definition errors_New (text : string) : error := MkError 0 text [].

Definition RunUntilStopped {E} (runtime : option Runtime) (program : Effect unit E unit) : call (option error) :=
  let! (within, stop) := NotifyContext Background in
  deferred stop
    (let! exit := Runtime_Run runtime within tt program in
     let! failure :=
       match Exit_Cause exit with
       | Some cause =>
           if negb (HasInterruptsOnly cause)
           then let! text := Cause_String cause in call_ret (Some (errors_New text))
           else call_ret None
       | None => call_ret None
       end in
     let! cause := Runtime_Close runtime Background in
     if negb (IsEmpty cause)
     then let! text := Cause_String cause in
          call_ret (errors_Join failure (Some (errors_New ("the runtime did not close cleanly: " ++ text)%string)))
     else call_ret failure).

Lemma Cause_String_total cause :
  exists text, forall w, Cause_String cause w = (inl text, w).
Proof. eexists. intros w. unfold Cause_String. by rewrite renderCause_reference. Qed.

(** A program that returns is followed by the close of its runtime, in a context of its
    own that no signal cancels, and the signals are let go of last. It comes to nil
    exactly when it succeeded, or was only stopped, and the close was clean. *)
Theorem stopping_is_no_failure {E} runtime (program : Effect unit E unit) w within stop w0 exit w1 cleanup w2 :
  NotifyContext Background w = (inl (within, stop), w0) ->
  Runtime_Run runtime within tt program w0 = (inl exit, w1) ->
  Runtime_Close runtime Background w1 = (inl cleanup, w2) ->
  exists failure, RunUntilStopped runtime program w = (inl failure, stop w2)
  /\ (failure = None <->
      IsEmpty cleanup = true /\ forall cause, Exit_Cause exit = Some cause -> HasInterruptsOnly cause = true).
Proof.
  intros Hn Hr Hc. unfold RunUntilStopped. unfold call_bind at 1. rewrite Hn.
  unfold deferred. unfold call_bind at 1. rewrite Hr.
  assert (Hf : exists failure, (match Exit_Cause exit with
       | Some cause =>
           if negb (HasInterruptsOnly cause)
           then let! text := Cause_String cause in call_ret (Some (errors_New text))
           else call_ret None
       | None => call_ret None
       end) w1 = (inl failure, w1)
    /\ (failure = None <-> forall cause, Exit_Cause exit = Some cause -> HasInterruptsOnly cause = true)).
  { destruct (Exit_Cause exit) as [cause|]; [|eexists; split; [done|by split; [|done]]].
    destruct (HasInterruptsOnly cause) eqn:E1; simpl.
    - eexists. split; [done|]. split; [|done]. intros _ ? [= <-]. done.
    - destruct (Cause_String_total cause) as [text Ht]. eexists. unfold call_bind. rewrite Ht. split; [done|].
      split; [done|]. intros H'. specialize (H' cause eq_refl). congruence. }
  destruct Hf as (failure & Hf & Hiff). unfold call_bind at 1. rewrite Hf. unfold call_bind at 1. rewrite Hc.
  destruct (IsEmpty cleanup) eqn:E1; simpl.
  - eexists. split; [done|]. rewrite Hiff. naive_solver.
  - destruct (Cause_String_total cleanup) as [text Ht]. eexists. unfold call_bind. rewrite Ht. split; [done|].
    split; [by destruct failure|]. by intros [? _].
Qed.

(** A body that panics is let go of as well. *)
Lemma panic_stops_signals {E} runtime (program : Effect unit E unit) w within stop w0 p w1 :
  NotifyContext Background w = (inl (within, stop), w0) ->
  Runtime_Run runtime within tt program w0 = (inr p, w1) ->
  RunUntilStopped runtime program w = (inr p, stop w1).
Proof.
  intros Hn Hr. unfold RunUntilStopped. unfold call_bind at 1. rewrite Hn.
  unfold deferred. unfold call_bind at 1. by rewrite Hr.
Qed.
End Process.

(** * Handles over a program's channels ([operations.go], [io_operations.go], [task.go]) *)

(** [Operations[R, E]] holds nothing: it is the two channels, written once. *)
Inductive Operations (R E : Type) : Type := For.
Arguments For {R E}.

(** [IOOperations[R]] embeds the operations whose failures are [IOError]. *)
Record IOOperations (R : Type) : Type := MkIOOperations { embedded : Operations R IOError }.
Arguments MkIOOperations {R} _.
Arguments embedded {R} _.

Definition IOFor {R : Type} : IOOperations R := MkIOOperations For.
Definition IO : IOOperations unit := IOFor.
Definition TaskOperations : Operations unit Fault := For.

Section Operations.
  Context {V World Ctx Attr FS Logger : Type} `{ContextOps World Ctx} `{Erased V (Exit V)} (zero_effect : Panic V).
  #[local] Abbreviation State := (@State V World Ctx Attr FS Logger).
  #[local] Abbreviation Effect := (@Effect V World Ctx State).
  #[local] Abbreviation call := (call V World).
  Context {R E : Type} `{Erased V R} `{Erased V E} `{Erased V unit}.

Definition Operations_From {A} (_ : Operations R E) (eval : Ctx -> R -> call (Exit V)) : Effect R E A :=
  Effects.From eval.

Definition Operations_FromEither {A} `{Erased V A} (_ : Operations R E) (eval : Ctx -> R -> call (Either E A))
    : Effect R E A := FromEither eval.

Definition Operations_Succeed {A} `{Erased V A} (_ : Operations R E) (value : A) : Effect R E A := SucceedWith value.

(** [site] is the line of the method's caller. *)
Definition Operations_Fail {A} (_ : Operations R E) (site : string) (failure : E) : Effect R E A :=
  FailWithCause (WithOrigin (FailCauseOf failure) (MkOrigin site EmptyString)).

Definition Operations_Try {A} `{Erased V A} (_ : Operations R E) (eval : Ctx -> R -> call (A * option error))
    (mapError : error -> E) : Effect R E A := Try eval mapError.

Definition Operations_Environment (_ : Operations R E) : Effect R E R := Capabilities.Environment.

Definition Operations_EnvironmentWith {A} `{Erased V A} (_ : Operations R E) (read : R -> call A) : Effect R E A :=
  EnvironmentWith read.

Definition Operations_WidenError {A} (_ : Operations R E) (fx : Effect R Never A) : Effect R E A := WidenError zero_effect fx.

Definition Operations_Fold {A B} `{Erased V A} `{Erased V B} (_ : Operations R E) (fx : Effect R E A)
    (failure : Cause V -> call B) (success : A -> call B) : Effect R E B :=
  WidenError zero_effect (FoldEffect zero_effect (E0 := Never) fx failure success).

Definition Operations_Suspend {A} (_ : Operations R E) (create : call (Effect R E A)) : Effect R E A :=
  SuspendEffect zero_effect create.

Definition Operations_FailuresAsDefects {A} (_ : Operations R E) (fx : Effect R E A) : Effect R Never A :=
  OrDie zero_effect fx.

Definition Operations_CheckInterrupt (_ : Operations R E) : Effect R E unit := CheckInterrupt.

(** A task needs nothing and fails with a fault. *)
Definition FromValue {A} `{Erased V A} (value : A) : Effect unit Fault A := SucceedWith value.

Definition FromFault {A} `{Erased V Fault} (site : string) (why : Fault) : Effect unit Fault A :=
  FailWithCause (WithOrigin (FailCauseOf why) (MkOrigin site EmptyString)).

Definition Done : Effect unit Fault unit := FromValue tt.
End Operations.

(** The filesystem's effects under a handle. *)
Section IOOperations.
  Context {V World Ctx Attr FS Logger : Type} `{ContextOps World Ctx}.
  #[local] Abbreviation State := (@State V World Ctx Attr FS Logger).
  #[local] Abbreviation Effect := (@Effect V World Ctx State).
  #[local] Abbreviation call := (call V World).
  Context {Bytes FileMode FileInfo DirEntry R : Type}.
  Context `{Erased V R} `{Erased V unit} `{Erased V IOError} `{Erased V Bytes}.
  Context `{Erased V FileInfo} `{Erased V (list DirEntry)}.
  Context (fs_ReadFile : FS -> Ctx -> string -> call (Bytes * option error)).
  Context (fs_WriteFile : FS -> Ctx -> string -> Bytes -> FileMode -> call (option error)).
  Context (fs_Stat : FS -> Ctx -> string -> call (FileInfo * option error)).
  Context (fs_ReadDir : FS -> Ctx -> string -> call (list DirEntry * option error)).
  Context (fs_MkdirAll : FS -> Ctx -> string -> FileMode -> call (option error)).
  Context (fs_Remove : FS -> Ctx -> string -> call (option error)).
  Context (fs_Rename : FS -> Ctx -> string -> string -> call (option error)).

Definition IO_ReadFile (_ : IOOperations R) (path : string) : Effect R IOError Bytes := ReadFile fs_ReadFile path.
Definition IO_WriteFile (_ : IOOperations R) (path : string) (data : Bytes) (permissions : FileMode)
    : Effect R IOError unit := WriteFile fs_WriteFile path data permissions.
Definition IO_Stat (_ : IOOperations R) (path : string) : Effect R IOError FileInfo := Stat fs_Stat path.
Definition IO_ReadDir (_ : IOOperations R) (path : string) : Effect R IOError (list DirEntry) := ReadDir fs_ReadDir path.
Definition IO_MkdirAll (_ : IOOperations R) (path : string) (permissions : FileMode) : Effect R IOError unit :=
  MkdirAll fs_MkdirAll path permissions.
Definition IO_Remove (_ : IOOperations R) (path : string) : Effect R IOError unit := Remove fs_Remove path.
Definition IO_Rename (_ : IOOperations R) (oldPath newPath : string) : Effect R IOError unit :=
  Rename fs_Rename oldPath newPath.
End IOOperations.
