(* ===== verification/Adapters.v ===== *)
(** Stores and limiters as effects ([effect/cache/operations.go],
    [effect/rate/turn.go]).

    A store and a limiter are interfaces of the program: their methods are
    parameters. *)

From S2P Require Import Prelude Outcome Traversal OutcomeFacts Cause Interpreter InterpreterFacts.
From S2P Require Import Algebra Effects EffectsFacts Observation Calls Completion Scope Time State.
From S2P Require Import Fault Cache Rate Schedule Retry Capabilities.

Section Adapters.
  Context {V World Ctx Attr FS Logger : Type} `{ContextOps World Ctx}.
  Context (error_value : error -> V) (unsupported : error) (zero_effect : Panic V).
  Context (clock_failed : error -> Panic V).
  #[local] Abbreviation State := (@State V World Ctx Attr FS Logger).
  #[local] Abbreviation Effect := (@Effect V World Ctx State).
  #[local] Abbreviation call := (call V World).
  #[local] Abbreviation runs := (runs error_value unsupported zero_effect).
  Context {R : Type} `{Erased V R} `{Erased V unit}.

(** * Stores *)

Section Store.
  Context {A : Type} `{Erased V (@Cache.Lookup A)} `{Erased V Cache.Fault}.
  Context (is_fault : error -> option Cache.Fault).
  Context (store_Get : Ctx -> string -> call (@Cache.Lookup A * option error)).
  Context (store_Put : Ctx -> @Cache.Entry A -> call (option error)).
  Context (store_Invalidate : Ctx -> string -> call (option error)).

Definition faultOf (op key : string) (err : error) : Cache.Fault :=
  match errors_As is_fault err with
  | Some fault => fault
  | None => Cache.MkFault op key (Some err)
  end.

Definition ReadStore (key : string) : Effect R Cache.Fault (@Cache.Lookup A) :=
  WithNameEffect zero_effect (Try (fun ctx _ => store_Get ctx key) (faultOf "read" key)) "cache read".

Definition WriteStore (site : string) (entry : @Cache.Entry A) : Effect R Cache.Fault unit :=
  if negb (Cache.IsStorable entry)
  then FailWith site (Cache.MkFault "write" (Cache.Key entry) (Some Cache.ErrUnworthy))
  else
    WithNameEffect zero_effect
      (Try (fun ctx _ => call_map (fun err => (tt, err)) (store_Put ctx entry))
         (faultOf "write" (Cache.Key entry))) "cache write".

Definition DropStore (about : string) : Effect R Cache.Fault unit :=
  WithNameEffect zero_effect
    (Try (fun ctx _ => call_map (fun err => (tt, err)) (store_Invalidate ctx about))
       (faultOf "drop" about)) "cache drop".
End Store.

(** * Limiters *)

Section Limiter.
  Context `{Erased V Rate.Fault} `{Erased V Duration}.
  Context (is_fault : error -> option Rate.Fault).
  Context (limiter_Turn : Ctx -> Rate.Allowance -> Duration -> call (Duration * option error)).

Definition limiter_fault (allowance : Rate.Allowance) (err : error) : Rate.Fault :=
  match errors_As is_fault err with
  | Some fault => fault
  | None => Rate.MkFault (Rate.Name allowance) (Some err)
  end.

Definition reserveTurn (allowance : Rate.Allowance) (longest : Duration)
    : Effect R Rate.Fault Duration :=
  Try (fun ctx _ => limiter_Turn ctx allowance longest) (limiter_fault allowance).

Definition AwaitTurn (site : string) (allowance : Rate.Allowance) (longest : Duration)
    : Effect R Rate.Fault unit :=
  if negb (Rate.IsStated allowance)
  then FailWith site (Rate.MkFault (Rate.Name allowance) (Some Rate.ErrUnstated))
  else
    WithNameEffect zero_effect
      (FlatMap zero_effect (reserveTurn allowance longest) (fun wait =>
         call_ret (if (wait <=? 0)%Z then SucceedWith tt else Sleep clock_failed wait)))
      "rate wait".

(** Waiting for a turn: an allowance that says nothing is refused without asking the
    limiter; a limiter that refuses is a typed failure, its own fault when it states
    one, and nothing is waited for; a turn granted is waited for exactly as long as
    the limiter said, and not at all when it is now. *)
Theorem AwaitTurn_waits_its_turn (site : string) (allowance : Rate.Allowance) (longest : Duration)
    (i : Interpretation V Ctx State) w :
  let turn := runs (AwaitTurn site allowance longest) i w in
  let named := in_state (WithName (interp_State i) "rate wait") i in
  ctx_Err (interp_Context i) w = None ->
  (Rate.IsStated allowance = false ->
     turn = runs (FailWith (R := R) (A := unit) site
                    (Rate.MkFault (Rate.Name allowance) (Some Rate.ErrUnstated))) i w
     /\ snd turn = w)
  /\ (Rate.IsStated allowance = true -> forall r w1,
      limiter_Turn (interp_Context i) allowance longest w = (r, w1) ->
      turn = match r with
             | inl (wait, None) =>
                 if (wait <=? 0)%Z then (checkpoint i w1 (ExitSuccess (erase tt)), w1)
                 else runs (Sleep (R := R) (E := Rate.Fault) clock_failed wait) named w1
             | inl (_, Some err) =>
                 (ExitFailure (FailCause (erase (limiter_fault allowance err))), w1)
             | inr p => (ExitFailure (DieCause (capture p)), w1)
             end).
Proof.
  intros turn named Hlive. unfold turn, AwaitTurn. split; intros Hstated; rewrite Hstated; cbn [negb].
  - split; [done|]. unfold FailWith. by rewrite runs_FailWithCause.
  - intros r w1 Hturn. unfold WithNameEffect. rewrite runs_withState. unfold call_ret at 1.
    fold named. rewrite runs_FlatMap. unfold reserveTurn, Try. rewrite runs_From.
    change (interp_Context named) with (interp_Context i). rewrite Hlive. unfold call_bind.
    rewrite Hturn. destruct r as [[wait [err|]]|p]; [done| |done]. unfold call_ret at 1.
    change (IsSuccess (ExitSuccessOf wait)) with true; cbv iota. unfold runs_call, call_ret.
    unfold asValue. change (ExitValue (ExitSuccessOf wait)) with (erase wait).
    rewrite unerase_erase. destruct (wait <=? 0)%Z; [|done]. by rewrite runs_SucceedWith.
Qed.

End Limiter.
End Adapters.
