(* ===== verification/Collections.v ===== *)
(** Sequential traversal ([effect/collections.go]'s [ForEach] and [All]) over the
    effect combinators. *)

From S2P Require Import Prelude Outcome OutcomeFacts Cause Interpreter InterpreterFacts.
From S2P Require Import Algebra Effects EffectsFacts.

Section Collections.
  Context {V World Ctx St : Type} `{ContextOps World Ctx} `{StateOps St}.
  Context (error_value : error -> V) (unsupported : error) (zero_effect : Panic V).
  #[local] Abbreviation Effect := (@Effect V World Ctx St).
  #[local] Abbreviation call := (call V World).
  #[local] Abbreviation runs := (runs error_value unsupported zero_effect).

(** The steps are built first, one call of [f] an input. *)
Fixpoint steps_of {R E A B} (f : A -> call (Effect R E B)) (inputs : list A)
    : call (list (Effect R E B)) :=
  match inputs with
  | [] => call_ret []
  | input :: rest =>
      call_bind (f input) (fun step =>
        call_bind (steps_of f rest) (fun steps => call_ret (step :: steps)))
  end.

(** One turn of the loop: [accumulator.FlatMap(...)]. *)
Definition chain {R E B} `{Erased V B} `{Erased V (list B)} (accumulator : Effect R E (list B))
    (step : Effect R E B) : Effect R E (list B) :=
  FlatMap zero_effect accumulator (fun values =>
    call_ret (Map zero_effect step (fun value => call_ret (values ++ [value])))).

Definition ForEach {R E A B} `{Erased V R} `{Erased V B} `{Erased V (list B)}
    (inputs : list A) (f : A -> call (Effect R E B)) : Effect R E (list B) :=
  suspendRuntime zero_effect (fun _ _ _ =>
    call_bind (steps_of f inputs) (fun steps =>
      call_ret (foldl chain (SucceedWith []) steps))).

Definition sameEffect {R E A} (fx : Effect R E A) : call (Effect R E A) := call_ret fx.

Definition EffectsAll {R E A} `{Erased V R} `{Erased V A} `{Erased V (list A)}
    (effects : list (Effect R E A)) : Effect R E (list A) := ForEach effects sameEffect.

(** The reference: run the steps one after the other until one does not succeed. *)
Fixpoint each_reference {R E B} `{Erased V B} `{Erased V (list B)} (steps : list (Effect R E B))
    (values : list B) (i : Interpretation V Ctx St) (w : World) : Exit V * World :=
  match steps with
  | [] => (ExitSuccess (erase values), w)
  | step :: rest =>
      let '(x, w') := runs step i w in
      if IsSuccess x then each_reference rest (values ++ [asValue (ExitValue x)]) i w' else (x, w')
  end.

(** An accumulator whose successes are lists. *)
Definition lists {R E B} `{Erased V (list B)} (i : Interpretation V Ctx St)
    (accumulator : Effect R E (list B)) : Prop :=
  forall w, IsSuccess (fst (runs accumulator i w)) = true ->
  exists values, fst (runs accumulator i w) = ExitSuccess (erase values).

Lemma runs_chain {R E B} `{Erased V B} `{Erased V (list B)} (accumulator : Effect R E (list B))
    (step : Effect R E B) i w :
  runs (chain accumulator step) i w
  = let '(x, w1) := runs accumulator i w in
    if IsSuccess x then
      let '(y, w2) := runs step i w1 in
      if IsSuccess y
      then (ExitSuccess (erase (asValue (A := list B) (ExitValue x) ++ [asValue (ExitValue y)])), w2)
      else (y, w2)
    else (x, w1).
Proof.
  unfold chain. rewrite runs_FlatMap. destruct (runs accumulator i w) as [x w1].
  destruct (IsSuccess x); [|done]. unfold runs_call, call_ret. by rewrite runs_Map.
Qed.

Lemma runs_foldl_chain {R E B} `{Erased V B} `{Erased V (list B)} (steps : list (Effect R E B))
    (accumulator : Effect R E (list B)) i w :
  lists i accumulator ->
  runs (foldl chain accumulator steps) i w
  = let '(x, w1) := runs accumulator i w in
    if IsSuccess x then each_reference steps (asValue (ExitValue x)) i w1 else (x, w1).
Proof.
  revert accumulator w. induction steps as [|step steps IH]; intros acc w Hacc; cbn [foldl].
  - specialize (Hacc w). destruct (runs acc i w) as [x w1]; cbn in *.
    destruct (IsSuccess x) eqn:Hx; [|done]. destruct (Hacc eq_refl) as [values ->]; cbn.
    unfold asValue. by rewrite unerase_erase.
  - rewrite IH, runs_chain.
    + destruct (runs acc i w) as [x w1]. destruct (IsSuccess x) eqn:Hx; [|by rewrite Hx].
      cbn [each_reference]. destruct (runs step i w1) as [y w2].
      destruct (IsSuccess y) eqn:Hy; [|by rewrite Hy]. cbn. unfold asValue. by rewrite unerase_erase.
    + intros w'. rewrite runs_chain. destruct (runs acc i w') as [x w1].
      destruct (IsSuccess x) eqn:Hx; cbn; [|by rewrite Hx]. destruct (runs step i w1) as [y w2].
      destruct (IsSuccess y) eqn:Hy; cbn; [eauto|by rewrite Hy].
Qed.

Lemma runs_ForEach {R E A B} `{Erased V R} `{Erased V B} `{Erased V (list B)}
    (inputs : list A) (f : A -> call (Effect R E B)) (i : Interpretation V Ctx St) (w : World) :
  runs (ForEach inputs f) i w
  = match steps_of f inputs w with
    | (inr p, w1) => (ExitFailure (DieCause (capture p)), w1)
    | (inl steps, w1) =>
        match ctx_Err (interp_Context i) w1 with
        | Some _ => (interrupted_exit i w1, w1)
        | None => each_reference steps [] i w1
        end
    end.
Proof.
  assert (runs (ForEach inputs f) i w
    = match steps_of f inputs w with
      | (inl steps, w1) => runs (foldl chain (SucceedWith []) steps) i w1
      | (inr p, w1) => (ExitFailure (DieCause (capture p)), w1)
      end) as ->.
  { unfold EffectsFacts.runs; cbn. unfold call_bind, call_ret. by destruct (steps_of f inputs w) as [[s|p] w1]. }
  destruct (steps_of f inputs w) as [[steps|p] w1]; [|done].
  rewrite runs_foldl_chain.
  - rewrite runs_SucceedWith. unfold checkpoint. destruct (ctx_Err _ w1); [done|]. cbn.
    unfold asValue. by rewrite unerase_erase.
  - intros w2. rewrite runs_SucceedWith. unfold checkpoint. destruct (ctx_Err _ w2); cbn; [done|eauto].
Qed.

(** [ForEach] is a sequential loop: every step is built before any runs, a panic
    of building one being the outcome; then the steps run in input order, each in
    the world the one before left, until one does not succeed, whose exit is the
    outcome, and otherwise the values come out in input order. *)
Theorem ForEach_is_sequential {R E A B} `{Erased V R} `{Erased V B} `{Erased V (list B)}
    (inputs : list A) (f : A -> call (Effect R E B)) (i : Interpretation V Ctx St) (w : World) :
  runs (ForEach inputs f) i w
  = match steps_of f inputs w with
    | (inr p, w1) => (ExitFailure (DieCause (capture p)), w1)
    | (inl steps, w1) =>
        match ctx_Err (interp_Context i) w1 with
        | Some _ => (interrupted_exit i w1, w1)
        | None => each_reference steps [] i w1
        end
    end.
Proof. apply runs_ForEach. Qed.

End Collections.
