(* ===== verification/FileCopy.v ===== *)
(** The example [examples/filecopy]: a source is read, with or without retries, and
    its text is written in upper case ([program.go]).

    Whatever reads the source, nothing is logged or written unless it was read, and
    the output is written once, with what was read in upper case. *)

From S2P Require Import Prelude Outcome Traversal OutcomeFacts Cause Interpreter InterpreterFacts Algebra.
From S2P Require Import Effects EffectsFacts Observation Calls Completion Time Schedule State RuntimePort.
From S2P Require Import Capabilities Retry Platform.

Record sourceSnapshot (Bytes : Type) : Type := MkSnapshot { content : Bytes; timestamp : Time }.
Arguments MkSnapshot {Bytes} _ _.
Arguments content {Bytes} _.
Arguments timestamp {Bytes} _.

Section FileCopy.
  Context {V World Ctx Attr FS Logger Bytes FileMode : Type} `{ContextOps World Ctx} `{ProgressCells World}.
  Context `{Heap World identifiers}.
  Context `{Erased V unit} `{Erased V IOError} `{Erased V Bytes} `{Erased V Time}.
  Context `{Erased V (Product Bytes Time)} `{Erased V (sourceSnapshot Bytes)}.
  #[local] Abbreviation State := (@State V World Ctx Attr FS Logger).
  #[local] Abbreviation call := (call V World).
  #[local] Abbreviation ioEffect := (@Effect V World Ctx State unit IOError).
  Context (sprint : V -> string) (error_value : error -> V) (unsupported : error) (attr_Key : Attr -> string).
  Context (zero_effect zero_schedule nil_dereference : Panic V) (clock_failed : error -> Panic V).
  Context (identifiers_cell : nat).
  Context (logger_Log : Logger -> Ctx -> LogRecord Attr -> call (option error)).
  Context (fs_ReadFile : FS -> Ctx -> string -> call (Bytes * option error)).
  Context (fs_WriteFile : FS -> Ctx -> string -> Bytes -> FileMode -> call (option error)).
  (** [slog.Int("bytes", len(content))], [slog.Time("started_at", ...)],
      [slog.String("input", ...)], [[]byte(strings.ToUpper(string(content)))], [0o600]
      and the line of the span. *)
  Context (slog_bytes : Bytes -> Attr) (slog_started_at : Time -> Attr) (slog_input : string -> Attr).
  Context (upper : Bytes -> Bytes) (owner_only : FileMode) (span_line : string).
  #[local] Abbreviation spanned := (WithSpanEffect sprint zero_effect nil_dereference identifiers_cell).
  #[local] Abbreviation runs := (runs error_value unsupported zero_effect).

Definition normalizeAndStore (operations : IOOperations unit) (inputPath outputPath : string)
    : sourceSnapshot Bytes -> call (ioEffect unit) := fun source =>
  let message : ioEffect unit := LogInfo sprint attr_Key logger_Log "normalizing file"
    [slog_bytes (content source); slog_started_at (timestamp source)] in
  let write := IO_WriteFile fs_WriteFile operations outputPath (upper (content source)) owner_only in
  call_ret (AndThen zero_effect message write).

Definition copyProgram (operations : IOOperations unit) (inputPath outputPath : string)
    (read : ioEffect Bytes) : ioEffect unit :=
  let snapshot := Map zero_effect (Zip zero_effect read Now)
    (fun values => call_ret (MkSnapshot (First values) (Second values))) in
  spanned (WithNameEffect zero_effect
    (FlatMap zero_effect snapshot (normalizeAndStore operations inputPath outputPath)) "file-copy")
    span_line "file-copy" [slog_input inputPath].

Definition CopyProgram (inputPath outputPath : string) : ioEffect unit :=
  copyProgram IO inputPath outputPath (IO_ReadFile fs_ReadFile IO inputPath).

Definition ProgramWithRetry {Out} (fuel : nat) (beyond : ioEffect Bytes) (inputPath outputPath : string)
    (policy : Schedule IOError Out) : ioEffect unit :=
  let read := Retry sprint zero_effect zero_schedule clock_failed fuel beyond
    (WithNameEffect zero_effect (IO_ReadFile fs_ReadFile IO inputPath) "read-source") policy in
  copyProgram IO inputPath outputPath read.

(** ** What a copy does *)

(** What writing comes to, in the world it leaves. *)
Definition written (ctx : Ctx) (fs : FS) (outputPath : string) (data : Bytes) (w : World) : Exit V * World :=
  match fs_WriteFile fs ctx outputPath data owner_only w with
  | (inl None, w') => (ExitSuccessOf tt, w')
  | (inl (Some err), w') => (ExitFailureOf (MkIOError IOWriteFile outputPath EmptyString (Some err)), w')
  | (inr p, w') => (ExitFailure (DieCause (capture p)), w')
  end.

Section Copying.
  Context (i : Interpretation V Ctx State) (live : forall w, ctx_Err (interp_Context i) w = None).

Lemma runs_Now st w now w' :
  clock_Now (cap_Clock (capabilities st)) w = (inl now, w') ->
  runs (Now : ioEffect Time) (in_state st i) w = (ExitSuccessOf now, w').
Proof.
  intros Hnow. unfold Now. rewrite runs_fromRuntime; cbn. rewrite live. unfold call_bind. by rewrite Hnow.
Qed.

Lemma runs_WriteFile st operations outputPath data w :
  runs (IO_WriteFile fs_WriteFile operations outputPath data owner_only : ioEffect unit) (in_state st i) w
  = written (interp_Context i) (cap_FileSystem (capabilities st)) outputPath data w.
Proof.
  unfold IO_WriteFile, WriteFile, filesystemEffect, written. rewrite runs_fromRuntime; cbn. rewrite live.
  unfold call_bind, answers_unit, call_map, call_ret; cbn. unfold call_bind.
  destruct (fs_WriteFile _ _ _ _ _ w) as [[[err|]|p] w']; [| |done];
    unfold checkpointed, interruptExit; by rewrite live.
Qed.

(** The step from what was read to what is written. *)
Lemma runs_snapshot (read : ioEffect Bytes) st w :
  total (clock_Now (cap_Clock (capabilities st))) ->
  let '(x, w1) := runs read (in_state st i) w in
  runs (Map zero_effect (Zip zero_effect read Now)
          (fun values => call_ret (MkSnapshot (First values) (Second values)))) (in_state st i) w
  = if IsSuccess x then
      match clock_Now (cap_Clock (capabilities st)) w1 with
      | (inl now, w2) => (ExitSuccessOf (MkSnapshot (asValue (A := Bytes) (ExitValue x)) now), w2)
      | (inr p, w2) => (ExitFailure (DieCause (capture p)), w2)
      end
    else (x, w1).
Proof.
  intros Hclock. rewrite runs_Map. unfold Zip. rewrite runs_FlatMap.
  destruct (runs read _ w) as [x w1]. destruct (IsSuccess x) eqn:Hx; [|by rewrite Hx].
  unfold runs_call, call_ret at 1. rewrite runs_Map. destruct (Hclock w1) as (now & w2 & Hnow).
  unfold returns in Hnow. rewrite (runs_Now _ _ _ _ Hnow), Hnow. unfold call_ret, ExitSuccessOf; cbn.
  unfold asValue. by rewrite !unerase_erase.
Qed.

(** A logger that answers is asked once and never stops what follows. *)
Lemma runs_LogInfo st message fields w :
  HasObserver st = false ->
  total (clock_Now (cap_Clock (capabilities st))) ->
  (forall ctx record, total (logger_Log (cap_Logger (capabilities st)) ctx record)) ->
  exists w', runs (LogInfo sprint attr_Key logger_Log message fields : ioEffect unit) (in_state st i) w
             = (ExitSuccess (erase tt), w').
Proof.
  intros Hquiet Hclock Hlogger. destruct (Hclock w) as (now & w1 & Hnow).
  destruct (Hlogger (interp_Context i) (log_record attr_Key st now LevelInfo message fields) w1) as (err & w2 & Hlog).
  pose proof (logging_never_fails (E := IOError) sprint attr_Key zero_effect logger_Log error_value unsupported
    LevelInfo message fields (in_state st i) w now w1 (inl err) w2 (live w) Hclock Hnow Hlog) as Hlogged.
  destruct err as [err|]; cbn in Hlogged.
  - destruct Hlogged as (w3 & _ & Hrun). exists w3. exact Hrun.
  - destruct Hlogged as [Hx Hw]. exists w2. rewrite <- Hx, <- (Hw Hquiet). apply surjective_pairing.
Qed.

Lemma runs_copying operations inputPath outputPath (read : ioEffect Bytes) st w :
  HasObserver st = false ->
  total (clock_Now (cap_Clock (capabilities st))) ->
  (forall ctx record, total (logger_Log (cap_Logger (capabilities st)) ctx record)) ->
  let copied := runs (FlatMap zero_effect
    (Map zero_effect (Zip zero_effect read Now)
       (fun values => call_ret (MkSnapshot (First values) (Second values))))
    (normalizeAndStore operations inputPath outputPath)) (in_state st i) w in
  let '(x, w1) := runs read (in_state st i) w in
  if IsSuccess x
  then exists w2, copied = written (interp_Context i) (cap_FileSystem (capabilities st)) outputPath
                             (upper (asValue (ExitValue x))) w2
  else copied = (x, w1).
Proof.
  intros Hquiet Hclock Hlogger. cbv zeta. rewrite runs_FlatMap.
  pose proof (runs_snapshot read st w Hclock) as Hsnapshot.
  destruct (runs read (in_state st i) w) as [x w1]. rewrite Hsnapshot.
  destruct (IsSuccess x) eqn:Hx; [|by rewrite Hx].
  destruct (Hclock w1) as (now & w2 & Hnow). unfold returns in Hnow. rewrite Hnow; cbn [IsSuccess ExitSuccessOf ExitSuccess exit_success].
  replace (asValue (ExitValue (ExitSuccessOf (MkSnapshot (asValue (A := Bytes) (ExitValue x)) now))))
    with (MkSnapshot (asValue (A := Bytes) (ExitValue x)) now) by (symmetry; apply unerase_erase).
  unfold runs_call, normalizeAndStore, call_ret at 1. rewrite runs_AndThen. cbn [content timestamp].
  match goal with |- context [runs (LogInfo _ _ _ ?message ?fields) _ _] =>
    destruct (runs_LogInfo st message fields w2 Hquiet Hclock Hlogger) as (w3 & ->) end.
  exists w3. cbn [IsSuccess ExitSuccess exit_success]. apply runs_WriteFile.
Qed.
End Copying.

(** ** Properties *)

(** A copy writes once, and only what was read. With nobody observing, in a context
    that stays live, with a clock and a logger that answer, the copy ends with the
    failure of the read, in the world the read left, when the source could not be
    read, however it is read; and otherwise it writes the text that was read in upper
    case, and comes to what writing it comes to. *)
Theorem copy_writes_what_was_read (inputPath outputPath : string) (read : ioEffect Bytes)
    (i : Interpretation V Ctx State) w ids :
  let capabilities := capabilities (interp_State i) in
  heap_get identifiers_cell w = Some ids ->
  HasObserver (interp_State i) = false ->
  (forall v, ctx_Err (interp_Context i) v = None) ->
  total (clock_Now (cap_Clock capabilities)) ->
  (forall ctx record, total (logger_Log (cap_Logger capabilities) ctx record)) ->
  exists st, State.capabilities st = capabilities /\
  let opened := heap_set identifiers_cell (MkIdentifiers (wrapu64 (spans ids + 1)) (fibers ids)) w in
  let copied := runs (copyProgram IO inputPath outputPath read) i w in
  let '(x, w1) := runs read (in_state st i) opened in
  if IsSuccess x
  then exists w2, copied = written (interp_Context i) (cap_FileSystem capabilities) outputPath
                             (upper (asValue (ExitValue x))) w2
  else copied = (x, w1).
Proof.
  intros capabilities Hids Hquiet Hlive Hclock Hlogger.
  set (span := fst (WithSpan (interp_State i) (MkBoundary "file-copy" span_line [slog_input inputPath]) ids)).
  set (st := WithName span "file-copy"). exists st. split; [done|]. cbv zeta.
  unfold copyProgram. set (fx := WithNameEffect _ _ _).
  pose proof (observation_is_transparent sprint zero_effect nil_dereference identifiers_cell error_value unsupported
    fx span_line "file-copy" [slog_input inputPath] i w ids Hclock Hids) as Hspan.
  cbn [WithSpan] in Hspan. destruct Hspan as (_ & (w0 & _ & Hrun) & _). destruct (Hrun Hquiet) as [-> ->].
  unfold fx, WithNameEffect. rewrite runs_withState.
  exact (runs_copying i Hlive IO inputPath outputPath read st _ Hquiet Hclock Hlogger).
Qed.

End FileCopy.
