(* ===== verification/Checkout.v ===== *)
(** The example [examples/checkout]: one workflow written in direct style and as the
    [FlatMap] chain it describes ([program.go], [flatmap.go]).

    Its steps only read the catalog they are given. An effect that only reads
    answers from its state and its environment; such answers compose, and the two
    styles answer the same. *)

From stdpp Require Import strings gmap relations.
From S2P Require Import Prelude Outcome Traversal OutcomeFacts Cause Interpreter InterpreterFacts.
From S2P Require Import Algebra Effects EffectsFacts Observation Calls Gen GenFacts Time State Capabilities.
From S2P Require Import Platform Collections.

(** * Effects that only read *)
Section Answers.
  Context {V World Ctx St : Type} `{ContextOps World Ctx} `{StateOps St}.
  Context (error_value : error -> V) (unsupported : error) (zero_effect : Panic V).
  #[local] Abbreviation Effect := (@Effect V World Ctx St).
  #[local] Abbreviation call := (call V World).
  #[local] Abbreviation runs := (runs error_value unsupported zero_effect).
  Context {R E : Type} `{Erased V R}.

(** What [fx] comes to in a live context, which leaves the world alone. *)
Definition answers {A} (fx : Effect R E A) (x : St -> R -> Exit V) : Prop := forall i w,
  runs fx i w
  = (checkpoint i w (x (interp_State i) (asEnvironment (interp_Environment i))), w).

(** What sequencing makes of an answer. *)
Definition answer_then (x : Exit V) (k : option V -> Exit V) : Exit V :=
  if IsSuccess x then k (ExitValue x) else x.

Lemma checkpoint_then (i : Interpretation V Ctx St) w (x : Exit V) (k : option V -> Exit V) :
  (if IsSuccess (checkpoint i w x)
   then (checkpoint i w (k (ExitValue (checkpoint i w x))), w)
   else (checkpoint i w x, w))
  = (checkpoint i w (answer_then x k), w).
Proof.
  unfold checkpoint, answer_then. destruct (ctx_Err (interp_Context i) w); [done|].
  by destruct (IsSuccess x).
Qed.

Lemma answers_ext {A} (fx : Effect R E A) x y :
  (forall st env, x st env = y st env) -> answers fx x -> answers fx y.
Proof. intros Hxy Hx i w. by rewrite Hx, Hxy. Qed.

Lemma answers_SucceedWith {A} `{Erased V A} (a : A) :
  answers (SucceedWith a) (fun _ _ => ExitSuccessOf a).
Proof. intros i w. apply runs_SucceedWith. Qed.

Lemma answers_FailWithCause {A} (cause : Cause V) :
  answers (A := A) (FailWithCause cause)
    (fun st _ => ExitFailure (WithOrigin cause (MkOrigin EmptyString (state_Operation st)))).
Proof. intros i w. apply runs_FailWithCause. Qed.

Lemma answers_From {A} (x : R -> Exit V) :
  answers (A := A) (From (fun _ env => call_ret (x env))) (fun _ env => x env).
Proof.
  intros i w. rewrite runs_From. unfold checkpoint. by destruct (ctx_Err (interp_Context i) w).
Qed.

Lemma answers_withState {A} (fx : Effect R E A) x (derive : St -> St) :
  answers fx x ->
  answers (withState zero_effect fx (fun st => call_ret (derive st))) (fun st env => x (derive st) env).
Proof. intros Hx i w. rewrite runs_withState; cbn. rewrite Hx. done. Qed.

Lemma answers_Map {A B} `{Erased V A} `{Erased V B} (fx : Effect R E A) x (f : A -> B) :
  answers fx x ->
  answers (Map zero_effect fx (fun a => call_ret (f a)))
    (fun st env => answer_then (x st env) (fun v => ExitSuccessOf (f (asValue v)))).
Proof.
  intros Hx i w. rewrite runs_Map, Hx, <- checkpoint_then. unfold checkpoint, call_ret, ExitSuccessOf.
  by destruct (ctx_Err (interp_Context i) w).
Qed.

Lemma answers_FlatMap {A B} `{Erased V A} (fx : Effect R E A) x (k : A -> Effect R E B) y :
  answers fx x -> (forall a, answers (k a) (y a)) ->
  answers (FlatMap zero_effect fx (fun a => call_ret (k a)))
    (fun st env => answer_then (x st env) (fun v => y (asValue v) st env)).
Proof.
  intros Hx Hk i w. rewrite runs_FlatMap, Hx. unfold runs_call, call_ret.
  rewrite Hk. exact (checkpoint_then i w _ (fun v => y (asValue v) _ _)).
Qed.

Lemma answers_SuspendEffect {A} (fx : Effect R E A) x :
  answers fx x -> answers (SuspendEffect zero_effect (call_ret fx)) x.
Proof. intros Hx i w. rewrite runs_SuspendEffect. apply Hx. Qed.

(** One step after another, until one does not succeed. *)
Fixpoint each_answer {B} `{Erased V B} `{Erased V (list B)} (steps : list (Exit V)) (values : list B)
    : Exit V :=
  match steps with
  | [] => ExitSuccessOf values
  | x :: rest => answer_then x (fun v => each_answer rest (values ++ [asValue v]))
  end.

Lemma steps_of_ret {A B} (f : A -> Effect R E B) (inputs : list A) w :
  steps_of (fun a => call_ret (f a)) inputs w = (inl (f <$> inputs), w).
Proof. induction inputs as [|a rest IH]; cbn; [done|].
  unfold call_bind, call_ret in *. by rewrite IH. Qed.

Lemma each_reference_answers {A B} `{Erased V B} `{Erased V (list B)} (f : A -> Effect R E B) x inputs
    (values : list B) i w :
  (forall a, answers (f a) (x a)) -> ctx_Err (interp_Context i) w = None ->
  each_reference error_value unsupported zero_effect (f <$> inputs) values i w
  = (each_answer ((fun a => x a (interp_State i) (asEnvironment (interp_Environment i))) <$> inputs) values, w).
Proof.
  intros Hf Hlive. revert values. induction inputs as [|a rest IH]; intros values; cbn; [done|].
  rewrite Hf. unfold checkpoint, answer_then. rewrite Hlive. by destruct (IsSuccess _).
Qed.

Lemma answers_ForEach {A B} `{Erased V B} `{Erased V (list B)} (inputs : list A) (f : A -> Effect R E B) x :
  (forall a, answers (f a) (x a)) ->
  answers (ForEach zero_effect inputs (fun a => call_ret (f a)))
    (fun st env => each_answer ((fun a => x a st env) <$> inputs) []).
Proof.
  intros Hf i w. rewrite runs_ForEach, steps_of_ret. unfold checkpoint.
  destruct (ctx_Err (interp_Context i) w) eqn:Hlive; [done|]. by apply each_reference_answers.
Qed.

(** Answers see nothing of what direct style keeps. *)
Section Undisturbed.
  Context `{Heap World bool} `{Heap World (doState V)}.
  Context (indifferent : forall c w v, alike w v ->
    ctx_Err c w = ctx_Err c v /\ ctx_Cause c w = ctx_Cause c v).

Lemma checkpoint_alike (i : Interpretation V Ctx St) w v x :
  alike w v -> checkpoint i w x = checkpoint i v x.
Proof.
  intros [Herr Hcause]%(indifferent (interp_Context i)).
  unfold checkpoint, interrupted_exit, CancellationReason. by rewrite Herr, Hcause.
Qed.

Lemma answers_undisturbed {A} (fx : Effect R E A) x i : answers fx x -> undisturbed (runs fx i).
Proof.
  intros Hx w v Hwv. rewrite !Hx; cbn. split_and!; [by apply checkpoint_alike|done|done].
Qed.

End Undisturbed.

(** Every answer is a success with a value of its type, or a failure. *)
Definition settled {A} `{Erased V A} (x : Exit V) : Prop :=
  (exists a : A, x = ExitSuccessOf a) \/ exists cause, x = ExitFailure cause.

(** Performing effects one after the other is sequencing their answers. *)
Lemma sequential_Perform {A B} `{Erased V E} `{Erased V A} `{Erased V B} (fx : Effect R E B)
    (k : B -> @direct V World Ctx St R E A) (x : Exit V) (y : B -> Exit V) i w :
  ctx_Err (interp_Context i) w = None ->
  runs fx i w = (checkpoint i w x, w) -> settled (A := B) x ->
  (forall b, sequential error_value unsupported zero_effect (k b) i w = (y b, w)) ->
  sequential error_value unsupported zero_effect (Perform fx k) i w
  = (answer_then x (fun v => y (asValue v)), w).
Proof.
  intros Hlive Hfx Hx Hk. cbn [GenFacts.sequential]. rewrite Hfx. unfold checkpoint. rewrite Hlive.
  destruct Hx as [[b ->]|[cause ->]]; cbn; [apply Hk|done].
Qed.

End Answers.

(** * The workflow ([program.go]) *)

Record Customer : Type := MkCustomer { ID : string; Name : string; Discount : Z }.

(** The two Go maps are only read, and a nil one reads as empty. *)
Record Catalog : Type := MkCatalog { Customers : gmap string Customer; Prices : gmap string Z }.

Record Basket : Type := MkBasket { Items : list string }.

Record Quote : Type := MkQuote { Quote_Customer : string; Lines : Z; Total : Z }.

Record CheckoutError : Type := MkCheckoutError { Step : string; Detail : string }.

Definition CheckoutError_Error (failure : CheckoutError) : string :=
  (Step failure ++ ": " ++ Detail failure)%string.

(** An [int] wraps; the quotient by 100 cannot. *)
Definition quoteFor (customer : Customer) (lines : list Z) : Quote :=
  let total := foldl (fun total line => wrap64 (total + line)) 0%Z lines in
  MkQuote (Name customer) (Z.of_nat (length lines))
    (wrap64 (total - Z.quot (wrap64 (total * Discount customer)) 100)).

(** The total and the discount of prices an [int] can carry are exact. *)
Definition due (lines : list Z) : Z := foldr Z.add 0%Z lines.

Lemma due_nonneg lines : Forall (fun line => 0 <= line)%Z lines -> (0 <= due lines)%Z.
Proof. unfold due. induction 1; cbn; [done|lia]. Qed.

Lemma total_exact lines acc :
  Forall (fun line => 0 <= line)%Z lines -> (0 <= acc)%Z -> (acc + due lines <= int64_max)%Z ->
  foldl (fun total line => wrap64 (total + line)) acc lines = (acc + due lines)%Z.
Proof.
  intros Hlines. revert acc. induction Hlines as [|line rest Hline Hrest IH]; intros acc Hacc Hsum; cbn [foldl].
  - cbn. lia.
  - change (due (line :: rest)) with (line + due rest)%Z in *. pose proof (due_nonneg rest Hrest). unfold int64_max in *.
    rewrite wrap64_id by (unfold is_int64, int64_min, int64_max; lia). rewrite IH; lia.
Qed.

Lemma quoteFor_exact customer lines :
  Forall (fun line => 0 <= line)%Z lines -> (0 <= Discount customer <= 100)%Z ->
  (due lines * 100 <= int64_max)%Z ->
  let quote := quoteFor customer lines in
  Quote_Customer quote = Name customer /\ Lines quote = Z.of_nat (length lines)
  /\ Total quote = (due lines - due lines * Discount customer / 100)%Z
  /\ (0 <= Total quote <= due lines)%Z.
Proof.
  intros Hlines Hd Hmax. cbv zeta. unfold quoteFor; cbn [Quote_Customer Total].
  pose proof (due_nonneg lines Hlines) as Hdue. rewrite total_exact; [|done|done|unfold int64_max in *; lia].
  rewrite Z.add_0_l. generalize dependent (due lines). intros total Hmax Htotal.
  set (d := Discount customer) in *. clearbody d. unfold int64_max in Hmax.
  assert (0 <= total * d <= total * 100)%Z as Hprod by nia.
  assert (0 <= total * d / 100 <= total)%Z as Hq.
  { split; [apply Z.div_pos; lia|]. apply Z.div_le_upper_bound; lia. }
  rewrite (wrap64_id (total * d)) by (unfold is_int64, int64_min, int64_max; lia).
  rewrite Z.quot_div_nonneg by lia. rewrite wrap64_id by (unfold is_int64, int64_min, int64_max; lia).
  split_and!; [done|done|done|lia|lia].
Qed.

(** The failures its steps build. *)
Definition unknown_customer (customerID : string) : CheckoutError :=
  MkCheckoutError "load-customer" ("unknown customer " ++ customerID)%string.
Definition empty_basket (customer : Customer) : CheckoutError :=
  MkCheckoutError "load-basket" ("basket for " ++ Name customer ++ " is empty")%string.
Definition no_price (item : string) : CheckoutError :=
  MkCheckoutError "price" ("no price for " ++ item)%string.

(** The prices of the items, or the first one that has none. *)
Fixpoint priced (catalog : Catalog) (items : list string) : string + list Z :=
  match items with
  | [] => inr []
  | item :: rest =>
      match Prices catalog !! item with
      | None => inl item
      | Some amount =>
          match priced catalog rest with
          | inl missing => inl missing
          | inr amounts => inr (amount :: amounts)
          end
      end
  end.

Section Checkout.
  Context {V World Ctx Attr FS Logger : Type} `{ContextOps World Ctx}.
  Context `{Heap World identifiers} `{Heap World bool} `{Heap World (doState V)}.
  Context `{Erased V Catalog} `{Erased V CheckoutError} `{Erased V Customer} `{Erased V Basket}.
  Context `{Erased V Quote} `{Erased V Z} `{Erased V (list Z)}.
  Context (sprint : V -> string) (error_value : error -> V) (unsupported : error).
  Context (zero_effect nil_dereference : Panic V) (stack : string) (identifiers_cell : nat).
  (** [slog.String], and the lines of the calls that record where they are. *)
  Context (slog_String : string -> string -> Attr) (fail_line program_line flatmap_line : string).
  #[local] Abbreviation State := (@State V World Ctx Attr FS Logger).
  #[local] Abbreviation call := (call V World).
  #[local] Abbreviation body := (body V World).
  #[local] Abbreviation workflowEffect := (@Effect V World Ctx State Catalog CheckoutError).
  #[local] Abbreviation Await := (Await error_value unsupported zero_effect nil_dereference stack).
  #[local] Abbreviation runs := (runs error_value unsupported zero_effect).
  #[local] Abbreviation named := (WithNameEffect zero_effect).
  #[local] Abbreviation spanned := (WithSpanEffect sprint zero_effect nil_dereference identifiers_cell).
  #[local] Abbreviation operations := (@For Catalog CheckoutError).

Definition loadCustomer (customerID : string) : workflowEffect Customer :=
  named (Operations_From operations (fun _ catalog => call_ret
    match Customers catalog !! customerID with
    | None => ExitFailureOf (unknown_customer customerID)
    | Some customer => ExitSuccessOf customer
    end)) "load-customer".

Definition loadBasket (customer : Customer) (items : list string) : workflowEffect Basket :=
  match items with
  | [] => Operations_Fail operations fail_line (empty_basket customer)
  | _ => named (Operations_Succeed operations (MkBasket items)) "load-basket"
  end.

Definition lineTotal (item : string) : workflowEffect Z :=
  Operations_From operations (fun _ catalog => call_ret
    match Prices catalog !! item with
    | None => ExitFailureOf (no_price item)
    | Some amount => ExitSuccessOf amount
    end).

Definition price (customer : Customer) (basket : Basket) : workflowEffect Quote :=
  named (Map zero_effect (ForEach zero_effect (Items basket) (fun item => call_ret (lineTotal item)))
           (fun lines => call_ret (quoteFor customer lines))) "price".

Definition Program (customerID : string) (items : list string) : workflowEffect Quote :=
  spanned (named
    (Gen error_value nil_dereference stack (fun do =>
       let* customer := Await do (loadCustomer customerID) in
       let* basket := Await do (loadBasket customer items) in
       Await do (price customer basket))) "checkout")
    program_line "checkout" [slog_String "customer" customerID].

(** * The same workflow as a chain ([flatmap.go]) *)
Definition FlatMapProgram (customerID : string) (items : list string) : workflowEffect Quote :=
  spanned (named
    (SuspendEffect zero_effect (call_ret
       (FlatMap zero_effect (loadCustomer customerID) (fun customer => call_ret
         (FlatMap zero_effect (loadBasket customer items) (fun basket => call_ret
           (price customer basket))))))) "checkout")
    flatmap_line "checkout" [slog_String "customer" customerID].

Definition Styles : gmap string (string -> list string -> workflowEffect Quote) :=
  {[ "direct" := Program; "flatmap" := FlatMapProgram ]}.

(** ** What the workflow is meant to do *)

(** A failure built by [Fail] records its line and the operation it ran in. *)
Definition checkout_outcome (catalog : Catalog) (customerID : string) (items : list string) : Exit V :=
  match Customers catalog !! customerID with
  | None => ExitFailureOf (unknown_customer customerID)
  | Some customer =>
      match items with
      | [] => ExitFailure (WithOrigin (WithOrigin (FailCauseOf (empty_basket customer))
                (MkOrigin fail_line EmptyString)) (MkOrigin EmptyString "checkout"))
      | _ =>
          match priced catalog items with
          | inl item => ExitFailureOf (no_price item)
          | inr amounts => ExitSuccessOf (quoteFor customer amounts)
          end
      end
  end.

(** ** What its steps answer *)

  #[local] Abbreviation answers := (answers error_value unsupported zero_effect).

Definition customer_answer (customerID : string) (catalog : Catalog) : Exit V :=
  match Customers catalog !! customerID with
  | None => ExitFailureOf (unknown_customer customerID)
  | Some customer => ExitSuccessOf customer
  end.

Definition basket_answer (customer : Customer) (items : list string) (st : State) : Exit V :=
  match items with
  | [] => ExitFailure (WithOrigin (WithOrigin (FailCauseOf (empty_basket customer))
            (MkOrigin fail_line EmptyString)) (MkOrigin EmptyString (state_Operation st)))
  | _ => ExitSuccessOf (MkBasket items)
  end.

Definition line_answer (catalog : Catalog) (item : string) : Exit V :=
  match Prices catalog !! item with
  | None => ExitFailureOf (no_price item)
  | Some amount => ExitSuccessOf amount
  end.

Definition price_answer (customer : Customer) (items : list string) (catalog : Catalog) : Exit V :=
  match priced catalog items with
  | inl item => ExitFailureOf (no_price item)
  | inr amounts => ExitSuccessOf (quoteFor customer amounts)
  end.

Lemma loadCustomer_answers customerID :
  answers (loadCustomer customerID) (fun _ => customer_answer customerID).
Proof. apply (answers_withState _ _ _ _ (fun _ => customer_answer customerID)), answers_From. Qed.

Lemma loadBasket_answers customer items :
  answers (loadBasket customer items) (fun st _ => basket_answer customer items st).
Proof.
  destruct items as [|item rest]; [apply answers_FailWithCause|].
  apply (answers_withState _ _ _ _ (fun _ _ => ExitSuccessOf _)), answers_SucceedWith.
Qed.

Lemma lineTotal_answers item : answers (lineTotal item) (fun _ catalog => line_answer catalog item).
Proof. apply (answers_From _ _ _ (fun catalog => line_answer catalog item)). Qed.

Lemma each_answer_priced catalog items (values : list Z) :
  each_answer (line_answer catalog <$> items) values
  = match priced catalog items with
    | inl item => ExitFailureOf (no_price item)
    | inr amounts => ExitSuccessOf (values ++ amounts)
    end.
Proof.
  revert values. induction items as [|item rest IH]; intros values; cbn; [by rewrite app_nil_r|].
  unfold line_answer at 1. destruct (Prices catalog !! item) as [amount|]; cbn; [|done].
  rewrite IH. unfold asValue. rewrite unerase_erase. destruct (priced catalog rest); [done|].
  by rewrite <- app_assoc.
Qed.

Lemma price_answers customer items :
  answers (price customer (MkBasket items)) (fun _ => price_answer customer items).
Proof.
  eapply answers_ext; [|apply answers_withState, answers_Map, answers_ForEach; intros; apply lineTotal_answers].
  intros st catalog.
  etransitivity; [exact (f_equal (fun x => answer_then x _) (each_answer_priced catalog items []))|].
  unfold price_answer.
  destruct (priced catalog items); cbn; [done|]. unfold asValue. by rewrite unerase_erase.
Qed.

(** ** Both styles answer the same *)

Definition workflow_answer (customerID : string) (items : list string) (st : State) (catalog : Catalog) : Exit V :=
  answer_then (customer_answer customerID catalog) (fun customer =>
    answer_then (basket_answer (asValue customer) items st) (fun basket =>
      price_answer (asValue customer) (Items (asValue basket)) catalog)).

Lemma customer_answer_settled customerID catalog : settled (A := Customer) (customer_answer customerID catalog).
Proof. unfold customer_answer, settled. destruct (Customers catalog !! customerID); eauto. Qed.

Lemma basket_answer_settled customer items st : settled (A := Basket) (basket_answer customer items st).
Proof. unfold settled. destruct items; cbn; eauto. Qed.

Lemma price_answer_settled customer items catalog : settled (A := Quote) (price_answer customer items catalog).
Proof. unfold price_answer, settled. destruct (priced catalog items); eauto. Qed.

Lemma workflow_answer_outcome customerID items st catalog :
  state_Operation st = "checkout" ->
  workflow_answer customerID items st catalog = checkout_outcome catalog customerID items.
Proof.
  intros Hst. unfold workflow_answer, checkout_outcome, customer_answer.
  destruct (Customers catalog !! customerID) as [customer|]; cbn; [|done].
  unfold asValue. rewrite unerase_erase. destruct items as [|item rest]; [cbn in Hst |- *; by rewrite Hst|cbn].
  by rewrite unerase_erase.
Qed.

Lemma FlatMapProgram_answers customerID items :
  answers (SuspendEffect zero_effect (call_ret
    (FlatMap zero_effect (loadCustomer customerID) (fun customer => call_ret
      (FlatMap zero_effect (loadBasket customer items) (fun basket => call_ret
        (price customer basket))))))) (workflow_answer customerID items).
Proof.
  apply answers_SuspendEffect, (answers_FlatMap _ _ _ _ (fun _ => customer_answer customerID) _
    (fun customer st catalog => answer_then (basket_answer customer items st) (fun basket =>
       price_answer customer (Items (asValue basket)) catalog))); [apply loadCustomer_answers|].
  intros customer. apply (answers_FlatMap _ _ _ _ (fun st _ => basket_answer customer items st) _
    (fun basket _ => price_answer customer (Items basket))); [apply loadBasket_answers|].
  intros [l]. apply price_answers.
Qed.

  Context (indifferent : forall c w v, alike w v ->
    ctx_Err c w = ctx_Err c v /\ ctx_Cause c w = ctx_Cause c v).
  Context `{!HeapsApart World bool (doState V)} `{!HeapsApart World (doState V) bool}.

(** The body of [Program], as a program in direct style. *)
Definition checkout_body (customerID : string) (items : list string) : direct Catalog CheckoutError Quote :=
  Perform (loadCustomer customerID) (fun customer =>
    Perform (loadBasket customer items) (fun basket => Perform (price customer basket) Return)).

Lemma checkout_body_unobtrusive customerID items :
  unobtrusive error_value unsupported zero_effect (checkout_body customerID items).
Proof.
  split; [intros i; by eapply answers_undisturbed, loadCustomer_answers|].
  intros customer. split; [intros i; by eapply answers_undisturbed, loadBasket_answers|].
  intros [l]. split; [intros i; by eapply answers_undisturbed, price_answers|]. done.
Qed.

Lemma checkout_body_sequential customerID items i w :
  sequential error_value unsupported zero_effect (checkout_body customerID items) i w
  = (checkpoint i w (workflow_answer customerID items (interp_State i) (asEnvironment (interp_Environment i))), w).
Proof.
  unfold checkout_body. destruct (ctx_Err (interp_Context i) w) eqn:Hlive.
  { cbn [sequential]. rewrite loadCustomer_answers. unfold checkpoint. by rewrite Hlive. }
  set (catalog := asEnvironment (interp_Environment i)).
  unfold checkpoint at 1; rewrite Hlive. unfold workflow_answer.
  apply (sequential_Perform _ _ _ _ _ _ (fun customer =>
    answer_then (basket_answer customer items (interp_State i)) (fun basket =>
      price_answer customer (Items (asValue basket)) catalog))); [done|apply loadCustomer_answers|apply customer_answer_settled|].
  intros customer. apply (sequential_Perform _ _ _ _ _ _ (fun basket =>
    price_answer customer (Items basket) catalog)); [done|apply loadBasket_answers|apply basket_answer_settled|].
  intros [l]. etransitivity; [apply (sequential_Perform _ _ _ _ _ (price_answer customer l catalog) (fun quote => ExitSuccessOf quote));
    [done|apply price_answers|apply price_answer_settled|done]|].
  cbn [Items]. fold catalog.
  destruct (price_answer_settled customer l catalog) as [[quote Hq]|[cause Hq]]; rewrite Hq; cbn; [|done].
  unfold asValue. by rewrite unerase_erase.
Qed.

(** The body of [Program] awaits what [checkout_body] performs. *)
Lemma runs_Gen_ext {R E A} `{Erased V R} `{Erased V A} (f g : Do (Ctx := Ctx) (St := State) R E -> body A) i w :
  (forall do w, f do w = g do w) ->
  runs (Gen error_value nil_dereference stack f) i w = runs (Gen error_value nil_dereference stack g) i w.
Proof.
  intros Hfg. unfold Gen.Gen, WithInterpreter. rewrite !runs_fromRuntime.
  destruct (ctx_Err (interp_Context i) w); [done|]. unfold call_bind, alloc, runGenBody; cbn.
  by rewrite Hfg.
Qed.

Lemma body_bind_ret {A} (m : body A) w : body_bind m body_ret w = m w.
Proof. unfold body_bind, body_ret. by destruct (m w) as [[a|p e|] w']. Qed.

Lemma Gen_answers customerID items i w v :
  alike w v ->
  let run := runs (Gen error_value nil_dereference stack (fun do =>
    let* customer := Await do (loadCustomer customerID) in
    let* basket := Await do (loadBasket customer items) in
    Await do (price customer basket))) i w in
  fst run = checkpoint i v (workflow_answer customerID items (interp_State i) (asEnvironment (interp_Environment i)))
  /\ alike (snd run) v.
Proof.
  intros Hwv. cbv zeta.
  rewrite (runs_Gen_ext _ (direct_body error_value unsupported zero_effect nil_dereference stack
    (checkout_body customerID items))).
  2:{ intros do u. cbn. unfold body_bind at 1 3. destruct (Await do _ u) as [[c|p e|] u']; [|done|done].
      unfold body_bind at 1 2. destruct (Await do (loadBasket c items) u') as [[b|p e|] u'']; [|done|done].
      by rewrite body_bind_ret. }
  destruct (ctx_Err (interp_Context i) w) as [err|] eqn:Hlive.
  - unfold Gen.Gen, WithInterpreter. rewrite runs_fromRuntime, Hlive; cbn.
    rewrite <- (checkpoint_alike indifferent i w v) by done. unfold checkpoint. by rewrite Hlive.
  - pose proof (runs_Gen error_value unsupported zero_effect nil_dereference stack indifferent
      (checkout_body customerID items) i w v (checkout_body_unobtrusive customerID items) Hlive Hwv) as Hrun.
    rewrite checkout_body_sequential in Hrun. destruct (runs _ i w) as [x w1].
    destruct Hrun as (-> & ? & _). split; [|done]. unfold typed; cbn. unfold asEnvironment at 1.
    by rewrite unerase_erase.
Qed.

(** Under its name, either style comes to the workflow's outcome. *)
Lemma named_direct_outcome customerID items i st w :
  let program := named (Gen error_value nil_dereference stack (fun do =>
    let* customer := Await do (loadCustomer customerID) in
    let* basket := Await do (loadBasket customer items) in
    Await do (price customer basket))) "checkout" in
  fst (runs program (in_state st i) w)
  = checkpoint i w (checkout_outcome (asEnvironment (interp_Environment i)) customerID items)
  /\ alike (snd (runs program (in_state st i) w)) w.
Proof.
  cbv zeta. unfold WithNameEffect. rewrite runs_withState; cbn [call_ret].
  destruct (Gen_answers customerID items (in_state (WithName st "checkout") i) w w (reflexivity w)) as [Hx Hw].
  unfold in_state in *; cbn [interp_State interp_Context interp_Environment] in *. unfold call_ret.
  rewrite Hx. split; [|exact Hw]. by rewrite workflow_answer_outcome.
Qed.

Lemma named_chain_outcome customerID items i st w :
  runs (named (SuspendEffect zero_effect (call_ret
    (FlatMap zero_effect (loadCustomer customerID) (fun customer => call_ret
      (FlatMap zero_effect (loadBasket customer items) (fun basket => call_ret
        (price customer basket))))))) "checkout") (in_state st i) w
  = (checkpoint i w (checkout_outcome (asEnvironment (interp_Environment i)) customerID items), w).
Proof.
  unfold WithNameEffect. rewrite runs_withState.
  etransitivity; [exact (FlatMapProgram_answers customerID items (in_state (WithName st "checkout") (in_state st i)) w)|].
  by rewrite workflow_answer_outcome.
Qed.

Lemma spanned_outcome (program : workflowEffect Quote) line attributes outcome i w ids :
  (forall st v, fst (runs program (in_state st i) v) = checkpoint i v outcome
                /\ alike (snd (runs program (in_state st i) v)) v) ->
  heap_get identifiers_cell w = Some ids ->
  total (clock_Now (cap_Clock (capabilities (interp_State i)))) ->
  let run := runs (spanned program line "checkout" attributes) i w in
  let opened := heap_set identifiers_cell (MkIdentifiers (wrapu64 (spans ids + 1)) (fibers ids)) w in
  ((forall v, ctx_Err (interp_Context i) v = None) -> fst run = outcome)
  /\ (HasObserver (interp_State i) = false ->
      fst run = checkpoint i opened outcome /\ alike (snd run) opened).
Proof.
  intros Hprogram Hids Hclock. cbv zeta.
  pose proof (observation_is_transparent sprint zero_effect nil_dereference identifiers_cell error_value unsupported
    program line "checkout" attributes i w ids Hclock Hids) as Hspan.
  cbn [WithSpan] in Hspan. destruct Hspan as (_ & (w1 & Hrun & Hquiet) & _). split.
  - intros Hlive. rewrite Hrun, (proj1 (Hprogram _ w1)). unfold checkpoint. by rewrite Hlive.
  - intros Hunobserved. destruct (Hquiet Hunobserved) as [-> ->]. apply Hprogram.
Qed.

(** ** Properties *)

(** C36. The styles of the workflow agree on every path. Whatever the observer does, in a
    context that stays live, each comes to the outcome the workflow is meant to have:
    the failure of an unknown customer, an empty basket or the first item without a
    price, or the quote. Unobserved, in any context, each comes to it or to the same
    interruption, and leaves the world in which one span was opened, but for the cells
    direct style keeps. *)
Theorem checkout_styles_agree style program customerID items i w ids :
  Styles !! style = Some program ->
  heap_get identifiers_cell w = Some ids ->
  total (clock_Now (cap_Clock (capabilities (interp_State i)))) ->
  let outcome := checkout_outcome (asEnvironment (interp_Environment i)) customerID items in
  let run := runs (program customerID items) i w in
  let opened := heap_set identifiers_cell (MkIdentifiers (wrapu64 (spans ids + 1)) (fibers ids)) w in
  ((forall v, ctx_Err (interp_Context i) v = None) -> fst run = outcome)
  /\ (HasObserver (interp_State i) = false ->
      fst run = checkpoint i opened outcome /\ alike (snd run) opened).
Proof.
  intros Hstyle Hids Hclock. cbv zeta. unfold Styles in Hstyle.
  apply lookup_insert_Some in Hstyle as [[<- <-]|[_ [<- <-]%lookup_singleton_Some]].
  - apply spanned_outcome; [|done|done]. intros st v. apply named_direct_outcome.
  - apply spanned_outcome; [|done|done]. intros st v. by rewrite named_chain_outcome.
Qed.

End Checkout.

(** * The catalog of the acceptance tests *)
Module Demo.

Inductive value : Type :=
| VCatalog (c : Catalog) | VError (e : CheckoutError) | VCustomer (c : Customer) | VBasket (b : Basket)
| VQuote (q : Quote) | VInt (z : Z) | VInts (l : list Z) | VText (e : error).

Definition no_catalog : Catalog := MkCatalog ∅ ∅.
Definition no_customer : Customer := MkCustomer EmptyString EmptyString 0.

#[export] Program Instance value_Catalog : Erased value Catalog := {|
  erase c := Some (VCatalog c); unerase v := match v with Some (VCatalog c) => c | _ => no_catalog end
|}.
Solve All Obligations with done.
#[export] Program Instance value_Error : Erased value CheckoutError := {|
  erase e := Some (VError e);
  unerase v := match v with Some (VError e) => e | _ => MkCheckoutError EmptyString EmptyString end
|}.
Solve All Obligations with done.
#[export] Program Instance value_Customer : Erased value Customer := {|
  erase c := Some (VCustomer c); unerase v := match v with Some (VCustomer c) => c | _ => no_customer end
|}.
Solve All Obligations with done.
#[export] Program Instance value_Basket : Erased value Basket := {|
  erase b := Some (VBasket b); unerase v := match v with Some (VBasket b) => b | _ => MkBasket [] end
|}.
Solve All Obligations with done.
#[export] Program Instance value_Quote : Erased value Quote := {|
  erase q := Some (VQuote q); unerase v := match v with Some (VQuote q) => q | _ => MkQuote EmptyString 0 0 end
|}.
Solve All Obligations with done.
#[export] Program Instance value_Z : Erased value Z := {|
  erase z := Some (VInt z); unerase v := match v with Some (VInt z) => z | _ => 0%Z end
|}.
Solve All Obligations with done.
#[export] Program Instance value_list : Erased value (list Z) := {|
  erase l := Some (VInts l); unerase v := match v with Some (VInts l) => l | _ => [] end
|}.
Solve All Obligations with done.

(** The cells of direct style and the span counter; a context that has ended or not. *)
Record world : Type := MkWorld { ids : list identifiers; valids : list bool; dos : list (doState value) }.

#[export] Program Instance world_ids : Heap world identifiers := {|
  heap_of := ids; with_heap cells w := MkWorld cells (valids w) (dos w)
|}.
Solve All Obligations with by intros [].
#[export] Program Instance world_valids : Heap world bool := {|
  heap_of := valids; with_heap cells w := MkWorld (ids w) cells (dos w)
|}.
Solve All Obligations with by intros [].
#[export] Program Instance world_dos : Heap world (doState value) := {|
  heap_of := dos; with_heap cells w := MkWorld (ids w) (valids w) cells
|}.
Solve All Obligations with by intros [].
#[export] Instance valids_apart : HeapsApart world bool (doState value). Proof. done. Qed.
#[export] Instance dos_apart : HeapsApart world (doState value) bool. Proof. done. Qed.

Definition canceled : error := MkError 8 "context canceled" [].

#[export] Program Instance ended_context : ContextOps world bool := {|
  ctx_Err ended _ := if ended then Some canceled else None;
  ctx_Cause ended _ := if ended then Some canceled else None;
  ctx_WithoutCancel _ := false
|}.
Next Obligation. by intros []. Qed.
Next Obligation. done. Qed.

Lemma ended_indifferent (c : bool) (w v : world) :
  alike w v -> ctx_Err c w = ctx_Err c v /\ ctx_Cause c w = ctx_Cause c v.
Proof. done. Qed.

Definition nil_panic : Panic value := MkPanic (VInt 1) "nil".
Definition state : @State value world bool string unit unit :=
  MkState (MkSet (MkClock (call_ret 0%Z) (fun _ _ => call_ret None)) tt tt None None None) zeroMetadata 0 0 None.

Definition catalog : Catalog := MkCatalog
  {[ "c-1" := MkCustomer "c-1" "Ada" 10; "c-2" := MkCustomer "c-2" "Grace" 0 ]}
  {[ "widget" := 250%Z; "gasket" := 125%Z ]}.

Definition interpretation : Interpretation value bool (@State value world bool string unit unit) :=
  MkInterpretation false state (erase catalog).

Definition fresh : world := MkWorld [MkIdentifiers 0 0] [] [].

Abbreviation styles := (Styles (fun _ => EmptyString) VText canceled nil_panic nil_panic "stack" 0
  (fun key _ => key) "program.go:87" "program.go:67" "flatmap.go:29").
Abbreviation run style := (fun customerID items =>
  program ← styles !! style;
  Some (fst (runs VText canceled nil_panic (program customerID items) interpretation fresh))).

Example direct_quote : run "direct" "c-1" ["widget"; "gasket"] = Some (ExitSuccessOf (MkQuote "Ada" 2 338)).
Proof. vm_compute. reflexivity. Qed.
Example chain_quote : run "flatmap" "c-1" ["widget"; "gasket"] = Some (ExitSuccessOf (MkQuote "Ada" 2 338)).
Proof. vm_compute. reflexivity. Qed.
Example unpriced_item : run "direct" "c-2" ["widget"; "flywheel"] = Some (ExitFailureOf (no_price "flywheel")).
Proof. vm_compute. reflexivity. Qed.
Lemma checkout_styles_agree_witness : exists program,
  styles !! "direct" = Some program
  /\ fst (runs VText canceled nil_panic (program "c-1" ["widget"; "gasket"]) interpretation fresh)
     = ExitSuccessOf (MkQuote "Ada" 2 338).
Proof.
  eexists. split; [reflexivity|].
  assert (total (clock_Now (cap_Clock (capabilities (interp_State interpretation))))) as Hclock
    by (intros w; by exists 0%Z, w).
  assert (heap_get (World := world) 0 fresh = Some (MkIdentifiers 0 0)) as Hids by done.
  pose proof (checkout_styles_agree (fun _ => EmptyString) VText canceled nil_panic nil_panic "stack" 0
    (fun key _ => key) "program.go:87" "program.go:67" "flatmap.go:29" ended_indifferent
    "direct" _ "c-1" ["widget"; "gasket"] interpretation fresh (MkIdentifiers 0 0) eq_refl Hids Hclock)
    as [Hlive _].
  rewrite (Hlive (fun _ => eq_refl)).
  vm_compute. reflexivity.
Defined.
End Demo.
