(* ===== verification/Configured.v ===== *)
(** The example [examples/configured]: settings described by two components that do
    not know of each other, read from several places ([settings.go], [program.go]).

    Over its own defaults the program is never told that a value is missing, and
    nothing it prints depends on the password it read. *)

From stdpp Require Import sorting.
From S2P Require Import Prelude GoStrings Outcome Cause Interpreter Algebra Effects EffectsFacts Observation.
From S2P Require Import Calls Completion Scope ConfigError ConfigSource Config ConfigFacts Time State RuntimePort.
From S2P Require Import Lifetimes Layer Capabilities Platform.

(** * What the components need ([settings.go]) *)

Record Store : Type := MkStore {
  Host : string;
  store_Port : Z;
  Password : Secret;
  Timeout : Duration;
  Limits : gmap string Z
}.

Record Mailer : Type := MkMailer { Sender : string; Relays : list string; Retries : Z }.

Record ReportSchedule : Type := MkReportSchedule { Every : Duration; Enabled : bool }.

#[export] Instance zero_Store : Zero Store :=
  MkStore EmptyString 0%Z (zero Secret) 0%Z (zero (gmap string Z)).
#[export] Instance zero_Mailer : Zero Mailer := MkMailer EmptyString [] 0%Z.
#[export] Instance zero_ReportSchedule : Zero ReportSchedule := MkReportSchedule 0%Z false.
#[export] Instance zero_relays : Zero (list string) := [].

(** The assignments of the fields. *)
Definition set_Host (store : Store) (host : string) : Store :=
  MkStore host (store_Port store) (Password store) (Timeout store) (Limits store).
Definition set_Port (store : Store) (port : Z) : Store :=
  MkStore (Host store) port (Password store) (Timeout store) (Limits store).
Definition set_Password (store : Store) (password : Secret) : Store :=
  MkStore (Host store) (store_Port store) password (Timeout store) (Limits store).
Definition set_Timeout (store : Store) (timeout : Duration) : Store :=
  MkStore (Host store) (store_Port store) (Password store) timeout (Limits store).
Definition set_Limits (store : Store) (limits : gmap string Z) : Store :=
  MkStore (Host store) (store_Port store) (Password store) (Timeout store) limits.
Definition set_Sender (mailer : Mailer) (sender : string) : Mailer :=
  MkMailer sender (Relays mailer) (Retries mailer).
Definition set_Relays (mailer : Mailer) (relays : list string) : Mailer :=
  MkMailer (Sender mailer) relays (Retries mailer).
Definition set_Retries (mailer : Mailer) (retries : Z) : Mailer :=
  MkMailer (Sender mailer) (Relays mailer) retries.

(** [time.Second]. *)
Definition Second : Duration := 1000000000%Z.

Section Settings.
  (** [time.ParseDuration] and [time.Duration]'s [String]. *)
  Context (ParseDuration : string -> Z * option error) (Duration_String : Duration -> string).

Definition StoreDescription : Config Store :=
  Nested "db" (Struct [
    Setting (WithDescription (NonEmptyText "host") "the address of the primary") set_Host;
    Setting (WithDefault (Port "port") 5432%Z) set_Port;
    Setting (WithDescription (SecretOf "password") "supplied by the deployment, never logged") set_Password;
    Setting (WithDescription
               (@WithDefault Z _ Duration_String (ConfigDuration ParseDuration "timeout") (5 * Second)%Z)
               "how long a statement may take") set_Timeout;
    Setting (WithDescription (Table "limits" (Int EmptyString))
               "one limit per operation the deployment cares about") set_Limits
  ]).

Definition MailerDescription : Config Mailer :=
  Nested "mail" (Struct [
    Setting (WithDescription (NonEmptyText "sender") "the address mail is sent from") set_Sender;
    Setting (WithDescription (Many "relays" "," (NonEmptyText EmptyString))
               "the relays to try, in order") set_Relays;
    Setting (Validate (WithDefault (Int "retries") 3%Z) "at most ten retries"
               (fun retries => (0 <=? retries)%Z && (retries <=? 10)%Z)) set_Retries
  ]).

Definition ReportScheduleDescription : Config ReportSchedule :=
  Optional (WithDescription (ConfigDuration ParseDuration "every") "how often to report, if at all")
    (fun every => MkReportSchedule every true) (fun _ => zero ReportSchedule).

Definition Defaults : Source := FromMap (list_to_map [
  ("db.host", "localhost");
  ("db.password", "development-only");
  ("mail.sender", "nobody@example.invalid");
  ("mail.relays", "localhost:25")
]%string).

(** * The program ([program.go]) *)

Record Service : Type := MkService { service_Store : Store; service_Mailer : Mailer }.

#[export] Instance zero_Service : Zero Service := MkService (zero Store) (zero Mailer).

Definition set_Store (service : Service) (store : Store) : Service :=
  MkService store (service_Mailer service).
Definition set_Mailer (service : Service) (mailer : Mailer) : Service :=
  MkService (service_Store service) mailer.

Definition Description : Config Service :=
  Struct [Setting StoreDescription set_Store; Setting MailerDescription set_Mailer].

Definition itoa (value : Z) : string := decimal value.

(** A key of the sorted names is in the map. *)
Definition limits (entries : gmap string Z) : string :=
  if bool_decide (entries = ∅) then "none configured"
  else
    let names := merge_sort string_le (map_to_list entries).*1 in
    Join (map (fun name => (name ++ "=" ++ itoa (default 0%Z (entries !! name)))%string) names) " ".

(** The lines [Describe] joins. *)
Definition described (service : Service) : string :=
  let store := service_Store service in
  let mailer := service_Mailer service in
  Join [
    ("store " ++ Host store ++ " timeout " ++ Duration_String (Timeout store))%string;
    ("password " ++ Secret_String (Password store))%string;
    ("limits " ++ limits (Limits store))%string;
    ("mail from " ++ Sender mailer ++ " via " ++ Join (Relays mailer) " then "
     ++ " retrying " ++ itoa (Retries mailer))%string
  ] newline.

Definition Requirements : option string := Document (Expects Description).

(** * Reading them as effects *)

Record Refusal : Type := MkRefusal { Because : string }.

(** [Error] of what a description read; the text of a tree no description builds is
    a panic, and stands here as the empty text. *)
Definition refused (failure : Error) : Refusal := MkRefusal (default EmptyString (Error_text failure)).

Section Program.
  Context {V World Ctx Attr FS Logger F : Type} `{ContextOps World Ctx}.
  Context `{FinalizerOps F V World Ctx} `{Heap World (Scope V F)}.
  Context `{!ScopeContexts V World Ctx F} `{!ScopeChildren V World F}.
  Context `{RuntimePort V World Ctx (@State.State V World Ctx Attr FS Logger)}.
  Context `{Erased V unit} `{Erased V (Exit V)} `{Erased V Error} `{Erased V Refusal} `{Erased V Service}.
  Context `{Erased V string} `{Erased V ReportSchedule} `{Erased V Store}.
  Context (zero_effect nil_dereference : Panic V).
  #[local] Abbreviation State := (@State V World Ctx Attr FS Logger).
  #[local] Abbreviation Effect := (@Effect V World Ctx State).
  #[local] Abbreviation Layer := (@Layer V World Ctx State).
  #[local] Abbreviation LoadConfig := (LoadConfig (V := V) (World := World) (Ctx := Ctx) (Attr := Attr) (FS := FS) (Logger := Logger)).

Definition SettingsLayer : Layer unit Refusal Service :=
  Layer_MapError zero_effect (ConfigLayer (Attr := Attr) (FS := FS) (Logger := Logger) Description) refused.

Definition Describe : Effect Service Refusal string :=
  Operations_FromEither For (fun _ service => call_ret (EitherRight (described service))).

Definition ConfiguredProgram : Effect unit Refusal string :=
  WithNameEffect zero_effect
    (ProvideLayerSame zero_effect nil_dereference Describe SettingsLayer) "configured".

Definition ReadReportSchedule (document : option Source) (plugin : string) : Effect Service Refusal ReportSchedule :=
  WithNameEffect zero_effect
    (WithConfigSourceEffect zero_effect
       (MapError zero_effect (LoadConfig ReportScheduleDescription) refused)
       (Beneath document ["plugins"; plugin])) "reporting".

Definition StoreFor (which : Config string) : Effect unit Refusal Store :=
  MapError zero_effect
    (FlatMap zero_effect (LoadConfig which)
       (fun name => call_ret (LoadConfig (Nested name StoreDescription)))) refused.
End Program.
End Settings.

(** * Which values can be missing *)
Section Missing.
  (** Where a value may be missing. *)
  Context (Q : list string -> Prop).

Definition missing_within (failure : Failure) : Prop :=
  failure_Kind failure = KindMissing -> Q (failure_Path failure).

Definition reports {A} `{Zero A} (description : Config A) (at_ : cursor) : Prop :=
  Forall missing_within (Failures (snd (reader description at_))).

Definition reports_field {S} (field : Field S) (at_ : cursor) : Prop :=
  exists r, field_read field = Some r /\ forall into, Forall missing_within (Failures (snd (r at_ into))).

Lemma missing_within_And e e' :
  Forall missing_within (Failures e) -> Forall missing_within (Failures e') ->
  Forall missing_within (Failures (And e e')).
Proof. intros. rewrite Failures_And. by apply Forall_app. Qed.

Lemma missing_Missing path : Q path -> Forall missing_within (Failures (Missing path)).
Proof. intros HQ. constructor; [|done]. by intros _. Qed.

Lemma missing_other message err path :
  Forall missing_within (Failures (Invalid message path))
  /\ Forall missing_within (Failures (Unavailable err path)).
Proof. split; (constructor; [|done]); intros [=]. Qed.

Context {A B : Type} {zA : Zero A} {zB : Zero B}.

Lemma reports_Of name type (parse : string -> A * option error) at_ :
  (forall v, Value (cursor_source at_) (cursor_path (under at_ name)) = (v, false, None) ->
     Q (cursor_path (under at_ name))) ->
  reports (Of name type parse) at_.
Proof.
  intros HQ. unfold reports. cbn [reader read Of]. rewrite under_source.
  destruct (Value _ _) as [[raw []] [err|]]; [apply (missing_other EmptyString)| |apply (missing_other EmptyString)|].
  - destruct (parse raw) as [value [err|]]; [apply (missing_other _ None)|done].
  - by apply missing_Missing, (HQ raw).
Qed.

(** A default covers a value that is not there. *)
Lemma reports_WithDefault_Of `{Formatted A} name type (parse : string -> A * option error) value at_ :
  reports (WithDefault (Of name type parse) value) at_.
Proof.
  unfold reports. cbn [reader read WithDefault Of].
  destruct (Value _ _) as [[raw []] [err|]]; cbn; [apply (missing_other EmptyString)| |apply (missing_other EmptyString)|done].
  destruct (parse raw) as [v [err|]]; cbn; [apply (missing_other _ None)|done].
Qed.

Lemma reports_expects (description : Config A) l at_ :
  reports description at_ -> reports (MkConfig (read description) l) at_.
Proof. done. Qed.

Lemma reports_Validate (description : Config A) message keep at_ :
  reports description at_ -> reports (Validate description message keep) at_.
Proof.
  unfold reports. cbn [reader read Validate MapOrFail]. intros Hd.
  destruct (reader description at_) as [value failure]. destruct (IsEmpty failure); cbn [negb]; [|done].
  destruct (keep value); cbn [negb]; [done|apply (missing_other _ None)].
Qed.

Lemma reports_Nested name (description : Config A) at_ :
  reports description (under at_ name) -> reports (Nested name description) at_.
Proof. done. Qed.

Lemma reports_Setting (description : Config B) (assign : A -> B -> A) at_ :
  reports description at_ -> reports_field (Setting description assign) at_.
Proof.
  intros Hd. eexists. split; [done|]. intros into; cbn. unfold reports in Hd.
  destruct (reader description at_) as [value failure]. by destruct (IsEmpty failure).
Qed.

Lemma reports_Struct (fields : list (Field A)) at_ :
  Forall (fun field => reports_field field at_) fields -> reports (Struct fields) at_.
Proof.
  intros Hfields. unfold reports. cbn [reader read Struct].
  assert (forall value e, Forall missing_within (Failures e) ->
    Forall missing_within (Failures (snd (foldl (struct_turn at_) (value, e) fields)))) as Hfold.
  { induction Hfields as [|field rest (r & Hr & Hf) _ IH]; intros value e He; [done|]. cbn.
    rewrite Hr. specialize (Hf value).
    destruct (r at_ value) as [value' refusal]. apply IH. by apply missing_within_And. }
  specialize (Hfold (zero A) no_error (Forall_nil_2 _)).
  destruct (foldl _ _ _) as [value failure]. by destruct (IsEmpty failure).
Qed.

(** A child of a table is read where it was listed. *)
Lemma reports_Table name (description : Config A) at_ :
  (forall child, reports description (under (under at_ name) child)) ->
  reports (H := zero_map A) (Table name description) at_.
Proof.
  intros Hd. unfold reports. cbn [reader read Table].
  destruct (Children _ _) as [children [err|]]; [apply (missing_other EmptyString)|].
  assert (forall entries e, Forall missing_within (Failures e) ->
    Forall missing_within (Failures (snd (foldl (table_turn (under at_ name) (reader description))
                                            (entries, e) children)))) as Hfold.
  { induction children as [|child rest IH]; intros entries e He; [done|]. cbn.
    specialize (Hd child). unfold reports in Hd. destruct (reader description _) as [value refusal].
    apply IH. by apply missing_within_And. }
  specialize (Hfold ∅ no_error (Forall_nil_2 _)).
  destruct (foldl _ _ _) as [entries failure]. by destruct (IsEmpty failure).
Qed.

(** A value held in one key with others is there. *)
Lemma reports_Many_Of name separator type (parse : string -> A * option error) at_ (zl : Zero (list A)) :
  (forall v, Value (cursor_source at_) (cursor_path (under at_ name)) = (v, false, None) ->
     Q (cursor_path (under at_ name))) ->
  reports (H := zl) (Many name separator (Of EmptyString type parse)) at_.
Proof.
  intros HQ. unfold reports. cbn [reader read Many]. rewrite under_source.
  destruct (Value _ _) as [[raw []] [err|]]; [apply (missing_other EmptyString)| |apply (missing_other EmptyString)|].
  2:{ by apply missing_Missing, (HQ raw). }
  set (here := under at_ name).
  assert (forall piece, Forall missing_within (Failures (snd
    (reader (Of EmptyString type parse) (MkCursor (one (TrimSpace piece)) (cursor_path here)))))) as Hread
    by (intros piece; apply reports_Of; by intros v [=]).
  revert Hread. generalize (reader (Of EmptyString type parse)) as rd. intros rd Hread.
  assert (forall pieces values e, Forall missing_within (Failures e) ->
    Forall missing_within (Failures (snd (foldl (many_turn here rd) (values, e) pieces)))) as Hfold.
  { induction pieces as [|piece rest IH]; intros values e He; [done|]. cbn.
    specialize (Hread piece). destruct (rd _) as [value refusal].
    apply IH. by apply missing_within_And. }
  specialize (Hfold (Split raw separator) [] no_error (Forall_nil_2 _)).
  destruct (foldl _ _ _) as [values failure]. by destruct (IsEmpty failure).
Qed.

End Missing.

(** * What the program promises *)
Section Promises.
  Context (ParseDuration : string -> Z * option error) (Duration_String : Duration -> string).
  #[local] Abbreviation Description := (Description ParseDuration Duration_String).
  #[local] Abbreviation described := (described Duration_String).

(** Over the defaults a value they hold is there, or could not be consulted. *)
Lemma default_present (deployment : Source) path value v :
  Value Defaults path = (value, true, None) ->
  Value (Sources [Some deployment; Some Defaults]) path <> (v, false, None).
Proof.
  intros Hd. change (Sources [Some deployment; Some Defaults]) with (fallback [deployment; Defaults]).
  cbn [Value fallback fallback_Value]. rewrite Hd.
  by destruct (Value deployment path) as [[w []] [err|]].
Qed.

Definition under_limits (path : list string) : Prop := exists rest, path = "db" :: "limits" :: rest.

(** However little a deployment supplies, over the program's own defaults it is
    never told that a setting is missing: what a failure calls missing is an entry of
    the table of limits, whose key has further keys beneath it. *)
Theorem defaults_leave_nothing_missing (deployment : Source) :
  Forall (missing_within under_limits)
    (Failures (snd (Read (Some (Sources [Some deployment; Some Defaults])) Description))).
Proof.
  set (source := Sources [Some deployment; Some Defaults]).
  assert (forall (A : Type) (zA : Zero A) names name type (parse : string -> A * option error) value,
    Value Defaults (cursor_path (under (MkCursor source names) name)) = (value, true, None) ->
    reports under_limits (Of name type parse) (MkCursor source names)) as Hof.
  { intros. apply reports_Of. intros v Hv. by apply (default_present _ _ value) in Hv. }
  apply reports_Struct. constructor; [|constructor; [|done]].
  - apply reports_Setting, reports_Nested, reports_Struct.
    repeat constructor; apply reports_Setting.
    + apply reports_expects. by eapply Hof.
    + apply reports_WithDefault_Of.
    + apply reports_expects, reports_expects. by eapply Hof.
    + apply reports_expects, reports_WithDefault_Of.
    + apply reports_expects, reports_Table. intros child. apply reports_Of. intros v _.
      unfold under_limits, under at 2. case_bool_decide; [by exists []|by exists [child]].
  - apply reports_Setting, reports_Nested, reports_Struct.
    repeat constructor; apply reports_Setting.
    + apply reports_expects. by eapply Hof.
    + apply reports_expects, reports_Many_Of. intros v Hv. by apply default_present with (value := "localhost:25") in Hv.
    + apply reports_Validate, reports_WithDefault_Of.
Qed.

(** ** Two sources that differ in the password alone *)

Definition password_path : list string := ["db"; "password"].

(** The paths the description consults besides it. *)
Definition consulted (path : list string) : Prop :=
  path ∈ [["db"; "host"]; ["db"; "port"]; ["db"; "timeout"];
          ["mail"; "sender"]; ["mail"; "relays"]; ["mail"; "retries"]]%string
  \/ under_limits path.

Definition agree_but_for_the_password (s s' : Source) : Prop :=
  (forall path, consulted path -> Value s path = Value s' path)
  /\ Children s ["db"; "limits"] = Children s' ["db"; "limits"]
  /\ (exists p p', Value s password_path = (p, true, None) /\ Value s' password_path = (p', true, None)).

Definition reads_alike {A} `{Zero A} (description : Config A) (s s' : Source) (path : list string) : Prop :=
  reader description (MkCursor s path) = reader description (MkCursor s' path).

(** The path a name is read at, beneath a path. *)
Definition step (path : list string) (name : string) : list string :=
  if bool_decide (name = EmptyString) then path else path ++ [name].

Lemma under_step source path name : under (MkCursor source path) name = MkCursor source (step path name).
Proof. unfold under, step. by case_bool_decide. Qed.

Section Alike.
  Context {A : Type} {zA : Zero A} (s s' : Source) (agree : agree_but_for_the_password s s').

Lemma alike_Of name type (parse : string -> A * option error) path :
  consulted (step path name) -> reads_alike (Of name type parse) s s' path.
Proof.
  intros Hp. unfold reads_alike. cbn [reader read Of]. rewrite !under_step; cbn [cursor_source cursor_path].
  by rewrite (proj1 agree _ Hp).
Qed.

Lemma alike_expects (d : Config A) l path :
  reads_alike d s s' path -> reads_alike (MkConfig (read d) l) s s' path.
Proof. done. Qed.

Lemma alike_WithDefault `{Formatted A} (d : Config A) v path :
  reads_alike d s s' path -> reads_alike (WithDefault d v) s s' path.
Proof. unfold reads_alike. cbn [reader read WithDefault]. by intros ->. Qed.

Lemma alike_Validate (d : Config A) message keep path :
  reads_alike d s s' path -> reads_alike (Validate d message keep) s s' path.
Proof. unfold reads_alike. cbn [reader read Validate MapOrFail]. by intros ->. Qed.

Lemma alike_Table name (d : Config A) path :
  step path name = ["db"; "limits"] ->
  (forall child, reads_alike d s s' (step (step path name) child)) ->
  reads_alike (H := zero_map A) (Table name d) s s' path.
Proof.
  intros Hname Hd. unfold reads_alike. cbn [reader read Table]. rewrite !under_step; cbn [cursor_source cursor_path].
  rewrite Hname in *. rewrite <- (proj1 (proj2 agree)). destruct (Children s _) as [children [err|]]; [done|].
  enough (forall st, foldl (table_turn (MkCursor s ["db"; "limits"]) (reader d)) st children
    = foldl (table_turn (MkCursor s' ["db"; "limits"]) (reader d)) st children) as -> by done.
  induction children as [|child rest IH]; intros [entries e]; [done|]. cbn [foldl].
  rewrite IH. f_equal. unfold table_turn. by rewrite !under_step, Hd.
Qed.

Lemma alike_Struct (fields : list (Field A)) path :
  Forall (fun field => forall x, struct_turn (MkCursor s path) x field = struct_turn (MkCursor s' path) x field) fields ->
  reads_alike (Struct fields) s s' path.
Proof.
  intros Hf. unfold reads_alike. cbn [reader read Struct].
  enough (forall x, foldl (struct_turn (MkCursor s path)) x fields
    = foldl (struct_turn (MkCursor s' path)) x fields) as -> by done.
  induction Hf as [|field rest Hfield _ IH]; intros x; [done|]. cbn [foldl]. by rewrite Hfield, IH.
Qed.

Lemma alike_Setting {B} {zB : Zero B} (d : Config B) (assign : A -> B -> A) path x :
  reads_alike d s s' path ->
  struct_turn (MkCursor s path) x (Setting d assign) = struct_turn (MkCursor s' path) x (Setting d assign).
Proof. unfold reads_alike, struct_turn. destruct x. cbn [field_read Setting]. by intros ->. Qed.

(** A list in one key is taken apart where it is, and its parts are read from it. *)
Lemma alike_Many name separator (d : Config A) path (zl : Zero (list A)) :
  consulted (step path name) -> reads_alike (H := zl) (Many name separator d) s s' path.
Proof.
  intros Hp. unfold reads_alike. cbn [reader read Many]. rewrite !under_step; cbn [cursor_source cursor_path].
  by rewrite (proj1 agree _ Hp).
Qed.
End Alike.

(** Stores alike but for the password. *)
Definition same_but_password (store store' : Store) : Prop :=
  set_Password store (zero Secret) = set_Password store' (zero Secret).

(** A turn of reading a store from either source. *)
Definition turned_alike (x y : Store * Error) : Prop :=
  snd x = snd y /\ same_but_password (fst x) (fst y).

Definition field_alike (s s' : Source) (field : Field Store) : Prop := forall x y,
  turned_alike x y ->
  turned_alike (struct_turn (MkCursor s ["db"]) x field) (struct_turn (MkCursor s' ["db"]) y field).

Lemma Setting_alike {A} {zA : Zero A} (d : Config A) (assign : Store -> A -> Store) s s' :
  reads_alike d s s' ["db"] ->
  (forall store store' a, same_but_password store store' -> same_but_password (assign store a) (assign store' a)) ->
  field_alike s s' (Setting d assign).
Proof.
  intros Hd Hassign [store e] [store' e'] [He Hstore]; cbn in He, Hstore. subst e'.
  unfold reads_alike in Hd. unfold struct_turn; cbn [field_read Setting]. rewrite <- Hd.
  destruct (reader d _) as [a failure]. destruct (IsEmpty failure); split; cbn; auto.
Qed.

Lemma password_alike s s' :
  agree_but_for_the_password s s' ->
  field_alike s s' (Setting (WithDescription (SecretOf "password") "supplied by the deployment, never logged")
                      set_Password).
Proof.
  intros (_ & _ & p & p' & Hp & Hp') [store e] [store' e'] [He Hstore]; cbn in He, Hstore. subst e'.
  assert (forall source p, Value source password_path = (p, true, None) ->
    reader (SecretOf "password") (MkCursor source ["db"]) = (MkSecret p, no_error)) as Hsecret.
  { intros source q Hv. cbn [reader read SecretOf Of]. rewrite under_step.
    change (step ["db"] "password") with password_path. cbn [cursor_source cursor_path]. by rewrite Hv. }
  apply Hsecret in Hp, Hp'. unfold struct_turn; cbn [field_read Setting].
  change (reader (WithDescription ?d ?doc)) with (reader d). rewrite Hp, Hp'; cbn. by split.
Qed.

Lemma fields_alike s s' fields x y :
  Forall (field_alike s s') fields -> turned_alike x y ->
  turned_alike (foldl (struct_turn (MkCursor s ["db"])) x fields)
    (foldl (struct_turn (MkCursor s' ["db"])) y fields).
Proof. intros Hf. revert x y. induction Hf as [|f rest Hf _ IH]; intros x y Hxy; [done|]. cbn [foldl]. auto. Qed.

Lemma store_read_alike s s' :
  agree_but_for_the_password s s' ->
  turned_alike (reader (StoreDescription ParseDuration Duration_String) (MkCursor s []))
    (reader (StoreDescription ParseDuration Duration_String) (MkCursor s' [])).
Proof.
  intros Hs. unfold StoreDescription. cbn [reader read Nested Struct]. rewrite !under_step.
  change (step [] "db") with ["db"].
  assert (forall child, consulted (step (step (step ["db"] "limits") child) EmptyString)) as Hchild.
  { intros child. right. change (step _ EmptyString) with (step ["db"; "limits"] child).
    unfold step. case_bool_decide; [by exists []|by exists [child]]. }
  assert (consulted ["db"; "host"] /\ consulted ["db"; "port"] /\ consulted ["db"; "timeout"]) as (? & ? & ?)
    by (split_and!; left; set_solver).
  match goal with |- turned_alike (let '(_, _) := foldl _ ?start ?fields in _) _ =>
    assert (turned_alike (foldl (struct_turn (MkCursor s ["db"])) start fields)
              (foldl (struct_turn (MkCursor s' ["db"])) start fields)) as Hturned end.
  { apply fields_alike; [|done].
    repeat apply Forall_cons_2; [| |by apply password_alike| | |apply Forall_nil_2];
      (apply Setting_alike; [|by intros [] [] a [=]; cbn in *; subst]).
    - by apply alike_expects, alike_Of.
    - by apply alike_WithDefault, alike_Of.
    - by apply alike_expects, alike_WithDefault, alike_Of.
    - apply alike_expects, alike_Table; [done|done|]. intros child. by apply alike_Of. }
  destruct (foldl _ _ _) as [store e], (foldl _ _ _) as [store' e'].
  destruct Hturned as [He Hstore]; cbn in He, Hstore. subst e'. by destruct (IsEmpty e).
Qed.

(** What the program says does not depend on the password it read: sources that
    differ in the password alone are read with the same failures, and the settings
    read from them are described by the same text. *)
Theorem password_never_shows (s s' : Source) :
  agree_but_for_the_password s s' ->
  let '(service, failure) := Read (Some s) Description in
  let '(service', failure') := Read (Some s') Description in
  failure = failure' /\ refused failure = refused failure' /\ described service = described service'.
Proof.
  intros Hs. pose proof (store_read_alike s s' Hs) as [He Hstore].
  assert (reads_alike MailerDescription s s' []) as Hmailer.
  { unfold reads_alike, MailerDescription. cbn [reader read Nested]. rewrite !under_step.
    assert (consulted ["mail"; "sender"] /\ consulted ["mail"; "relays"] /\ consulted ["mail"; "retries"])
      as (? & ? & ?) by (split_and!; left; set_solver).
    change (step [] "mail") with ["mail"]. apply alike_Struct.
    repeat apply Forall_cons_2; [| | |apply Forall_nil_2]; intros x; apply alike_Setting.
    - by apply alike_expects, alike_Of.
    - by apply alike_expects, alike_Many.
    - by apply alike_Validate, alike_WithDefault, alike_Of. }
  unfold Read, Configured.Description. cbn [reader read Struct foldl].
  unfold struct_turn; cbn [field_read Setting]. rewrite <- Hmailer.
  destruct (reader (StoreDescription _ _) (MkCursor s [])) as [store e],
    (reader (StoreDescription _ _) (MkCursor s' [])) as [store' e'], (reader MailerDescription _) as [mailer f].
  cbn in He, Hstore. subst e'. unfold same_but_password in Hstore.
  destruct store, store'. unfold set_Password in Hstore; cbn in Hstore. injection Hstore as -> -> -> ->.
  destruct (IsEmpty e), (IsEmpty f); cbn [negb]; destruct (IsEmpty _); done.
Qed.

(** ** The library's guarantees apply *)

Lemma Description_built : built Service _ Description.
Proof.
  apply built_Struct. intros field Hin. repeat (apply elem_of_cons in Hin as [->|Hin]); [| |by apply not_elem_of_nil in Hin];
    apply built_Setting, built_Nested, built_Struct; intros field Hin';
    repeat (apply elem_of_cons in Hin' as [->|Hin']); try (by apply not_elem_of_nil in Hin');
    apply built_Setting; repeat first
      [ apply built_Of | apply built_Secret | apply built_WithDescription | apply built_WithDefault
      | apply built_MapOrFail | apply built_Table | apply built_Many ].
Qed.

(** Every refusal can be said, and the requirements can be printed. *)
Lemma settings_can_be_told (source : option Source) :
  is_Some (Error_text (snd (Read source Description)))
  /\ is_Some (Requirements ParseDuration Duration_String).
Proof.
  split; [|apply Document_total].
  assert (wf_error (snd (Read source Description)) = true) as Hwf
    by (destruct source as [s|]; [by apply built_wf, Description_built|done]).
  destruct (error_renders_text _ Hwf) as [text ->]. eauto.
Qed.

End Promises.

(** * The demo's deployment ([examples/cmd/effectdemo/main.go]) *)
Module Demo.

(** Durations the demo does not parse. *)
Definition no_duration (_ : string) : Z * option error := (0%Z, Some (errors_New "not parsed")).
Definition nanoseconds (duration : Duration) : string := (decimal duration ++ "ns")%string.

Definition deployment : list string :=
  ["DB_HOST=primary.internal"; "DB_PASSWORD=hunter2"; "DB_LIMITS_READ=100";
   "MAIL_SENDER=service@example.com"; "MAIL_RELAYS=relay-one:25,relay-two:25"]%string.

Definition deployed (entries : list string) : option Source :=
  Some (Sources [Some (EnvironmentOf entries); Some Defaults]).

Definition told (entries : list string) : string * list Failure :=
  let '(service, failure) := Read (deployed entries) (Description no_duration nanoseconds) in
  (described nanoseconds service, Failures failure).

Example demo_settings : told deployment = (Join
  ["store primary.internal timeout 5000000000ns"; "password <redacted>"; "limits read=100";
   "mail from service@example.com via relay-one:25 then relay-two:25 retrying 3"]%string newline, []).
Proof. vm_compute. reflexivity. Qed.

(** With nothing supplied and no defaults, every value without one is reported. *)
Example unconfigured_deployment :
  map failure_Path (Failures (snd (Read (Some (EnvironmentOf [])) (Description no_duration nanoseconds))))
  = [["db"; "host"]; ["db"; "password"]; ["mail"; "sender"]; ["mail"; "relays"]]%string.
Proof. vm_compute. reflexivity. Qed.

(** A limit whose name has an underscore is, in the environment, a key beneath a
    shorter name, so the deployment is refused for a value nobody described. *)
Example limit_with_an_underscore :
  snd (told ["DB_LIMITS_READ_MAX=100"]%string)
  = [MkFailure KindMissing ["db"; "limits"; "read"]%string EmptyString None].
Proof. vm_compute. reflexivity. Qed.

(** The defaults with a password of the deployment's. *)
Definition with_password (password : string) : Source :=
  FromMap (<["db.password" := password]> (list_to_map [("db.host", "localhost"); ("db.limits.read", "100");
    ("mail.sender", "nobody@example.invalid"); ("mail.relays", "localhost:25")]))%string.

Lemma passwords_agree : agree_but_for_the_password (with_password "hunter2") (with_password "swordfish").
Proof.
  split_and!; [|vm_compute; reflexivity|by exists "hunter2"%string, "swordfish"%string].
  intros path [Hin|[rest ->]].
  - repeat (apply elem_of_cons in Hin as [->|Hin]; [reflexivity|]). by apply not_elem_of_nil in Hin.
  - cbn [Value with_password FromMap mapSource].
    by rewrite !lookup_insert_ne by (destruct rest; discriminate).
Qed.

Lemma password_never_shows_witness :
  described nanoseconds (fst (Read (Some (with_password "hunter2")) (Description no_duration nanoseconds)))
  = described nanoseconds (fst (Read (Some (with_password "swordfish")) (Description no_duration nanoseconds))).
Proof.
  pose proof (password_never_shows no_duration nanoseconds _ _ passwords_agree) as Hsame.
  destruct (Read (Some (with_password "hunter2")) _) as [service failure],
    (Read (Some (with_password "swordfish")) _) as [service' failure']. exact (proj2 (proj2 Hsame)).
Defined.
End Demo.
