(* ===== verification/Variables.v ===== *)
(** The variables closures capture: cells of one heap of erased values, typed by
    the channel types' erasures, and what a Go closure is made of.

    A closure is code and the variables it captured. Where the code returns a
    closure the model returns the captured part, a value like any other, and the
    code is a function of it. *)

From S2P Require Import Prelude Outcome Traversal Cause Interpreter Algebra Calls.

(** Values that pair two values, so that a closure may capture several things. *)
Class Pairing (V : Type) : Type := {
  v_pair : option V -> option V -> option V;
  v_fst : option V -> option V;
  v_snd : option V -> option V;
  v_fst_pair : forall a b, v_fst (v_pair a b) = a;
  v_snd_pair : forall a b, v_snd (v_pair a b) = b
}.

Section Erasures.
  Context {V : Type} `{Pairing V}.

#[export] Program Instance erased_sigT {T} {U : T -> Type} `{Erased V T}
    `{HU : forall t, Erased V (U t)} : Erased V (sigT U) := {|
  erase p := v_pair (erase (projT1 p)) (erase (projT2 p));
  unerase v := existT (unerase (v_fst v)) (unerase (v_snd v))
|}.
Next Obligation.
  intros T U HT HU [t u]; cbn. rewrite v_fst_pair, v_snd_pair. rewrite unerase_erase.
  by rewrite unerase_erase.
Qed.

#[export] Program Instance erased_prod {T U} `{Erased V T} `{Erased V U} : Erased V (T * U) := {|
  erase p := v_pair (erase (fst p)) (erase (snd p));
  unerase v := (unerase (v_fst v), unerase (v_snd v))
|}.
Next Obligation. intros T U HT HU [t u]; cbn. by rewrite v_fst_pair, v_snd_pair, !unerase_erase. Qed.

#[export] Program Instance erased_Product {T U} `{Erased V T} `{Erased V U}
    : Erased V (Product T U) := {|
  erase p := v_pair (erase (First p)) (erase (Second p));
  unerase v := ProductOf (unerase (v_fst v)) (unerase (v_snd v))
|}.
Next Obligation. intros T U HT HU [t u]; cbn. by rewrite v_fst_pair, v_snd_pair, !unerase_erase. Qed.

End Erasures.

Section Variables.
  Context {V World : Type} `{Heap World (option V)}.
  Context (nil_dereference : Panic V).
  #[local] Abbreviation call := (call V World).
  #[local] Abbreviation vars := (heap_of (option V)).

Definition new_var {T} `{Erased V T} (value : T) : call nat := alloc (erase value).
Definition read_var {T} `{Erased V T} (variable : nat) : call T :=
  let! value := load nil_dereference variable in call_ret (unerase value).
Definition write_var {T} `{Erased V T} (variable : nat) (value : T) : call unit :=
  store nil_dereference variable (erase value).

Lemma new_var_eq {T} `{Erased V T} (v : T) w :
  new_var v w = (inl (length (vars w)), with_heap (vars w ++ [erase v]) w).
Proof. done. Qed.

Lemma read_var_eq {T} `{Erased V T} l (v : T) w :
  vars w !! l = Some (erase v) -> read_var l w = (inl v, w).
Proof.
  intros Hl. unfold read_var, call_bind. rewrite (load_Some _ _ (erase v)) by done.
  unfold call_ret. by rewrite unerase_erase.
Qed.

Lemma write_var_eq {T} `{Erased V T} l (v : T) u w :
  vars w !! l = Some u -> write_var l v w = (inl tt, with_heap (<[l := erase v]> (vars w)) w).
Proof. intros Hl. by apply (store_Some _ _ _ u). Qed.

(** ** What a computation may do to variables

    [grows a b w w']: between the worlds, no variable allocated before [w] has
    changed except those with addresses from [a] to [b]. *)
Definition grows (a b : nat) (w w' : World) : Prop :=
  length (vars w) <= length (vars w')
  /\ forall l, l < length (vars w) -> ~ (a <= l < b) -> vars w' !! l = vars w !! l.

(** [same a b w w']: the variables with addresses from [a] to [b] are as they were. *)
Definition same (a b : nat) (w w' : World) : Prop :=
  length (vars w) <= length (vars w') /\ forall l, a <= l < b -> vars w' !! l = vars w !! l.

Lemma grows_refl a b w : grows a b w w.
Proof. by split. Qed.

Lemma grows_same_vars a b w w' : vars w' = vars w -> grows a b w w'.
Proof. intros He. split; [by rewrite He|]. intros. by rewrite He. Qed.

Lemma grows_trans a b w1 w2 w3 : grows a b w1 w2 -> grows a b w2 w3 -> grows a b w1 w3.
Proof.
  intros [L1 H1] [L2 H2]. split; [lia|]. intros l Hl Hn. rewrite H2 by (done || lia). by apply H1.
Qed.

Lemma grows_mono a b a' b' w w' : a' <= a -> b <= b' -> grows a b w w' -> grows a' b' w w'.
Proof. intros Ha Hb [L Hg]. split; [done|]. intros l Hl Hn. apply Hg; [done|lia]. Qed.

Lemma grows_same a b c d w w' :
  grows a b w w' -> d <= length (vars w) -> (d <= a \/ b <= c) -> same c d w w'.
Proof. intros [L Hg] Hd Hdis. split; [done|]. intros l Hl. apply Hg; lia. Qed.

Lemma grows_set a b l v w :
  a <= l < b -> grows a b w (with_heap (<[l := v]> (vars w)) w).
Proof.
  intros Hl. split; rewrite heap_of_with; [by rewrite length_insert|].
  intros l' Hl' Hn. apply list_lookup_insert_ne. lia.
Qed.

Lemma grows_new a b v w : grows a b w (with_heap (vars w ++ [v]) w).
Proof.
  split; rewrite heap_of_with; [rewrite length_app; lia|]. intros l Hl _. by apply lookup_app_l.
Qed.

Lemma same_vars a b w w' : vars w' = vars w -> same a b w w'.
Proof. intros He. split; [by rewrite He|]. intros. by rewrite He. Qed.

Lemma same_trans a b w1 w2 w3 : same a b w1 w2 -> same a b w2 w3 -> same a b w1 w3.
Proof. intros [L1 H1] [L2 H2]. split; [lia|]. intros l Hl. rewrite H2 by done. by apply H1. Qed.

Lemma same_mono a b a' b' w w' : a <= a' -> b' <= b -> same a b w w' -> same a' b' w w'.
Proof. intros Ha Hb [L Hs]. split; [done|]. intros l Hl. apply Hs. lia. Qed.

End Variables.
