(* ===== verification/Stream.v ===== *)
(** Streams: descriptions of sequences of chunks, pulled by a sink
    ([effect/stream.go], [stream_transform.go], [stream_run.go]).

    The effect that produces a stream's next step is a closure over the variables
    of one run. A stream opened yields what that closure captured, of type
    [stream_captured], and [stream_pull] is its code. *)

From S2P Require Import Prelude Outcome Traversal Cause Interpreter Algebra Effects.
From S2P Require Import Observation Calls Chunk Collections Completion Scope Time State RuntimePort.
From S2P Require Import Lifetimes Variables.

(** * Steps *)

Record Step (A : Type) : Type := MkStep { step_chunk : Chunk A; step_more : bool }.
Arguments MkStep {A} _ _.
Arguments step_chunk {A} _.
Arguments step_more {A} _.

Definition Emit {A} (chunk : Chunk A) : Step A := MkStep chunk true.
(** The zero [Step]. *)
Definition EndOfStream {A} : Step A := MkStep (MkChunk []) false.
Definition Step_Chunk {A} (step : Step A) : Chunk A * bool := (step_chunk step, step_more step).

(** [batchStep]: an empty batch is the end. *)
Definition batchStep {A} (batch : list A) : Step A :=
  match batch with
  | [] => EndOfStream
  | _ => Emit (MkChunk batch)
  end.

Section Stream.
  Context {V World Ctx St : Type} `{ContextOps World Ctx} `{StateOps St}.
  Context `{Heap World (option V)} `{Pairing V}.
  Context `{Erased V unit} `{Erased V bool} `{Erased V Z} `{Erased V nat}.
  Context (zero_effect nil_dereference : Panic V).
  #[local] Abbreviation Effect := (@Effect V World Ctx St).
  #[local] Abbreviation call := (call V World).

Record Stream (R E A : Type) : Type := MkStream {
  stream_captured : Type;
  captured_erased : Erased V stream_captured;
  stream_open : nat -> call (Effect R E stream_captured);
  stream_pull : stream_captured -> Effect R E (Step A)
}.
Arguments MkStream {R E A} _ {_} _ _.
Arguments stream_captured {R E A} _.
Arguments stream_open {R E A} _ _.
Arguments stream_pull {R E A} _ _.
#[export] Existing Instance captured_erased.

(** * Sources ([stream.go]) *)

(** [create] prepares the variables of one run, [pull] is the closure over them. *)
Definition streamFromPull {R E A K} `{Erased V K} (create : call K)
    (pull : K -> Effect R E (Step A)) : Stream R E A :=
  MkStream K (fun _ => call_ret (SuspendEffect zero_effect
                (let! captured := create in call_ret (SucceedWith captured)))) pull.

Definition StreamFromSteps {R E A K} `{Erased V K} (create : call K)
    (newStep : K -> Effect R E (Step A)) : Stream R E A := streamFromPull create newStep.

Section Sources.
  Context {R E A : Type} `{Erased V R} `{Erased V (Step A)}.

Definition EmptyStream : Stream R E A :=
  streamFromPull (call_ret tt) (fun _ => SucceedWith EndOfStream).

(** [site] is where [Fail] is called. *)
Definition StreamFail `{Erased V E} (site : string) (failure : E) : Stream R E A :=
  streamFromPull (call_ret tt) (fun _ => FailWith site failure).

Definition nextChunk `{Erased V (list (Chunk A))} (rest : nat) : Effect R E (Step A) :=
  From (fun _ _ =>
    let! chunks := read_var nil_dereference rest in
    match chunks with
    | [] => call_ret (ExitSuccessOf EndOfStream)
    | head :: tail =>
        let! _ := write_var nil_dereference rest tail in
        call_ret (ExitSuccessOf (Emit head))
    end).

Definition StreamFromChunks `{Erased V (list (Chunk A))} (chunks : list (Chunk A))
    : Stream R E A := streamFromPull (new_var chunks) nextChunk.

Definition StreamOf `{Erased V (list (Chunk A))} (values : list A) : Stream R E A :=
  StreamFromChunks [ChunkOf values].

Definition one_value `{Erased V A} (fx : Effect R E A) : Effect R E (Step A) :=
  Map zero_effect fx (fun value => call_ret (Emit (ChunkOf [value]))).

Definition StreamFromEffect `{Erased V A} (fx : Effect R E A) : Stream R E A :=
  streamFromPull (new_var false) (fun spent =>
    SuspendEffect zero_effect
      (let! already := read_var nil_dereference spent in
       if already : bool then call_ret (SucceedWith EndOfStream)
       else
         let! _ := write_var nil_dereference spent true in
         call_ret (one_value fx))).

Definition StreamRepeatEffect `{Erased V A} (fx : Effect R E A) : Stream R E A :=
  streamFromPull (call_ret tt) (fun _ => one_value fx).

(** [takeUpTo] is the queue's, and the subscription's, blocking batch operation. *)
Definition StreamFromQueue {E0} `{Erased V (list A)} (takeUpTo : Z -> Effect R E0 (list A))
    (chunkSize : Z) : Stream R E A :=
  streamFromPull (call_ret tt) (fun _ =>
    Map zero_effect (WidenError zero_effect (takeUpTo chunkSize))
      (fun batch => call_ret (batchStep batch))).

Definition StreamFromSubscription {E0} `{Erased V (list A)} (takeUpTo : Z -> Effect R E0 (list A))
    (chunkSize : Z) : Stream R E A :=
  streamFromPull (call_ret tt) (fun _ =>
    Map zero_effect (WidenError zero_effect (takeUpTo chunkSize))
      (fun batch => call_ret (batchStep batch))).
End Sources.

(** The closure of the stream read from the source also captures the source. *)
Definition StreamFromResource {R E A S} `{Erased V S} (acquire : nat -> call (Effect R E S))
    (read : S -> Stream R E A) : Stream R E A :=
  MkStream {source : S & stream_captured (read source)}
    (fun scope =>
       let! acquired := acquire scope in
       call_ret (FlatMap zero_effect acquired (fun source =>
         let! opened := stream_open (read source) scope in
         call_ret (Map zero_effect opened (fun captured => call_ret (existT source captured))))))
    (fun captured => stream_pull (read (projT1 captured)) (projT2 captured)).

(** * Transforms ([stream_transform.go]) *)

(** A stream that opens another one and rewrites its pull. *)
Definition rewritten {R E A B} (stream : Stream R E A)
    (rewrite : Effect R E (Step A) -> Effect R E (Step B)) : Stream R E B :=
  MkStream (stream_captured stream)
    (fun scope =>
       let! opened := stream_open stream scope in
       call_ret (Map zero_effect opened (fun next => call_ret next)))
    (fun next => rewrite (stream_pull stream next)).

Definition mapSteps {R E A B} `{Erased V (Step A)} `{Erased V (Step B)} (stream : Stream R E A)
    (rewrite : Step A -> call (Step B)) : Stream R E B :=
  rewritten stream (fun next => Map zero_effect next rewrite).

Definition MapStreamChunks {R E A B} `{Erased V (Step A)} `{Erased V (Step B)}
    (stream : Stream R E A) (transform : Chunk A -> call (Chunk B)) : Stream R E B :=
  mapSteps stream (fun step =>
    let '(chunk, more) := Step_Chunk step in
    if negb more then call_ret EndOfStream
    else let! chunk := transform chunk in call_ret (Emit chunk)).

Definition MapStream {R E A B} `{Erased V (Step A)} `{Erased V (Step B)} (stream : Stream R E A)
    (transform : A -> call B) : Stream R E B :=
  MapStreamChunks stream (fun chunk => MapChunk chunk transform).

Definition FilterStream {R E A} `{Erased V (Step A)} (stream : Stream R E A) (keep : A -> call bool)
    : Stream R E A := MapStreamChunks stream (fun chunk => Chunk_Filter chunk keep).

Definition MapStreamEffect {R E A B} `{Erased V R} `{Erased V (Step A)} `{Erased V (Step B)}
    `{Erased V B} `{Erased V (list B)} (stream : Stream R E A)
    (transform : A -> call (Effect R E B)) : Stream R E B :=
  rewritten stream (fun next =>
    FlatMap zero_effect next (fun step =>
      let '(chunk, more) := Step_Chunk step in
      if negb more then call_ret (SucceedWith EndOfStream)
      else call_ret (Map zero_effect (ForEach zero_effect (Chunk_Values chunk) transform)
                       (fun values => call_ret (Emit (MkChunk values)))))).

(** The chunks of a chunk, appended. *)
Definition flattenChunk {B} (chunk : Chunk (Chunk B)) : call (Chunk B) :=
  let! result := range_fold (fun result values => call_ret (result ++ Chunk_Values values))
                   (Chunk_Values chunk) [] in
  call_ret (MkChunk result).

Definition CollectStreamEffect {R E A B} `{Erased V R} `{Erased V (Step A)} `{Erased V (Step B)}
    `{Erased V (Step (Chunk B))} `{Erased V (Chunk B)} `{Erased V (list (Chunk B))}
    (stream : Stream R E A) (transform : A -> call (Effect R E (Chunk B))) : Stream R E B :=
  MapStreamChunks (MapStreamEffect stream transform) flattenChunk.

Definition MapStreamError {R E E2 A} `{Erased V E} `{Erased V E2} (stream : Stream R E A)
    (transform : E -> E2) : Stream R E2 A :=
  MkStream (stream_captured stream)
    (fun scope =>
       let! opened := stream_open stream scope in
       call_ret (Map zero_effect (MapError zero_effect opened transform)
                   (fun next => call_ret next)))
    (fun next => MapError zero_effect (stream_pull stream next) transform).

(** A stage and the variable it keeps for one run. *)
Record streamStage (A T : Type) : Type := MkStage {
  stage_initial : T;
  HasEnded : nat -> call bool;
  Rewrite : nat -> Step A -> call (Step A)
}.
Arguments MkStage {A T} _ _ _.
Arguments stage_initial {A T} _.
Arguments HasEnded {A T} _ _.
Arguments Rewrite {A T} _ _ _.

Definition withoutEnd : call bool := call_ret false.

Definition applyStage {R E A T} `{Erased V (Step A)} `{Erased V T} (stream : Stream R E A)
    (stage : streamStage A T) : Stream R E A :=
  MkStream (stream_captured stream * nat)
    (fun scope =>
       let! opened := stream_open stream scope in
       call_ret (Map zero_effect opened (fun next =>
         let! variable := new_var (stage_initial stage) in call_ret (next, variable))))
    (fun '(next, variable) =>
       SuspendEffect zero_effect
         (let! ended := HasEnded stage variable in
          if ended : bool then call_ret (SucceedWith EndOfStream)
          else call_ret (Map zero_effect (stream_pull stream next) (Rewrite stage variable)))).

Definition take_stage {A} (count : Z) : streamStage A Z :=
  MkStage count
    (fun budget => let! budgeted := read_var nil_dereference budget in call_ret (budgeted <? 1)%Z)
    (fun budget step =>
       let '(chunk, more) := Step_Chunk step in
       if negb more then call_ret EndOfStream else
       let! budgeted := read_var nil_dereference budget in
       if (budgeted <? 1)%Z then call_ret EndOfStream else
       let head := TakeFirst chunk budgeted in
       let! _ := write_var nil_dereference budget (wrap64 (budgeted - Chunk_Len head)) in
       call_ret (Emit head)).

Definition TakeStream {R E A} `{Erased V (Step A)} (stream : Stream R E A) (count : Z)
    : Stream R E A := applyStage stream (take_stage count).

Definition drop_stage {A} (count : Z) : streamStage A Z :=
  MkStage count (fun _ => withoutEnd)
    (fun budget step =>
       let '(chunk, more) := Step_Chunk step in
       if negb more then call_ret step else
       let! budgeted := read_var nil_dereference budget in
       if (budgeted <? 1)%Z then call_ret step else
       let rest := DropFirst chunk budgeted in
       let! _ := write_var nil_dereference budget
                   (wrap64 (budgeted - (Chunk_Len chunk - Chunk_Len rest))) in
       call_ret (Emit rest)).

Definition DropStream {R E A} `{Erased V (Step A)} (stream : Stream R E A) (count : Z)
    : Stream R E A := applyStage stream (drop_stage count).

Definition while_stage {A} (keep : A -> call bool) : streamStage A bool :=
  MkStage false (read_var nil_dereference)
    (fun ended step =>
       let '(chunk, more) := Step_Chunk step in
       if negb more then call_ret EndOfStream else
       let! already := read_var nil_dereference ended in
       if already : bool then call_ret EndOfStream else
       let! (prefix, rejected) := Chunk_TakeWhile chunk keep in
       let! _ := write_var nil_dereference ended (rejected : bool) in
       call_ret (Emit prefix)).

Definition TakeStreamWhile {R E A} `{Erased V (Step A)} (stream : Stream R E A)
    (keep : A -> call bool) : Stream R E A := applyStage stream (while_stage keep).

Definition concatPulls {R E A} `{Erased V (Step A)} (first second : Effect R E (Step A))
    (drained : nat) : Effect R E (Step A) :=
  SuspendEffect zero_effect
    (let! already := read_var nil_dereference drained in
     if already : bool then call_ret second
     else call_ret (FlatMap zero_effect first (fun step =>
            if snd (Step_Chunk step) then call_ret (SucceedWith step)
            else
              let! _ := write_var nil_dereference drained true in
              call_ret second))).

Definition ConcatStreams {R E A} `{Erased V (Step A)} (first second : Stream R E A)
    : Stream R E A :=
  MkStream (stream_captured first * stream_captured second * nat)
    (fun scope =>
       let! opened := stream_open first scope in
       let! opened2 := stream_open second scope in
       call_ret (Map zero_effect (Zip zero_effect opened opened2) (fun pair =>
         let! drained := new_var false in call_ret (First pair, Second pair, drained))))
    (fun '(next, next2, drained) =>
       concatPulls (stream_pull first next) (stream_pull second next2) drained).

(** * Sinks ([stream_run.go])

    The loops build the instructions of a step when the one before has produced:
    they are unrolled [fuel] times over an effect [beyond] for the rest. *)

Fixpoint foldSteps {R E A S} `{Erased V (Step A)} `{Erased V S} (fuel : nat)
    (beyond : S -> Effect R E S) (next : Effect R E (Step A)) (state : S)
    (combine : S -> A -> call S) : Effect R E S :=
  match fuel with
  | O => beyond state
  | Datatypes.S n =>
      FlatMap zero_effect next (fun step =>
        let '(chunk, more) := Step_Chunk step in
        if negb more then call_ret (SucceedWith state)
        else
          let! state := FoldChunk chunk state combine in
          call_ret (foldSteps n beyond next state combine))
  end.

Fixpoint visitSteps {R E A} `{Erased V R} `{Erased V (Step A)} `{Erased V (list unit)} (fuel : nat)
    (beyond : Effect R E unit) (next : Effect R E (Step A)) (visit : A -> call (Effect R E unit))
    : Effect R E unit :=
  match fuel with
  | O => beyond
  | Datatypes.S n =>
      FlatMap zero_effect next (fun step =>
        let '(chunk, more) := Step_Chunk step in
        if negb more then call_ret (SucceedWith tt)
        else call_ret (FlatMap zero_effect (ForEach zero_effect (Chunk_Values chunk) visit)
                         (fun _ => call_ret (visitSteps n beyond next visit))))
  end.

(** What a sink runs inside its scope: open, then loop over the pull. *)
Definition sink {R E A B} (stream : Stream R E A) (loop : Effect R E (Step A) -> Effect R E B)
    (scope : nat) : call (Effect R E B) :=
  let! opened := stream_open stream scope in
  call_ret (FlatMap zero_effect opened (fun next => call_ret (loop (stream_pull stream next)))).

Section Sinks.
  Context {F : Type} `{FinalizerOps F V World Ctx} `{Heap World (Scope V F)}.
  Context `{!ScopeContexts V World Ctx F} `{!ScopeChildren V World F} `{RuntimePort V World Ctx St}.
  Context {R E A : Type} `{Erased V R} `{Erased V (Step A)}.

Definition RunFold {S} `{Erased V S} (fuel : nat) (beyond : S -> Effect R E S)
    (stream : Stream R E A) (initial : S) (combine : S -> A -> call S) : Effect R E S :=
  Scoped zero_effect nil_dereference
    (sink stream (fun next => foldSteps fuel beyond next initial combine)).

Definition RunCollect `{Erased V (list A)} (fuel : nat) (beyond : list A -> Effect R E (list A))
    (stream : Stream R E A) : Effect R E (list A) :=
  RunFold fuel beyond stream [] (fun values value => call_ret (values ++ [value])).

Definition RunCount (fuel : nat) (beyond : Z -> Effect R E Z) (stream : Stream R E A)
    : Effect R E Z :=
  RunFold fuel beyond stream 0%Z (fun count _ => call_ret (wrap64 (count + 1))).

Definition RunDrain (fuel : nat) (beyond : unit -> Effect R E unit) (stream : Stream R E A)
    : Effect R E unit :=
  RunFold fuel beyond stream tt (fun _ _ => call_ret tt).

Definition RunForEach `{Erased V (list unit)} (fuel : nat) (beyond : Effect R E unit)
    (stream : Stream R E A) (visit : A -> call (Effect R E unit)) : Effect R E unit :=
  Scoped zero_effect nil_dereference (sink stream (fun next => visitSteps fuel beyond next visit)).

(** [offer] and [shutdown] are the queue's. *)
Definition RunIntoQueue `{Erased V (list unit)} {B E0} `{Erased V B}
    (error_value : error -> V) (unsupported : error) (fuel : nat)
    (beyond : Effect R E unit) (stream : Stream R E A) (offer : A -> Effect R E0 B)
    (shutdown : Effect R E0 unit) : Effect R E unit :=
  Ensuring error_value unsupported zero_effect
    (RunForEach fuel beyond stream (fun value =>
       call_ret (As zero_effect (WidenError zero_effect (offer value)) tt)))
    (OrDie zero_effect (E0 := E0) shutdown).

(** [publish] and [shutdown] are the hub's. *)
Definition RunIntoHub `{Erased V (list unit)} {B E0} `{Erased V B}
    (error_value : error -> V) (unsupported : error) (fuel : nat)
    (beyond : Effect R E unit) (stream : Stream R E A) (publish : A -> Effect R E0 B)
    (shutdown : Effect R E0 unit) : Effect R E unit :=
  Ensuring error_value unsupported zero_effect
    (RunForEach fuel beyond stream (fun value =>
       call_ret (As zero_effect (WidenError zero_effect (publish value)) tt)))
    (OrDie zero_effect (E0 := E0) shutdown).
End Sinks.

End Stream.

Arguments MkStream {V World Ctx St R E A} _ {_} _ _.
Arguments stream_captured {V World Ctx St R E A} _.
Arguments stream_open {V World Ctx St R E A} _ _.
Arguments stream_pull {V World Ctx St R E A} _ _.
Arguments MkStage {V World A T} _ _ _.
Arguments stage_initial {V World A T} _.
Arguments HasEnded {V World A T} _ _.
Arguments Rewrite {V World A T} _ _ _.
