(* ===== verification/StreamScripts.v ===== *)
(** The abstract specification of a stream: its script, the reply to each pull in
    turn, and what the transforms do to a script and to the values it produces. *)

From S2P Require Import Prelude Outcome Interpreter Chunk Stream.

Section Scripts.
  Context {V : Type}.

(** What one pull answers. *)
Inductive Reply (A : Type) : Type :=
| Emits (chunk : Chunk A)
| Ends
| Fails (cause : Cause V).
Arguments Emits {A} _.
Arguments Ends {A}.
Arguments Fails {A} _.

Definition Script (A : Type) : Type := nat -> Reply A.

Definition reply_values {A} (r : Reply A) : list A :=
  match r with Emits c => chunk_values c | _ => [] end.

(** The values of the first [n] replies. *)
Fixpoint values {A} (script : Script A) (n : nat) : list A :=
  match n with
  | O => []
  | S n => values script n ++ reply_values (script n)
  end.

Definition running {A} (script : Script A) (n : nat) : Prop :=
  forall p, p < n -> exists c, script p = Emits c.

(** The script ends after [n] chunks, having produced [vs]. *)
Definition finishes {A} (script : Script A) (n : nat) (vs : list A) : Prop :=
  running script n /\ script n = Ends /\ values script n = vs.

Definition chunks_script {A} (chunks : list (Chunk A)) : Script A := fun p =>
  match chunks !! p with Some c => Emits c | None => Ends end.

(** ** Stateless rewriting *)

Definition map_reply {A B} (f : Chunk A -> Chunk B) (r : Reply A) : Reply B :=
  match r with Emits c => Emits (f c) | Ends => Ends | Fails c => Fails c end.

Definition map_script {A B} (f : Chunk A -> Chunk B) (script : Script A) : Script B :=
  fun p => map_reply f (script p).

(** ** Stages *)

Definition step_of {A} (r : Reply A) : Step A :=
  match r with Emits c => Emit c | _ => EndOfStream end.

Definition reply_of {A} (step : Step A) : Reply A :=
  if step_more step then Emits (step_chunk step) else Ends.

Section Stage.
  Context {A T : Type} (ended : T -> bool) (rewrite : T -> Step A -> Step A * T).
  Context (initial : T) (script : Script A).

(** The stage's variable, and how often its source was pulled, after [p] pulls. *)
Fixpoint stage_state (p : nat) : T * nat :=
  match p with
  | O => (initial, O)
  | S p =>
      let '(t, q) := stage_state p in
      if ended t then (t, q)
      else match script q with
           | Fails _ => (t, q)
           | r => (snd (rewrite t (step_of r)), S q)
           end
  end.

Definition stage_script : Script A := fun p =>
  let '(t, q) := stage_state p in
  if ended t then Ends
  else match script q with
       | Fails cause => Fails cause
       | r => reply_of (fst (rewrite t (step_of r)))
       end.
End Stage.

Definition take_ended (budget : Z) : bool := (budget <? 1)%Z.
Definition take_rewrite {A} (budget : Z) (step : Step A) : Step A * Z :=
  if negb (step_more step) || (budget <? 1)%Z then (EndOfStream, budget)
  else let head := TakeFirst (step_chunk step) budget in
       (Emit head, wrap64 (budget - Chunk_Len head)).
Definition take_script {A} (count : Z) : Script A -> Script A :=
  stage_script take_ended take_rewrite count.

Definition drop_rewrite {A} (budget : Z) (step : Step A) : Step A * Z :=
  if negb (step_more step) || (budget <? 1)%Z then (step, budget)
  else let rest := DropFirst (step_chunk step) budget in
       (Emit rest, wrap64 (budget - (Chunk_Len (step_chunk step) - Chunk_Len rest))).
Definition drop_script {A} (count : Z) : Script A -> Script A :=
  stage_script (fun _ => false) drop_rewrite count.

Definition while_rewrite {A} (keep : A -> bool) (ended : bool) (step : Step A) : Step A * bool :=
  if negb (step_more step) || ended then (EndOfStream, ended)
  else (Emit (MkChunk (takeWhile keep (chunk_values (step_chunk step)))),
        negb (forallb keep (chunk_values (step_chunk step)))).
Definition while_script {A} (keep : A -> bool) : Script A -> Script A :=
  stage_script (fun ended => ended) (while_rewrite keep) false.

(** ** Concatenation *)
Section Concat.
  Context {A : Type} (first second : Script A).

(** Whether the first is drained, and the pulls of each, after [p] pulls. *)
Fixpoint concat_state (p : nat) : bool * nat * nat :=
  match p with
  | O => (false, O, O)
  | S p =>
      let '(drained, q1, q2) := concat_state p in
      if drained : bool then (true, q1, S q2)
      else match first q1 with
           | Ends => (true, S q1, S q2)
           | _ => (false, S q1, q2)
           end
  end.

Definition concat_script : Script A := fun p =>
  let '(drained, q1, q2) := concat_state p in
  if drained : bool then second q2
  else match first q1 with
       | Ends => second q2
       | r => r
       end.
End Concat.

(** * What scripts produce *)

Lemma running_le {A} (script : Script A) n m : running script n -> m <= n -> running script m.
Proof. intros Hr Hm p Hp. apply Hr. lia. Qed.

Lemma running_S {A} (script : Script A) n c :
  running script n -> script n = Emits c -> running script (S n).
Proof. intros Hr Hc p Hp. destruct (decide (p = n)) as [->|]; [eauto|]. apply Hr. lia. Qed.

Lemma values_le {A} (script : Script A) m n :
  m <= n -> exists us, values script n = values script m ++ us.
Proof.
  induction 1 as [|n Hmn [us IH]]; [exists []; by rewrite app_nil_r|].
  exists (us ++ reply_values (script n)). cbn [values]. by rewrite IH, app_assoc.
Qed.

Lemma values_length_le {A} (script : Script A) m n :
  m <= n -> length (values script m) <= length (values script n).
Proof. intros Hm. destruct (values_le script m n Hm) as [us ->]. rewrite length_app. lia. Qed.

Lemma finishes_det {A} (script : Script A) n m vs us :
  finishes script n vs -> finishes script m us -> n = m /\ vs = us.
Proof.
  intros (Hr & He & <-) (Hr' & He' & <-).
  assert (n = m) as ->; [|done]. destruct (Nat.lt_trichotomy n m) as [Hl|[Hl|Hl]]; [|done|].
  - destruct (Hr' n Hl) as [c Hc]. by rewrite He in Hc.
  - destruct (Hr m Hl) as [c Hc]. by rewrite He' in Hc.
Qed.

Lemma chunks_values {A} (chunks : list (Chunk A)) n :
  values (chunks_script chunks) n = concat (map chunk_values (take n chunks)).
Proof.
  induction n as [|n IH]; cbn [values]; [by rewrite take_0|]. rewrite IH. unfold chunks_script.
  destruct (chunks !! n) as [c|] eqn:Hc; cbn.
  - rewrite (take_S_r _ _ _ Hc), map_app, concat_app; cbn. by rewrite app_nil_r.
  - apply lookup_ge_None in Hc. rewrite app_nil_r, !take_ge by lia. done.
Qed.

Lemma chunks_finish {A} (chunks : list (Chunk A)) :
  finishes (chunks_script chunks) (length chunks) (concat (map chunk_values chunks)).
Proof.
  split_and!.
  - intros p Hp. apply lookup_lt_is_Some in Hp as [c Hc]. exists c. unfold chunks_script. by rewrite Hc.
  - unfold chunks_script. by rewrite lookup_ge_None_2.
  - by rewrite chunks_values, take_ge.
Qed.

Lemma map_running {A B} (f : Chunk A -> Chunk B) script n :
  running script n -> running (map_script f script) n.
Proof. intros Hr p Hp. destruct (Hr p Hp) as [c Hc]. unfold map_script. rewrite Hc. by eexists. Qed.

(** A rewriting of chunks that is a rewriting of their values. *)
Lemma map_values {A B} (f : Chunk A -> Chunk B) (g : list A -> list B) script n :
  g [] = [] -> (forall xs ys, g (xs ++ ys) = g xs ++ g ys) ->
  (forall c, chunk_values (f c) = g (chunk_values c)) ->
  values (map_script f script) n = g (values script n).
Proof.
  intros H0 Happ Hf. induction n as [|n IH]; cbn [values]; [done|]. rewrite IH, Happ.
  unfold map_script. destruct (script n); cbn; by rewrite ?Hf, ?H0.
Qed.

Lemma map_finishes {A B} (f : Chunk A -> Chunk B) (g : list A -> list B) script n vs :
  g [] = [] -> (forall xs ys, g (xs ++ ys) = g xs ++ g ys) ->
  (forall c, chunk_values (f c) = g (chunk_values c)) ->
  finishes script n vs -> finishes (map_script f script) n (g vs).
Proof.
  intros H0 Happ Hf (Hr & He & <-). split_and!; [by apply map_running| |by apply map_values].
  unfold map_script. by rewrite He.
Qed.

(** ** Stages on a running script *)

Lemma stage_state_S {A T} ended (rewrite : T -> Step A -> Step A * T) t0 script p t q c :
  stage_state ended rewrite t0 script p = (t, q) -> ended t = false -> script q = Emits c ->
  stage_state ended rewrite t0 script (S p) = (snd (rewrite t (Emit c)), S q)
  /\ stage_script ended rewrite t0 script p = reply_of (fst (rewrite t (Emit c))).
Proof. intros Hs He Hc. unfold stage_script. cbn. rewrite Hs, He, Hc. done. Qed.

Section Take.
  Context {A : Type} (count : Z) (script : Script A).
  Hypothesis count_int : (count <= int64_max)%Z.
  #[local] Abbreviation K := (Z.to_nat count).

Lemma take_state p :
  running script p -> (forall j, j < p -> length (values script j) < K) ->
  exists t, stage_state take_ended take_rewrite count script p = (t, p)
  /\ Z.to_nat t = K - length (values script p) /\ (t <= int64_max)%Z
  /\ running (take_script count script) p
  /\ values (take_script count script) p = take K (values script p).
Proof.
  induction p as [|p IH]; intros Hr Hlt.
  - exists count. cbn. rewrite take_nil. split_and!; [done|lia|done| |done]. intros p Hp. lia.
  - destruct IH as (t & Hs & Ht & Hmax & Hr' & Hv); [by eapply running_le; [exact Hr|lia]|auto|].
    destruct (Hr p ltac:(lia)) as [c Hc]. specialize (Hlt p ltac:(lia)).
    assert (1 <= t)%Z as Ht1 by lia.
    assert (take_ended t = false) as He by (unfold take_ended; apply Z.ltb_ge; lia).
    destruct (stage_state_S take_ended take_rewrite count script p t p c Hs He Hc) as [HS Hreply].
    unfold take_rewrite in HS, Hreply; cbn [step_more step_chunk Emit negb orb] in HS, Hreply.
    unfold take_ended in He. rewrite He in HS, Hreply; cbn [fst snd] in HS, Hreply.
    fold (take_script count script) in Hreply.
    assert (take_script count script p = Emits (TakeFirst c t)) as Hreply' by exact Hreply.
    pose proof (TakeFirst_values c t) as Htv.
    eexists. split; [exact HS|]. cbn [values]. rewrite Hc, Hreply', Hv; cbn [reply_values].
    rewrite Htv. unfold Chunk_Len. rewrite Htv, length_take.
    rewrite wrap64_id by (unfold is_int64, int64_min in *; lia).
    split_and!; [rewrite length_app; lia|lia|by eapply running_S|].
    rewrite (take_ge (values script p)) by lia. rewrite take_app_ge by lia. by rewrite Ht.
Qed.

(** Taking from a source that has enough: the end comes at the first pull not
    needed, and the source has been pulled just as often as it takes. *)
Lemma take_enough n :
  running script n -> K <= length (values script n) ->
  exists m, m <= n
  /\ finishes (take_script count script) m (take K (values script n))
  /\ snd (stage_state take_ended take_rewrite count script (S m)) = m
  /\ (forall j, j < m -> length (values script j) < K).
Proof.
  intros Hr HK.
  assert (exists m, m <= n /\ K <= length (values script m)
            /\ forall j, j < m -> length (values script j) < K) as (m & Hm & Hge & Hlt).
  { clear Hr. induction n as [|n IH].
    - exists 0. split_and!; [lia|done|]. intros j Hj. lia.
    - destruct (decide (K <= length (values script n))) as [Hn|Hn].
      + destruct (IH Hn) as (m & ? & ? & ?). exists m. split_and!; [lia|done|done].
      + exists (S n). split_and!; [lia|done|]. intros j Hj.
        pose proof (values_length_le script j n ltac:(lia)). lia. }
  destruct (take_state m) as (t & Hs & Ht & Hmax & Hr' & Hv);
    [by eapply running_le|done|].
  assert (take_ended t = true) as He by (unfold take_ended; apply Z.ltb_lt; lia).
  exists m. split; [done|]. split; [|split; [|done]].
  - split_and!; [done| |].
    + unfold take_script, stage_script. by rewrite Hs, He.
    + rewrite Hv. destruct (values_le script m n Hm) as [us ->].
      by rewrite take_app_le.
  - cbn [stage_state]. by rewrite Hs, He.
Qed.

Lemma take_short n vs :
  finishes script n vs -> length vs < K -> finishes (take_script count script) n (take K vs).
Proof.
  intros (Hr & He & <-) HK.
  assert (forall j, j < n -> length (values script j) < K) as Hlt.
  { intros j Hj. pose proof (values_length_le script j n ltac:(lia)). lia. }
  destruct (take_state n Hr Hlt) as (t & Hs & Ht & Hmax & Hr' & Hv).
  split_and!; [done| |done].
  unfold take_script, stage_script. rewrite Hs, He.
  destruct (take_ended t) eqn:Het; [done|]. done.
Qed.

Lemma take_finishes n vs :
  finishes script n vs -> exists m, finishes (take_script count script) m (take K vs).
Proof.
  intros Hf. destruct (decide (length vs < K)) as [Hl|Hl].
  - exists n. by apply take_short.
  - destruct Hf as (Hr & He & <-). destruct (take_enough n Hr ltac:(lia)) as (m & _ & Hm & _). eauto.
Qed.
End Take.

Lemma drop_state {A} (count : Z) (script : Script A) p :
  (count <= int64_max)%Z -> running script p ->
  exists t, stage_state (fun _ => false) drop_rewrite count script p = (t, p)
  /\ Z.to_nat t = Z.to_nat count - length (values script p) /\ (t <= int64_max)%Z
  /\ running (drop_script count script) p
  /\ values (drop_script count script) p = drop (Z.to_nat count) (values script p).
Proof.
  intros Hint. induction p as [|p IH]; intros Hr.
  - exists count. cbn. rewrite drop_nil. split_and!; [done|lia|done| |done]. intros p Hp. lia.
  - destruct IH as (t & Hs & Ht & Hmax & Hr' & Hv); [by eapply running_le; [exact Hr|lia]|].
    destruct (Hr p ltac:(lia)) as [c Hc].
    destruct (stage_state_S (fun _ => false) drop_rewrite count script p t p c Hs eq_refl Hc)
      as [HS Hreply].
    unfold drop_rewrite in HS, Hreply; cbn [step_more step_chunk Emit negb orb] in HS, Hreply.
    pose proof (DropFirst_values c t) as Hdv.
    destruct (Z.ltb_spec t 1) as [Ht1|Ht1]; cbn [fst snd] in HS, Hreply;
      (eexists; split; [exact HS|]); cbn [values]; rewrite Hc, Hv.
    + assert (drop_script count script p = Emits c) as Hrep by exact Hreply.
      rewrite Hrep. split_and!; [rewrite length_app; lia|done|by eapply running_S|].
      cbn [reply_values]. rewrite drop_app_le by lia. done.
    + assert (drop_script count script p = Emits (DropFirst c t)) as Hrep by exact Hreply.
      rewrite Hrep. cbn [reply_values]. rewrite Hdv. unfold Chunk_Len. rewrite Hdv, length_drop.
      rewrite wrap64_id by (unfold is_int64, int64_min in *; lia).
      split_and!; [rewrite length_app; lia|lia|by eapply running_S|].
      rewrite (drop_ge (values script p)) by lia. rewrite drop_app_ge by lia. by rewrite Ht.
Qed.

Lemma drop_finishes {A} (count : Z) (script : Script A) n vs :
  (count <= int64_max)%Z -> finishes script n vs ->
  finishes (drop_script count script) n (drop (Z.to_nat count) vs).
Proof.
  intros Hint (Hr & He & <-). destruct (drop_state count script n Hint Hr) as (t & Hs & _ & _ & Hr' & Hv).
  split_and!; [done| |done]. unfold drop_script, stage_script. rewrite Hs, He.
  unfold drop_rewrite; cbn. done.
Qed.

Lemma while_state {A} (keep : A -> bool) (script : Script A) p :
  running script p -> (forall j, j < p -> forallb keep (values script j) = true) ->
  stage_state (fun ended => ended) (while_rewrite keep) false script p
    = (negb (forallb keep (values script p)), p)
  /\ running (while_script keep script) p
  /\ values (while_script keep script) p = takeWhile keep (values script p).
Proof.
  induction p as [|p IH]; intros Hr Hk.
  - cbn. split_and!; [done| |done]. intros p Hp. lia.
  - destruct IH as (Hs & Hr' & Hv); [by eapply running_le; [exact Hr|lia]|auto|].
    destruct (Hr p ltac:(lia)) as [c Hc]. specialize (Hk p ltac:(lia)).
    rewrite Hk in Hs; cbn [negb] in Hs.
    destruct (stage_state_S (fun ended => ended) (while_rewrite keep) false script p false p c Hs
      eq_refl Hc) as [HS Hreply].
    cbn in HS, Hreply.
    assert (while_script keep script p = Emits (MkChunk (takeWhile keep (chunk_values c))))
      as Hrep by exact Hreply.
    cbn [values]. rewrite Hc, Hrep, Hv; cbn [reply_values chunk_values].
    rewrite forallb_app, Hk, takeWhile_app, Hk, takeWhile_forallb by done; cbn [andb].
    split_and!; [exact HS|by eapply running_S|done].
Qed.

Lemma while_finishes {A} (keep : A -> bool) (script : Script A) n vs :
  finishes script n vs -> exists m, finishes (while_script keep script) m (takeWhile keep vs).
Proof.
  intros (Hr & He & <-).
  assert ((forall j, j <= n -> forallb keep (values script j) = true)
          \/ exists m, m <= n /\ forallb keep (values script m) = false
               /\ forall j, j < m -> forallb keep (values script j) = true) as [Hall|(m & Hm & Hf & Hlt)].
  { clear. induction n as [|n [IH|(m & ? & ? & ?)]].
    - left. intros j Hj. by replace j with 0 by lia.
    - destruct (forallb keep (values script (S n))) eqn:E.
      + left. intros j Hj. destruct (decide (j = S n)) as [->|]; [done|]. apply IH. lia.
      + right. exists (S n). split_and!; [lia|done|]. intros j Hj. apply IH. lia.
    - right. exists m. split_and!; [lia|done|done]. }
  - exists n. destruct (while_state keep script n Hr) as (Hs & Hr' & Hv); [intros; apply Hall; lia|].
    split_and!; [done| |done]. unfold while_script, stage_script.
    rewrite Hs, (Hall n) by lia; cbn. by rewrite He.
  - exists m. destruct (while_state keep script m) as (Hs & Hr' & Hv); [by eapply running_le|done|].
    split_and!; [done| |].
    + unfold while_script, stage_script. by rewrite Hs, Hf.
    + rewrite Hv. destruct (values_le script m n Hm) as [us ->].
      by rewrite takeWhile_app, Hf.
Qed.

(** ** Concatenation *)

Lemma concat_first {A} (first second : Script A) p :
  running first p ->
  concat_state first p = (false, p, 0) /\ running (concat_script first second) p
  /\ values (concat_script first second) p = values first p.
Proof.
  induction p as [|p IH]; intros Hr; [cbn; split_and!; try done; intros q Hq; lia|].
  destruct IH as (Hs & Hr' & Hv); [by eapply running_le; [exact Hr|lia]|].
  destruct (Hr p ltac:(lia)) as [c Hc].
  assert (concat_script first second p = Emits c) as Hp
    by (unfold concat_script; by rewrite Hs, Hc).
  cbn [values concat_state]. rewrite Hs, Hc, Hv, Hp. split_and!; [done|by eapply running_S|done].
Qed.

Lemma concat_second {A} (first second : Script A) n p :
  running first n -> first n = Ends -> running second p ->
  concat_state first (n + p) = (if p =? 0 then (false, n, 0) else (true, S n, p))
  /\ running (concat_script first second) (n + p)
  /\ values (concat_script first second) (n + p) = values first n ++ values second p.
Proof.
  intros Hr He. induction p as [|p IH]; intros Hr2.
  - rewrite Nat.add_0_r; cbn. rewrite app_nil_r. by apply concat_first.
  - destruct IH as (Hs & Hr' & Hv); [by eapply running_le; [exact Hr2|lia]|].
    destruct (Hr2 p ltac:(lia)) as [c Hc]. rewrite Nat.add_succ_r.
    assert (concat_script first second (n + p) = Emits c) as Hp.
    { unfold concat_script. rewrite Hs. destruct p as [|p]; cbn; [by rewrite He|done]. }
    cbn [values concat_state]. rewrite Hs, Hv, Hp, Hc, app_assoc.
    split_and!; [|by eapply running_S|done].
    destruct p as [|p]; cbn; by rewrite ?He.
Qed.

Lemma concat_finishes {A} (first second : Script A) n m vs us :
  finishes first n vs -> finishes second m us ->
  finishes (concat_script first second) (n + m) (vs ++ us).
Proof.
  intros (Hr & He & <-) (Hr2 & He2 & <-).
  destruct (concat_second first second n m Hr He Hr2) as (Hs & Hr' & Hv).
  split_and!; [done| |done]. unfold concat_script. rewrite Hs.
  destruct m as [|m]; cbn; by rewrite ?He, ?He2.
Qed.

End Scripts.

Arguments Reply : clear implicits.
Arguments Script : clear implicits.
Arguments Emits {V A} _.
Arguments Ends {V A}.
Arguments Fails {V A} _.
