(* ===== verification/StreamFacts.v ===== *)
(** Every stream refines its script: pulled again and again it answers what the
    script says, and each transform does to the stream what it does to the script.

    A stream's refinement relation [P p w] - in world [w] the stream has been
    pulled [p] times - depends only on the variables the stream allocated when it
    was opened, those with addresses from [a] to [b], and a pull changes no other
    variable: that is what lets streams be composed. *)

From S2P Require Import Prelude Outcome Traversal OutcomeFacts Cause Interpreter InterpreterFacts.
From S2P Require Import Algebra Effects EffectsFacts Observation Calls Chunk Collections Variables.
From S2P Require Import Stream StreamScripts.

Section Refinement.
  Context {V World Ctx St : Type} `{ContextOps World Ctx} `{StateOps St}.
  Context `{Heap World (option V)} `{Pairing V}.
  Context `{Erased V unit} `{Erased V bool} `{Erased V Z} `{Erased V nat}.
  Context (error_value : error -> V) (unsupported : error) (zero_effect nil_dereference : Panic V).
  #[local] Abbreviation Effect := (@Effect V World Ctx St).
  #[local] Abbreviation Stream := (@Stream V World Ctx St).
  #[local] Abbreviation call := (call V World).
  #[local] Abbreviation runs := (runs error_value unsupported zero_effect).
  #[local] Abbreviation runs_call := (runs_call error_value unsupported zero_effect).
  #[local] Abbreviation vars := (heap_of (option V)).

  (** The interpretation a run happens in. [live] says its context is not done,
      and changing a variable does not change that; [opens_in] are the scopes the
      streams may be opened in. *)
  Context (i : Interpretation V Ctx St) (live : World -> Prop) (opens_in : nat -> Prop).
  Context (live_ctx : forall w, live w -> ctx_Err (interp_Context i) w = None).
  Context (live_vars : forall (cells : list (option V)) w, live w -> live (with_heap cells w)).

(** ** Computation rules in a live world *)

Lemma live_checkpoint w x : live w -> checkpoint i w x = x.
Proof using live_ctx. intros Hl. unfold checkpoint. by rewrite live_ctx. Qed.

Lemma live_SucceedWith {R E A} `{Erased V A} (a : A) w :
  live w -> runs (SucceedWith (R := R) (E := E) a) i w = (ExitSuccess (erase a), w).
Proof using live_ctx. intros Hl. by rewrite runs_SucceedWith, live_checkpoint. Qed.

Lemma runs_Map_success {R E A B} `{Erased V A} `{Erased V B} (fx : Effect R E A) (f : A -> call B)
    (a : A) (b : B) w w1 w2 :
  runs fx i w = (ExitSuccess (erase a), w1) -> f a w1 = (inl b, w2) ->
  runs (Map zero_effect fx f) i w = (ExitSuccess (erase b), w2).
Proof.
  intros Hfx Hf. rewrite runs_Map, Hfx; cbn. unfold asValue. by rewrite unerase_erase, Hf.
Qed.

Lemma runs_FlatMap_success {R E A B} `{Erased V A} (fx : Effect R E A)
    (f : A -> call (Effect R E B)) (a : A) w w1 :
  runs fx i w = (ExitSuccess (erase a), w1) ->
  runs (FlatMap zero_effect fx f) i w = runs_call (f a) i w1.
Proof.
  intros Hfx. rewrite runs_FlatMap, Hfx; cbn. unfold asValue. by rewrite unerase_erase.
Qed.

(** * Refinement *)

Definition reply_exit {A} `{Erased V (Step A)} (r : Reply V A) : Exit V :=
  match r with
  | Emits c => ExitSuccess (erase (Emit c))
  | Ends => ExitSuccess (erase (EndOfStream (A := A)))
  | Fails cause => ExitFailure cause
  end.

Definition failing {A} (r : Reply V A) : Prop := match r with Fails _ => True | _ => False end.

#[local] Instance failing_dec {A} (r : Reply V A) : Decision (failing r).
Proof. destruct r; cbn; [right|right|left]; tauto. Defined.

Record follows {R E A} `{Erased V (Step A)} (a b : nat) (next : Effect R E (Step A))
    (script : Script V A) (P : nat -> World -> Prop) : Prop := {
  follows_live : forall p w, P p w -> live w /\ b <= length (vars w);
  follows_pull : forall p w, P p w ->
    exists w', runs next i w = (reply_exit (script p), w') /\ grows a b w w' /\ live w'
      /\ (~ failing (script p) -> P (S p) w');
  follows_same : forall p w w', P p w -> live w' -> same a b w w' -> P p w'
}.

(** The stream, opened in any live world and in one of the scopes, follows the script. Describing how it is
    opened does nothing yet. *)
Definition streams {R E A} `{Erased V (Step A)} (s : Stream R E A) (script : Script V A) : Prop :=
  forall scope, opens_in scope -> exists opened, (forall w, stream_open s scope w = (inl opened, w)) /\
  forall w, live w ->
  exists k w' P,
    runs opened i w = (ExitSuccess (erase k), w')
    /\ live w' /\ grows 0 0 w w'
    /\ follows (length (vars w)) (length (vars w')) (stream_pull s k) script P
    /\ P 0 w'.

(** ** Sources *)

Lemma streams_FromPull {R E A K} `{Erased V (Step A)} `{Erased V K} (create : call K)
    (pull : K -> Effect R E (Step A)) script :
  (forall w, live w -> exists k w' P,
     create w = (inl k, w') /\ live w' /\ grows 0 0 w w'
     /\ follows (length (vars w)) (length (vars w')) (pull k) script P /\ P 0 w') ->
  streams (streamFromPull zero_effect create pull) script.
Proof using live_ctx.
  intros Hc scope _. eexists. split; [intros w; reflexivity|]. intros w Hl.
  destruct (Hc w Hl) as (k & w' & P & Hcr & Hl' & Hg & Hf & HP).
  exists k, w', P. split_and!; try done. rewrite runs_SuspendEffect.
  unfold EffectsFacts.runs_call, call_bind. rewrite Hcr. by apply live_SucceedWith.
Qed.

(** A pull without variables. *)
Lemma streams_stateless {R E A} `{Erased V (Step A)} (pull : Effect R E (Step A)) (r : Reply V A) :
  (forall w, live w -> exists w', runs pull i w = (reply_exit r, w') /\ live w' /\ vars w' = vars w) ->
  streams (streamFromPull zero_effect (call_ret tt) (fun _ => pull)) (fun _ => r).
Proof using live_ctx.
  intros Hp. apply streams_FromPull. intros w Hl.
  exists tt, w, (fun _ w' => live w' /\ length (vars w) <= length (vars w')).
  split_and!; [done|done|apply grows_refl| |done|done]. split.
  - intros p w' [? ?]. split; [done|lia].
  - intros p w1 [Hl1 Hle]. destruct (Hp w1 Hl1) as (w2 & Hr & Hl2 & He).
    exists w2. split_and!; [done|by apply grows_same_vars|done|]. rewrite He. done.
  - intros p w1 w2 [_ Hle] Hl2 [Hle2 _]. split; [done|lia].
Qed.

Lemma streams_Repeat {R E A} `{Erased V (Step A)} `{Erased V A} (fx : Effect R E A) (a : A) :
  (forall w, live w -> exists w', runs fx i w = (ExitSuccess (erase a), w')
     /\ live w' /\ vars w' = vars w) ->
  streams (StreamRepeatEffect zero_effect fx) (fun _ => Emits (MkChunk [a])).
Proof using live_ctx.
  intros Hfx. apply streams_stateless. intros w Hl. destruct (Hfx w Hl) as (w' & Hr & ? & ?).
  exists w'. split_and!; [|done|done]. by apply (runs_Map_success _ _ a _ _ w').
Qed.

Lemma streams_Fail {R E A} `{Erased V (Step A)} `{Erased V E} site (failure : E) :
  streams (StreamFail (R := R) (A := A) zero_effect site failure)
    (fun _ => Fails (WithOrigin (WithOrigin (FailCauseOf failure) (MkOrigin site EmptyString)) (here i))).
Proof using live_ctx.
  apply streams_stateless. intros w Hl. exists w. split_and!; [|done|done].
  unfold FailWith. by rewrite runs_FailWithCause, live_checkpoint.
Qed.

Lemma live_From {R E A} `{Erased V R} (eval : Ctx -> R -> call (Exit V)) x w w' :
  live w ->
  eval (interp_Context i) (asEnvironment (interp_Environment i)) w = (inl x, w') ->
  runs (From (E := E) (A := A) eval) i w = (x, w').
Proof using live_ctx. intros Hl He. rewrite runs_From, live_ctx by done. by rewrite He. Qed.

Lemma streams_FromChunks {R E A} `{Erased V R} `{Erased V (Step A)} `{Erased V (list (Chunk A))}
    (chunks : list (Chunk A)) :
  streams (StreamFromChunks (R := R) (E := E) zero_effect nil_dereference chunks)
    (chunks_script chunks).
Proof using live_ctx live_vars.
  apply streams_FromPull. intros w Hl. set (l := length (vars w)).
  exists l, (with_heap (vars w ++ [erase chunks]) w),
    (fun p w => live w /\ vars w !! l = Some (erase (drop p chunks))).
  split; [apply new_var_eq|]. split; [auto|]. split; [apply grows_new|].
  rewrite heap_of_with, length_app; cbn [length].
  split; [split|split; [auto|]].
  - intros p w1 [Hl1 Hc]. apply lookup_lt_Some in Hc. split; [done|lia].
  - intros p w1 [Hl1 Hc]. pose proof (lookup_lt_Some _ _ _ Hc) as Hlt.
    unfold chunks_script, nextChunk. destruct (chunks !! p) as [c|] eqn:Hp; cbn [reply_exit].
    + assert (drop p chunks = c :: drop (S p) chunks) as Hd by (by rewrite (drop_S _ _ _ Hp)).
      exists (with_heap (<[l := erase (drop (S p) chunks)]> (vars w1)) w1). split_and!.
      * apply live_From; [done|]. unfold call_bind at 1. rewrite (read_var_eq _ _ _ _ Hc), Hd.
        unfold call_bind. by rewrite (write_var_eq _ _ _ _ _ Hc).
      * apply grows_set. lia.
      * auto.
      * intros _. split; [auto|]. rewrite heap_of_with. by apply list_lookup_insert_eq.
    + exists w1. apply lookup_ge_None in Hp. rewrite drop_ge in Hc by lia. split_and!.
      * apply live_From; [done|]. unfold call_bind at 1. by rewrite (read_var_eq _ _ _ _ Hc).
      * apply grows_refl.
      * done.
      * intros _. by rewrite drop_ge by lia.
  - intros p w1 w2 [_ Hc] Hl2 [_ Hs]. split; [done|]. rewrite Hs by lia. done.
  - by apply list_lookup_middle.
Qed.

Lemma streams_FromEffect {R E A} `{Erased V R} `{Erased V (Step A)} `{Erased V A}
    (fx : Effect R E A) (a : A) :
  (forall w, live w -> exists w', runs fx i w = (ExitSuccess (erase a), w')
     /\ live w' /\ vars w' = vars w) ->
  streams (StreamFromEffect zero_effect nil_dereference fx) (chunks_script [MkChunk [a]]).
Proof using live_ctx live_vars.
  intros Hfx. apply streams_FromPull. intros w Hl. set (l := length (vars w)).
  exists l, (with_heap (vars w ++ [erase false]) w),
    (fun p w => live w /\ vars w !! l = Some (erase (negb (p =? 0)))).
  split; [apply new_var_eq|]. split; [auto|]. split; [apply grows_new|].
  rewrite heap_of_with, length_app; cbn [length].
  split; [split|split; [auto|by apply list_lookup_middle]].
  - intros p w1 [Hl1 Hc]. apply lookup_lt_Some in Hc. split; [done|lia].
  - intros p w1 [Hl1 Hc]. pose proof (lookup_lt_Some _ _ _ Hc) as Hlt.
    rewrite runs_SuspendEffect. unfold EffectsFacts.runs_call, call_bind at 1.
    rewrite (read_var_eq _ _ _ _ Hc). destruct p as [|p]; cbn [Nat.eqb negb].
    + unfold call_bind. rewrite (write_var_eq _ _ true _ _ Hc).
      destruct (Hfx (with_heap (<[l := erase true]> (vars w1)) w1)) as (w2 & Hr & Hl2 & Hv); [auto|].
      exists w2. split_and!.
      * by apply (runs_Map_success _ _ a _ _ w2).
      * eapply grows_trans; [apply grows_set; split; [done|lia]|by apply grows_same_vars].
      * done.
      * intros _. split; [done|]. rewrite Hv, heap_of_with. by apply list_lookup_insert_eq.
    + exists w1. unfold call_ret. split_and!; [|apply grows_refl|done|done].
      rewrite live_SucceedWith by done. by destruct p.
  - intros p w1 w2 [_ Hc] Hl2 [_ Hs]. split; [done|]. rewrite Hs by lia. done.
Qed.

(** ** Rewriting the pull *)

Lemma streams_rewritten {R E A B} `{Erased V (Step A)} `{Erased V (Step B)} (s : Stream R E A)
    (rewrite : Effect R E (Step A) -> Effect R E (Step B)) script script' :
  streams s script ->
  (forall a b next P, follows a b next script P -> follows a b (rewrite next) script' P) ->
  streams (rewritten zero_effect s rewrite) script'.
Proof.
  intros Hs Hrw scope Hin. destruct (Hs scope Hin) as (o & Hm & Ho). eexists. split.
  { intros w. cbn [rewritten stream_open]. unfold call_bind. by rewrite Hm. }
  intros w Hl. destruct (Ho w Hl) as (k & w' & P & Hr & Hl' & Hg & Hf & HP).
  exists k, w', P. split_and!; try done; [|by apply Hrw]. by apply (runs_Map_success _ _ k _ _ w').
Qed.

Lemma follows_Map {R E A B} `{Erased V (Step A)} `{Erased V (Step B)} a b
    (next : Effect R E (Step A)) script P (rw : Step A -> call (Step B)) (f : Chunk A -> Chunk B) :
  (forall c w, rw (Emit c) w = (inl (Emit (f c)), w)) ->
  (forall w, rw EndOfStream w = (inl EndOfStream, w)) ->
  follows a b next script P ->
  follows a b (Map zero_effect next rw) (map_script f script) P.
Proof.
  intros Hemit Hend [Hlive Hpull Hsame]. split; [done| |done].
  intros p w HP. destruct (Hpull p w HP) as (w' & Hr & Hg & Hl & HS). exists w'.
  unfold map_script. destruct (script p) as [c| |cause]; cbn [map_reply reply_exit failing] in *.
  - split_and!; try done. by apply (runs_Map_success _ _ (Emit c) _ _ w').
  - split_and!; try done. by apply (runs_Map_success _ _ EndOfStream _ _ w').
  - split_and!; try done. rewrite runs_Map, Hr. done.
Qed.

Lemma streams_MapChunks {R E A B} `{Erased V (Step A)} `{Erased V (Step B)} (s : Stream R E A)
    (transform : Chunk A -> call (Chunk B)) (f : Chunk A -> Chunk B) script :
  (forall c w, transform c w = (inl (f c), w)) ->
  streams s script -> streams (MapStreamChunks zero_effect s transform) (map_script f script).
Proof.
  intros Ht Hs. apply (streams_rewritten _ _ script); [done|]. intros a b next P.
  apply follows_Map; [|done]. intros c w; cbn. unfold call_bind. by rewrite Ht.
Qed.

(** ** Stages *)

Record stage_spec {A T} `{Erased V T} (stage : @streamStage V World A T) (ended : T -> bool)
    (rewrite : T -> Step A -> Step A * T) : Prop := {
  stage_ended : forall l t w, vars w !! l = Some (erase t) ->
    HasEnded stage l w = (inl (ended t), w);
  stage_rewrite : forall l t (r : Reply V A) w, vars w !! l = Some (erase t) -> ended t = false ->
    Rewrite stage l (step_of r) w
    = (inl (fst (rewrite t (step_of r))),
       with_heap (<[l := erase (snd (rewrite t (step_of r)))]> (vars w)) w);
  stage_well_formed : forall t (r : Reply V A),
    step_more (fst (rewrite t (step_of r))) = false -> fst (rewrite t (step_of r)) = EndOfStream
}.

Lemma reply_of_exit {A} `{Erased V (Step A)} (step : Step A) :
  (step_more step = false -> step = EndOfStream) ->
  reply_exit (reply_of step) = ExitSuccess (erase step).
Proof.
  intros Hw. unfold reply_of. destruct step as [c []]; cbn in *; [done|]. by rewrite Hw.
Qed.

(** One pull through a stage whose variable holds [t]. *)
Lemma runs_stage {R E A T} `{Erased V (Step A)} `{Erased V T} (next : Effect R E (Step A))
    (stage : @streamStage V World A T) ended rewrite a l script P q t w :
  stage_spec stage ended rewrite -> follows a l next script P -> a <= l ->
  P q w -> vars w !! l = Some (erase t) -> ended t = false ->
  exists w', runs (Map zero_effect next (Rewrite stage l)) i w
    = (match script q with
       | Fails cause => ExitFailure cause
       | r => reply_exit (reply_of (fst (rewrite t (step_of r))))
       end, w')
  /\ grows a (S l) w w' /\ live w'
  /\ (~ failing (script q) ->
       P (S q) w' /\ vars w' !! l = Some (erase (snd (rewrite t (step_of (script q)))))).
Proof using live_vars.
  intros [Hend Hrw Hwf] [Hlive Hpull Hsame] Ha HP Hv Ht.
  destruct (Hlive q w HP) as [Hl Hle]. destruct (Hpull q w HP) as (w3 & Hr & Hg3 & Hl3 & HS).
  assert (vars w3 !! l = Some (erase t)) as Hv3.
  { destruct Hg3 as [_ Hg3]. rewrite Hg3; [done|by eapply lookup_lt_Some|lia]. }
  destruct (decide (failing (script q))) as [Hfail|Hok].
  { destruct (script q) as [| |cause]; try done. exists w3. rewrite runs_Map, Hr; cbn.
    split_and!; [done|by eapply grows_mono; [| |exact Hg3]; [done|lia]|done|]. intros Hn. by destruct Hn. }
  specialize (HS Hok). pose proof (Hrw l t (script q) w3 Hv3 Ht) as Hrw3.
  exists (with_heap (<[l:=erase (snd (rewrite t (step_of (script q))))]> (vars w3)) w3).
  split_and!.
  - erewrite (runs_Map_success next (Rewrite stage l) (step_of (script q)) _ w w3);
      [|by rewrite Hr; destruct (script q)|exact Hrw3].
    rewrite <- reply_of_exit by apply Hwf. by destruct (script q).
  - eapply grows_trans; [eapply grows_mono; [| |exact Hg3]; [done|lia]|]. apply grows_set. lia.
  - auto.
  - intros _. split.
    + eapply Hsame; [exact HS|auto|]. eapply (grows_same l (S l)); [apply grows_set; lia| |left; lia].
      by destruct (Hlive (S q) w3 HS).
    + rewrite heap_of_with. apply list_lookup_insert_eq. by eapply lookup_lt_Some.
Qed.

Lemma follows_stage {R E A T} `{Erased V (Step A)} `{Erased V T} (next : Effect R E (Step A))
    (stage : @streamStage V World A T) ended rewrite a l script P t0 :
  stage_spec stage ended rewrite -> follows a l next script P -> a <= l ->
  follows a (S l)
    (SuspendEffect zero_effect
       (let! ended := HasEnded stage l in
        if ended : bool then call_ret (SucceedWith EndOfStream)
        else call_ret (Map zero_effect next (Rewrite stage l))))
    (stage_script ended rewrite t0 script)
    (fun p w => let '(t, q) := stage_state ended rewrite t0 script p in
                P q w /\ vars w !! l = Some (erase t)).
Proof using live_ctx live_vars.
  intros Hspec Hf Ha. pose proof Hspec as [Hend _ _]. pose proof Hf as [Hlive _ Hsame]. split.
  - intros p w HP. destruct (stage_state _ _ _ _ p) as [t q]. destruct HP as [HP Hv].
    destruct (Hlive q w HP) as [? _]. apply lookup_lt_Some in Hv. split; [done|lia].
  - intros p w HP. unfold stage_script; cbn [stage_state].
    destruct (stage_state _ _ _ _ p) as [t q]. destruct HP as [HP Hv].
    destruct (Hlive q w HP) as [Hl _].
    rewrite runs_SuspendEffect. unfold EffectsFacts.runs_call, call_bind at 1.
    rewrite (Hend l t w Hv). unfold call_ret. destruct (ended t) eqn:Ht.
    { exists w. rewrite live_SucceedWith by done. split_and!; [done|apply grows_refl|done|done]. }
    destruct (runs_stage next stage ended rewrite a l script P q t w) as (w' & Hr & Hg & Hl' & HS);
      try done.
    exists w'. split_and!; [rewrite Hr; by destruct (script q)|done|done|].
    destruct (script q) as [c| |cause]; intros Hok; [apply HS; cbn; by intros []..|]. by destruct Hok.
  - intros p w w' HP Hl' Hs. destruct (stage_state _ _ _ _ p) as [t q]. destruct HP as [HP Hv]. split.
    + eapply Hsame; [exact HP|done|]. eapply same_mono; [| |exact Hs]; [done|lia].
    + destruct Hs as [_ Hs]. rewrite Hs by lia. done.
Qed.

Lemma streams_applyStage {R E A T} `{Erased V (Step A)} `{Erased V T} (s : Stream R E A)
    (stage : @streamStage V World A T) ended rewrite script :
  stage_spec stage ended rewrite -> streams s script ->
  streams (applyStage zero_effect s stage)
    (stage_script ended rewrite (stage_initial stage) script).
Proof using live_ctx live_vars.
  intros Hspec Hs scope Hin. destruct (Hs scope Hin) as (o & Hm & Ho). eexists. split.
  { intros w. cbn [applyStage stream_open]. unfold call_bind at 1. by rewrite Hm. }
  intros w Hl. destruct (Ho w Hl) as (k & w1 & P & Hr & Hl1 & Hg1 & Hf & HP).
  set (l := length (vars w1)). set (t0 := stage_initial stage).
  exists (k, l), (with_heap (vars w1 ++ [erase t0]) w1). eexists.
  split_and!; [|auto|eapply grows_trans; [done|apply grows_new]| |].
  - eapply runs_Map_success; [exact Hr|]. unfold call_bind. by rewrite new_var_eq.
  - rewrite heap_of_with, length_app; cbn [length applyStage stream_pull]. rewrite Nat.add_1_r.
    by eapply follows_stage; [exact Hspec|exact Hf|apply Hg1].
  - cbn [stage_state]. destruct Hf as [_ _ Hsame]. split.
    + eapply Hsame; [exact HP|auto|]. eapply (grows_same 0 0); [apply grows_new|done|]. right. lia.
    + rewrite heap_of_with. by apply list_lookup_middle.
Qed.

Lemma take_stage_spec {A} (count : Z) :
  stage_spec (take_stage (A := A) nil_dereference count) take_ended take_rewrite.
Proof.
  split.
  - intros l t w Hv. cbn. unfold call_bind. by rewrite (read_var_eq _ _ _ _ Hv).
  - intros l t r w Hv He. unfold take_ended in He. cbn.
    destruct r as [c| |cause]; cbn; unfold take_rewrite; cbn;
      try (unfold call_ret; by rewrite list_insert_id, with_heap_of).
    unfold call_bind. rewrite (read_var_eq _ _ _ _ Hv), He.
    by rewrite (write_var_eq _ _ _ _ _ Hv).
  - intros t r. unfold take_rewrite. by destruct (negb _ || _).
Qed.

Lemma drop_stage_spec {A} (count : Z) :
  stage_spec (drop_stage (A := A) nil_dereference count) (fun _ => false) drop_rewrite.
Proof.
  split.
  - done.
  - intros l t r w Hv _. cbn.
    destruct r as [c| |cause]; cbn; unfold drop_rewrite; cbn;
      try (unfold call_ret; by rewrite list_insert_id, with_heap_of).
    unfold call_bind. rewrite (read_var_eq _ _ _ _ Hv).
    destruct (t <? 1)%Z; cbn; [unfold call_ret; by rewrite list_insert_id, with_heap_of|].
    by rewrite (write_var_eq _ _ _ _ _ Hv).
  - intros t r. unfold drop_rewrite. destruct (negb _ || _) eqn:E; [|done]. by destruct r.
Qed.

Lemma while_stage_spec {A} (keep : A -> bool) :
  stage_spec (while_stage nil_dereference (pure keep)) (fun ended => ended) (while_rewrite keep).
Proof.
  split.
  - intros l t w Hv. cbn. by rewrite (read_var_eq _ _ _ _ Hv).
  - intros l t r w Hv ->. cbn.
    destruct r as [c| |cause]; cbn;
      try (unfold call_ret; by rewrite list_insert_id, with_heap_of).
    unfold call_bind. rewrite (read_var_eq _ _ _ _ Hv), Chunk_TakeWhile_pure.
    by rewrite (write_var_eq _ _ _ _ _ Hv).
  - intros t r. unfold while_rewrite. by destruct (negb _ || _).
Qed.

(** ** Effectful mapping *)

(** Effects that compute a function in a live world, leaving the variables alone. *)
Definition computes {R E A B} `{Erased V B} (tr : A -> Effect R E B) (g : A -> B) : Prop :=
  forall a w, live w -> exists w', runs (tr a) i w = (ExitSuccess (erase (g a)), w')
    /\ live w' /\ vars w' = vars w.

Lemma steps_of_pure {R E A B} (tr : A -> Effect R E B) (inputs : list A) w :
  steps_of (pure tr) inputs w = (inl (map tr inputs), w).
Proof.
  induction inputs as [|a inputs IH]; [done|]. cbn [steps_of map]. unfold pure at 1.
  rewrite call_bind_ret. unfold call_bind.
  by rewrite IH.
Qed.

Lemma each_reference_computes {R E A B} `{Erased V B} `{Erased V (list B)} (tr : A -> Effect R E B)
    (g : A -> B) (inputs : list A) acc w :
  computes tr g -> live w ->
  exists w', each_reference error_value unsupported zero_effect (map tr inputs) acc i w
      = (ExitSuccess (erase (acc ++ map g inputs)), w') /\ live w' /\ vars w' = vars w.
Proof.
  intros Htr. revert acc w. induction inputs as [|a inputs IH]; intros acc w Hl; cbn.
  - exists w. by rewrite app_nil_r.
  - destruct (Htr a w Hl) as (w1 & Hr & Hl1 & Hv1). rewrite Hr; cbn. unfold asValue.
    rewrite unerase_erase. destruct (IH (acc ++ [g a]) w1 Hl1) as (w2 & Hr2 & Hl2 & Hv2).
    exists w2. rewrite Hr2, Hv2, Hv1. by rewrite <- app_assoc.
Qed.

Lemma runs_ForEach_computes {R E A B} `{Erased V R} `{Erased V B} `{Erased V (list B)}
    (tr : A -> Effect R E B) (g : A -> B) (inputs : list A) w :
  computes tr g -> live w ->
  exists w', runs (ForEach zero_effect inputs (pure tr)) i w
      = (ExitSuccess (erase (map g inputs)), w') /\ live w' /\ vars w' = vars w.
Proof using live_ctx.
  intros Htr Hl. rewrite (runs_ForEach error_value unsupported), steps_of_pure, live_ctx by done.
  exact (each_reference_computes tr g inputs [] w Htr Hl).
Qed.

Lemma streams_MapEffect {R E A B} `{Erased V R} `{Erased V (Step A)} `{Erased V (Step B)}
    `{Erased V B} `{Erased V (list B)} (s : Stream R E A) (tr : A -> Effect R E B) (g : A -> B)
    script :
  computes tr g -> streams s script ->
  streams (MapStreamEffect zero_effect s (pure tr))
    (map_script (fun c => MkChunk (map g (chunk_values c))) script).
Proof using live_ctx.
  intros Htr Hs. apply (streams_rewritten _ _ script); [done|].
  intros a b next P [Hlive Hpull Hsame]. split; [done| |done].
  intros p w HP. destruct (Hpull p w HP) as (w1 & Hr & Hg & Hl & HS). unfold map_script.
  destruct (script p) as [c| |cause]; cbn [map_reply reply_exit failing] in *.
  - destruct (runs_ForEach_computes tr g (chunk_values c) w1 Htr Hl) as (w2 & Hr2 & Hl2 & Hv2).
    exists w2. split_and!.
    + erewrite (runs_FlatMap_success next _ (Emit c)) by exact Hr.
      cbn [Step_Chunk Emit step_chunk step_more negb]. unfold EffectsFacts.runs_call, call_ret.
      by apply (runs_Map_success _ _ (map g (chunk_values c)) _ _ w2).
    + eapply grows_trans; [exact Hg|by apply grows_same_vars].
    + done.
    + intros Hok. specialize (HS Hok). eapply Hsame; [exact HS|done|by apply same_vars].
  - exists w1. split_and!; try done. erewrite (runs_FlatMap_success next _ EndOfStream) by exact Hr.
    cbn [Step_Chunk EndOfStream step_chunk step_more negb]. unfold EffectsFacts.runs_call, call_ret. by rewrite live_SucceedWith.
  - exists w1. split_and!; try done. by rewrite runs_FlatMap, Hr.
Qed.

(** ** Failures *)

Lemma streams_MapError {R E E2 A} `{Erased V (Step A)} `{Erased V E} `{Erased V E2}
    (s : Stream R E A) (f : E -> E2) script :
  streams s script ->
  streams (MapStreamError zero_effect s f)
    (fun p => match script p with Fails c => Fails (eraseFailureTransform f c) | r => r end).
Proof.
  intros Hs scope Hin. destruct (Hs scope Hin) as (o & Hm & Ho). eexists. split.
  { intros w. cbn [MapStreamError stream_open]. unfold call_bind. by rewrite Hm. }
  intros w Hl. destruct (Ho w Hl) as (k & w' & P & Hr & Hl' & Hg & Hf & HP).
  exists k, w', P. split_and!; try done.
  - apply (runs_Map_success _ _ k _ _ w'); [|done]. by rewrite runs_MapError, Hr.
  - destruct Hf as [Hlive Hpull Hsame]. split; [done| |done].
    intros p w1 HP1. destruct (Hpull p w1 HP1) as (w2 & Hr2 & Hg2 & Hl2 & HS). exists w2.
    cbn [MapStreamError stream_pull]. rewrite runs_MapError, Hr2.
    by destruct (script p).
Qed.

(** ** Resources *)

Lemma streams_FromResource {R E A S} `{Erased V (Step A)} `{Erased V S}
    (acquire : nat -> call (Effect R E S)) (read : S -> Stream R E A) (source : S) script :
  (forall scope, opens_in scope -> exists acquired, (forall w, acquire scope w = (inl acquired, w)) /\
     forall w, live w -> exists w', runs acquired i w = (ExitSuccess (erase source), w')
       /\ live w' /\ vars w' = vars w) ->
  streams (read source) script -> streams (StreamFromResource zero_effect acquire read) script.
Proof.
  intros Hacq Hs scope Hin. destruct (Hacq scope Hin) as (acq & Hm & Ha).
  destruct (Hs scope Hin) as (o & Hmo & Ho). eexists. split.
  { intros w. cbn [StreamFromResource stream_open]. unfold call_bind at 1. by rewrite Hm. }
  intros w Hl. destruct (Ha w Hl) as (w1 & Hr & Hl1 & Hv1).
  destruct (Ho w1 Hl1) as (k & w' & P & Hro & Hl' & Hg & Hf & HP).
  exists (existT source k), w', P. split_and!; try done.
  - erewrite (runs_FlatMap_success acq _ source) by exact Hr.
    unfold EffectsFacts.runs_call, call_bind. rewrite Hmo. by eapply (runs_Map_success o _ k).
  - eapply grows_trans; [by apply grows_same_vars|exact Hg].
  - by rewrite <- Hv1.
Qed.

(** ** Concatenation *)

Lemma runs_Zip_success {R E A B} `{Erased V A} `{Erased V B} (fx : Effect R E A) (gx : Effect R E B)
    (a : A) (b : B) w w1 w2 :
  runs fx i w = (ExitSuccess (erase a), w1) -> runs gx i w1 = (ExitSuccess (erase b), w2) ->
  runs (Zip zero_effect fx gx) i w = (ExitSuccess (erase (ProductOf a b)), w2).
Proof.
  intros Hf Hg. unfold Zip. erewrite (runs_FlatMap_success fx _ a) by exact Hf.
  unfold EffectsFacts.runs_call, call_ret. by eapply (runs_Map_success gx _ b).
Qed.

Lemma follows_concat {R E A} `{Erased V (Step A)} (next1 next2 : Effect R E (Step A))
    a b l script1 script2 P1 P2 :
  follows a b next1 script1 P1 -> follows b l next2 script2 P2 -> a <= b -> b <= l ->
  follows a (S l) (concatPulls zero_effect nil_dereference next1 next2 l)
    (concat_script script1 script2)
    (fun p w => let '(drained, q1, q2) := concat_state script1 p in
       live w /\ (drained = false -> P1 q1 w) /\ P2 q2 w /\ vars w !! l = Some (erase drained)).
Proof using live_ctx live_vars.
  intros [Hlive1 Hpull1 Hsame1] [Hlive2 Hpull2 Hsame2] Hab Hbl. split.
  - intros p w HP. destruct (concat_state script1 p) as [[d q1] q2]. destruct HP as (Hl & _ & _ & Hv).
    apply lookup_lt_Some in Hv. split; [done|lia].
  - intros p w HP. unfold concat_script; cbn [concat_state].
    destruct (concat_state script1 p) as [[d q1] q2]. destruct HP as (Hl & HP1 & HP2 & Hv).
    pose proof (lookup_lt_Some _ _ _ Hv) as Hlt.
    assert (forall w1, live w1 -> vars w1 !! l = Some (erase true) -> P2 q2 w1 ->
      exists w', runs next2 i w1 = (reply_exit (script2 q2), w') /\ grows a (S l) w1 w' /\ live w'
        /\ (~ failing (script2 q2) ->
             live w' /\ (true = false -> P1 (S q1) w') /\ P2 (S q2) w'
             /\ vars w' !! l = Some (erase true))) as Hsecond.
    { intros w1 Hl1 Hv1 HP2'. destruct (Hpull2 q2 w1 HP2') as (w2 & Hr & Hg & Hl2 & HS).
      exists w2. split_and!; [done|by eapply grows_mono; [| |exact Hg]; lia|done|].
      intros Hok. split_and!; [done|done|auto|]. destruct Hg as [_ Hg].
      rewrite Hg; [done|by eapply lookup_lt_Some|lia]. }
    unfold concatPulls. rewrite runs_SuspendEffect. unfold EffectsFacts.runs_call, call_bind at 1.
    rewrite (read_var_eq _ _ _ _ Hv). unfold call_ret. destruct d.
    { destruct (Hsecond w Hl Hv HP2) as (w' & Hr & Hg & Hl' & HS). exists w'.
      split_and!; [done|done|done|]. intros Hok. destruct (HS Hok) as (? & _ & ? & ?).
      by split_and!. }
    specialize (HP1 eq_refl). destruct (Hpull1 q1 w HP1) as (w1 & Hr & Hg & Hl1 & HS).
    assert (vars w1 !! l = Some (erase false)) as Hv1.
    { destruct Hg as [_ Hg]. rewrite Hg; [done|done|lia]. }
    destruct (Hlive2 q2 w HP2) as [_ Hle2].
    assert (P2 q2 w1) as HP2'.
    { eapply Hsame2; [exact HP2|done|]. eapply grows_same; [exact Hg|done|right; done]. }
    destruct (script1 q1) as [c| |cause]; cbn [reply_exit failing] in *.
    + exists w1. erewrite (runs_FlatMap_success next1 _ (Emit c)) by exact Hr.
      cbn [Step_Chunk Emit step_more snd step_chunk]. unfold EffectsFacts.runs_call, call_ret.
      rewrite live_SucceedWith by done.
      split_and!; [done|by eapply grows_mono; [| |exact Hg]; lia|done|].
      intros Hok. split_and!; try done. intros _. by apply HS.
    + erewrite (runs_FlatMap_success next1 _ EndOfStream) by exact Hr.
      cbn [Step_Chunk EndOfStream step_more snd step_chunk]. unfold EffectsFacts.runs_call, call_bind.
      rewrite (write_var_eq _ _ true _ _ Hv1). unfold call_ret.
      set (w2 := with_heap (<[l:=erase true]> (vars w1)) w1).
      destruct (Hsecond w2) as (w' & Hr2 & Hg2 & Hl2 & HS2).
      * unfold w2. auto.
      * unfold w2. rewrite heap_of_with. apply list_lookup_insert_eq. by eapply lookup_lt_Some.
      * eapply Hsame2; [exact HP2'|unfold w2; auto|].
        eapply (grows_same l (S l)); [apply grows_set; lia| |left; lia]. by destruct (Hlive2 q2 w1 HP2').
      * exists w'. split_and!; [done| |done|].
        { eapply grows_trans; [eapply grows_mono; [| |exact Hg]; lia|].
          eapply grows_trans; [|exact Hg2]. apply grows_set. lia. }
        intros Hok. destruct (HS2 Hok) as (? & _ & ? & ?). by split_and!.
    + exists w1. rewrite runs_FlatMap, Hr; cbn.
      split_and!; [done|by eapply grows_mono; [| |exact Hg]; lia|done|]. intros Hok. by destruct Hok.
  - intros p w w' HP Hl' Hs. destruct (concat_state script1 p) as [[d q1] q2].
    destruct HP as (Hl & HP1 & HP2 & Hv). split_and!; [done| | |].
    + intros Hd. eapply Hsame1; [by apply HP1|done|]. eapply same_mono; [| |exact Hs]; lia.
    + eapply Hsame2; [done|done|]. eapply same_mono; [| |exact Hs]; lia.
    + destruct Hs as [_ Hs]. rewrite Hs by lia. done.
Qed.

Lemma streams_Concat {R E A} `{Erased V (Step A)} (s1 s2 : Stream R E A) script1 script2 :
  streams s1 script1 -> streams s2 script2 ->
  streams (ConcatStreams zero_effect nil_dereference s1 s2) (concat_script script1 script2).
Proof using live_ctx live_vars.
  intros Hs1 Hs2 scope Hin. destruct (Hs1 scope Hin) as (o1 & Hm1 & Ho1), (Hs2 scope Hin) as (o2 & Hm2 & Ho2).
  eexists. split.
  { intros w. cbn [ConcatStreams stream_open]. unfold call_bind at 1. rewrite Hm1.
    unfold call_bind at 1. by rewrite Hm2. }
  intros w Hl. destruct (Ho1 w Hl) as (k1 & w1 & P1 & Hr1 & Hl1 & Hg1 & Hf1 & HP1).
  destruct (Ho2 w1 Hl1) as (k2 & w2 & P2 & Hr2 & Hl2 & Hg2 & Hf2 & HP2).
  set (l := length (vars w2)).
  exists (k1, k2, l), (with_heap (vars w2 ++ [erase false]) w2). eexists.
  split_and!; [|auto| | |].
  - eapply runs_Map_success; [by eapply (runs_Zip_success o1 o2 k1 k2)|].
    unfold call_bind. by rewrite new_var_eq.
  - eapply grows_trans; [exact Hg1|]. eapply grows_trans; [exact Hg2|apply grows_new].
  - rewrite heap_of_with, length_app; cbn [length ConcatStreams stream_pull]. rewrite Nat.add_1_r.
    eapply follows_concat; [exact Hf1|exact Hf2|apply Hg1|apply Hg2].
  - cbn [concat_state]. split_and!; [auto| | |].
    + intros _. destruct Hf1 as [_ _ Hsame]. eapply Hsame; [exact HP1|auto|].
      eapply same_trans; [eapply (grows_same 0 0); [exact Hg2|done|right; lia]|].
      eapply (grows_same 0 0); [apply grows_new| |right; lia]. apply Hg2.
    + destruct Hf2 as [_ _ Hsame]. eapply Hsame; [exact HP2|auto|].
      eapply (grows_same 0 0); [apply grows_new|done|right; lia].
    + rewrite heap_of_with. by apply list_lookup_middle.
Qed.

End Refinement.
