(* ===== verification/StreamRuns.v ===== *)
(** What running a stream comes to: streams denote lists, transforms are list
    functions, sinks fold the list and stop at the first failure. *)

From S2P Require Import Prelude Outcome Traversal OutcomeFacts Cause Interpreter InterpreterFacts.
From S2P Require Import Algebra Effects EffectsFacts Observation Calls Chunk Collections Completion.
From S2P Require Import Scope Time State RuntimePort Lifetimes Variables Stream.
From S2P Require Import StreamScripts StreamFacts.

Lemma values_S_l {V A} (script : Script V A) n :
  values script (S n) = reply_values (script 0) ++ values (fun q => script (S q)) n.
Proof.
  induction n as [|n IH]; [cbn; by rewrite app_nil_r|].
  cbn [values] in *. by rewrite IH, <- app_assoc.
Qed.

Section Runs.
  Context {V World Ctx St : Type} `{ContextOps World Ctx} `{StateOps St}.
  Context `{Heap World (option V)} `{Pairing V}.
  Context `{Erased V unit} `{Erased V bool} `{Erased V Z} `{Erased V nat}.
  Context (error_value : error -> V) (unsupported : error) (zero_effect nil_dereference : Panic V).
  #[local] Abbreviation Effect := (@Effect V World Ctx St).
  #[local] Abbreviation Stream := (@Stream V World Ctx St).
  #[local] Abbreviation call := (call V World).
  #[local] Abbreviation runs := (runs error_value unsupported zero_effect).
  #[local] Abbreviation runs_call := (runs_call error_value unsupported zero_effect).
  #[local] Abbreviation vars := (heap_of (option V)).

Section Live.
  Context (i : Interpretation V Ctx St) (live : World -> Prop) (opens_in : nat -> Prop).
  Context (live_ctx : forall w, live w -> ctx_Err (interp_Context i) w = None).
  Context (live_vars : forall (cells : list (option V)) w, live w -> live (with_heap cells w)).
  #[local] Abbreviation follows := (follows error_value unsupported zero_effect i live).
  #[local] Abbreviation streams := (streams error_value unsupported zero_effect i live opens_in).

Lemma follows_shift {R E A} `{Erased V (Step A)} a b (next : Effect R E (Step A)) script P :
  follows a b next script P -> follows a b next (fun q => script (S q)) (fun q => P (S q)).
Proof. intros [Hl Hp Hs]. split; eauto. Qed.

(** ** The loop of a sink *)

Lemma runs_foldSteps_more {R E A S} `{Erased V (Step A)} `{Erased V S} (next : Effect R E (Step A))
    (beyond : S -> Effect R E S) (f : S -> A -> S) fuel c w w1 (s : S) :
  runs next i w = (ExitSuccess (erase (Emit c)), w1) ->
  runs (foldSteps zero_effect (Datatypes.S fuel) beyond next s (pure2 f)) i w
  = runs (foldSteps zero_effect fuel beyond next (foldl f s (chunk_values c)) (pure2 f)) i w1.
Proof.
  intros Hr. cbn [foldSteps]. erewrite (runs_FlatMap_success _ _ _ i next _ (Emit c)) by exact Hr.
  cbn [Step_Chunk Emit step_chunk step_more negb]. unfold EffectsFacts.runs_call, call_bind.
  by rewrite FoldChunk_pure.
Qed.

(** What a loop over a pull that follows [script] comes to after [n] chunks. *)
Definition fold_exit {A S} `{Erased V S} (f : S -> A -> S) (s : S) (script : Script V A) (n : nat)
    : option (Exit V) :=
  match script n with
  | Ends => Some (ExitSuccess (erase (foldl f s (values script n))))
  | Fails c => Some (ExitFailure c)
  | Emits _ => None
  end.

Lemma runs_foldSteps {R E A S} `{Erased V (Step A)} `{Erased V S} a b (next : Effect R E (Step A))
    (beyond : S -> Effect R E S) (f : S -> A -> S) n fuel script P w (s : S) x :
  follows a b next script P -> P 0 w -> running script n -> n < fuel ->
  fold_exit f s script n = Some x ->
  exists w', runs (foldSteps zero_effect fuel beyond next s (pure2 f)) i w = (x, w') /\ live w'.
Proof using live_ctx.
  revert fuel script P w s. induction n as [|n IH]; intros fuel script P w s Hf HP Hr Hn Hx;
    (destruct fuel as [|fuel]; [lia|]);
    destruct (follows_pull _ _ _ _ _ _ _ _ _ _ Hf 0 w HP) as (w1 & Hp & _ & Hl1 & HS).
  - exists w1. split; [|done]. unfold fold_exit in Hx. cbn [foldSteps].
    destruct (script 0) as [c| |cause]; [done|..]; injection Hx as <-; cbn [reply_exit] in Hp.
    + erewrite (runs_FlatMap_success _ _ _ i next _ EndOfStream) by exact Hp.
      cbn [Step_Chunk EndOfStream step_chunk step_more negb]. unfold EffectsFacts.runs_call, call_ret.
      by eapply live_SucceedWith.
    + by rewrite runs_FlatMap, Hp.
  - destruct (Hr 0 ltac:(lia)) as [c Hc]. rewrite Hc in Hp, HS. cbn [reply_exit failing] in *.
    rewrite (runs_foldSteps_more _ _ _ _ _ _ _ _ Hp).
    eapply (IH fuel (fun q => script (Datatypes.S q)) (fun q => P (Datatypes.S q))).
    + by apply follows_shift.
    + apply HS. by intros [].
    + intros q Hq. apply Hr. lia.
    + lia.
    + unfold fold_exit in *. rewrite <- Hx. destruct (script (Datatypes.S n)); [done| |done].
      rewrite values_S_l, Hc; cbn [reply_values]. by rewrite foldl_app.
Qed.

Lemma runs_sink {R E A B} `{Erased V (Step A)} (s : Stream R E A) script
    (loop : Effect R E (Step A) -> Effect R E B) scope w (Q : Exit V -> Prop) :
  streams s script -> opens_in scope -> live w ->
  (forall next a b P w', follows a b next script P -> P 0 w' ->
     exists x w'', runs (loop next) i w' = (x, w'') /\ live w'' /\ Q x) ->
  exists x w', runs_call (sink zero_effect s loop scope) i w = (x, w') /\ live w' /\ Q x.
Proof.
  intros Hs Hin Hl Hloop. destruct (Hs scope Hin) as (o & Hm & Ho).
  destruct (Ho w Hl) as (k & w1 & P & Hr & Hl1 & _ & Hf & HP).
  unfold sink, EffectsFacts.runs_call at 1, call_bind at 1. rewrite Hm. unfold call_ret at 1.
  erewrite (runs_FlatMap_success _ _ _ i o _ k) by exact Hr. unfold EffectsFacts.runs_call, call_ret.
  by eapply Hloop.
Qed.

(** * Streams denote lists *)

(** Opened in one of the scopes and run in a live world, the stream produces exactly
    [vs], in order, and ends. *)
Definition denotes {R E A} `{Erased V (Step A)} (s : Stream R E A) (vs : list A) : Prop :=
  exists script n, streams s script /\ finishes script n vs.

Lemma denotes_Chunks {R E A} `{Erased V R} `{Erased V (Step A)} `{Erased V (list (Chunk A))}
    (chunks : list (Chunk A)) :
  denotes (StreamFromChunks (R := R) (E := E) zero_effect nil_dereference chunks)
    (concat (map chunk_values chunks)).
Proof using live_ctx live_vars.
  exists (chunks_script chunks), (length chunks).
  split; [by eapply streams_FromChunks|apply chunks_finish].
Qed.

(** ** Properties *)

(** C12. The transforms of streams are the list functions they are named after, whatever
    the chunks the values come in, empty ones included: mapping, filtering, taking,
    dropping, taking a prefix, appending a second stream, and mapping with an effect
    that computes. *)
Theorem transforms_are_list_functions {R E A B} `{Erased V R} `{Erased V B} `{Erased V (list B)}
    `{Erased V (Step A)} `{Erased V (Step B)} (s s2 : Stream R E A) (vs us : list A) (count : Z)
    (f : A -> B) (keep : A -> bool) (tr : A -> Effect R E B) :
  denotes s vs -> denotes s2 us -> (count <= int64_max)%Z ->
  computes error_value unsupported zero_effect i live tr f ->
  denotes (MapStream zero_effect s (pure f)) (map f vs)
  /\ denotes (FilterStream zero_effect s (pure keep)) (keeping keep vs)
  /\ denotes (TakeStream zero_effect nil_dereference s count) (take (Z.to_nat count) vs)
  /\ denotes (DropStream zero_effect nil_dereference s count) (drop (Z.to_nat count) vs)
  /\ denotes (TakeStreamWhile zero_effect nil_dereference s (pure keep)) (takeWhile keep vs)
  /\ denotes (ConcatStreams zero_effect nil_dereference s s2) (vs ++ us)
  /\ denotes (MapStreamEffect zero_effect s (pure tr)) (map f vs).
Proof using live_ctx live_vars.
  intros (script & n & Hs & Hn) (script2 & m & Hs2 & Hm) Hcount Htr. split_and!.
  - exists (map_script (fun c => MkChunk (map f (chunk_values c))) script), n. split.
    + eapply streams_MapChunks; [|done]. intros c w. apply MapChunk_pure.
    + by apply map_finishes with (g := map f); [|apply map_app| |].
  - exists (map_script (fun c => MkChunk (keeping keep (chunk_values c))) script), n. split.
    + eapply streams_MapChunks; [|done]. intros c w. apply Chunk_Filter_pure.
    + apply map_finishes with (g := keeping keep); [done|apply List.filter_app|done|done].
  - destruct (take_finishes count script Hcount n vs Hn) as [k Hk].
    exists (take_script count script), k. split; [|done].
    eapply (streams_applyStage _ _ _ i live opens_in live_ctx live_vars s (take_stage nil_dereference count));
      [apply take_stage_spec|done].
  - exists (drop_script count script), n. split; [|by apply drop_finishes].
    eapply (streams_applyStage _ _ _ i live opens_in live_ctx live_vars s (drop_stage nil_dereference count));
      [apply drop_stage_spec|done].
  - destruct (while_finishes keep script n vs Hn) as [k Hk].
    exists (while_script keep script), k. split; [|done].
    eapply (streams_applyStage _ _ _ i live opens_in live_ctx live_vars s (while_stage nil_dereference (pure keep)));
      [apply while_stage_spec|done].
  - exists (concat_script script script2), (n + m). split; [by eapply streams_Concat|by apply concat_finishes].
  - exists (map_script (fun c => MkChunk (map f (chunk_values c))) script), n. split.
    + by eapply streams_MapEffect.
    + by apply map_finishes with (g := map f); [|apply map_app| |].
Qed.

(** Collecting with an effect drops, replaces or expands each value. *)
Theorem CollectStreamEffect_expands {R E A B} `{Erased V R} `{Erased V (Step A)} `{Erased V (Step B)}
    `{Erased V (Step (Chunk B))} `{Erased V (Chunk B)} `{Erased V (list (Chunk B))}
    (s : Stream R E A) (vs : list A) (tr : A -> Effect R E (Chunk B)) (g : A -> Chunk B) :
  denotes s vs -> computes error_value unsupported zero_effect i live tr g ->
  denotes (CollectStreamEffect zero_effect s (pure tr)) (vs ≫= fun a => chunk_values (g a)).
Proof using live_ctx.
  intros (script & n & Hs & Hn) Htr. unfold CollectStreamEffect.
  set (script' := map_script (fun c => MkChunk (map g (chunk_values c))) script).
  assert (finishes script' n (map g vs)) as Hn'
    by (by apply map_finishes with (g := map g); [|apply map_app| |]).
  exists (map_script (fun c => MkChunk (concat (map chunk_values (chunk_values c)))) script'), n. split.
  - eapply streams_MapChunks; [|by eapply streams_MapEffect]. intros c w. unfold flattenChunk, call_bind.
    assert (forall (chunks : list (Chunk B)) acc, range_fold (V := V) (fun result values =>
              call_ret (result ++ Chunk_Values values)) chunks acc w
            = (inl (acc ++ concat (map chunk_values chunks)), w)) as Hfl.
    { induction chunks as [|d ds IH]; intros acc; cbn [range_fold map concat];
        [by rewrite app_nil_r|]. rewrite call_bind_ret, IH. by rewrite <- app_assoc. }
    by rewrite Hfl.
  - replace (vs ≫= fun a => chunk_values (g a)) with (concat (map chunk_values (map g vs))).
    + apply map_finishes with (g := fun ds => concat (map chunk_values ds)); [done| |done|done].
      intros xs ys. by rewrite map_app, concat_app.
    + clear. induction vs as [|v vs IH]; cbn; [done|]. by rewrite IH.
Qed.

(** Taking ends the stream at the first pull it does not need, even when the source
    never ends: of a source that has produced at least [count] values after [n]
    chunks exactly the first [count] come out, and the source is pulled once for
    every chunk that was still short of them and never again, not even by the pull
    that reports the end. *)
Theorem TakeStream_stops_its_source {R E A} `{Erased V (Step A)} (s : Stream R E A)
    (script : Script V A) (count : Z) (n : nat) :
  streams s script -> running script n -> (count <= int64_max)%Z ->
  Z.to_nat count <= length (values script n) ->
  exists m, m <= n
  /\ streams (TakeStream zero_effect nil_dereference s count) (take_script count script)
  /\ finishes (take_script count script) m (take (Z.to_nat count) (values script n))
  /\ snd (stage_state take_ended take_rewrite count script (Datatypes.S m)) = m
  /\ (forall j, j < m -> length (values script j) < Z.to_nat count).
Proof using live_ctx live_vars.
  intros Hs Hr Hint HK. destruct (take_enough count script Hint n Hr HK) as (m & Hm & Hf & Hp & Hlt).
  exists m. split_and!; try done.
  eapply (streams_applyStage _ _ _ i live opens_in live_ctx live_vars s (take_stage nil_dereference count));
    [apply take_stage_spec|done].
Qed.
End Live.

(** * Whole runs *)
Section Whole.
  Context {F : Type} `{FinalizerOps F V World Ctx} `{Heap World (Scope V F)}.
  Context `{!ScopeContexts V World Ctx F} `{!ScopeChildren V World F} `{RuntimePort V World Ctx St}.
  Context `{!QuietPort V World Ctx St (Scope V F)} `{!HeapsApart World (option V) (Scope V F)}.
  Context (i : Interpretation V Ctx St).
  Context (uncancelled : forall w, ctx_Err (interp_Context i) w = None).
  Context (observed_quietly : quiet (interp_State i)).

(** The worlds in which a scope is open and not cancelled, whatever has been
    registered with it. *)
Definition in_scope (scope : nat) (w : World) : Prop :=
  exists s, heap_get (T := Scope V F) scope w = Some s /\ status s = scopeOpen /\ cancelled s = None.

Lemma in_scope_ctx scope w :
  in_scope scope w -> ctx_Err (interp_Context (inside scope i)) w = None.
Proof using uncancelled. intros (s & Hs & _ & Hc). by apply (scope_ctx_live scope _ w s). Qed.

Lemma in_scope_vars scope (cells : list (option V)) w :
  in_scope scope w -> in_scope scope (with_heap cells w).
Proof. unfold in_scope, heap_get. by rewrite heap_apart. Qed.

(** Waiting for a scope's children, and running a finalizer, leave the scope its cell. *)
Record cells_kept (scope : nat) : Prop := {
  kept_by_children : forall w, is_Some (heap_get (T := Scope V F) scope w) ->
    is_Some (heap_get (T := Scope V F) scope (await_children scope w));
  kept_by_finalizers : forall ctx f exit w, is_Some (heap_get (T := Scope V F) scope w) ->
    is_Some (heap_get (T := Scope V F) scope (snd (runFinalizer ctx (f : F) exit w)))
}.

Lemma run_all_kept scope ctx fs exit w :
  cells_kept scope -> is_Some (heap_get (T := Scope V F) scope w) ->
  is_Some (heap_get (T := Scope V F) scope (snd (run_all ctx fs exit w))).
Proof.
  intros Hk. revert w. induction fs as [|f fs IH]; intros w Hw; cbn [run_all]; [done|].
  pose proof (kept_by_finalizers _ Hk ctx f exit w Hw) as Hw1.
  destruct (runFinalizer ctx f exit w) as [c w1]; cbn in Hw1. specialize (IH w1 Hw1).
  by destruct (run_all ctx fs exit w1).
Qed.

Lemma IsEmpty_foldl_Then (causes : list (Cause V)) acc :
  IsEmpty acc = true -> Forall (fun c => IsEmpty c = true) causes ->
  IsEmpty (foldl Then acc causes) = true.
Proof.
  intros Ha Hall. revert acc Ha. induction Hall as [|c cs Hc _ IH]; intros acc Ha; [done|].
  cbn. apply IH. unfold Then. by rewrite IsEmpty_compose, Ha, Hc.
Qed.

(** What a sink that runs [use] in a scope of its own comes back with when [use]
    comes to [x]: the finalizers registered with the scope by then have run, the last
    one first, once the scope refused new work, was cancelled and had waited for its
    children; their failures come after [x], which is kept as it is when they have
    none; and the scope is closed. *)
Definition closes_after {R E A} (use : nat -> call (Effect R E A)) (w : World) (x : Exit V)
    (run : Exit V * World) : Prop :=
  let scope := heap_fresh (T := Scope V F) w in
  exists w1 w2 s w3 causes w4 cause w5,
  heap_of (Scope V F) w1 = heap_of (Scope V F) w ++ [NewScope]
  /\ runs_call (use scope) (inside scope i) w1 = (x, w2)
  /\ heap_get scope w2 = Some s
  /\ heap_get scope w3 = Some (closing_scope x ErrScopeClosed s)
  /\ run_all (ctx_WithoutCancel (interp_Context (inside scope i))) (reverse (finalizers s)) x
       (await_children scope w3) = (causes, w4)
  /\ leaves cause = concat (map leaves causes)
  /\ run = (composeCleanup x cause, w5)
  /\ (Forall (fun c => IsEmpty c = true) causes -> fst run = x)
  /\ option_map status (heap_get (T := Scope V F) scope w5) = Some scopeClosed.

Lemma runs_Scoped_in_scope {R E A} `{Erased V R} (use : nat -> call (Effect R E A)) w (x : Exit V) :
  let scope := heap_fresh (T := Scope V F) w in
  cells_kept scope ->
  (forall w1, in_scope scope w1 -> exists w2,
     runs_call (use scope) (inside scope i) w1 = (x, w2) /\ in_scope scope w2) ->
  closes_after use w x (runs (Scoped zero_effect nil_dereference use) i w).
Proof using uncancelled observed_quietly.
  intros scope Hkept Huse. pose proof (runs_Scoped error_value unsupported zero_effect nil_dereference use i w) as Hrun.
  change (heap_new NewScope w) with (scope, snd (heap_new (T := Scope V F) NewScope w)) in Hrun.
  cbv beta iota in Hrun. set (w0 := snd (heap_new (T := Scope V F) NewScope w)) in *.
  destruct (quiet_start (interp_State i) (interp_Context i) EventScopeOpened observed_quietly w0)
    as (start & w1 & Hs & E1).
  assert (heap_of (Scope V F) w1 = heap_of (Scope V F) w ++ [NewScope]) as Hw1
    by (rewrite E1; unfold w0, heap_new; cbn; by rewrite heap_of_with).
  assert (in_scope scope w1) as Hin.
  { exists NewScope. split; [|done]. unfold heap_get, scope, heap_fresh. rewrite Hw1.
    by apply list_lookup_middle. }
  destruct (Huse w1 Hin) as (w2 & Hx & s & Hs2 & Ho & _). rewrite Hs, Hx in Hrun.
  destruct (closeScope_returns nil_dereference scope start (inside scope i) x w2 s
    (quiet_WithScope _ scope observed_quietly) Hs2 Ho) as (w2' & _ & _ & Hc & Hclose).
  set (w3 := heap_set scope (closing_scope x ErrScopeClosed s) w2') in *.
  pose proof (run_all_kept scope (ctx_WithoutCancel (interp_Context (inside scope i)))
    (reverse (finalizers s)) x _ Hkept (kept_by_children _ Hkept w3 (ex_intro _ _ Hc))) as [s' Hs'].
  destruct (run_all _ (reverse (finalizers s)) x (await_children scope w3)) as [causes w4] eqn:Hr.
  destruct (Hclose causes w4 s' eq_refl Hs') as (w5 & Hret & Hw5).
  rewrite (observeExit_returns _ _ _ _ _ _ Hret) in Hrun.
  exists w1, w2, s, w3, causes, w4, (foldl Then zeroCause causes), w5. split_and!; try done.
  - by rewrite leaves_foldl_Then.
  - intros Hall. rewrite Hrun; cbn. unfold composeCleanup. by rewrite IsEmpty_foldl_Then.
  - fold scope. by rewrite Hw5.
Qed.

Lemma runs_RunFold {R E A S} `{Erased V R} `{Erased V (Step A)} `{Erased V S} fuel
    (beyond : S -> Effect R E S) (s : Stream R E A) (f : S -> A -> S) (initial : S) script n x w :
  let scope := heap_fresh (T := Scope V F) w in
  streams error_value unsupported zero_effect (inside scope i) (in_scope scope) (eq scope) s script ->
  cells_kept scope ->
  running script n -> n < fuel -> fold_exit f initial script n = Some x ->
  closes_after (sink zero_effect s (fun next => foldSteps zero_effect fuel beyond next initial (pure2 f))) w x
    (runs (RunFold zero_effect nil_dereference fuel beyond s initial (pure2 f)) i w).
Proof using uncancelled observed_quietly.
  intros scope Hs Hkept Hr Hn Hx. apply runs_Scoped_in_scope; [done|].
  intros w1 Hl. destruct (runs_sink (inside scope i) (in_scope scope) (eq scope) s script
    (fun next => foldSteps zero_effect fuel beyond next initial (pure2 f)) scope w1 (fun y => y = x))
    as (y & w2 & Hrun & Hl2 & ->); [done|done|done| |by exists w2].
  intros next a b P w2 Hf HP.
  destruct (runs_foldSteps (inside scope i) (in_scope scope) (in_scope_ctx scope) a b next beyond f n
    fuel script P w2 initial x Hf HP Hr Hn Hx) as (w3 & Hrun & Hl3). eauto.
Qed.

(** C28. Running a stream to its end folds its values in the order it produces them:
    [RunFold] comes to the fold of the list the stream denotes, [RunCollect] to the
    list itself and [RunCount] to its length, wrapped to the width of an [int].
    Each opens the sources in a scope of its own, in which they may acquire what
    they like, and closes it before it returns: what was registered is released, the
    newest first, and only failures of the releases are added to the exit. *)
Theorem sinks_fold_the_list {R E A S} `{Erased V R} `{Erased V (Step A)} `{Erased V S}
    `{Erased V (list A)} (s : Stream R E A) (vs : list A) (f : S -> A -> S) (initial : S)
    (beyond : S -> Effect R E S) (beyond' : list A -> Effect R E (list A))
    (beyond2 : Z -> Effect R E Z) (w : World) :
  let scope := heap_fresh (T := Scope V F) w in
  let folding {T} `{Erased V T} fuel (b : T -> Effect R E T) from (g : T -> A -> T) :=
    sink zero_effect s (fun next => foldSteps zero_effect fuel b next from (pure2 g)) in
  denotes (inside scope i) (in_scope scope) (eq scope) s vs -> cells_kept scope ->
  exists n, forall fuel, n < fuel ->
  closes_after (folding fuel beyond initial f) w (ExitSuccess (erase (foldl f initial vs)))
    (runs (RunFold zero_effect nil_dereference fuel beyond s initial (pure2 f)) i w)
  /\ closes_after (folding fuel beyond' [] (fun values value => values ++ [value])) w
       (ExitSuccess (erase vs))
       (runs (RunCollect zero_effect nil_dereference fuel beyond' s) i w)
  /\ closes_after (folding fuel beyond2 0%Z (fun count _ => wrap64 (count + 1))) w
       (ExitSuccess (erase (wrap64 (Z.of_nat (length vs)))))
       (runs (RunCount zero_effect nil_dereference fuel beyond2 s) i w).
Proof using uncancelled observed_quietly.
  intros scope folding (script & n & Hs & Hr & He & Hv) Hkept. exists n. intros fuel Hn. split_and!.
  - apply (runs_RunFold fuel beyond s f initial script n); try done. unfold fold_exit. by rewrite He, Hv.
  - apply (runs_RunFold fuel beyond' s (fun values value => values ++ [value]) [] script n
      (ExitSuccess (erase vs)) w); try done.
    unfold fold_exit. rewrite He, Hv. do 3 f_equal. clear.
    assert (forall acc, foldl (fun values value => values ++ [value]) acc vs = acc ++ vs) as Hf;
      [|apply (Hf [])].
    induction vs as [|v vs IH]; intros acc; cbn; [by rewrite app_nil_r|]. by rewrite IH, <- app_assoc.
  - apply (runs_RunFold fuel beyond2 s (fun count _ => wrap64 (count + 1)) 0%Z script n
      (ExitSuccess (erase (wrap64 (Z.of_nat (length vs))))) w); try done.
    unfold fold_exit. rewrite He, Hv. do 3 f_equal. clear.
    assert (forall k, foldl (fun count (_ : A) => wrap64 (count + 1)) (wrap64 k) vs
                      = wrap64 (k + Z.of_nat (length vs))) as Hf; [|apply (Hf 0%Z)].
    induction vs as [|v vs IH]; intros k; cbn [foldl length]; [by rewrite Z.add_0_r|].
    rewrite wrap64_wrap_add, IH. f_equal. lia.
Qed.

(** A pull that fails ends the run: whatever was produced before it, the sink's exit
    is that failure, nothing is pulled after it, and the scope is closed. *)
Theorem sinks_stop_at_the_first_failure {R E A S} `{Erased V R} `{Erased V (Step A)} `{Erased V S}
    (s : Stream R E A) (script : Script V A) (n : nat) (cause : Cause V) (f : S -> A -> S)
    (initial : S) (beyond : S -> Effect R E S) (fuel : nat) (w : World) :
  let scope := heap_fresh (T := Scope V F) w in
  streams error_value unsupported zero_effect (inside scope i) (in_scope scope) (eq scope) s script ->
  cells_kept scope ->
  running script n -> script n = Fails cause -> n < fuel ->
  closes_after (sink zero_effect s (fun next => foldSteps zero_effect fuel beyond next initial (pure2 f))) w
    (ExitFailure cause)
    (runs (RunFold zero_effect nil_dereference fuel beyond s initial (pure2 f)) i w).
Proof using uncancelled observed_quietly.
  intros scope Hs Hkept Hr Hf Hn. apply (runs_RunFold fuel beyond s f initial script n); try done.
  unfold fold_exit. by rewrite Hf.
Qed.
End Whole.
End Runs.
