(* ===== verification/Parallel.v ===== *)
(** Concurrent composition: two branches ([effect/internal/runtime/parallel.go]
    and the resolvers of [effect/concurrency.go]) and a bounded collection of them
    ([parallel_all.go], [effect/collections.go]'s [collectResults]); timeouts
    ([effect/timeout.go]) are the composition of a branch with a sleeping one.

    A branch is its fiber: whatever it does, what the composition sees is when it
    terminates and with what. Every interleaving of the branches with the
    composition's own turns is a step relation. *)

From stdpp Require Import relations.
From S2P Require Import Prelude Outcome Traversal OutcomeFacts Cause Algebra Completion.

(** [lifetime.ErrSiblingFailed], [ErrRaceLost] and [ErrTimedOut]. *)
Definition ErrSiblingFailed : error := MkError 503 "effect: parallel sibling failed" [].
Definition ErrRaceLost : error := MkError 504 "effect: race lost" [].
Definition ErrTimedOut : error := MkError 505 "effect: timed out" [].

Section Pair.
  Context {V : Type}.

(** [SettlePolicy]: does this exit make the other branch unnecessary? *)
Definition SettlePolicy : Type := Exit V -> bool.

Definition settleOnFailure : SettlePolicy := fun exit => negb (IsSuccess exit).
Definition settleOnSuccess : SettlePolicy := IsSuccess.
Definition settleAlways : SettlePolicy := fun _ => true.

(** [leftDone] is whether the left branch's completion channel is still in the
    select. *)
Record pairRunner : Type := MkRunner {
  leftFiber : Fiber V;
  rightFiber : Fiber V;
  leftDone : bool;
  rightDone : bool;
  runner_outcome : PairOutcome V
}.

Definition startPair (leftID rightID : Z) : pairRunner :=
  MkRunner (NewFiber leftID) (NewFiber rightID) true true
    (MkPair (zero (Exit V)) (zero (Exit V)) NeitherSide).

Definition recordFirst (side : Side) (o : PairOutcome V) : PairOutcome V :=
  if bool_decide (pair_First o = NeitherSide) then MkPair (pair_Left o) (pair_Right o) side
  else o.

Definition collectLeft (r : pairRunner) : pairRunner :=
  let o := runner_outcome r in
  MkRunner (leftFiber r) (rightFiber r) false (rightDone r)
    (recordFirst LeftSide
       (MkPair (fst (fiber_Poll (leftFiber r))) (pair_Right o) (pair_First o))).

Definition collectRight (r : pairRunner) : pairRunner :=
  let o := runner_outcome r in
  MkRunner (leftFiber r) (rightFiber r) (leftDone r) false
    (recordFirst RightSide
       (MkPair (pair_Left o) (fst (fiber_Poll (rightFiber r))) (pair_First o))).

(** Where the composition's goroutine stands: at its select, or waiting for a
    branch it has interrupted. *)
Inductive pair_pc : Type := selecting | awaitingLeft | awaitingRight.

(** [discardRight] up to its wait: the request, if the branch still runs. *)
Definition discardRight (reason : error) (r : pairRunner) : pairRunner * pair_pc :=
  if negb (rightDone r) then (r, selecting)
  else (MkRunner (leftFiber r) (fst (fiber_Interrupt reason (rightFiber r))) (leftDone r) false
          (runner_outcome r), awaitingRight).

Definition discardLeft (reason : error) (r : pairRunner) : pairRunner * pair_pc :=
  if negb (leftDone r) then (r, selecting)
  else (MkRunner (fst (fiber_Interrupt reason (leftFiber r))) (rightFiber r) false (rightDone r)
          (runner_outcome r), awaitingLeft).

(** One select of [wait], taking the given case; [None] when it is not ready. *)
Definition select_turn (settle : SettlePolicy) (reason : error) (side : Side) (r : pairRunner)
    : option (pairRunner * pair_pc) :=
  match side with
  | NeitherSide => None
  | LeftSide =>
      if leftDone r && done (terminal (leftFiber r)) then
        let r := collectLeft r in
        Some (if settle (pair_Left (runner_outcome r)) then discardRight reason r
              else (r, selecting))
      else None
  | RightSide =>
      if rightDone r && done (terminal (rightFiber r)) then
        let r := collectRight r in
        Some (if settle (pair_Right (runner_outcome r)) then discardLeft reason r
              else (r, selecting))
      else None
  end.

(** The wait of an interruption: [runner.outcome.Right = runner.right.Interrupt(..)]. *)
Definition await_turn (pc : pair_pc) (r : pairRunner) : option (pairRunner * pair_pc) :=
  let o := runner_outcome r in
  match pc with
  | selecting => None
  | awaitingLeft =>
      x ← fiber_Wait (leftFiber r);
      Some (MkRunner (leftFiber r) (rightFiber r) (leftDone r) (rightDone r)
              (MkPair x (pair_Right o) (pair_First o)), selecting)
  | awaitingRight =>
      x ← fiber_Wait (rightFiber r);
      Some (MkRunner (leftFiber r) (rightFiber r) (leftDone r) (rightDone r)
              (MkPair (pair_Left o) x (pair_First o)), selecting)
  end.

(** [wait] returns when no channel is left in its select. *)
Definition wait_returned (st : pairRunner * pair_pc) : Prop :=
  snd st = selecting /\ leftDone (fst st) = false /\ rightDone (fst st) = false.

Inductive pair_step (settle : SettlePolicy) (reason : error)
    : pairRunner * pair_pc -> pairRunner * pair_pc -> Prop :=
| left_completes x r pc :
    pair_step settle reason (r, pc)
      (MkRunner (fiber_Complete x (leftFiber r)) (rightFiber r) (leftDone r) (rightDone r)
         (runner_outcome r), pc)
| right_completes x r pc :
    pair_step settle reason (r, pc)
      (MkRunner (leftFiber r) (fiber_Complete x (rightFiber r)) (leftDone r) (rightDone r)
         (runner_outcome r), pc)
| selects side r st :
    select_turn settle reason side r = Some st -> pair_step settle reason (r, selecting) st
| awaits r pc st :
    await_turn pc r = Some st -> pair_step settle reason (r, pc) st.

Definition pair_reachable settle reason leftID rightID (st : pairRunner * pair_pc) : Prop :=
  rtc (pair_step settle reason) (startPair leftID rightID, selecting) st.

(** * Resolvers ([concurrency.go]) *)

Definition pairFailure (pair : PairOutcome V) (cancelReason : error) : Exit V :=
  ExitFailure (CombineParallelCauses pair (Some cancelReason)).

Definition bothResults {A B} `{Erased V A} `{Erased V B} `{Erased V (Product A B)}
    (pair : PairOutcome V) (cancelReason : error) : Exit V :=
  if IsSuccess (pair_Left pair) && IsSuccess (pair_Right pair)
  then ExitSuccess (erase (ProductOf (asValue (A := A) (ExitValue (pair_Left pair)))
                                     (asValue (A := B) (ExitValue (pair_Right pair)))))
  else pairFailure pair cancelReason.

Definition pickSuccess (pair : PairOutcome V) : Exit V * bool :=
  if IsSuccess (pair_Left pair) && IsSuccess (pair_Right pair) then
    (if bool_decide (pair_First pair = RightSide) then pair_Right pair else pair_Left pair, true)
  else if IsSuccess (pair_Left pair) then (pair_Left pair, true)
  else if IsSuccess (pair_Right pair) then (pair_Right pair, true)
  else (zero (Exit V), false).

Definition firstSuccess (pair : PairOutcome V) (cancelReason : error) : Exit V :=
  match pickSuccess pair with
  | (winner, true) => winner
  | (_, false) => pairFailure pair cancelReason
  end.

Definition firstCompletion (pair : PairOutcome V) (cancelReason : error) : Exit V :=
  match pair_First pair with
  | RightSide => pair_Right pair
  | LeftSide => pair_Left pair
  | NeitherSide => pairFailure pair cancelReason
  end.

(** [timeoutResolver] ([effect/timeout.go]): the right branch is the clock. *)
Definition timeoutResolver (onTimeout : Exit V) (pair : PairOutcome V) (cancelReason : error)
    : Exit V :=
  let clockWon := bool_decide (pair_First pair = RightSide) && IsSuccess (pair_Right pair) in
  if negb clockWon then pair_Left pair
  else
    let workCause := ExitCause (pair_Left pair) in
    if IsEmpty workCause || IsInduced workCause (Some cancelReason) then onTimeout
    else ExitFailure (Then (ExitCause onTimeout) workCause).

End Pair.
Arguments pairRunner : clear implicits.

(** * Collections *)

Section Branches.
  Context {V : Type}.

(** A branch waiting for a permit, running, finished with the exit of its body,
    or terminated once its own scope has closed, with that and its final exit. *)
Inductive branch : Type :=
| queued
| running
| finished (exit : Exit V)
| terminated (body exit : Exit V).

(** [permitsFor]: the semaphore's capacity, or no semaphore. *)
Definition permitsFor (limit : Z) (total : nat) : option nat :=
  if (limit <=? 0)%Z || (Z.of_nat total <=? limit)%Z then None else Some (Z.to_nat limit).

Definition holds_permit (b : branch) : bool := match b with running => true | _ => false end.

Definition in_flight (branches : list branch) : nat := length (filter (fun b => holds_permit b = true) branches).

(** The composition: its branches, the completions sent and not received yet, how
    many were received, and [awaitFirstFailure]'s flag with the reason the private
    scope was interrupted with. *)
Record group : Type := MkGroup {
  branches : list branch;
  completions : list (nat * Exit V);
  received : nat;
  abandoned : bool;
  group_cancelled : option error
}.

Definition startAll (total : nat) (cancelled : option error) : group :=
  MkGroup (replicate total queued) [] 0 false cancelled.

Definition set_branch (index : nat) (b : branch) (g : group) : group :=
  MkGroup (<[index := b]> (branches g)) (completions g) (received g) (abandoned g)
    (group_cancelled g).

(** [recordOutcome]: the body's exit is sent as soon as it is known. The channel
    has room for every branch. *)
Definition recordOutcome (index : nat) (exit : Exit V) (g : group) : group :=
  let g := set_branch index (finished exit) g in
  MkGroup (branches g) (completions g ++ [(index, exit)]) (received g) (abandoned g)
    (group_cancelled g).

(** A turn of [awaitFirstFailure]. *)
Definition receive_completion (reason : error) (g : group) : option group :=
  match completions g with
  | [] => None
  | (_, exit) :: rest =>
      if IsSuccess exit || abandoned g
      then Some (MkGroup (branches g) rest (S (received g)) (abandoned g) (group_cancelled g))
      else Some (MkGroup (branches g) rest (S (received g)) true
                   (cancel_once reason (group_cancelled g)))
  end.

Inductive group_step (permits : option nat) (reason : error) : group -> group -> Prop :=
| takes_permit g index :
    branches g !! index = Some queued ->
    (forall n, permits = Some n -> in_flight (branches g) < n) ->
    group_step permits reason g (set_branch index running g)
| stops_waiting g index why :
    branches g !! index = Some queued -> permits <> None -> group_cancelled g = Some why ->
    group_step permits reason g
      (recordOutcome index (ExitFailure (InterruptCause (Some why))) g)
| body_returns g index exit :
    branches g !! index = Some running ->
    group_step permits reason g (recordOutcome index exit g)
| fiber_terminates g index exit cleanup :
    branches g !! index = Some (finished exit) ->
    group_step permits reason g (set_branch index (terminated exit (composeCleanup exit cleanup)) g)
| receives g g' :
    received g < length (branches g) -> receive_completion reason g = Some g' ->
    group_step permits reason g g'
| caller_cancels g why :
    group_step permits reason g
      (MkGroup (branches g) (completions g) (received g) (abandoned g)
         (cancel_once why (group_cancelled g))).

(** [collect]: every fiber's own exit, in input order, once all have terminated. *)
Definition terminal_exit (b : branch) : option (Exit V) :=
  match b with terminated _ exit => Some exit | _ => None end.
Definition collect (g : group) : option (list (Exit V)) := mapM terminal_exit (branches g).

Fixpoint collect_values {B} `{Erased V B} (exits : list (Exit V)) : option (list B) :=
  match exits with
  | [] => Some []
  | exit :: rest =>
      if negb (IsSuccess exit) then None
      else values ← collect_values rest; Some (asValue (ExitValue exit) :: values)
  end.

(** The loop of [collectResults] leaves at the first exit that is no success. *)
Definition collectResults {B} `{Erased V B} `{Erased V (list B)} (exits : list (Exit V)) : Exit V :=
  match collect_values exits with
  | None => ExitFailure (CombineBranchCauses exits (Some ErrSiblingFailed))
  | Some results => ExitSuccess (erase results)
  end.

End Branches.
Arguments branch : clear implicits.
Arguments group : clear implicits.
