(* ===== verification/ParallelFacts.v ===== *)
(** What concurrent composition guarantees, whatever the interleaving. *)

From stdpp Require Import relations.
From S2P Require Import Prelude Outcome Traversal OutcomeFacts Cause Algebra Completion Parallel.

Section PairFacts.
  Context {V : Type}.
  #[local] Abbreviation pairRunner := (pairRunner V).

Lemma Wait_Complete (x y : Exit V) (f : Fiber V) :
  fiber_Wait f = Some x -> fiber_Wait (fiber_Complete y f) = Some x.
Proof.
  destruct f as [id c [d res]]. unfold fiber_Wait, Wait, fiber_Complete, Complete; cbn.
  by destruct d.
Qed.

Lemma Poll_done (f : Fiber V) :
  done (terminal f) = true -> fiber_Wait f = Some (fst (fiber_Poll f)).
Proof. unfold fiber_Wait, Wait, fiber_Poll, Poll. by intros ->. Qed.

Lemma Wait_Interrupt reason (f : Fiber V) : fiber_Wait (fst (fiber_Interrupt reason f)) = fiber_Wait f.
Proof. done. Qed.

(** What is known of the branch that was seen first and of the other, when the
    first one's exit settles the composition or not. *)
Record seen_first (reason : error) (settled : bool) (first other : Fiber V)
    (x y : Exit V) (firstDone otherDone awaitingFirst awaitingOther : bool) : Prop := {
  sf_first : fiber_Wait first = Some x;
  sf_first_done : firstDone = false;
  sf_first_free : fiber_cancelled first = None;
  sf_not_awaiting : awaitingFirst = false;
  sf_other_cancelled : fiber_cancelled other = if settled then Some reason else None;
  sf_other_discarded : settled = true -> otherDone = false;
  sf_other : otherDone = false -> awaitingOther = false -> fiber_Wait other = Some y;
  sf_awaiting : awaitingOther = true -> otherDone = false
}.

Definition is_awaitingLeft (pc : pair_pc) : bool := match pc with awaitingLeft => true | _ => false end.
Definition is_awaitingRight (pc : pair_pc) : bool := match pc with awaitingRight => true | _ => false end.

Definition pair_inv (settle : SettlePolicy) (reason : error) (st : pairRunner * pair_pc) : Prop :=
  let '(r, pc) := st in
  let o := runner_outcome r in
  match pair_First o with
  | NeitherSide =>
      leftDone r = true /\ rightDone r = true /\ pc = selecting
      /\ fiber_cancelled (leftFiber r) = None /\ fiber_cancelled (rightFiber r) = None
  | LeftSide =>
      seen_first reason (settle (pair_Left o)) (leftFiber r) (rightFiber r) (pair_Left o)
        (pair_Right o) (leftDone r) (rightDone r) (is_awaitingLeft pc) (is_awaitingRight pc)
  | RightSide =>
      seen_first reason (settle (pair_Right o)) (rightFiber r) (leftFiber r) (pair_Right o)
        (pair_Left o) (rightDone r) (leftDone r) (is_awaitingRight pc) (is_awaitingLeft pc)
  end.

Lemma seen_first_completes reason settled f g x y z fd od af ao :
  seen_first reason settled f g x y fd od af ao ->
  seen_first reason settled (fiber_Complete z f) g x y fd od af ao
  /\ seen_first reason settled f (fiber_Complete z g) x y fd od af ao.
Proof. intros []; split; constructor; eauto using Wait_Complete. Qed.

Lemma recordFirst_first side (x y : Exit V) first :
  recordFirst side (MkPair x y first)
  = MkPair x y (match first with NeitherSide => side | known => known end).
Proof. by destruct first. Qed.

Lemma pair_step_inv settle reason st st' :
  pair_step settle reason st st' -> pair_inv settle reason st -> pair_inv settle reason st'.
Proof.
  destruct 1 as [x r pc|x r pc|side r st' Hs|r pc st' Ha]; unfold pair_inv; cbn.
  - destruct (pair_First _); intros Hi; [done|by apply seen_first_completes..].
  - destruct (pair_First _); intros Hi; [done|by apply seen_first_completes..].
  - destruct r as [lf rf ld rd [xl xr first]]; cbn in *. destruct side; [done|..]; cbn in Hs.
    + destruct ld, (done (terminal lf)) eqn:Hd; try done; cbn in Hs. apply Poll_done in Hd.
      injection Hs as <-. unfold collectLeft, collectRight; cbn. rewrite recordFirst_first.
      destruct first; cbn.
      * intros (_ & -> & _ & Hl & Hr). destruct (settle _) eqn:Hset; cbn; rewrite ?Hset;
          constructor; try done; cbn; by rewrite Hr.
      * by intros [].
      * intros [Hw Hd1 Hf Ha Hc Hdisc Ho Haw]; cbn in *. subst rd.
        destruct (settle (fst (fiber_Poll lf))); cbn; constructor; cbn; done.
    + destruct rd, (done (terminal rf)) eqn:Hd; try done; cbn in Hs. apply Poll_done in Hd.
      injection Hs as <-. unfold collectLeft, collectRight; cbn. rewrite recordFirst_first.
      destruct first; cbn.
      * intros (-> & _ & _ & Hl & Hr). destruct (settle _) eqn:Hset; cbn; rewrite ?Hset;
          constructor; try done; cbn; by rewrite Hl.
      * intros [Hw Hd1 Hf Ha Hc Hdisc Ho Haw]; cbn in *. subst ld.
        destruct (settle (fst (fiber_Poll rf))); cbn; constructor; cbn; done.
      * by intros [].
  - destruct r as [lf rf ld rd [xl xr first]]; destruct pc; cbn in *; [done|..].
    + destruct (fiber_Wait lf) as [x|] eqn:Hw; [|done]. injection Ha as <-. cbn.
      destruct first; cbn; [naive_solver|by intros [] |].
      intros [Hw1 Hd1 Hf Ha Hc Hdisc Ho Haw]; cbn in *. constructor; eauto.
    + destruct (fiber_Wait rf) as [x|] eqn:Hw; [|done]. injection Ha as <-. cbn.
      destruct first; cbn; [naive_solver| |by intros []].
      intros [Hw1 Hd1 Hf Ha Hc Hdisc Ho Haw]; cbn in *. constructor; eauto.
Qed.

Lemma pair_reachable_inv settle reason l r st :
  pair_reachable settle reason l r st -> pair_inv settle reason st.
Proof.
  intros Hr. unfold pair_reachable in Hr. remember (startPair l r, selecting) as st0 eqn:He.
  assert (pair_inv settle reason st0) as Hi by (by subst).
  clear He. induction Hr; eauto using pair_step_inv.
Qed.

(** ** Returning *)

Definition both_done (r : pairRunner) : Prop :=
  is_Some (fiber_Wait (leftFiber r)) /\ is_Some (fiber_Wait (rightFiber r)).

(** What is left to do before [wait] returns. *)
Definition pair_rest (st : pairRunner * pair_pc) : nat :=
  (if leftDone (fst st) then 2 else 0) + (if rightDone (fst st) then 2 else 0)
  + match snd st with selecting => 0 | _ => 1 end.

Lemma Wait_done (f : Fiber V) : is_Some (fiber_Wait f) -> done (terminal f) = true.
Proof. unfold fiber_Wait, Wait. destruct (done _); [done|]. by intros [? ?]. Qed.

Lemma discard_rest settle reason (r : pairRunner) :
  pair_rest (if (settle : bool) then discardRight reason r else (r, selecting))
  <= pair_rest (r, selecting)
  /\ pair_rest (if (settle : bool) then discardLeft reason r else (r, selecting))
  <= pair_rest (r, selecting).
Proof.
  unfold pair_rest, discardRight, discardLeft. destruct r as [? ? [] [] ?], settle; cbn; lia.
Qed.

Lemma discard_waits settle reason (r : pairRunner) st :
  st = (if (settle : bool) then discardRight reason r else (r, selecting))
  \/ st = (if (settle : bool) then discardLeft reason r else (r, selecting)) ->
  fiber_Wait (leftFiber (fst st)) = fiber_Wait (leftFiber r)
  /\ fiber_Wait (rightFiber (fst st)) = fiber_Wait (rightFiber r).
Proof. destruct r as [? ? [] [] ?], settle; by intros [-> | ->]. Qed.

Lemma pair_progress settle reason (st : pairRunner * pair_pc) :
  both_done (fst st) -> wait_returned st
  \/ exists st', pair_step settle reason st st' /\ pair_rest st' < pair_rest st
       /\ fiber_Wait (leftFiber (fst st')) = fiber_Wait (leftFiber (fst st))
       /\ fiber_Wait (rightFiber (fst st')) = fiber_Wait (rightFiber (fst st)).
Proof.
  destruct st as [r pc]; cbn. intros [Hl Hr]. pose proof (Wait_done _ Hl) as Hdl.
  pose proof (Wait_done _ Hr) as Hdr. destruct pc.
  - destruct (leftDone r) eqn:Hld.
    + right. eexists. split.
      { apply (selects _ _ LeftSide). cbn. by rewrite Hld, Hdl. }
      destruct (discard_rest (settle (pair_Left (runner_outcome (collectLeft r)))) reason
        (collectLeft r)) as [Hle _].
      split; [|exact (discard_waits (settle (pair_Left (runner_outcome (collectLeft r)))) reason
                 (collectLeft r) _ (or_introl eq_refl))].
      eapply Nat.le_lt_trans; [exact Hle|]. unfold pair_rest; cbn. rewrite Hld. lia.
    + destruct (rightDone r) eqn:Hrd; [|by left].
      right. eexists. split.
      { apply (selects _ _ RightSide). cbn. by rewrite Hrd, Hdr. }
      destruct (discard_rest (settle (pair_Right (runner_outcome (collectRight r)))) reason
        (collectRight r)) as [_ Hle].
      split; [|exact (discard_waits (settle (pair_Right (runner_outcome (collectRight r)))) reason
                 (collectRight r) _ (or_intror eq_refl))].
      eapply Nat.le_lt_trans; [exact Hle|]. unfold pair_rest; cbn. rewrite Hld, Hrd. lia.
  - destruct Hl as [x Hx]. right. eexists. split; [apply awaits; cbn; by rewrite Hx|].
    unfold pair_rest; cbn. split; [lia|done].
  - destruct Hr as [x Hx]. right. eexists. split; [apply awaits; cbn; by rewrite Hx|].
    unfold pair_rest; cbn. split; [lia|done].
Qed.

Lemma pair_returns settle reason n (st : pairRunner * pair_pc) :
  pair_rest st < n -> both_done (fst st) ->
  exists st', rtc (pair_step settle reason) st st' /\ wait_returned st'
    /\ fiber_Wait (leftFiber (fst st')) = fiber_Wait (leftFiber (fst st))
    /\ fiber_Wait (rightFiber (fst st')) = fiber_Wait (rightFiber (fst st)).
Proof.
  revert st. induction n as [|n IH]; intros st Hn Hd; [lia|].
  destruct (pair_progress settle reason st Hd) as [Hret|(st1 & Hs & Hlt & Hl & Hr)].
  - exists st. split; [constructor|]. split; [exact Hret|done].
  - destruct (IH st1) as (st' & Hst & Hret & Hl' & Hr'); [lia| |].
    { unfold both_done in *. by rewrite Hl, Hr. }
    exists st'. split; [by eapply rtc_l|]. split; [exact Hret|]. split; congruence.
Qed.

Definition cancelled_by (reason : error) (asked : bool) : option error :=
  if asked then Some reason else None.

(** Two concurrent branches: the composition returns only when both have
    terminated, with each branch's own exit in its own place and the side that
    was seen first; a branch was asked to stop exactly when the other was seen
    first and its exit settled the matter, and with this composition's reason. *)
Theorem pair_waits_for_both (settle : SettlePolicy) (reason : error) (l r : Z)
    (st : pairRunner * pair_pc) :
  pair_reachable settle reason l r st -> wait_returned st ->
  let o := runner_outcome (fst st) in
  fiber_Wait (leftFiber (fst st)) = Some (pair_Left o)
  /\ fiber_Wait (rightFiber (fst st)) = Some (pair_Right o)
  /\ pair_First o <> NeitherSide
  /\ fiber_cancelled (leftFiber (fst st))
     = cancelled_by reason (bool_decide (pair_First o = RightSide) && settle (pair_Right o))
  /\ fiber_cancelled (rightFiber (fst st))
     = cancelled_by reason (bool_decide (pair_First o = LeftSide) && settle (pair_Left o)).
Proof.
  intros Hr (Hpc & Hl & Hrd). pose proof (pair_reachable_inv _ _ _ _ _ Hr) as Hi.
  destruct st as [rn pc]; cbn in *. subst pc.
  destruct (pair_First (runner_outcome rn)) eqn:Hf; [destruct Hi; congruence|..];
    destruct Hi as [Hw Hd Hfree Ha Hc Hdisc Ho Haw]; split_and!; auto;
    by rewrite ?bool_decide_eq_true_2, ?bool_decide_eq_false_2 by done.
Qed.

(** Once both branches have terminated the composition can always return,
    whatever it had seen and asked for by then. *)
Theorem pair_always_returns (settle : SettlePolicy) (reason : error) (l r : Z)
    (st : pairRunner * pair_pc) :
  pair_reachable settle reason l r st -> both_done (fst st) ->
  exists st', rtc (pair_step settle reason) st st' /\ wait_returned st'
    /\ fiber_Wait (leftFiber (fst st)) = Some (pair_Left (runner_outcome (fst st')))
    /\ fiber_Wait (rightFiber (fst st)) = Some (pair_Right (runner_outcome (fst st'))).
Proof.
  intros Hr Hd. destruct (pair_returns settle reason _ st (Nat.lt_succ_diag_r _) Hd)
    as (st' & Hst & Hret & Hl & Hrt).
  exists st'. split; [exact Hst|]. split; [exact Hret|].
  all: assert (pair_reachable settle reason l r st') as Hr' by (unfold pair_reachable in *; by etrans).
  all: pose proof (pair_reachable_inv _ _ _ _ _ Hr') as Hi; destruct Hret as (Hpc & Hld & Hrd).
  all: destruct st' as [rn pc]; cbn in *; subst pc.
  all: destruct (pair_First (runner_outcome rn)); [destruct Hi; congruence|..];
    destruct Hi as [Hw Hdn Hfree Ha Hc Hdisc Ho Haw]; rewrite <- Hl, <- Hrt; auto.
Qed.

End PairFacts.

Section Resolvers.
  Context {V : Type}.

(** C6. [ZipPar] succeeds exactly when both branches do, with both values in
    place. When it fails, some branch failed without having been asked to stop,
    and every failure of either branch is in the result, left before right,
    except interruptions with the reason this kind of composition stops a branch
    with. A branch is left out only if it has nothing but such interruptions,
    whether this composition stopped it or an enclosing one of the same kind; of
    one that failed as well, or was stopped for another reason, everything is
    kept. The causes are ones the package builds. *)
Theorem ZipPar_keeps_failures {A B} `{Erased V A} `{Erased V B} `{Erased V (Product A B)}
    (l r : Z) (st : pairRunner V * pair_pc) :
  pair_reachable settleOnFailure ErrSiblingFailed l r st -> wait_returned st ->
  let o := runner_outcome (fst st) in
  let x := bothResults (A := A) (B := B) o ErrSiblingFailed in
  let failures branch := leaves (ExitCause branch) in
  let stopped branch := only_stopped ErrSiblingFailed (failures branch) in
  IsSuccess x = IsSuccess (pair_Left o) && IsSuccess (pair_Right o)
  /\ (IsSuccess x = true ->
        x = ExitSuccess (erase (ProductOf (asValue (A := A) (ExitValue (pair_Left o)))
                                          (asValue (A := B) (ExitValue (pair_Right o))))))
  /\ (IsSuccess x = false ->
        (IsSuccess (pair_Left o) = false /\ fiber_cancelled (leftFiber (fst st)) = None)
        \/ (IsSuccess (pair_Right o) = false /\ fiber_cancelled (rightFiber (fst st)) = None))
  /\ (IsSuccess x = false ->
        cause_wf (ExitCause (pair_Left o)) = true -> cause_wf (ExitCause (pair_Right o)) = true ->
        own_failures ErrSiblingFailed (failures x)
        = own_failures ErrSiblingFailed (failures (pair_Left o))
          ++ own_failures ErrSiblingFailed (failures (pair_Right o))
        /\ (stopped (pair_Left o) && stopped (pair_Right o) = false ->
            failures x = (if stopped (pair_Left o) then [] else failures (pair_Left o))
                         ++ (if stopped (pair_Right o) then [] else failures (pair_Right o)))).
Proof.
  intros Hr (Hpc & Hl & Hrd). pose proof (pair_reachable_inv _ _ _ _ _ Hr) as Hi.
  destruct st as [rn pc]; cbn in *. subst pc. unfold bothResults.
  set (o := runner_outcome rn) in *.
  destruct (IsSuccess (pair_Left o) && IsSuccess (pair_Right o)) eqn:Hboth; cbn; split_and!; try done.
  - intros _. apply andb_false_iff in Hboth.
    destruct (pair_First o); try (destruct Hi; congruence);
      destruct Hi as [Hw Hd Hfree Ha Hc Hdisc Ho Haw]; unfold settleOnFailure in *;
      destruct (IsSuccess (pair_Left o)) eqn:HL, (IsSuccess (pair_Right o)) eqn:HR;
      cbn in *; auto; by destruct Hboth.
  - intros _ HL HR. split; [by apply own_failures_CombineParallelCauses|].
    intros Hs. rewrite leaves_CombineParallelCauses, Hs by done. done.
Qed.

(** Races: [Race] succeeds exactly when some branch does, with the exit of a
    branch that succeeded, the one seen first if both did, and a branch is only
    stopped once the other has succeeded; [RaceFirst] is the exit of the branch
    seen first, whatever it is, and the other is always asked to stop. *)
Theorem races_pick_the_winner (l r : Z) (st : pairRunner V * pair_pc) :
  (pair_reachable settleOnSuccess ErrRaceLost l r st -> wait_returned st ->
   let o := runner_outcome (fst st) in
   let x := firstSuccess o ErrRaceLost in
   IsSuccess x = IsSuccess (pair_Left o) || IsSuccess (pair_Right o)
   /\ (IsSuccess x = true -> x = (if IsSuccess (pair_Left o)
         then if IsSuccess (pair_Right o)
              then if bool_decide (pair_First o = LeftSide) then pair_Left o else pair_Right o
              else pair_Left o
         else pair_Right o))
   /\ (fiber_cancelled (leftFiber (fst st)) <> None -> IsSuccess (pair_Right o) = true)
   /\ (fiber_cancelled (rightFiber (fst st)) <> None -> IsSuccess (pair_Left o) = true))
  /\ (pair_reachable settleAlways ErrRaceLost l r st -> wait_returned st ->
      let o := runner_outcome (fst st) in
      firstCompletion o ErrRaceLost
      = (if bool_decide (pair_First o = LeftSide) then pair_Left o else pair_Right o)
      /\ cancelled_by ErrRaceLost (bool_decide (pair_First o = LeftSide))
         = fiber_cancelled (rightFiber (fst st))
      /\ cancelled_by ErrRaceLost (bool_decide (pair_First o = RightSide))
         = fiber_cancelled (leftFiber (fst st))).
Proof.
  split; intros Hr (Hpc & Hl & Hrd); pose proof (pair_reachable_inv _ _ _ _ _ Hr) as Hi;
    destruct st as [[lf rf ld rd [xl xr first]] pc]; cbn in *; subst pc ld rd.
  - unfold firstSuccess, pickSuccess, settleOnSuccess in *; cbn.
    destruct first; [destruct Hi; congruence|..];
      destruct Hi as [Hw Hd Hfree Ha Hc Hdisc Ho Haw];
      destruct (IsSuccess xl) eqn:HL, (IsSuccess xr) eqn:HR; cbn in *; rewrite ?HL, ?HR;
      split_and!; try done; congruence.
  - unfold firstCompletion, settleAlways in *; cbn.
    destruct first; [destruct Hi; congruence|..];
      destruct Hi as [Hw Hd Hfree Ha Hc Hdisc Ho Haw]; cbn in *; rewrite Hc, Hfree; done.
Qed.

(** C29. Timeouts: the work against a sleep, settled by whichever is seen first; both
    have terminated when the timeout returns, each with its exit in its place. Work
    seen first is the result, unasked to stop, and the clock is told to stop. When the
    clock has fired first the work has been told to stop, with the timeout's own
    reason: the result is the timeout's if the work left no failure, or none but
    interruptions for that reason; and if it failed of itself or in its cleanup, all
    its failures are kept, the timeout's before them. *)
Theorem timeouts_wait_and_keep_cleanup (onTimeout : Exit V) (l r : Z) (st : pairRunner V * pair_pc) :
  pair_reachable settleAlways ErrTimedOut l r st -> wait_returned st ->
  let o := runner_outcome (fst st) in
  let x := timeoutResolver onTimeout o ErrTimedOut in
  let work := leaves (ExitCause (pair_Left o)) in
  fiber_Wait (leftFiber (fst st)) = Some (pair_Left o)
  /\ fiber_Wait (rightFiber (fst st)) = Some (pair_Right o)
  /\ (pair_First o = LeftSide \/ pair_First o = RightSide)
  /\ (pair_First o = LeftSide ->
       x = pair_Left o /\ fiber_cancelled (leftFiber (fst st)) = None
       /\ fiber_cancelled (rightFiber (fst st)) = Some ErrTimedOut)
  /\ (pair_First o = RightSide -> IsSuccess (pair_Right o) = true ->
       cause_wf (ExitCause (pair_Left o)) = true ->
       fiber_cancelled (leftFiber (fst st)) = Some ErrTimedOut
       /\ fiber_cancelled (rightFiber (fst st)) = None
       /\ (work = [] \/ only_stopped ErrTimedOut work = true -> x = onTimeout)
       /\ (work <> [] -> only_stopped ErrTimedOut work = false ->
            IsSuccess x = false /\ leaves (ExitCause x) = leaves (ExitCause onTimeout) ++ work)).
Proof.
  intros Hr Hret o x work. destruct (pair_waits_for_both _ _ _ _ _ Hr Hret) as (Hl & Hw & Hf & Hcl & Hcr).
  fold o in Hl, Hw, Hf, Hcl, Hcr. unfold settleAlways in Hcl, Hcr.
  split_and!; [done|done|by destruct (pair_First o); auto| |].
  - intros HF. unfold x, timeoutResolver. rewrite HF in *. done.
  - intros HF Hfired Hwf. unfold x, timeoutResolver. rewrite HF in *. split_and!; [done..| |].
    all: rewrite Hfired, IsInduced_only_stopped, bool_decide_eq_true_2 by done; fold work; cbn [andb negb].
    + intros [Hno| ->]; [|by rewrite orb_true_r]. by rewrite (wf_leaves_nil _ Hwf Hno).
    + intros Hne ->. destruct (IsEmpty (ExitCause (pair_Left o))) eqn:He.
      { by apply leaves_empty in He. }
      split; [done|]. apply leaves_Then.
Qed.

(** A clock that fails is seen first too, but has not fired: the work is told to stop,
    what it comes to is the result, and the clock's failure is in it nowhere. *)
Theorem failing_clocks_are_dropped (onTimeout : Exit V) (l r : Z) (st : pairRunner V * pair_pc) :
  pair_reachable settleAlways ErrTimedOut l r st -> wait_returned st ->
  let o := runner_outcome (fst st) in
  pair_First o = RightSide -> IsSuccess (pair_Right o) = false ->
  timeoutResolver onTimeout o ErrTimedOut = pair_Left o
  /\ fiber_cancelled (leftFiber (fst st)) = Some ErrTimedOut.
Proof.
  intros Hr Hret o HF Hfailed. destruct (pair_waits_for_both _ _ _ _ _ Hr Hret) as (_ & _ & _ & Hcl & _).
  fold o in Hcl. rewrite HF in Hcl. split; [|exact Hcl]. unfold timeoutResolver. by rewrite HF, Hfailed.
Qed.

(** A composition that is itself being cancelled by an enclosing one of the
    same kind takes the enclosing cancellation for its own: it drops it, and
    reports a failure without any cause. *)
Theorem nested_cancellation_is_lost {A B} `{Erased V A} `{Erased V B} `{Erased V (Product A B)}
    `{Erased V (list B)} (n : nat) (value : option V) (side : Side) :
  let stopped := ExitFailure (InterruptCause (Some ErrSiblingFailed)) in
  collectResults (B := B) (replicate (S n) stopped) = ExitFailure zeroCause
  /\ bothResults (A := A) (B := B) (MkPair (ExitSuccess value) stopped side) ErrSiblingFailed
     = ExitFailure zeroCause.
Proof.
  intros stopped. split; [|done]. unfold collectResults; cbn -[CombineBranchCauses].
  f_equal. unfold CombineBranchCauses. cbn [replicate].
  assert (forall k acc, foldl (fun result exit => let cause := ExitCause exit in
    if IsInduced cause (Some ErrSiblingFailed) then result else Both result cause) acc
    (replicate k stopped) = acc) as Hk.
  { intros k. induction k as [|k IH]; intros acc; cbn [replicate foldl]; [done|]. apply IH. }
  exact (Hk (S n) zeroCause).
Qed.

End Resolvers.

(** * Collections *)

Section GroupFacts.
  Context {V : Type}.
  #[local] Abbreviation group := (group V).
  #[local] Abbreviation branch := (branch V).

(** The exit of a branch's body, once it is known. *)
Definition body_exit (b : branch) : option (Exit V) :=
  match b with
  | finished exit | terminated exit _ => Some exit
  | _ => None
  end.

Definition has_finished (b : branch) : bool := bool_decide (is_Some (body_exit b)).

Definition count_of (p : branch -> bool) (bs : list branch) : nat :=
  length (filter (fun b => p b = true) bs).

Lemma count_of_cons p b bs : count_of p (b :: bs) = (if p b then 1 else 0) + count_of p bs.
Proof. unfold count_of. rewrite filter_cons. destruct (p b) eqn:E; by case_decide. Qed.

Lemma count_of_insert p (bs : list branch) i b b' :
  bs !! i = Some b ->
  count_of p (<[i := b']> bs) + (if p b then 1 else 0) = count_of p bs + (if p b' then 1 else 0).
Proof.
  revert i. induction bs as [|x bs IH]; intros [|i]; [done|done|..].
  - intros [= ->]. change (<[0:=b']> (b :: bs)) with (b' :: bs). rewrite !count_of_cons. lia.
  - intros Hi. change (<[S i:=b']> (x :: bs)) with (x :: <[i:=b']> bs).
    rewrite !count_of_cons. specialize (IH i Hi). lia.
Qed.

Lemma in_flight_count (bs : list branch) : in_flight bs = count_of holds_permit bs.
Proof. done. Qed.

Lemma count_of_length p (bs : list branch) :
  count_of p bs <= length bs
  /\ (count_of p bs = length bs -> forall b, b ∈ bs -> p b = true).
Proof.
  induction bs as [|b bs [IH1 IH2]]; [split; [done|set_solver]|].
  rewrite count_of_cons; cbn. destruct (p b) eqn:E; split; try lia.
  intros Heq x [->|Hx]%elem_of_cons; [done|]. apply IH2; [lia|done].
Qed.

Record group_ok (permits : option nat) (total : nat) (g : group) : Prop := {
  g_total : length (branches g) = total;
  g_flight : forall n, permits = Some n -> in_flight (branches g) <= n;
  g_sent : received g + length (completions g) = count_of has_finished (branches g);
  g_pending : forall i x, (i, x) ∈ completions g ->
                exists b, branches g !! i = Some b /\ body_exit b = Some x;
  g_failed : forall i b x, branches g !! i = Some b -> body_exit b = Some x ->
               IsSuccess x = false -> (i, x) ∈ completions g \/ abandoned g = true;
  g_abandoned : abandoned g = true ->
               is_Some (group_cancelled g)
               /\ exists i b x, branches g !! i = Some b /\ body_exit b = Some x
                    /\ IsSuccess x = false
}.

Lemma startAll_ok permits total cancelled : group_ok permits total (startAll total cancelled).
Proof.
  assert (forall p, p queued = false -> count_of p (replicate total (queued (V := V))) = 0) as Hz.
  { intros p Hp. induction total as [|n IH]; [done|]. cbn [replicate].
    by rewrite count_of_cons, Hp, IH. }
  constructor; cbn -[in_flight count_of].
  - apply length_replicate.
  - intros n _. rewrite in_flight_count, Hz by done. lia.
  - by rewrite Hz.
  - set_solver.
  - intros i b x Hb Hx. apply lookup_replicate in Hb as [-> _]. done.
  - done.
Qed.

(** A branch whose body's exit is not known yet changes without sending. *)
Lemma set_branch_ok permits total g i b b' :
  group_ok permits total g -> branches g !! i = Some b -> body_exit b' = body_exit b ->
  (forall n, permits = Some n -> holds_permit b' = true -> in_flight (branches g) < n) ->
  group_ok permits total (set_branch i b' g).
Proof.
  intros [Ht Hf Hs Hp Hx Ha] Hb Hsame Hpermit.
  pose proof (count_of_insert holds_permit _ _ _ b' Hb) as Hh.
  pose proof (count_of_insert has_finished _ _ _ b' Hb) as Hc.
  assert (has_finished b' = has_finished b) as Hfin by (unfold has_finished; by rewrite Hsame).
  constructor; cbn -[in_flight count_of].
  - by rewrite length_insert.
  - intros n Hn. specialize (Hf n Hn). specialize (Hpermit n Hn). rewrite in_flight_count in *.
    destruct (holds_permit b'); [specialize (Hpermit eq_refl)|]; destruct (holds_permit b); lia.
  - rewrite Hfin in Hc. lia.
  - intros j x Hj. destruct (Hp j x Hj) as (c & Hc' & Hcx).
    destruct (decide (i = j)) as [<-|Hne].
    + exists b'. rewrite list_lookup_insert_eq by (by eapply lookup_lt_Some). split; [done|]. congruence.
    + exists c. by rewrite list_lookup_insert_ne.
  - intros j c x Hj Hcx. apply list_lookup_insert_Some in Hj as [(-> & <- & _)|[? Hj]]; [|eauto].
    apply (Hx j b x Hb). congruence.
  - intros H. destruct (Ha H) as (? & j & c & x & Hj & Hcx & Hfail). split; [done|].
    destruct (decide (i = j)) as [<-|Hne].
    + exists i, b', x. rewrite list_lookup_insert_eq by (by eapply lookup_lt_Some). split_and!; [done| |done].
      congruence.
    + exists j, c, x. by rewrite list_lookup_insert_ne.
Qed.

Lemma recordOutcome_ok permits total g i b x :
  group_ok permits total g -> branches g !! i = Some b -> body_exit b = None ->
  group_ok permits total (recordOutcome i x g).
Proof.
  intros [Ht Hf Hs Hp Hx Ha] Hb Hnone.
  pose proof (count_of_insert holds_permit _ _ _ (finished x) Hb) as Hh.
  pose proof (count_of_insert has_finished _ _ _ (finished x) Hb) as Hc.
  assert (has_finished b = false) as Hfb
    by (unfold has_finished; rewrite Hnone, bool_decide_eq_false; by intros [? ?]).
  assert (has_finished (finished x) = true) as Hfx
    by (unfold has_finished; rewrite bool_decide_eq_true; cbn; eauto).
  assert (i < length (branches g)) as Hlt by (by eapply lookup_lt_Some).
  constructor; cbn -[in_flight count_of].
  - by rewrite length_insert.
  - intros n Hn. specialize (Hf n Hn). rewrite in_flight_count in *. cbn in Hh.
    destruct (holds_permit b); lia.
  - rewrite length_app; cbn. rewrite Hfb, Hfx in Hc. lia.
  - intros j y. rewrite elem_of_app, list_elem_of_singleton. intros [Hj|[= -> ->]].
    + destruct (Hp j y Hj) as (c & Hcj & Hcy). destruct (decide (i = j)) as [<-|Hne]; [congruence|].
      exists c. by rewrite list_lookup_insert_ne.
    + exists (finished x). by rewrite list_lookup_insert_eq.
  - intros j c y Hj Hcy Hfail. rewrite elem_of_app, list_elem_of_singleton.
    apply list_lookup_insert_Some in Hj as [(-> & <- & _)|[? Hj]].
    + injection Hcy as ->. by left; right.
    + destruct (Hx j c y Hj Hcy Hfail); auto.
  - intros H. destruct (Ha H) as (? & j & c & y & Hj & Hcy & Hfail). split; [done|].
    exists j, c, y. destruct (decide (i = j)) as [<-|Hne]; [congruence|].
    by rewrite list_lookup_insert_ne.
Qed.

Lemma receive_ok permits total reason g g' :
  group_ok permits total g -> receive_completion reason g = Some g' ->
  group_ok permits total g' /\ branches g' = branches g /\ received g' = S (received g).
Proof.
  intros [Ht Hf Hs Hp Hx Ha]. unfold receive_completion.
  destruct (completions g) as [|[i x] rest] eqn:Hc; [done|]. cbn in Hs.
  destruct (IsSuccess x || abandoned g) eqn:Hq; intros [= <-]; (split; [|done]);
    constructor; cbn -[in_flight count_of]; try done; try lia.
  - intros j y Hj. apply Hp. set_solver.
  - intros j b y Hj Hb Hfail. destruct (Hx j b y Hj Hb Hfail) as [[[= -> ->]|]%elem_of_cons|]; auto.
    rewrite Hfail in Hq. cbn in Hq. auto.
  - intros j y Hj. apply Hp. set_solver.
  - intros _. apply orb_false_elim in Hq as [Hq _]. split.
    + unfold cancel_once. destruct (group_cancelled g); eauto.
    + destruct (Hp i x) as (b & Hb & Hbx); [set_solver|]. eauto 6.
Qed.

Lemma group_step_ok permits total reason g g' :
  group_step permits reason g g' -> group_ok permits total g -> group_ok permits total g'.
Proof.
  destruct 1 as [g i Hq Hn|g i why Hq Hn Hc|g i x Hr|g i x c Hf|g g' Hlt Hr|g why]; intros Hok.
  - eapply set_branch_ok; eauto.
  - eapply recordOutcome_ok; eauto.
  - eapply recordOutcome_ok; eauto.
  - eapply set_branch_ok; eauto; done.
  - by eapply receive_ok.
  - destruct Hok as [Ht Hf Hs Hp Hx Ha]. constructor; cbn -[in_flight count_of]; try done.
    intros H. destruct (Ha H) as ([? Hsome] & ?). split; [|done].
    unfold cancel_once. rewrite Hsome. eauto.
Qed.

Lemma group_steps_ok permits total reason g g' :
  rtc (group_step permits reason) g g' -> group_ok permits total g -> group_ok permits total g'.
Proof. induction 1; eauto using group_step_ok. Qed.

Definition group_reachable (limit : Z) (total : nat) (reason : error) (g : group) : Prop :=
  exists cancelled,
    rtc (group_step (permitsFor limit total) reason) (startAll total cancelled) g.

Lemma group_reachable_ok limit total reason g :
  group_reachable limit total reason g -> group_ok (permitsFor limit total) total g.
Proof.
  intros (cancelled & Hr). eapply group_steps_ok; [exact Hr|]. apply startAll_ok.
Qed.

(** ** Progress *)

Definition branch_rest (b : branch) : nat :=
  match b with queued => 3 | running => 2 | finished _ => 1 | terminated _ _ => 0 end.

Definition group_rest (total : nat) (g : group) : nat :=
  sum_list_with branch_rest (branches g) + (total - received g).

Lemma rest_insert (bs : list branch) i b b' :
  bs !! i = Some b ->
  sum_list_with branch_rest (<[i := b']> bs) + branch_rest b
  = sum_list_with branch_rest bs + branch_rest b'.
Proof.
  revert i. induction bs as [|x bs IH]; intros [|i]; [done|done|..].
  - intros [= ->]. change (<[0:=b']> (b :: bs)) with (b' :: bs). cbn -[branch_rest]. lia.
  - intros Hi. change (<[S i:=b']> (x :: bs)) with (x :: <[i:=b']> bs).
    cbn -[branch_rest]. specialize (IH i Hi). lia.
Qed.

Lemma find_branch (p : branch -> bool) (bs : list branch) :
  (exists i b, bs !! i = Some b /\ p b = true) \/ forall b, b ∈ bs -> p b = false.
Proof.
  induction bs as [|x bs [(i & b & Hb & Hp)|IH]]; [right; set_solver|left; by exists (S i), b|].
  destruct (p x) eqn:E; [left; by exists 0, x|]. right. intros b [->|Hb]%elem_of_cons; auto.
Qed.

Lemma count_of_all p (bs : list branch) :
  (forall b, b ∈ bs -> p b = true) -> count_of p bs = length bs.
Proof.
  induction bs as [|x bs IH]; intros H; [done|]. rewrite count_of_cons, (H x), IH by set_solver. done.
Qed.

Lemma count_of_none p (bs : list branch) : (forall b, b ∈ bs -> p b = false) -> count_of p bs = 0.
Proof.
  induction bs as [|x bs IH]; intros H; [done|]. rewrite count_of_cons, (H x), IH by set_solver. done.
Qed.

Definition is_running (b : branch) : bool := match b with running => true | _ => false end.
Definition is_finished (b : branch) : bool := match b with finished _ => true | _ => false end.
Definition is_queued (b : branch) : bool := match b with queued => true | _ => false end.

Definition all_collected (total : nat) (g : group) : Prop :=
  received g = total /\ is_Some (collect g).

Lemma group_progress permits total reason g :
  group_ok permits total g -> (forall n, permits = Some n -> 0 < n) ->
  all_collected total g
  \/ exists g', group_step permits reason g g' /\ group_rest total g' < group_rest total g.
Proof.
  intros Hok Hpos.
  destruct (find_branch is_running (branches g)) as [(i & b & Hb & Hp)|Hrun].
  { destruct b; try done. right. exists (recordOutcome i (zero (Exit V)) g). split; [by constructor|].
    unfold group_rest; cbn -[branch_rest].
    pose proof (rest_insert _ _ _ (finished (zero (Exit V))) Hb) as Hr. cbn in Hr. lia. }
  destruct (find_branch is_finished (branches g)) as [(i & b & Hb & Hp)|Hfin].
  { destruct b as [| |x|]; try done. right. eexists. split; [by apply (fiber_terminates _ _ g i x zeroCause)|].
    unfold group_rest; cbn -[branch_rest composeCleanup].
    pose proof (rest_insert _ _ _ (terminated x (composeCleanup x zeroCause)) Hb) as Hr.
    cbn [branch_rest] in Hr. lia. }
  destruct (find_branch is_queued (branches g)) as [(i & b & Hb & Hp)|Hq].
  { destruct b; try done. right. exists (set_branch i running g). split.
    - constructor; [done|]. intros n Hn. rewrite in_flight_count, count_of_none; [auto|].
      intros b Hin. specialize (Hrun b Hin). by destruct b.
    - unfold group_rest; cbn -[branch_rest].
      pose proof (rest_insert _ _ _ running Hb) as Hr. cbn in Hr. lia. }
  assert (forall b, b ∈ branches g -> exists x y, b = terminated x y) as Hall.
  { intros b Hb. specialize (Hrun b Hb). specialize (Hfin b Hb). specialize (Hq b Hb).
    destruct b; cbn in *; try done. eauto. }
  destruct Hok as [Ht Hf Hs Hpend Hx Ha].
  rewrite count_of_all in Hs.
  2:{ intros b Hb. destruct (Hall b Hb) as (x & y & ->). apply bool_decide_eq_true. cbn. eauto. }
  destruct (decide (received g = total)) as [Hr|Hr].
  - left. split; [done|]. unfold collect. apply mapM_is_Some_2, Forall_forall. intros b Hb.
    destruct (Hall b Hb) as (x & y & ->). cbn. eauto.
  - right. destruct (completions g) as [|[i x] rest] eqn:Hc; [cbn in Hs; lia|].
    destruct (receive_completion reason g) as [g'|] eqn:Hrec.
    2:{ unfold receive_completion in Hrec. rewrite Hc in Hrec. by destruct (_ || _). }
    exists g'. split; [apply receives; [cbn in Hs; lia|done]|].
    unfold receive_completion in Hrec. rewrite Hc in Hrec. cbn in Hs.
    destruct (_ || _); injection Hrec as <-; unfold group_rest; cbn; lia.
Qed.

Lemma group_completes permits total reason n g :
  group_rest total g < n -> group_ok permits total g -> (forall k, permits = Some k -> 0 < k) ->
  exists g', rtc (group_step permits reason) g g' /\ all_collected total g'.
Proof.
  revert g. induction n as [|n IH]; intros g Hn Hok Hpos; [lia|].
  destruct (group_progress permits total reason g Hok Hpos) as [Hret|(g1 & Hs & Hlt)].
  - exists g. split; [constructor|exact Hret].
  - destruct (IH g1) as (g' & Hst & Hret); [lia|by eapply group_step_ok|done|].
    exists g'. split; [by eapply rtc_l|exact Hret].
Qed.

Lemma permitsFor_spec limit total n :
  permitsFor limit total = Some n -> (0 < limit)%Z /\ n = Z.to_nat limit.
Proof.
  unfold permitsFor. destruct (Z.leb_spec limit 0); cbn; [done|].
  destruct (Z.leb_spec (Z.of_nat total) limit); [done|]. intros [= <-]. lia.
Qed.


Lemma collect_values_spec {B} `{Erased V B} (exits : list (Exit V)) :
  collect_values (B := B) exits
  = if forallb IsSuccess exits then Some (map (fun x => asValue (ExitValue x)) exits) else None.
Proof.
  induction exits as [|x exits IH]; cbn; [done|]. destruct (IsSuccess x); cbn; [|done].
  rewrite IH. by destruct (forallb IsSuccess exits).
Qed.

(** A collection succeeds exactly when every branch does, with their values
    in input order; otherwise its cause is, in input order, everything the
    branches reported except those that only stopped because they were told to. *)
Theorem collectResults_in_order {B} `{Erased V B} `{Erased V (list B)} (exits : list (Exit V)) :
  collectResults (B := B) exits
  = (if forallb IsSuccess exits
     then ExitSuccess (erase (map (fun x => asValue (A := B) (ExitValue x)) exits))
     else ExitFailure (CombineBranchCauses exits (Some ErrSiblingFailed)))
  /\ leaves (CombineBranchCauses exits (Some ErrSiblingFailed))
     = flat_map (independent_leaves (Some ErrSiblingFailed)) exits.
Proof.
  split.
  - unfold collectResults. rewrite collect_values_spec. by destruct (forallb IsSuccess exits).
  - unfold CombineBranchCauses. by rewrite foldl_branch_leaves.
Qed.

End GroupFacts.
