(* ===== verification/Pairs.v ===== *)
(** Two branches at once as an effect ([effect/internal/runtime/parallel.go],
    [effect/concurrency.go], [effect/timeout.go]): a private scope, a fiber for each
    branch, the composition's own goroutine over their cells, and the resolver.

    A turn of the composition is a turn of the machine of [Parallel] on the cells of
    the two fibers; what the branches do is what happens while it waits.

    A composition of two effects is a run of the machine of [Parallel]. *)

From stdpp Require Import relations.
From S2P Require Import Prelude Outcome Traversal OutcomeFacts Cause Interpreter InterpreterFacts Algebra Effects EffectsFacts Observation Calls Queue Completion Scope Time State RuntimePort Lifetimes Waiting Handles Retry Parallel ParallelFacts.

(** [fmt.Errorf("effect: fresh scope rejected a parallel branch")]. *)
Definition rejected_branch : error := MkError 508 "effect: fresh scope rejected a parallel branch" [].

Section Pairs.
  Context {V World Ctx Attr FS Logger F : Type} `{Waiting World Ctx}.
  Context `{FinalizerOps F V World Ctx} `{Heap World (Scope V F)} `{Heap World (Fiber V)}.
  Context `{Heap World identifiers} `{Heap World Ledger}.
  Context `{!ScopeContexts V World Ctx F} `{!ScopeChildren V World F}.
  Context (error_value : error -> V) (unsupported : error).
  Context (zero_effect nil_dereference stuck : Panic V).
  #[local] Abbreviation State := (@State V World Ctx Attr FS Logger).
  #[local] Abbreviation Effect := (@Effect V World Ctx State).
  #[local] Abbreviation call := (call V World).
  Context {W : Type} (call_work : W -> Ctx -> State -> call (Exit V)).
  Context (go : nat -> Ctx -> State -> W -> World -> World) (identifiers_cell : nat).
  (** Which case a select takes when both are ready. *)
  Context (pick : World -> Side).
  Context `{Erased V (PairOutcome V)}.
  #[local] Abbreviation start_fiber := (start_fiber (F := F) nil_dereference go identifiers_cell).

(** * [RunPair] *)

(** The zero [outcome.PairOutcome]. *)
Definition zero_pair : PairOutcome V := MkPair (zero (Exit V)) (zero (Exit V)) NeitherSide.

(** The two fibers' cells, what is left in the select, and the outcome so far. *)
Definition runner_at (left right : nat) (ld rd : bool) (o : PairOutcome V) (w : World)
    : option (pairRunner V) :=
  l ← heap_get left w; r ← heap_get right w; Some (MkRunner l r ld rd o).

Definition set_fibers (left right : nat) (r : pairRunner V) (w : World) : World :=
  heap_set right (rightFiber r) (heap_set left (leftFiber r) w).

(** The case a select over the two completion channels takes. *)
Definition ready_side (r : pairRunner V) (w : World) : option Side :=
  let l := leftDone r && Completion.done (terminal (leftFiber r)) in
  let r := rightDone r && Completion.done (terminal (rightFiber r)) in
  match l, r with
  | true, true => Some (match pick w with RightSide => RightSide | _ => LeftSide end)
  | true, false => Some LeftSide
  | false, true => Some RightSide
  | false, false => None
  end.

(** One turn of the loop of [wait], up to the wait of an interruption. *)
Definition select_at (settle : SettlePolicy) (reason : error) (left right : nat) (ld rd : bool)
    (o : PairOutcome V) (w : World) : option ((pairRunner V * pair_pc) * World) :=
  r ← runner_at left right ld rd o w;
  side ← ready_side r w;
  '(r, pc) ← select_turn settle reason side r;
  Some ((r, pc), set_fibers left right r w).

(** The wait of an interruption: nothing cancels it. *)
Definition await_at (pc : pair_pc) (left right : nat) (ld rd : bool) (o : PairOutcome V) (w : World)
    : option (pairRunner V * World) :=
  r ← runner_at left right ld rd o w; '(r, _) ← await_turn pc r; Some (r, w).

Fixpoint wait_turns (turns : nat) (settle : SettlePolicy) (reason : error) (ctx : Ctx)
    (left right : nat) (ld rd : bool) (o : PairOutcome V) : call (PairOutcome V) :=
  if negb (ld || rd) then call_ret o else
  match turns with
  | 0 => call_panic stuck
  | S turns =>
      let! (r, pc) := await_alone stuck ctx (select_at settle reason left right ld rd o) in
      let! r :=
        match pc with
        | selecting => call_ret r
        | _ => await_alone stuck ctx
                 (await_at pc left right (leftDone r) (rightDone r) (runner_outcome r))
        end in
      wait_turns turns settle reason ctx left right (leftDone r) (rightDone r) (runner_outcome r)
  end.

(** [runner.wait(settle)]: each turn removes a channel from the select, so there are
    at most two. *)
Definition wait_pair (settle : SettlePolicy) (reason : error) (ctx : Ctx) (left right : nat)
    : call (PairOutcome V) :=
  wait_turns 2 settle reason ctx left right true true zero_pair.

(** [startPair]; [scope.Context()] is the branches' context. *)
Definition startPair_at (scope : nat) (ctx : Ctx) (state : State) (left right : W)
    : call ((nat * nat) + Cause V) :=
  let! leftFiber := start_fiber scope (scope_ctx scope ctx) state left in
  let! rightFiber := start_fiber scope (scope_ctx scope ctx) state right in
  match leftFiber, rightFiber with
  | Some l, Some r => call_ret (inl (l, r))
  | _, _ => call_ret (inr (DieCause (MkDefect (Some (error_value rejected_branch)) EmptyString)))
  end.

Definition RunPair (i : Interpretation V Ctx State) (left right : W) (settle : SettlePolicy)
    (reason : error) : call (PairOutcome V * Cause V) :=
  let ctx := interp_Context i in
  let! scope := alloc (T := Scope V F) NewScope in
  let! started := startPair_at scope ctx (interp_State i) left right in
  match started with
  | inr unavailable => call_ret (zero_pair, unavailable)
  | inl (l, r) =>
      let! o := wait_pair settle reason ctx l r in
      let! cleanup := scope_Close (F := F) nil_dereference scope ctx (ExitSuccess (erase o)) reason in
      call_ret (o, cleanup)
  end.

(** * Compositions of two ([concurrency.go]) *)

Section Compositions.
  Context {R E : Type} `{Erased V R}.
  #[local] Abbreviation Work := (Work error_value unsupported zero_effect (R := R) (E := E) call_work).

Definition pairResults {A B C} (fx : Work A) (that : Work B) (settle : SettlePolicy)
    (cancelReason : error) (resolve : PairOutcome V -> error -> Exit V) : Effect R E C :=
  fromRuntime (fun ctx state env =>
    let! (o, cleanup) :=
      RunPair (MkInterpretation ctx state (erase env)) (captured_work fx env) (captured_work that env)
        settle cancelReason in
    call_ret (composeCleanup (resolve o cancelReason) cleanup)).

Definition ZipPar {A B} `{Erased V A} `{Erased V B} `{Erased V (Product A B)} (fx : Work A)
    (that : Work B) : Effect R E (Product A B) :=
  pairResults fx that settleOnFailure ErrSiblingFailed (bothResults (A := A) (B := B)).

Definition Race {A} (fx that : Work A) : Effect R E A :=
  pairResults fx that settleOnSuccess ErrRaceLost firstSuccess.

Definition RaceFirst {A} (fx that : Work A) : Effect R E A :=
  pairResults fx that settleAlways ErrRaceLost firstCompletion.

(** A branch that is this effect. *)
Definition WorkOf {A} (fx : Effect R E A) : Type := { branch : Work A | work_effect branch = fx }.

(** * Timeouts ([timeout.go]) *)

  Context `{Erased V unit} (clock_failed : error -> Panic V).
  #[local] Abbreviation Sleep := (Sleep clock_failed (R := R) (E := E)).

Definition raceTheClock {A} (fx : Work A) (duration : Duration) (clock : WorkOf (Sleep duration))
    (onTimeout : Exit V) : Effect R E A :=
  pairResults fx (proj1_sig clock) settleAlways ErrTimedOut (timeoutResolver onTimeout).

Definition Timeout {A} `{Erased V A} `{Erased V (Either unit A)} (fx : Effect R E A)
    (duration : Duration) (branch : WorkOf (Map zero_effect fx (fun a => call_ret (EitherRight a))))
    (clock : WorkOf (Sleep duration)) : Effect R E (Either unit A) :=
  raceTheClock (proj1_sig branch) duration clock
    (ExitSuccess (erase (EitherLeft tt : Either unit A))).

Definition TimeoutFail {A} `{Erased V E} (fx : Work A) (duration : Duration)
    (clock : WorkOf (Sleep duration)) (onTimeout : E) : Effect R E A :=
  raceTheClock fx duration clock (ExitFailure (FailCauseOf onTimeout)).

Definition TimeoutTo {A} `{Erased V A} (fx : Work A) (duration : Duration)
    (clock : WorkOf (Sleep duration)) (fallback : A) : Effect R E A :=
  raceTheClock fx duration clock (ExitSuccess (erase fallback)).
End Compositions.

(** Different channels: each branch is widened to carry both. *)
Definition ZipParChannels {R R2 E E2 A B} `{Erased V R} `{Erased V R2} `{Erased V E} `{Erased V E2}
    `{Erased V (Product R R2)} `{Erased V (Either E E2)} `{Erased V A} `{Erased V B}
    `{Erased V (Product A B)} (fx : Effect R E A) (that : Effect R2 E2 B)
    (left : WorkOf (asLeftComponent zero_effect (R2 := R2) (E2 := E2) fx))
    (right : WorkOf (asRightComponent zero_effect (R := R) (E := E) that))
    : Effect (Product R R2) (Either E E2) (Product A B) :=
  ZipPar (proj1_sig left) (proj1_sig right).
End Pairs.

#[export] Instance pair_pc_eq_dec : EqDecision pair_pc.
Proof. solve_decision. Defined.

Section Pairs.
  Context {V World Ctx Attr FS Logger F : Type} `{Waiting World Ctx}.
  Context `{FinalizerOps F V World Ctx} `{Heap World (Scope V F)} `{Heap World (Fiber V)}.
  Context `{Heap World identifiers} `{Heap World Ledger}.
  Context `{!ScopeContexts V World Ctx F} `{!ScopeChildren V World F}.
  Context `{!HeapsApart World (Scope V F) (Fiber V)} `{!HeapsApart World identifiers (Fiber V)}.
  Context `{!HeapsApart World Ledger (Fiber V)}.
  Context (error_value : error -> V) (unsupported : error).
  Context (zero_effect nil_dereference stuck : Panic V).
  #[local] Abbreviation State := (@State V World Ctx Attr FS Logger).
  Context {W : Type} (call_work : W -> Ctx -> State -> call V World (Exit V)).
  Context (go : nat -> Ctx -> State -> W -> World -> World) (identifiers_cell : nat).
  Context (pick : World -> Side).
  Context `{Erased V (PairOutcome V)}.
  #[local] Abbreviation runs := (runs error_value unsupported zero_effect).
  #[local] Abbreviation start_fiber := (start_fiber (F := F) nil_dereference go identifiers_cell).
  #[local] Abbreviation startPair_at := (startPair_at (F := F) error_value nil_dereference go identifiers_cell).
  #[local] Abbreviation wait_turns := (wait_turns stuck pick).
  #[local] Abbreviation select_at := (select_at pick).
  #[local] Abbreviation fibers := (heap_of (Fiber V)).

(** What others may do to a fiber whose handle they do not have: its goroutine ends it. *)
Definition evolves (f f' : Fiber V) : Prop := f' = f \/ exists x, f' = fiber_Complete x f.

(** Only its own goroutine touches the fiber at [a], whoever starts or waits. *)
Record private (a : nat) : Prop := {
  private_waits : forall ctx ready w c w' f, waits ctx ready w = Some (c, w') ->
    heap_get a w = Some f -> exists f', heap_get a w' = Some f' /\ evolves f f';
  private_go : forall fiber ctx st work w f, heap_get a w = Some f ->
    exists f', heap_get a (go fiber ctx st work w) = Some f' /\ evolves f f'
}.

Definition cells_hold (left right : nat) (r : pairRunner V) (w : World) : Prop :=
  heap_get left w = Some (leftFiber r) /\ heap_get right w = Some (rightFiber r).

(** Every wait of the composition for one of its two fibers ends. *)
Record branches_end (settle : SettlePolicy) (reason : error) (ctx : Ctx) (left right : nat) : Prop := {
  select_ends : forall ld rd o w r, cells_hold left right r w -> ld || rd = true ->
    wait_ends (ctx_WithoutCancel ctx) (select_at settle reason left right ld rd o) w;
  await_ends : forall pc ld rd o w r, cells_hold left right r w -> pc <> selecting ->
    wait_ends (ctx_WithoutCancel ctx) (await_at pc left right ld rd o) w
}.

(** ** Waiting is stepping *)

Lemma evolves_left settle reason (r : pairRunner V) pc f :
  evolves (leftFiber r) f ->
  rtc (pair_step settle reason) (r, pc)
    (MkRunner f (rightFiber r) (leftDone r) (rightDone r) (runner_outcome r), pc).
Proof. intros [->|[x ->]]; [by destruct r|]. apply rtc_once, left_completes. Qed.

Lemma evolves_right settle reason (r : pairRunner V) pc f :
  evolves (rightFiber r) f ->
  rtc (pair_step settle reason) (r, pc)
    (MkRunner (leftFiber r) f (leftDone r) (rightDone r) (runner_outcome r), pc).
Proof. intros [->|[x ->]]; [by destruct r|]. apply rtc_once, right_completes. Qed.

(** Both cells move on to another world. *)
Lemma evolves_both settle reason left right (r : pairRunner V) pc w w' :
  cells_hold left right r w ->
  (forall f, heap_get left w = Some f -> exists f', heap_get left w' = Some f' /\ evolves f f') ->
  (forall f, heap_get right w = Some f -> exists f', heap_get right w' = Some f' /\ evolves f f') ->
  exists r', cells_hold left right r' w' /\ rtc (pair_step settle reason) (r, pc) (r', pc)
    /\ leftDone r' = leftDone r /\ rightDone r' = rightDone r /\ runner_outcome r' = runner_outcome r.
Proof.
  intros [Hl Hr] Hml Hmr. destruct (Hml _ Hl) as (f & Hf & Hef), (Hmr _ Hr) as (g & Hg & Heg).
  exists (MkRunner f g (leftDone r) (rightDone r) (runner_outcome r)).
  split_and!; [split; [exact Hf|exact Hg]| |done..].
  etransitivity; [by apply evolves_left|]. by apply (evolves_right _ _ (MkRunner f _ _ _ _)).
Qed.

(** ** Starting *)

Lemma kept_store {T} `{Heap World T} `{!HeapsApart World T (Fiber V)} a (x : T) w u w' :
  Calls.store nil_dereference a x w = (inl u, w') -> fibers w' = fibers w.
Proof.
  unfold Calls.store. destruct (heap_get a w); [|done]. intros [= _ <-]. unfold heap_set.
  by rewrite (heap_apart (T := T)).
Qed.

Lemma kept_store_ledger ledger l w u w' :
  store_ledger nil_dereference ledger l w = (inl u, w') -> fibers w' = fibers w.
Proof. destruct ledger, l; cbn; [apply kept_store|by intros [= _ <-]..]. Qed.

Lemma kept_load {T} `{Heap World T} a w (x : T) w' : load nil_dereference a w = (inl x, w') -> w' = w.
Proof. unfold load. destruct (heap_get a w); [|done]. by intros [= _ <-]. Qed.

Lemma bind_inl {A B} (m : call V World A) (f : A -> call V World B) w b w' :
  call_bind m f w = (inl b, w') -> exists a w1, m w = (inl a, w1) /\ f a w1 = (inl b, w').
Proof. unfold call_bind. destruct (m w) as [[a|p] w1]; [|done]. eauto. Qed.

(** A fiber started has a cell of its own, the last one, when its goroutine is made
    runnable. *)
Lemma start_fiber_cell owner ctx st work w a w' :
  start_fiber owner ctx st work w = (inl (Some a), w') ->
  exists w2 id childState, fibers w2 = fibers w /\ a = heap_fresh (T := Fiber V) w
  /\ w' = go a ctx childState work (snd (heap_new (NewFiber id) w2)).
Proof.
  unfold Handles.start_fiber. intros Hrun.
  apply bind_inl in Hrun as (child & w1 & Hnew & Hrun). unfold alloc in Hnew.
  assert (fibers w1 = fibers w) as E1.
  { injection Hnew as _ <-. unfold heap_new; cbn. by rewrite (heap_apart (T := Scope V F)). }
  apply bind_inl in Hrun as (scope & ? & ->%kept_load & Hrun).
  apply bind_inl in Hrun as (ids & ? & ->%kept_load & Hrun).
  apply bind_inl in Hrun as (ledger & w2 & Hledger & Hrun).
  assert (w2 = w1) as ->.
  { destruct (state_ledger st); cbn in Hledger; [|by injection Hledger].
    by apply bind_inl in Hledger as (? & ? & ->%kept_load & [= _ <-]). }
  unfold StartFiber, NextFiberID, Fork in Hrun.
  case_bool_decide.
  - apply bind_inl in Hrun as (? & w2 & E2%kept_store & Hrun).
    apply bind_inl in Hrun as (? & w3 & E3%kept_store & Hrun).
    apply bind_inl in Hrun as (? & w4 & E4%kept_store_ledger & Hrun).
    apply bind_inl in Hrun as (address & w5 & Hcell & [= <- <-]). unfold alloc in Hcell.
    assert (fibers w4 = fibers w) as E by congruence.
    injection Hcell as <- <-. exists w4. do 2 eexists. split_and!; [done| |done].
    unfold heap_fresh. by rewrite E.
  - apply bind_inl in Hrun as (? & w2 & _ & Hrun). apply bind_inl in Hrun as (? & w3 & _ & Hrun).
    by apply bind_inl in Hrun as (? & w4 & _ & [=]).
Qed.

(** Both branches started: two cells, each with what its goroutine has done of it. *)
Lemma startPair_cells scope ctx st leftWork rightWork w left right w' settle reason :
  startPair_at scope ctx st leftWork rightWork w = (inl (inl (left, right)), w') ->
  private left -> private right ->
  left <> right /\ exists idl idr r, cells_hold left right r w'
  /\ rtc (pair_step settle reason) (startPair idl idr, selecting) (r, selecting)
  /\ leftDone r = true /\ rightDone r = true /\ runner_outcome r = zero_pair.
Proof.
  intros Hrun Hl Hr. unfold Pairs.startPair_at in Hrun.
  apply bind_inl in Hrun as (sl & w1 & Hsl & Hrun). apply bind_inl in Hrun as (sr & w2 & Hsr & Hrun).
  destruct sl as [l|], sr as [r|]; injection Hrun; try done. intros -> -> ->.
  apply start_fiber_cell in Hsl as (v & idl & stl & Ev & -> & ->).
  apply start_fiber_cell in Hsr as (u & idr & str & Eu & -> & ->).
  set (l := heap_fresh w) in *. set (v1 := snd (heap_new (NewFiber idl) v)) in *.
  set (u1 := go l _ stl leftWork v1) in *. set (r := heap_fresh u1) in *.
  assert (heap_get l v1 = Some (NewFiber idl)) as Hl1.
  { unfold v1, l, heap_fresh. rewrite <- Ev. apply heap_get_new. }
  destruct (private_go _ Hl l (scope_ctx scope ctx) stl leftWork v1 _ Hl1) as (f & Hf & Hef). fold u1 in Hf.
  assert (heap_get l u = Some f) as Hf' by (unfold heap_get in *; by rewrite Eu).
  set (u2 := snd (heap_new (NewFiber idr) u)) in *.
  assert (heap_get r u2 = Some (NewFiber idr)) as Hr2.
  { unfold u2, r, heap_fresh. rewrite <- Eu. apply heap_get_new. }
  assert (heap_get l u2 = Some f) as Hl2.
  { unfold u2. rewrite heap_get_new_old; [done|]. by eapply heap_get_lt. }
  split. { apply heap_get_lt in Hf. by apply Nat.lt_neq. }
  destruct (evolves_both settle reason l r (MkRunner f (NewFiber idr) true true zero_pair) selecting
    u2 (go r (scope_ctx scope ctx) str rightWork u2)) as (r' & Hat & Hs & Hd & Hd' & Ho).
  { split; [exact Hl2|exact Hr2]. }
  { intros g Hg. by apply (private_go _ Hl). }
  { intros g Hg. by apply (private_go _ Hr). }
  exists idl, idr, r'. split_and!; [done| |done..].
  etransitivity; [|exact Hs]. by apply (evolves_left _ _ (startPair idl idr)).
Qed.

Section Waits.
  Context (left right : nat) (apart : left <> right) (Hleft : private left) (Hright : private right).
  Context (settle : SettlePolicy (V := V)) (reason : error) (ctx : Ctx).
  Context (Hends : branches_end settle reason ctx left right).
  #[local] Abbreviation steps := (rtc (pair_step settle reason)).
  #[local] Abbreviation at_world := (cells_hold left right).

(** A wait for the two cells goes on with what the attempt does after the branches
    have done what they do. *)
Lemma awaits_stepping {B} (attempt : World -> option (B * World)) (r : pairRunner V) pc w :
  at_world r w -> wait_ends (ctx_WithoutCancel ctx) attempt w ->
  exists r' w1 b w2, at_world r' w1 /\ steps (r, pc) (r', pc)
    /\ leftDone r' = leftDone r /\ rightDone r' = rightDone r /\ runner_outcome r' = runner_outcome r
    /\ attempt w1 = Some (b, w2) /\ await_alone (V := V) stuck ctx attempt w = (inl b, w2).
Proof.
  intros Hat [[c w1] Hw].
  destruct (evolves_both settle reason left right r pc w w1 Hat
    (fun f => private_waits _ Hleft _ _ _ _ _ f Hw) (fun f => private_waits _ Hright _ _ _ _ _ f Hw))
    as (r' & Hat' & Hs & Hd & Hd' & Ho).
  unfold await_alone, select. rewrite Hw. destruct c.
  - pose proof (waits_message _ _ _ _ Hw) as Hready. unfold can_proceed in Hready. unfold proceed.
    destruct (attempt w1) as [[b w2]|] eqn:Ha; [|done]. by exists r', w1, b, w2.
  - apply waits_done in Hw. rewrite ctx_WithoutCancel_Err in Hw. by destruct Hw.
Qed.

Lemma runner_at_world (r : pairRunner V) w :
  at_world r w -> runner_at left right (leftDone r) (rightDone r) (runner_outcome r) w = Some r.
Proof. intros [Hl Hr]. unfold runner_at. rewrite Hl; cbn. rewrite Hr; cbn. by destruct r. Qed.

Lemma at_world_set (r r' : pairRunner V) w : at_world r w -> at_world r' (set_fibers left right r' w).
Proof.
  intros [Hl Hr]. apply heap_get_lt in Hl, Hr. unfold set_fibers. split.
  - rewrite heap_get_set_ne by done. by apply heap_get_set.
  - apply heap_get_set. by rewrite heap_fresh_set.
Qed.

(** One turn takes a channel out of the select. *)
Lemma select_turn_removes side (r : pairRunner V) r' pc :
  select_turn settle reason side r = Some (r', pc) ->
  (if leftDone r' then 1 else 0) + (if rightDone r' then 1 else 0)
  < (if leftDone r then 1 else 0) + (if rightDone r then 1 else 0).
Proof.
  destruct r as [lf rf ld rd o], side; cbn; [done|..].
  all: destruct ld, rd; cbn; repeat case_match; unfold discardLeft, discardRight; cbn; intros; simplify_eq/=; lia.
Qed.

Lemma await_turn_keeps pc (r r' : pairRunner V) pc' :
  await_turn pc r = Some (r', pc') ->
  pc' = selecting /\ leftDone r' = leftDone r /\ rightDone r' = rightDone r
  /\ leftFiber r' = leftFiber r /\ rightFiber r' = rightFiber r.
Proof. destruct pc; cbn; [done|..]; destruct (fiber_Wait _); cbn; intros; by simplify_eq. Qed.

(** The select of the loop, and the wait of the interruption that may follow. *)
Lemma wait_turn (r : pairRunner V) w :
  at_world r w -> leftDone r || rightDone r = true ->
  exists r' pc w', at_world r' w' /\ steps (r, selecting) (r', pc)
  /\ (if leftDone r' then 1 else 0) + (if rightDone r' then 1 else 0)
     < (if leftDone r then 1 else 0) + (if rightDone r then 1 else 0)
  /\ await_alone (V := V) stuck ctx
       (select_at settle reason left right (leftDone r) (rightDone r) (runner_outcome r)) w
     = (inl (r', pc), w').
Proof.
  intros Hat Hd.
  destruct (awaits_stepping _ r selecting w Hat (select_ends _ _ _ _ _ Hends _ _ (runner_outcome r) _ _ Hat Hd))
    as (r1 & w1 & [r2 pc] & w2 & Hat1 & Hs & Hl & Hr & Ho & Ha & Hrun).
  unfold Pairs.select_at in Ha. rewrite <- Hl, <- Hr, <- Ho, (runner_at_world _ _ Hat1) in Ha; cbn in Ha.
  destruct (ready_side pick r1 w1) as [side|] eqn:Hside; [|done]; cbn in Ha.
  destruct (select_turn settle reason side r1) as [[r3 pc']|] eqn:Ht; [|done]; cbn in Ha.
  injection Ha as <- <- <-. exists r3, pc', (set_fibers left right r3 w1).
  split_and!; [by eapply at_world_set| | |exact Hrun].
  - eapply rtc_r; [exact Hs|]. by eapply selects.
  - rewrite <- Hl, <- Hr. by eapply select_turn_removes.
Qed.

Lemma interruption_wait (r : pairRunner V) pc w :
  at_world r w -> pc <> selecting ->
  exists r' w', at_world r' w' /\ steps (r, pc) (r', selecting)
  /\ leftDone r' = leftDone r /\ rightDone r' = rightDone r
  /\ await_alone (V := V) stuck ctx
       (await_at pc left right (leftDone r) (rightDone r) (runner_outcome r)) w = (inl r', w').
Proof.
  intros Hat Hpc.
  destruct (awaits_stepping _ r pc w Hat
    (await_ends _ _ _ _ _ Hends pc (leftDone r) (rightDone r) (runner_outcome r) _ _ Hat Hpc))
    as (r1 & w1 & r2 & w2 & Hat1 & Hs & Hl & Hr & Ho & Ha & Hrun).
  unfold await_at in Ha. rewrite <- Hl, <- Hr, <- Ho, (runner_at_world _ _ Hat1) in Ha; cbn in Ha.
  destruct (await_turn pc r1) as [[r3 pc']|] eqn:Ht; [|done]; cbn in Ha. injection Ha as <- <-.
  pose proof (await_turn_keeps _ _ _ _ Ht) as (-> & Hd & Hd' & Hf & Hg).
  exists r3, w1. split_and!; [| |congruence|congruence|exact Hrun].
  - unfold cells_hold. by rewrite Hf, Hg.
  - eapply rtc_r; [exact Hs|]. by eapply awaits.
Qed.

Lemma wait_turns_run turns (r : pairRunner V) w :
  at_world r w ->
  (if leftDone r then 1 else 0) + (if rightDone r then 1 else 0) <= turns ->
  exists r' w', wait_turns turns settle reason ctx left right (leftDone r) (rightDone r) (runner_outcome r) w
                = (inl (runner_outcome r'), w')
  /\ steps (r, selecting) (r', selecting) /\ at_world r' w'
  /\ leftDone r' = false /\ rightDone r' = false.
Proof.
  revert r w. induction turns as [|turns IH]; intros r w Hat Hn; cbn [Pairs.wait_turns];
    destruct (leftDone r || rightDone r) eqn:Hd; cbn [negb].
  1: destruct (leftDone r), (rightDone r); cbn in *; (lia || done).
  1, 3: apply orb_false_iff in Hd as [Hl Hr]; by exists r, w.
  destruct (wait_turn r w Hat Hd) as (r1 & pc & w1 & Hat1 & Hs1 & Hlt & Hrun).
  unfold call_bind at 1. rewrite Hrun. destruct (decide (pc = selecting)) as [->|Hpc].
  - destruct (IH r1 w1 Hat1 ltac:(lia)) as (r2 & w2 & Hrun2 & Hs2 & Hrest).
    exists r2, w2. split; [exact Hrun2|]. split; [by etransitivity|done].
  - destruct (interruption_wait r1 pc w1 Hat1 Hpc) as (r2 & w2 & Hat2 & Hs2 & Hl & Hr & Hrun2).
    destruct (IH r2 w2 Hat2 ltac:(rewrite Hl, Hr; lia)) as (r3 & w3 & Hrun3 & Hs3 & Hrest).
    exists r3, w3. split; [|split; [by repeat (etransitivity; [eassumption|])|done]].
    unfold call_bind. destruct pc; [done|by rewrite Hrun2..].
Qed.

End Waits.

(** What starting one fiber with [work] does: a cell of its own, the last one, holds
    a new fiber when the goroutine that runs [work] for it is made runnable. *)
Definition started_as (a : nat) (ctx : Ctx) (work : W) (w w' : World) : Prop :=
  exists v id childState, a = heap_fresh (T := Fiber V) w
  /\ fibers v = fibers w ++ [NewFiber id] /\ w' = go a ctx childState work v.

Lemma start_fiber_started owner ctx st work w a w' :
  start_fiber owner ctx st work w = (inl (Some a), w') -> started_as a ctx work w w'.
Proof.
  intros Hrun. apply start_fiber_cell in Hrun as (v & id & childState & Hv & -> & ->).
  eexists _, id, childState. split_and!; [done| |reflexivity].
  unfold heap_new; cbn. by rewrite heap_of_with, Hv.
Qed.

(** C8. A composition of two effects runs the machine of [Parallel]: when both branches
    were started in its private scope, nobody else has their handles and each of
    them ends, then the composition comes back. Its two fibers were started in order
    with the two effects, each in a cell of its own; it comes back with the
    resolver's answer for a state the machine reaches and returns in, each branch's
    cell being that state's fiber, completed with the exit the resolver is given for
    its side; and before it comes back its scope is closed, whose failures come after
    the resolver's. Its loop takes at most two turns. *)
Theorem pairs_run_the_machine {R E A B C} `{Erased V R}
    (fx : Work error_value unsupported zero_effect (R := R) (E := E) call_work A)
    (that : Work error_value unsupported zero_effect (R := R) (E := E) call_work B)
    (settle : SettlePolicy) (reason : error) (resolve : PairOutcome V -> error -> Exit V)
    (i : Interpretation V Ctx State) (w : World) (left right : nat) (w1 : World) :
  let ctx := interp_Context i in
  let env := asEnvironment (interp_Environment i) in
  let scope := heap_fresh (T := Scope V F) w in
  ctx_Err ctx w = None ->
  startPair_at scope ctx (interp_State i) (captured_work fx env) (captured_work that env)
    (snd (heap_new (T := Scope V F) NewScope w)) = (inl (inl (left, right)), w1) ->
  private left -> private right -> branches_end settle reason ctx left right ->
  (exists w0 wl, fibers w0 = fibers w
     /\ started_as left (scope_ctx scope ctx) (captured_work fx env) w0 wl
     /\ started_as right (scope_ctx scope ctx) (captured_work that env) wl w1)
  /\ exists idl idr st w2,
  pair_reachable settle reason idl idr st /\ wait_returned st
  /\ cells_hold left right (fst st) w2
  /\ fiber_Wait (leftFiber (fst st)) = Some (pair_Left (runner_outcome (fst st)))
  /\ fiber_Wait (rightFiber (fst st)) = Some (pair_Right (runner_outcome (fst st)))
  /\ runs (pairResults (F := F) (C := C) error_value unsupported zero_effect nil_dereference stuck call_work go
             identifiers_cell pick fx that settle reason resolve) i w
     = match scope_Close (F := F) nil_dereference scope ctx (ExitSuccess (erase (runner_outcome (fst st))))
               reason w2 with
       | (inl cleanup, w3) => (composeCleanup (resolve (runner_outcome (fst st)) reason) cleanup, w3)
       | (inr p, w3) => (ExitFailure (DieCause (capture p)), w3)
       end.
Proof.
  intros ctx env scope Hlive Hstart Hl Hr Hends. split.
  { pose proof Hstart as Hrun. unfold Pairs.startPair_at in Hrun.
    apply bind_inl in Hrun as (sl & wl & Hsl & Hrun). apply bind_inl in Hrun as (sr & w2 & Hsr & Hrun).
    destruct sl as [a|], sr as [b|]; injection Hrun; try done. intros <- <- <-.
    do 2 eexists. split_and!; [|by eapply start_fiber_started..].
    unfold heap_new; cbn. by rewrite (heap_apart (T := Scope V F)). }
  destruct (startPair_cells _ _ _ _ _ _ _ _ _ settle reason Hstart Hl Hr)
    as (Hne & idl & idr & r & Hat & Hs & Hd & Hd' & Ho).
  destruct (wait_turns_run left right Hne Hl Hr settle reason ctx Hends 2 r w1 Hat ltac:(rewrite Hd, Hd'; done))
    as (r' & w2 & Hwait & Hs' & Hat' & Hreturned).
  assert (pair_reachable settle reason idl idr (r', selecting)) as Hreach
    by (unfold pair_reachable; by etransitivity).
  assert (wait_returned (r', selecting)) as Hret
    by (split_and!; [done|exact (proj1 Hreturned)|exact (proj2 Hreturned)]).
  destruct (pair_waits_for_both _ _ _ _ _ Hreach Hret) as (Hwl & Hwr & _).
  exists idl, idr, (r', selecting), w2. split_and!; [done|done|exact Hat'|done|done|].
  - unfold pairResults. rewrite runs_fromRuntime. fold ctx. rewrite Hlive. fold env.
    unfold call_bind at 1, RunPair. cbn [interp_Context interp_State].
    unfold call_bind at 1, alloc at 1. change (heap_new NewScope w) with (scope, snd (heap_new (T := Scope V F) NewScope w)).
    cbv beta iota. unfold call_bind at 1. rewrite Hstart.
    unfold call_bind at 1, wait_pair. rewrite Hd, Hd', Ho in Hwait. rewrite Hwait.
    unfold call_bind at 1. cbn [fst]. by destruct (scope_Close _ _ _ _ _ w2) as [[cleanup|p] w3].
Qed.

End Pairs.
