(* ===== verification/Groups.v ===== *)
(** A collection of branches at once as an effect
    ([effect/internal/runtime/parallel_all.go], [effect/collections.go],
    [effect/struct_par.go]): permits and completions are Go channels in the world,
    and each branch is a fiber of a private scope. *)

From S2P Require Import Prelude GoStrings Outcome Traversal OutcomeFacts Cause Interpreter InterpreterFacts.
From S2P Require Import Algebra Effects EffectsFacts Observation Queue Calls Completion Scope ConfigSource Time.
From S2P Require Import State RuntimePort Lifetimes Waiting Handles QueueEffects Retry Parallel.

(** [fmt.Errorf("effect: fresh scope rejected parallel branch %d", index)]. *)
Definition rejected_branch_at (index : nat) : error :=
  MkError 509 ("effect: fresh scope rejected parallel branch " ++ decimal (Z.of_nat index))%string [].

Section Groups.
  Context {V World Ctx Attr FS Logger F : Type} `{Waiting World Ctx}.
  Context `{FinalizerOps F V World Ctx} `{Heap World (Scope V F)} `{Heap World (Fiber V)}.
  Context `{Heap World identifiers} `{Heap World Ledger}.
  Context `{Heap World (NativeChannel unit)} `{Heap World (NativeChannel (nat * Exit V))}.
  Context `{!ScopeContexts V World Ctx F} `{!ScopeChildren V World F}.
  Context (error_value : error -> V) (unsupported : error).
  Context (zero_effect nil_dereference stuck send_on_closed : Panic V).
  #[local] Abbreviation State := (@State V World Ctx Attr FS Logger).
  #[local] Abbreviation Effect := (@Effect V World Ctx State).
  #[local] Abbreviation call := (call V World).
  Context {W : Type} (call_work : W -> Ctx -> State -> call (Exit V)).
  Context (go : nat -> Ctx -> State -> W -> World -> World) (identifiers_cell : nat).
  Context `{Erased V (list (Exit V))}.
  #[local] Abbreviation start_fiber := (start_fiber (F := F) nil_dereference go identifiers_cell).

#[local] Instance zero_completion : Zero (nat * Exit V) := (0, zero (Exit V)).

(** [completion]: a branch's index and its own exit. *)
Definition completion : Type := nat * Exit V.

(** ** A branch's closures *)

(** [defer func() { <-permits }()]: however the work ends. *)
Definition returning_permit (permits : nat) (work : call (Exit V)) : call (Exit V) := fun w =>
  let '(result, w) := work w in
  match proceed stuck (native_recv (A := unit) (Some permits)) w with
  | (inl _, w) => (result, w)
  | (inr p, w) => (inr p, w)
  end.

Definition withPermit (permits : option nat) (work : Ctx -> State -> call (Exit V))
    : Ctx -> State -> call (Exit V) :=
  match permits with
  | None => work
  | Some address => fun ctx state =>
      let! stopped := select stuck ctx
        (fun w => '(sent, w) ← native_send (Some address) tt w; Some ((sent : bool, None), w))
        (call_map (fun exit => (true, Some exit)) (interrupted_call ctx)) in
      match stopped with
      | (_, Some exit) => call_ret exit
      | (true, None) => returning_permit address (work ctx state)
      | (false, None) => call_panic send_on_closed
      end
  end.

Definition recordOutcome_at (index completions : nat) (work : Ctx -> State -> call (Exit V))
    : Ctx -> State -> call (Exit V) := fun ctx state =>
  let! exit := work ctx state in
  let! sent := await_alone stuck ctx (native_send (Some completions) (index, exit)) in
  if sent : bool then call_ret exit else call_panic send_on_closed.

(** The closure [startAll] gives each fiber: what it captures, and its code. *)
Record BranchClosure : Type := MkBranchClosure {
  branch_captured : nat -> nat -> option nat -> W -> W;
  branch_calls : forall index completions permits work,
    call_work (branch_captured index completions permits work)
    = recordOutcome_at index completions (withPermit permits (call_work work))
}.
  Context (branch : BranchClosure).

(** ** The group *)

Fixpoint start_branches (scope : nat) (ctx : Ctx) (state : State) (completions : nat)
    (permits : option nat) (index : nat) (works : list W) : call (list nat + Cause V) :=
  match works with
  | [] => call_ret (inl [])
  | work :: rest =>
      let! fiber := start_fiber scope (scope_ctx scope ctx) state
                      (branch_captured branch index completions permits work) in
      match fiber with
      | None => call_ret (inr (DieCause (MkDefect (Some (error_value (rejected_branch_at index))) EmptyString)))
      | Some fiber =>
          let! started := start_branches scope ctx state completions permits (S index) rest in
          call_ret match started with
                   | inl fibers => inl (fiber :: fibers)
                   | inr unavailable => inr unavailable
                   end
      end
  end.

Definition make_permits (limit : Z) (total : nat) : call (option nat) :=
  match permitsFor limit total with
  | None => call_ret None
  | Some room => call_map Some (alloc (T := NativeChannel unit) (MkNative [] room [] false))
  end.

(** [startAll]: the group is the completions' channel and the fibers. *)
Definition startAll_at (scope : nat) (ctx : Ctx) (state : State) (works : list W) (limit : Z)
    : call (nat * (list nat + Cause V)) :=
  let! completions := alloc (T := NativeChannel (nat * Exit V)) (MkNative [] (length works) [] false) in
  let! permits := make_permits limit (length works) in
  call_map (fun started => (completions, started))
    (start_branches scope ctx state completions permits 0 works).

(** [awaitFirstFailure]: a completion for each fiber. *)
Fixpoint awaitFirstFailure (n : nat) (completions scope : nat) (ctx : Ctx) (reason : error)
    (abandoned : bool) : call unit :=
  match n with
  | 0 => call_ret tt
  | S n =>
      let! ((_, exit), _) := await_alone stuck ctx (native_recv (A := nat * Exit V) (Some completions)) in
      if IsSuccess exit || abandoned then awaitFirstFailure n completions scope ctx reason abandoned
      else
        let! _ := scope_Interrupt (F := F) nil_dereference scope reason in
        awaitFirstFailure n completions scope ctx reason true
  end.

Fixpoint collect_fibers (ctx : Ctx) (fibers : list nat) : call (list (Exit V)) :=
  match fibers with
  | [] => call_ret []
  | fiber :: rest =>
      let! exit := await_alone stuck ctx (waited_for fiber) in
      call_map (cons exit) (collect_fibers ctx rest)
  end.

Definition RunAll (i : Interpretation V Ctx State) (works : list W) (limit : Z) (reason : error)
    : call (list (Exit V) * Cause V) :=
  match works with
  | [] => call_ret ([], zeroCause)
  | _ =>
      let ctx := interp_Context i in
      let! scope := alloc (T := Scope V F) NewScope in
      let! (completions, started) := startAll_at scope ctx (interp_State i) works limit in
      match started with
      | inr unavailable => call_ret ([], unavailable)
      | inl fibers =>
          let! _ := awaitFirstFailure (length fibers) completions scope ctx reason false in
          let! exits := collect_fibers ctx fibers in
          let! cleanup := scope_Close (F := F) nil_dereference scope ctx (ExitSuccess (erase exits)) reason in
          call_ret (exits, cleanup)
      end
  end.

(** * Traversals ([collections.go]) *)

Section Traversals.
  Context {R E : Type} `{Erased V R}.
  #[local] Abbreviation Work := (Work error_value unsupported zero_effect (R := R) (E := E) call_work).

Fixpoint parallelBranches {A B} (inputs : list A) (f : A -> call (Work B)) (env : R) : call (list W) :=
  match inputs with
  | [] => call_ret []
  | input :: rest =>
      let! fx := f input in
      call_map (cons (captured_work fx env)) (parallelBranches rest f env)
  end.

Definition ForEachParN {A B} `{Erased V B} `{Erased V (list B)} (inputs : list A) (limit : Z)
    (f : A -> call (Work B)) : Effect R E (list B) :=
  fromRuntime (fun ctx state env =>
    let! branches := parallelBranches inputs f env in
    let! (exits, cleanup) :=
      RunAll (MkInterpretation ctx state (erase env)) branches limit ErrSiblingFailed in
    call_ret (composeCleanup (collectResults (B := B) exits) cleanup)).

Definition ForEachPar {A B} `{Erased V B} `{Erased V (list B)} (inputs : list A)
    (f : A -> call (Work B)) : Effect R E (list B) := ForEachParN inputs 0 f.

Definition AllPar {A} `{Erased V A} `{Erased V (list A)} (effects : list (Work A))
    : Effect R E (list A) := ForEachPar effects call_ret.

Definition AllParN {A} `{Erased V A} `{Erased V (list A)} (effects : list (Work A)) (limit : Z)
    : Effect R E (list A) := ForEachParN effects limit call_ret.

(** * Structures ([struct_par.go])

    A field's value is the assignment it yields, a closure of type [Assignment];
    a panic of an assignment is a defect of the effect. *)

  Context {S Assignment : Type} `{Zero S} `{Erased V S} `{Erased V Assignment} `{Erased V (list Assignment)}.
  Context (call_assignment : Assignment -> S -> call S).

Definition Field : Type := Work Assignment.

(** The assignment [FieldOf] makes of a value: what it captures is the value. *)
Record AssignClosure (A : Type) (assign : S -> A -> call S) : Type := MkAssign {
  captured_value : A -> Assignment;
  captured_value_calls : forall value into, call_assignment (captured_value value) into = assign into value
}.

Definition FieldOf {A} `{Erased V A} (fx : Effect R E A) (assign : S -> A -> call S)
    (closure : AssignClosure A assign)
    (field : {b : Field
       | work_effect b = Map zero_effect fx (fun value => call_ret (captured_value _ _ closure value))})
    : Field := proj1_sig field.

Definition StructPar (fields : list Field) : Effect R E S :=
  Map zero_effect (AllPar fields)
    (fun assigners => range_fold (fun value assign => call_assignment assign value) assigners (zero S)).
End Traversals.
End Groups.
