(* ===== verification/GroupsFacts.v ===== *)
(** What running a collection of effects at once waits for, and what it makes of it. *)

From S2P Require Import Prelude GoStrings Outcome Traversal OutcomeFacts Cause Interpreter InterpreterFacts.
From S2P Require Import Algebra Effects EffectsFacts Observation Queue Calls Completion Scope ConfigSource Time.
From S2P Require Import State RuntimePort Lifetimes Waiting Handles QueueEffects Retry Parallel Pairs Groups.

Section GroupsFacts.
  Context {V World Ctx Attr FS Logger F : Type} `{Waiting World Ctx}.
  Context `{FinalizerOps F V World Ctx} `{Heap World (Scope V F)} `{Heap World (Fiber V)}.
  Context `{Heap World identifiers} `{Heap World Ledger}.
  Context `{Heap World (NativeChannel unit)} `{Heap World (NativeChannel (nat * Exit V))}.
  Context `{!ScopeContexts V World Ctx F} `{!ScopeChildren V World F}.
  Context `{!HeapsApart World (Scope V F) (Fiber V)} `{!HeapsApart World identifiers (Fiber V)}.
  Context `{!HeapsApart World Ledger (Fiber V)} `{!HeapsApart World (NativeChannel (nat * Exit V)) (Fiber V)}.
  Context `{!HeapsApart World (NativeChannel unit) (Fiber V)}.
  Context `{!HeapsApart World (NativeChannel (nat * Exit V)) (Scope V F)}.
  Context `{!HeapsApart World (Scope V F) (NativeChannel (nat * Exit V))}.
  Context (error_value : error -> V) (unsupported : error).
  Context (zero_effect nil_dereference stuck send_on_closed : Panic V).
  #[local] Abbreviation State := (@State V World Ctx Attr FS Logger).
  Context {W : Type} (call_work : W -> Ctx -> State -> call V World (Exit V)).
  Context (go : nat -> Ctx -> State -> W -> World -> World) (identifiers_cell : nat).
  Context `{Erased V (list (Exit V))}.
  Context (branch : BranchClosure stuck send_on_closed call_work).
  #[local] Abbreviation runs := (runs error_value unsupported zero_effect).
  #[local] Abbreviation start_fiber := (start_fiber (F := F) nil_dereference go identifiers_cell).
  #[local] Abbreviation start_branches :=
    (start_branches (F := F) error_value nil_dereference stuck send_on_closed call_work go identifiers_cell branch).
  #[local] Abbreviation startAll_at :=
    (startAll_at (F := F) error_value nil_dereference stuck send_on_closed call_work go identifiers_cell branch).
  #[local] Abbreviation private := (Pairs.private go).
  #[local] Abbreviation fibers := (heap_of (Fiber V)).
  #[local] Abbreviation channel := (NativeChannel (nat * Exit V)).
  #[local] Abbreviation there a w := (is_Some (heap_get (T := Fiber V) a w)).
  #[local] Existing Instance zero_completion.

(** ** Cells that stay *)

Lemma there_same a w w' : fibers w' = fibers w -> there a w -> there a w'.
Proof. unfold heap_get. by intros ->. Qed.

Lemma there_go a fiber ctx st work w : private a -> there a w -> there a (go fiber ctx st work w).
Proof. intros Ha [f Hf]. destruct (private_go _ _ Ha fiber ctx st work w f Hf) as (g & Hg & _). eauto. Qed.

Lemma start_branches_there scope ctx st completions permits index works addresses w w' :
  start_branches scope ctx st completions permits index works w = (inl (inl addresses), w') ->
  (forall a, a ∈ addresses -> private a) ->
  length addresses = length works
  /\ (forall a, a ∈ addresses -> there a w')
  /\ (forall a, private a -> there a w -> there a w').
Proof.
  revert index addresses w. induction works as [|work works IH]; intros index addresses w Hrun Hp.
  - injection Hrun as <- <-. split_and!; [done| |done]. intros a Ha. by apply elem_of_nil in Ha.
  - cbn in Hrun. apply bind_inl in Hrun as ([a|] & w1 & Hstart & Hrun); [|done].
    apply bind_inl in Hrun as ([rest|] & w2 & Hrest & Hrun); [|done]. injection Hrun as <- <-.
    destruct (start_fiber_cell _ _ _ _ _ _ _ _ _ _ Hstart) as (v & id & child & Ev & -> & ->).
    set (a := heap_fresh w) in *. set (v1 := snd (heap_new (NewFiber id) v)) in *.
    assert (there a v1) as Hav.
    { exists (NewFiber id). unfold v1, a, heap_fresh. rewrite <- Ev. apply heap_get_new. }
    destruct (IH _ _ _ Hrest) as (Hlen & Hin & Hkeep); [intros b Hb; apply Hp; by right|].
    assert (private a) as Ha by (apply Hp; left).
    split_and!; [cbn; by f_equal| |].
    + intros b [->|Hb]%elem_of_cons; [|by apply Hin]. apply Hkeep; [done|]. by apply there_go.
    + intros b Hb Hthere. apply Hkeep; [done|]. apply there_go; [done|].
      apply (there_same _ _ v) in Hthere; [|done]. destruct Hthere as [f Hf]. exists f.
      unfold v1. rewrite heap_get_new_old; [done|]. by eapply heap_get_lt.
Qed.

(** ** What is started, in which order

    The effects are built input by input, and the fiber at the [k]-th address is the
    one started [k]-th, in a cell of its own, to run the [k]-th branch's closure. *)
Inductive built_in_order {R E A B} `{Erased V R}
    (f : A -> call V World (Work error_value unsupported zero_effect (R := R) (E := E) call_work B))
    (env : R) : list A -> list W -> World -> World -> Prop :=
| built_none w : built_in_order f env [] [] w w
| built_next input rest fx works w w1 w2 :
    f input w = (inl fx, w1) -> built_in_order f env rest works w1 w2 ->
    built_in_order f env (input :: rest) (captured_work fx env :: works) w w2.

Inductive started_in_order (ctx : Ctx) (completions : nat) (permits : option nat)
    : nat -> list W -> list nat -> World -> World -> Prop :=
| started_none k w : started_in_order ctx completions permits k [] [] w w
| started_next k work works a addresses w w1 w2 :
    Pairs.started_as go a ctx (branch_captured _ _ _ branch k completions permits work) w w1 ->
    started_in_order ctx completions permits (S k) works addresses w1 w2 ->
    started_in_order ctx completions permits k (work :: works) (a :: addresses) w w2.

Lemma parallelBranches_built {R E A B} `{Erased V R} (inputs : list A)
    (f : A -> call V World (Work error_value unsupported zero_effect (R := R) (E := E) call_work B))
    env works w w' :
  parallelBranches error_value unsupported zero_effect call_work inputs f env w = (inl works, w') ->
  built_in_order f env inputs works w w'.
Proof.
  revert works w. induction inputs as [|input rest IH]; intros works w; cbn.
  - intros [= <- <-]. constructor.
  - intros Hrun. apply bind_inl in Hrun as (fx & w1 & Hf & Hrun). unfold call_map in Hrun.
    apply bind_inl in Hrun as (more & w2 & Hrest & [= <- <-]).
    econstructor; [exact Hf|by apply IH].
Qed.

Lemma start_branches_started scope ctx st completions permits index works addresses w w' :
  start_branches scope ctx st completions permits index works w = (inl (inl addresses), w') ->
  started_in_order (scope_ctx scope ctx) completions permits index works addresses w w'.
Proof.
  revert index addresses w. induction works as [|work works IH]; intros index addresses w Hrun.
  - injection Hrun as <- <-. constructor.
  - cbn in Hrun. apply bind_inl in Hrun as ([a|] & w1 & Hstart & Hrun); [|done].
    apply bind_inl in Hrun as ([rest|] & w2 & Hrest & Hrun); [|done]. injection Hrun as <- <-.
    econstructor; [by eapply start_fiber_started|by apply IH].
Qed.

Lemma alloc_keeps_fibers {T} `{Heap World T} `{!HeapsApart World T (Fiber V)} (x : T) w a w' :
  alloc (V := V) x w = (inl a, w') -> fibers w' = fibers w.
Proof. intros [= _ <-]. unfold heap_new; cbn. by rewrite (heap_apart (T := T)). Qed.

Lemma startAll_started scope ctx st works limit w completions addresses w' :
  startAll_at scope ctx st works limit w = (inl (completions, inl addresses), w') ->
  (forall a, a ∈ addresses -> private a) ->
  (exists permits v, fibers v = fibers w
     /\ started_in_order (scope_ctx scope ctx) completions permits 0 works addresses v w')
  /\ length addresses = length works /\ forall a, a ∈ addresses -> there a w'.
Proof.
  intros Hstart Hp. unfold Groups.startAll_at in Hstart.
  apply bind_inl in Hstart as (c & v1 & Hc%alloc_keeps_fibers & Hstart).
  apply bind_inl in Hstart as (permits & v2 & Hpermits & Hstart). unfold call_map in Hstart.
  apply bind_inl in Hstart as (started & v3 & Hrun & [= -> -> ->]).
  assert (fibers v2 = fibers v1) as Hv2.
  { unfold make_permits in Hpermits. destruct (permitsFor limit (length works)); [|by injection Hpermits as _ <-].
    unfold call_map in Hpermits. apply bind_inl in Hpermits as (p & v & Hv%alloc_keeps_fibers & [= _ <-]).
    exact Hv. }
  destruct (start_branches_there _ _ _ _ _ _ _ _ _ _ Hrun Hp) as (Hlen & Hin & _).
  split; [|done]. exists permits, v2. split; [congruence|]. by eapply start_branches_started.
Qed.

(** ** The waits of the group *)

Section Group.
  Context (ctx : Ctx) (scope completions : nat) (addresses : list nat).
  #[local] Abbreviation alone := (ctx_WithoutCancel ctx).

(** The group's own cells stay whoever waits; as long as a branch's completion has not
    been received, which [owed] counts, one arrives; and every branch's fiber ends. *)
Record group_ends (owed : nat -> World -> Prop) : Prop := {
  own_cells : forall c ready w k w', waits c ready w = Some (k, w') ->
    is_Some (heap_get (T := channel) completions w) -> is_Some (heap_get (T := Scope V F) scope w) ->
    is_Some (heap_get (T := channel) completions w') /\ is_Some (heap_get (T := Scope V F) scope w');
  completions_arrive : forall n w, owed (S n) w -> is_Some (heap_get (T := channel) completions w) ->
    wait_ends alone (native_recv (A := nat * Exit V) (Some completions)) w;
  completions_counted : forall n w k w1 m w2, owed (S n) w ->
    waits alone (can_proceed (native_recv (A := nat * Exit V) (Some completions))) w = Some (k, w1) ->
    native_recv (A := nat * Exit V) (Some completions) w1 = Some (m, w2) -> owed n w2;
  still_owed : forall n reason w w', owed n w ->
    scope_Interrupt (F := F) nil_dereference scope reason w = (inl tt, w') -> owed n w';
  fibers_end : forall a w, a ∈ addresses -> there a w -> wait_ends alone (waited_for a) w
}.
  Context (owed : nat -> World -> Prop) (Hends : group_ends owed) (Hp : forall a, a ∈ addresses -> private a).

(** The group's own channel and scope, and its fibers, have cells. *)
Definition cells_there (w : World) : Prop :=
  is_Some (heap_get (T := channel) completions w) /\ is_Some (heap_get (T := Scope V F) scope w)
  /\ forall a, a ∈ addresses -> there a w.

Lemma cells_there_waits c ready w k w' : waits c ready w = Some (k, w') -> cells_there w -> cells_there w'.
Proof.
  intros Hw (Hc & Hs & Hf). destruct (own_cells _ Hends _ _ _ _ _ Hw Hc Hs) as [Hc' Hs'].
  split_and!; [done|done|]. intros a Ha. destruct (Hf a Ha) as [f Hg].
  destruct (private_waits _ _ (Hp a Ha) _ _ _ _ _ f Hw Hg) as (g & Hg' & _). eauto.
Qed.

Lemma cells_there_recv w m w' :
  native_recv (A := nat * Exit V) (Some completions) w = Some (m, w') -> cells_there w -> cells_there w'.
Proof.
  intros Hr (Hc & Hs & Hf). unfold native_recv in Hr; cbn in Hr.
  assert (w' = w \/ exists c, w' = heap_set completions c w) as [->|[c ->]].
  { destruct (heap_get completions w); [|done]; cbn in Hr; repeat case_match; simplify_eq; eauto. }
  - done.
  - destruct Hc as [c0 Hc]. split_and!.
    + exists c. apply heap_get_set. by eapply heap_get_lt.
    + unfold heap_get, heap_set in *. by rewrite (heap_apart (T := channel)).
    + intros a Ha. apply (there_same _ w); [|by apply Hf]. unfold heap_set. by rewrite (heap_apart (T := channel)).
Qed.

Lemma cells_there_Interrupt reason w : cells_there w ->
  exists w', scope_Interrupt (F := F) nil_dereference scope reason w = (inl tt, w') /\ cells_there w'.
Proof.
  intros (Hc & [s Hs] & Hf). unfold scope_Interrupt, scope_load, scope_store, call_bind.
  rewrite (load_Some _ _ _ _ Hs), (store_Some _ _ _ _ _ Hs). eexists. split; [done|]. split_and!.
  - unfold heap_get, heap_set in *. by rewrite (heap_apart (T := Scope V F)).
  - eexists. apply heap_get_set. by eapply heap_get_lt.
  - intros a Ha. apply (there_same _ w); [|by apply Hf]. unfold heap_set. by rewrite (heap_apart (T := Scope V F)).
Qed.

Lemma awaitFirstFailure_returns n reason abandoned w : owed n w -> cells_there w ->
  exists w', awaitFirstFailure (F := F) nil_dereference stuck n completions scope ctx reason abandoned w = (inl tt, w')
  /\ cells_there w'.
Proof.
  revert abandoned w. induction n as [|n IH]; intros abandoned w Howed Hw; cbn [awaitFirstFailure]; [by eexists|].
  destruct (completions_arrive _ Hends n w Howed (proj1 Hw)) as [[k w1] Hwait].
  unfold call_bind at 1, await_alone, select. rewrite Hwait.
  pose proof (cells_there_waits _ _ _ _ _ Hwait Hw) as Hw1. destruct k.
  - pose proof (waits_message _ _ _ _ Hwait) as Hready. unfold can_proceed in Hready. unfold proceed.
    destruct (native_recv (Some completions) w1) as [[[[index exit] open] w2]|] eqn:Hr; [|done].
    pose proof (cells_there_recv _ _ _ Hr Hw1) as Hw2.
    pose proof (completions_counted _ Hends _ _ _ _ _ _ Howed Hwait Hr) as Howed2.
    destruct (IsSuccess exit || abandoned); [by apply IH|].
    destruct (cells_there_Interrupt reason w2 Hw2) as (w3 & Hi & Hw3).
    unfold call_bind. rewrite Hi. apply IH; [by eapply (still_owed _ Hends)|done].
  - apply waits_done in Hwait. rewrite ctx_WithoutCancel_Err in Hwait. by destruct Hwait.
Qed.

(** Each fiber in turn, and what it ended with is what it stays with. *)
Definition ended_with (w : World) (a : nat) (x : Exit V) : Prop :=
  exists f, heap_get a w = Some f /\ fiber_Wait f = Some x.

Lemma ended_with_waits c ready w k w' a x :
  waits c ready w = Some (k, w') -> private a -> ended_with w a x -> ended_with w' a x.
Proof.
  intros Hw Ha (f & Hf & Hx). destruct (private_waits _ _ Ha _ _ _ _ _ f Hw Hf) as (g & Hg & [->|[y ->]]);
    [by exists f|]. exists (fiber_Complete y f). split; [done|].
  destruct f as [id cancelled [[|] res]]; [done|]. by unfold fiber_Wait, Wait in Hx.
Qed.

Lemma collect_fibers_ended rest w :
  (forall a, a ∈ rest -> a ∈ addresses) -> cells_there w ->
  exists exits w', collect_fibers stuck ctx rest w = (inl exits, w')
  /\ Forall2 (ended_with w') rest exits
  /\ forall a x, private a -> ended_with w a x -> ended_with w' a x.
Proof.
  revert w. induction rest as [|a rest IH]; intros w Hin Hw; cbn [collect_fibers].
  { exists [], w. split_and!; [done|constructor|done]. }
  assert (a ∈ addresses) as Ha by (apply Hin; left).
  destruct (fibers_end _ Hends a w Ha (proj2 (proj2 Hw) a Ha)) as [[k w1] Hwait].
  unfold call_bind at 1, await_alone, select. rewrite Hwait.
  pose proof (cells_there_waits _ _ _ _ _ Hwait Hw) as Hw1. destruct k.
  - pose proof (waits_message _ _ _ _ Hwait) as Hready. unfold can_proceed in Hready. unfold proceed.
    destruct (waited_for a w1) as [[x w2]|] eqn:Hx; [|done].
    assert (w2 = w1 /\ ended_with w1 a x) as [-> Hended].
    { unfold waited_for in Hx. destruct (heap_get a w1) as [f|] eqn:Hf; [|done]; cbn in Hx.
      destruct (fiber_Wait f) as [y|] eqn:Hy; [|done]; cbn in Hx. injection Hx as -> <-.
      split; [done|]. by exists f. }
    destruct (IH w1) as (exits & w3 & Hrun & Hall & Hkeep); [intros b Hb; apply Hin; by right|done|].
    exists (x :: exits), w3. unfold call_map, call_bind. rewrite Hrun. split_and!; [done| |].
    + constructor; [by apply Hkeep; [apply Hp|]|done].
    + intros b y Hb Hy. apply Hkeep; [done|]. by eapply ended_with_waits.
  - apply waits_done in Hwait. rewrite ctx_WithoutCancel_Err in Hwait. by destruct Hwait.
Qed.

End Group.
(** * Properties *)

(** C23. A parallel traversal waits for every branch. When the branches' effects have been
    built and each was started, nobody else holds their fibers, each sends its
    completion and each ends, the traversal comes back, bounded or not. The effects
    are built input by input, the fiber at the k-th address is the one started k-th,
    for the k-th of them, and the k-th exit is the one that very fiber has completed
    with: the traversal's is these exits, in the order of the inputs, composed by
    [collectResults], the failures of closing the private scope after them. With no
    input there is nothing to start and the result is the empty list. *)
Theorem traversals_wait_for_every_branch {R E A B} `{Erased V R} `{Erased V B} `{Erased V (list B)}
    (inputs : list A) (limit : Z)
    (f : A -> call V World (Work error_value unsupported zero_effect (R := R) (E := E) call_work B))
    (i : Interpretation V Ctx State) (w w0 w1 : World) (works : list W)
    (completions : nat) (addresses : list nat) (owed : nat -> World -> Prop) :
  let ctx := interp_Context i in
  let traversal := ForEachParN (F := F) error_value unsupported zero_effect nil_dereference stuck send_on_closed
                     call_work go identifiers_cell branch inputs limit f in
  let scope := heap_fresh (T := Scope V F) w0 in
  ctx_Err ctx w = None ->
  parallelBranches error_value unsupported zero_effect call_work inputs f
    (asEnvironment (interp_Environment i)) w = (inl works, w0) ->
  (works = [] -> runs traversal i w = (ExitSuccess (erase []), w0))
  /\ (works <> [] ->
     startAll_at scope ctx (interp_State i) works limit (snd (heap_new (T := Scope V F) NewScope w0))
       = (inl (completions, inl addresses), w1) ->
     (forall a, a ∈ addresses -> private a) ->
     group_ends ctx scope completions addresses owed -> owed (length works) w1 ->
     is_Some (heap_get (T := channel) completions w1) -> is_Some (heap_get (T := Scope V F) scope w1) ->
     built_in_order f (asEnvironment (interp_Environment i)) inputs works w w0
     /\ (exists permits v, heap_of (Fiber V) v = heap_of (Fiber V) w0
        /\ started_in_order (scope_ctx scope ctx) completions permits 0 works addresses v w1)
     /\ length addresses = length works
     /\ exists exits w2, Forall2 (ended_with w2) addresses exits
     /\ runs traversal i w
        = match scope_Close (F := F) nil_dereference scope ctx (ExitSuccess (erase exits)) ErrSiblingFailed w2 with
          | (inl cleanup, w3) => (composeCleanup (collectResults (B := B) exits) cleanup, w3)
          | (inr p, w3) => (ExitFailure (DieCause (capture p)), w3)
          end).
Proof.
  intros ctx traversal scope Hlive Hbuilt. split.
  - intros ->. unfold traversal, ForEachParN. rewrite runs_fromRuntime. fold ctx. rewrite Hlive.
    unfold call_bind at 1. by rewrite Hbuilt.
  - intros Hne Hstart Hp Hends Howed Hc Hs. split; [by apply parallelBranches_built|].
    destruct (startAll_started _ _ _ _ _ _ _ _ _ Hstart Hp) as (Hstarted & Hlen & Hthere).
    split; [|split; [done|]].
    { destruct Hstarted as (permits & v & Hv & Hst). exists permits, v. split; [|exact Hst].
      rewrite Hv. unfold heap_new; cbn. by rewrite (heap_apart (T := Scope V F)). }
    destruct (awaitFirstFailure_returns ctx scope completions addresses owed Hends Hp (length addresses)
      ErrSiblingFailed false w1) as (v & Hawait & Hv); [by rewrite Hlen|by split_and!|].
    destruct (collect_fibers_ended ctx scope completions addresses owed Hends Hp addresses v)
      as (exits & w2 & Hcollect & Hall & _); [done|done|].
    exists exits, w2. split; [done|].
    unfold traversal, ForEachParN. rewrite runs_fromRuntime. fold ctx. rewrite Hlive.
    unfold call_bind at 1. rewrite Hbuilt. destruct works as [|work works]; [done|].
    unfold call_bind at 1, RunAll. cbn [interp_Context interp_State].
    unfold call_bind at 1, alloc at 1.
    change (heap_new NewScope w0) with (scope, snd (heap_new (T := Scope V F) NewScope w0)). cbv beta iota.
    unfold call_bind at 1. rewrite Hstart. unfold call_bind at 1. rewrite Hawait.
    unfold call_bind at 1. rewrite Hcollect. unfold call_bind at 1.
    by destruct (scope_Close _ _ _ _ _ w2) as [[cleanup|p] w3].
Qed.

(** A branch under a bound runs with a permit or not at all: without a bound it just
    runs; waiting for a permit it is given up with its own context, having run
    nothing; with one it runs, and the permit goes back however it ends, a panic
    included, room for the next branch. *)
Theorem permits_come_back (permits address : nat) (work : Ctx -> State -> call V World (Exit V))
    (ctx : Ctx) (state : State) (w : World) :
  let bounded := withPermit stuck send_on_closed (Some address) work ctx state in
  withPermit stuck send_on_closed None work = work
  /\ (forall w1, waits ctx (can_proceed (fun w => '(sent, w) ← native_send (Some address) tt w;
                                                 Some ((sent : bool, None : option (Exit V)), w))) w
                 = Some (case_done, w1) ->
        bounded w = (inl (ExitFailure (InterruptCause (CancellationReason ctx w1))), w1))
  /\ (forall w1 c, waits ctx (can_proceed (fun w => '(sent, w) ← native_send (Some address) tt w;
                                                 Some ((sent : bool, None : option (Exit V)), w))) w
                 = Some (case_message, w1) ->
        heap_get (T := NativeChannel unit) address w1 = Some c -> native_closed c = false ->
        exists w2, heap_get (T := NativeChannel unit) address w2
                   = Some (MkNative (native_buffer c ++ [tt]) (native_room c) (native_senders c) false)
        /\ forall result w3 c3, work ctx state w2 = (result, w3) ->
           heap_get (T := NativeChannel unit) address w3 = Some c3 -> native_buffer c3 <> [] ->
           exists w4 c4, bounded w = (result, w4)
           /\ heap_get (T := NativeChannel unit) address w4 = Some c4
           /\ length (native_buffer c4) + length (native_senders c4) + 1
              = length (native_buffer c3) + length (native_senders c3)).
Proof.
  intros bounded. split; [done|]. split.
  - intros w1 Hw. unfold bounded, withPermit. unfold call_bind at 1, select. rewrite Hw.
    reflexivity.
  - intros w1 c Hw Hc Hopen. pose proof (waits_message _ _ _ _ Hw) as Hready.
    unfold can_proceed in Hready. unfold native_send in Hready at 1; cbn -[Nat.ltb] in Hready.
    rewrite Hc in Hready; cbn -[Nat.ltb] in Hready. rewrite Hopen in Hready.
    destruct (length (native_buffer c) <? native_room c) eqn:Hroom; [|by cbn in Hready].
    exists (heap_set address (MkNative (native_buffer c ++ [tt]) (native_room c) (native_senders c) false) w1).
    split; [apply heap_get_set; by eapply heap_get_lt|].
    intros result w3 c3 Hwork Hc3 Hne. unfold bounded, withPermit. unfold call_bind at 1, select. rewrite Hw.
    unfold proceed at 1, native_send at 1; cbn -[Nat.ltb]. rewrite Hc; cbn -[Nat.ltb]. rewrite Hopen, Hroom; cbn.
    unfold returning_permit. rewrite Hwork. unfold proceed, native_recv; cbn. rewrite Hc3; cbn.
    destruct (native_buffer c3) as [|[] buffered]; [done|].
    destruct (native_senders c3) as [|[] senders]; cbn; eexists _, _;
      (split; [reflexivity|]); (split; [apply heap_get_set; by eapply heap_get_lt|]); cbn;
      rewrite ?length_app; cbn; lia.
Qed.

End GroupsFacts.
