(* ===== verification/Workers.v ===== *)
(** The goroutines bodies in direct style run on ([effect/gen_workers.go]).

    The pool is a list of workers, each somewhere in [workBodies]; the steps are what
    dispatching goroutines and workers do, interleaved in every order. Time passes in
    steps of its own. *)

From S2P Require Import Prelude Time.

Section Workers.
Context {Job : Type}.

Definition bodyIdleFor : Duration := 1000000000%Z.

(** Where a worker is: its first job handed over and not taken, a job running, back
    from a job with its timer still to be set, waiting for a job until its timer
    fires, and gone. *)
Inductive worker : Type :=
| Starting (job : Job) | Working (job : Job) | Returned | Idle (fires : Time) | Gone.

Record pool : Type := MkPool { workers : list worker; now : Time }.

Definition busy (w : worker) : bool := match w with Starting _ | Working _ | Returned => true | _ => false end.
Definition idle (w : worker) : bool := match w with Idle _ => true | _ => false end.
Definition count (f : worker -> bool) (ws : list worker) : nat := length (filter (fun w => f w = true) ws).

Definition empty_pool (t : Time) : pool := MkPool [] t.

Definition with_workers (ws : list worker) (p : pool) : pool := MkPool ws (now p).

(** [dispatchBody]: the unbuffered send finds a waiting worker -- which, is up to the
    scheduler -- or, where there is none, a new worker is made and handed the job. *)
Definition dispatchBody (job : Job) (receiver : option nat) (p : pool) : option pool :=
  match receiver with
  | Some i =>
      match workers p !! i with
      | Some (Idle _) => Some (with_workers (<[i := Working job]> (workers p)) p)
      | _ => None
      end
  | None =>
      if existsb idle (workers p) then None
      else Some (with_workers (workers p ++ [Starting job]) p)
  end.

(** What a worker does next. [Goexits] is a job that ends its goroutine. *)
Inductive move : Type := Takes | Returns | Goexits | Waits | Expires.

Definition workBodies (i : nat) (m : move) (p : pool) : option pool :=
  let to w p := with_workers (<[i := w]> (workers p)) p in
  match workers p !! i, m with
  | Some (Starting job), Takes => Some (to (Working job) p)
  | Some (Working job), Returns => Some (to Returned p)
  | Some (Working job), Goexits => Some (to Gone p)
  | Some Returned, Waits => Some (to (Idle (time_Add (now p) bodyIdleFor)) p)
  | Some (Idle fires), Expires => if time_Before (now p) fires then None else Some (to Gone p)
  | _, _ => None
  end.

Definition passes (d : Duration) (p : pool) : pool := MkPool (workers p) (time_Add (now p) d).

(** A step, with the body it is asked to dispatch. *)
Inductive pool_step : pool -> list Job -> pool -> Prop :=
| dispatch_step job receiver p p' : dispatchBody job receiver p = Some p' -> pool_step p [job] p'
| worker_step i m p p' : workBodies i m p = Some p' -> pool_step p [] p'
| time_step d p : (0 <= d)%Z -> pool_step p [] (passes d p).

(** A run of the pool: the bodies it was given, the states it was in, the last one
    included. *)
Inductive pool_run : list Job -> list pool -> pool -> Prop :=
| run_start t : pool_run [] [empty_pool t] (empty_pool t)
| run_next given states p jobs p' :
    pool_run given states p -> pool_step p jobs p' -> pool_run (given ++ jobs) (states ++ [p']) p'.

(** * Every body runs once

    What is seen from outside: a goroutine begins to run a body, and is done with it. *)

Definition to_start (w : worker) : list Job := match w with Starting job => [job] | _ => [] end.
Definition at_work (w : worker) : list Job := match w with Working job => [job] | _ => [] end.

Definition begins (w w' : worker) : list Job := match at_work w with [] => at_work w' | _ => [] end.
Definition finishes (w w' : worker) : list Job := match at_work w' with [] => at_work w | _ => [] end.

(** The list of workers never gets shorter; a worker that was not there was gone. *)
Fixpoint each_worker (seen : worker -> worker -> list Job) (ws ws' : list worker) : list Job :=
  match ws' with
  | [] => []
  | w' :: ws' => seen (default Gone (head ws)) w' ++ each_worker seen (tail ws) ws'
  end.

Fixpoint over_run (seen : worker -> worker -> list Job) (states : list pool) : list Job :=
  match states with
  | p :: ((p' :: _) as rest) => each_worker seen (workers p) (workers p') ++ over_run seen rest
  | _ => []
  end.

Definition begun : list pool -> list Job := over_run begins.
Definition finished : list pool -> list Job := over_run finishes.

(** ** What one step shows *)

Definition keeps_quiet (seen : worker -> worker -> list Job) : Prop := forall w, seen w w = [].

Lemma begins_quiet : keeps_quiet begins.
Proof. by intros []. Qed.
Lemma finishes_quiet : keeps_quiet finishes.
Proof. by intros []. Qed.

Lemma each_worker_same seen ws : keeps_quiet seen -> each_worker seen ws ws = [].
Proof. intros Hq. induction ws as [|w ws IH]; cbn; [done|]. by rewrite Hq, IH. Qed.

Lemma each_worker_insert seen i w w' ws :
  keeps_quiet seen -> ws !! i = Some w -> each_worker seen ws (<[i := w']> ws) = seen w w'.
Proof.
  intros Hq. revert i. induction ws as [|x ws IH]; intros [|i] Hi; cbn in *; [done|done| |].
  - injection Hi as ->. by rewrite each_worker_same, app_nil_r.
  - rewrite Hq. by apply IH.
Qed.

Lemma each_worker_snoc seen ws w' :
  keeps_quiet seen -> each_worker seen ws (ws ++ [w']) = seen Gone w'.
Proof. intros Hq. induction ws as [|x ws IH]; cbn; [by rewrite app_nil_r|]. by rewrite Hq, IH. Qed.

Lemma over_run_snoc seen states p p' :
  over_run seen (states ++ [p] ++ [p'])
  = over_run seen (states ++ [p]) ++ each_worker seen (workers p) (workers p').
Proof.
  induction states as [|q states IH]; cbn [app over_run]; [by rewrite app_nil_r|].
  destruct states as [|q' states]; cbn [app over_run] in *; [by rewrite !app_nil_r|].
  by rewrite IH, app_assoc.
Qed.

Lemma pool_run_last given states p : pool_run given states p -> exists before, states = before ++ [p].
Proof. destruct 1; [by exists []|by eexists]. Qed.

Lemma insert_split i (w w' : worker) ws :
  ws !! i = Some w -> exists before after, ws = before ++ w :: after /\ <[i := w']> ws = before ++ w' :: after.
Proof.
  intros Hi. exists (take i ws), (drop (S i) ws). split; [by rewrite take_drop_middle|].
  apply insert_take_drop. by eapply lookup_lt_Some.
Qed.

Lemma count_app f ws ws' : count f (ws ++ ws') = count f ws + count f ws'.
Proof. unfold count. by rewrite filter_app, length_app. Qed.

Lemma workers_count_cons f w ws : count f (w :: ws) = (if f w then 1 else 0) + count f ws.
Proof. unfold count. rewrite filter_cons. by destruct (f w). Qed.

Lemma no_idle ws : existsb idle ws = false -> count idle ws = 0.
Proof.
  unfold count. induction ws as [|w ws IH]; cbn [existsb]; [done|]. intros [Hw Hws]%orb_false_iff.
  rewrite filter_cons, Hw. by apply IH.
Qed.

(** The bodies given in a step and those to start before it are those it begins and
    those to start after; those at work and those begun are those finished and those
    still at work; and a step adds a goroutine only if none was idle. *)
Definition accounts (ws : list worker) (jobs : list Job) (ws' : list worker) : Prop :=
  (ws ≫= to_start) ++ jobs ≡ₚ each_worker begins ws ws' ++ (ws' ≫= to_start)
  /\ (ws ≫= at_work) ++ each_worker begins ws ws' ≡ₚ each_worker finishes ws ws' ++ (ws' ≫= at_work)
  /\ (count busy ws' + count idle ws' <= count busy ws + count idle ws \/ count idle ws' = 0).

Lemma accounts_insert ws i w w' jobs :
  ws !! i = Some w ->
  to_start w ++ jobs ≡ₚ begins w w' ++ to_start w' ->
  at_work w ++ begins w w' ≡ₚ finishes w w' ++ at_work w' ->
  (if busy w' then 1 else 0) + (if idle w' then 1 else 0)
  <= (if busy w then 1 else 0) + (if idle w then 1 else 0) ->
  accounts ws jobs (<[i := w']> ws).
Proof.
  intros Hi Hs Hw Hc. unfold accounts.
  rewrite !(each_worker_insert _ _ _ _ _ begins_quiet Hi), (each_worker_insert _ _ _ _ _ finishes_quiet Hi).
  destruct (insert_split i w w' ws Hi) as (before & after & -> & ->).
  rewrite !bind_app, !bind_cons, !count_app, !workers_count_cons. split_and!.
  - transitivity ((to_start w ++ jobs) ++ (before ≫= to_start) ++ (after ≫= to_start)); [solve_Permutation|].
    rewrite Hs. solve_Permutation.
  - transitivity ((at_work w ++ begins w w') ++ (before ≫= at_work) ++ (after ≫= at_work)); [solve_Permutation|].
    rewrite Hw. solve_Permutation.
  - left. destruct (busy w), (busy w'), (idle w), (idle w'); lia.
Qed.

Lemma dispatch_accounts job receiver p p' :
  dispatchBody job receiver p = Some p' -> accounts (workers p) [job] (workers p').
Proof.
  unfold dispatchBody. destruct receiver as [i|].
  - destruct (workers p !! i) as [[| | |fires|]|] eqn:Hi; try done. intros [= <-]. cbn [workers with_workers].
    eapply accounts_insert; [exact Hi|done..].
  - destruct (existsb idle (workers p)) eqn:Hn; [done|]. intros [= <-]. apply no_idle in Hn.
    cbn [workers with_workers]. unfold accounts.
    rewrite !(each_worker_snoc _ _ _ begins_quiet), (each_worker_snoc _ _ _ finishes_quiet).
    rewrite !bind_app, !count_app; cbn. rewrite !app_nil_r. split_and!; [done|done|].
    right. rewrite Hn. done.
Qed.

Lemma worker_accounts i m p p' : workBodies i m p = Some p' -> accounts (workers p) [] (workers p').
Proof.
  unfold workBodies. destruct (workers p !! i) as [[job|job| |fires|]|] eqn:Hi; destruct m; try done.
  5: destruct (time_Before (now p) fires); [done|].
  all: intros [= <-]; cbn [workers with_workers]; eapply accounts_insert; [exact Hi|done||cbn; lia..].
Qed.

Lemma step_accounts p jobs p' : pool_step p jobs p' -> accounts (workers p) jobs (workers p').
Proof.
  intros []; [by eapply dispatch_accounts|by eapply worker_accounts|]. unfold accounts; cbn.
  rewrite (each_worker_same _ _ begins_quiet), (each_worker_same _ _ finishes_quiet), !app_nil_r.
  split_and!; [done|done|by left].
Qed.

(** ** A run *)

Definition run_ok (given : list Job) (states : list pool) (p : pool) : Prop :=
  given ≡ₚ begun states ++ (workers p ≫= to_start)
  /\ begun states ≡ₚ finished states ++ (workers p ≫= at_work)
  /\ exists q, q ∈ states /\ count busy (workers p) + count idle (workers p) <= count busy (workers q).

Lemma pool_run_ok given states p : pool_run given states p -> run_ok given states p.
Proof.
  induction 1 as [t|given states p jobs p' Hrun (H1 & H2 & q & Hq & Hc) Hstep].
  { split_and!; [done|done|]. exists (empty_pool t). split; [by left|done]. }
  destruct (step_accounts _ _ _ Hstep) as (A1 & A2 & A3).
  destruct (pool_run_last _ _ _ Hrun) as [before ->].
  unfold run_ok, begun, finished in *. rewrite <- !app_assoc, !over_run_snoc. split_and!.
  - rewrite H1, <- !app_assoc, A1. done.
  - rewrite H2, <- !app_assoc, A2. solve_Permutation.
  - destruct A3 as [A3|A3].
    + exists q. split; [rewrite app_assoc; apply elem_of_app; by left|lia].
    + exists p'. split; [rewrite app_assoc; apply elem_of_app; right; by left|lia].
Qed.

(** A body no worker has taken yet is with a worker of its own. *)
Lemma starting_is_taken i job p :
  workers p !! i = Some (Starting job) ->
  exists p', workBodies i Takes p = Some p' /\ workers p' !! i = Some (Working job).
Proof.
  intros Hi. unfold workBodies. rewrite Hi. eexists. split; [done|]. cbn.
  apply list_lookup_insert_eq. by eapply lookup_lt_Some.
Qed.

Lemma starting_stays i job p jobs p' :
  workers p !! i = Some (Starting job) -> pool_step p jobs p' ->
  workers p' !! i = Some (Starting job) \/ workers p' !! i = Some (Working job) /\ workBodies i Takes p = Some p'.
Proof.
  intros Hi Hs. destruct Hs as [j receiver p p' E|k m p p' E|d p Hd]; [| |by left].
  - left. unfold dispatchBody in E. destruct receiver as [k|].
    + destruct (workers p !! k) as [[| | |fires|]|] eqn:Hk; try done. injection E as <-. cbn.
      rewrite list_lookup_insert_ne; [done|]. intros ->. congruence.
    + destruct (existsb _ _); [done|]. injection E as <-. cbn. by apply lookup_app_l_Some.
  - unfold workBodies in E. destruct (decide (k = i)) as [->|Hne].
    + rewrite Hi in E. destruct m; try done. right. unfold workBodies. rewrite Hi. split; [|done].
      injection E as <-. cbn. apply list_lookup_insert_eq. by eapply lookup_lt_Some.
    + left. destruct (workers p !! k) as [[j|j| |fires|]|] eqn:Hk; destruct m; try done.
      5: destruct (time_Before (now p) fires); [done|].
      all: injection E as <-; cbn; by rewrite list_lookup_insert_ne.
Qed.
(** A body dispatched is at work at once in a goroutine that was idle, or, when none
    was, it has a new goroutine of its own. *)
Lemma dispatched_at_once job receiver p p' :
  dispatchBody job receiver p = Some p' ->
  (exists i fires, workers p !! i = Some (Idle fires) /\ workers p' = <[i := Working job]> (workers p))
  \/ (count idle (workers p) = 0 /\ workers p' = workers p ++ [Starting job]).
Proof.
  unfold dispatchBody. destruct receiver as [i|].
  - destruct (workers p !! i) as [[| | |fires|]|] eqn:Hi; try done. intros [= <-]. left. eauto.
  - destruct (existsb idle (workers p)) eqn:Hn; [done|]. intros [= <-]. right. by split; [apply no_idle|].
Qed.
End Workers.

(** C33. Over every run of the pool, whatever the interleaving of dispatches, workers
    and time, each body is run once: the bodies the pool was given are those some
    goroutine has begun to run, each once, and those just handed to a goroutine of
    their own; and those begun are those finished and those being run. None is queued
    behind another: a body dispatched is run by a goroutine that was idle or, when
    none was, gets a new one, which can begin it at once and keeps it until it does.
    And the pool holds no more goroutines than were at one time away from its channel:
    handed a body, running one, or on the way back from one. *)
Theorem bodies_run_once_and_never_queue {Job} (given : list Job) (states : list pool) (p : pool) :
  pool_run given states p ->
  given ≡ₚ begun states ++ (workers p ≫= to_start)
  /\ begun states ≡ₚ finished states ++ (workers p ≫= at_work)
  /\ (forall job receiver p', dispatchBody job receiver p = Some p' ->
       (exists i fires, workers p !! i = Some (Idle fires) /\ workers p' = <[i := Working job]> (workers p))
       \/ (count idle (workers p) = 0 /\ workers p' = workers p ++ [Starting job]))
  /\ (forall i job, workers p !! i = Some (Starting job) ->
       (exists p', workBodies i Takes p = Some p' /\ workers p' !! i = Some (Working job))
       /\ forall jobs p', pool_step p jobs p' ->
          workers p' !! i = Some (Starting job)
          \/ workers p' !! i = Some (Working job) /\ workBodies i Takes p = Some p')
  /\ exists q, q ∈ states /\ count busy (workers p) + count idle (workers p) <= count busy (workers q).
Proof.
  intros (H1 & H2 & H3)%pool_run_ok. split_and!; [done|done| | |done].
  - intros job receiver p'. apply dispatched_at_once.
  - intros i job Hi. split; [by apply starting_is_taken|]. intros jobs p' Hs. by eapply starting_stays.
Qed.
