(* ===== verification/TestSupport.v ===== *)
(** What tests are written against ([effecttest]): a clock that moves only when it is
    told to, recorders, and a file system of functions.

    The clock's lock sections are functions of its fields and of the channels that are
    closed; its callers -- sleeps, waits for sleeps, advances -- interleave in every
    order. *)

From stdpp Require Import relations.
From S2P Require Import Prelude Outcome Traversal OutcomeFacts Cause Interpreter InterpreterFacts.
From S2P Require Import Algebra Effects EffectsFacts Observation Calls Completion Scope Time State.
From S2P Require Import RuntimePort Lifetimes.

(** * [ManualClock] ([clock.go]) *)

Module Clock.

Record clockSleeper : Type := MkSleeper { deadline : Time; ready : nat }.

(** Channels are numbers, and [closed] those that were closed; [made] is the first that
    was not made yet. *)
Record ManualClock : Type := MkClock {
  now : Time;
  sleepers : list clockSleeper;
  changes : nat;
  closed : gset nat;
  made : nat
}.

Definition NewManualClock (start : Time) : ManualClock := MkClock start [] 0 ∅ 1.

(** Closing a channel twice panics, which is [None]. *)
Definition close (channel : nat) (clock : ManualClock) : option ManualClock :=
  if decide (channel ∈ closed clock) then None
  else Some (MkClock (now clock) (sleepers clock) (changes clock) ({[channel]} ∪ closed clock) (made clock)).

Definition signalChange (clock : ManualClock) : option ManualClock :=
  clock ← close (changes clock) clock;
  Some (MkClock (now clock) (sleepers clock) (made clock) (closed clock) (S (made clock))).

Definition set_sleepers (ss : list clockSleeper) (clock : ManualClock) : ManualClock :=
  MkClock (now clock) ss (changes clock) (closed clock) (made clock).

(** The lock section of a [Sleep] that does wait; one of no duration never registers. *)
Definition register (duration : Duration) (clock : ManualClock) : option (clockSleeper * ManualClock) :=
  let sleeper := MkSleeper (time_Add (now clock) duration) (made clock) in
  clock ← signalChange
    (MkClock (now clock) (sleepers clock ++ [sleeper]) (changes clock) (closed clock) (S (made clock)));
  Some (sleeper, clock).

Definition is_sleeper (target sleeper : clockSleeper) : bool := ready sleeper =? ready target.

Definition remove (target : clockSleeper) (clock : ManualClock) : option (bool * ManualClock) :=
  match list_find (fun sleeper => is_sleeper target sleeper = true) (sleepers clock) with
  | Some (index, _) =>
      clock ← signalChange (set_sleepers (delete index (sleepers clock)) clock);
      Some (true, clock)
  | None => Some (false, clock)
  end.

(** The loop of [Advance]: what stays pending, the others' channels being closed. *)
Fixpoint wake (left_ pending : list clockSleeper) (clock : ManualClock) : option (list clockSleeper * ManualClock) :=
  match left_ with
  | [] => Some (pending, clock)
  | sleeper :: left_ =>
      if time_After (deadline sleeper) (now clock) then wake left_ (pending ++ [sleeper]) clock
      else clock ← close (ready sleeper) clock; wake left_ pending clock
  end.

Definition Advance (duration : Duration) (clock : ManualClock) : option ManualClock :=
  if (duration <? 0)%Z then None
  else
    let clock := MkClock (time_Add (now clock) duration) (sleepers clock) (changes clock) (closed clock) (made clock) in
    '(pending, clock) ← wake (sleepers clock) [] clock;
    signalChange (set_sleepers pending clock).

Definition PendingSleeps (clock : ManualClock) : nat := length (sleepers clock).

(** One turn of [WaitForPending]: it returns, or waits on a channel. *)
Definition check_pending (count : nat) (clock : ManualClock) : option nat :=
  if count <=? length (sleepers clock) then None else Some (changes clock).

(** ** Callers *)

(** A sleep that waits on both its channel and its context, one whose context was
    seen first, one that lost its removal to an advance, and those that returned nil
    and the cause; a wait for sleeps, on the channel it saw, one that returned nil and
    one that returned the cause. *)
Inductive caller : Type :=
| Sleeping (sleeper : clockSleeper) | Cancelled (sleeper : clockSleeper) | Draining (sleeper : clockSleeper)
| Woken (sleeper : clockSleeper) | Stopped (sleeper : clockSleeper)
| Watching (count channel : nat) | Satisfied (count : nat) | GaveUp (count : nat).

Record scene : Type := MkScene { clock : ManualClock; callers : list caller }.

Definition watch (count : nat) (clock : ManualClock) : caller :=
  match check_pending count clock with Some channel => Watching count channel | None => Satisfied count end.

Inductive clock_step : scene -> scene -> Prop :=
| sleeps c cs d s c' : (0 < d)%Z -> register d c = Some (s, c') ->
    clock_step (MkScene c cs) (MkScene c' (cs ++ [Sleeping s]))
| wakes c cs i s : cs !! i = Some (Sleeping s) -> ready s ∈ closed c ->
    clock_step (MkScene c cs) (MkScene c (<[i := Woken s]> cs))
| cancels c cs i s : cs !! i = Some (Sleeping s) ->
    clock_step (MkScene c cs) (MkScene c (<[i := Cancelled s]> cs))
| removes c cs i s removed c' : cs !! i = Some (Cancelled s) -> remove s c = Some (removed, c') ->
    clock_step (MkScene c cs) (MkScene c' (<[i := if removed : bool then Stopped s else Draining s]> cs))
| drains c cs i s : cs !! i = Some (Draining s) -> ready s ∈ closed c ->
    clock_step (MkScene c cs) (MkScene c (<[i := Woken s]> cs))
| advances c cs d c' : (0 <= d)%Z -> Advance d c = Some c' ->
    clock_step (MkScene c cs) (MkScene c' cs)
| watches c cs count : clock_step (MkScene c cs) (MkScene c (cs ++ [watch count c]))
| notices c cs i count channel : cs !! i = Some (Watching count channel) -> channel ∈ closed c ->
    clock_step (MkScene c cs) (MkScene c (<[i := watch count c]> cs))
| gives_up c cs i count channel : cs !! i = Some (Watching count channel) ->
    clock_step (MkScene c cs) (MkScene c (<[i := GaveUp count]> cs)).

Definition clock_reachable (s : scene) : Prop := exists start, rtc clock_step (MkScene (NewManualClock start) []) s.

(** The sleep a caller registered. *)
Definition ticket (caller : caller) : option nat :=
  match caller with
  | Sleeping s | Cancelled s | Draining s | Woken s | Stopped s => Some (ready s)
  | _ => None
  end.

(** ** Invariant *)

Record clock_ok (c : ManualClock) : Prop := {
  ok_sleepers : forall s, s ∈ sleepers c -> ready s ∉ closed c /\ ready s < made c /\ ready s <> changes c
                                             /\ (now c < deadline s)%Z;
  ok_distinct : NoDup (map ready (sleepers c));
  ok_changes : changes c ∉ closed c /\ changes c < made c;
  ok_closed : forall channel, channel ∈ closed c -> channel < made c
}.

Definition due (c : ManualClock) (s : clockSleeper) : Prop := ready s ∈ closed c /\ (deadline s <= now c)%Z.

(** A sleep that waits is registered, or was woken because it was due. *)
Definition caller_ok (c : ManualClock) (caller : caller) : Prop :=
  match caller with
  | Sleeping s | Cancelled s => s ∈ sleepers c \/ due c s
  | Draining s | Woken s => due c s
  | Stopped s => ready s ∉ closed c /\ ready s <> changes c /\ ready s < made c
                 /\ (forall s', s' ∈ sleepers c -> ready s' <> ready s)
  | Watching count channel =>
      channel ∈ closed c \/ channel = changes c /\ length (sleepers c) < count
  | Satisfied _ | GaveUp _ => True
  end.

Definition tickets_ok (c : ManualClock) (cs : list caller) : Prop :=
  (forall i n, map ticket cs !! i = Some (Some n) -> n < made c) /\
  (forall i j n, map ticket cs !! i = Some (Some n) -> map ticket cs !! j = Some (Some n) -> i = j).

Definition scene_ok (s : scene) : Prop :=
  clock_ok (clock s) /\ Forall (caller_ok (clock s)) (callers s) /\ tickets_ok (clock s) (callers s).

(** ** The lock sections *)

Definition signalled (c : ManualClock) : ManualClock :=
  MkClock (now c) (sleepers c) (made c) ({[changes c]} ∪ closed c) (S (made c)).

Lemma signalChange_signalled c : clock_ok c -> signalChange c = Some (signalled c).
Proof. intros [_ _ [? _] _]. unfold signalChange, close. by rewrite decide_False. Qed.

Lemma signalled_ok c : clock_ok c -> clock_ok (signalled c).
Proof.
  intros [Hs Hd [Hc Hm] Hcl]. split; simpl; [|done| |].
  - intros s H. destruct (Hs s H) as (? & ? & ? & ?). set_solver by lia.
  - split; [|lia]. rewrite elem_of_union, elem_of_singleton. intros [?|H%Hcl]; lia.
  - intros channel. rewrite elem_of_union, elem_of_singleton. intros [->|H%Hcl]; lia.
Qed.

Definition registered (d : Duration) (c : ManualClock) : ManualClock :=
  MkClock (now c) (sleepers c ++ [MkSleeper (time_Add (now c) d) (made c)]) (changes c) (closed c) (S (made c)).

Lemma registered_ok d c : (0 < d)%Z -> clock_ok c -> clock_ok (registered d c).
Proof.
  intros Hd [Hs Hn [Hc Hm] Hcl]. split; simpl; [| |split; [done|lia]|intros ? ?%Hcl; lia].
  - intros s [H| ->%list_elem_of_singleton]%elem_of_app.
    + destruct (Hs s H) as (? & ? & ? & ?). repeat split; [done|lia|done..].
    + simpl. unfold time_Add. repeat split; [|lia..]. intros ?%Hcl; lia.
  - rewrite map_app. apply NoDup_app. repeat split; [done| |apply NoDup_singleton].
    intros n (s & -> & H)%list_elem_of_fmap. destruct (Hs s H) as (_ & ? & _).
    simpl. rewrite list_elem_of_singleton. lia.
Qed.

Lemma register_registered d c : clock_ok c -> (0 < d)%Z ->
  register d c = Some (MkSleeper (time_Add (now c) d) (made c), signalled (registered d c)).
Proof.
  intros Hc Hd. unfold register. fold (registered d c).
  by rewrite (signalChange_signalled _ (registered_ok d c Hd Hc)).
Qed.

Lemma set_sleepers_ok ss c : sublist ss (sleepers c) -> clock_ok c -> clock_ok (set_sleepers ss c).
Proof.
  intros Hss [Hs Hn ? ?]. split; simpl; [|by eapply sublist_NoDup, (fmap_sublist ready _ _ Hss)|done..].
  intros s H. apply Hs. by eapply elem_of_sublist.
Qed.

Lemma remove_cases s c : clock_ok c ->
  (exists index s', sleepers c !! index = Some s' /\ ready s' = ready s
     /\ remove s c = Some (true, signalled (set_sleepers (delete index (sleepers c)) c)))
  \/ ((forall s', s' ∈ sleepers c -> ready s' <> ready s) /\ remove s c = Some (false, c)).
Proof.
  intros Hc. unfold remove. destruct (list_find _ _) as [[index s']|] eqn:E.
  - left. apply list_find_Some in E as (Hi & Hr%Nat.eqb_eq & _). exists index, s'.
    rewrite signalChange_signalled by (apply set_sleepers_ok; [apply sublist_delete|done]). done.
  - right. split; [|done]. apply list_find_None in E. rewrite Forall_forall in E.
    intros s' H Hr. by apply (E s' H), Nat.eqb_eq.
Qed.

(** [Advance] wakes those that are due, in the order they registered, and no other. *)
Definition pending (t : Time) (s : clockSleeper) : Prop := time_After (deadline s) t = true.

#[export] Instance pending_decision t s : Decision (pending t s) := bool_eq_dec _ _.

Definition woken (t : Time) (ss : list clockSleeper) : gset nat :=
  list_to_set (map ready (filter (fun s => ~ pending t s) ss)).

Lemma wake_spec ss kept c :
  NoDup (map ready ss) -> (forall s, s ∈ ss -> ready s ∉ closed c) ->
  wake ss kept c = Some (kept ++ filter (pending (now c)) ss,
    MkClock (now c) (sleepers c) (changes c) (woken (now c) ss ∪ closed c) (made c)).
Proof.
  revert kept c. induction ss as [|s ss IH]; intros kept c Hd Hs; simpl.
  - rewrite app_nil_r. unfold woken. destruct c; simpl. do 3 f_equal. set_solver.
  - inversion Hd as [|?? Hn Hd']; subst. unfold woken. rewrite !filter_cons.
    destruct (decide (pending (now c) s)) as [E|E].
    + rewrite decide_False by tauto. unfold pending in E. rewrite E.
      rewrite IH by (done || set_solver). by rewrite <-app_assoc.
    + rewrite decide_True by done. unfold pending in E. apply not_true_is_false in E. rewrite E.
      unfold close. rewrite decide_False by (apply Hs; left). simpl. rewrite IH; simpl; [|done|].
      * do 3 f_equal. unfold woken. set_solver.
      * intros s' H. rewrite elem_of_union, elem_of_singleton. intros [Hr|Hr].
        -- apply Hn. rewrite <-Hr. by apply list_elem_of_fmap_2.
        -- revert Hr. apply Hs. by right.
Qed.

Definition advanced (d : Duration) (c : ManualClock) : ManualClock :=
  let t := time_Add (now c) d in
  MkClock t (filter (pending t) (sleepers c)) (changes c) (woken t (sleepers c) ∪ closed c) (made c).

Lemma elem_of_woken t ss n : n ∈ woken t ss <-> exists s, s ∈ ss /\ ready s = n /\ (deadline s <= t)%Z.
Proof.
  unfold woken. rewrite elem_of_list_to_set. rewrite list_elem_of_fmap.
  setoid_rewrite list_elem_of_filter. unfold pending, time_After.
  split; intros (s & H); exists s; rewrite ?Z.ltb_lt in *; intuition lia.
Qed.

Lemma advanced_ok d c : clock_ok c -> clock_ok (advanced d c).
Proof.
  intros [Hs Hn [Hc Hm] Hcl]. split; simpl.
  - intros s [Hp H]%list_elem_of_filter. destruct (Hs s H) as (Hr & ? & ? & _).
    unfold pending, time_After in Hp. apply Z.ltb_lt in Hp. repeat split; try done.
    rewrite elem_of_union, elem_of_woken. intros [(s' & H' & E & ?)|?]; [|done].
    assert (s' = s) as ->; [|lia].
    apply list_elem_of_lookup in H as [i Hi], H' as [j Hj].
    assert (j = i) as ->; [|congruence].
    eapply NoDup_lookup; [exact Hn|..]; rewrite list_lookup_fmap, ?Hi, ?Hj; simpl; by rewrite ?E.
  - eapply sublist_NoDup, fmap_sublist, sublist_filter. done.
  - split; [|done]. rewrite elem_of_union, elem_of_woken.
    intros [(s & H & E & _)|?]; [|done]. by destruct (Hs s H) as (_ & _ & ? & _).
  - intros n. rewrite elem_of_union, elem_of_woken. intros [(s & H & <- & _)|?%Hcl]; [|done].
    by destruct (Hs s H) as (_ & ? & _).
Qed.

Lemma Advance_advanced d c : clock_ok c -> (0 <= d)%Z -> Advance d c = Some (signalled (advanced d c)).
Proof.
  intros Hc Hd. unfold Advance. rewrite (proj2 (Z.ltb_ge _ _) Hd).
  rewrite wake_spec by (apply Hc || (intros; by apply Hc)). simpl.
  by apply (signalChange_signalled (advanced d c)), advanced_ok.
Qed.
(** ** The callers *)

(** What every lock section does to the clock: time does not go back, the old change
    channel is closed and the new one was not made before, and a sleeper that is no
    longer registered was due or is the one of the call. *)
Record moved (gone : clockSleeper -> Prop) (c c' : ManualClock) : Prop := {
  moved_now : (now c <= now c')%Z;
  moved_closed : forall n, n ∈ closed c -> n ∈ closed c';
  moved_opened : forall n, n ∈ closed c' ->
    n ∈ closed c \/ n = changes c \/ exists s, s ∈ sleepers c /\ ready s = n;
  moved_changes : changes c ∈ closed c' /\ made c <= changes c';
  moved_made : made c <= made c';
  moved_kept : forall s, s ∈ sleepers c -> s ∈ sleepers c' \/ due c' s \/ gone s;
  moved_new : forall s, s ∈ sleepers c' -> s ∈ sleepers c \/ made c <= ready s
}.

Lemma moved_caller gone c c' a : moved gone c c' ->
  (forall s, gone s -> ticket a <> Some (ready s)) -> caller_ok c a -> caller_ok c' a.
Proof.
  intros [Hnow Hcl Hop [Hch Hch'] Hm Hk Hn] Hg.
  assert (Hdue : forall s, due c s -> due c' s) by (intros s [? ?]; split; [auto|lia]).
  destruct a as [s|s|s|s|s|count channel|count|count]; simpl in *; try done; auto.
  - intros [H|]; [|auto]. destruct (Hk s H) as [|[|G]]; auto. by destruct (Hg s G).
  - intros [H|]; [|auto]. destruct (Hk s H) as [|[|G]]; auto. by destruct (Hg s G).
  - intros (H1 & H2 & H3 & H4). repeat split; [|lia..|].
    + intros [?|[?|(s' & ? & ?)]]%Hop; [done..|]. by apply (H4 s').
    + intros s' [?|?]%Hn; [auto|lia].
  - intros [H|[-> _]]; auto.
Qed.

Lemma moved_tickets gone c c' cs : moved gone c c' -> tickets_ok c cs -> tickets_ok c' cs.
Proof. intros Hm [Ht Hd]. split; [|done]. intros i n H%Ht. destruct Hm. lia. Qed.

Lemma moved_scene c c' cs : moved (fun _ => False) c c' -> clock_ok c' ->
  scene_ok (MkScene c cs) -> scene_ok (MkScene c' cs).
Proof.
  intros Hm Hc' (_ & Hcs & Ht). split; [done|split]; [|by eapply moved_tickets].
  eapply Forall_impl; [exact Hcs|]. intros a. by eapply moved_caller; [exact Hm|].
Qed.

Lemma moved_register d c : clock_ok c -> moved (fun _ => False) c (signalled (registered d c)).
Proof.
  intros _. split; simpl; [lia|set_solver..| |lia|set_solver|].
  - split; [set_solver|lia].
  - intros s. rewrite elem_of_app, list_elem_of_singleton. intros [?| ->]; simpl; auto.
Qed.

Lemma moved_advance d c : (0 <= d)%Z -> clock_ok c -> moved (fun _ => False) c (signalled (advanced d c)).
Proof.
  intros Hd _. split; simpl; [unfold time_Add; lia|set_solver| |split; [set_solver|lia]|lia| |].
  - intros n. rewrite !elem_of_union, elem_of_singleton, elem_of_woken.
    intros [->|[(s & ? & ? & _)|?]]; eauto.
  - intros s H. rewrite list_elem_of_filter. unfold due, pending, time_After. simpl. unfold time_Add.
    rewrite Z.ltb_lt, !elem_of_union, elem_of_woken.
    destruct (decide (now c + d < deadline s)%Z); [auto|]. right; left. split; [|lia].
    right; left. exists s. repeat split; [done|lia].
  - intros s [_ ?]%list_elem_of_filter. by left.
Qed.

Lemma moved_remove index s' c : clock_ok c -> sleepers c !! index = Some s' ->
  moved (fun s => ready s = ready s') c (signalled (set_sleepers (delete index (sleepers c)) c)).
Proof.
  intros _ Hi. split; simpl; [lia|set_solver..|split; [set_solver|lia]|lia| |].
  - intros s [j Hj]%list_elem_of_lookup. destruct (decide (j = index)) as [->|Hne]; [right; right; congruence|].
    left. rewrite delete_take_drop, elem_of_app. destruct (decide (j < index)).
    + left. apply list_elem_of_lookup. exists j. by rewrite lookup_take_lt.
    + right. apply list_elem_of_lookup. exists (j - S index). rewrite lookup_drop. by replace (_ + _) with j by lia.
  - intros s H. left. eapply elem_of_sublist; [done|]. apply sublist_delete.
Qed.
(** A caller that goes on keeps its sleep. *)
Lemma tickets_insert c cs i a b :
  cs !! i = Some a -> ticket b = ticket a -> tickets_ok c cs -> tickets_ok c (<[i := b]> cs).
Proof.
  intros Hi E. unfold tickets_ok. replace (map ticket (<[i := b]> cs)) with (map ticket cs); [done|].
  transitivity (ticket <$> <[i := b]> cs); [|done]. rewrite list_fmap_insert, E.
  symmetry. apply list_insert_id. by rewrite list_lookup_fmap, Hi.
Qed.

Lemma tickets_app c cs a :
  (forall n, ticket a = Some n -> n < made c /\ forall i, map ticket cs !! i <> Some (Some n)) ->
  tickets_ok c cs -> tickets_ok c (cs ++ [a]).
Proof.
  intros Ha [Ht Hd]. unfold tickets_ok. rewrite map_app.
  assert (L : forall i n, (map ticket cs ++ [ticket a]) !! i = Some (Some n) ->
    map ticket cs !! i = Some (Some n) \/ i = length (map ticket cs) /\ ticket a = Some n).
  { intros i n [?|[? E]]%lookup_app_Some; [auto|].
    apply list_lookup_singleton_Some in E as [? <-]. right. split; [lia|done]. }
  split.
  - intros i n [H|[_ H]]%L; [eauto|]. by apply Ha.
  - intros i j n [H|[-> H]]%L [H'|[-> H']]%L; eauto.
    + by destruct (proj2 (Ha n H') i).
    + by destruct (proj2 (Ha n H) j).
Qed.

Lemma watch_ok count c : caller_ok c (watch count c).
Proof.
  unfold watch, check_pending. destruct (count <=? _) eqn:E; simpl; [done|].
  apply Nat.leb_gt in E. by right.
Qed.

Lemma ticket_watch count c : ticket (watch count c) = None.
Proof. unfold watch. by destruct (check_pending _ _). Qed.

(** What a step of one caller that leaves the clock alone has to show. *)
Lemma goes_on c cs i a b :
  cs !! i = Some a -> ticket b = ticket a -> (caller_ok c a -> caller_ok c b) ->
  scene_ok (MkScene c cs) -> scene_ok (MkScene c (<[i := b]> cs)).
Proof.
  intros Hi Hab Hok (Hc & Hcs & Ht). split; [done|split]; [|by eapply tickets_insert].
  apply Forall_insert; [done|]. apply Hok. by eapply (Forall_lookup_1 (caller_ok c)).
Qed.

(** The caller whose sleep is taken out, and the others. *)
Lemma stops_ok c cs i index s s' :
  cs !! i = Some (Cancelled s) -> sleepers c !! index = Some s' -> ready s' = ready s ->
  scene_ok (MkScene c cs) ->
  scene_ok (MkScene (signalled (set_sleepers (delete index (sleepers c)) c)) (<[i := Stopped s]> cs)).
Proof.
  intros Hi Hs' E (Hc & Hcs & Ht). simpl in *.
  assert (Hx : sublist (delete index (sleepers c)) (sleepers c)) by apply sublist_delete.
  pose proof (moved_remove _ _ _ Hc Hs') as Hm.
  destruct (ok_sleepers _ Hc _ (list_elem_of_lookup_2 _ _ _ Hs')) as (H1 & H2 & H3 & _).
  assert (Hti : map ticket cs !! i = Some (Some (ready s))) by by rewrite list_lookup_fmap, Hi.
  split; [by apply signalled_ok, set_sleepers_ok|split];
    [|by eapply tickets_insert, moved_tickets].
  apply Forall_lookup. intros j a [(<- & <- & _)|[Hne Ha]]%list_lookup_insert_Some; simpl.
  - rewrite E in *. repeat split; [set_solver|lia|lia|].
    intros x Hx'. pose proof (ok_distinct _ Hc) as Hn.
    rewrite (delete_take_drop _ _) in Hx'.
    rewrite <-(take_drop_middle _ _ _ Hs'), map_app, map_cons, NoDup_app, NoDup_cons in Hn.
    destruct Hn as (_ & Hn1 & Hn2 & _). rewrite E in *. intros Hr.
    apply elem_of_app in Hx' as [?|?].
    + apply (Hn1 (ready x)); [by apply list_elem_of_fmap_2|rewrite Hr; left].
    + apply Hn2. rewrite <-Hr. by apply list_elem_of_fmap_2.
  - eapply moved_caller; [done| |by eapply (Forall_lookup_1 (caller_ok c))].
    intros x Hr Hta. apply Hne. eapply (proj2 Ht); [done|].
    by rewrite list_lookup_fmap, Ha, <-E, <-Hr, <-Hta.
Qed.

Lemma removes_ok c cs i s removed c' :
  cs !! i = Some (Cancelled s) -> remove s c = Some (removed, c') -> scene_ok (MkScene c cs) ->
  scene_ok (MkScene c' (<[i := if removed : bool then Stopped s else Draining s]> cs)).
Proof.
  intros Hi Hr (Hc & Hcs & Ht). simpl in *.
  destruct (remove_cases s c Hc) as [(index & s' & Hs' & E & Hr')|(Hn & Hr')];
    rewrite Hr' in Hr; injection Hr as <- <-.
  - eapply stops_ok; [done..|]. by split.
  - apply goes_on with (Cancelled s); try done. intros [H|H]; [|done]. by destruct (Hn s H).
Qed.
Lemma clock_step_ok s s' : clock_step s s' -> scene_ok s -> scene_ok s'.
Proof.
  destruct 1 as [c cs d s c' Hd Hr|c cs i s Hi Hcl|c cs i s Hi|c cs i s removed c' Hi Hr|c cs i s Hi Hcl
    |c cs d c' Hd Hr|c cs count|c cs i count channel Hi Hcl|c cs i count channel Hi]; intros Hok.
  - pose proof Hok as (Hc & Hcs & Ht). simpl in *.
    rewrite register_registered in Hr by done. injection Hr as <- <-.
    pose proof (moved_register d c Hc) as Hm.
    destruct (moved_scene _ _ _ Hm (signalled_ok _ (registered_ok _ _ Hd Hc)) Hok) as (Hc' & Hcs' & Ht').
    split; [done|split].
    + apply Forall_app_2; [done|]. apply Forall_singleton. left. apply elem_of_app. right. by apply list_elem_of_singleton.
    + apply tickets_app; [|done]. simpl. intros n [= <-]. split; [lia|]. intros i ?%(proj1 Ht). lia.
  - eapply goes_on; [done..| |done]. intros [H|H]; [|done].
    by destruct (ok_sleepers _ (proj1 Hok) _ H).
  - by eapply goes_on.
  - by eapply removes_ok.
  - by eapply goes_on.
  - pose proof (proj1 Hok) as Hc. simpl in Hc. rewrite Advance_advanced in Hr by done. injection Hr as <-.
    eapply moved_scene; [by apply moved_advance|by apply signalled_ok, advanced_ok|done].
  - destruct Hok as (Hc & Hcs & Ht). split; [done|split].
    + apply Forall_app_2; [done|]. apply Forall_singleton, watch_ok.
    + apply tickets_app; [|done]. by rewrite ticket_watch.
  - eapply goes_on; [done| | |done]; [apply ticket_watch|intros _; apply watch_ok].
  - by eapply goes_on.
Qed.

Lemma clock_reachable_ok s : clock_reachable s -> scene_ok s.
Proof.
  intros [start H]. remember (MkScene _ _) as s0 eqn:E.
  assert (H0 : scene_ok s0).
  { subst. split; [|split; [done|split; intros i; intros; by destruct i]].
    split; simpl; [set_solver|constructor|split; [set_solver|lia]|set_solver]. }
  clear E. induction H; [done|]. eauto using clock_step_ok.
Qed.

(** ** What the callers are told *)

(** Whatever order its callers run in, nothing a clock does closes a channel twice; a
    sleep that waits can go on exactly when its deadline has come, so none is woken early
    and no wake-up is lost; one that lost its removal to an advance does not block; one
    that was stopped was not woken and is no longer counted; and a wait for sleeps that
    is blocked has too few of them. *)
Theorem sleeps_end_when_due s : clock_reachable s ->
  (forall d, (0 <= d)%Z -> is_Some (Advance d (clock s))) /\
  (forall d, (0 < d)%Z -> is_Some (register d (clock s))) /\
  (forall target, is_Some (remove target (clock s))) /\
  forall a, a ∈ callers s ->
    match a with
    | Sleeping p | Cancelled p => ready p ∈ closed (clock s) <-> (deadline p <= now (clock s))%Z
    | Draining p | Woken p => ready p ∈ closed (clock s) /\ (deadline p <= now (clock s))%Z
    | Stopped p => ready p ∉ closed (clock s) /\ p ∉ sleepers (clock s)
    | Watching count channel => channel ∈ closed (clock s) \/ PendingSleeps (clock s) < count
    | Satisfied _ | GaveUp _ => True
    end.
Proof.
  intros (Hc & Hcs & _)%clock_reachable_ok. split_and!.
  - intros d Hd. by rewrite Advance_advanced.
  - intros d Hd. by rewrite register_registered.
  - intros t. by destruct (remove_cases t _ Hc) as [(? & ? & _ & _ & ->)|[_ ->]].
  - intros a Ha. rewrite Forall_forall in Hcs. specialize (Hcs a Ha).
    assert (Hw : forall p, p ∈ sleepers (clock s) \/ due (clock s) p ->
      ready p ∈ closed (clock s) <-> (deadline p <= now (clock s))%Z).
    { intros p [H|[? ?]]; [|done]. destruct (ok_sleepers _ Hc _ H) as (? & _ & _ & ?). split; [done|lia]. }
    destruct a as [p|p|p|p|p|count channel|count|count]; simpl in *; auto.
    + destruct Hcs as (Hr & _ & _ & Hn). split; [done|]. intros H. by apply (Hn p).
    + unfold PendingSleeps. destruct Hcs as [|[_ ?]]; auto.
Qed.

(** A sleep of five, an advance of five, and the sleep goes on. *)
Definition slept : clockSleeper := MkSleeper 5%Z 1.
Definition rung : ManualClock := MkClock 5%Z [] 3 {[2; 1; 0]} 4.

Lemma rung_reachable : clock_reachable (MkScene rung [Woken slept]).
Proof.
  exists 0%Z.
  eapply rtc_l; [apply (sleeps _ [] 5 slept (MkClock 0%Z [slept] 2 {[0]} 3)); [lia|vm_compute; reflexivity]|].
  eapply rtc_l; [apply (advances _ _ 5 rung); [lia|vm_compute; reflexivity]|].
  eapply rtc_l; [apply (wakes rung _ 0 slept); [done|vm_compute; reflexivity]|].
  apply rtc_refl.
Qed.

Lemma sleeps_end_when_due_witness :
  is_Some (Advance 3%Z rung) /\ ready slept ∈ closed rung /\ (deadline slept <= now rung)%Z.
Proof.
  destruct (sleeps_end_when_due _ rung_reachable) as (Ha & _ & _ & Hc).
  exact (conj (Ha 3%Z ltac:(discriminate)) (Hc (Woken slept) (list_elem_of_here _ _))).
Defined.
End Clock.

(** * Recorders ([tracker.go], [logger.go], [observer.go], [diagnostics.go]) *)

Module Tracker.

Definition Tracker : Type := list string.

Definition Tracker_Record (event : string) (tracker : Tracker) : Tracker := tracker ++ [event].

Definition Tracker_Events (tracker : Tracker) : list string := tracker.

Definition Tracker_Count (event : string) (tracker : Tracker) : nat :=
  foldl (fun total entry => if String.eqb entry event then S total else total) 0 tracker.

Lemma Count_app event xs ys : Tracker_Count event (xs ++ ys) = Tracker_Count event xs + Tracker_Count event ys.
Proof.
  unfold Tracker_Count. rewrite foldl_app. generalize (foldl (fun total entry => if String.eqb entry event then S total else total) 0 xs).
  intros n. revert n. induction ys as [|y ys IH] using rev_ind; intros n; simpl; [lia|].
  rewrite !foldl_app. simpl. destruct (String.eqb y event); rewrite IH; lia.
Qed.

(** [Count] counts the occurrences in what [Events] returns. *)
Lemma Count_filter event tracker : Tracker_Count event tracker = length (filter (fun entry => entry = event) (Tracker_Events tracker)).
Proof.
  induction tracker as [|entry tracker IH]; [done|].
  change (entry :: tracker) with ([entry] ++ tracker). rewrite Count_app, IH. unfold Tracker_Events. simpl.
  rewrite filter_cons. unfold Tracker_Count. simpl. destruct (String.eqb_spec entry event).
  - by rewrite decide_True.
  - by rewrite decide_False.
Qed.
End Tracker.

(** What a recorder keeps holds slices, which whoever recorded it and whoever reads it
    may hold as well: the elements live in a store, and a slice is where they are. *)
Module Recorder.
Section Recorder.
  Context {M Attr : Type}.

#[local] Abbreviation store := (gmap nat (list Attr)).
Definition slice : Type := option nat.

Definition contents (h : store) (s : slice) : list Attr :=
  match s with Some address => default [] (h !! address) | None => [] end.

(** [slices.Clone], of which a nil slice's is nil. *)
Definition slices_Clone (s : slice) (h : store) : slice * store :=
  match s with
  | Some _ => let address := fresh (dom h) in (Some address, <[address := contents h s]> h)
  | None => (None, h)
  end.

(** A log record, and a runtime event: what is not a slice, and its attributes. *)
Record entry : Type := MkEntry { body : M; fields : slice }.

Definition value (h : store) (e : entry) : M * list Attr := (body e, contents h (fields e)).

(** [Log] and [Observe]. *)
Definition record (e : entry) (recorder : list entry) (h : store) : list entry * store :=
  let '(fields, h) := slices_Clone (fields e) h in
  (recorder ++ [MkEntry (body e) fields], h).

(** [LogRecorder.Records] clones what each record holds. *)
Fixpoint LogRecorder_Records (recorder : list entry) (h : store) : list entry * store :=
  match recorder with
  | [] => ([], h)
  | e :: recorder =>
      let '(fields, h) := slices_Clone (fields e) h in
      let '(records, h) := LogRecorder_Records recorder h in
      (MkEntry (body e) fields :: records, h)
  end.

(** [EventRecorder.Events] clones the slice of events alone. *)
Definition EventRecorder_Events (recorder : list entry) (h : store) : list entry * store := (recorder, h).

(** [DiagnosticsRecorder.Report]; a fault holds no slice. *)
Definition DiagnosticsRecorder_Report {Fault : Type} (fault : Fault) (recorder : list Fault) : list Fault := recorder ++ [fault].

Definition DiagnosticsRecorder_Faults {Fault : Type} (recorder : list Fault) : list Fault := recorder.

(** ** A test that uses one *)

(** The recorder, the store, the slices the test can reach, and what was recorded. *)
Record bench : Type := MkBench { kept : list entry; heap : store; held : gset nat; log : list (M * list Attr) }.

Definition addresses (es : list entry) : gset nat := list_to_set (omap fields es).

Inductive bench_step (snapshot : list entry -> store -> list entry * store) : bench -> bench -> Prop :=
| makes b address attrs : heap b !! address = None ->
    bench_step snapshot b (MkBench (kept b) (<[address := attrs]> (heap b)) ({[address]} ∪ held b) (log b))
| writes b address i attr attrs : address ∈ held b -> heap b !! address = Some attrs ->
    bench_step snapshot b (MkBench (kept b) (<[address := <[i := attr]> attrs]> (heap b)) (held b) (log b))
| records b e recorder h : (forall address, fields e = Some address -> address ∈ held b) ->
    record e (kept b) (heap b) = (recorder, h) ->
    bench_step snapshot b (MkBench recorder h (held b) (log b ++ [value (heap b) e]))
| reads b es h : snapshot (kept b) (heap b) = (es, h) ->
    bench_step snapshot b (MkBench (kept b) h (addresses es ∪ held b) (log b)).

Definition bench_reachable (snapshot : list entry -> store -> list entry * store) (b : bench) : Prop :=
  rtc (bench_step snapshot) (MkBench [] ∅ ∅ []) b.

Lemma slices_Clone_spec s h s' h' : slices_Clone s h = (s', h') -> (forall a, s = Some a -> is_Some (h !! a)) ->
  h ⊆ h' /\ contents h' s' = contents h s /\ (forall a, s' = Some a -> h !! a = None /\ is_Some (h' !! a)).
Proof.
  destruct s as [a|]; simpl; intros [= <- <-] Hs; [|done].
  pose proof (is_fresh (dom h)) as Hf. apply not_elem_of_dom in Hf. split_and!.
  - by apply insert_subseteq.
  - unfold contents at 1. by rewrite lookup_insert_eq.
  - intros ? [= <-]. by rewrite lookup_insert_eq.
Qed.

Definition grounded (h : store) (es : list entry) : Prop :=
  forall e a, e ∈ es -> fields e = Some a -> is_Some (h !! a).

Lemma contents_mono h h' s : h ⊆ h' -> (forall a, s = Some a -> is_Some (h !! a)) -> contents h' s = contents h s.
Proof.
  destruct s as [a|]; [|done]. intros Hh Hs. destruct (Hs a eq_refl) as [attrs Ha]. simpl.
  by rewrite Ha, (lookup_weaken _ _ _ _ Ha Hh).
Qed.

Lemma values_mono h h' es : h ⊆ h' -> grounded h es -> map (value h') es = map (value h) es.
Proof.
  intros Hh He. apply map_ext_in. intros e H. unfold value. f_equal. apply contents_mono; [done|].
  intros a. apply He. by apply list_elem_of_In.
Qed.

(** Cloning writes to no slice that there was, and what it returns reads the same. *)
Lemma Records_spec es h rs h' : LogRecorder_Records es h = (rs, h') -> grounded h es ->
  h ⊆ h' /\ map (value h') rs = map (value h) es /\
  (forall r a, r ∈ rs -> fields r = Some a -> h !! a = None /\ is_Some (h' !! a)).
Proof.
  revert h rs h'. induction es as [|e es IH]; simpl; intros h rs h' E Hg.
  - injection E as <- <-. repeat split; set_solver.
  - destruct (slices_Clone _ _) as [s h1] eqn:E1. destruct (LogRecorder_Records es h1) as [rs' h2] eqn:E2.
    inversion E; subst; clear E.
    apply slices_Clone_spec in E1 as (Hh1 & Hc1 & Hf1); [|intros a; apply Hg; left].
    assert (Hg1 : grounded h es) by (intros e' a H; apply Hg; by right).
    assert (Hg2 : grounded h1 es) by (intros e' a H Ha; destruct (Hg1 _ _ H Ha); eauto using lookup_weaken).
    destruct (IH _ _ _ E2 Hg2) as (Hh2 & Hv2 & Hf2). split_and!.
    + by transitivity h1.
    + simpl. f_equal.
      * unfold value. simpl. f_equal. rewrite <-Hc1. apply contents_mono; [done|]. intros a Ha. by apply Hf1.
      * rewrite Hv2. by apply values_mono.
    + intros r a [-> |H]%elem_of_cons Ha.
      * destruct (Hf1 a Ha) as [? [attrs ?]]. split; [done|]. eauto using lookup_weaken.
      * destruct (Hf2 r a H Ha) as [Hn ?]. split; [|done].
        destruct (h !! a) eqn:Eh; [|done]. by rewrite (lookup_weaken _ _ _ _ Eh Hh1) in Hn.
Qed.

Record bench_ok (b : bench) : Prop := {
  bench_grounded : grounded (heap b) (kept b);
  bench_private : forall e a, e ∈ kept b -> fields e = Some a -> a ∉ held b;
  bench_held : forall a, a ∈ held b -> is_Some (heap b !! a);
  bench_log : map (value (heap b)) (kept b) = log b
}.

Lemma elem_of_addresses a es : a ∈ addresses es <-> exists e, e ∈ es /\ fields e = Some a.
Proof. unfold addresses. rewrite elem_of_list_to_set, list_elem_of_omap. done. Qed.

Lemma bench_grows b h' (add : gset nat) : bench_ok b -> heap b ⊆ h' ->
  (forall a, a ∈ add -> heap b !! a = None /\ is_Some (h' !! a)) ->
  bench_ok (MkBench (kept b) h' (add ∪ held b) (log b)).
Proof.
  intros [Hg Hp Hh Hl] Hs Ha. split; simpl.
  - intros e a H Hf. destruct (Hg e a H Hf). eauto using lookup_weaken.
  - intros e a H Hf. rewrite elem_of_union. intros [Hin|?]; [|by eapply Hp].
    destruct (Ha a Hin) as [Hn _]. destruct (Hg e a H Hf). congruence.
  - intros a [?|H]%elem_of_union; [by apply Ha|]. destruct (Hh a H). eauto using lookup_weaken.
  - by rewrite (values_mono (heap b)).
Qed.

Lemma bench_step_ok b b' : bench_step LogRecorder_Records b b' -> bench_ok b -> bench_ok b'.
Proof.
  destruct 1 as [b a attrs Hn|b a i attr attrs Hin Ha|b e recorder h He Hr|b es h Hr]; intros Hok.
  - apply bench_grows; [done|by apply insert_subseteq|].
    intros ? ->%elem_of_singleton. by rewrite lookup_insert_eq.
  - destruct Hok as [Hg Hp Hh Hl]. split; simpl; [..|rewrite <-Hl; apply map_ext_in; intros e H].
    + intros e x H Hf. rewrite lookup_insert_is_Some. destruct (decide (a = x)); [by left|]. right. eauto.
    + done.
    + intros x H. rewrite lookup_insert_is_Some. destruct (decide (a = x)); [by left|]. right. eauto.
    + unfold value. f_equal. destruct (fields e) as [x|] eqn:Hf; [|done]. simpl.
      rewrite lookup_insert_ne; [done|]. intros ->. eapply Hp; [by apply list_elem_of_In|done..].
  - unfold record in Hr. destruct (slices_Clone _ _) as [s h1] eqn:E. inversion Hr; subst; clear Hr.
    destruct (slices_Clone_spec _ _ _ _ E) as (Hs & Hc & Hf); [intros a Ha; by apply Hok, He|].
    destruct Hok as [Hg Hp Hh Hl]. split; simpl.
    + intros r a [H| ->%list_elem_of_singleton]%elem_of_app Ha; [|by apply Hf].
      destruct (Hg r a H Ha). eauto using lookup_weaken.
    + intros r a [H| ->%list_elem_of_singleton]%elem_of_app Ha; [by eapply Hp|].
      intros Hin. destruct (Hh a Hin), (Hf a Ha). congruence.
    + intros a H. destruct (Hh a H). eauto using lookup_weaken.
    + rewrite map_app, (values_mono (heap b)), Hl by done. unfold value. simpl. by rewrite Hc.
  - destruct (Records_spec _ _ _ _ Hr (bench_grounded _ Hok)) as (Hs & _ & Hf).
    apply bench_grows; [done..|]. intros a (r & H & Ha)%elem_of_addresses. eauto.
Qed.

Lemma bench_reachable_ok b : bench_reachable LogRecorder_Records b -> bench_ok b.
Proof.
  unfold bench_reachable. remember (MkBench _ _ _ _) as b0 eqn:E. intros H.
  assert (H0 : bench_ok b0) by (subst; split; unfold grounded; simpl; set_solver).
  clear E. induction H; [done|]. eauto using bench_step_ok.
Qed.

(** Whatever a test writes through the slices it recorded and the snapshots it took, a
    snapshot of the log recorder reads what was recorded. *)
Theorem records_are_isolated b rs h : bench_reachable LogRecorder_Records b -> LogRecorder_Records (kept b) (heap b) = (rs, h) ->
  map (value h) rs = log b.
Proof.
  intros Hok%bench_reachable_ok Hr.
  destruct (Records_spec _ _ _ _ Hr (bench_grounded _ Hok)) as (_ & -> & _). apply Hok.
Qed.
End Recorder.

(** A snapshot of the event recorder shares its attributes with it: a write through one
    changes what the next reads. *)
Lemma events_share_attributes : exists b : @bench string nat,
  bench_reachable EventRecorder_Events b /\ map (value (heap b)) (fst (EventRecorder_Events (kept b) (heap b))) <> log b.
Proof.
  set (h := {[0 := [1]; 1 := [1]]} : gmap nat (list nat)).
  exists (MkBench [MkEntry "effect" (Some 1)] (<[1 := [2]]> h) {[0; 1]} [("effect"%string, [1])]).
  split; [|vm_compute; congruence].
  eapply rtc_l; [by apply (makes _ _ 0 [1])|].
  eapply rtc_l; [apply (records _ _ (MkEntry "effect"%string (Some 0)));
    [intros a [= <-]; simpl; set_solver|vm_compute; reflexivity]|].
  eapply rtc_l; [eapply reads; reflexivity|].
  eapply rtc_l; [eapply (writes _ _ 1 0 2 [1]); [vm_compute; reflexivity|vm_compute; reflexivity]|].
  match goal with |- rtc _ ?x ?y => assert (x = y) as ->; [|apply rtc_refl] end.
  vm_compute. reflexivity.
Qed.
End Recorder.

(** * [FileSystemStub] ([filesystem.go])

    A nil function of the stub is [None]; what comes back with an error is the type's
    zero value. *)

Module Stub.
Section Stub.
  Context {V World Ctx Bytes FileMode FileInfo DirEntry : Type}.
  Context (no_data : Bytes) (no_info : FileInfo).
  #[local] Abbreviation call := (call V World).

Definition ErrUnimplementedOperation : error := MkError 701 "effecttest: filesystem operation is not implemented" [].

Record FileSystemStub : Type := MkStub {
  ReadFileFunc : option (Ctx -> string -> call (Bytes * option error));
  WriteFileFunc : option (Ctx -> string -> Bytes -> FileMode -> call (option error));
  StatFunc : option (Ctx -> string -> call (FileInfo * option error));
  ReadDirFunc : option (Ctx -> string -> call (list DirEntry * option error));
  MkdirAllFunc : option (Ctx -> string -> FileMode -> call (option error));
  RemoveFunc : option (Ctx -> string -> call (option error));
  RenameFunc : option (Ctx -> string -> string -> call (option error))
}.

Definition ReadFile (stub : FileSystemStub) (ctx : Ctx) (path : string) : call (Bytes * option error) :=
  match ReadFileFunc stub with
  | None => call_ret (no_data, Some ErrUnimplementedOperation)
  | Some read => read ctx path
  end.

Definition WriteFile (stub : FileSystemStub) (ctx : Ctx) (path : string) (data : Bytes) (permissions : FileMode)
    : call (option error) :=
  match WriteFileFunc stub with
  | None => call_ret (Some ErrUnimplementedOperation)
  | Some write => write ctx path data permissions
  end.

Definition Stat (stub : FileSystemStub) (ctx : Ctx) (path : string) : call (FileInfo * option error) :=
  match StatFunc stub with
  | None => call_ret (no_info, Some ErrUnimplementedOperation)
  | Some stat => stat ctx path
  end.

Definition ReadDir (stub : FileSystemStub) (ctx : Ctx) (path : string) : call (list DirEntry * option error) :=
  match ReadDirFunc stub with
  | None => call_ret ([], Some ErrUnimplementedOperation)
  | Some read => read ctx path
  end.

Definition MkdirAll (stub : FileSystemStub) (ctx : Ctx) (path : string) (permissions : FileMode)
    : call (option error) :=
  match MkdirAllFunc stub with
  | None => call_ret (Some ErrUnimplementedOperation)
  | Some mkdir => mkdir ctx path permissions
  end.

Definition Remove (stub : FileSystemStub) (ctx : Ctx) (path : string) : call (option error) :=
  match RemoveFunc stub with
  | None => call_ret (Some ErrUnimplementedOperation)
  | Some remove => remove ctx path
  end.

Definition Rename (stub : FileSystemStub) (ctx : Ctx) (oldPath newPath : string) : call (option error) :=
  match RenameFunc stub with
  | None => call_ret (Some ErrUnimplementedOperation)
  | Some rename => rename ctx oldPath newPath
  end.
End Stub.
End Stub.

(** * Fixtures ([fixtures.go]) *)

(** A barrier is its wait group's counter; participants are outside, blocked in [Wait],
    or through. *)
Module Barrier.

Inductive participant : Type := Blocked | Through.

Definition NewBarrier (participants : nat) : nat := participants.

(** [Done], which panics when the counter would be negative. *)
Definition Done (counter : nat) : option nat := match counter with 0 => None | S counter => Some counter end.

Inductive barrier_step : nat * list participant -> nat * list participant -> Prop :=
| arrives counter counter' ps : Done counter = Some counter' ->
    barrier_step (counter, ps) (counter', ps ++ [Blocked])
| passes ps i : ps !! i = Some Blocked -> barrier_step (0, ps) (0, <[i := Through]> ps).

Definition barrier_ok (n : nat) (s : nat * list participant) : Prop :=
  s.1 + length s.2 = n /\ (Through ∈ s.2 -> s.1 = 0).

Lemma barrier_step_ok n s s' : barrier_step s s' -> barrier_ok n s -> barrier_ok n s'.
Proof.
  unfold barrier_ok. intros [[|k] ? ps [= <-]|ps i Hi] [E Ht]; simpl in *.
  - rewrite length_app. simpl. split; [lia|].
    rewrite elem_of_app, list_elem_of_singleton. intros [?%Ht|?]; done.
  - by rewrite length_insert.
Qed.

(** No participant is through until as many as the barrier is for have arrived, and then
    none of them is blocked for good. *)
Lemma barrier_holds n counter ps : rtc barrier_step (NewBarrier n, []) (counter, ps) ->
  counter + length ps = n /\ (Through ∈ ps -> length ps = n) /\
  (length ps = n -> forall i, ps !! i = Some Blocked -> barrier_step (counter, ps) (counter, <[i := Through]> ps)).
Proof.
  intros H.
  assert (Hok : barrier_ok n (counter, ps)).
  { remember (NewBarrier n, []) as s0 eqn:E. assert (H0 : barrier_ok n s0).
    { subst. split; simpl; [unfold NewBarrier; lia|by intros ?%elem_of_nil]. }
    clear E. induction H; eauto using barrier_step_ok. }
  destruct Hok as [E Ht]. simpl in *. split_and!; [done|intros ?%Ht; lia|].
  intros Hl i Hi. assert (counter = 0) as -> by lia. by apply passes.
Qed.
End Barrier.

Section Fixtures.
  Context {V World Ctx St F : Type} `{ContextOps World Ctx} `{StateOps St}.
  Context `{FinalizerOps F V World Ctx} `{Heap World (Scope V F)}.
  Context `{!ScopeContexts V World Ctx F} `{!ScopeChildren V World F}.
  Context `{RuntimePort V World Ctx St} `{Erased V unit} `{Erased V string}.
  Context (error_value : error -> V) (unsupported : error) (zero_effect nil_dereference : Panic V).
  #[local] Abbreviation Effect := (@Effect V World Ctx St).
  #[local] Abbreviation call := (call V World).
  #[local] Abbreviation runs := (runs error_value unsupported zero_effect).
  (** [tracker.Record] of the tracker at hand. *)
  Context (tracker_Record : string -> call unit).

Definition TrackRelease {R} `{Erased V R} (event : string) : Effect R Never unit :=
  AddFinalizerEffect error_value (fun _ => let! _ := tracker_Record event in call_ret None).

Definition acquire_tracked {R E} `{Erased V R} (name : string) : Effect R E string :=
  From (fun _ _ => let! _ := tracker_Record ("acquire " ++ name) in call_ret (ExitSuccessOf name)).

Definition release_tracked {R} `{Erased V R} (resource : string) : call (Effect R Never unit) :=
  call_ret (TrackRelease ("release " ++ resource)).

(** [captured] packs the variables of the finalizer's closure, as for any release. *)
Definition TrackResource {R E} `{Erased V R} (captured : St -> R -> string -> F)
    (captured_calls : forall state environment resource,
      call_finalizer (captured state environment resource)
      = releaseFinalizer error_value unsupported zero_effect release_tracked state environment resource)
    (scope : nat) (name : string) : Effect R E string :=
  AcquireRelease error_value unsupported zero_effect nil_dereference scope (acquire_tracked name)
    {| release := release_tracked; captured := captured; captured_calls := captured_calls |}.

Definition PanicEffect {R E A} `{Erased V R} (message : V) (stack : string) : Effect R E A :=
  From (fun _ _ => call_panic (MkPanic message stack)).

Definition Canceled : error := MkError 700 "context canceled" [].

Definition InterruptSelf {R E A} `{Erased V R} : Effect R E A :=
  From (fun _ _ => call_ret (ExitFailure (InterruptCause (Some Canceled)))).
End Fixtures.
