(* ===== verification/GoSyntax.v ===== *)
(** Go syntax trees as package [go/ast] hands them to the rewriter
    ([tools/effectgo/rewrite]), with the part of [go/token] and [go/types] it uses.

    A node is a pointer, a kind with the fields that are not nodes, its extent, and
    its children by field name, in the order [ast.Walk] visits them. Pointers are
    what maps keyed by nodes are keyed by. *)

From S2P Require Import Prelude GoStrings.

(** * Tokens *)

Inductive token : Type :=
| DEFINE | ASSIGN | BREAK | CONTINUE | GOTO | FALLTHROUGH | LAND | LOR | ARROW | IMPORT
| OtherToken (text : string).

#[export] Instance token_eq_dec : EqDecision token.
Proof. solve_decision. Defined.

Definition token_String (t : token) : string :=
  match t with
  | DEFINE => ":=" | ASSIGN => "=" | BREAK => "break" | CONTINUE => "continue" | GOTO => "goto"
  | FALLTHROUGH => "fallthrough" | LAND => "&&" | LOR => "||" | ARROW => "<-" | IMPORT => "import"
  | OtherToken text => text
  end.

(** * Nodes *)

Inductive node_kind : Type :=
| Ident (Name : string)
| FuncLit | CallExpr | ParenExpr | SelectorExpr | IndexExpr | IndexListExpr | TypeAssertExpr
| BinaryExpr (Op : token) | UnaryExpr (Op : token)
| ExprStmt | AssignStmt (Tok : token) | DeclStmt | ReturnStmt | IncDecStmt | SendStmt
| IfStmt | SwitchStmt | TypeSwitchStmt | BlockStmt | ForStmt | RangeStmt (Tok : token)
| SelectStmt | GoStmt | DeferStmt | LabeledStmt | BranchStmt (Tok : token)
| CaseClause | GenDecl (Tok : token) | FuncType | FieldList | FieldNode
(** Any other node: an expression, statement or declaration the rewriter treats
    like every other. *)
| OtherNode.

#[export] Instance node_kind_eq_dec : EqDecision node_kind.
Proof. solve_decision. Defined.

Inductive field_name : Type :=
| fFun | fArgs | fX | fY | fSel | fType | fBody | fParams | fResults | fNames | fList | fLhs | fRhs
| fInit | fCond | fPost | fElse | fTag | fAssign | fKey | fValue | fChan | fLabel | fDecls | fOther.

#[export] Instance field_name_eq_dec : EqDecision field_name.
Proof. solve_decision. Defined.

(** A position is a byte offset from the file's base. *)
Definition Pos : Type := nat.

Inductive node : Type :=
| MkNode (ptr : nat) (kind : node_kind) (pos end_ : Pos) (fields : list (field_name * node)).

Definition ptr (n : node) : nat := let 'MkNode p _ _ _ _ := n in p.
Definition kind_of (n : node) : node_kind := let 'MkNode _ k _ _ _ := n in k.
Definition node_Pos (n : node) : Pos := let 'MkNode _ _ p _ _ := n in p.
Definition node_End (n : node) : Pos := let 'MkNode _ _ _ e _ := n in e.
Definition fields_of (n : node) : list (field_name * node) := let 'MkNode _ _ _ _ fs := n in fs.
Definition children (n : node) : list node := (fields_of n).*2.

(** [n.F] where it is a list, and where it is one node or nil. *)
Definition fields (f : field_name) (n : node) : list node :=
  (filter (fun p => p.1 = f) (fields_of n)).*2.
Definition field (f : field_name) (n : node) : option node := head (fields f n).

Lemma syntax_nested_ind (P : node -> Prop) :
  (forall n, Forall P (children n) -> P n) -> forall n, P n.
Proof.
  intros Hn. fix IH 1. intros [p k b e fs]. apply Hn. unfold children; cbn [fields_of].
  induction fs as [|[f n] fs IHfs]; constructor; [apply IH|apply IHfs].
Qed.

(** [ast.Inspect]: a node before its children, whose visit the function may refuse.
    The calls with nil that follow a node's children have no effect on any function
    it is given here. *)
Fixpoint Inspect {S} (f : node -> S -> bool * S) (n : node) (s : S) : S :=
  let '(descend, s) := f n s in
  if descend then
    match n with
    | MkNode _ _ _ _ fs =>
        (fix walk (l : list (field_name * node)) (s : S) : S :=
           match l with
           | [] => s
           | (_, child) :: l => walk l (Inspect f child s)
           end) fs s
    end
  else s.

Lemma Inspect_unfold {S} (f : node -> S -> bool * S) n s :
  Inspect f n s
  = let '(descend, s) := f n s in
    if descend : bool then foldl (fun s child => Inspect f child s) s (children n) else s.
Proof.
  destruct n as [p k b e fs]. cbn [Inspect]. destruct (f _ s) as [[|] s']; [|done].
  unfold children; cbn [fields_of]. revert s'. induction fs as [|[g c] fs IH]; intros s'; cbn; [done|apply IH].
Qed.

(** The nodes a visit comes by, in order, when the nodes [prune] names are not
    descended into. *)
Fixpoint visited (prune : node -> bool) (n : node) : list node :=
  n :: if prune n then [] else
       match n with
       | MkNode _ _ _ _ fs =>
           (fix walk (l : list (field_name * node)) : list node :=
              match l with [] => [] | (_, child) :: l => visited prune child ++ walk l end) fs
       end.

Lemma visited_unfold prune n :
  visited prune n = n :: if prune n then [] else concat (map (visited prune) (children n)).
Proof.
  destruct n as [p k b e fs]. cbn [visited]. f_equal. destruct (prune _); [done|].
  unfold children; cbn [fields_of]. induction fs as [|[g c] fs IH]; cbn; [done|by rewrite IH].
Qed.

(** A visit that only adds up. *)
Lemma Inspect_fold {S} (f : node -> S -> bool * S) (prune : node -> bool) (g : S -> node -> S) :
  (forall n s, f n s = (negb (prune n), g s n)) ->
  forall n s, Inspect f n s = foldl g s (visited prune n).
Proof.
  intros Hf n. induction n as [n IH] using syntax_nested_ind. intros s.
  rewrite Inspect_unfold, visited_unfold, Hf. cbn [foldl].
  destruct (prune n); cbn [negb]; [done|]. generalize (g s n) as s'.
  induction IH as [|c cs Hc _ IHcs]; intros s'; cbn [foldl map concat]; [done|].
  by rewrite foldl_app, <- Hc, IHcs.
Qed.

(** A search that stops where its state says so. *)
Lemma Inspect_first {S} (f : node -> S -> bool * S) (stop : S -> bool) (prune : node -> bool) (g : node -> S) :
  (forall n s, f n s = if stop s then (false, s) else (negb (prune n), g n)) ->
  forall n s, Inspect f n s = foldl (fun s m => if stop s then s else g m) s (visited prune n).
Proof.
  intros Hf. assert (forall l s, stop s = true -> foldl (fun s m => if stop s then s else g m) s l = s) as Hstop.
  { induction l as [|m l IH]; intros s Hs; cbn; [done|]. rewrite Hs. by apply IH. }
  intros n. induction n as [n IH] using syntax_nested_ind. intros s.
  rewrite Inspect_unfold, visited_unfold, Hf. destruct (stop s) eqn:Hs; [by rewrite Hstop|].
  cbn [foldl]. rewrite Hs. destruct (prune n); cbn [negb]; [done|]. generalize (g n) as s'.
  induction IH as [|c cs Hc _ IHcs]; intros s'; cbn [foldl map concat]; [done|].
  by rewrite foldl_app, <- Hc, IHcs.
Qed.

(** [ast.Unparen]. *)
Fixpoint Unparen (n : node) : node :=
  match n with
  | MkNode _ ParenExpr _ _ ((_, x) :: _) => Unparen x
  | _ => n
  end.

(** The identifier a parenthesised expression is; nil is [None]. *)
Definition identOf (expr : node) : option node :=
  let n := Unparen expr in
  match kind_of n with Ident _ => Some n | _ => None end.

Definition ident_Name (ident : node) : string :=
  match kind_of ident with Ident name => name | _ => EmptyString end.

(** Nodes that follow one another from one position to another. *)
Fixpoint follow (from : Pos) (nodes : list node) (to : Pos) : Prop :=
  match nodes with
  | [] => from <= to
  | n :: nodes => from <= node_Pos n /\ node_Pos n <= node_End n /\ follow (node_End n) nodes to
  end.

(** Trees as the parser lays out statements and expressions: each node's children
    lie within it, one after the other, and a jump without a label has none. *)
Inductive tidy : node -> Prop :=
| tidy_node n :
    node_Pos n <= node_End n ->
    follow (node_Pos n) (children n) (node_End n) ->
    (forall Tok, kind_of n = BranchStmt Tok -> field fLabel n = None -> children n = []) ->
    Forall tidy (children n) ->
    tidy n.

(** * Types ([go/types]) *)

Record package : Type := MkPackage { pkg_Path : string; pkg_Name : string }.

#[export] Instance package_eq_dec : EqDecision package.
Proof. solve_decision. Defined.

(** What a name stands for, as far as spelling it goes: an object without a package
    is predeclared. *)
Record symbol : Type := MkSymbol {
  symbol_Name : string;
  symbol_Pkg : option package;
  symbol_Exported : bool
}.

(** [types.Type], each with its pointer. What an [Alias] stands for is what
    [types.Unalias] answers. *)
Inductive gotype : Type :=
| Named (p : nat) (obj : symbol) (args : list gotype)
| Alias (p : nat) (obj : symbol) (actual : gotype)
| Pointer (p : nat) (elem : gotype)
| Slice (p : nat) (elem : gotype)
| Array (p : nat) (elem : gotype)
| TypeChan (p : nat) (elem : gotype)
| Map (p : nat) (key elem : gotype)
| Signature (p : nat) (params results : list gotype)
| Struct (p : nat) (members : list (symbol * gotype))
| Basic (p : nat) (integer untyped : bool)
| TypeParam (p : nat)
| Interface (p : nat)
| OtherType (p : nat).

Definition type_ptr (t : gotype) : nat :=
  match t with
  | Named p _ _ | Alias p _ _ | Pointer p _ | Slice p _ | Array p _ | TypeChan p _ | Map p _ _
  | Signature p _ _ | Struct p _ | Basic p _ _ | TypeParam p | Interface p | OtherType p => p
  end.

Inductive object_kind : Type := FuncObject | BuiltinObject | PkgNameObject | OtherObject.

#[export] Instance object_kind_eq_dec : EqDecision object_kind.
Proof. solve_decision. Defined.

(** [types.Object]. *)
Record object : Type := MkObject {
  object_ptr : nat;
  object_kind_of : object_kind;
  object_symbol : symbol;
  object_Type : gotype
}.

(** [types.Info]: what identifiers use and define and the types of expressions, by
    their pointers; and the functions of the package the rewriter calls. *)
Record Info : Type := MkInfo {
  Uses : nat -> option object;
  Defs : nat -> option object;
  IsType : nat -> bool;
  TypeOf : nat -> gotype;
  Identical : gotype -> gotype -> bool;
  Underlying : gotype -> gotype;
  (** [types.TypeString] writes these pieces; where a package is, what its
      qualifier answers, with a dot after it unless that is empty. *)
  TypePieces : gotype -> list (string + package);
  (** [scope.LookupParent] from the innermost scope at a position in the package; a
      nil scope finds nothing. *)
  LookupParent : string -> Pos -> option object;
  (** [info.PkgNameOf] an import: its name in the file and the imported path. *)
  PkgNameOf : nat -> option (string * string)
}.

(** A use of an identifier there may not be. *)
Definition uses (info : Info) (ident : option node) : option object :=
  n ← ident; Uses info (ptr n).

(** [ast.File]: the file as a node, whose declarations are its [fDecls], and its
    imports. *)
Record file : Type := MkFile { file_node : node; file_Imports : list node }.

(** How many nodes a tree has. *)
Fixpoint node_size (n : node) : nat :=
  match n with
  | MkNode _ _ _ _ fs =>
      S ((fix go (l : list (field_name * node)) : nat :=
            match l with [] => 0 | (_, c) :: l => node_size c + go l end) fs)
  end.

Lemma node_size_unfold n : node_size n = S (sum_list (map node_size (children n))).
Proof.
  destruct n as [p k b e fs]. unfold children; cbn [fields_of node_size]. f_equal.
  induction fs as [|[g c] fs IH]; cbn; [done|]. by rewrite IH.
Qed.

Lemma node_size_child c n : c ∈ children n -> node_size c < node_size n.
Proof.
  rewrite (node_size_unfold n). generalize (children n) as cs.
  induction cs as [|d cs IH]; intros Hc; [by apply elem_of_nil in Hc|]. cbn.
  apply elem_of_cons in Hc as [->|Hc]; [lia|]. specialize (IH Hc). lia.
Qed.

Lemma fields_children f n c : c ∈ fields f n -> c ∈ children n.
Proof.
  unfold fields, children. intros ([g d] & -> & Hin)%list_elem_of_fmap.
  apply list_elem_of_filter in Hin as [_ Hin]. by apply (list_elem_of_fmap_2 snd) in Hin.
Qed.

Lemma fields_size f n c : c ∈ fields f n -> node_size c < node_size n.
Proof. intros Hc. by eapply node_size_child, fields_children. Qed.

Lemma field_fields f n c : field f n = Some c -> c ∈ fields f n.
Proof. unfold field. destruct (fields f n); [done|]. intros [= ->]. left. Qed.

Lemma field_size f n c : field f n = Some c -> node_size c < node_size n.
Proof. intros Hc. by eapply fields_size, field_fields. Qed.

Lemma elem_of_visited prune n m :
  m ∈ visited prune n <-> m = n \/ prune n = false /\ exists c, c ∈ children n /\ m ∈ visited prune c.
Proof.
  rewrite visited_unfold, elem_of_cons. destruct (prune n).
  - split; [intros [?|H]; [by left|by apply elem_of_nil in H]|intros [?|[? _]]; [by left|done]].
  - enough (m ∈ concat (map (visited prune) (children n)) <-> exists c, c ∈ children n /\ m ∈ visited prune c) as ->
      by naive_solver.
    rewrite list_elem_of_In, in_concat. split.
    + intros (l & (c & <- & Hc)%in_map_iff & Hm). exists c. by rewrite !list_elem_of_In.
    + intros (c & Hc & Hm). exists (visited prune c). split; [|by apply list_elem_of_In].
      apply in_map_iff. exists c. split; [done|]. by apply list_elem_of_In.
Qed.
