(* ===== verification/RewriteText.v ===== *)
(** What the rewriter is written in, and a file's text ([tools/effectgo/rewrite/text.go]).

    Its functions are computations over a state that may also panic. A recursion Go
    leaves unbounded takes fuel here, and answers [Exhausted] when that is not enough;
    [RewriteTermination] shows that what they are given is. *)

From S2P Require Import Prelude GoStrings GoSyntax.
From Stdlib Require Import Sorted.

Inductive answer (A : Type) : Type := Answer (a : A) | Panics | Exhausted.
Arguments Answer {A}.
Arguments Panics {A}.
Arguments Exhausted {A}.

Definition M (S A : Type) : Type := S -> answer (A * S).

#[export] Instance M_ret S : MRet (M S) := fun A a s => Answer (a, s).
#[export] Instance M_bind S : MBind (M S) := fun A B k m s =>
  match m s with
  | Answer (a, s) => k a s
  | Panics => Panics
  | Exhausted => Exhausted
  end.

Definition get {S} : M S S := fun s => Answer (s, s).
Definition put {S} (s : S) : M S unit := fun _ => Answer (tt, s).
Definition modify {S} (f : S -> S) : M S unit := fun s => Answer (tt, f s).
Definition gets {S A} (f : S -> A) : M S A := fun s => Answer (f s, s).
Definition panics {S A} : M S A := fun _ => Panics.
Definition exhausted {S A} : M S A := fun _ => Exhausted.

(** An index or a slice that is out of range panics. *)
Definition or_panic {S A} (o : option A) : M S A := fun s =>
  match o with Some a => Answer (a, s) | None => Panics end.

(** Local variables a closure captures: they join the state while it runs. *)
Definition with_local {S L A} (l : L) (m : M (S * L) A) : M S (A * L) := fun s =>
  match m (s, l) with
  | Answer (a, (s, l)) => Answer ((a, l), s)
  | Panics => Panics
  | Exhausted => Exhausted
  end.
Definition outer {S L A} (m : M S A) : M (S * L) A := fun '(s, l) =>
  match m s with
  | Answer (a, s) => Answer (a, (s, l))
  | Panics => Panics
  | Exhausted => Exhausted
  end.
Definition local {S L} (f : L -> L) : M (S * L) unit := fun '(s, l) => Answer (tt, (s, f l)).

(** [ast.Inspect] with a function that has such effects. *)
Fixpoint InspectM {S} (f : node -> M S bool) (n : node) : M S unit :=
  descend ← f n;
  if descend : bool then
    match n with
    | MkNode _ _ _ _ fs =>
        (fix walk (l : list (field_name * node)) : M S unit :=
           match l with
           | [] => mret tt
           | (_, child) :: l => InspectM f child;; walk l
           end) fs
    end
  else mret tt.

(** A [for] over a slice. *)
Fixpoint for_each {S A} (f : A -> M S unit) (l : list A) : M S unit :=
  match l with
  | [] => mret tt
  | x :: l => f x;; for_each f l
  end.

(** [sort.Slice] by a number. Elements with the same number keep their order,
    which Go leaves open. *)
Section Sorting.
Context {A : Type} (key : A -> nat).

Fixpoint insert_by (x : A) (l : list A) : list A :=
  match l with
  | [] => [x]
  | y :: l' => if Nat.leb (key x) (key y) then x :: l else y :: insert_by x l'
  end.

Definition sort_by (l : list A) : list A := foldr insert_by [] l.

Definition sorted_by (l : list A) : Prop := StronglySorted (fun x y => key x <= key y) l.

Lemma insert_by_Permutation x l : insert_by x l ≡ₚ x :: l.
Proof. induction l as [|y l IH]; cbn; [done|]. destruct (Nat.leb _ _); [done|]. rewrite IH. constructor. Qed.

Lemma sort_by_Permutation l : sort_by l ≡ₚ l.
Proof. induction l as [|x l IH]; cbn; [done|]. by rewrite insert_by_Permutation, IH. Qed.

Lemma insert_by_sorted x l : sorted_by l -> sorted_by (insert_by x l).
Proof.
  induction 1 as [|y l Hl IH Hy]; cbn; [repeat constructor|].
  destruct (Nat.leb_spec (key x) (key y)) as [Hle|Hlt].
  - constructor; [by constructor|]. constructor; [done|]. eapply Forall_impl; [exact Hy|]. intros z Hz. cbn in *. lia.
  - constructor; [done|]. rewrite insert_by_Permutation. constructor; [lia|done].
Qed.

Lemma sort_by_sorted l : sorted_by (sort_by l).
Proof. induction l; cbn; [constructor|by apply insert_by_sorted]. Qed.

Lemma sort_by_id l : sorted_by l -> sort_by l = l.
Proof.
  induction 1 as [|y l Hl IH Hy]; [done|].
  change (sort_by (y :: l)) with (insert_by y (sort_by l)). rewrite IH. destruct l as [|z l]; cbn; [done|].
  apply Forall_cons in Hy as [Hyz _]. by destruct (Nat.leb_spec (key y) (key z)); [|lia].
Qed.

(** Where no two elements share a number, every order of them sorts the same. *)
Lemma sort_by_unique l k : NoDup (map key l) -> l ≡ₚ k -> sorted_by k -> sort_by l = k.
Proof.
  intros Hd Hp Hk. pose proof (sort_by_Permutation l) as Hl. pose proof (sort_by_sorted l) as Hs.
  apply (Permutation_trans Hl) in Hp. apply Permutation_sym, (Permutation_map key) in Hl. rewrite Hl in Hd. clear Hl. revert Hp Hd Hs. generalize (sort_by l) as m. clear l.
  induction Hk as [|y k Hk IH Hy]; intros m Hp Hd Hs; [by apply Permutation_nil_r in Hp|].
  destruct m as [|x m]; [by apply Permutation_nil_l in Hp|].
  apply StronglySorted_inv in Hs as [Hs Hx]. cbn in Hd. apply NoDup_cons in Hd as [Hxm Hd].
  assert (x = y) as ->.
  { assert (x ∈ y :: k) as Hin by (rewrite <- Hp; left).
    assert (y ∈ x :: m) as Hin' by (rewrite Hp; left).
    apply elem_of_cons in Hin as [?|Hin]; [done|]. apply elem_of_cons in Hin' as [?|Hin']; [done|].
    rewrite Forall_forall in Hy, Hx. pose proof (Hy _ Hin). pose proof (Hx _ Hin'). cbn in *.
    exfalso. apply Hxm. replace (key x) with (key y) by lia. apply list_elem_of_fmap. eauto. }
  f_equal. apply IH; [|done|done]. by apply Permutation_cons_inv in Hp.
Qed.
End Sorting.

(** * What a run answers *)

Lemma bind_Answer {S A B} (k : A -> M S B) (m : M S A) s b s'' :
  (m ≫= k) s = Answer (b, s'') <-> exists a s', m s = Answer (a, s') /\ k a s' = Answer (b, s'').
Proof.
  unfold mbind, M_bind. split.
  - destruct (m s) as [[a s']| |]; [eauto|done..].
  - by intros (a & s' & -> & ?).
Qed.

Lemma InspectM_unfold {S} (f : node -> M S bool) n :
  InspectM f n = (descend ← f n; if descend : bool then for_each (InspectM f) (children n) else mret tt).
Proof.
  destruct n as [p k b e fs]. cbn [InspectM]. unfold children; cbn [fields_of].
  replace ((fix walk (l : list (field_name * node)) : M S unit :=
       match l with [] => mret tt | (_, child) :: l => InspectM f child;; walk l end) fs)
    with (for_each (InspectM f) fs.*2); [done|].
  induction fs as [|[g c] fs IH]; cbn; [done|]. by rewrite IH.
Qed.

(** * What a run leaves behind

    A relation between the states before and after that holds of every step of a
    computation holds of the whole, where it is a preorder. *)
Definition always {S A} (P : S -> S -> Prop) (m : M S A) : Prop :=
  forall s a s', m s = Answer (a, s') -> P s s'.

Section Always.
Context {S : Type} (P : S -> S -> Prop) `{!PreOrder P}.

Lemma always_ret {A} (a : A) : always P (mret a).
Proof. intros s b s' [= <- <-]. reflexivity. Qed.

Lemma always_bind {A B} (k : A -> M S B) (m : M S A) :
  always P m -> (forall a, always P (k a)) -> always P (m ≫= k).
Proof.
  intros Hm Hk s b s'' (a & s' & E & E')%bind_Answer. etransitivity; [by eapply Hm|by eapply Hk].
Qed.

Lemma always_or_panic {A} (o : option A) : always P (or_panic o).
Proof. intros s a s'. destruct o; [intros [= <- <-]; reflexivity|done]. Qed.

Lemma always_gets {A} (f : S -> A) : always P (gets f).
Proof. intros s a s' [= <- <-]. reflexivity. Qed.

Lemma always_get : always P get.
Proof. intros s a s' [= <- <-]. reflexivity. Qed.

Lemma always_panics {A} : always P (panics (A := A)).
Proof. done. Qed.

Lemma always_exhausted {A} : always P (exhausted (A := A)).
Proof. done. Qed.

Lemma always_modify f : (forall s, P s (f s)) -> always P (modify f).
Proof. intros Hf s a s' [= <- <-]. apply Hf. Qed.

Lemma always_mapM {A B} (f : A -> M S B) l : (forall x, always P (f x)) -> always P (mapM f l).
Proof.
  intros Hf. induction l as [|x l IH]; [apply always_ret|]. cbn. apply always_bind; [apply Hf|].
  intros y. apply always_bind; [done|]. intros. apply always_ret.
Qed.

Lemma always_for_each {A} (f : A -> M S unit) l : (forall x, always P (f x)) -> always P (for_each f l).
Proof.
  intros Hf. induction l as [|x l IH]; [apply always_ret|]. cbn. apply always_bind; [apply Hf|done].
Qed.

Lemma always_InspectM (f : node -> M S bool) n : (forall m, always P (f m)) -> always P (InspectM f n).
Proof.
  intros Hf. induction n as [n IH] using syntax_nested_ind. rewrite InspectM_unfold.
  apply always_bind; [apply Hf|]. intros [|]; [|apply always_ret].
  induction IH as [|c cs Hc _ IHcs]; cbn; [apply always_ret|]. by apply always_bind.
Qed.

(** Local variables are not part of what is left. *)
Definition on_state {L} (s s' : S * L) : Prop := P s.1 s'.1.

#[export] Instance on_state_preorder {L} : PreOrder (on_state (L := L)).
Proof. split; [intros s; unfold on_state; reflexivity|intros s s' s'' H H'; unfold on_state; by etransitivity]. Qed.

Lemma always_with_local {L A} (l : L) (m : M (S * L) A) : always on_state m -> always P (with_local l m).
Proof.
  intros Hm s a s'. unfold with_local. destruct (m (s, l)) as [[b [t l']]| |] eqn:E; [|done..].
  intros [= <- <-]. exact (Hm _ _ _ E).
Qed.

Lemma always_outer {L A} (m : M S A) : always P m -> always (on_state (L := L)) (outer m).
Proof.
  intros Hm [s l] a [s' l']. unfold outer. destruct (m s) as [[b t]| |] eqn:E; [|done..].
  intros [= <- <- <-]. exact (Hm _ _ _ E).
Qed.

Lemma always_local {L} (f : L -> L) : always on_state (local (S := S) f).
Proof. intros [s l] a [s' l'] [= <- <- <-]. unfold on_state; cbn. reflexivity. Qed.
End Always.

(** The goals a computation's structure leaves. *)
Ltac always_step :=
  match goal with
  | |- always _ (mbind _ _) => apply always_bind; [apply _| |intros]
  | |- always _ (mret _) => apply always_ret; apply _
  | |- always _ (or_panic _) => apply always_or_panic; apply _
  | |- always _ (outer _) => apply always_outer
  | |- always _ (local _) => apply always_local; apply _
  | |- always _ (with_local _ _) => apply always_with_local
  | |- always _ get => apply always_get; apply _
  | |- always _ (gets _) => apply always_gets; apply _
  | |- always _ panics => done
  | |- always _ exhausted => done
  | |- always _ (if ?b then _ else _) => destruct b
  | |- always _ (match ?x with _ => _ end) => destruct x
  | |- always _ (let _ := _ in _) => intro
  | _ => progress cbv zeta
  end.

(** Edits replace the source between two offsets. *)
Record edit : Type := MkEdit { edit_start : nat; edit_end : nat; edit_text : string }.

(** One file's text and the positions that index it: what the file set and the file
    in it answer are its base and [Position], which counts lines and columns. *)
Record source : Type := MkSource {
  source_base : Pos;
  source_text : string;
  source_filename : string;
  source_Position : Pos -> Z * Z
}.

(** [token.File.Offset] clamps a position to the file. *)
Definition offset (src : source) (pos : Pos) : nat :=
  (pos - source_base src) `min` String.length (source_text src).

Definition line_directive (src : source) (pos : Pos) : string :=
  let '(line, column) := source_Position src pos in
  ("/*line " ++ source_filename src ++ ":" ++ decimal line ++ ":" ++ decimal column ++ "*/")%string.

Definition line (src : source) (n : node) : string := line_directive src (node_Pos n).

(** [text[from:to]], which panics out of range. *)
Definition slice (text : string) (from to : nat) : option string :=
  if (from <=? to) && (to <=? String.length text) then Some (String.substring from (to - from) text) else None.

Fixpoint splice_from (text : string) (at_ end_ : nat) (edits : list edit) : option string :=
  match edits with
  | [] => slice text at_ end_
  | change :: edits =>
      if (edit_start change <? at_) || (end_ <? edit_end change) then splice_from text at_ end_ edits
      else
        gap ← slice text at_ (edit_start change);
        rest ← splice_from text (edit_end change) end_ edits;
        Some (gap ++ edit_text change ++ rest)%string
  end.

Definition splice (src : source) (start end_ : nat) (edits : list edit) : option string :=
  splice_from (source_text src) start end_ (sort_by edit_start edits).

(** * What splicing does *)

Lemma substring_prefix (b c : string) : String.substring 0 (String.length b) (b ++ c) = b.
Proof.
  induction b as [|x b IH]; [by destruct c|]. rewrite string_app_cons. cbn [String.length String.substring].
  by rewrite IH.
Qed.

Lemma substring_middle (a b c : string) :
  String.substring (String.length a) (String.length b) (a ++ b ++ c) = b.
Proof. induction a as [|x a IH]; [rewrite string_app_nil_l; apply substring_prefix|exact IH]. Qed.

Lemma slice_middle (a b c : string) :
  slice (a ++ b ++ c) (String.length a) (String.length a + String.length b) = Some b.
Proof.
  unfold slice. rewrite !string_length_app.
  destruct (Nat.leb_spec (String.length a) (String.length a + String.length b)); [|lia].
  destruct (Nat.leb_spec (String.length a + String.length b)
              (String.length a + (String.length b + String.length c))); [|lia].
  cbn [andb]. replace (String.length a + String.length b - String.length a) with (String.length b) by lia.
  by rewrite substring_middle.
Qed.

(** A text cut up into gaps that stay and pieces that are replaced. *)
Record segment : Type := MkSegment { seg_gap : string; seg_old : string; seg_new : string }.

Fixpoint segments_old (segs : list segment) : string :=
  match segs with
  | [] => EmptyString
  | s :: segs => (seg_gap s ++ seg_old s ++ segments_old segs)%string
  end.

Fixpoint segments_new (segs : list segment) : string :=
  match segs with
  | [] => EmptyString
  | s :: segs => (seg_gap s ++ seg_new s ++ segments_new segs)%string
  end.

Fixpoint segment_edits (at_ : nat) (segs : list segment) : list edit :=
  match segs with
  | [] => []
  | s :: segs =>
      let start := at_ + String.length (seg_gap s) in
      let end_ := start + String.length (seg_old s) in
      MkEdit start end_ (seg_new s) :: segment_edits end_ segs
  end.

Lemma segment_edits_above at_ segs : Forall (fun e => at_ <= edit_start e) (segment_edits at_ segs).
Proof.
  revert at_. induction segs as [|s segs IH]; intros at_; cbn; constructor; [cbn; lia|].
  eapply Forall_impl; [apply IH|]. intros e; cbn. lia.
Qed.

Lemma segment_edits_sorted at_ segs : sorted_by edit_start (segment_edits at_ segs).
Proof.
  revert at_. induction segs as [|s segs IH]; intros at_; cbn; constructor; [apply IH|].
  eapply Forall_impl; [apply segment_edits_above|]. intros e; cbn. lia.
Qed.

Lemma splice_from_segments (pre tail post : string) segs :
  splice_from (pre ++ segments_old segs ++ tail ++ post) (String.length pre)
    (String.length pre + String.length (segments_old segs ++ tail)) (segment_edits (String.length pre) segs)
  = Some (segments_new segs ++ tail)%string.
Proof.
  revert pre. induction segs as [|[gap old new] segs IH]; intros pre.
  { cbn [segments_old segments_new segment_edits splice_from]. rewrite !string_app_nil_l. apply slice_middle. }
  cbn [segments_old segments_new segment_edits splice_from seg_gap seg_old seg_new edit_start edit_end edit_text].
  rewrite !string_app_assoc, !string_length_app.
  destruct (Nat.ltb_spec (String.length pre + String.length gap) (String.length pre)); [lia|].
  destruct (Nat.ltb_spec (String.length pre + (String.length gap + (String.length old +
    (String.length (segments_old segs) + String.length tail))))
    (String.length pre + String.length gap + String.length old)); [lia|]. cbn [orb].
  rewrite slice_middle. cbn [mbind option_bind].
  specialize (IH (pre ++ gap ++ old)%string).
  rewrite !string_app_assoc, !string_length_app, !Nat.add_assoc in IH.
  rewrite !Nat.add_assoc, IH. done.
Qed.

(** C35. Edits that do not overlap are all applied, and everything between them
    stays: cut a text into gaps and pieces, and splicing the edits that replace the
    pieces, given in any order at all, answers the gaps with the replacements in
    between. What [sort.Slice] does with equal starts does not matter, because where
    edits are disjoint and not at one place there are none. *)
Theorem splice_applies_disjoint_edits src (pre tail post : string) segs edits :
  source_text src = (pre ++ segments_old segs ++ tail ++ post)%string ->
  edits ≡ₚ segment_edits (String.length pre) segs ->
  NoDup (map edit_start edits) ->
  splice src (String.length pre) (String.length pre + String.length (segments_old segs ++ tail)) edits
  = Some (segments_new segs ++ tail)%string.
Proof.
  intros Htext Hp Hd. unfold splice. rewrite Htext, (sort_by_unique _ _ _ Hd Hp (segment_edits_sorted _ _)).
  apply splice_from_segments.
Qed.
