(* ===== verification/RewriteNames.v ===== *)
(** The names and types generated code can write ([tools/effectgo/rewrite/names.go]):
    identifiers no identifier of the file spells, packages under the names the file
    gives them, and the types a file can name at all. A fresh name is found without
    running out of fuel, and is one the file does not spell. *)

From S2P Require Import Prelude GoStrings Config ConfigNumbers GoSyntax RewriteText.
From Stdlib Require Import Ascii.

(** * More of package [strings] *)

Fixpoint LastIndex (s sep : string) : option nat :=
  match s with
  | EmptyString => if HasPrefix EmptyString sep then Some 0 else None
  | String a s' =>
      match LastIndex s' sep with
      | Some at_ => Some (S at_)
      | None => if HasPrefix s sep then Some 0 else None
      end
  end.

Definition Contains (s substr : string) : bool := bool_decide (is_Some (LastIndex s substr)).

Fixpoint HasSuffix (s suffix : string) : bool :=
  bool_decide (s = suffix) || match s with EmptyString => false | String _ s => HasSuffix s suffix end.

(** [strings.ToUpper(name[:1])]: a byte that is no character of its own becomes
    U+FFFD. *)
Definition upper_first (a : ascii) : string :=
  if nat_of_ascii a <? 128 then String (to_upper_byte a) EmptyString
  else String (ascii_of_nat 239) (String (ascii_of_nat 191) (String (ascii_of_nat 189) EmptyString)).

(** * Identifiers *)

Record names : Type := MkNames { taken : gset string; next : nat }.

Definition newNames (file : file) : names :=
  MkNames
    (Inspect (fun n taken =>
       (true, match kind_of n with Ident Name => {[Name]} ∪ taken | _ => taken end))
       (file_node file) ∅)
    0.

Definition numbered (prefix : string) (n : nat) : string := (prefix ++ decimal (Z.of_nat n))%string.

Fixpoint fresh_loop (fuel : nat) (prefix : string) : M names string := fun all =>
  match fuel with
  | O => Exhausted
  | S fuel =>
      let next := S (next all) in
      let name := numbered prefix next in
      if decide (name ∈ taken all) then fresh_loop fuel prefix (MkNames (taken all) next)
      else Answer (name, MkNames ({[name]} ∪ taken all) next)
  end.

Definition fresh (prefix : string) : M names string := fun all =>
  fresh_loop (S (size (taken all))) prefix all.

(** * Types *)

(** [imports] are the file's own, by path, and [additions] those generated code
    needs. *)
Record typeNames : Type := MkTypeNames {
  tn_pkg : package;
  tn_names : names;
  tn_imports : gmap string string;
  tn_additions : gmap string string;
  tn_shadowed : string -> bool
}.

Definition newTypeNames (file : file) (info : Info) (pkg : package) (all : names) : typeNames :=
  let imports := foldl (fun imports spec =>
    match PkgNameOf info (ptr spec) with
    | None => imports
    | Some (Name, Path) =>
        if String.eqb Name "_" || String.eqb Name "." then imports else <[Path := Name]> imports
    end) ∅ (file_Imports file) in
  MkTypeNames pkg all imports ∅ (fun _ => false).

(** [tn.names.fresh]. *)
Definition fresh_name (prefix : string) : M typeNames string := fun tn =>
  match fresh prefix (tn_names tn) with
  | Answer (name, all) =>
      Answer (name, MkTypeNames (tn_pkg tn) all (tn_imports tn) (tn_additions tn) (tn_shadowed tn))
  | Panics => Panics
  | Exhausted => Exhausted
  end.

Definition set_additions (additions : gmap string string) : M typeNames unit :=
  modify (fun tn => MkTypeNames (tn_pkg tn) (tn_names tn) (tn_imports tn) additions (tn_shadowed tn)).

(** The names the identifiers inside a literal declare, and what a call's position
    resolves a name to. *)
Definition declared_in (info : Info) (literal : node) : gset string :=
  Inspect (fun n declared =>
    (true, match kind_of n with
           | Ident Name => if Defs info (ptr n) then {[Name]} ∪ declared else declared
           | _ => declared
           end)) literal ∅.

Definition shadowed_at (info : Info) (literal call : node) (name : string) : bool :=
  if decide (name ∈ declared_in info literal) then true
  else match LookupParent info name (node_Pos call) with
       | None => false
       | Some object => negb (bool_decide (object_kind_of object = PkgNameObject))
       end.

Definition forSite (info : Info) (literal call : node) : M typeNames unit :=
  modify (fun tn => MkTypeNames (tn_pkg tn) (tn_names tn) (tn_imports tn) (tn_additions tn)
                      (shadowed_at info literal call)).

Definition packageName (path name : string) : M typeNames string :=
  tn ← get;
  let added :=
    match tn_additions tn !! path with
    | Some alias => mret alias
    | None =>
        match name with
        | EmptyString => panics
        | String a rest =>
            alias ← fresh_name ("rewritten" ++ upper_first a ++ rest)%string;
            tn ← get;
            set_additions (<[path := alias]> (tn_additions tn));;
            mret alias
        end
    end in
  match tn_imports tn !! path with
  | Some local => if tn_shadowed tn local then added else mret local
  | None => added
  end.

(** Go's internal-package rule as the file applies it. *)
Definition importable (from path : string) : bool :=
  let below (parent : string) := bool_decide (from = parent) || HasPrefix from (parent ++ "/") in
  match LastIndex path "/internal/" with
  | Some at_ => below (String.substring 0 at_ path)
  | None =>
      if negb (HasSuffix path "/internal") then negb (HasPrefix path "internal/")
      else below (String.substring 0 (String.length path - String.length "/internal") path)
  end.

Definition visible (pkg : package) (object : symbol) : bool :=
  match symbol_Pkg object with
  | None => true
  | Some other =>
      if decide (other = pkg) then true
      else symbol_Exported object && importable (pkg_Path pkg) (pkg_Path other)
  end.

(** A tuple's types, one after the other, stopping at one that is not nameable. *)
Definition tupleNameable (nameable : gotype -> gset nat -> bool * gset nat) :
    list gotype -> gset nat -> bool * gset nat :=
  fix go tuple seen :=
    match tuple with
    | [] => (true, seen)
    | t :: tuple =>
        let '(ok, seen) := nameable t seen in
        if ok : bool then go tuple seen else (false, seen)
    end.

Definition structNameable (pkg : package) (nameable : gotype -> gset nat -> bool * gset nat) :
    list (symbol * gotype) -> gset nat -> bool * gset nat :=
  fix go members seen :=
    match members with
    | [] => (true, seen)
    | (member, t) :: members =>
        if visible pkg member then
          let '(ok, seen) := nameable t seen in
          if ok : bool then go members seen else (false, seen)
        else (false, seen)
    end.

(** What is seen again is under way, or was nameable. *)
Fixpoint nameable (pkg : package) (t : gotype) (seen : gset nat) : bool * gset nat :=
  if decide (type_ptr t ∈ seen) then (true, seen)
  else
    let seen := {[type_ptr t]} ∪ seen in
    match t with
    | Named _ obj args => if visible pkg obj then tupleNameable (nameable pkg) args seen else (false, seen)
    | Alias _ obj actual => if visible pkg obj then nameable pkg actual seen else (false, seen)
    | Pointer _ elem | Slice _ elem | Array _ elem | TypeChan _ elem => nameable pkg elem seen
    | Map _ key elem =>
        let '(ok, seen) := nameable pkg key seen in
        if ok then nameable pkg elem seen else (false, seen)
    | Signature _ params results =>
        let '(ok, seen) := tupleNameable (nameable pkg) params seen in
        if ok then tupleNameable (nameable pkg) results seen else (false, seen)
    | Struct _ members => structNameable pkg (nameable pkg) members seen
    | Basic _ _ _ | TypeParam _ | Interface _ => (true, seen)
    | OtherType _ => (false, seen)
    end.

(** [types.TypeString]. *)
Fixpoint TypeString (qualifier : package -> M typeNames string) (pieces : list (string + package)) :
    M typeNames string :=
  match pieces with
  | [] => mret EmptyString
  | inl text :: pieces => rest ← TypeString qualifier pieces; mret (text ++ rest)%string
  | inr other :: pieces =>
      name ← qualifier other;
      rest ← TypeString qualifier pieces;
      mret ((if String.eqb name EmptyString then EmptyString else name ++ ".") ++ rest)%string
  end.

(** How the file writes a type; nothing where it cannot. *)
Definition type_text (info : Info) (t : gotype) : M typeNames (option string) :=
  tn ← get;
  if (nameable (tn_pkg tn) t ∅).1 then
    text ← TypeString (fun other =>
      if decide (other = tn_pkg tn) then mret EmptyString
      else packageName (pkg_Path other) (pkg_Name other)) (TypePieces info t);
    mret (Some text)
  else mret None.

(** * Computations that end *)

Definition halts {S A} (m : M S A) : Prop := forall s, m s <> Exhausted.

Lemma halts_ret {S A} (a : A) : halts (mret (M := M S) a).
Proof. done. Qed.

Lemma halts_bind {S A B} (k : A -> M S B) (m : M S A) :
  halts m -> (forall a, halts (k a)) -> halts (m ≫= k).
Proof.
  intros Hm Hk s. unfold mbind, M_bind. specialize (Hm s).
  destruct (m s) as [[a s']| |]; [apply Hk|done|done].
Qed.

Lemma halts_or_panic {S A} (o : option A) : halts (or_panic (S := S) o).
Proof. by destruct o. Qed.

Lemma halts_bind_or_panic {S A B} (o : option A) (k : A -> M S B) :
  (forall a, o = Some a -> halts (k a)) -> halts (or_panic o ≫= k).
Proof. intros Hk s. destruct o as [a|]; [by apply Hk|done]. Qed.

Lemma halts_with_local {S L A} (l : L) (m : M (S * L) A) : halts m -> halts (with_local l m).
Proof. intros Hm s. unfold with_local. specialize (Hm (s, l)). by destruct (m (s, l)) as [[a [s' l']]| |]. Qed.

Lemma halts_outer {S L A} (m : M S A) : halts m -> halts (outer (L := L) m).
Proof. intros Hm [s l]. unfold outer. specialize (Hm s). by destruct (m s) as [[a s']| |]. Qed.

Lemma halts_local {S L} (f : L -> L) : halts (local (S := S) f).
Proof. by intros [s l]. Qed.

Lemma halts_simple {S} :
  halts (get (S := S)) /\ (forall f, halts (modify (S := S) f)) /\ (forall A (f : S -> A), halts (gets f))
  /\ (forall A, halts (panics (S := S) (A := A))).
Proof. done. Qed.

Lemma halts_mapM {S A B} (f : A -> M S B) l : (forall x, x ∈ l -> halts (f x)) -> halts (mapM f l).
Proof.
  induction l as [|x l IH]; intros Hf; [apply halts_ret|]. cbn. apply halts_bind; [apply Hf; left|].
  intros y. apply halts_bind; [apply IH; intros; apply Hf; by right|]. intros ys. apply halts_ret.
Qed.

Lemma halts_for_each {S A} (f : A -> M S unit) l : (forall x, x ∈ l -> halts (f x)) -> halts (for_each f l).
Proof.
  induction l as [|x l IH]; intros Hf; [apply halts_ret|]. cbn. apply halts_bind; [apply Hf; left|].
  intros _. apply IH. intros; apply Hf; by right.
Qed.

(** A visit ends where what it does at the nodes below does. *)
Lemma halts_InspectM {S} (f : node -> M S bool) n :
  halts (f n) -> (forall m, node_size m < node_size n -> halts (f m)) -> halts (InspectM f n).
Proof.
  induction n as [n IH] using syntax_nested_ind. intros Hn Hbelow. rewrite InspectM_unfold.
  apply halts_bind; [done|]. intros [|]; [|apply halts_ret]. apply halts_for_each. intros c Hc.
  pose proof (node_size_child _ _ Hc) as Hsize. rewrite Forall_forall in IH.
  apply (IH _ Hc); [by apply Hbelow|]. intros m Hm. apply Hbelow. lia.
Qed.

(** The goals a computation's structure leaves. *)
Ltac halts_step :=
  match goal with
  | |- halts (mbind _ (or_panic _)) => apply halts_bind_or_panic; intros ? ?
  | |- halts (mbind _ _) => apply halts_bind; [|intros]
  | |- halts (mret _) => apply halts_ret
  | |- halts (or_panic _) => apply halts_or_panic
  | |- halts (outer _) => apply halts_outer
  | |- halts (local _) => apply halts_local
  | |- halts (with_local _ _) => apply halts_with_local
  | |- halts get => done
  | |- halts panics => done
  | |- halts (modify _) => done
  | |- halts (gets _) => done
  | |- halts (if ?b then _ else _) => destruct b
  | |- halts (match ?x with _ => _ end) => destruct x eqn:?
  | |- halts (let _ := _ in _) => intro
  | _ => progress cbv zeta
  end.

(** * Fresh names *)

Lemma string_app_inj (p a b : string) : (p ++ a = p ++ b)%string -> a = b.
Proof. induction p as [|x p IH]; [done|]. rewrite !string_app_cons. intros [= H]. by apply IH. Qed.

Lemma decimal_inj z z' : (0 <= z)%Z -> (0 <= z')%Z -> decimal z = decimal z' -> z = z'.
Proof.
  unfold decimal. intros Hz Hz' H.
  destruct (Z.ltb_spec z 0); [lia|]. destruct (Z.ltb_spec z' 0); [lia|].
  pose proof (unsigned_value_decimal z Hz) as E. rewrite H, unsigned_value_decimal in E by done. by injection E.
Qed.

Lemma numbered_inj prefix n m : numbered prefix n = numbered prefix m -> n = m.
Proof. unfold numbered. intros H%string_app_inj%decimal_inj; lia. Qed.

(** The numbers tried and found taken are as many names of the file. *)
Lemma fresh_loop_spec fuel prefix all :
  (exists n, n < fuel /\ fresh_loop fuel prefix all
     = Answer (numbered prefix (next all + S n),
               MkNames ({[numbered prefix (next all + S n)]} ∪ taken all) (next all + S n))
     /\ numbered prefix (next all + S n) ∉ taken all)
  \/ (fresh_loop fuel prefix all = Exhausted
      /\ forall n, n < fuel -> numbered prefix (next all + S n) ∈ taken all).
Proof.
  revert all. induction fuel as [|fuel IH]; intros all; cbn [fresh_loop]; [right; split; [done|lia]|].
  destruct (decide (numbered prefix (S (next all)) ∈ taken all)) as [Hin|Hout].
  - destruct (IH (MkNames (taken all) (S (next all)))) as [(n & Hn & E & Hnew)|[E Hall]]; cbn [taken next] in *.
    + left. exists (S n). rewrite <- !plus_n_Sm, !Nat.add_succ_l in *. split; [lia|done].
    + right. split; [done|]. intros [|n] Hn; [by rewrite Nat.add_1_r|].
      rewrite <- plus_n_Sm, <- Nat.add_succ_l. apply Hall. lia.
  - left. exists 0. rewrite Nat.add_1_r. split; [lia|done].
Qed.

Lemma fresh_spec prefix all :
  exists n, let name := numbered prefix n in
    fresh prefix all = Answer (name, MkNames ({[name]} ∪ taken all) n)
    /\ name ∉ taken all /\ next all < n <= next all + S (size (taken all)).
Proof.
  unfold fresh. destruct (fresh_loop_spec (S (size (taken all))) prefix all) as [(n & Hn & E & Hnew)|[_ Hall]].
  - exists (next all + S n). split; [done|]. split; [done|lia].
  - exfalso. set (tried := list_to_set (C := gset string) (map (fun n => numbered prefix (next all + S n))
      (seq 0 (S (size (taken all)))))).
    assert (tried ⊆ taken all) as Hsub%subseteq_size.
    { intros name (n & -> & Hn%elem_of_seq)%elem_of_list_to_set%list_elem_of_fmap. apply Hall. lia. }
    unfold tried in Hsub. rewrite size_list_to_set in Hsub.
    + rewrite length_map, length_seq in Hsub. lia.
    + apply NoDup_fmap_2_strong; [|apply NoDup_seq]. intros n m _ _ H%numbered_inj. lia.
Qed.


Lemma fresh_halts prefix : halts (fresh prefix).
Proof. intros all. by destruct (fresh_spec prefix all) as (n & -> & _). Qed.

(** The names a file's identifiers spell. *)
Definition spells (file : file) (name : string) : Prop :=
  exists p b e fs, MkNode p (Ident name) b e fs ∈ visited (fun _ => false) (file_node file).

Lemma newNames_taken file name : name ∈ taken (newNames file) <-> spells file name.
Proof.
  unfold newNames, spells; cbn [taken].
  rewrite (Inspect_fold _ (fun _ => false)
    (fun taken n => match kind_of n with Ident Name => {[Name]} ∪ taken | _ => taken end)) by done.
  enough (forall (acc : gset string) l,
    name ∈ foldl (fun taken n => match kind_of n with Ident Name => {[Name]} ∪ taken | _ => taken end) acc l
    <-> name ∈ acc \/ exists p b e fs, MkNode p (Ident name) b e fs ∈ l) as ->.
  { set_solver. }
  intros acc l. revert acc. induction l as [|n l IH]; intros acc; cbn [foldl].
  - set_solver.
  - rewrite IH. destruct n as [p k b e fs]. cbn [kind_of].
    setoid_rewrite elem_of_cons. destruct k; set_solver.
Qed.

(** Names handed out one after the other. *)
Lemma fresh_many prefixes all :
  exists names all', mapM fresh prefixes all = Answer (names, all')
    /\ taken all' = list_to_set names ∪ taken all /\ NoDup names /\ forall name, name ∈ names -> name ∉ taken all.
Proof.
  revert all. induction prefixes as [|prefix prefixes IH]; intros all.
  - exists [], all. repeat split; [set_solver|constructor|set_solver].
  - destruct (fresh_spec prefix all) as (n & E & Hnew & _).
    destruct (IH (MkNames ({[numbered prefix n]} ∪ taken all) n)) as (names & all' & E' & Ht & Hd & Hout).
    cbn [taken] in *. exists (numbered prefix n :: names), all'. split.
    { cbn [mapM]. apply bind_Answer. eexists _, _. split; [exact E|]. apply bind_Answer. by eexists _, _. }
    split; [rewrite Ht; set_solver|]. split.
    + constructor; [|done]. intros Hin%Hout. set_solver.
    + intros name [->|Hin]%elem_of_cons; [done|]. apply Hout in Hin. set_solver.
Qed.

(** C34. Generated names never clash: however many are handed out, and under whatever
    prefixes, the loops end, no two of the names are the same, and none is spelled by
    any identifier of the file. *)
Theorem fresh_names_never_clash file prefixes :
  exists names all, mapM fresh prefixes (newNames file) = Answer (names, all)
    /\ length names = length prefixes /\ NoDup names /\ forall name, name ∈ names -> ~ spells file name.
Proof.
  destruct (fresh_many prefixes (newNames file)) as (names & all & E & _ & Hd & Hout).
  exists names, all. split; [done|]. split; [|split; [done|]].
  - clear - E. revert names all E. generalize (newNames file) as from.
    induction prefixes as [|p ps IH]; intros from names all; [by intros [= <- <-]|]. cbn [mapM].
    intros (n & s & _ & (ns & s' & E & [= <- <-])%bind_Answer)%bind_Answer. cbn. f_equal. by eapply IH.
  - intros name Hin. rewrite <- newNames_taken. by apply Hout.
Qed.
