(* ===== verification/RewriteSite.v ===== *)
(** Which calls the rewriter translates ([tools/effectgo/rewrite/site.go]): an
    [effect.Gen] over a function literal, its steps, and what makes it decline. An
    accepted site's parameter is used by its steps alone, and its body holds nothing
    the rewrite has no translation for. *)

From S2P Require Import Prelude GoStrings GoSyntax RewriteText.

Definition effectPath : string := "github.com/mbauer83/effect-golang/effect".

(** One [do.Await] or [do.Fail] call. A Fail answers no value. *)
Record step : Type := MkStep { fail : bool; argument : node; value : option gotype }.

(** One [effect.Gen] call. [site_do] is the parameter's object, if it has one, and
    [steps] are the body's own, with the call each is, by the call's pointer. *)
Record site : Type := MkSite {
  site_call : node;
  site_literal : node;
  site_do : option object;
  site_r : gotype;
  site_e : gotype;
  site_a : gotype;
  steps : gmap nat (node * step)
}.

Definition step_of (st : site) (call : node) : option step := snd <$> (steps st !! ptr call).

(** The [x.Sel] a call's function is, parentheses aside. *)
Definition callSelector (call : node) : option (node * string) :=
  fun_ ← field fFun call;
  match kind_of (Unparen fun_) with
  | SelectorExpr =>
      x ← field fX (Unparen fun_);
      sel ← field fSel (Unparen fun_);
      Some (x, ident_Name sel)
  | _ => None
  end.

Definition isGen (info : Info) (call : node) : bool :=
  let ident :=
    fun_ ← field fFun call;
    match kind_of (Unparen fun_) with
    | SelectorExpr => field fSel (Unparen fun_)
    | IndexExpr | IndexListExpr =>
        selector ← field fX (Unparen fun_);
        match kind_of selector with SelectorExpr => field fSel selector | _ => None end
    | _ => None
    end in
  match ident with
  | None => false
  | Some ident =>
      match Uses info (ptr ident) with
      | Some function =>
          bool_decide (object_kind_of function = FuncObject)
          && String.eqb (symbol_Name (object_symbol function)) "Gen"
          && match symbol_Pkg (object_symbol function) with
             | Some pkg => String.eqb (pkg_Path pkg) effectPath
             | None => false
             end
      | None => false
      end
  end.

(** Whether an identifier there may not be stands for an object. *)
Definition uses_object (info : Info) (ident : option node) (target : object) : bool :=
  match uses info ident with
  | Some object => object_ptr object =? object_ptr target
  | None => false
  end.

(** What [collectSteps]'s closure writes to: the site's steps and the reason. *)
Definition collected : Type := gmap nat (node * step) * string.

Definition because (reason : string) : M collected unit := local (fun _ => reason).
Definition add_step (call : node) (st : step) : M collected unit :=
  modify (fun '(steps, reason) => (<[ptr call := (call, st)]> steps, reason)).

Fixpoint visit (info : Info) (do : object) (fuel : nat) (nested : bool) (n : node) : M collected bool :=
  match fuel with
  | O => exhausted
  | S fuel =>
      reason ← gets snd;
      if negb (String.eqb reason EmptyString) then mret false
      else match kind_of n with
      | FuncLit =>
          body ← or_panic (field fBody n);
          InspectM (visit info do fuel true) body;;
          mret false
      | CallExpr =>
          match callSelector n with
          | None => mret true
          | Some (x, Sel) =>
              if negb (uses_object info (identOf x) do) then mret true
              else if nested then because "do is used inside a function literal";; mret false
              else if String.eqb Sel "Await" || String.eqb Sel "Fail" then
                arg ← or_panic (head (fields fArgs n));
                add_step n (if String.eqb Sel "Await" then MkStep false arg (Some (TypeOf info (ptr n)))
                            else MkStep true arg None);;
                InspectM (visit info do fuel nested) arg;;
                mret false
              else because ("do." ++ Sel ++ " is not a step");; mret false
          end
      | Ident _ =>
          if uses_object info (Some n) do then
            because "do is used other than as the receiver of a step";; mret false
          else mret true
      | _ => mret true
      end
  end.

(** Every use of [do], each of which must be the receiver of a step. *)
Definition collectSteps (info : Info) (literal : node) (do : option object) : answer collected :=
  match do with
  | None => Answer (∅, EmptyString)
  | Some do =>
      match field fBody literal with
      | None => Panics
      | Some body =>
          match InspectM (visit info do (node_size body) false) body (∅, EmptyString) with
          | Answer (_, found) => Answer found
          | Panics => Panics
          | Exhausted => Exhausted
          end
      end
  end.

(** No site and no reason where the call is no [effect.Gen] at all. *)
Definition findSite (info : Info) (call : node) : answer (site + string) :=
  if negb (isGen info call) then Answer (inr EmptyString)
  else match fields fArgs call with
  | [] => Panics
  | literal :: others =>
      if negb (bool_decide (kind_of literal = FuncLit) && (length others =? 0)) then
        Answer (inr "the body is not a function literal")
      else
        let type_ := field fType literal in
        let results := fields fList <$> (type_ ≫= field fResults) in
        match results with
        | Some [result] =>
            if 0 <? length (fields fNames result) then Answer (inr "the body has named results")
            else match TypeOf info (ptr call) with
            | Named _ _ [r; e; a] =>
                let do :=
                  match fields fList <$> (type_ ≫= field fParams) with
                  | Some [param] =>
                      match fields fNames param with
                      | [name] => Defs info (ptr name)
                      | _ => None
                      end
                  | _ => None
                  end in
                match collectSteps info literal do with
                | Answer (found, reason) =>
                    if String.eqb reason EmptyString then Answer (inl (MkSite call literal do r e a found))
                    else Answer (inr reason)
                | Panics => Panics
                | Exhausted => Exhausted
                end
            | _ => Answer (inr "the call's type is not an effect.Effect")
            end
        | _ => Answer (inr "the body has named results")
        end
  end.

(** A call that ends the goroutine it runs on, by name. *)
Definition endsGoroutine (call : node) : string :=
  match callSelector call with
  | None => EmptyString
  | Some (x, Sel) =>
      if String.eqb Sel "Goexit" then
        match identOf x with
        | Some ident => if String.eqb (ident_Name ident) "runtime" then "runtime.Goexit" else EmptyString
        | None => EmptyString
        end
      else if bool_decide (Sel ∈ ["FailNow"; "Fatal"; "Fatalf"; "SkipNow"; "Skip"; "Skipf"]) then Sel
      else EmptyString
  end.

(** Whether a node holds one of the body's steps, outside nested literals. *)
Definition containsStep (st : site) (n : node) : bool :=
  Inspect (fun inner contains =>
    if contains : bool then (false, contains)
    else match kind_of inner with
    | FuncLit => (ptr inner =? ptr (site_literal st), contains)
    | CallExpr => (true, bool_decide (is_Some (steps st !! ptr inner)))
    | _ => (true, contains)
    end) n false.

(** The first construct of the body that is not translated; empty if there is none. *)
Definition declines (st : site) (n : node) : string :=
  match kind_of n with
  | DeferStmt => "the body defers a call"
  | LabeledStmt => "the body has a label"
  | BranchStmt Tok =>
      if bool_decide (Tok = GOTO) || bool_decide (Tok = FALLTHROUGH) || bool_decide (is_Some (field fLabel n))
      then "the body uses " ++ token_String Tok else EmptyString
  | SelectStmt | GoStmt =>
      if containsStep st n then "a step is inside a select or a go statement" else EmptyString
  | CallExpr =>
      let name := endsGoroutine n in
      if negb (String.eqb name EmptyString)
      then "the body calls " ++ name ++ ", which a rewritten body would let end the fiber" else EmptyString
  | _ => EmptyString
  end%string.

Definition declineReason (st : site) (body : node) : string :=
  Inspect (fun n reason =>
    if negb (String.eqb reason EmptyString) then (false, reason)
    else match kind_of n with
    | FuncLit => (false, reason)
    | _ => (true, declines st n)
    end) body EmptyString.

(** All nodes of a tree, and those outside nested function literals. *)
Definition everywhere (n : node) : list node := visited (fun _ => false) n.
Definition outside_literals (n : node) : list node := visited (fun n => bool_decide (kind_of n = FuncLit)) n.

Section Site.
Context (info : Info) (do : object).

(** A use of [do]. *)
Definition uses_do (n : node) : Prop := (exists Name, kind_of n = Ident Name) /\ uses_object info (Some n) do = true.

Definition do_call (call : node) (Sel : string) (receiver : node) : Prop :=
  kind_of call = CallExpr
  /\ exists x, callSelector call = Some (x, Sel) /\ identOf x = Some receiver /\ uses_object info (Some receiver) do = true.

(** What Go's grammar and its type checker see to: a call of a method of [do] mentions
    it once before its arguments, and passes one argument to [Await] and [Fail]; the
    type of a function literal mentions no variable. *)
Definition well_typed (body : node) : Prop :=
  forall n, n ∈ everywhere body ->
  (forall Sel receiver, do_call n Sel receiver -> Sel = "Await" \/ Sel = "Fail" ->
     exists arg, head (fields fArgs n) = Some arg
     /\ forall c m, c ∈ children n -> m ∈ everywhere c -> uses_do m -> ptr m = ptr receiver \/ c = arg)
  /\ (kind_of n = FuncLit ->
      forall body c m, field fBody n = Some body -> c ∈ children n -> m ∈ everywhere c -> uses_do m -> c = body).

(** A use of [do] as the receiver of a step of the body's own. *)
Definition is_receiver (steps : gmap nat (node * step)) (tree m : node) : Prop :=
  exists call Sel receiver, call ∈ outside_literals tree /\ do_call call Sel receiver /\ ptr m = ptr receiver
  /\ (Sel = "Await" \/ Sel = "Fail") /\ is_Some (steps !! ptr call).

(** Steps stay, and so does a reason. *)
Definition grows (s s' : collected) : Prop := dom s.1 ⊆ dom s'.1 /\ (s'.2 = EmptyString -> s.2 = EmptyString).

#[local] Instance grows_preorder : PreOrder grows.
Proof.
  split; [intros s; split; [done|intros E; exact E]|].
  intros s s' s'' [H1 H2] [H3 H4]. split; [by etransitivity|auto].
Qed.

Lemma visit_grows fuel nested n : always grows (visit info do fuel nested n).
Proof.
  revert nested n. induction fuel as [|fuel IH]; intros nested n; [done|]. cbn [visit].
  assert (forall reason, reason <> EmptyString -> always grows (because reason)) as Hb.
  { intros reason Hr [steps r] u s' [= _ <-]. split; [done|]. cbn. done. }
  assert (forall call st, always grows (add_step call st)) as Ha.
  { intros call st [steps r] u s' [= _ <-]. split; [cbn; rewrite dom_insert; set_solver|done]. }
  assert (forall nested n, always grows (InspectM (visit info do fuel nested) n)) as Hi.
  { intros. apply always_InspectM; [apply _|]. auto. }
  repeat always_step; auto; by apply Hb.
Qed.

Lemma visit_Inspect_grows fuel nested n : always grows (InspectM (visit info do fuel nested) n).
Proof. apply always_InspectM; [apply _|]. intros m. apply visit_grows. Qed.

Lemma well_typed_child n c : well_typed n -> c ∈ children n -> well_typed c.
Proof. intros Hn Hc m Hm. apply Hn. unfold everywhere. rewrite elem_of_visited. right. eauto. Qed.

Lemma is_receiver_grow steps steps' tree tree' m :
  dom steps ⊆ dom steps' -> (forall call, call ∈ outside_literals tree -> call ∈ outside_literals tree') ->
  is_receiver steps tree m -> is_receiver steps' tree' m.
Proof.
  intros Hd Ht (call & Sel & r & Hin & Hc & Hr & Hs & Hsome). exists call, Sel, r. split_and!; auto.
  apply elem_of_dom. apply Hd. by apply elem_of_dom.
Qed.

Lemma outside_child n c call :
  kind_of n <> FuncLit -> c ∈ children n -> call ∈ outside_literals c -> call ∈ outside_literals n.
Proof.
  intros Hk Hc Hcall. unfold outside_literals. rewrite elem_of_visited. right. split; [by apply bool_decide_eq_false_2|].
  exists c. done.
Qed.

(** What one visit of a tree shows of the uses of [do] in it. *)
Definition settled (nested : bool) (tree : node) (steps : gmap nat (node * step)) : Prop :=
  forall m, m ∈ everywhere tree -> uses_do m -> nested = false /\ is_receiver steps tree m.

Lemma settled_children fuel nested n nodes st steps' :
  Forall (fun c => forall st steps', well_typed c ->
    InspectM (visit info do fuel nested) c st = Answer (tt, (steps', EmptyString)) -> settled nested c steps') nodes ->
  (forall c, c ∈ nodes -> c ∈ children n) -> well_typed n -> kind_of n <> FuncLit ->
  for_each (InspectM (visit info do fuel nested)) nodes st = Answer (tt, (steps', EmptyString)) ->
  forall c m, c ∈ nodes -> m ∈ everywhere c -> uses_do m -> nested = false /\ is_receiver steps' n m.
Proof.
  intros Hall. revert st. induction Hall as [|d nodes Hd _ IH]; intros st Hsub Hn Hk E c m Hc Hm Hu.
  { by apply elem_of_nil in Hc. }
  cbn [for_each] in E. apply bind_Answer in E as ([] & [s1 r1] & E1 & E).
  assert (grows (s1, r1) (steps', EmptyString)) as [Hdom Hr].
  { assert (always grows (for_each (InspectM (visit info do fuel nested)) nodes)) as Ha.
    { apply always_for_each; [apply _|]. intros. apply visit_Inspect_grows. }
    exact (Ha _ _ _ E). }
  specialize (Hr eq_refl). cbn in Hr, Hdom. subst r1.
  assert (d ∈ children n) as Hdn by (apply Hsub; left).
  apply elem_of_cons in Hc as [->|Hc].
  - destruct (Hd _ _ (well_typed_child _ _ Hn Hdn) E1 m Hm Hu) as [? Hrec]. split; [done|].
    eapply is_receiver_grow; [exact Hdom| |exact Hrec]. intros call. by apply outside_child.
  - eapply IH; [|done..]. intros. apply Hsub. by right.
Qed.

(** What the closure did at a node, where it found no reason to decline. *)
Definition visit_outcome (fuel : nat) (nested : bool) (n : node) (descend : bool)
    (steps' : gmap nat (node * step)) : Prop :=
  if descend then kind_of n <> FuncLit /\ ~ uses_do n
  else
    (kind_of n = FuncLit /\ exists body st, field fBody n = Some body
       /\ InspectM (visit info do fuel true) body st = Answer (tt, (steps', EmptyString)))
    \/ exists Sel receiver arg st, nested = false /\ do_call n Sel receiver /\ (Sel = "Await" \/ Sel = "Fail")
       /\ head (fields fArgs n) = Some arg /\ is_Some (steps' !! ptr n)
       /\ InspectM (visit info do fuel nested) arg st = Answer (tt, (steps', EmptyString)).

Lemma because_answer reason st u steps' :
  reason <> EmptyString -> because reason st = Answer (u, (steps', EmptyString)) -> False.
Proof. destruct st as [steps r]. intros Hr [= _ _ E]. done. Qed.

Lemma visit_call_outcome fuel nested n st descend steps' :
  kind_of n = CallExpr -> visit info do (S fuel) nested n st = Answer (descend, (steps', EmptyString)) ->
  visit_outcome fuel nested n descend steps'.
Proof.
  intros Hk E. cbn [visit] in E. apply bind_Answer in E as (reason & s1 & [= <- <-] & E).
  destruct (String.eqb_spec st.2 EmptyString) as [Hst|Hst]; cbn [negb] in E.
  2:{ inversion E; subst. done. }
  rewrite Hk in E.
  assert (kind_of n <> FuncLit /\ ~ uses_do n) as Hother by (rewrite Hk; split; [done|intros [[Name HN] _]; congruence]).
  destruct (callSelector n) as [[x Sel]|] eqn:Hsel; [|inversion E; subst; exact Hother].
  destruct (uses_object info (identOf x) do) eqn:Hu; cbn [negb] in E; [|inversion E; subst; exact Hother].
  destruct nested.
  { apply bind_Answer in E as (u & s2 & Eb & [= <- ->]). by apply because_answer in Eb. }
  destruct (identOf x) as [receiver|] eqn:Hx; [|done].
  destruct (String.eqb Sel "Await" || String.eqb Sel "Fail") eqn:Hs.
  2:{ apply bind_Answer in E as (u & s2 & Eb & [= <- ->]). by apply because_answer in Eb. }
  apply bind_Answer in E as (arg & s2 & Ea & E). unfold or_panic in Ea.
  destruct (head (fields fArgs n)) as [arg'|] eqn:Harg; [|done]. injection Ea as -> ->.
  apply bind_Answer in E as (u & [s3 r3] & Ead & E). apply bind_Answer in E as ([] & s4 & Ei & [= <- ->]).
  right. exists Sel, receiver, arg, (s3, r3). split; [done|]. split; [split; [done|]; by exists x|].
  split; [apply orb_true_iff in Hs as [Hs|Hs]; apply String.eqb_eq in Hs; auto|]. split; [done|]. split; [|done].
  apply elem_of_dom. destruct (visit_Inspect_grows _ _ _ _ _ _ Ei) as [Hd _]. apply Hd. cbn.
  destruct s2 as [steps0 r0]. injection Ead as _ <- _. rewrite dom_insert. set_solver.
Qed.

Lemma visit_other_outcome fuel nested n st descend steps' :
  kind_of n <> CallExpr -> visit info do (S fuel) nested n st = Answer (descend, (steps', EmptyString)) ->
  visit_outcome fuel nested n descend steps'.
Proof.
  intros Hk E. cbn [visit] in E. apply bind_Answer in E as (reason & s1 & [= <- <-] & E).
  destruct (String.eqb_spec st.2 EmptyString) as [Hst|Hst]; cbn [negb] in E.
  2:{ inversion E; subst. done. }
  destruct (kind_of n) as [Name| | | | | | | | | | | | | | | | | | | | | | | | | | | | | | | |] eqn:Hkind; try done.
  all: try (inversion E; subst; split; [by rewrite Hkind|intros [[N HN] _]; congruence]).
  - destruct (uses_object info (Some n) do) eqn:Hu.
    + apply bind_Answer in E as (u & s2 & Eb & [= <- ->]). by apply because_answer in Eb.
    + inversion E; subst. split; [by rewrite Hkind|]. intros [_ HN]. congruence.
  - apply bind_Answer in E as (body & s2 & Eb & E). unfold or_panic in Eb.
    destruct (field fBody n) as [body'|] eqn:Hb; [|done]. injection Eb as -> ->.
    apply bind_Answer in E as ([] & s3 & Ei & [= <- ->]). left. split; [done|]. by exists body, s2.
Qed.

Lemma visit_settles fuel nested n st steps' :
  well_typed n -> InspectM (visit info do fuel nested) n st = Answer (tt, (steps', EmptyString)) ->
  settled nested n steps'.
Proof.
  revert nested n st steps'. induction fuel as [|fuel IHfuel]; intros nested n.
  { intros st steps' _ E. by rewrite InspectM_unfold in E. }
  induction n as [n IH] using syntax_nested_ind. intros st steps' Hn E m Hm Hu.
  rewrite InspectM_unfold in E. apply bind_Answer in E as (descend & [s1 r1] & Ev & E).
  assert (grows (s1, r1) (steps', EmptyString)) as [Hdom Hr].
  { destruct descend; [|by inversion E].
    assert (always grows (for_each (InspectM (visit info do (S fuel) nested)) (children n))) as Ha.
    { apply always_for_each; [apply _|]. intros. apply visit_Inspect_grows. }
    exact (Ha _ _ _ E). }
  specialize (Hr eq_refl). cbn in Hr, Hdom. subst r1.
  assert (visit_outcome fuel nested n descend s1) as Hout.
  { destruct (decide (kind_of n = CallExpr)); [by eapply visit_call_outcome|by eapply visit_other_outcome]. }
  assert (n ∈ everywhere n) as Hself by (unfold everywhere; rewrite elem_of_visited; by left).
  destruct (Hn n Hself) as [Hcall Hlit]. unfold everywhere in Hm. rewrite elem_of_visited in Hm.
  destruct descend; cbn [visit_outcome] in Hout.
  - destruct Hout as [Hk Hnu]. destruct Hm as [->|(_ & c & Hc & Hm)]; [done|].
    eapply (settled_children (S fuel) nested n (children n)); [exact IH|auto|done|done|exact E|done|done|done].
  - inversion E; subst s1; clear E. destruct Hout as [(Hk & body & st' & Hb & Ei)|(Sel & receiver & arg & st' & -> & Hdo & Hs & Harg & Hsome & Ei)].
    + destruct Hm as [->|(_ & c & Hc & Hm)]; [destruct Hu as [[Name HN] _]; congruence|].
      pose proof (Hlit Hk _ _ _ Hb Hc Hm Hu) as ->.
      destruct (IHfuel true body st' _ (well_typed_child _ _ Hn ltac:(by eapply fields_children, field_fields)) Ei m Hm Hu)
        as [? _]. done.
    + split; [done|]. destruct Hm as [->|(_ & c & Hc & Hm)].
      { destruct Hu as [[Name HN] _]. destruct Hdo as [Hk _]. congruence. }
      destruct (Hcall _ _ Hdo Hs) as (arg' & Harg' & Hall). rewrite Harg in Harg'. injection Harg' as <-.
      assert (arg ∈ children n) as Hargn.
      { eapply (fields_children fArgs). destruct (fields fArgs n); [done|]. injection Harg as ->. left. }
      destruct (Hall c m Hc Hm Hu) as [Hr| ->].
      * exists n, Sel, receiver. split; [unfold outside_literals; rewrite elem_of_visited; by left|]. done.
      * destruct (IHfuel false arg st' _ (well_typed_child _ _ Hn Hargn) Ei m Hm Hu) as [_ Hrec].
        eapply is_receiver_grow; [done| |exact Hrec]. intros call. apply outside_child; [|done].
        destruct Hdo as [-> _]. done.
Qed.
End Site.

Lemma findSite_collected info call st :
  findSite info call = Answer (inl st) ->
  collectSteps info (site_literal st) (site_do st) = Answer (steps st, EmptyString).
Proof.
  unfold findSite. repeat (case_match; try done); intros [= <-]; cbn [site_literal site_do steps];
  by match goal with H : String.eqb _ _ = true |- _ => apply String.eqb_eq in H; subst end.
Qed.

(** C15. [do] is gone after the rewrite: in a body that is accepted, every use of the
    [do] parameter, however deep, is the receiver of an [Await] or a [Fail] call that is
    one of the site's steps and lies outside every nested function literal. So where
    each step has been replaced by what it awaited, nothing that mentions [do] is left,
    and no step is in a closure that runs at a time the rewrite cannot know. *)
Theorem do_is_gone info call st do body m :
  findSite info call = Answer (inl st) -> site_do st = Some do -> field fBody (site_literal st) = Some body ->
  well_typed info do body -> m ∈ everywhere body -> uses_do info do m ->
  is_receiver info do (steps st) body m.
Proof.
  intros E%findSite_collected Hdo Hb Hn Hm Hu. unfold collectSteps in E. rewrite Hdo, Hb in E.
  destruct (InspectM _ _ _) as [[[] found]| |] eqn:Ei; [|done..]. injection E as ->.
  by apply (visit_settles info do _ _ _ _ _ Hn Ei m Hm Hu).
Qed.

(** * What is declined *)

Lemma containsStep_spec st n :
  containsStep st n = true <->
  exists m, m ∈ visited (fun m => bool_decide (kind_of m = FuncLit) && negb (ptr m =? ptr (site_literal st))) n
    /\ kind_of m = CallExpr /\ is_Some (steps st !! ptr m).
Proof.
  set (g m := bool_decide (kind_of m = CallExpr) && bool_decide (is_Some (steps st !! ptr m))).
  unfold containsStep. rewrite (Inspect_first _ (fun s => s)
    (fun m => bool_decide (kind_of m = FuncLit) && negb (ptr m =? ptr (site_literal st))) g).
  2:{ intros m s. destruct s; [done|]. unfold g. destruct (kind_of m); cbn; try done. by destruct (_ =? _). }
  transitivity (exists m, m ∈ visited (fun m => bool_decide (kind_of m = FuncLit)
    && negb (ptr m =? ptr (site_literal st))) n /\ g m = true).
  2:{ unfold g. setoid_rewrite andb_true_iff. by setoid_rewrite bool_decide_eq_true. }
  generalize (visited (fun m => bool_decide (kind_of m = FuncLit) && negb (ptr m =? ptr (site_literal st))) n) as l.
  assert (forall l, foldl (fun s m => if s : bool then s else g m) true l = true) as Ht by by induction l.
  induction l as [|m l IH]; cbn [foldl].
  - split; [done|]. by intros (m & Hm%elem_of_nil & _).
  - destruct (g m) eqn:Hm.
    + rewrite Ht. split; [|done]. intros _. exists m. split; [left|done].
    + rewrite IH. setoid_rewrite elem_of_cons. naive_solver congruence.
Qed.

(** The first reason, in the order of the source. *)
Fixpoint first_reason (reasons : list string) : string :=
  match reasons with
  | [] => EmptyString
  | r :: reasons => if String.eqb r EmptyString then first_reason reasons else r
  end.

Lemma declineReason_first st body :
  declineReason st body = first_reason (map (declines st) (outside_literals body)).
Proof.
  unfold declineReason. rewrite (Inspect_first _ (fun s => negb (String.eqb s EmptyString))
    (fun m => bool_decide (kind_of m = FuncLit)) (declines st)).
  2:{ intros m s. destruct (String.eqb_spec s EmptyString) as [->|]; cbn [negb]; [|done].
      unfold declines. by destruct (kind_of m). }
  unfold outside_literals. generalize (visited (fun m => bool_decide (kind_of m = FuncLit)) body) as l.
  assert (forall l s, s <> EmptyString ->
    foldl (fun s m => if negb (String.eqb s EmptyString) then s else declines st m) s l = s) as Hs.
  { induction l as [|m l IH]; intros s Hs; cbn; [done|]. apply String.eqb_neq in Hs as Hb. rewrite Hb. by apply IH. }
  induction l as [|m l IH]; cbn [foldl map first_reason]; [done|]. cbn [String.eqb negb].
  destruct (String.eqb_spec (declines st m) EmptyString) as [->|Hm]; [done|by apply Hs].
Qed.

Lemma first_reason_nil reasons : first_reason reasons = EmptyString <-> Forall (fun r => r = EmptyString) reasons.
Proof.
  induction reasons as [|r reasons IH]; cbn; [split; [constructor|done]|].
  rewrite Forall_cons. destruct (String.eqb_spec r EmptyString); [|naive_solver]. rewrite IH. naive_solver.
Qed.

(** What the body may hold. *)
Definition translatable (st : site) (m : node) : Prop :=
  kind_of m <> DeferStmt /\ kind_of m <> LabeledStmt
  /\ (forall Tok, kind_of m = BranchStmt Tok -> Tok <> GOTO /\ Tok <> FALLTHROUGH /\ field fLabel m = None)
  /\ (kind_of m = SelectStmt \/ kind_of m = GoStmt -> containsStep st m = false)
  /\ (kind_of m = CallExpr -> endsGoroutine m = EmptyString).

Lemma declines_nil st m : declines st m = EmptyString <-> translatable st m.
Proof.
  unfold declines, translatable. destruct (kind_of m) as [| |  | | | | | | | | | | | | | | | | | | | | | | | |Tok| | | | | |] eqn:Hk.
  all: try (split; [intros _; split_and!; try done; intuition congruence|done]).
  - destruct (String.eqb_spec (endsGoroutine m) EmptyString) as [E|E]; cbn [negb].
    + split; [intros _; split_and!; try done; intuition congruence|done].
    + split; [done|]. intros (_ & _ & _ & _ & H). by rewrite H in E.
  - destruct (containsStep st m).
    + split; [done|]. intros (_ & _ & _ & H & _). specialize (H (or_introl eq_refl)). done.
    + split; [intros _; split_and!; try done; intuition congruence|done].
  - destruct (containsStep st m).
    + split; [done|]. intros (_ & _ & _ & H & _). specialize (H (or_intror eq_refl)). done.
    + split; [intros _; split_and!; try done; intuition congruence|done].
  - split; [done|]. by intros (H & _).
  - split; [done|]. by intros (_ & H & _).
  - destruct (bool_decide_reflect (Tok = GOTO)) as [->|Hg]; cbn [orb].
    { split; [done|]. intros (_ & _ & H & _). by destruct (H GOTO eq_refl). }
    destruct (bool_decide_reflect (Tok = FALLTHROUGH)) as [->|Hf]; cbn [orb].
    { split; [done|]. intros (_ & _ & H & _). by destruct (H FALLTHROUGH eq_refl) as (_ & Hf & _). }
    destruct (bool_decide_reflect (is_Some (field fLabel m))) as [Hl|Hl].
    + split; [done|]. intros (_ & _ & H & _). destruct (H Tok eq_refl) as (_ & _ & Hn). rewrite Hn in Hl. by destruct Hl.
    + rewrite <- eq_None_not_Some in Hl. split; [intros _|done]. split_and!; try done; [|intuition congruence].
      intros T [= <-]. done.
Qed.

(** A body that is accepted holds, outside nested literals, nothing the rewrite
    has no translation for: no deferred call, no label, no goto, fallthrough or labeled
    jump, no step inside a select or a go statement, no call by one of the names that
    end a goroutine. A body that is declined is declined for the first such construct
    in the source. *)
Theorem accepted_bodies_are_translatable st body :
  declineReason st body = first_reason (map (declines st) (outside_literals body))
  /\ (declineReason st body = EmptyString <-> forall m, m ∈ outside_literals body -> translatable st m).
Proof.
  split; [apply declineReason_first|]. rewrite declineReason_first, first_reason_nil, Forall_map, Forall_forall.
  apply forall_proper. intros m. apply forall_proper. intros _. apply declines_nil.
Qed.
