(* ===== verification/RewriteEmitter.v ===== *)
(** The emitter's fields, what changes while it writes a body
    ([tools/effectgo/rewrite/emit.go]), and the order a statement's own steps are
    awaited in ([order.go]), which is the order Go evaluates them in: nothing a step
    may observe is moved after it. *)

From stdpp Require Import sorting.
From S2P Require Import Prelude GoStrings GoSyntax RewriteText RewriteNames RewriteSite.
From Stdlib Require Import Sorted.

(** What stays while a body is written. [em_eff] is the body's effect type. *)
Record emitter : Type := MkEmitter {
  em_src : source;
  em_info : Info;
  em_site : site;
  em_replacements : gmap nat string;
  em_effect : string;
  em_r : string;
  em_e : string;
  em_a : string;
  em_eff : string
}.

(** What changes: the names handed out, the steps emitted, the first failure, the
    statements split from their init, and how many nodes were allocated. *)
Record emission : Type := MkEmission {
  em_types : typeNames;
  emitted : gset nat;
  failure : string;
  detached : gset nat;
  allocated : nat
}.

Definition decline (reason : string) : M emission unit :=
  modify (fun s =>
    if String.eqb (failure s) EmptyString
    then MkEmission (em_types s) (emitted s) reason (detached s) (allocated s) else s).

Definition failed : M emission bool := gets (fun s => negb (String.eqb (failure s) EmptyString)).

Definition emits (call : node) : M emission unit :=
  modify (fun s => MkEmission (em_types s) ({[ptr call]} ∪ emitted s) (failure s) (detached s) (allocated s)).

Definition with_types {A} (m : M typeNames A) : M emission A := fun s =>
  match m (em_types s) with
  | Answer (a, tn) => Answer (a, MkEmission tn (emitted s) (failure s) (detached s) (allocated s))
  | Panics => Panics
  | Exhausted => Exhausted
  end.

Definition em_fresh (prefix : string) : M emission string := with_types (fresh_name prefix).
Definition em_type_text (em : emitter) (t : gotype) : M emission (option string) :=
  with_types (type_text (em_info em) t).

(** What an unlabeled break and continue become; empty where they stay as written. *)
Record jumpTargets : Type := MkJumps { brk : string; cont : string }.

#[export] Instance jumpTargets_eq_dec : EqDecision jumpTargets.
Proof. solve_decision. Defined.

Definition no_jumps : jumpTargets := MkJumps EmptyString EmptyString.

(** * Order ([order.go]) *)

(** A call that has no effect a step could observe. *)
Definition pure (em : emitter) (call : node) : bool :=
  match field fFun call with
  | None => false
  | Some fun_ =>
      if IsType (em_info em) (ptr fun_) then true
      else match uses (em_info em) (identOf fun_) with
      | Some builtin =>
          bool_decide (object_kind_of builtin = BuiltinObject)
          && bool_decide (symbol_Name (object_symbol builtin)
               ∈ ["len"; "cap"; "make"; "new"; "complex"; "real"; "imag"; "min"; "max"])
      | None => false
      end
  end.

(** A statement's own expressions, as the switch collects them; [None] for a
    statement that is not translated. *)
Definition own_expressions (stmt : node) : option (list node) :=
  match kind_of stmt with
  | ExprStmt | IncDecStmt => Some (fields fX stmt)
  | AssignStmt _ => Some (fields fLhs stmt ++ fields fRhs stmt)
  | DeclStmt => Some [stmt]
  | ReturnStmt => Some (fields fResults stmt)
  | SendStmt => Some (fields fChan stmt ++ fields fValue stmt)
  | IfStmt => Some (fields fCond stmt ++ fields fInit stmt)
  | SwitchStmt => Some (fields fTag stmt ++ fields fInit stmt)
  | TypeSwitchStmt => Some (fields fAssign stmt ++ fields fInit stmt)
  | BlockStmt => Some []
  | _ => None
  end.

(** [steps] and [effectful], which the inspecting closure appends to. *)
Definition own_found : Type := list node * list node.

Definition own_visit (em : emitter) (n : node) : M (emission * own_found) bool :=
  match kind_of n with
  | FuncLit => mret false
  | BinaryExpr Op =>
      (if (bool_decide (Op = LAND) || bool_decide (Op = LOR))
          && existsb (containsStep (em_site em)) (fields fY n)
       then outer (decline ("a step is on the right of " ++ token_String Op)) else mret tt);;
      mret true
  | UnaryExpr Op =>
      (if bool_decide (Op = ARROW) then local (fun '(steps, effectful) => (steps, effectful ++ [n])) else mret tt);;
      mret true
  | CallExpr =>
      (if bool_decide (is_Some (steps (em_site em) !! ptr n))
       then local (fun '(steps, effectful) => (steps ++ [n], effectful))
       else if negb (pure em n) then local (fun '(steps, effectful) => (steps, effectful ++ [n]))
       else mret tt);;
      mret true
  | _ => mret true
  end.

Definition within (n : node) (earlier : list node) : bool :=
  existsb (fun call => (node_Pos call <=? node_Pos n) && (node_End n <=? node_End call)) earlier.

(** Whether [other] is evaluated before [call], which would be awaited ahead of it. *)
Definition overtaken (call other : node) (earlier : list node) : bool :=
  let encloses := (node_Pos other <=? node_Pos call) && (node_End call <=? node_End other) in
  (node_Pos other <? node_Pos call) && negb encloses && negb (within other earlier).

Definition ownSteps (em : emitter) (stmt : node) : M emission (list node) :=
  match own_expressions stmt with
  | None =>
      decline "a step is in a statement this rewrite does not translate";;
      mret []
  | Some exprs =>
      '(_, (found, effectful)) ← with_local ([], []) (for_each (InspectM (own_visit em)) exprs);
      let steps := sort_by node_End found in
      for_each (fun '(at_, call) =>
        for_each (fun other =>
          if overtaken call other (take at_ steps)
          then decline "a call is evaluated before a step in the same statement" else mret tt) effectful)
        (imap pair steps);;
      mret steps
  end.

(** Whether an unlabeled break in a body leaves the loop around it. *)
Definition breaks (body : node) : bool :=
  Inspect (fun n found =>
    match kind_of n with
    | FuncLit | ForStmt | RangeStmt _ | SwitchStmt | TypeSwitchStmt | SelectStmt => (false, found)
    | BranchStmt Tok => let found := found || bool_decide (Tok = BREAK) in (negb found, found)
    | _ => (negb found, found)
    end) body false.

(** Whether a statement ends the list it is in. A statement nests no deeper than it
    has nodes, which is what the fuel counts. *)
Fixpoint terminates_fuel (em : emitter) (jumps : jumpTargets) (fuel : nat) (stmt : node) : bool :=
  match fuel with
  | O => false
  | S fuel =>
      match kind_of stmt with
      | ReturnStmt => true
      | BranchStmt Tok =>
          bool_decide (Tok = BREAK) && negb (String.eqb (brk jumps) EmptyString)
          || bool_decide (Tok = CONTINUE) && negb (String.eqb (cont jumps) EmptyString)
      | ExprStmt =>
          match Unparen <$> field fX stmt with
          | Some call =>
              match kind_of call with
              | CallExpr =>
                  match step_of (em_site em) call with
                  | Some step => fail step
                  | None =>
                      match uses (em_info em) (field fFun call ≫= identOf) with
                      | Some builtin =>
                          bool_decide (object_kind_of builtin = BuiltinObject)
                          && String.eqb (symbol_Name (object_symbol builtin)) "panic"
                      | None => false
                      end
                  end
              | _ => false
              end
          | None => false
          end
      | BlockStmt =>
          match last (fields fList stmt) with
          | Some stmt => terminates_fuel em jumps fuel stmt
          | None => false
          end
      | IfStmt =>
          match field fElse stmt, field fBody stmt with
          | Some else_, Some body =>
              match last (fields fList body) with
              | Some stmt => terminates_fuel em jumps fuel stmt && terminates_fuel em jumps fuel else_
              | None => false
              end
          | _, _ => false
          end
      | ForStmt =>
          negb (bool_decide (is_Some (field fCond stmt)))
          && match field fBody stmt with Some body => negb (breaks body) | None => false end
      | _ => false
      end
  end.

Definition terminates (em : emitter) (stmt : node) (jumps : jumpTargets) : bool :=
  terminates_fuel em jumps (node_size stmt) stmt.

Section Order.
Context (em : emitter).

Definition is_step (n : node) : bool :=
  bool_decide (kind_of n = CallExpr) && bool_decide (is_Some (steps (em_site em) !! ptr n)).

(** What a step could observe: a call that is no step and not pure, or a receive. *)
Definition is_effectful (n : node) : bool :=
  match kind_of n with
  | CallExpr => negb (is_step n) && negb (pure em n)
  | UnaryExpr Op => bool_decide (Op = ARROW)
  | _ => false
  end.

(** The nodes of an expression outside function literals, in the order they are
    evaluated: operands, left to right, before what they are operands of. *)
Fixpoint evaluated (n : node) : list node :=
  match n with
  | MkNode _ k _ _ fs =>
      (if bool_decide (k = FuncLit) then []
       else (fix go (l : list (field_name * node)) : list node :=
               match l with [] => [] | (_, c) :: l => evaluated c ++ go l end) fs) ++ [n]
  end.

Definition in_order (nodes : list node) : list node := concat (map evaluated nodes).

Lemma evaluated_unfold n :
  evaluated n = (if bool_decide (kind_of n = FuncLit) then [] else in_order (children n)) ++ [n].
Proof.
  destruct n as [p k b e fs]. cbn [evaluated kind_of]. unfold children; cbn [fields_of]. f_equal.
  destruct (bool_decide _); [done|]. unfold in_order. induction fs as [|[g c] fs IH]; cbn; [done|]. by rewrite IH.
Qed.

Lemma in_order_cons n nodes : in_order (n :: nodes) = evaluated n ++ in_order nodes.
Proof. done. Qed.

(** Visiting comes by the same nodes, a call before its operands. *)
Definition in_source (n : node) : list node := visited (fun n => bool_decide (kind_of n = FuncLit)) n.

Lemma in_source_evaluated n : in_source n ≡ₚ evaluated n.
Proof.
  unfold in_source. induction n as [n IH] using syntax_nested_ind. rewrite visited_unfold, evaluated_unfold.
  rewrite <- Permutation_cons_append. constructor. destruct (bool_decide _); [done|].
  unfold in_order. induction IH as [|c cs Hc _ IHcs]; cbn; [done|]. by rewrite Hc, IHcs.
Qed.

Lemma visited_everywhere prune n m : m ∈ visited prune n -> m ∈ visited (fun _ => false) n.
Proof.
  induction n as [n IH] using syntax_nested_ind. rewrite !elem_of_visited. rewrite Forall_forall in IH.
  intros [->|(_ & c & Hc & Hm)]; [by left|]. right. split; [done|]. exists c. split; [done|]. by apply IH.
Qed.

Lemma evaluated_everywhere n m : m ∈ evaluated n -> m ∈ visited (fun _ => false) n.
Proof. rewrite <- in_source_evaluated. apply visited_everywhere. Qed.

Lemma elem_of_in_order nodes m : m ∈ in_order nodes <-> exists n, n ∈ nodes /\ m ∈ evaluated n.
Proof.
  unfold in_order. rewrite list_elem_of_In, in_concat. split.
  - intros (l & (n & <- & Hn)%in_map_iff & Hm). exists n. by rewrite !list_elem_of_In.
  - intros (n & Hn & Hm). exists (evaluated n). split; [|by apply list_elem_of_In].
    apply in_map_iff. exists n. split; [done|]. by apply list_elem_of_In.
Qed.

(** * What is collected *)

Definition found_app (f g : own_found) : own_found := (f.1 ++ g.1, f.2 ++ g.2).
Definition picked (nodes : list node) : own_found := (filter (fun n => is_step n = true) nodes, filter (fun n => is_effectful n = true) nodes).

(** A step on the right of a node that may never evaluate it. *)
Definition skips (n : node) : bool :=
  match kind_of n with
  | BinaryExpr Op => (bool_decide (Op = LAND) || bool_decide (Op = LOR)) && existsb (containsStep (em_site em)) (fields fY n)
  | _ => false
  end.

Definition declined_if (P : Prop) (s s' : emission) : Prop :=
  failure s' = EmptyString <-> failure s = EmptyString /\ ~ P.

Lemma declined_if_not (P : Prop) s : ~ P -> declined_if P s s.
Proof. unfold declined_if. naive_solver. Qed.

Lemma decline_if (b : bool) reason s :
  reason <> EmptyString ->
  exists s', (if b then decline reason else mret tt) s = Answer (tt, s') /\ declined_if (b = true) s s'.
Proof.
  intros Hr. destruct b; [|by exists s; split; [|apply declined_if_not]].
  eexists. split; [done|]. unfold declined_if.
  destruct (String.eqb_spec (failure s) EmptyString); cbn; naive_solver.
Qed.

Lemma own_visit_answer n s f :
  exists s', own_visit em n (s, f)
    = Answer (negb (bool_decide (kind_of n = FuncLit)), (s', found_app f (picked [n])))
    /\ declined_if (skips n = true) s s'.
Proof.
  unfold own_visit, picked, found_app, is_step, is_effectful, skips. rewrite !filter_cons, !filter_nil.
  destruct f as [found effectful].
  destruct (kind_of n) eqn:Hk; cbn [fst snd];
    try (exists s; split; [cbn; by rewrite !app_nil_r|by apply declined_if_not]).
  - exists s. split; [|by apply declined_if_not]. unfold mbind, M_bind.
    destruct (bool_decide (is_Some (steps (em_site em) !! ptr n))) eqn:Hs; cbn;
      unfold is_step; rewrite Hk, Hs; cbn; [by rewrite !app_nil_r|].
    destruct (pure em n); cbn; by rewrite ?app_nil_r.
  - destruct (decline_if ((bool_decide (Op = LAND) || bool_decide (Op = LOR))
      && existsb (containsStep (em_site em)) (fields fY n)) ("a step is on the right of " ++ token_String Op) s)
      as (s1 & E & Hd); [done|].
    exists s1. split; [|exact Hd]. unfold mbind, M_bind. destruct (_ && _); cbn in *; injection E as <-; by rewrite !app_nil_r.
  - exists s. split; [|by apply declined_if_not].
    destruct (bool_decide (Op = ARROW)); cbn; unfold mbind, M_bind; cbn; by rewrite ?app_nil_r.
Qed.

Lemma picked_app l l' : picked (l ++ l') = found_app (picked l) (picked l').
Proof. unfold picked, found_app. by rewrite !filter_app. Qed.

Lemma found_app_assoc f g h : found_app (found_app f g) h = found_app f (found_app g h).
Proof. unfold found_app; cbn. by rewrite !app_assoc. Qed.

Lemma found_app_nil f : found_app f (picked []) = f.
Proof. unfold found_app, picked; cbn. rewrite !app_nil_r. by destruct f. Qed.

Lemma declined_if_trans (P Q R : Prop) s s' s'' :
  declined_if P s s' -> declined_if Q s' s'' -> (R <-> P \/ Q) -> declined_if R s s''.
Proof. unfold declined_if. naive_solver. Qed.

Definition skips_any (nodes : list node) : Prop := exists n, n ∈ nodes /\ skips n = true.

Lemma skips_any_app l l' : skips_any (l ++ l') <-> skips_any l \/ skips_any l'.
Proof. unfold skips_any. setoid_rewrite elem_of_app. naive_solver. Qed.

#[export] Instance skips_any_proper : Proper ((≡ₚ) ==> iff) skips_any.
Proof. intros l l' Hl. unfold skips_any. by setoid_rewrite Hl. Qed.

Lemma skips_any_one n : skips_any [n] <-> skips n = true.
Proof. unfold skips_any. setoid_rewrite list_elem_of_singleton. naive_solver. Qed.

(** A visit that picks the nodes of a list and declines where one of them skips a step. *)
Definition picks {B} (m : M (emission * own_found) B) (answer_ : B) (nodes : list node) : Prop :=
  forall s f, exists s', m (s, f) = Answer (answer_, (s', found_app f (picked nodes)))
    /\ declined_if (skips_any nodes) s s'.

Lemma picks_bind {B C} (m : M (emission * own_found) B) (k : B -> M (emission * own_found) C) b c l l' :
  picks m b l -> picks (k b) c l' -> picks (m ≫= k) c (l ++ l').
Proof.
  intros Hm Hk s f. destruct (Hm s f) as (s1 & E1 & H1). destruct (Hk s1 (found_app f (picked l))) as (s2 & E2 & H2).
  exists s2. split; [|by eapply declined_if_trans; [done..|apply skips_any_app]].
  apply bind_Answer. eexists _, _. split; [done|]. by rewrite E2, picked_app, found_app_assoc.
Qed.

Lemma picks_ret {B} (b : B) : picks (mret b) b [].
Proof.
  intros s f. exists s. rewrite found_app_nil. split; [done|]. apply declined_if_not. by intros (? & ?%elem_of_nil & _).
Qed.

Lemma picks_visit n : picks (own_visit em n) (negb (bool_decide (kind_of n = FuncLit))) [n].
Proof.
  intros s f. destruct (own_visit_answer n s f) as (s' & E & H). exists s'. split; [done|].
  unfold declined_if in *. by rewrite skips_any_one.
Qed.

Lemma picks_for_each nodes :
  Forall (fun n => picks (InspectM (own_visit em) n) tt (in_source n)) nodes ->
  picks (for_each (InspectM (own_visit em)) nodes) tt (concat (map in_source nodes)).
Proof.
  induction 1 as [|n nodes Hn _ IH]; cbn [for_each map concat]; [apply picks_ret|].
  eapply picks_bind; [exact Hn|exact IH].
Qed.

Lemma picks_Inspect n : picks (InspectM (own_visit em) n) tt (in_source n).
Proof.
  induction n as [n IH] using syntax_nested_ind. unfold in_source. rewrite visited_unfold.
  change (n :: ?l) with ([n] ++ l). intros s f. rewrite InspectM_unfold. revert s f.
  apply (picks_bind _ _ _ _ _ _ (picks_visit n)).
  destruct (bool_decide (kind_of n = FuncLit)); cbn [negb]; [apply picks_ret|by apply picks_for_each].
Qed.

(** * Where evaluation order ends *)

(** A call ends after all it is made of, with a parenthesis. *)
Definition closed_calls (nodes : list node) : Prop :=
  forall n m, n ∈ nodes -> m ∈ visited (fun _ => false) n -> kind_of m = CallExpr ->
  node_Pos m < node_End m /\ forall c, c ∈ children m -> node_End c < node_End m.

Lemma closed_calls_children n : closed_calls [n] -> closed_calls (children n).
Proof.
  intros H c m Hc Hm. apply (H n); [left|]. rewrite elem_of_visited. right. eauto.
Qed.

Lemma closed_calls_cons n nodes : closed_calls (n :: nodes) <-> closed_calls [n] /\ closed_calls nodes.
Proof.
  unfold closed_calls. split.
  - intros H. split; intros m m' Hm; apply H; [apply list_elem_of_singleton in Hm as ->; left|by right].
  - intros [H H'] m m' [->|Hm]%elem_of_cons; [apply H; left|by apply H'].
Qed.

(** What follows in a list: later nodes end no earlier, and later calls end later. *)
Definition later (m m' : node) : Prop :=
  node_End m <= node_End m' /\ (kind_of m' = CallExpr -> node_End m < node_End m').

Definition between (a b : Pos) (l : list node) : Prop :=
  Forall (fun m => a <= node_Pos m /\ node_Pos m <= node_End m /\ node_End m <= b) l.

Lemma in_order_bounds a nodes b :
  follow a nodes b -> Forall tidy nodes ->
  Forall (fun n => tidy n -> between (node_Pos n) (node_End n) (evaluated n)) nodes ->
  between a b (in_order nodes).
Proof.
  revert a. induction nodes as [|n nodes IH]; intros a Hf Ht Hn; [constructor|].
  destruct Hf as (H1 & H2 & H3). apply Forall_cons in Ht as [Htn Ht]. apply Forall_cons in Hn as [Hn Hns].
  rewrite in_order_cons. apply Forall_app. split.
  - assert (node_End n <= b) as Hb.
    { clear - H3. revert H3. generalize (node_End n). induction nodes as [|d nodes IH]; intros e; cbn; [done|].
      intros (H1 & H2 & H3%IH). unfold Pos in *. lia. }
    eapply Forall_impl; [by apply Hn|]. intros m; cbn. unfold Pos in *. lia.
  - eapply Forall_impl; [by apply (IH (node_End n))|]. intros m; cbn. unfold Pos in *. lia.
Qed.

Lemma evaluated_bounds n : tidy n -> between (node_Pos n) (node_End n) (evaluated n).
Proof.
  induction n as [n IH] using syntax_nested_ind. intros Hn. inversion Hn as [? Hle Hf _ Ht]; subst.
  rewrite evaluated_unfold. apply Forall_app. split; [|by repeat constructor].
  destruct (bool_decide _); [constructor|]. by apply in_order_bounds.
Qed.

Lemma in_order_between a nodes b : follow a nodes b -> Forall tidy nodes -> between a b (in_order nodes).
Proof.
  intros Hf Ht. apply in_order_bounds; [done..|]. apply Forall_forall. intros. by apply evaluated_bounds.
Qed.

Lemma follow_le a nodes b : follow a nodes b -> a <= b.
Proof. revert a. induction nodes as [|n nodes IH]; intros a; cbn; [done|]. intros (H1 & H2 & H3%IH). unfold Pos in *. lia. Qed.

Lemma in_order_later a nodes b :
  follow a nodes b -> Forall tidy nodes -> closed_calls nodes ->
  Forall (fun n => tidy n -> closed_calls [n] -> StronglySorted later (evaluated n)) nodes ->
  StronglySorted later (in_order nodes).
Proof.
  revert a. induction nodes as [|n nodes IH]; intros a Hf Ht Hc Hn; [constructor|].
  destruct Hf as (H1 & H2 & H3). apply Forall_cons in Ht as [Htn Ht]. apply Forall_cons in Hn as [Hn Hns].
  pose proof Hc as [Hcn Hcs]%closed_calls_cons.
  rewrite in_order_cons. apply StronglySorted_app. split_and!; [|by apply Hn|by eapply IH].
  intros m m' Hm Hm'. pose proof (evaluated_bounds n Htn) as Hb. pose proof (in_order_between _ _ _ H3 Ht) as Hb'.
  unfold between in *. rewrite Forall_forall in Hb, Hb'. specialize (Hb _ Hm). specialize (Hb' _ Hm'). cbn in *.
  split; [unfold Pos in *; lia|]. intros Hk.
  apply elem_of_in_order in Hm' as (d & Hd & Hm').
  destruct (Hcs d m' Hd (evaluated_everywhere _ _ Hm') Hk) as [Hlt _]. unfold Pos in *. lia.
Qed.

Lemma evaluated_later n : tidy n -> closed_calls [n] -> StronglySorted later (evaluated n).
Proof.
  induction n as [n IH] using syntax_nested_ind. intros Hn Hc. inversion Hn as [? Hle Hf _ Ht]; subst.
  rewrite evaluated_unfold. apply StronglySorted_app. split_and!.
  - intros m m' Hm ->%list_elem_of_singleton.
    destruct (bool_decide _); [by apply elem_of_nil in Hm|].
    pose proof (in_order_between _ _ _ Hf Ht) as Hb. unfold between in Hb. rewrite Forall_forall in Hb.
    specialize (Hb _ Hm). split; [cbn in Hb; lia|]. intros Hk.
    apply elem_of_in_order in Hm as (c & Hcn & Hm).
    destruct (Hc n n ltac:(left) ltac:(rewrite elem_of_visited; by left) Hk) as [_ Hclose].
    specialize (Hclose _ Hcn). rewrite Forall_forall in Ht. pose proof (evaluated_bounds c (Ht _ Hcn)) as Hb'.
    unfold between in Hb'. rewrite Forall_forall in Hb'. specialize (Hb' _ Hm). cbn in *. unfold Pos in *. lia.
  - destruct (bool_decide _); [constructor|]. eapply in_order_later; [done|done| |done]. by apply closed_calls_children.
  - repeat constructor.
Qed.

Lemma in_order_sorted a nodes b :
  follow a nodes b -> Forall tidy nodes -> closed_calls nodes -> StronglySorted later (in_order nodes).
Proof.
  intros Hf Ht Hc. eapply in_order_later; [done..|]. apply Forall_forall. intros. by apply evaluated_later.
Qed.

(** * What declines *)

Lemma for_each_declines {A} (f : A -> M emission unit) (P : A -> Prop) l :
  (forall x s, exists s', f x s = Answer (tt, s') /\ declined_if (P x) s s') ->
  forall s, exists s', for_each f l s = Answer (tt, s') /\ declined_if (exists x, x ∈ l /\ P x) s s'.
Proof.
  intros Hf. induction l as [|x l IH]; intros s; cbn [for_each].
  - exists s. split; [done|]. apply declined_if_not. by intros (? & ?%elem_of_nil & _).
  - destruct (Hf x s) as (s1 & E1 & H1). destruct (IH s1) as (s2 & E2 & H2). exists s2. split.
    + apply bind_Answer. by exists tt, s1.
    + eapply declined_if_trans; [done..|]. setoid_rewrite elem_of_cons. naive_solver.
Qed.

(** A call or a receive that hoisting a step would move after it. *)
Definition overtakes (found visited_ : list node) : Prop :=
  exists i call other, found !! i = Some call /\ other ∈ visited_ /\ is_effectful other = true
    /\ overtaken call other (take i found) = true.

#[export] Instance overtakes_proper found : Proper ((≡ₚ) ==> iff) (overtakes found).
Proof. intros l l' Hl. unfold overtakes. by setoid_rewrite Hl. Qed.

Lemma ownSteps_answer stmt es s :
  own_expressions stmt = Some es ->
  let visited_ := concat (map in_source es) in
  let found := sort_by node_End (filter (fun n => is_step n = true) visited_) in
  exists s', ownSteps em stmt s = Answer (found, s')
    /\ declined_if (skips_any visited_ \/ overtakes found visited_) s s'.
Proof.
  intros Hes visited_ found. unfold ownSteps. rewrite Hes.
  destruct (picks_for_each es) with (s := s) (f := ([] : list node, [] : list node)) as (s1 & E1 & H1).
  { apply Forall_forall. intros n _. apply picks_Inspect. }
  fold visited_ in E1, H1. unfold found_app in E1. cbn [fst snd app picked] in E1.
  set (others := filter (fun n => is_effectful n = true) visited_) in *.
  destruct (for_each_declines (fun '(at_, call) =>
    for_each (fun other =>
      if overtaken call other (take at_ found)
      then decline "a call is evaluated before a step in the same statement" else mret tt) others)
    (fun '(at_, call) => exists other, other ∈ others /\ overtaken call other (take at_ found) = true)
    (imap pair found)) with (s := s1) as (s2 & E2 & H2).
  { intros [at_ call] s'. apply for_each_declines. intros other s''. by apply decline_if. }
  exists s2. split.
  - apply bind_Answer. eexists (tt, (_, _)), s1. split; [|apply bind_Answer; by exists tt, s2].
    unfold with_local. match goal with |- match ?m with _ => _ end = _ => replace m with
      (Answer (tt, (s1, (filter (fun n => is_step n = true) visited_, others)))) by (symmetry; exact E1) end. done.
  - eapply declined_if_trans; [exact H1|exact H2|]. apply or_iff_compat_l. unfold overtakes. split.
    + intros (i & call & other & Hi & Hin & He & Ho). exists (i, call). split.
      * apply list_elem_of_lookup. exists i. by rewrite list_lookup_imap, Hi.
      * exists other. unfold others. by rewrite list_elem_of_filter.
    + intros ([i call] & (j & Hj)%list_elem_of_lookup & other & (He & Hin)%list_elem_of_filter & Ho).
      rewrite list_lookup_imap in Hj. destruct (found !! j) eqn:E; [|done]. injection Hj as <- <-. by exists j, n, other.
Qed.

Lemma in_source_in_order es nodes : es ≡ₚ nodes -> concat (map in_source es) ≡ₚ in_order nodes.
Proof.
  intros Hp. rewrite <- flat_map_concat_map, Hp, flat_map_concat_map. clear. unfold in_order.
  induction nodes as [|n nodes IH]; cbn; [done|]. by rewrite in_source_evaluated, IH.
Qed.

Lemma ends_NoDup l :
  StronglySorted later l -> Forall (fun n => is_step n = true) l -> NoDup (map node_End l).
Proof.
  induction 1 as [|n l Hl IH Hn]; intros Hs; [constructor|]. apply Forall_cons in Hs as [Hsn Hs]. cbn.
  constructor; [|by apply IH]. intros (m & Hm & Hin)%list_elem_of_fmap.
  rewrite Forall_forall in Hn, Hs. destruct (Hn _ Hin) as [_ Hlt]. specialize (Hs _ Hin).
  unfold is_step in Hs. apply andb_true_iff in Hs as [Hk%bool_decide_eq_true _]. specialize (Hlt Hk).
  unfold Pos in *. lia.
Qed.

Lemma StronglySorted_filter_later (P : node -> Prop) `{forall n, Decision (P n)} l :
  StronglySorted later l -> StronglySorted later (filter P l).
Proof.
  induction 1 as [|n l Hl IH Hn]; [constructor|]. rewrite filter_cons. destruct (decide (P n)); [|done].
  constructor; [done|]. rewrite Forall_forall in *. intros m [_ Hm]%list_elem_of_filter. by apply Hn.
Qed.

Lemma sorted_steps nodes :
  StronglySorted later nodes ->
  sort_by node_End (filter (fun n => is_step n = true) nodes) = filter (fun n => is_step n = true) nodes
  /\ NoDup (map node_End (filter (fun n => is_step n = true) nodes)).
Proof.
  intros Hs. apply (StronglySorted_filter_later (fun n => is_step n = true)) in Hs. split.
  - apply sort_by_id. revert Hs. generalize (filter (fun n => is_step n = true) nodes) as l.
    induction 1 as [|n l Hl IH Hn]; constructor; [done|].
    eapply Forall_impl; [exact Hn|]. by intros m [? _].
  - apply ends_NoDup; [done|]. apply Forall_forall. by intros n [? _]%list_elem_of_filter.
Qed.

Definition inside (n m : node) : Prop := node_Pos m <= node_Pos n /\ node_End n <= node_End m.

(** ** What hoisting must not change *)

(** A call that only computes: a conversion, or a builtin that reads its arguments. *)
Inductive computes (call : node) : Prop :=
| computes_conversion type_ :
    field fFun call = Some type_ -> IsType (em_info em) (ptr type_) = true -> computes call
| computes_builtin ident object :
    field fFun call ≫= identOf = Some ident -> Uses (em_info em) (ptr ident) = Some object ->
    object_kind_of object = BuiltinObject ->
    symbol_Name (object_symbol object) ∈ ["len"; "cap"; "make"; "new"; "complex"; "real"; "imag"; "min"; "max"] ->
    computes call.

(** What a step may observe, or stop: a receive, a call of anything but a type and Go's
    builtins, and the builtins that write to what they are given, print or panic. *)
Inductive observable (n : node) : Prop :=
| observable_receive : kind_of n = UnaryExpr ARROW -> observable n
| observable_call fun_ :
    kind_of n = CallExpr -> is_step n = false -> field fFun n = Some fun_ ->
    IsType (em_info em) (ptr fun_) = false ->
    (forall ident object, identOf fun_ = Some ident -> Uses (em_info em) (ptr ident) = Some object ->
       object_kind_of object = BuiltinObject ->
       symbol_Name (object_symbol object)
         ∈ ["append"; "clear"; "close"; "copy"; "delete"; "panic"; "print"; "println"; "recover"]) ->
    observable n.

Lemma observable_effectful n : observable n -> is_effectful n = true.
Proof.
  intros [Hk|fun_ Hk Hs Hfun Ht Hb]; unfold is_effectful; rewrite Hk; [done|]. rewrite Hs. cbn [negb andb].
  unfold pure. rewrite Hfun, Ht. unfold uses. destruct (identOf fun_) as [ident|]; [cbn|done].
  destruct (Uses (em_info em) (ptr ident)) as [object|] eqn:Ho; [|done].
  destruct (bool_decide_reflect (object_kind_of object = BuiltinObject)) as [Hob|]; [|done].
  specialize (Hb ident object eq_refl Ho Hob). rewrite !elem_of_cons, elem_of_nil in Hb.
  by destruct Hb as [->|[->|[->|[->|[->|[->|[->|[->|[->|[]]]]]]]]]].
Qed.

Lemma computes_pure call : computes call -> pure em call = true.
Proof.
  unfold pure. intros [type_ Hf Ht|ident object Hf Ho Hk Hn].
  - by rewrite Hf, Ht.
  - destruct (field fFun call) as [fun_|]; [|done]. cbn in Hf. destruct (IsType _ _); [done|].
    unfold uses. rewrite Hf. cbn. rewrite Ho. by rewrite !bool_decide_eq_true_2.
Qed.

(** What is evaluated before a step is part of it or of a step before it. *)
Definition overtakes_nothing (order : list node) : Prop :=
  forall before other others call after,
    order = before ++ other :: others ++ call :: after ->
    observable other -> is_step call = true ->
    inside other call
    \/ exists step, step ∈ before ++ other :: others /\ is_step step = true /\ inside other step.

(** No step is on the right of a conjunction or a disjunction, which may not evaluate it. *)
Definition always_evaluated (order : list node) : Prop :=
  forall n right step, n ∈ order -> kind_of n = BinaryExpr LAND \/ kind_of n = BinaryExpr LOR ->
    right ∈ fields fY n -> step ∈ evaluated right -> is_step step = false.

(** Nothing but steps and calls that only compute. *)
Definition only_steps (order : list node) : Prop :=
  forall n, n ∈ order -> kind_of n <> UnaryExpr ARROW
    /\ (kind_of n = CallExpr -> is_step n = true \/ computes n)
    /\ (kind_of n = BinaryExpr LAND \/ kind_of n = BinaryExpr LOR ->
        forall right, right ∈ fields fY n -> containsStep (em_site em) right = false).

Lemma in_source_contains right step :
  step ∈ in_source right -> is_step step = true -> containsStep (em_site em) right = true.
Proof.
  intros Hin [Hk%bool_decide_eq_true Hs%bool_decide_eq_true]%andb_true_iff. apply containsStep_spec.
  exists step. split; [|done]. revert Hin. unfold in_source. clear. induction right as [n IH] using syntax_nested_ind.
  rewrite Forall_forall in IH. rewrite !elem_of_visited. intros [->|(Hp & c & Hc & Hm)]; [by left|right].
  rewrite Hp. split; [done|]. exists c. split; [done|]. by apply IH.
Qed.

Lemma skips_nothing_evaluated order : ~ skips_any order -> always_evaluated order.
Proof.
  intros Hno n right step Hn Hk Hr Hstep. rewrite <- in_source_evaluated in Hstep.
  destruct (is_step step) eqn:Hs; [|done]. destruct Hno. exists n. split; [done|]. unfold skips.
  assert (existsb (containsStep (em_site em)) (fields fY n) = true) as ->.
  { apply existsb_exists. exists right. rewrite <- list_elem_of_In. split; [done|]. by eapply in_source_contains. }
  by destruct Hk as [-> | ->].
Qed.

Lemma only_steps_skip_nothing order : only_steps order -> ~ skips_any order.
Proof.
  intros Ho (n & Hn & Hs). destruct (Ho n Hn) as (_ & _ & Hb). unfold skips in Hs.
  destruct (kind_of n); try done. apply andb_true_iff in Hs as [Hk (right & Hr%list_elem_of_In & Hc)%existsb_exists].
  rewrite orb_true_iff, !bool_decide_eq_true in Hk. rewrite Hb in Hc; [done|naive_solver|done].
Qed.

Lemma only_steps_overtake_nothing found order visited_ :
  only_steps order -> visited_ ≡ₚ order -> ~ overtakes found visited_.
Proof.
  intros Ho Hp (i & call & other & _ & Hin & He & _). rewrite Hp in Hin.
  destruct (Ho other Hin) as (Hr & Hc & _). unfold is_effectful in He. destruct (kind_of other) eqn:Hk; try done.
  - destruct (Hc eq_refl) as [Hs|Hs%computes_pure]; rewrite Hs in He; [done|]. by rewrite andb_false_r in He.
  - apply bool_decide_eq_true in He. by subst.
Qed.

Lemma StronglySorted_before {A} (R : A -> A -> Prop) l l' x y :
  StronglySorted R (l ++ y :: l') -> x ∈ l -> R x y.
Proof. intros (H & _ & _)%StronglySorted_app Hx. apply H; [done|left]. Qed.

Lemma overtakes_nothing_evaluated order :
  StronglySorted later order -> ~ overtakes (filter (fun n => is_step n = true) order) order -> overtakes_nothing order.
Proof.
  intros Hsorted Hno before other others call after -> Heff%observable_effectful Hstep.
  replace (before ++ other :: others ++ call :: after) with ((before ++ other :: others) ++ call :: after) in *
    by by rewrite <- app_assoc.
  set (earlier := before ++ other :: others) in *.
  assert (other ∈ earlier) as Hoe by (unfold earlier; set_solver).
  destruct (StronglySorted_before _ _ _ _ _ Hsorted Hoe) as [_ Hlt].
  apply andb_true_iff in Hstep as Hk. destruct Hk as [Hk%bool_decide_eq_true _]. specialize (Hlt Hk).
  destruct (overtaken call other (filter (fun n => is_step n = true) earlier)) eqn:Hover.
  { destruct Hno. exists (length (filter (fun n => is_step n = true) earlier)), call, other.
    rewrite filter_app, filter_cons_True, lookup_app_r, Nat.sub_diag, take_app_length by done. set_solver. }
  unfold overtaken in Hover. destruct (Nat.ltb_spec (node_Pos other) (node_Pos call)) as [Hpos|Hpos].
  2:{ left. split; [done|]. unfold Pos in *. lia. }
  destruct (Nat.leb_spec (node_End call) (node_End other)); [unfold Pos in *; lia|].
  rewrite andb_false_r in Hover. cbn [andb negb] in Hover. apply negb_false_iff, existsb_exists in Hover as (step & Hin' & Hw).
  rewrite <- list_elem_of_In in Hin'. apply list_elem_of_filter in Hin' as [Hs Hin'].
  apply andb_true_iff in Hw as [H1%Nat.leb_le H2%Nat.leb_le]. right. by exists step.
Qed.
End Order.

(** C16. A statement's own steps are awaited in the order Go evaluates them, an operand
    before what it is an operand of and otherwise left to right, outside function
    literals. Where the rewrite does not decline, hoisting them in front of the statement
    overtakes nothing a step may observe -- a receive, a call other than a conversion or
    a builtin that only computes, that Go evaluates before a step is part of that step
    itself or of one awaited before it -- and hoists no step that the statement may not
    evaluate, on the right of a conjunction or a disjunction. A statement that holds
    nothing but steps and computations is not declined. *)
Theorem own_steps_in_evaluation_order em stmt es nodes from to s :
  own_expressions stmt = Some es -> es ≡ₚ nodes ->
  follow from nodes to -> Forall tidy nodes -> closed_calls nodes ->
  exists s', ownSteps em stmt s = Answer (filter (fun n => is_step em n = true) (in_order nodes), s')
  /\ (failure s' = EmptyString -> overtakes_nothing em (in_order nodes) /\ always_evaluated em (in_order nodes))
  /\ (failure s = EmptyString -> only_steps em (in_order nodes) -> failure s' = EmptyString).
Proof.
  intros Hes Hp Hf Ht Hc. destruct (ownSteps_answer em stmt es s Hes) as (s' & E & Hd).
  pose proof (in_order_sorted _ _ _ Hf Ht Hc) as Hsorted. destruct (sorted_steps em _ Hsorted) as [Hid Hnd].
  pose proof (in_source_in_order _ _ Hp) as Hperm. set (visited_ := concat (map in_source es)) in *.
  assert (sort_by node_End (filter (fun n => is_step em n = true) visited_)
    = filter (fun n => is_step em n = true) (in_order nodes)) as Hfound.
  { apply sort_by_unique; [by rewrite Hperm..|]. rewrite <- Hid. apply sort_by_sorted. }
  rewrite Hfound in E, Hd. exists s'. split; [done|]. split.
  - intros [_ Hno]%Hd. rewrite Hperm in Hno. split.
    + apply overtakes_nothing_evaluated; [done|]. by intros Hover; apply Hno; right.
    + apply skips_nothing_evaluated. by intros Hskip; apply Hno; left.
  - intros Hs Ho. apply Hd. split; [done|]. intros [Hskip|Hover].
    + rewrite Hperm in Hskip. by eapply only_steps_skip_nothing.
    + by eapply only_steps_overtake_nothing.
Qed.
