(* ===== verification/RewriteWalk.v ===== *)
(** A node's source with the rewrite's edits inside it
    ([tools/effectgo/rewrite/walk.go]). Collecting edits over a whole node and splicing
    them into the source at the end comes to spelling the node part by part: [rewritten]
    follows the recursion of the code, one rule for each edit it makes, and [reads] is
    the specification, said of the source alone. *)

From S2P Require Import Prelude GoStrings GoSyntax RewriteText RewriteNames RewriteSite RewriteEmitter.
From Stdlib Require Import Sorted.

Section Walk.
Context (em : emitter).

(** The names awaited steps are bound to, by the call's pointer. *)
Definition temporaries : Type := gmap nat string.

(** The [v := x.(type)] of a type switch. *)
Definition isTypeSwitchGuard (assign : node) : bool :=
  match fields fRhs assign with
  | [rhs] =>
      bool_decide (kind_of (Unparen rhs) = TypeAssertExpr)
      && negb (bool_decide (is_Some (field fType (Unparen rhs))))
  | _ => false
  end.

(** What a break and a continue mean inside a node. *)
Definition jumpsInside (n : node) (jumps : jumpTargets) : jumpTargets :=
  match kind_of n with
  | ForStmt | RangeStmt _ => no_jumps
  | SwitchStmt | TypeSwitchStmt | SelectStmt => MkJumps EmptyString (cont jumps)
  | _ => jumps
  end.

(** Edits are appended to the list [collect] is given a pointer to. *)
Definition collecting : Type -> Type := M (emission * list edit).

Definition add (n : node) (text : string) : collecting unit :=
  local (fun edits => edits ++ [MkEdit (offset (em_src em) (node_Pos n)) (offset (em_src em) (node_End n)) text]).

(** [text] over the [collect] it calls. *)
Definition text_by (collect : node -> node -> temporaries -> jumpTargets -> bool -> collecting unit)
    (n : node) (temps : temporaries) (jumps : jumpTargets) : M emission string :=
  '(_, edits) ← with_local [] (collect n n temps jumps false);
  or_panic (splice (em_src em) (offset (em_src em) (node_Pos n)) (offset (em_src em) (node_End n)) edits).

(** What the left side of a [:=] declares or reuses: whether a name is reused, the
    declarations of the new ones, and all names; [None] once a type cannot be
    named. *)
Fixpoint redeclared (lhs : list node) : M emission (option (bool * list string * list string)) :=
  match lhs with
  | [] => mret (Some (false, [], []))
  | expr :: lhs =>
      ident ← or_panic (identOf expr);
      let Name := ident_Name ident in
      if String.eqb Name "_" then
        found ← redeclared lhs;
        mret ('(reuses, declarations, lefts) ← found; Some (reuses, declarations, Name :: lefts))
      else match Defs (em_info em) (ptr ident) with
      | None =>
          found ← redeclared lhs;
          mret ('(_, declarations, lefts) ← found; Some (true, declarations, Name :: lefts))
      | Some object =>
          typeText ← em_type_text em (object_Type object);
          match typeText with
          | None =>
              decline "a redeclared name has a type this file cannot name";;
              mret None
          | Some typeText =>
              found ← redeclared lhs;
              mret ('(reuses, declarations, lefts) ← found;
                    Some (reuses, ("var " ++ Name ++ " " ++ typeText ++ "; ")%string :: declarations, Name :: lefts))
          end
      end
  end.

Definition redeclaration (text : node -> temporaries -> jumpTargets -> M emission string)
    (assign : node) (temps : temporaries) (jumps : jumpTargets) : M emission (option string) :=
  found ← redeclared (fields fLhs assign);
  match found with
  | Some (true, declarations, lefts) =>
      right ← mapM (fun expr => text expr temps jumps) (fields fRhs assign);
      mret (Some (Join declarations EmptyString ++ Join lefts ", " ++ " = " ++ Join right ", ")%string)
  | _ => mret None
  end.

Definition succeed (value : string) : string :=
  ("return " ++ em_effect em ++ ".Succeed[" ++ em_r em ++ ", " ++ em_e em ++ ", " ++ em_a em ++ "]("
   ++ value ++ ")")%string.

(** What the inspecting closure does at a node, over the [collect] it calls. *)
Definition collect_visit (collect : node -> node -> temporaries -> jumpTargets -> bool -> collecting unit)
    (root node_ : node) (temps : temporaries) (jumps : jumpTargets) (inFunction : bool) (n : node) :
    collecting bool :=
  stop ← outer failed;
  if stop : bool then mret false
  else match kind_of n with
  | CallExpr =>
      match em_replacements em !! ptr n with
      | Some replacement => add n replacement;; mret false
      | None =>
          if inFunction then mret true
          else match temps !! ptr n with
          | Some name => add n name;; mret false
          | None =>
              if bool_decide (is_Some (steps (em_site em) !! ptr n))
              then outer (decline "a step was reached before it was awaited");; mret false
              else mret true
          end
      end
  | FuncLit =>
      if negb (ptr n =? ptr root) then
        body ← or_panic (field fBody n);
        collect body body temps no_jumps true;;
        mret false
      else mret true
  | ReturnStmt =>
      match fields fResults n with
      | [result] =>
          if inFunction then mret true
          else
            value ← outer (text_by collect result temps jumps);
            add n (succeed value);;
            mret false
      | _ => mret true
      end
  | BranchStmt Tok =>
      if inFunction || bool_decide (is_Some (field fLabel n)) then mret true
      else
        (if bool_decide (Tok = BREAK) && negb (String.eqb (brk jumps) EmptyString)
         then add n (brk jumps) else mret tt);;
        (if bool_decide (Tok = CONTINUE) && negb (String.eqb (cont jumps) EmptyString)
         then add n (cont jumps) else mret tt);;
        mret true
  | ForStmt | RangeStmt _ | SwitchStmt | TypeSwitchStmt | SelectStmt =>
      if negb (ptr n =? ptr node_) && negb (bool_decide (jumps = no_jumps)) then
        collect n n temps jumps inFunction;;
        mret false
      else mret true
  | AssignStmt Tok =>
      if negb inFunction && bool_decide (Tok = DEFINE) && negb (isTypeSwitchGuard n) then
        found ← outer (redeclaration (text_by collect) n temps jumps);
        match found with
        | Some replacement => add n replacement;; mret false
        | None => mret true
        end
      else mret true
  | _ => mret true
  end.

Fixpoint collect (fuel : nat) (root node_ : node) (temps : temporaries) (jumps : jumpTargets)
    (inFunction : bool) : collecting unit :=
  match fuel with
  | O => exhausted
  | S fuel =>
      let jumps := jumpsInside node_ jumps in
      InspectM (collect_visit (collect fuel) root node_ temps jumps inFunction) node_
  end.

(** A node's text. What is collected inside it is collected from nodes below it. *)
Definition text (n : node) (temps : temporaries) (jumps : jumpTargets) : M emission string :=
  text_by (collect (node_size n)) n temps jumps.
End Walk.

(** * Edits in order *)

Fixpoint edits_within (from to : nat) (edits : list edit) : Prop :=
  match edits with
  | [] => from <= to
  | e :: edits => from <= edit_start e /\ edit_start e <= edit_end e /\ edits_within (edit_end e) to edits
  end.

Lemma edits_within_le from to edits : edits_within from to edits -> from <= to.
Proof.
  revert from. induction edits as [|e edits IH]; intros from; cbn; [done|].
  intros (H1 & H2 & H3%IH). lia.
Qed.

Lemma edits_within_app a b c es es' :
  edits_within a b es -> edits_within b c es' -> edits_within a c (es ++ es').
Proof.
  revert a. induction es as [|e es IH]; intros a; cbn.
  - intros Hab. destruct es' as [|e' es']; cbn; [lia|]. intros (H1 & H2). split; [lia|done].
  - intros (H1 & H2 & H3) H4. split_and!; [done..|]. by apply IH.
Qed.

Lemma edits_within_weaken a a' b b' es : a' <= a -> b <= b' -> edits_within a b es -> edits_within a' b' es.
Proof.
  intros Ha Hb. revert a a' Ha. induction es as [|e es IH]; intros a a' Ha; cbn; [lia|].
  intros (H1 & H2 & H3). split_and!; [lia|done|]. by eapply IH.
Qed.

Lemma edits_within_sorted a b es : edits_within a b es -> sorted_by edit_start es.
Proof.
  assert (forall a b es, edits_within a b es -> Forall (fun e => a <= edit_start e) es) as Habove.
  { clear. intros a b es. revert a. induction es as [|e es IH]; intros a; cbn; [by constructor|].
    intros (H1 & H2 & H3%IH). constructor; [done|]. eapply Forall_impl; [exact H3|]. cbn. lia. }
  revert a. induction es as [|e es IH]; intros a; cbn; [constructor|].
  intros (H1 & H2 & H3). constructor; [by eapply IH|].
  eapply Forall_impl; [by eapply Habove|]. cbn. lia.
Qed.

Lemma slice_Some text a b : a <= b -> b <= String.length text -> exists g, slice text a b = Some g.
Proof.
  intros H1 H2. unfold slice. destruct (Nat.leb_spec a b); [|lia].
  destruct (Nat.leb_spec b (String.length text)); [|lia]. eauto.
Qed.

Lemma slice_le text a b g : slice text a b = Some g -> a <= b /\ b <= String.length text.
Proof.
  unfold slice. destruct (Nat.leb_spec a b); [|done].
  destruct (Nat.leb_spec b (String.length text)); [|done]. done.
Qed.

Lemma substring_app_split text a n m :
  a + n + m <= String.length text ->
  String.substring a (n + m) text = (String.substring a n text ++ String.substring (a + n) m text)%string.
Proof.
  revert a n. induction text as [|x text IH]; intros a n; cbn [String.length].
  - intros H. assert (a = 0 /\ n = 0 /\ m = 0) as (-> & -> & ->) by lia. done.
  - intros H. destruct a as [|a]; cbn [String.substring Nat.add]; [|apply IH; lia].
    destruct n as [|n]; [done|]. cbn [Nat.add]. rewrite string_app_cons. f_equal.
    specialize (IH 0 n). cbn in IH. apply IH. lia.
Qed.

Lemma slice_app text a b c g g' :
  slice text a b = Some g -> slice text b c = Some g' -> slice text a c = Some (g ++ g')%string.
Proof.
  intros Hg Hg'. pose proof (slice_le _ _ _ _ Hg) as [Hab _]. pose proof (slice_le _ _ _ _ Hg') as [Hbc Hc].
  unfold slice in *.
  destruct (Nat.leb_spec a b), (Nat.leb_spec b c), (Nat.leb_spec a c), (Nat.leb_spec b (String.length text)),
    (Nat.leb_spec c (String.length text)); try lia; cbn [andb] in *; try done.
  injection Hg as <-. injection Hg' as <-. f_equal.
  replace (c - a) with ((b - a) + (c - b)) by lia. rewrite substring_app_split by lia.
  by replace (a + (b - a)) with b by lia.
Qed.

(** Splicing edits of two stretches that follow one another. *)
Lemma splice_from_app text a b c es es' t t' :
  edits_within a b es -> edits_within b c es' ->
  splice_from text a b es = Some t -> splice_from text b c es' = Some t' ->
  splice_from text a c (es ++ es') = Some (t ++ t')%string.
Proof.
  revert a t. induction es as [|e es IH]; intros a t He He' Ht Ht'.
  - cbn [splice_from app] in *. destruct es' as [|e es']; cbn [splice_from] in *; [by eapply slice_app|].
    pose proof (slice_le _ _ _ _ Ht). destruct He' as (H1 & H2 & H3%edits_within_le).
    destruct (Nat.ltb_spec (edit_start e) b); [lia|]. destruct (Nat.ltb_spec (edit_start e) a); [lia|].
    destruct (Nat.ltb_spec c (edit_end e)); [lia|]. cbn [orb] in *.
    destruct (slice text b (edit_start e)) as [g|] eqn:Hg; [|done]. cbn in Ht'.
    destruct (splice_from text (edit_end e) c es') as [rest|]; [|done]. injection Ht' as <-.
    rewrite (slice_app _ _ _ _ _ _ Ht Hg). cbn. f_equal. by rewrite string_app_assoc.
  - destruct He as (H1 & H2 & H3). pose proof (edits_within_le _ _ _ H3). pose proof (edits_within_le _ _ _ He').
    cbn [splice_from app] in *.
    destruct (Nat.ltb_spec (edit_start e) a); [lia|]. destruct (Nat.ltb_spec b (edit_end e)); [lia|].
    destruct (Nat.ltb_spec c (edit_end e)); [lia|]. cbn [orb] in *.
    destruct (slice text a (edit_start e)) as [g|]; [|done]. cbn in *.
    destruct (splice_from text (edit_end e) b es) as [rest|] eqn:Hr; [|done]. injection Ht as <-.
    rewrite (IH (edit_end e) rest) by done. cbn. f_equal. by rewrite !string_app_assoc.
Qed.

Lemma splice_from_nil text a b g : slice text a b = Some g -> splice_from text a b [] = Some g.
Proof. done. Qed.

Lemma substring_none text a : String.substring a 0 text = EmptyString.
Proof. revert a. induction text as [|x text IH]; intros [|a]; cbn; done || apply IH. Qed.

Lemma splice_from_one text start end_ t :
  start <= end_ -> end_ <= String.length text -> splice_from text start end_ [MkEdit start end_ t] = Some t.
Proof.
  intros H1 H2. cbn [splice_from edit_start edit_end edit_text].
  destruct (Nat.ltb_spec start start); [lia|]. destruct (Nat.ltb_spec end_ end_); [lia|].
  cbn [orb]. unfold slice. rewrite !Nat.leb_refl.
  destruct (Nat.leb_spec start (String.length text)); [|lia]. destruct (Nat.leb_spec end_ (String.length text)); [|lia].
  cbn [andb mbind option_bind]. rewrite !Nat.sub_diag. by rewrite !substring_none, string_app_nil_l, string_app_nil_r.
Qed.

(** * Failures stay *)

Definition unfailed (s s' : emission) : Prop := failure s' = EmptyString -> failure s = EmptyString.

#[export] Instance unfailed_preorder : PreOrder unfailed.
Proof. split; [intros s E; exact E|]. intros s s' s'' H H' E. by apply H, H'. Qed.

Create HintDb unfailed.

Lemma unfailed_with_types {A} (m : M typeNames A) : always unfailed (with_types m).
Proof.
  intros s a s'. unfold with_types. destruct (m (em_types s)) as [[b tn]| |]; [|done..].
  intros [= <- <-] E. exact E.
Qed.

Lemma unfailed_decline reason : always unfailed (decline reason).
Proof.
  apply always_modify. intros s. unfold unfailed.
  by destruct (String.eqb_spec (failure s) EmptyString).
Qed.

Lemma unfailed_failed : always unfailed failed.
Proof. apply always_gets. apply _. Qed.
#[export] Hint Resolve unfailed_with_types unfailed_decline unfailed_failed : unfailed.

Ltac unfail := repeat always_step; auto with unfailed.

Section Spelling.
Context (em : emitter).

Lemma redeclared_unfailed lhs : always unfailed (redeclared em lhs).
Proof. induction lhs as [|expr lhs IH]; cbn [redeclared]; unfold em_type_text; unfail. Qed.

Lemma collect_visit_unfailed collect_ root here temps jumps inFunction n :
  (forall root n jumps inFunction, always (on_state unfailed) (collect_ root n temps jumps inFunction)) ->
  always (on_state unfailed) (collect_visit em collect_ root here temps jumps inFunction n).
Proof.
  intros Hc. assert (forall n jumps, always unfailed (text_by em collect_ n temps jumps)) as Ht.
  { intros. unfold text_by. unfail. }
  unfold collect_visit, add, redeclaration. pose proof redeclared_unfailed. unfail.
  apply always_mapM; [apply _|]. auto.
Qed.

Lemma collect_unfailed fuel root n temps jumps inFunction :
  always (on_state unfailed) (collect em fuel root n temps jumps inFunction).
Proof.
  revert root n jumps inFunction. induction fuel as [|fuel IH]; intros root n jumps inFunction; [done|].
  cbn [collect]. apply always_InspectM; [apply _|]. intros m. by apply collect_visit_unfailed.
Qed.

(** * Spelling part by part *)

Definition start (n : node) : nat := offset (em_src em) (node_Pos n).
Definition stop (n : node) : nat := offset (em_src em) (node_End n).
Definition source_between (from to : nat) : option string := slice (source_text (em_src em)) from to.

(** The names on the left of a [:=], those already declared, and the declarations of
    the others, each with its type as the file writes it. *)
Definition reused (expr : node) : bool :=
  match identOf expr with
  | Some ident =>
      negb (String.eqb (ident_Name ident) "_") && negb (bool_decide (is_Some (Defs (em_info em) (ptr ident))))
  | None => false
  end.

Inductive declared : list node -> list string -> list string -> Prop :=
| declared_nil : declared [] [] []
| declared_old expr lhs declarations lefts ident :
    identOf expr = Some ident ->
    ident_Name ident = "_" \/ Defs (em_info em) (ptr ident) = None ->
    declared lhs declarations lefts ->
    declared (expr :: lhs) declarations (ident_Name ident :: lefts)
| declared_new expr lhs declarations lefts ident object typeText tn tn' :
    identOf expr = Some ident -> ident_Name ident <> "_" ->
    Defs (em_info em) (ptr ident) = Some object ->
    type_text (em_info em) (object_Type object) tn = Answer (Some typeText, tn') ->
    declared lhs declarations lefts ->
    declared (expr :: lhs) (("var " ++ ident_Name ident ++ " " ++ typeText ++ "; ")%string :: declarations)
      (ident_Name ident :: lefts).

(** A node nothing is done to itself: what it is made of is spelled in turn. [root] is
    the node being spelled and [here] the loop or switch around, by their pointers. *)
Definition left_alone (temps : temporaries) (root here : nat) (jumps : jumpTargets) (inFunction : bool) (n : node) :
    bool :=
  match kind_of n with
  | CallExpr =>
      bool_decide (em_replacements em !! ptr n = None)
      && (inFunction || bool_decide (temps !! ptr n = None) && bool_decide (steps (em_site em) !! ptr n = None))
  | FuncLit => ptr n =? root
  | ReturnStmt => inFunction || negb (length (fields fResults n) =? 1)
  | BranchStmt Tok =>
      inFunction || bool_decide (is_Some (field fLabel n))
      || negb (bool_decide (Tok = BREAK) && negb (String.eqb (brk jumps) EmptyString)
               || bool_decide (Tok = CONTINUE) && negb (String.eqb (cont jumps) EmptyString))
  | ForStmt | RangeStmt _ | SwitchStmt | TypeSwitchStmt | SelectStmt =>
      (ptr n =? here) || bool_decide (jumps = no_jumps)
  | AssignStmt Tok =>
      inFunction || negb (bool_decide (Tok = DEFINE)) || isTypeSwitchGuard n || negb (existsb reused (fields fLhs n))
  | _ => true
  end.

Section Rewritten.
Context (temps : temporaries).

(** Source and nodes that follow one another, from one offset to another. *)
Inductive interleaved (spelled : node -> string -> Prop) : nat -> list node -> nat -> string -> Prop :=
| interleaved_end from to gap :
    source_between from to = Some gap -> interleaved spelled from [] to gap
| interleaved_node from n nodes to gap text rest :
    source_between from (start n) = Some gap -> spelled n text ->
    interleaved spelled (stop n) nodes to rest ->
    interleaved spelled from (n :: nodes) to (gap ++ text ++ rest)%string.

Inductive rewritten : nat -> nat -> jumpTargets -> bool -> node -> string -> Prop :=
(** A nested [effect.Gen] that was itself rewritten is replaced whole. *)
| rewritten_gen root here jumps inFunction n replacement :
    kind_of n = CallExpr -> em_replacements em !! ptr n = Some replacement ->
    rewritten root here jumps inFunction n replacement
(** An awaited step is replaced by the name its value was bound to. *)
| rewritten_step root here jumps n name :
    kind_of n = CallExpr -> em_replacements em !! ptr n = None -> temps !! ptr n = Some name ->
    rewritten root here jumps false n name
(** A return answers its value as an effect. *)
| rewritten_return root here jumps n result value :
    kind_of n = ReturnStmt -> fields fResults n = [result] ->
    rewritten (ptr result) (ptr result) (jumpsInside result jumps) false result value ->
    rewritten root here jumps false n (succeed em value)
(** An unlabeled break or continue becomes what the jumps say it does. *)
| rewritten_break root here jumps n :
    kind_of n = BranchStmt BREAK -> field fLabel n = None -> brk jumps <> EmptyString ->
    rewritten root here jumps false n (brk jumps)
| rewritten_continue root here jumps n :
    kind_of n = BranchStmt CONTINUE -> field fLabel n = None -> cont jumps <> EmptyString ->
    rewritten root here jumps false n (cont jumps)
(** A [:=] that reuses a name assigns to it. *)
| rewritten_define root here jumps n declarations lefts rights :
    kind_of n = AssignStmt DEFINE -> isTypeSwitchGuard n = false -> existsb reused (fields fLhs n) = true ->
    declared (fields fLhs n) declarations lefts ->
    Forall2 (fun expr text => rewritten (ptr expr) (ptr expr) (jumpsInside expr jumps) false expr text)
      (fields fRhs n) rights ->
    rewritten root here jumps false n
      (Join declarations EmptyString ++ Join lefts ", " ++ " = " ++ Join rights ", ")%string
(** Inside a function literal only the first applies. *)
| rewritten_literal root here jumps inFunction n body before inside after :
    kind_of n = FuncLit -> ptr n <> root -> field fBody n = Some body ->
    source_between (start n) (start body) = Some before ->
    rewritten (ptr body) (ptr body) (jumpsInside body no_jumps) true body inside ->
    source_between (stop body) (stop n) = Some after ->
    rewritten root here jumps inFunction n (before ++ inside ++ after)%string
(** A loop or a switch is what jumps inside it leave. *)
| rewritten_loop root here jumps inFunction n text :
    kind_of n ∈ [ForStmt; SwitchStmt; TypeSwitchStmt; SelectStmt] \/ (exists Tok, kind_of n = RangeStmt Tok) ->
    rewritten (ptr n) (ptr n) (jumpsInside n jumps) inFunction n text ->
    rewritten root here jumps inFunction n text
| rewritten_parts root here jumps inFunction n text :
    left_alone temps root here jumps inFunction n = true ->
    interleaved (rewritten root here jumps inFunction) (start n) (children n) (stop n) text ->
    rewritten root here jumps inFunction n text.
End Rewritten.

(** * Collecting spells *)

Definition source_string : string := source_text (em_src em).

Lemma offset_le pos : offset (em_src em) pos <= String.length source_string.
Proof. unfold offset, source_string. lia. Qed.

Lemma offset_mono pos pos' : pos <= pos' -> offset (em_src em) pos <= offset (em_src em) pos'.
Proof. unfold offset. lia. Qed.

(** Edits that spell a stretch of the source. *)
Definition spell_edits (from to : nat) (edits : list edit) (text : string) : Prop :=
  edits_within from to edits /\ splice_from source_string from to edits = Some text.

Lemma spell_edits_app a b c es es' t t' :
  spell_edits a b es t -> spell_edits b c es' t' -> spell_edits a c (es ++ es') (t ++ t').
Proof.
  intros [He Ht] [He' Ht']. split; [by eapply edits_within_app|by eapply splice_from_app].
Qed.

Lemma spell_edits_gap a b : a <= b -> b <= String.length source_string ->
  exists gap, source_between a b = Some gap /\ spell_edits a b [] gap.
Proof.
  intros Hab Hb. destruct (slice_Some source_string a b Hab Hb) as [gap E]. exists gap. done.
Qed.

Lemma spell_edits_one n text :
  node_Pos n <= node_End n -> spell_edits (start n) (stop n) [MkEdit (start n) (stop n) text] text.
Proof.
  intros Hn%offset_mono. fold (start n) (stop n) in Hn. split; [cbn; lia|].
  apply splice_from_one; [done|apply offset_le].
Qed.

Lemma redeclared_declared lhs s reuses declarations lefts s' :
  redeclared em lhs s = Answer (Some (reuses, declarations, lefts), s') ->
  declared lhs declarations lefts /\ reuses = existsb reused lhs.
Proof.
  revert s reuses declarations lefts s'. induction lhs as [|expr lhs IH]; intros s reuses declarations lefts s'.
  { intros [= <- <- <- <-]. split; [constructor|done]. }
  cbn [redeclared existsb]. intros (ident & s1 & E1 & E)%bind_Answer. unfold or_panic in E1.
  destruct (identOf expr) as [i|] eqn:Hi; [|done]. injection E1 as -> ->.
  unfold reused at 1. rewrite Hi. destruct (String.eqb_spec (ident_Name ident) "_") as [Hn|Hn].
  - apply bind_Answer in E as (found & s2 & E & [= H <-]).
    destruct found as [[[r ds] ls]|]; [|done]. cbn in H. injection H as <- <- <-.
    apply IH in E as [Hd ->]. split; [|done]. econstructor; eauto.
  - destruct (Defs (em_info em) (ptr ident)) as [object|] eqn:Hd.
    + apply bind_Answer in E as (typeText & s2 & Et & E). destruct typeText as [typeText|].
      2:{ by apply bind_Answer in E as (? & s3 & _ & E). }
      apply bind_Answer in E as (found & s3 & E & [= H <-]).
      destruct found as [[[r ds] ls]|]; [|done]. cbn in H. injection H as <- <- <-.
      apply IH in E as [Hds ->]. split; [|done].
      unfold em_type_text, with_types in Et. destruct (type_text _ _ _) as [[t tn]| |] eqn:Ett; [|done..].
      injection Et as -> <-. by eapply declared_new.
    + apply bind_Answer in E as (found & s2 & E & [= H <-]).
      destruct found as [[[r ds] ls]|]; [|done]. cbn in H. injection H as <- <- <-.
      apply IH in E as [Hds _]. split; [|done]. eapply declared_old; eauto.
Qed.

Lemma redeclared_None lhs s s' : redeclared em lhs s = Answer (None, s') -> failure s' <> EmptyString.
Proof.
  revert s s'. induction lhs as [|expr lhs IH]; intros s s'; [done|].
  cbn [redeclared]. intros (ident & s1 & E1 & E)%bind_Answer.
  destruct (String.eqb _ _); [|destruct (Defs _ _)].
  - apply bind_Answer in E as (found & s2 & E & [= H <-]). destruct found as [[[? ?] ?]|]; [done|by eapply IH].
  - apply bind_Answer in E as ([typeText|] & s2 & Et & E).
    + apply bind_Answer in E as (found & s3 & E & [= H <-]). destruct found as [[[? ?] ?]|]; [done|by eapply IH].
    + apply bind_Answer in E as (u & s3 & [= <- <-] & [= <-]).
      destruct (String.eqb_spec (failure s2) EmptyString); cbn; done.
  - apply bind_Answer in E as (found & s2 & E & [= H <-]). destruct found as [[[? ?] ?]|]; [done|by eapply IH].
Qed.

Section Collected.
Context (temps : temporaries).
Context (collect_ : node -> node -> temporaries -> jumpTargets -> bool -> collecting unit).

(** What a collection of edits over a tidy node amounts to. *)
Definition collects : Prop :=
  forall root n jumps inFunction s es s' es', tidy n ->
  collect_ root n temps jumps inFunction (s, es) = Answer (tt, (s', es')) -> failure s' = EmptyString ->
  exists edits text, es' = es ++ edits /\ spell_edits (start n) (stop n) edits text
    /\ rewritten temps (ptr root) (ptr n) (jumpsInside n jumps) inFunction n text.

Hypothesis collect_ok : collects.
Hypothesis collect_unfailed_ : forall root n jumps inFunction,
  always (on_state unfailed) (collect_ root n temps jumps inFunction).

Lemma text_by_rewritten n jumps s text s' :
  tidy n -> text_by em collect_ n temps jumps s = Answer (text, s') -> failure s' = EmptyString ->
  rewritten temps (ptr n) (ptr n) (jumpsInside n jumps) false n text.
Proof.
  intros Hn E Hf. unfold text_by in E. apply bind_Answer in E as ([u edits] & s1 & E & Es).
  unfold or_panic in Es. destruct (splice _ _ _ _) as [t|] eqn:Hsplice; [|done]. injection Es as -> ->.
  unfold with_local in E. destruct (collect_ n n temps jumps false (s, [])) as [[[] [s2 es]]| |] eqn:Ec; [|done..].
  injection E as <- <- <-. apply (collect_ok _ _ _ _ _ _ _ _ Hn) in Ec as (E & t' & -> & [He Ht] & Hr); [|done].
  unfold splice in Hsplice. rewrite sort_by_id in Hsplice by by eapply edits_within_sorted.
  unfold source_string, start, stop in Ht. cbn [app] in Hsplice. rewrite Ht in Hsplice. by injection Hsplice as <-.
Qed.

Lemma texts_rewritten exprs jumps s texts s' :
  Forall tidy exprs -> mapM (fun expr => text_by em collect_ expr temps jumps) exprs s = Answer (texts, s') ->
  failure s' = EmptyString ->
  Forall2 (fun expr text => rewritten temps (ptr expr) (ptr expr) (jumpsInside expr jumps) false expr text) exprs texts.
Proof.
  assert (forall n, always unfailed (text_by em collect_ n temps jumps)) as Hu.
  { intros n. unfold text_by. unfail. }
  intros Ht. revert s texts s'. induction Ht as [|expr exprs He _ IH]; intros s texts s'; cbn [mapM].
  { intros [= <- <-] _. constructor. }
  intros (t & s1 & E1 & (ts & s2 & E2 & [= <- <-])%bind_Answer)%bind_Answer Hf.
  constructor; [|by eapply IH]. eapply text_by_rewritten; [done|exact E1|].
  eapply (always_mapM unfailed (fun expr => text_by em collect_ expr temps jumps) exprs Hu); [exact E2|done].
Qed.

Lemma redeclaration_rewritten n jumps s text s' root here :
  tidy n -> kind_of n = AssignStmt DEFINE -> isTypeSwitchGuard n = false ->
  redeclaration em (text_by em collect_) n temps jumps s = Answer (Some text, s') -> failure s' = EmptyString ->
  rewritten temps root here jumps false n text.
Proof.
  intros Hn Hk Hg E Hf. unfold redeclaration in E. apply bind_Answer in E as (found & s1 & E1 & E).
  destruct found as [[[reuses declarations] lefts]|]; [|done].
  apply redeclared_declared in E1 as [Hd ->]. destruct (existsb _ _) eqn:Hr; [|done].
  apply bind_Answer in E as (rights & s2 & E2 & [= <- <-]).
  eapply rewritten_define; [done..| |]; [exact Hd|]. eapply texts_rewritten; [|exact E2|done].
  inversion Hn as [? _ _ _ Hc]; subst. rewrite Forall_forall in *. intros c Hin. apply Hc. by eapply fields_children.
Qed.

Lemma add_answer n text s es u s' es' :
  add em n text (s, es) = Answer (u, (s', es')) -> s' = s /\ es' = es ++ [MkEdit (start n) (stop n) text].
Proof. intros [= _ <- <-]. done. Qed.

(** What the closure does at a node: it spells the node whole and descends no more, or
    leaves it alone, or replaces a jump, which has nothing below it. *)
Definition visited_node (root here : node) (jumps : jumpTargets) (inFunction : bool) (n : node)
    (descend : bool) (es es' : list edit) : Prop :=
  if descend then
    es' = es /\ left_alone temps (ptr root) (ptr here) jumps inFunction n = true
    \/ children n = [] /\ exists text, es' = es ++ [MkEdit (start n) (stop n) text]
        /\ rewritten temps (ptr root) (ptr here) jumps inFunction n text
  else
    exists edits text, es' = es ++ edits /\ spell_edits (start n) (stop n) edits text
      /\ rewritten temps (ptr root) (ptr here) jumps inFunction n text.

Lemma added_node root here jumps inFunction n text es es' :
  node_Pos n <= node_End n -> es' = es ++ [MkEdit (start n) (stop n) text] ->
  rewritten temps (ptr root) (ptr here) jumps inFunction n text ->
  visited_node root here jumps inFunction n false es es'.
Proof. intros Hn -> Hr. exists [MkEdit (start n) (stop n) text], text. split; [done|]. split; [by apply spell_edits_one|done]. Qed.

(** The closure's first test: nothing has failed yet. *)
Lemma visit_unfailed root here jumps inFunction n s es descend s' es' :
  collect_visit em collect_ root here temps jumps inFunction n (s, es) = Answer (descend, (s', es')) ->
  failure s' = EmptyString -> failure s = EmptyString.
Proof.
  unfold collect_visit. intros (stop_ & [s1 es1] & E1 & E)%bind_Answer Hf.
  injection E1 as <- <- <-. destruct (String.eqb_spec (failure s) EmptyString) as [Hs|Hs]; [done|].
  injection E as _ <- _. done.
Qed.

Ltac visit_start :=
  intros Hn Hk E Hf; pose proof (visit_unfailed _ _ _ _ _ _ _ _ _ _ E Hf) as Hs;
  assert (node_Pos _ <= node_End _) as Hle by (inversion Hn; eassumption);
  unfold collect_visit in E; apply bind_Answer in E as (stop_ & [s1 es1] & E1 & E);
  injection E1 as <- <- <-; rewrite Hs in E; cbn [negb String.eqb] in E.

Lemma visit_call root here jumps inFunction n s es descend s' es' :
  tidy n -> kind_of n = CallExpr ->
  collect_visit em collect_ root here temps jumps inFunction n (s, es) = Answer (descend, (s', es')) ->
  failure s' = EmptyString -> visited_node root here jumps inFunction n descend es es'.
Proof.
  visit_start. rewrite Hk in E. destruct (em_replacements em !! ptr n) as [r|] eqn:Hr.
  { apply bind_Answer in E as (u & [s2 es2] & Ea & [= <- <- <-]). apply add_answer in Ea as [-> ->].
    eapply added_node; [done..|]. by apply rewritten_gen. }
  destruct inFunction; [injection E as <- <- <-; left; split; [done|]; unfold left_alone; by rewrite Hk, Hr|].
  destruct (temps !! ptr n) as [name|] eqn:Ht.
  { apply bind_Answer in E as (u & [s2 es2] & Ea & [= <- <- <-]). apply add_answer in Ea as [-> ->].
    eapply added_node; [done..|]. by apply rewritten_step. }
  destruct (bool_decide_reflect (is_Some (steps (em_site em) !! ptr n))) as [Hstep|Hstep].
  - apply bind_Answer in E as (u & [s2 es2] & Ed & [= <- <- <-]).
    unfold outer, decline, modify in Ed. rewrite Hs in Ed. injection Ed as _ <- _. done.
  - injection E as <- <- <-. left. split; [done|]. unfold left_alone. rewrite Hk, Hr, Ht.
    by rewrite <- eq_None_not_Some in Hstep; rewrite Hstep.
Qed.

Lemma tidy_child n c : tidy n -> c ∈ children n ->
  tidy c /\ node_Pos n <= node_Pos c /\ node_End c <= node_End n.
Proof.
  intros Hn Hc. inversion Hn as [? _ Hf _ Ht]; subst. rewrite Forall_forall in Ht. split; [by apply Ht|].
  clear Ht Hn. revert Hf. generalize (node_Pos n) as from. induction Hc as [c cs|c d cs Hc IH]; intros from.
  - cbn. intros (H1 & H2 & H3). split; [done|]. clear - H3.
    revert H3. generalize (node_End c). induction cs as [|d cs IH]; intros e; cbn; [done|].
    intros (H1 & H2 & H3%IH). unfold Pos in *. lia.
  - cbn. intros (H1 & H2 & H3%IH). unfold Pos in *. lia.
Qed.

Lemma visit_literal root here jumps inFunction n s es descend s' es' :
  tidy n -> kind_of n = FuncLit ->
  collect_visit em collect_ root here temps jumps inFunction n (s, es) = Answer (descend, (s', es')) ->
  failure s' = EmptyString -> visited_node root here jumps inFunction n descend es es'.
Proof.
  visit_start. rewrite Hk in E. destruct (Nat.eqb_spec (ptr n) (ptr root)) as [Hp|Hp]; cbn [negb] in E.
  { injection E as <- <- <-. left. split; [done|]. unfold left_alone. rewrite Hk. by apply Nat.eqb_eq. }
  apply bind_Answer in E as (body & [s1 es1] & Eb & E). unfold or_panic in Eb.
  destruct (field fBody n) as [body'|] eqn:Hb; [|done]. injection Eb as <- <- <-.
  apply bind_Answer in E as ([] & [s2 es2] & Ec & [= <- <- <-]).
  assert (tidy body' /\ node_Pos n <= node_Pos body' /\ node_End body' <= node_End n) as (Hbody & H1 & H2).
  { by eapply tidy_child, fields_children, field_fields. }
  apply (collect_ok _ _ _ _ _ _ _ _ Hbody) in Ec as (E & t & -> & Ht & Hr); [|done].
  destruct (spell_edits_gap (start n) (start body')) as (g1 & Hg1 & Hs1); [by apply offset_mono|apply offset_le|].
  destruct (spell_edits_gap (stop body') (stop n)) as (g2 & Hg2 & Hs2); [by apply offset_mono|apply offset_le|].
  exists E, (g1 ++ t ++ g2)%string. split; [done|]. split.
  - pose proof (spell_edits_app _ _ _ _ _ _ _ Ht Hs2) as Hs'.
    pose proof (spell_edits_app _ _ _ _ _ _ _ Hs1 Hs') as Hs''. by rewrite app_nil_r in Hs''.
  - by eapply rewritten_literal.
Qed.

Lemma visit_return root here jumps inFunction n s es descend s' es' :
  tidy n -> kind_of n = ReturnStmt ->
  collect_visit em collect_ root here temps jumps inFunction n (s, es) = Answer (descend, (s', es')) ->
  failure s' = EmptyString -> visited_node root here jumps inFunction n descend es es'.
Proof.
  visit_start. rewrite Hk in E.
  destruct (fields fResults n) as [|result [|r rs]] eqn:Hres; [| |].
  1, 3: injection E as <- <- <-; left; split; [done|]; unfold left_alone; rewrite Hk, Hres; by destruct inFunction.
  destruct inFunction; [injection E as <- <- <-; left; split; [done|]; unfold left_alone; by rewrite Hk|].
  apply bind_Answer in E as (value & [s1 es1] & Ev & E).
  apply bind_Answer in E as (u & [s2 es2] & Ea & [= <- <- <-]). apply add_answer in Ea as [-> ->].
  unfold outer in Ev. destruct (text_by _ _ _ _ _ s) as [[t st]| |] eqn:Et; [|done..]. injection Ev as <- <- <-.
  eapply added_node; [done..|]. eapply rewritten_return; [done..|]. eapply text_by_rewritten; [|exact Et|done].
  eapply (tidy_child n); [done|]. apply (fields_children fResults). rewrite Hres. left.
Qed.

Lemma visit_branch root here jumps inFunction n Tok s es descend s' es' :
  tidy n -> kind_of n = BranchStmt Tok ->
  collect_visit em collect_ root here temps jumps inFunction n (s, es) = Answer (descend, (s', es')) ->
  failure s' = EmptyString -> visited_node root here jumps inFunction n descend es es'.
Proof.
  visit_start. rewrite Hk in E. unfold visited_node, left_alone. rewrite Hk.
  destruct inFunction; cbn [orb] in *; [injection E as <- <- <-; by left|].
  destruct (bool_decide_reflect (is_Some (field fLabel n))) as [Hl|Hl]; cbn [orb] in *; [injection E as <- <- <-; by left|].
  apply eq_None_not_Some in Hl. inversion Hn as [? _ _ Hleaf _]; subst. specialize (Hleaf _ Hk Hl).
  apply bind_Answer in E as (u1 & [s1 es1] & E1 & E). apply bind_Answer in E as (u2 & [s2 es2] & E2 & [= <- <- <-]).
  destruct (bool_decide_reflect (Tok = BREAK)) as [->|Hb]; cbn [andb orb] in *.
  - destruct (String.eqb_spec (brk jumps) EmptyString) as [He|He]; cbn [negb andb orb] in *.
    + injection E1 as _ <- <-. injection E2 as _ <- <-. by left.
    + apply add_answer in E1 as [-> ->]. injection E2 as _ <- <-. right. split; [done|].
      eexists. split; [done|]. by apply rewritten_break.
  - injection E1 as _ <- <-. destruct (bool_decide_reflect (Tok = CONTINUE)) as [->|Hc]; cbn [andb orb] in *.
    + destruct (String.eqb_spec (cont jumps) EmptyString) as [He|He]; cbn [negb andb orb] in *.
      * injection E2 as _ <- <-. by left.
      * apply add_answer in E2 as [-> ->]. right. split; [done|]. eexists. split; [done|]. by apply rewritten_continue.
    + injection E2 as _ <- <-. by left.
Qed.

Definition is_loop (n : node) : Prop :=
  kind_of n ∈ [ForStmt; SwitchStmt; TypeSwitchStmt; SelectStmt] \/ exists Tok, kind_of n = RangeStmt Tok.

Lemma visit_loop root here jumps inFunction n s es descend s' es' :
  tidy n -> is_loop n ->
  collect_visit em collect_ root here temps jumps inFunction n (s, es) = Answer (descend, (s', es')) ->
  failure s' = EmptyString -> visited_node root here jumps inFunction n descend es es'.
Proof.
  visit_start.
  assert ((if negb (ptr n =? ptr here) && negb (bool_decide (jumps = no_jumps))
    then collect_ n n temps jumps inFunction;; mret false else mret true) (s, es) = Answer (descend, (s', es'))) as E'.
  { destruct Hk as [Hk|[Tok Hk]]; [|by rewrite Hk in E].
    by repeat (apply elem_of_cons in Hk as [Hk|Hk]; [by rewrite Hk in E|]); apply elem_of_nil in Hk. }
  clear E. assert (left_alone temps (ptr root) (ptr here) jumps inFunction n
    = (ptr n =? ptr here) || bool_decide (jumps = no_jumps)) as Hl.
  { unfold left_alone. destruct Hk as [Hk|[Tok Hk]]; [|by rewrite Hk].
    by repeat (apply elem_of_cons in Hk as [Hk|Hk]; [by rewrite Hk|]); apply elem_of_nil in Hk. }
  destruct (ptr n =? ptr here) eqn:Hp; cbn [negb andb orb] in *; [injection E' as <- <- <-; by left|].
  destruct (bool_decide (jumps = no_jumps)) eqn:Hj; cbn [negb andb orb] in *; [injection E' as <- <- <-; by left|].
  apply bind_Answer in E' as ([] & [s2 es2] & Ec & [= <- <- <-]).
  apply (collect_ok _ _ _ _ _ _ _ _ Hn) in Ec as (E & t & -> & Ht & Hr); [|done].
  exists E, t. split; [done|]. split; [done|]. by apply rewritten_loop.
Qed.

Lemma visit_define root here jumps inFunction n Tok s es descend s' es' :
  tidy n -> kind_of n = AssignStmt Tok ->
  collect_visit em collect_ root here temps jumps inFunction n (s, es) = Answer (descend, (s', es')) ->
  failure s' = EmptyString -> visited_node root here jumps inFunction n descend es es'.
Proof.
  visit_start. rewrite Hk in E. unfold visited_node, left_alone. rewrite Hk.
  destruct inFunction; cbn [orb andb negb] in *; [injection E as <- <- <-; by left|].
  destruct (bool_decide_reflect (Tok = DEFINE)) as [->|Hd]; cbn [orb andb negb] in *; [|injection E as <- <- <-; by left].
  destruct (isTypeSwitchGuard n) eqn:Hg; cbn [orb andb negb] in *; [injection E as <- <- <-; by left|].
  apply bind_Answer in E as (found & [s1 es1] & Er & E). unfold outer in Er.
  destruct (redeclaration _ _ _ _ _ s) as [[f st]| |] eqn:Ered; [|done..]. injection Er as <- <- <-.
  destruct f as [t|].
  - apply bind_Answer in E as (u & [s2 es2] & Ea & [= <- <- <-]). apply add_answer in Ea as [-> ->].
    eapply added_node; [done..|]. by eapply redeclaration_rewritten.
  - injection E as <- <- <-. left. split; [done|]. unfold redeclaration in Ered.
    apply bind_Answer in Ered as ([[[reuses ds] ls]|] & s2 & Er & E).
    + apply redeclared_declared in Er as [_ ->]. destruct (existsb _ _); [|done].
      by apply bind_Answer in E as (rights & s3 & _ & E).
    + injection E as <-. by apply redeclared_None in Er.
Qed.

Lemma visit_node root here jumps inFunction n s es descend s' es' :
  tidy n ->
  collect_visit em collect_ root here temps jumps inFunction n (s, es) = Answer (descend, (s', es')) ->
  failure s' = EmptyString -> visited_node root here jumps inFunction n descend es es'.
Proof.
  intros Hn E Hf. destruct (kind_of n) eqn:Hk.
  all: try by eapply visit_call.
  all: try by eapply visit_literal.
  all: try by eapply visit_return.
  all: try by eapply visit_branch.
  all: try by eapply visit_define.
  all: try by (eapply visit_loop; [done| |done..]; first [by right; eauto|left; rewrite Hk; set_solver]).
  all: pose proof (visit_unfailed _ _ _ _ _ _ _ _ _ _ E Hf) as Hs; unfold collect_visit in E;
    apply bind_Answer in E as (stop_ & [s1 es1] & E1 & E); injection E1 as <- <- <-;
    rewrite Hs, Hk in E; cbn [negb String.eqb] in E; injection E as <- <- <-;
    left; split; [done|]; unfold left_alone; by rewrite Hk.
Qed.

(** The whole visit, which goes through a node's children one after the other. *)
Section Visit.
Context (root here : node) (jumps : jumpTargets) (inFunction : bool).

Definition visits (n : node) : Prop :=
  tidy n -> forall s es s' es',
  InspectM (collect_visit em collect_ root here temps jumps inFunction) n (s, es) = Answer (tt, (s', es')) ->
  failure s' = EmptyString ->
  exists edits text, es' = es ++ edits /\ spell_edits (start n) (stop n) edits text
    /\ rewritten temps (ptr root) (ptr here) jumps inFunction n text.

Lemma visits_unfailed n :
  always (on_state unfailed) (InspectM (collect_visit em collect_ root here temps jumps inFunction) n).
Proof. apply always_InspectM; [apply _|]. intros m. by apply collect_visit_unfailed. Qed.

Lemma visits_children from nodes to s es s' es' :
  Forall visits nodes -> Forall tidy nodes -> follow from nodes to ->
  for_each (InspectM (collect_visit em collect_ root here temps jumps inFunction)) nodes (s, es)
    = Answer (tt, (s', es')) ->
  failure s' = EmptyString ->
  exists edits text, es' = es ++ edits
    /\ spell_edits (offset (em_src em) from) (offset (em_src em) to) edits text
    /\ interleaved (rewritten temps (ptr root) (ptr here) jumps inFunction)
         (offset (em_src em) from) nodes (offset (em_src em) to) text.
Proof.
  intros Hv. revert from s es. induction Hv as [|n nodes Hn _ IH]; intros from s es Ht Hfollow; cbn [for_each].
  - intros [= <- <-] _. cbn in Hfollow. apply offset_mono in Hfollow.
    destruct (spell_edits_gap _ _ Hfollow (offset_le _)) as (gap & Hg & Hs).
    exists [], gap. rewrite app_nil_r. split; [done|]. split; [done|]. by apply interleaved_end.
  - intros ([] & [s1 es1] & E1 & E)%bind_Answer Hf. apply Forall_cons in Ht as [Htn Ht].
    destruct Hfollow as (H1 & H2 & H3).
    assert (failure s1 = EmptyString) as Hf1.
    { assert (always (on_state unfailed) (for_each (InspectM (collect_visit em collect_ root here temps jumps
        inFunction)) nodes)) as Ha by (apply always_for_each; [apply _|]; apply visits_unfailed).
      exact (Ha _ _ _ E Hf). }
    apply (Hn Htn) in E1 as (E1 & t & -> & Hs & Hr); [|done].
    apply (IH (node_End n)) in E as (E2 & t' & -> & Hs' & Hi); [|done..].
    apply offset_mono in H1. destruct (spell_edits_gap _ _ H1 (offset_le _)) as (gap & Hg & Hsg).
    exists (E1 ++ E2), (gap ++ t ++ t')%string. split; [by rewrite app_assoc|]. split.
    + pose proof (spell_edits_app _ _ _ _ _ _ _ Hs Hs') as Ha. exact (spell_edits_app _ _ _ _ _ _ _ Hsg Ha).
    + by apply interleaved_node.
Qed.

Lemma visit_rewritten n : visits n.
Proof.
  induction n as [n IH] using syntax_nested_ind. intros Hn s es s' es' E Hf.
  rewrite InspectM_unfold in E. apply bind_Answer in E as (descend & [s1 es1] & Ev & E).
  inversion Hn as [? Hle Hfollow _ Ht]; subst.
  assert (failure s1 = EmptyString) as Hf1.
  { destruct descend; [|by injection E as <- <-].
    assert (always (on_state unfailed) (for_each (InspectM (collect_visit em collect_ root here temps jumps
      inFunction)) (children n))) as Ha by (apply always_for_each; [apply _|]; apply visits_unfailed).
    exact (Ha _ _ _ E Hf). }
  apply visit_node in Ev; [|done..]. destruct descend; cbn [visited_node] in Ev.
  2:{ by injection E as <- <-. }
  destruct Ev as [[-> Hl]|(Hleaf & t & -> & Hr)].
  2:{ rewrite Hleaf in E. injection E as <- <-. eexists _, _. split; [done|]. split; [by apply spell_edits_one|done]. }
  apply (visits_children _ _ _ _ _ _ _ IH Ht Hfollow) in E as (edits & t & -> & Hs & Hi); [|done].
  exists edits, t. split; [done|]. split; [done|]. by apply rewritten_parts.
Qed.
End Visit.
End Collected.

Lemma collect_collects temps fuel : collects temps (collect em fuel).
Proof.
  induction fuel as [|fuel IH]; intros root n jumps inFunction s es s' es' Hn E Hf; [done|].
  cbn [collect] in E. eapply (visit_rewritten temps (collect em fuel) IH); [|done|exact E|done].
  intros. apply collect_unfailed.
Qed.
(** * The reading of a file's source

    What the rewrite is meant to write, said of the source alone: a node is read at a
    place, which says whether a function literal is around it and what an unlabeled
    break and continue mean there, if not what Go means by them. *)
Record place : Type := MkPlace { in_literal : bool; break_means : string; continue_means : string }.

(** A loop is what both leave, a switch or a select what a break leaves. *)
Definition within (n : node) (p : place) : place :=
  match kind_of n with
  | ForStmt | RangeStmt _ => MkPlace (in_literal p) EmptyString EmptyString
  | SwitchStmt | TypeSwitchStmt | SelectStmt => MkPlace (in_literal p) EmptyString (continue_means p)
  | _ => p
  end.

Definition in_a_literal : place := MkPlace true EmptyString EmptyString.

(** The [x.(type)] of a type switch, in parentheses or not, and the [v := x.(type)]. *)
Inductive asks_type : node -> Prop :=
| asks_assertion e : kind_of e = TypeAssertExpr -> field fType e = None -> asks_type e
| asks_parenthesised e x rest :
    kind_of e = ParenExpr -> children e = x :: rest -> asks_type x -> asks_type e.

Definition guards (n : node) : Prop := exists rhs, fields fRhs n = [rhs] /\ asks_type rhs.

(** A node that is read as it is written, its parts apart. *)
Definition untouched (temps : temporaries) (p : place) (n : node) : Prop :=
  match kind_of n with
  | CallExpr =>
      em_replacements em !! ptr n = None
      /\ (in_literal p = true \/ temps !! ptr n = None /\ steps (em_site em) !! ptr n = None)
  | FuncLit => False
  | ReturnStmt => in_literal p = true \/ forall result, fields fResults n <> [result]
  | BranchStmt Tok =>
      in_literal p = true \/ is_Some (field fLabel n)
      \/ ((Tok = BREAK -> break_means p = EmptyString) /\ (Tok = CONTINUE -> continue_means p = EmptyString))
  | AssignStmt Tok =>
      in_literal p = true \/ Tok <> DEFINE \/ guards n \/ forall expr, expr ∈ fields fLhs n -> reused expr = false
  | _ => True
  end.

Inductive reads (temps : temporaries) : place -> node -> string -> Prop :=
(** A nested [effect.Gen] that was itself rewritten is replaced whole. *)
| reads_gen p n replacement :
    kind_of n = CallExpr -> em_replacements em !! ptr n = Some replacement -> reads temps p n replacement
(** An awaited step is replaced by the name its value was bound to. *)
| reads_step p n name :
    kind_of n = CallExpr -> em_replacements em !! ptr n = None -> in_literal p = false ->
    temps !! ptr n = Some name -> reads temps p n name
(** A return answers its value as an effect. *)
| reads_return p n result value :
    kind_of n = ReturnStmt -> fields fResults n = [result] -> in_literal p = false ->
    reads temps p result value ->
    reads temps p n ("return " ++ em_effect em ++ ".Succeed[" ++ em_r em ++ ", " ++ em_e em ++ ", "
                     ++ em_a em ++ "](" ++ value ++ ")")%string
(** An unlabeled break or continue becomes what it means where it is. *)
| reads_break p n :
    kind_of n = BranchStmt BREAK -> field fLabel n = None -> in_literal p = false ->
    break_means p <> EmptyString -> reads temps p n (break_means p)
| reads_continue p n :
    kind_of n = BranchStmt CONTINUE -> field fLabel n = None -> in_literal p = false ->
    continue_means p <> EmptyString -> reads temps p n (continue_means p)
(** A [:=] that reuses a name declares the new ones and assigns to all. *)
| reads_define p n declarations lefts rights expr :
    kind_of n = AssignStmt DEFINE -> in_literal p = false -> ~ guards n ->
    expr ∈ fields fLhs n -> reused expr = true ->
    declared (fields fLhs n) declarations lefts ->
    Forall2 (reads temps p) (fields fRhs n) rights ->
    reads temps p n (Join declarations EmptyString ++ Join lefts ", " ++ " = " ++ Join rights ", ")%string
(** A function literal's body is read as inside of one. *)
| reads_literal p n body before inside after :
    kind_of n = FuncLit -> field fBody n = Some body ->
    source_between (start n) (start body) = Some before ->
    reads temps in_a_literal body inside ->
    source_between (stop body) (stop n) = Some after ->
    reads temps p n (before ++ inside ++ after)%string
| reads_parts p n text :
    untouched temps p n -> interleaved (reads temps (within n p)) (start n) (children n) (stop n) text ->
    reads temps p n text.

(** ** Trees whose literals are read as literals *)

Definition below (n : node) : list node := visited (fun _ => false) n.

(** Each node has an address of its own, and no function literal is itself a text of
    its own: the node spelled, the value returned or the right side of a [:=]. *)
Record literals_inside (n : node) : Prop := {
  own_addresses : NoDup (map ptr (below n));
  spelled_is_none : kind_of n <> FuncLit;
  returned_is_none : forall m result, m ∈ below n -> kind_of m = ReturnStmt ->
    fields fResults m = [result] -> kind_of result <> FuncLit;
  assigned_is_none : forall m expr, m ∈ below n -> kind_of m = AssignStmt DEFINE ->
    expr ∈ fields fRhs m -> kind_of expr <> FuncLit;
  body_is_none : forall m body, m ∈ below n -> kind_of m = FuncLit -> field fBody m = Some body ->
    kind_of body <> FuncLit
}.

Lemma below_self n : n ∈ below n.
Proof. apply elem_of_visited. by left. Qed.

Lemma below_child n m c : m ∈ below n -> c ∈ children m -> c ∈ below n.
Proof.
  unfold below. induction n as [n IH] using syntax_nested_ind. rewrite !elem_of_visited.
  intros [->|(_ & d & Hd & Hm)] Hc; right; (split; [done|]).
  - exists c. split; [done|]. apply below_self.
  - exists d. split; [done|]. rewrite Forall_forall in IH. by apply IH.
Qed.

Lemma NoDup_map_eq {A B} (f : A -> B) l x y :
  NoDup (map f l) -> x ∈ l -> y ∈ l -> f x = f y -> x = y.
Proof.
  induction l as [|z l IH]; cbn; [intros _ H; by apply elem_of_nil in H|].
  intros [Hz Hl]%NoDup_cons [->|Hx]%elem_of_cons [->|Hy]%elem_of_cons E; [done|..].
  - destruct Hz. rewrite E. by apply list_elem_of_fmap_2.
  - destruct Hz. rewrite <- E. by apply list_elem_of_fmap_2.
  - by apply IH.
Qed.

Lemma asks_type_Unparen e :
  asks_type e <-> kind_of (Unparen e) = TypeAssertExpr /\ field fType (Unparen e) = None.
Proof.
  induction e as [e IH] using syntax_nested_ind. destruct e as [pt k b e' fs]. cbn [children fields_of] in IH.
  destruct (decide (k = ParenExpr)) as [->|Hk].
  - destruct fs as [|[f x] fs].
    + cbn. split; [|by intros [? _]]. inversion 1; subst; done.
    + cbn [Unparen]. apply Forall_cons in IH as [<- _]. split.
      * inversion 1 as [? Hk|? y rest _ Hc Hx]; subst; [done|]. cbn in Hc. by injection Hc as <- _.
      * intros Hx. by eapply (asks_parenthesised _ x (fs.*2)).
  - assert (Unparen (MkNode pt k b e' fs) = MkNode pt k b e' fs) as -> by by destruct k.
    split; [by inversion 1; subst|intros [? ?]; by constructor].
Qed.

Lemma guards_isTypeSwitchGuard n : isTypeSwitchGuard n = true <-> guards n.
Proof.
  unfold isTypeSwitchGuard, guards. destruct (fields fRhs n) as [|rhs [|]].
  - split; [done|by intros (? & ? & _)].
  - rewrite andb_true_iff, bool_decide_eq_true, negb_true_iff, bool_decide_eq_false, <- eq_None_not_Some.
    rewrite <- asks_type_Unparen. split; [by exists rhs|]. by intros (? & [= <-] & ?).
  - split; [done|by intros (? & ? & _)].
Qed.

(** ** What collecting does is that reading *)
Section Reading.
Context (temps : temporaries) (n : node).
Hypothesis shape : literals_inside n.

Definition jumps_of (p : place) : jumpTargets := MkJumps (break_means p) (continue_means p).

Lemma jumpsInside_within m p : jumpsInside m (jumps_of p) = jumps_of (within m p).
Proof. unfold jumpsInside, within. by destruct (kind_of m). Qed.

Lemma within_twice m p : within m (within m p) = within m p.
Proof. unfold within. by destruct (kind_of m). Qed.

Lemma within_literal m p : in_literal (within m p) = in_literal p.
Proof. unfold within. by destruct (kind_of m). Qed.

Lemma same_address m m' : m ∈ below n -> m' ∈ below n -> ptr m = ptr m' -> m = m'.
Proof. apply NoDup_map_eq, shape. Qed.

(** [root] is not a function literal, and [here] is the node or one around it. *)
Definition inside_of (root here : nat) (m : node) : Prop :=
  m ∈ below n
  /\ (exists r, r ∈ below n /\ kind_of r <> FuncLit /\ ptr r = root)
  /\ exists h, h ∈ below n /\ m ∈ below h /\ ptr h = here.

Definition meant (here : nat) (m : node) (p : place) : jumpTargets :=
  jumps_of (if ptr m =? here then within m p else p).

Lemma meant_here m p : meant (ptr m) m p = jumpsInside m (jumps_of p).
Proof. unfold meant. by rewrite Nat.eqb_refl, jumpsInside_within. Qed.

Lemma meant_plainly here m p : within m p = p -> meant here m p = jumps_of p.
Proof. unfold meant. intros E. destruct (_ =? _); by rewrite ?E. Qed.

Lemma inside_of_self m : m ∈ below n -> kind_of m <> FuncLit -> inside_of (ptr m) (ptr m) m.
Proof. intros Hm Hk. split; [done|]. split; exists m; [done|]. split_and!; [done|apply below_self|done]. Qed.

Lemma below_size m c : c ∈ below m -> node_size c <= node_size m.
Proof.
  unfold below. induction m as [m IH] using syntax_nested_ind. rewrite elem_of_visited.
  intros [->|(_ & d & Hd & Hc)]; [done|]. rewrite Forall_forall in IH.
  specialize (IH _ Hd Hc). apply node_size_child in Hd. lia.
Qed.

(** A child is not what is around it. *)
Lemma inside_of_child root here m c :
  inside_of root here m -> c ∈ children m -> inside_of root here c /\ ptr c <> here.
Proof.
  intros (Hm & Hr & h & Hh & Hmh & <-) Hc. pose proof (below_child _ _ _ Hm Hc) as Hcn. split.
  - split; [done|]. split; [done|]. exists h. split; [done|]. split; [|done]. by eapply below_child.
  - intros E. apply same_address in E as ->; [|done..].
    apply below_size in Hmh. apply node_size_child in Hc. lia.
Qed.

Definition read_at (m : node) : Prop := forall root here jumps inFunction p text,
  rewritten temps root here jumps inFunction m text ->
  inside_of root here m -> inFunction = in_literal p -> jumps = meant here m p ->
  reads temps p m text.

(** Parts whose text is one of its own. *)
Lemma read_at_own m p jumps inFunction text :
  read_at m -> m ∈ below n -> kind_of m <> FuncLit -> jumps = jumps_of p -> inFunction = in_literal p ->
  rewritten temps (ptr m) (ptr m) (jumpsInside m jumps) inFunction m text -> reads temps p m text.
Proof.
  intros Hm Hin Hk -> Hf E. eapply Hm; [exact E|by apply inside_of_self|done|by rewrite meant_here].
Qed.

Lemma interleaved_impl (P Q : node -> string -> Prop) from nodes to text :
  (forall m t, m ∈ nodes -> P m t -> Q m t) -> interleaved P from nodes to text -> interleaved Q from nodes to text.
Proof.
  intros HPQ H. induction H as [|from m nodes to gap t rest Hg Ht _ IH]; constructor; [done..| |].
  - apply HPQ; [left|done].
  - apply IH. intros m' t' Hm'. apply HPQ. by right.
Qed.

Lemma Forall2_impl_in {A B} (P Q : A -> B -> Prop) l l' :
  (forall x y, x ∈ l -> P x y -> Q x y) -> Forall2 P l l' -> Forall2 Q l l'.
Proof.
  intros HPQ H. induction H as [|x y l l' Hxy _ IH]; constructor; [apply HPQ; [left|done]|].
  apply IH. intros x' y' Hx'. apply HPQ. by right.
Qed.

Lemma left_alone_untouched root here inFunction p m :
  inside_of root here m -> inFunction = in_literal p ->
  left_alone temps root here (meant here m p) inFunction m = true -> untouched temps p m.
Proof.
  intros (Hm & (r & Hr & Hrk & Hroot) & _) ->. unfold left_alone, untouched. destruct (kind_of m) eqn:Hk; try done.
  - intros Hroot'%Nat.eqb_eq. rewrite <- Hroot in Hroot'. by apply same_address in Hroot' as <-.
  - intros (Hg%bool_decide_eq_true & Hs)%andb_true_iff. split; [done|].
    apply orb_true_iff in Hs as [Hs|(Ht%bool_decide_eq_true & Hs%bool_decide_eq_true)%andb_true_iff]; [by left|by right].
  - intros [[[Hl|Ht]%orb_true_iff|Hg]%orb_true_iff|Hr']%orb_true_iff; [by left|right..].
    + left. by apply negb_true_iff, bool_decide_eq_false in Ht.
    + right. left. by apply guards_isTypeSwitchGuard.
    + right. right. intros expr Hexpr. apply negb_true_iff in Hr'. destruct (reused expr) eqn:E; [|done].
      assert (existsb reused (fields fLhs m) = true); [|congruence].
      apply existsb_exists. exists expr. by rewrite <- list_elem_of_In.
  - intros [Hl|Hr']%orb_true_iff; [by left|right]. intros result E. by rewrite E in Hr'.
  - rewrite meant_plainly by (unfold within; by rewrite Hk). cbn [jumps_of brk cont].
    intros [[Hl|Hf%bool_decide_eq_true]%orb_true_iff|Hj]%orb_true_iff; [by left|by right; left|right; right].
    apply negb_true_iff, orb_false_iff in Hj as [Hb Hc].
    apply andb_false_iff in Hb. apply andb_false_iff in Hc.
    split; intros ->; [destruct Hb as [E|E]|destruct Hc as [E|E]]; try done;
      by apply negb_false_iff, String.eqb_eq in E.
Qed.

Lemma left_alone_within root here inFunction p m :
  left_alone temps root here (meant here m p) inFunction m = true -> meant here m p = jumps_of (within m p).
Proof.
  unfold meant. destruct (ptr m =? here) eqn:Hp; [done|].
  unfold left_alone, within, jumps_of. rewrite Hp.
  destruct (kind_of m); try done; intros [= -> ->]%bool_decide_eq_true; done.
Qed.

Lemma reading m : read_at m.
Proof.
  induction m as [m IH] using syntax_nested_ind. rewrite Forall_forall in IH.
  intros root here jumps inFunction p text H. revert IH p.
  induction H as [root here jumps inFunction m replacement Hk Hg|root here jumps m name Hk Hg Ht
    |root here jumps m result value Hk Hres Hv _|root here jumps m Hk Hl Hb|root here jumps m Hk Hl Hb
    |root here jumps m ds ls rights Hk Hg Hr Hd Hrs
    |root here jumps inFunction m body before inside after Hk Hp Hbody Hbefore Hi _ Hafter
    |root here jumps inFunction m text Hk H IHloop
    |root here jumps inFunction m text Hl Hi]; intros IH p Hin Hf Hj.
  all: try (rewrite meant_plainly in Hj by (unfold within; by rewrite Hk); subst jumps).
  - by apply reads_gen.
  - by apply reads_step.
  - assert (result ∈ children m) as Hc by (apply (fields_children fResults); rewrite Hres; left).
    apply reads_return with result; [done..|]. eapply read_at_own; [by apply IH| | |done|done|exact Hv].
    + eapply below_child; [apply Hin|done].
    + eapply (returned_is_none _ shape m); [apply Hin|done..].
  - by apply reads_break.
  - by apply reads_continue.
  - apply existsb_exists in Hr as (expr & Hexpr%list_elem_of_In & Hr).
    eapply reads_define; [done|done| |done..|].
    + rewrite <- guards_isTypeSwitchGuard. by rewrite Hg.
    + eapply Forall2_impl_in; [|exact Hrs]. intros e t He Ht.
      assert (e ∈ children m) as Hc by by eapply fields_children.
      eapply read_at_own; [by apply IH| | |done|done|exact Ht].
      * eapply below_child; [apply Hin|done].
      * eapply (assigned_is_none _ shape m); [apply Hin|done..].
  - assert (body ∈ children m) as Hc by by eapply fields_children, field_fields.
    eapply reads_literal; [done..| |done]. eapply read_at_own; [by apply IH| | |done|done|exact Hi].
    + eapply below_child; [apply Hin|done].
    + eapply (body_is_none _ shape m); [apply Hin|done..].
  - apply IHloop; [done| |done|].
    + apply inside_of_self; [apply Hin|]. intros Hk'. rewrite Hk' in Hk.
      destruct Hk as [Hk|[? Hk]]; [|done]. rewrite !elem_of_cons, elem_of_nil in Hk. naive_solver.
    + rewrite Hj, meant_here. unfold meant. by destruct (_ =? _); rewrite !jumpsInside_within, ?within_twice.
  - apply reads_parts; [subst jumps; by eapply left_alone_untouched|].
    eapply interleaved_impl; [|exact Hi]. intros c t Hc Ht.
    destruct (inside_of_child _ _ _ _ Hin Hc) as [Hcin Hne%Nat.eqb_neq].
    eapply (IH c Hc); [exact Ht|done|by rewrite within_literal|].
    unfold meant at 1. rewrite Hne. rewrite Hj. subst jumps. by eapply left_alone_within.
Qed.
End Reading.

End Spelling.

(** C14. The text written for a node is its source read part by part, the node not
    itself a function literal. [text] collects edits from the whole tree -- from literals
    and loops inside, with jumps of their own, from the values of returns and the right
    sides of redeclarations, through texts of their own -- and splices them into the
    source at the end; where nothing failed, that is the reading [reads] gives, which
    says of the source alone what is written: a nested rewritten body, an awaited name, a
    return's value, an unlabeled break or continue where no loop or switch of the source
    takes it, a redeclaration; in a function literal only the first; everything else is
    copied, in order, with no edit lost or applied twice. A step that was not awaited has
    no reading. *)
Theorem text_is_rewritten em temps n jumps s text s' :
  literals_inside n -> tidy n ->
  RewriteWalk.text em n temps jumps s = Answer (text, s') -> failure s' = EmptyString ->
  reads em temps (MkPlace false (brk jumps) (cont jumps)) n text.
Proof.
  intros Hshape Hn E Hf.
  apply (text_by_rewritten _ _ _ (collect_collects em temps (node_size n))) in E; [|done..].
  destruct jumps as [b c]. eapply (read_at_own em temps n) with (jumps := MkJumps b c); [|apply below_self| |done|done|exact E].
  - by apply reading.
  - by apply spelled_is_none.
Qed.
