(* ===== verification/RewriteEmit.v ===== *)
(** Bodies as FlatMap chains ([tools/effectgo/rewrite/emit.go], [branch.go],
    [loop.go], [range.go] and [tail.go]).

    Only [list] recurses: every other function takes the [list] it calls. *)

From S2P Require Import Prelude GoStrings GoSyntax RewriteText RewriteNames RewriteSite RewriteEmitter RewriteWalk.

Section Emit.
Context (em : emitter).

Definition em_line (n : node) : string := line (em_src em) n.

Definition needs (stmt : node) : bool := containsStep (em_site em) stmt.

Definition headerHasStep (expr : option node) : bool :=
  match expr with Some expr => containsStep (em_site em) expr | None => false end.

(** What emitting a list of statements takes: what they continue with and what jumps
    become. *)
Definition lister : Type := list node -> string -> jumpTargets -> M emission string.

(** * Statements whose parts are emitted in order ([emit.go]) *)

(** Steps that follow a [do.Fail] count as translated. *)
Definition unreachable (rest : list node) : M emission unit :=
  modify (fun s =>
    let dropped := filter (fun '(_, (call, _)) =>
      existsb (fun stmt => (node_Pos stmt <=? node_Pos call) && (node_End call <=? node_End stmt)) rest = true)
      (steps (em_site em)) in
    MkEmission (em_types s) (dom dropped ∪ emitted s) (failure s) (detached s) (allocated s)).

(** [return do.Await(fx)] of the body's own type. *)
Definition tailStep (stmt : node) : option (node * node) :=
  match kind_of stmt, fields fResults stmt with
  | ReturnStmt, [result] =>
      let call := Unparen result in
      match kind_of call, step_of (em_site em) call with
      | CallExpr, Some (MkStep false argument (Some value)) =>
          if Identical (em_info em) value (site_a (em_site em)) then Some (call, argument) else None
      | _, _ => None
      end
  | _, _ => None
  end.

Definition compound (list_ : lister) (rest : list node) (k : string) (jumps : jumpTargets)
    (emit : string -> M emission string) : M emission string :=
  match rest with
  | [] => emit k
  | _ =>
      name ← em_fresh "continuation";
      let next := ("return " ++ name ++ "()")%string in
      statement ← emit next;
      if negb (Contains statement next) then mret statement
      else
        after ← list_ rest k jumps;
        mret (name ++ " := func() " ++ em_eff em ++ " {" ++ newline ++ after ++ "}" ++ newline ++ statement)%string
  end.

(** [out] is what is written so far, [depth] how many continuations are open. *)
Fixpoint chain_from (own : list node) (inner : temporaries -> M emission string)
    (temps : temporaries) (out : string) (depth : nat) : M emission string :=
  match own with
  | [] =>
      innermost ← inner temps;
      mret (out ++ innermost ++ Repeat ("})" ++ newline) depth)%string
  | call :: own =>
      emits call;;
      match step_of (em_site em) call with
      | Some (MkStep true _ _) => chain_from own inner temps out depth
      | Some (MkStep false argument (Some value)) =>
          name ← em_fresh "awaited";
          typeText ← em_type_text em value;
          match typeText with
          | None =>
              decline "a step's value has a type this file cannot name";;
              mret EmptyString
          | Some typeText =>
              awaited ← text em argument temps no_jumps;
              chain_from own inner (<[ptr call := name]> temps)
                (out ++ "return " ++ em_line call ++ awaited ++ ".FlatMap(func(" ++ name ++ " " ++ typeText
                 ++ ") " ++ em_eff em ++ " {" ++ newline)%string
                (S depth)
          end
      | _ =>
          em_fresh "awaited";;
          decline "a step's value has a type this file cannot name";;
          mret EmptyString
      end
  end.

Definition chain (own : list node) (inner : temporaries -> M emission string) : M emission string :=
  chain_from own inner ∅ EmptyString 0.

Definition simple (stmt : node) (temps : temporaries) : M emission string :=
  let whole :=
    spelled ← text em stmt temps no_jumps;
    mret (em_line stmt ++ spelled ++ newline)%string in
  match kind_of stmt, Unparen <$> field fX stmt with
  | ExprStmt, Some call =>
      match kind_of call, step_of (em_site em) call with
      | CallExpr, Some (MkStep true argument _) =>
          spelled ← text em argument temps no_jumps;
          mret ("return " ++ em_line stmt ++ em_effect em ++ ".Fail[" ++ em_r em ++ ", " ++ em_a em ++ ", "
                ++ em_e em ++ "](" ++ spelled ++ ")" ++ newline)%string
      | CallExpr, Some (MkStep false _ _) =>
          mret ("_ = " ++ default EmptyString (temps !! ptr call) ++ newline)%string
      | _, _ => whole
      end
  | _, _ => whole
  end.

(** * A body that ends in a value ([tail.go]) *)

Definition returnsOrBranches (stmt : node) : bool :=
  Inspect (fun n found =>
    match kind_of n with
    | FuncLit => (false, found)
    | ReturnStmt | BranchStmt _ | IfStmt | SwitchStmt | TypeSwitchStmt | ForStmt | RangeStmt _ | SelectStmt
    | BlockStmt | LabeledStmt | GoStmt | DeferStmt => (false, true)
    | _ => (negb found, found)
    end) stmt false.

Definition endsInValue (own following : list node) : bool :=
  negb (length own =? 0)
  && forallb (fun call => negb (from_option fail false (step_of (em_site em) call))) own
  && forallb (fun next => negb (needs next)) (tail following)
  && forallb (fun before => negb (returnsOrBranches before)) (take (length following - 1) following).

(** What is returned is written from the first to the last of the names. *)
Fixpoint simples (stmts : list node) (temps : temporaries) : M emission string :=
  match stmts with
  | [] => mret EmptyString
  | stmt :: stmts =>
      first ← simple stmt temps;
      others ← simples stmts temps;
      mret (first ++ others)%string
  end.

Definition valueTail (stmt : node) (rest : list node) (k : string) (jumps : jumpTargets) (own : list node) :
    M emission (option string) :=
  let following := stmt :: rest in
  match last following, last own with
  | Some last_, Some final =>
      match kind_of last_, fields fResults last_, step_of (em_site em) final with
      | ReturnStmt, [result], Some (MkStep _ argument (Some answered)) =>
          if negb (String.eqb k EmptyString) || negb (bool_decide (jumps = no_jumps))
             || negb (endsInValue own following)
          then mret None
          else
            value ← em_type_text em answered;
            match value with
            | None => mret None
            | Some value =>
                emits final;;
                chained ← chain (take (length own - 1) own) (fun temps =>
                  name ← em_fresh "awaited";
                  let mapped := <[ptr final := name]> temps in
                  body ← simples (take (length following - 1) following) mapped;
                  returned ← text em result mapped no_jumps;
                  spelled ← text em argument temps no_jumps;
                  mret ("return " ++ em_line final ++ spelled ++ ".Map(func(" ++ name ++ " " ++ value ++ ") "
                        ++ em_a em ++ " {" ++ newline ++ body
                        ++ "return " ++ em_line last_ ++ returned ++ newline ++ "})" ++ newline)%string);
                mret (Some chained)
            end
      | _, _, _ => mret None
      end
  | _, _ => mret None
  end.

(** * Branches ([branch.go]) *)

(** Synthetic nodes have no pointer anything is keyed by. *)
Definition exprsAsStmts (exprs : list node) : list node :=
  map (fun expr => MkNode 0 ExprStmt (node_Pos expr) (node_End expr) [(fX, expr)]) exprs.

Definition block_of (stmts : list node) : node := MkNode 0 BlockStmt 0 0 (map (pair fList) stmts).

Definition hasDefault (body : node) : bool :=
  existsb (fun clause => length (fields fList clause) =? 0) (fields fList body).

(** A copy of a statement without its init, which is a new statement. *)
Definition without_init_field (ptr : nat) (stmt : node) : node :=
  MkNode ptr (kind_of stmt) (node_Pos stmt) (node_End stmt)
    (filter (fun f => f.1 <> fInit) (fields_of stmt)).

Definition detach (stmt : node) : M emission node := fun s =>
  let clone := without_init_field (S (allocated s)) stmt in
  Answer (clone,
    MkEmission (em_types s) (emitted s) (failure s) ({[ptr clone]} ∪ detached s) (S (allocated s))).

Definition withoutInit (stmt : node) : M emission (option (list node)) :=
  let header :=
    match kind_of stmt with
    | IfStmt => Some (field fCond stmt)
    | SwitchStmt => Some (field fTag stmt)
    | TypeSwitchStmt => Some (field fAssign stmt)
    | _ => None
    end in
  match header, field fInit stmt with
  | Some header, Some init =>
      if needs init || headerHasStep header then clone ← detach stmt; mret (Some [init; clone])
      else mret None
  | _, _ => mret None
  end.

Definition clause_text (list_ : lister) (clause : node) (temps : temporaries) (k : string) (outer : jumpTargets) :
    M emission (option string) :=
  if containsStep (em_site em) (block_of (exprsAsStmts (fields fList clause))) then
    decline "a step is in a case expression, which is evaluated only until one matches";;
    mret None
  else
    header ←
      (match fields fList clause with
       | [] => mret ("default:" ++ newline)%string
       | exprs =>
           cases ← mapM (fun expr => text em expr temps no_jumps) exprs;
           mret ("case " ++ Join cases ", " ++ ":" ++ newline)%string
       end);
    body ← list_ (fields fBody clause) k (MkJumps k (cont outer));
    mret (Some (header ++ body)%string).

(** The clauses' texts, until one declines. *)
Fixpoint clause_texts (list_ : lister) (clauses : list node) (temps : temporaries) (k : string)
    (outer : jumpTargets) (out : string) : M emission (option string) :=
  match clauses with
  | [] => mret (Some out)
  | clause :: clauses =>
      clause ← clause_text list_ clause temps k outer;
      match clause with
      | None => mret None
      | Some clause => clause_texts list_ clauses temps k outer (out ++ clause)%string
      end
  end.

Definition switchStatement (list_ : lister) (header : string) (body : node) (temps : temporaries) (k : string)
    (outer : jumpTargets) : M emission string :=
  clauses ← clause_texts list_ (fields fList body) temps k outer (header ++ " {" ++ newline)%string;
  match clauses with
  | None => mret EmptyString
  | Some out =>
      mret (out ++ "}" ++ newline
            ++ if negb (String.eqb k EmptyString) && negb (hasDefault body) then k ++ newline else EmptyString)%string
  end.

(** The init a header still holds, before what follows it. *)
Definition init_text (stmt : node) (temps : temporaries) : M emission string :=
  match field fInit stmt with
  | Some init => spelled ← text em init temps no_jumps; mret (spelled ++ "; ")%string
  | None => mret EmptyString
  end.

Definition option_text (expr : option node) (temps : temporaries) : M emission string :=
  match expr with Some expr => text em expr temps no_jumps | None => mret EmptyString end.

Definition ifStatement (list_ : lister) (stmt : node) (temps : temporaries) (k : string) (jumps : jumpTargets) :
    M emission string :=
  init ← init_text stmt temps;
  condition ← (expr ← or_panic (field fCond stmt); text em expr temps no_jumps);
  body ← or_panic (field fBody stmt);
  consequence ← list_ (fields fList body) k jumps;
  let out := (em_line stmt ++ "if " ++ init ++ condition ++ " {" ++ newline ++ consequence ++ "}")%string in
  alternative ←
    (match field fElse stmt with
     | None =>
         mret (if negb (String.eqb k EmptyString) then " else {" ++ newline ++ k ++ newline ++ "}" else EmptyString)%string
     | Some alternative =>
         match kind_of alternative with
         | BlockStmt =>
             inside ← list_ (fields fList alternative) k jumps;
             mret (" else {" ++ newline ++ inside ++ "}")%string
         | IfStmt =>
             inside ← list_ [alternative] k jumps;
             mret (" else {" ++ newline ++ inside ++ "}")%string
         | _ => mret EmptyString
         end
     end);
  mret (out ++ alternative ++ newline)%string.

Definition branch (list_ : lister) (stmt : node) (temps : temporaries) (k : string) (jumps : jumpTargets) :
    M emission string :=
  match kind_of stmt with
  | BlockStmt =>
      inside ← list_ (fields fList stmt) k jumps;
      mret ("{" ++ newline ++ inside ++ "}" ++ newline)%string
  | IfStmt => ifStatement list_ stmt temps k jumps
  | SwitchStmt =>
      init ← init_text stmt temps;
      tag ← option_text (field fTag stmt) temps;
      body ← or_panic (field fBody stmt);
      switchStatement list_ ("switch " ++ init ++ tag)%string body temps k jumps
  | TypeSwitchStmt =>
      init ← init_text stmt temps;
      assign ← (guard ← or_panic (field fAssign stmt); text em guard temps no_jumps);
      body ← or_panic (field fBody stmt);
      switchStatement list_ ("switch " ++ init ++ assign)%string body temps k jumps
  | _ =>
      decline "an unexpected statement holds a step";;
      mret EmptyString
  end.

(** * Loops ([loop.go]) *)

(** The names one loop's two functions have, and what they take. *)
Record loop : Type := MkLoop { run : string; loop_next : string; params : list string; args : list string }.

Definition signature (lp : loop) : string := ("func(" ++ Join (params lp) ", " ++ ") " ++ em_eff em)%string.
Definition loop_call (lp : loop) (name : string) : string := (name ++ "(" ++ Join (args lp) ", " ++ ")")%string.

Definition declare (lp : loop) : string :=
  ("var " ++ run lp ++ ", " ++ loop_next lp ++ " " ++ signature lp ++ newline)%string.

Definition again (lp : loop) : string :=
  ("return " ++ em_effect em ++ ".Suspend[" ++ em_r em ++ ", " ++ em_e em ++ ", " ++ em_a em ++ "](func() "
   ++ em_eff em ++ " { return " ++ loop_call lp (run lp) ++ " })")%string.

(** The variables a loop declares, each with its type. *)
Fixpoint loop_vars (vars : list (option node)) (lp : loop) : M emission (option loop) :=
  match vars with
  | [] => mret (Some lp)
  | ident :: vars =>
      match ident, ident ≫= (fun ident => Defs (em_info em) (ptr ident)) with
      | Some ident, Some object =>
          let Name := ident_Name ident in
          if String.eqb Name "_" then loop_vars vars lp
          else
            typeText ← em_type_text em (object_Type object);
            match typeText with
            | None =>
                decline "a loop variable has a type this file cannot name";;
                mret None
            | Some typeText =>
                loop_vars vars (MkLoop (run lp) (loop_next lp)
                  (params lp ++ [Name ++ " " ++ typeText]%string) (args lp ++ [Name]))
            end
      | _, _ => loop_vars vars lp
      end
  end.

Definition newLoop (vars : list (option node)) : M emission (option loop) :=
  run ← em_fresh "iteration";
  next ← em_fresh "advance";
  loop_vars vars (MkLoop run next [] []).

(** A part of a loop's header, written on a line of its own. *)
Definition part_text (part : option node) (before after : string) : M emission string :=
  match part with
  | Some part =>
      spelled ← text em part ∅ no_jumps;
      mret (before ++ em_line part ++ spelled ++ after)%string
  | None => mret EmptyString
  end.

Definition forLoop (list_ : lister) (stmt : node) (after : string) : M emission string :=
  if existsb (containsStep (em_site em)) (fields fInit stmt ++ fields fCond stmt ++ fields fPost stmt) then
    decline "a step is in a loop's init, condition or post statement";;
    mret EmptyString
  else
    let vars :=
      match field fInit stmt with
      | Some assign => if bool_decide (kind_of assign = AssignStmt DEFINE) then map identOf (fields fLhs assign) else []
      | None => []
      end in
    lp ← newLoop vars;
    match lp with
    | None => mret EmptyString
    | Some lp =>
        let cont := ("return " ++ loop_call lp (loop_next lp))%string in
        init ← part_text (field fInit stmt) EmptyString newline;
        post ← part_text (field fPost stmt) EmptyString newline;
        cond ← part_text (field fCond stmt) "if !(" (") {" ++ newline ++ after ++ newline ++ "}" ++ newline)%string;
        body ← or_panic (field fBody stmt);
        inside ← list_ (fields fList body) cont (MkJumps after cont);
        mret ("return func() " ++ em_eff em ++ " {" ++ newline
              ++ init
              ++ declare lp
              ++ loop_next lp ++ " = " ++ signature lp ++ " {" ++ newline
              ++ post
              ++ again lp ++ newline ++ "}" ++ newline
              ++ run lp ++ " = " ++ signature lp ++ " {" ++ newline
              ++ cond
              ++ inside
              ++ "}" ++ newline ++ "return " ++ loop_call lp (run lp) ++ newline ++ "}()" ++ newline)%string
    end.

(** * Ranges ([range.go]) *)

Inductive range_kind : Type := integer | indexed | channel.

#[export] Instance range_kind_eq_dec : EqDecision range_kind.
Proof. solve_decision. Defined.

(** [None] for what is not translated: a map, a string, a function. *)
Definition rangeKind (t : gotype) : option range_kind :=
  match Underlying (em_info em) t with
  | Basic _ is_integer _ => if is_integer then Some integer else None
  | Slice _ _ | Array _ _ => Some indexed
  | Pointer _ elem => match Underlying (em_info em) elem with Array _ _ => Some indexed | _ => None end
  | TypeChan _ _ => Some channel
  | _ => None
  end.

Definition hasCall (expr : node) : bool :=
  Inspect (fun n found => let found := found || bool_decide (kind_of n = CallExpr) in (negb found, found)) expr false.

Definition integerType (expr : node) : M emission (option string) :=
  match TypeOf (em_info em) (ptr expr) with
  | Basic _ _ true => mret (Some "int")
  | t =>
      typeText ← em_type_text em t;
      match typeText with
      | None => decline "a range's integer has a type this file cannot name";; mret None
      | Some typeText => mret (Some typeText)
      end
  end.

Definition range_bind (stmt : node) (targets : list node) (values : list string) : M emission string :=
  lefts ← mapM (fun expr => text em expr ∅ no_jumps) targets;
  if forallb (fun left_ => String.eqb left_ "_") lefts then mret EmptyString
  else
    let operator := if bool_decide (kind_of stmt = RangeStmt DEFINE) then " := " else " = " in
    mret (Join lefts ", " ++ operator ++ Join values ", " ++ newline)%string.

(** [values[:len(targets)]]. *)
Definition first_values (values : list string) (count : nat) : option (list string) :=
  if count <=? length values then Some (take count values) else None.

Definition iterationVariables (stmt : node) (kind : range_kind) (collection index after : string) :
    M emission string :=
  let bound (values : list string) :=
    match fields fKey stmt ++ fields fValue stmt with
    | [] => mret EmptyString
    | targets =>
        values ← or_panic (first_values values (length targets));
        range_bind stmt targets values
    end in
  match kind with
  | channel =>
      item ← em_fresh "received";
      open ← em_fresh "open";
      let out := (item ++ ", " ++ open ++ " := <-" ++ collection ++ newline
                  ++ "if !" ++ open ++ " {" ++ newline ++ after ++ newline ++ "}" ++ newline)%string in
      match field fKey stmt with
      | None => mret (out ++ "_ = " ++ item ++ newline)%string
      | Some key =>
          binding ← range_bind stmt [key] [item];
          mret (out ++ binding)%string
      end
  | integer => bound [index]
  | indexed => bound [index; collection ++ "[" ++ index ++ "]"]%string
  end.

(** The loop's functions around what is specific to a kind of collection. *)
Definition rangeBody (list_ : lister) (stmt : node) (kind : range_kind) (over after : string) : M emission string :=
  collection ← em_fresh "ranged";
  index ← em_fresh "index";
  x ← or_panic (field fX stmt);
  indexType ← (match kind with integer => integerType x | _ => mret (Some "int") end);
  match indexType with
  | None => mret EmptyString
  | Some indexType =>
      let header :=
        match kind with
        | integer => collection ++ " := " ++ indexType ++ "(" ++ over ++ ")" ++ newline
        | indexed | channel => collection ++ " := " ++ over ++ newline
        end%string in
      let bound :=
        match kind with
        | integer => "if " ++ index ++ " >= " ++ collection ++ " {" ++ newline ++ after ++ newline ++ "}" ++ newline
        | indexed =>
            "if " ++ index ++ " >= len(" ++ collection ++ ") {" ++ newline ++ after ++ newline ++ "}" ++ newline
        | channel => EmptyString
        end%string in
      run ← em_fresh "iteration";
      next ← em_fresh "advance";
      let counted := negb (bool_decide (kind = channel)) in
      let lp := MkLoop run next (if counted then [index ++ " " ++ indexType]%string else [])
                  (if counted then [index] else []) in
      let cont := ("return " ++ loop_call lp next)%string in
      variables ← iterationVariables stmt kind collection index after;
      body ← or_panic (field fBody stmt);
      inside ← list_ (fields fList body) cont (MkJumps after cont);
      mret ("return func() " ++ em_eff em ++ " {" ++ newline ++ header ++ declare lp
            ++ next ++ " = " ++ signature lp ++ " {" ++ newline
            ++ (if counted then index ++ "++" ++ newline else EmptyString)
            ++ again lp ++ newline ++ "}" ++ newline
            ++ run ++ " = " ++ signature lp ++ " {" ++ newline ++ bound
            ++ em_line stmt ++ variables
            ++ inside
            ++ "}" ++ newline ++ "return " ++ run ++ (if counted then "(0)" else "()")
            ++ newline ++ "}()" ++ newline)%string
  end.

Definition rangeLoop (list_ : lister) (stmt : node) (after : string) : M emission string :=
  x ← or_panic (field fX stmt);
  let ranged := TypeOf (em_info em) (ptr x) in
  match rangeKind ranged with
  | None =>
      decline "a step is inside a range over a map, a string or a function";;
      mret EmptyString
  | Some kind =>
      let isSlice := match Underlying (em_info em) ranged with Slice _ _ => true | _ => false end in
      if bool_decide (kind = indexed) && negb (bool_decide (is_Some (field fValue stmt))) && hasCall x
         && negb isSlice
      then
        decline "a range over an array with only a key, which Go does not evaluate";;
        mret EmptyString
      else
        own ← ownSteps em (MkNode 0 ExprStmt (node_Pos x) (node_End x) [(fX, x)]);
        chain own (fun temps =>
          over ← text em x temps no_jumps;
          rangeBody list_ stmt kind over after)
  end.

(** * Lists of statements ([emit.go]) *)

(** A statement with its own steps awaited before it. *)
Definition own_statement (list_ : lister) (stmt : node) (rest : list node) (k : string) (jumps : jumpTargets)
    (own : list node) : M emission string :=
  match tailStep stmt with
  | Some (call, argument) =>
      emits call;;
      own ← or_panic (if length own =? 0 then None else Some (take (length own - 1) own));
      chain own (fun temps =>
        spelled ← text em argument temps no_jumps;
        mret ("return " ++ em_line stmt ++ spelled ++ newline)%string)
  | None =>
      if bool_decide (kind_of stmt ∈ [IfStmt; SwitchStmt; TypeSwitchStmt; BlockStmt]) then
        compound list_ rest k jumps (fun next => chain own (fun temps => branch list_ stmt temps next jumps))
      else
        tail ← valueTail stmt rest k jumps own;
        match tail with
        | Some tail => mret tail
        | None =>
            chain own (fun temps =>
              if terminates em stmt jumps then unreachable rest;; simple stmt temps
              else
                first ← simple stmt temps;
                others ← list_ rest k jumps;
                mret (first ++ others)%string)
        end
  end.

(** A statement that is not split from an init. *)
Definition whole_statement (list_ : lister) (stmt : node) (rest : list node) (k : string) (jumps : jumpTargets) :
    M emission string :=
  match kind_of stmt with
  | ForStmt => compound list_ rest k jumps (forLoop list_ stmt)
  | RangeStmt _ => compound list_ rest k jumps (rangeLoop list_ stmt)
  | _ =>
      own ← ownSteps em stmt;
      stop ← failed;
      if stop : bool then mret EmptyString else own_statement list_ stmt rest k jumps own
  end.

(** One statement that holds a step, and everything after it. *)
Definition statement (list_ : lister) (stmt : node) (rest : list node) (k : string) (jumps : jumpTargets) :
    M emission string :=
  split_ ← withoutInit stmt;
  match split_ with
  | Some stmts =>
      compound list_ rest k jumps (fun next =>
        inner ← list_ stmts next jumps;
        mret ("return func() " ++ em_eff em ++ " {" ++ newline ++ inner ++ "}()" ++ newline)%string)
  | None => whole_statement list_ stmt rest k jumps
  end.

(** What is left of the list, after what is written so far. *)
Fixpoint list_from (list_ : lister) (stmts : list node) (k : string) (jumps : jumpTargets)
    (out : string) (left_ : list node) : M emission string :=
  match left_ with
  | [] =>
      let falls :=
        match last stmts with
        | Some stmt => negb (terminates em stmt jumps)
        | None => true
        end in
      mret (if negb (String.eqb k EmptyString) && falls then out ++ k ++ newline else out)%string
  | stmt :: rest =>
      stop ← failed;
      if stop : bool then mret EmptyString
      else if needs stmt then
        spelled ← statement list_ stmt rest k jumps;
        mret (out ++ spelled)%string
      else
        detached ← gets detached;
        if bool_decide (ptr stmt ∈ detached) then
          spelled ← branch list_ stmt ∅ EmptyString jumps;
          list_from list_ stmts k jumps (out ++ spelled)%string rest
        else
          spelled ← text em stmt ∅ jumps;
          list_from list_ stmts k jumps (out ++ em_line stmt ++ spelled ++ newline)%string rest
  end.

Fixpoint em_list (fuel : nat) (stmts : list node) (k : string) (jumps : jumpTargets) : M emission string :=
  match fuel with
  | O => exhausted
  | S fuel => list_from (em_list fuel) stmts k jumps EmptyString stmts
  end.

(** What [list] recurses on shrinks by this: a node counts one, and an init one more,
    since a statement is split from it. *)
Fixpoint weight (n : node) : nat :=
  match n with
  | MkNode _ _ _ _ fs =>
      S ((fix go (l : list (field_name * node)) : nat :=
            match l with
            | [] => 0
            | (f, c) :: l => weight c + (if decide (f = fInit) then 1 else 0) + go l
            end) fs)
  end.

Definition list_weight (stmts : list node) : nat := sum_list (map weight stmts).

(** The whole replacement for the call. *)
Definition body : M emission string :=
  literal_body ← or_panic (field fBody (site_literal (em_site em)));
  let stmts := fields fList literal_body in
  inside ← em_list (S (list_weight stmts)) stmts EmptyString no_jumps;
  s ← get;
  (if bool_decide (dom (steps (em_site em)) ⊆ emitted s) then mret tt
   else decline "a step is in a position this rewrite does not translate");;
  mret (em_effect em ++ ".Suspend[" ++ em_r em ++ ", " ++ em_e em ++ ", " ++ em_a em ++ "](func() " ++ em_eff em
        ++ " {" ++ newline ++ inside ++ "})")%string.
End Emit.
