(* ===== verification/RewriteFile.v ===== *)
(** One file's rewrite ([tools/effectgo/rewrite/file.go]): what comes of every call
    of [effect.Gen], which edits the file gets, and what a site that is declined leaves
    behind. *)

From stdpp Require Import sorting.
From S2P Require Import Prelude GoStrings ConfigSource GoSyntax RewriteText RewriteNames RewriteSite RewriteEmitter RewriteWalk RewriteEmit.
From Stdlib Require Import Ascii Sorted.

(** A body left as it was, and why. *)
Record Decline : Type := MkDecline { Decline_Position : Z * Z; Reason : string }.

Record Result : Type := MkResult { Source : option string; Rewrites : nat; Declines : list Decline }.

(** [strconv.Quote] of an import path, which has neither control characters nor
    bytes above ASCII. *)
Fixpoint escape (s : string) : string :=
  match s with
  | EmptyString => EmptyString
  | String a s =>
      if (nat_of_ascii a =? 34) || (nat_of_ascii a =? 92)
      then String (ascii_of_nat 92) (String a (escape s)) else String a (escape s)
  end.
Definition Quote (s : string) : string := (quote ++ escape s ++ quote)%string.

(** The largest pointer in a tree: nodes allocated later are above it. *)
Fixpoint max_ptr (n : node) : nat :=
  match n with
  | MkNode p _ _ _ fs =>
      p `max` (fix go (l : list (field_name * node)) : nat :=
                 match l with [] => 0 | (_, c) :: l => max_ptr c `max` go l end) fs
  end.

Section File.
Context (src : source) (info : Info).

(** Replacements by the pointer of the call they replace. *)
Definition replacements : Type := gmap nat (node * string).

(** A declined site leaves no import behind. *)
Definition restored (before : gmap string string) (reason : string) : M typeNames (string * string) :=
  set_additions before;; mret (EmptyString, reason).

Definition rewriteSite (replaced : replacements) (call : node) : M typeNames (string * string) :=
  found ← (fun tn => match findSite info call with
                     | Answer found => Answer (found, tn) | Panics => Panics | Exhausted => Exhausted end);
  match found with
  | inr reason => mret (EmptyString, reason)
  | inl site =>
      literal_body ← or_panic (field fBody (site_literal site));
      let reason := declineReason site literal_body in
      if negb (String.eqb reason EmptyString) then mret (EmptyString, reason)
      else
        before ← gets tn_additions;
        forSite info (site_literal site) (site_call site);;
        effect ← packageName effectPath "effect";
        let unnamed := "a channel has a type this file cannot name" in
        r ← type_text info (site_r site);
        match r with
        | None => restored before unnamed
        | Some r =>
        e ← type_text info (site_e site);
        match e with
        | None => restored before unnamed
        | Some e =>
        a ← type_text info (site_a site);
        match a with
        | None => restored before unnamed
        | Some a =>
            let eff := (effect ++ ".Effect[" ++ r ++ ", " ++ e ++ ", " ++ a ++ "]")%string in
            let em := MkEmitter src info site (snd <$> replaced) effect r e a eff in
            written ← (fun tn =>
              match body em (MkEmission tn ∅ EmptyString ∅ (max_ptr call)) with
              | Answer (text, s) => Answer ((text, failure s), em_types s)
              | Panics => Panics
              | Exhausted => Exhausted
              end);
            let '(text, failure) := written in
            if negb (String.eqb failure EmptyString) then restored before failure
            else mret (text ++ line_directive src (node_End call), EmptyString)%string
        end end end
  end.

Definition insideAny (call : node) (others : replacements) : bool :=
  existsb (fun '(_, (other, _)) =>
    negb (ptr other =? ptr call) && (node_Pos other <=? node_Pos call) && (node_End call <=? node_End other))
    (map_to_list others).

(** The calls of [effect.Gen], innermost first. *)
Definition gen_calls (file : file) : list node :=
  rev (Inspect (fun n calls =>
    (true, if bool_decide (kind_of n = CallExpr) && isGen info n then calls ++ [n] else calls))
    (file_node file) []).

Definition importEdits (file : file) (tn : typeNames) (edits : list edit) : list edit :=
  match last (filter (fun decl => kind_of decl = GenDecl IMPORT) (fields fDecls (file_node file))) with
  | None => []
  | Some last_ =>
      let text := foldl (fun text path =>
        let alias := default EmptyString (tn_additions tn !! path) in
        if existsb (fun replacement => Contains (edit_text replacement) (alias ++ ".")) edits
        then text ++ "; import " ++ alias ++ " " ++ Quote path else text)%string
        EmptyString (keysOf (tn_additions tn)) in
      if String.eqb text EmptyString then []
      else let at_ := offset src (node_End last_) in [MkEdit at_ at_ text]
  end.

(** One call of the loop. *)
Definition rewrite_call (so_far : replacements * nat * list Decline) (call : node) :
    M typeNames (replacements * nat * list Decline) :=
  let '(replaced, rewrites, declines) := so_far in
  '(replacement, reason) ← rewriteSite replaced call;
  if negb (String.eqb reason EmptyString)
  then mret (replaced, rewrites, declines ++ [MkDecline (source_Position src (node_Pos call)) reason])
  else mret (<[ptr call := (call, replacement)]> replaced, S rewrites, declines).

Fixpoint rewrite_calls (so_far : replacements * nat * list Decline) (calls : list node) :
    M typeNames (replacements * nat * list Decline) :=
  match calls with
  | [] => mret so_far
  | call :: calls => so_far ← rewrite_call so_far call; rewrite_calls so_far calls
  end.

(** The edits of the outermost replacements: their text holds the rest. *)
Definition outermost (replaced : replacements) : list edit :=
  omap (fun '(_, (call, replacement)) =>
    if insideAny call replaced then None
    else Some (MkEdit (offset src (node_Pos call)) (offset src (node_End call)) replacement))
    (map_to_list replaced).

Definition File (file : file) (pkg : package) : answer Result :=
  match rewrite_calls (∅, 0, []) (gen_calls file) (newTypeNames file info pkg (newNames file)) with
  | Answer ((replaced, rewrites, declines), tn) =>
      if rewrites =? 0 then Answer (MkResult None rewrites declines)
      else
        let edits := outermost replaced in
        let edits := edits ++ importEdits file tn edits in
        match splice src 0 (String.length (source_text src)) edits with
        | Some text => Answer (MkResult (Some text) rewrites declines)
        | None => Panics
        end
  | Panics => Panics
  | Exhausted => Exhausted
  end.
End File.

Lemma restored_answer before reason tn text reason' tn' :
  restored before reason tn = Answer ((text, reason'), tn') -> text = EmptyString /\ tn_additions tn' = before.
Proof. unfold restored, set_additions, modify, mbind, M_bind. by intros [= <- _ <-]. Qed.

(** A declined site leaves no import behind: whatever rewriting it named on the way
    -- the effect package, the types of its channels, of its steps and variables -- the
    imports to add are those there were before, and the file's own too. *)
Theorem declined_site_leaves_no_import src info replaced call tn text reason tn' :
  rewriteSite src info replaced call tn = Answer ((text, reason), tn') -> reason <> EmptyString ->
  text = EmptyString /\ tn_additions tn' = tn_additions tn.
Proof.
  intros E Hr. unfold rewriteSite in E. apply bind_Answer in E as (found & tn1 & E1 & E).
  destruct (findSite info call) as [f| |]; [|done..]. injection E1 as -> ->.
  destruct found as [st|reason']; [|by injection E as <- <- <-].
  apply bind_Answer in E as (body_ & tn2 & E2 & E). unfold or_panic in E2.
  destruct (field fBody _); [|done]. injection E2 as -> ->.
  destruct (negb _); [by injection E as <- <- <-|].
  apply bind_Answer in E as (before & tn3 & [= <- <-] & E).
  apply bind_Answer in E as (u & tn4 & _ & E). apply bind_Answer in E as (effect & tn5 & _ & E).
  apply bind_Answer in E as (r & tn6 & _ & E). destruct r as [r|]; [|by eapply restored_answer].
  apply bind_Answer in E as (e & tn7 & _ & E). destruct e as [e|]; [|by eapply restored_answer].
  apply bind_Answer in E as (a & tn8 & _ & E). destruct a as [a|]; [|by eapply restored_answer].
  apply bind_Answer in E as ([written failure_] & tn9 & _ & E).
  destruct (negb _); [by eapply restored_answer|]. by injection E as <- <- <-.
Qed.

(** * What is rewritten, and with what *)
Section Rewriting.
Context (src : source) (info : Info).

(** The text of a call that was replaced: its body as the emitter writes it, with the
    bodies replaced so far in the place of theirs, and where the source goes on. *)
Definition written (replaced : replacements) (call : node) (text : string) : Prop :=
  exists site em s body_text s',
    findSite info call = Answer (inl site)
    /\ em_src em = src /\ em_info em = info /\ em_site em = site /\ em_replacements em = snd <$> replaced
    /\ em_eff em = (em_effect em ++ ".Effect[" ++ em_r em ++ ", " ++ em_e em ++ ", " ++ em_a em ++ "]")%string
    /\ failure s = EmptyString /\ body em s = Answer (body_text, s') /\ failure s' = EmptyString
    /\ text = (body_text ++ line_directive src (node_End call))%string.

(** Calls rewritten one after the other: what came of each, a text or a reason. A
    declined one leaves no import behind. *)
Inductive rewriting : replacements -> typeNames -> list node -> list (node * (string + string)) -> typeNames -> Prop :=
| rewriting_done replaced tn : rewriting replaced tn [] [] tn
| rewriting_body replaced tn call calls text tn1 outcomes tn' :
    rewriteSite src info replaced call tn = Answer ((text, EmptyString), tn1) -> written replaced call text ->
    rewriting (<[ptr call := (call, text)]> replaced) tn1 calls outcomes tn' ->
    rewriting replaced tn (call :: calls) ((call, inl text) :: outcomes) tn'
| rewriting_declined replaced tn call calls text reason tn1 outcomes tn' :
    rewriteSite src info replaced call tn = Answer ((text, reason), tn1) -> reason <> EmptyString ->
    tn_additions tn1 = tn_additions tn ->
    rewriting replaced tn1 calls outcomes tn' ->
    rewriting replaced tn (call :: calls) ((call, inr reason) :: outcomes) tn'.

Definition rewritten_ones (outcomes : list (node * (string + string))) : list (node * string) :=
  omap (fun '(call, outcome) => match outcome with inl text => Some (call, text) | inr _ => None end) outcomes.
Definition declined_ones (outcomes : list (node * (string + string))) : list Decline :=
  omap (fun '(call, outcome) =>
    match outcome with inl _ => None | inr reason => Some (MkDecline (source_Position src (node_Pos call)) reason) end)
    outcomes.

Lemma findSite_reason call reason :
  isGen info call = true -> findSite info call = Answer (inr reason) -> reason <> EmptyString.
Proof.
  unfold findSite. intros -> . cbn [negb]. destruct (fields fArgs call); [done|].
  destruct (negb _); [by intros [= <-]|].
  destruct (fields fList <$> (_ ≫= field fResults)) as [[|result [|]]|]; try by intros [= <-].
  destruct (0 <? _); [by intros [= <-]|].
  destruct (TypeOf _ _) as [? ? args| | | | | | | | | | | |]; try by intros [= <-].
  destruct args as [|r [|e [|a [|]]]]; try by intros [= <-].
  destruct (collectSteps _ _ _) as [[found why]| |]; [|done..].
  destruct (String.eqb_spec why EmptyString); [done|]. by intros [= <-].
Qed.

Lemma restored_not_written before reason text tn tn' :
  reason <> EmptyString -> restored before reason tn <> Answer ((text, EmptyString), tn').
Proof. unfold restored, set_additions, modify, mbind, M_bind. intros Hr [= _ E _]. done. Qed.

Lemma rewriteSite_written replaced call tn text tn' :
  isGen info call = true -> rewriteSite src info replaced call tn = Answer ((text, EmptyString), tn') ->
  written replaced call text.
Proof.
  intros Hgen E. unfold rewriteSite in E. apply bind_Answer in E as (found & tn1 & E1 & E).
  destruct (findSite info call) as [f| |] eqn:Hsite; [|done..]. injection E1 as -> ->.
  destruct found as [st|reason']; [|injection E as _ -> _; by apply findSite_reason in Hsite].
  apply bind_Answer in E as (body_ & tn2 & _ & E).
  destruct (String.eqb_spec (declineReason st body_) EmptyString) as [_|Hr]; [cbn [negb] in E|by injection E].
  apply bind_Answer in E as (before & tn3 & _ & E). apply bind_Answer in E as (u & tn4 & _ & E).
  apply bind_Answer in E as (effect & tn5 & _ & E).
  apply bind_Answer in E as (r & tn6 & _ & E). destruct r as [r|]; [|by apply restored_not_written in E].
  apply bind_Answer in E as (e & tn7 & _ & E). destruct e as [e|]; [|by apply restored_not_written in E].
  apply bind_Answer in E as (a & tn8 & _ & E). destruct a as [a|]; [|by apply restored_not_written in E].
  apply bind_Answer in E as ([body_text failure_] & tn9 & Ew & E).
  destruct (String.eqb_spec failure_ EmptyString) as [->|Hf]; cbn [negb] in E; [|by apply restored_not_written in E].
  injection E as <- _. destruct (RewriteEmit.body _ _) as [[t s']| |] eqn:Hb; [|done..]. injection Ew as -> Hf _.
  by eexists st, _, _, body_text, s'; split_and!; [exact Hsite|..|exact Hb|exact Hf|reflexivity].
Qed.

Lemma rewrite_calls_rewriting calls so_far tn so_far' tn' :
  (forall call, call ∈ calls -> isGen info call = true) ->
  rewrite_calls src info so_far calls tn = Answer (so_far', tn') ->
  exists outcomes, rewriting so_far.1.1 tn calls outcomes tn' /\ map fst outcomes = calls
    /\ so_far' = (foldl (fun replaced '(call, text) => <[ptr call := (call, text)]> replaced) so_far.1.1
                    (rewritten_ones outcomes),
                  so_far.1.2 + length (rewritten_ones outcomes), so_far.2 ++ declined_ones outcomes).
Proof.
  revert so_far tn. induction calls as [|call calls IH]; intros [[replaced rewrites] declines] tn Hgen; cbn [rewrite_calls].
  { intros [= <- <-]. exists []. split; [constructor|]. cbn. split; [done|]. by rewrite Nat.add_0_r, app_nil_r. }
  intros (mid & tn1 & E1 & E)%bind_Answer. unfold rewrite_call in E1.
  apply bind_Answer in E1 as ([text reason] & tn2 & Es & E1).
  destruct (String.eqb_spec reason EmptyString) as [->|Hr]; cbn [negb] in E1; injection E1 as <- <-;
    apply IH in E as (outcomes & Ho & Hm & ->); try (intros; apply Hgen; by right); cbn [fst snd] in *.
  - exists ((call, inl text) :: outcomes). split; [|split; [cbn; by f_equal|]].
    + eapply rewriting_body; [done| |done]. eapply rewriteSite_written; [|done]. apply Hgen. left.
    + cbn. by rewrite Nat.add_succ_r.
  - exists ((call, inr reason) :: outcomes). split; [|split; [cbn; by f_equal|]].
    + eapply rewriting_declined; [done..| |done]. by eapply declined_site_leaves_no_import.
    + cbn. by rewrite <- app_assoc.
Qed.
End Rewriting.

(** * Which replacements are edits *)

Definition within_ (n m : node) : Prop := node_Pos m <= node_Pos n /\ node_End n <= node_End m.

(** Calls of one file: each has an extent, and two of them are apart or one is properly
    inside the other. *)
Definition nested_calls (calls : list node) : Prop :=
  forall c d, c ∈ calls -> d ∈ calls ->
  node_Pos c < node_End c
  /\ (ptr c = ptr d -> c = d)
  /\ (c <> d -> node_End c <= node_Pos d \/ node_End d <= node_Pos c
               \/ within_ c d /\ ~ within_ d c \/ within_ d c /\ ~ within_ c d).

(** What the replacements hold: the texts of a list of calls, by their pointers. *)
Definition replacements_are (rewritten : list (node * string)) (replaced : replacements) : Prop :=
  forall p call text, replaced !! p = Some (call, text) <-> p = ptr call /\ (call, text) ∈ rewritten.

Lemma replacements_inserted rewritten (replaced : replacements) p call text :
  NoDup (map (fun r => ptr r.1) rewritten) ->
  foldl (fun replaced '(call, text) => <[ptr call := (call, text)]> replaced) replaced rewritten !! p = Some (call, text)
  <-> p = ptr call /\ (call, text) ∈ rewritten
      \/ p ∉ map (fun r => ptr r.1) rewritten /\ replaced !! p = Some (call, text).
Proof.
  revert replaced. induction rewritten as [|[c t] rest IH]; intros replaced; cbn [foldl map].
  { intros _. setoid_rewrite elem_of_nil. naive_solver. }
  intros [Hc Hnd]%NoDup_cons. rewrite IH by done. rewrite !elem_of_cons. cbn [fst] in *.
  split.
  - intros [[-> Hin]|[Hp [[<- [= <- <-]]|[Hne Hr]]%lookup_insert_Some]]; [left; auto|left; auto|right].
    split; [|done]. intros [->|?]; done.
  - intros [[-> [[= <- <-]|Hin]]|[Hp Hr]]; [right|by left|right].
    + split; [done|]. apply lookup_insert_Some. by left.
    + split; [naive_solver|]. apply lookup_insert_Some. right. naive_solver.
Qed.

Lemma replacements_are_inserted rewritten :
  NoDup (map (fun r => ptr r.1) rewritten) ->
  replacements_are rewritten (foldl (fun replaced '(call, text) => <[ptr call := (call, text)]> replaced) ∅ rewritten).
Proof.
  intros Hnd p call text. rewrite replacements_inserted by done. unfold replacements. rewrite lookup_empty. naive_solver.
Qed.

Lemma rewritten_ones_sublist outcomes : map fst (rewritten_ones outcomes) `sublist_of` map fst outcomes.
Proof.
  induction outcomes as [|[call [text|reason]] outcomes IH]; cbn; [constructor|by apply sublist_skip|by apply sublist_cons].
Qed.

Lemma insideAny_spec call replaced :
  insideAny call replaced = true
  <-> exists p other text, replaced !! p = Some (other, text) /\ ptr other <> ptr call /\ within_ call other.
Proof.
  unfold insideAny. rewrite existsb_exists. split.
  - intros ([p [other text]] & Hin & Hb). rewrite <- list_elem_of_In in Hin. apply elem_of_map_to_list in Hin.
    apply andb_true_iff in Hb as [[Hp H1%Nat.leb_le]%andb_true_iff H2%Nat.leb_le].
    apply negb_true_iff, Nat.eqb_neq in Hp. by exists p, other, text.
  - intros (p & other & text & Hin & Hp & H1 & H2). exists (p, (other, text)). split.
    + rewrite <- list_elem_of_In. by apply elem_of_map_to_list.
    + apply Nat.eqb_neq in Hp. apply Nat.leb_le in H1, H2. by rewrite Hp, H1, H2.
Qed.

(** A body in none of the others that were rewritten. *)
Definition is_outermost (rewritten : list (node * string)) (call : node) : Prop :=
  forall other text, (other, text) ∈ rewritten -> within_ call other -> other = call.

(** Those bodies: they are apart, and every one that was rewritten is inside one. *)
Record outermost_of (rewritten outer : list (node * string)) : Prop := {
  outer_once : NoDup outer;
  outer_are : forall call text, (call, text) ∈ outer <-> (call, text) ∈ rewritten /\ is_outermost rewritten call;
  outer_disjoint : forall c t d u, (c, t) ∈ outer -> (d, u) ∈ outer -> c <> d ->
    node_End c <= node_Pos d \/ node_End d <= node_Pos c;
  outer_hold : forall call text, (call, text) ∈ rewritten ->
    exists other text', (other, text') ∈ outer /\ within_ call other
}.

Definition edit_of (src : source) (r : node * string) : edit :=
  MkEdit (offset src (node_Pos r.1)) (offset src (node_End r.1)) r.2.

Section Outermost.
Context (src : source) (calls : list node) (rewritten : list (node * string)) (replaced : replacements).
Hypothesis (Hnested : nested_calls calls) (Hare : replacements_are rewritten replaced).
Hypothesis (Hcalls : forall call text, (call, text) ∈ rewritten -> call ∈ calls).

Lemma insideAny_outermost call text :
  (call, text) ∈ rewritten -> insideAny call replaced = false <-> is_outermost rewritten call.
Proof.
  intros Hc. rewrite <- not_true_iff_false, insideAny_spec. split.
  - intros Hno other t Ho Hw. destruct (decide (ptr other = ptr call)) as [Hp|Hp].
    + by apply (Hnested other call); [by eapply Hcalls..|].
    + destruct Hno. exists (ptr other), other, t. split; [by apply Hare|done].
  - intros Hall (p & other & t & [_ Ho]%Hare & Hne & Hw). by rewrite (Hall other t Ho Hw) in Hne.
Qed.

(** The outermost ones, as the map of replacements holds them. *)
Definition outer : list (node * string) :=
  filter (fun r => insideAny r.1 replaced = false) (map snd (map_to_list replaced)).

Lemma outermost_edits : outermost src replaced = map (edit_of src) outer.
Proof.
  unfold outermost, outer. induction (map_to_list replaced) as [|[p [c t]] l IH]; [done|]. cbn [omap list_omap map].
  rewrite filter_cons. cbn [fst snd]. destruct (insideAny c replaced) eqn:Hi.
  - destruct (decide _) as [H|_]; [done|exact IH].
  - destruct (decide _) as [_|H]; [|done]. cbn [map]. by rewrite <- IH.
Qed.

Lemma elem_of_values call text : (call, text) ∈ map snd (map_to_list replaced) <-> (call, text) ∈ rewritten.
Proof.
  rewrite list_elem_of_fmap. split.
  - intros ([p [c t]] & [= <- <-] & Hin%elem_of_map_to_list). by apply Hare in Hin as [_ Hin].
  - intros Hin. exists (ptr call, (call, text)). split; [done|]. apply elem_of_map_to_list, Hare. done.
Qed.

Lemma elem_of_outer call text :
  (call, text) ∈ outer <-> (call, text) ∈ rewritten /\ is_outermost rewritten call.
Proof.
  unfold outer. rewrite list_elem_of_filter, elem_of_values. cbn [fst]. split.
  - intros [Hi Hin]. split; [done|]. by apply (insideAny_outermost call text).
  - intros [Hin Ho]. split; [|done]. by apply (insideAny_outermost call text).
Qed.

Lemma outer_NoDup : NoDup outer.
Proof.
  unfold outer. apply NoDup_filter, NoDup_fmap_2_strong; [|apply NoDup_map_to_list].
  intros [p [c t]] [q [d u]] Hp%elem_of_map_to_list Hq%elem_of_map_to_list [= <- <-].
  apply Hare in Hp as [-> _], Hq as [-> _]. done.
Qed.

Lemma outer_apart c t d u :
  (c, t) ∈ outer -> (d, u) ∈ outer -> c <> d -> node_End c <= node_Pos d \/ node_End d <= node_Pos c.
Proof.
  intros [Hc Hco]%elem_of_outer [Hd Hdo]%elem_of_outer Hne.
  destruct (Hnested c d (Hcalls _ _ Hc) (Hcalls _ _ Hd)) as (_ & _ & H).
  destruct (H Hne) as [?|[?|[[Hin _]|[Hin _]]]]; [by left|by right|..]; destruct Hne.
  - by rewrite (Hco d u).
  - by rewrite (Hdo c t).
Qed.

Definition extent (n : node) : nat := node_End n - node_Pos n.

Lemma under_outer call text :
  (call, text) ∈ rewritten -> exists other text', (other, text') ∈ outer /\ within_ call other.
Proof.
  set (bound := max_list (map extent calls)).
  assert (forall c, c ∈ calls -> extent c <= bound) as Hbound.
  { intros c Hc. unfold bound. clear -Hc. induction Hc as [c cs|c d cs _ IH]; cbn; lia. }
  remember (bound - extent call) as gap eqn:Hgap. revert call text Hgap.
  induction gap as [gap IH] using lt_wf_ind. intros call text Hgap Hp.
  destruct (insideAny call replaced) eqn:Hi.
  2:{ exists call, text. split; [|by split]. apply elem_of_outer. split; [done|]. by apply (insideAny_outermost call text). }
  apply insideAny_spec in Hi as (q & other & text' & [-> Hq]%Hare & Hne & Hin).
  pose proof (Hcalls _ _ Hp) as Hc. pose proof (Hcalls _ _ Hq) as Hd.
  destruct (Hnested call other Hc Hd) as (Hpos & _ & Hrel).
  pose proof (Hbound _ Hd) as Hob. destruct Hin as [H1 H2].
  assert (extent call < extent other) as Hlt.
  { destruct Hrel as [?|[?|[[_ Hn]|[[H3 H4] Hn]]]]; [congruence|unfold Pos in *; lia..| |].
    - unfold within_ in Hn. unfold extent, Pos in *. lia.
    - exfalso. apply Hn. by split. }
  destruct (IH (bound - extent other) ltac:(lia) _ _ eq_refl Hq) as (o & t & Ho & H5 & H6).
  exists o, t. split; [done|]. unfold within_, Pos in *. lia.
Qed.

Lemma outer_outermost : outermost_of rewritten outer.
Proof.
  split; [apply outer_NoDup|apply elem_of_outer|apply outer_apart|apply under_outer].
Qed.
End Outermost.

(** * The order calls are rewritten in *)
Section Innermost.
Context (info : Info) (file : file).

Definition is_gen (n : node) : bool := bool_decide (kind_of n = CallExpr) && isGen info n.

Lemma gen_calls_visited :
  gen_calls info file = rev (filter (fun n => is_gen n = true) (below (file_node file))).
Proof.
  unfold gen_calls. f_equal. rewrite (Inspect_fold _ (fun _ => false)
    (fun calls n => if is_gen n then calls ++ [n] else calls)) by done.
  assert (forall l acc, foldl (fun calls n => if is_gen n then calls ++ [n] else calls) acc l
    = acc ++ filter (fun n => is_gen n = true) l) as H.
  { induction l as [|n l IH]; intros acc; cbn [foldl]; [by rewrite app_nil_r|]. rewrite IH, filter_cons.
    destruct (is_gen n) eqn:E; [|done]. by rewrite <- app_assoc. }
  apply (H _ []).
Qed.

Lemma elem_of_gen_calls call :
  call ∈ gen_calls info file <-> call ∈ below (file_node file) /\ kind_of call = CallExpr /\ isGen info call = true.
Proof.
  rewrite gen_calls_visited, list_elem_of_In, <- in_rev, <- list_elem_of_In, list_elem_of_filter.
  unfold is_gen. rewrite andb_true_iff, bool_decide_eq_true. naive_solver.
Qed.

Lemma below_trans n m d : m ∈ below d -> d ∈ below n -> m ∈ below n.
Proof.
  unfold below. intros Hm. induction n as [n IH] using syntax_nested_ind. rewrite Forall_forall in IH.
  rewrite (elem_of_visited _ n d). intros [->|(_ & c & Hc & Hd)]; [done|].
  apply elem_of_visited. right. split; [done|]. exists c. split; [done|]. by apply IH.
Qed.

Lemma elem_of_below_all nodes m :
  m ∈ concat (map (visited (fun _ => false)) nodes) <-> exists c, c ∈ nodes /\ m ∈ below c.
Proof.
  rewrite list_elem_of_In, in_concat. split.
  - intros (l & (c & <- & Hc)%in_map_iff & Hm). exists c. by rewrite !list_elem_of_In.
  - intros (c & Hc & Hm). exists (below c). split; [|by apply list_elem_of_In].
    apply in_map_iff. exists c. split; [done|]. by apply list_elem_of_In.
Qed.

(** Nodes come before what is inside them. *)
Lemma below_before_all nodes :
  Forall (fun n => NoDup (map ptr (below n)) -> StronglySorted (fun m d => m ∉ below d) (below n)) nodes ->
  NoDup (map ptr (concat (map (visited (fun _ => false)) nodes))) ->
  StronglySorted (fun m d => m ∉ below d) (concat (map (visited (fun _ => false)) nodes)).
Proof.
  induction nodes as [|c cs IHcs]; cbn [map concat]; [constructor|].
  rewrite map_app. intros [Hc Hcs]%Forall_cons (Hn1 & Hdis & Hn2)%NoDup_app. apply StronglySorted_app.
  split_and!; [|by apply Hc|by apply IHcs].
  intros m d Hm (c' & Hc' & Hd)%elem_of_below_all Hmd.
  apply (Hdis (ptr m)); [by apply list_elem_of_fmap_2|]. apply list_elem_of_fmap_2, elem_of_below_all.
  exists c'. split; [done|]. by eapply below_trans.
Qed.

Lemma below_before n : NoDup (map ptr (below n)) -> StronglySorted (fun m d => m ∉ below d) (below n).
Proof.
  induction n as [n IH] using syntax_nested_ind. unfold below at 1 3. rewrite visited_unfold. cbn [map].
  intros [_ Hnd]%NoDup_cons. constructor; [by apply below_before_all|].
  apply Forall_forall. intros d (c & Hc & Hd)%elem_of_below_all Hn.
  apply below_size in Hn. apply below_size in Hd. apply node_size_child in Hc. lia.
Qed.

Lemma StronglySorted_rev {A} (R : A -> A -> Prop) l : StronglySorted R l -> StronglySorted (flip R) (rev l).
Proof.
  induction 1 as [|x l _ IH Hx]; cbn [rev]; [constructor|]. apply StronglySorted_app. split_and!; [|done|by repeat constructor].
  intros y z Hy Hz%list_elem_of_singleton. subst z. rewrite Forall_forall in Hx. apply Hx.
  by rewrite list_elem_of_In, in_rev, <- list_elem_of_In.
Qed.

Lemma StronglySorted_filter {A} (R : A -> A -> Prop) (P : A -> Prop) `{forall x, Decision (P x)} l :
  StronglySorted R l -> StronglySorted R (filter P l).
Proof.
  induction 1 as [|x l _ IH Hx]; [constructor|]. rewrite filter_cons. destruct (decide (P x)); [|done].
  constructor; [done|]. rewrite Forall_forall in *. intros y [_ Hy]%list_elem_of_filter. by apply Hx.
Qed.

Lemma gen_calls_innermost_first :
  NoDup (map ptr (below (file_node file))) -> StronglySorted (fun c d => d ∉ below c) (gen_calls info file).
Proof.
  intros Hnd%below_before. rewrite gen_calls_visited. apply (StronglySorted_rev (fun m d => m ∉ below d)).
  by apply StronglySorted_filter.
Qed.

Lemma gen_calls_NoDup : NoDup (map ptr (below (file_node file))) -> NoDup (map ptr (gen_calls info file)).
Proof.
  intros Hnd. rewrite gen_calls_visited, map_rev. apply NoDup_ListNoDup, NoDup_rev, NoDup_ListNoDup.
  revert Hnd. generalize (below (file_node file)) as l. induction l as [|n l IH]; [done|]. cbn [map].
  intros [Hn Hl]%NoDup_cons. rewrite filter_cons. destruct (decide _); [|by apply IH]. cbn [map].
  apply NoDup_cons. split; [|by apply IH]. intros (m & Hp & [_ Hm]%list_elem_of_filter)%list_elem_of_fmap.
  destruct Hn. rewrite Hp. by apply list_elem_of_fmap_2.
Qed.
End Innermost.

(** C18. Every call of [effect.Gen] in a file, and nothing else, is taken up once, a body
    before the ones around it, and is either replaced by its body as the emitter writes
    it -- with what it already replaced in the place of the bodies inside -- or declined
    with its position and a reason. The edits to the file are the outermost bodies that
    were replaced, each with its text, and the imports these spell: no two bodies
    overlap, and every body that was replaced is one of them or inside one. Where none
    was replaced there is no new source. *)
Theorem outermost_bodies_are_the_edits src info file pkg result :
  NoDup (map ptr (below (file_node file))) -> nested_calls (gen_calls info file) ->
  File src info file pkg = Answer result ->
  exists outcomes tn' outer_,
    (forall call, call ∈ map fst outcomes
       <-> call ∈ below (file_node file) /\ kind_of call = CallExpr /\ isGen info call = true)
    /\ NoDup (map fst outcomes) /\ StronglySorted (fun c d => d ∉ below c) (map fst outcomes)
    /\ rewriting src info ∅ (newTypeNames file info pkg (newNames file)) (map fst outcomes) outcomes tn'
    /\ Rewrites result = length (rewritten_ones outcomes) /\ Declines result = declined_ones src outcomes
    /\ outermost_of (rewritten_ones outcomes) outer_
    /\ (rewritten_ones outcomes = [] -> Source result = None)
    /\ (rewritten_ones outcomes <> [] -> exists text, Source result = Some text
         /\ splice src 0 (String.length (source_text src))
              (map (edit_of src) outer_ ++ importEdits src file tn' (map (edit_of src) outer_)) = Some text).
Proof.
  intros Hnd Hn E. unfold File in E. pose proof (gen_calls_NoDup info file Hnd) as Hg.
  destruct (rewrite_calls _ _ _ _ _) as [[[[replaced rewrites] declines] tn']| |] eqn:Ec; [|done..].
  apply rewrite_calls_rewriting in Ec as (outcomes & Ho & Hm & [= Hr -> ->]);
    [|by intros c (_ & _ & ?)%elem_of_gen_calls].
  cbn [fst snd app Nat.add] in *. pose proof (rewritten_ones_sublist outcomes) as Hsub. rewrite Hm in Hsub.
  assert (forall c t, (c, t) ∈ rewritten_ones outcomes -> c ∈ gen_calls info file) as Hcalls.
  { intros c t Hc. eapply elem_of_sublist; [|exact Hsub]. by apply (list_elem_of_fmap_2 fst _ (c, t)). }
  assert (replacements_are (rewritten_ones outcomes) replaced) as Hare.
  { rewrite Hr. apply replacements_are_inserted. rewrite <- (map_map fst ptr).
    eapply sublist_NoDup; [exact Hg|]. by apply fmap_sublist. }
  exists outcomes, tn', (outer replaced). rewrite Hm.
  split; [apply elem_of_gen_calls|]. split; [by eapply NoDup_fmap_1|]. split; [by apply gen_calls_innermost_first|].
  split; [exact Ho|]. rewrite (outermost_edits src replaced) in E.
  assert (outermost_of (rewritten_ones outcomes) (outer replaced)) as Hout by by eapply outer_outermost.
  destruct (rewritten_ones outcomes) as [|r rest]; cbn [length Nat.eqb] in E; [by injection E as <-|].
  destruct (splice _ _ _ _) as [text|] eqn:Hs; [|done]. injection E as <-. split_and!; try done. intros _. by exists text.
Qed.
