(* ===== verification/Command.v ===== *)
(** The command around the rewrite ([tools/effectgo/main.go], [series.go], [cache.go]):
    which packages are rewritten, where the result is kept, and what the go command is
    run with.

    The host is the files by path and what was printed. Its operations may fail at any
    turn. The go command, the package loader, [semver] and the JSON encoder are
    parameters, and so is the hash. *)

From S2P Require Import Prelude GoStrings GoSyntax RewriteText RewriteNames RewriteSite RewriteFile.
From Stdlib Require Import Ascii.

(** * The host *)

Record host : Type := MkHost {
  files : gmap string string;
  turn : nat;
  Stdout : list string;
  Stderr : list string
}.

(** A value, an error that is handed up, or a panic. *)
Inductive outcome (A : Type) : Type := Returned (a : A) | Failed (err : error) | Crashed.
Arguments Returned {A} _.
Arguments Failed {A} _.
Arguments Crashed {A}.

Definition io (A : Type) : Type := host -> outcome A * host.

Definition io_ret {A} (a : A) : io A := fun h => (Returned a, h).
Definition io_fail {A} (err : error) : io A := fun h => (Failed err, h).
Definition io_crash {A} : io A := fun h => (Crashed, h).
Definition io_bind {A B} (m : io A) (f : A -> io B) : io B := fun h =>
  match m h with
  | (Returned a, h) => f a h
  | (Failed err, h) => (Failed err, h)
  | (Crashed, h) => (Crashed, h)
  end.

Declare Scope io_scope.
Delimit Scope io_scope with io.
Notation "'do!' x ':=' m 'in' k" := (io_bind m (fun x => k))
  (at level 200, x pattern, m at level 100, k at level 200, right associativity) : io_scope.
Open Scope io_scope.

(** [value, err] with [if err != nil { return err }]. *)
Definition or_return {A} (r : A + error) : io A := match r with inl a => io_ret a | inr err => io_fail err end.

(** * Paths *)

Definition slash : string := "/".

(** [filepath.Join] of a clean path and a name. *)
Definition path_Join (dir name : string) : string := (dir ++ slash ++ name)%string.

(** [filepath.Base]: the last element, without the slashes after it. *)
Definition path_Base (path : string) : string :=
  if String.eqb path EmptyString then "."
  else match filter (fun part => part <> EmptyString) (Split path slash) with
       | [] => slash
       | parts => default slash (last parts)
       end.

Section Host.
  (** Whether the operation of a turn fails, the name a temporary file is given then,
      and what a write that fails has written. *)
  Context (fails : nat -> option error) (temporary : nat -> string) (torn : nat -> string -> string).

Definition not_exist : error := MkError 801 "file does not exist" [].
Definition already_exists : error := MkError 802 "file already exists" [].

(** An operation takes a turn, and does what it does unless it fails. *)
Definition attempt {A} (act : nat -> gmap string string -> (A + error) * gmap string string) : io (A + error) :=
  fun h =>
  let next fs := MkHost fs (S (turn h)) (Stdout h) (Stderr h) in
  match fails (turn h) with
  | Some err => (Returned (inr err), next (files h))
  | None => let '(r, fs) := act (turn h) (files h) in (Returned r, next fs)
  end.

Definition os_ReadFile (path : string) : io (string + error) :=
  attempt (fun _ fs => (match fs !! path with Some text => inl text | None => inr not_exist end, fs)).

Definition os_Stat (path : string) : io (unit + error) :=
  attempt (fun _ fs => (match fs !! path with Some _ => inl tt | None => inr not_exist end, fs)).

(** [os.CreateTemp(dir, "partial-*")]: a file that was not there. *)
Definition temp_path (dir : string) (n : nat) : string := path_Join dir ("partial-" ++ temporary n).

Definition os_CreateTemp (dir : string) : io (string + error) :=
  attempt (fun n fs =>
    let path := temp_path dir n in
    match fs !! path with
    | Some _ => (inr already_exists, fs)
    | None => (inl path, <[path := EmptyString]> fs)
    end).

(** A write that fails may leave a part. *)
Definition os_Write (path content : string) : io (unit + error) := fun h =>
  let next fs := MkHost fs (S (turn h)) (Stdout h) (Stderr h) in
  match fails (turn h) with
  | Some err => (Returned (inr err), next (<[path := torn (turn h) content]> (files h)))
  | None => (Returned (inl tt), next (<[path := content]> (files h)))
  end.

Definition os_Close : io (unit + error) := attempt (fun _ fs => (inl tt, fs)).

Definition os_Remove (path : string) : io (unit + error) :=
  attempt (fun _ fs => (match fs !! path with Some _ => inl tt | None => inr not_exist end, delete path fs)).

Definition os_Rename (from to_ : string) : io (unit + error) :=
  attempt (fun _ fs =>
    match fs !! from with
    | Some content => (inl tt, <[to_ := content]> (delete from fs))
    | None => (inr not_exist, fs)
    end).

Definition print_stderr (line : string) : io unit := fun h =>
  (Returned tt, MkHost (files h) (turn h) (Stdout h) (Stderr h ++ [line])).
Definition print_stdout (line : string) : io unit := fun h =>
  (Returned tt, MkHost (files h) (turn h) (Stdout h ++ [line]) (Stderr h)).

(** * The cache ([cache.go]) *)

  (** The first twelve bytes of the SHA-256 hash, in hexadecimal digits. *)
  Context (digest : string -> string).

Definition zero_byte : string := String (ascii_of_nat 0) EmptyString.

Definition target_of (dir name content : string) : string :=
  path_Join dir (digest (name ++ zero_byte ++ content) ++ "-" ++ path_Base name)%string.

(** What happens to the temporary file, before it is removed whatever that was. *)
Definition fill (temporary_ target content : string) : io string :=
  do! written := os_Write temporary_ content in
  match written with
  | inr err => do! _ := os_Close in io_fail err
  | inl _ =>
      do! closed := os_Close in
      do! _ := or_return closed in
      do! renamed := os_Rename temporary_ target in
      do! _ := or_return renamed in
      io_ret target
  end.

(** [defer os.Remove(path)], whose error nobody reads. *)
Definition removing {A} (path : string) (body : io A) : io A := fun h =>
  let '(r, h) := body h in (r, snd (os_Remove path h)).

Definition store (dir name content : string) : io string :=
  let target := target_of dir name content in
  do! found := os_Stat target in
  match found with
  | inl _ => io_ret target
  | inr _ =>
      do! created := os_CreateTemp dir in
      do! temporary_ := or_return created in
      removing temporary_ (fill temporary_ target content)
  end.

(** * What is rewritten ([main.go]) *)

(** A file of a loaded package: its name, its tree, where its text starts and the paths
    it imports. *)
Record parsed : Type := MkParsed {
  parsed_file : file;
  parsed_base : Pos;
  parsed_Position : Pos -> Z * Z;
  parsed_Imports : list string
}.

(** [packages.Package], as far as the command reads it. *)
Record Package : Type := MkPackage {
  PkgPath : string;
  Imports : gset string;
  GoFiles : list string;
  CompiledGoFiles : list string;
  Syntax : list parsed;
  TypesInfo : Info;
  Types : package
}.

  (** [packages.Load] of the names and imports, and of the types too; the environment;
      [json.Marshal] of the overlay; [os.UserCacheDir]; [os.MkdirAll]. *)
  Context (Load LoadTypes : list string -> list Package + error).
  Context (Getenv : string -> string) (Marshal : gmap string string -> string).
  Context (UserCacheDir : string + error) (MkdirAll : string -> option error).

Definition effectModule : string := "github.com/mbauer83/effect-golang".
Definition effectPath : string := "github.com/mbauer83/effect-golang/effect".

Fixpoint mentionsGen (files : list string) : io bool :=
  match files with
  | [] => io_ret false
  | file :: files =>
      do! text := os_ReadFile file in
      match text with
      | inl text => if Contains text "Gen(" || Contains text "Gen[" then io_ret true else mentionsGen files
      | inr _ => mentionsGen files
      end
  end.

Fixpoint importing (pkgs : list Package) (seen : gset string) : io (list string) :=
  match pkgs with
  | [] => io_ret []
  | pkg :: pkgs =>
      if negb (bool_decide (effectPath ∈ Imports pkg)) || bool_decide (PkgPath pkg ∈ seen)
      then importing pkgs seen
      else
        do! mentions := mentionsGen (GoFiles pkg) in
        if negb mentions then importing pkgs seen
        else
          do! importers := importing pkgs ({[PkgPath pkg]} ∪ seen) in
          io_ret (PkgPath pkg :: importers)
  end.

Definition importersOfGen (patterns : list string) : io (list string) :=
  do! pkgs := or_return (Load patterns) in importing pkgs ∅.

Definition importsEffect (file : parsed) : bool := bool_decide (effectPath ∈ parsed_Imports file).

(** A position prints as the file's name, the line and the column. *)
Definition explained (filename : string) (decline : Decline) : string :=
  ("effectgo: " ++ filename ++ ":" ++ decimal (fst (Decline_Position decline)) ++ ":" ++ decimal (snd (Decline_Position decline))
   ++ ": left as it was: " ++ Reason decline)%string.

Fixpoint explain_each (filename : string) (declines : list Decline) : io unit :=
  match declines with
  | [] => io_ret tt
  | decline :: declines => do! _ := print_stderr (explained filename decline) in explain_each filename declines
  end.

Definition explain (filename : string) (declines : list Decline) : io unit :=
  if String.eqb (Getenv "EFFECTGO_EXPLAIN") EmptyString then io_ret tt else explain_each filename declines.

(** [overlay]'s [replace], and what it counts. *)
Record rewriting : Type := MkRewriting { replace : gmap string string; rewrites : nat; declined : nat }.

(** [rewrite.File]; a computation that panics takes the command with it. *)
Definition rewritten_file (pkg : Package) (file : parsed) (filename text : string) : io Result :=
  match RewriteFile.File (MkSource (parsed_base file) text filename (parsed_Position file))
          (TypesInfo pkg) (parsed_file file) (Types pkg) with
  | Answer result => io_ret result
  | _ => io_crash
  end.

(** One turn of the inner loop, for the file of a name. *)
Definition rewrite_one (cache : string) (pkg : Package) (filename : string) (file : parsed) (so_far : rewriting)
    : io rewriting :=
  match replace so_far !! filename with
  | Some _ => io_ret so_far
  | None =>
      if negb (importsEffect file) then io_ret so_far
      else
        do! text := os_ReadFile filename in
        do! text := or_return text in
        do! result := rewritten_file pkg file filename text in
        let counted := MkRewriting (replace so_far) (rewrites so_far + Rewrites result)
                         (declined so_far + length (Declines result)) in
        do! _ := explain filename (Declines result) in
        match Source result with
        | None => io_ret counted
        | Some source =>
            do! target := store cache filename source in
            io_ret (MkRewriting (<[filename := target]> (replace counted)) (rewrites counted) (declined counted))
        end
  end.

(** [pkg.CompiledGoFiles[i]] panics out of range. *)
Fixpoint rewrite_files (cache : string) (pkg : Package) (names : list string) (syntax : list parsed)
    (so_far : rewriting) : io rewriting :=
  match syntax, names with
  | [], _ => io_ret so_far
  | file :: syntax, filename :: names =>
      do! so_far := rewrite_one cache pkg filename file so_far in
      rewrite_files cache pkg names syntax so_far
  | _ :: _, [] => io_crash
  end.

Fixpoint rewrite_packages (cache : string) (pkgs : list Package) (so_far : rewriting) : io rewriting :=
  match pkgs with
  | [] => io_ret so_far
  | pkg :: pkgs =>
      do! so_far := rewrite_files cache pkg (CompiledGoFiles pkg) (Syntax pkg) so_far in
      rewrite_packages cache pkgs so_far
  end.

(** [filepath.Join(base, "effectgo")], made if it is not there. *)
Definition cacheDir : io string :=
  do! base := or_return UserCacheDir in
  let dir := path_Join base "effectgo" in
  match MkdirAll dir with Some err => io_fail err | None => io_ret dir end.

Definition summary (done : rewriting) : string :=
  ("effectgo: rewrote " ++ decimal (Z.of_nat (rewrites done)) ++ " Gen bodies, declined "
   ++ decimal (Z.of_nat (declined done)))%string.

Definition overlay (patterns : list string) : io string :=
  do! importers := if (0 <? length patterns) then importersOfGen patterns else io_ret [] in
  do! cache := cacheDir in
  do! done :=
    if (0 <? length importers)
    then do! pkgs := or_return (LoadTypes importers) in rewrite_packages cache pkgs (MkRewriting ∅ 0 0)
    else io_ret (MkRewriting ∅ 0 0) in
  do! _ := print_stderr (summary done) in
  store cache "overlay.json" (Marshal (replace done)).

(** * The releases it knows ([series.go]) *)

Section Run.
  (** [go list -m] of the effect module, [go list -m] of every module and its
      directories, and [semver.MajorMinor]. *)
  Context (list_version list_modules : string + error) (MajorMinor : string -> string).

Definition series : string := "v0.5".

(** [strings.Fields]: the words between white space. *)
Fixpoint fields_from (word s : string) : list string :=
  match s with
  | EmptyString => if String.eqb word EmptyString then [] else [word]
  | String a s =>
      if is_space a then (if String.eqb word EmptyString then [] else [word]) ++ fields_from EmptyString s
      else fields_from (word ++ String a EmptyString)%string s
  end.

Definition Fields (s : string) : list string := fields_from EmptyString s.

Definition understood : io bool :=
  match list_version with
  | inr _ => io_ret true
  | inl output =>
      match Fields output with
      | [version] =>
          if negb (String.eqb (MajorMinor version) series)
          then
            do! _ := print_stderr ("effectgo: this build uses effect-golang " ++ version
                                   ++ ", and this effectgo rewrites " ++ series ++ ".x; running unchanged")%string in
            io_ret false
          else io_ret true
      | _ => io_ret true
      end
  end.

Definition workspacePatterns : io (list string) :=
  match list_modules with
  | inr err => io_fail (MkError 0 ("listing the modules being built: " ++ error_text err)%string [err])
  | inl output => io_ret (map (fun dir => path_Join dir "...") (Fields output))
  end.

(** * [run] ([main.go]) *)

  (** [command.Run()] of the go command with its arguments. *)
  Context (run_go : list string -> io (option error)).

Definition overlaid : list string := ["build"; "install"; "list"; "run"; "test"; "vet"]%string.

Definition usage : error :=
  MkError 803 "usage: effectgo <go command> [arguments], or effectgo overlay [packages]" [].

Definition run (args : list string) : io (option error) :=
  match args with
  | [] => io_fail usage
  | verb :: rest =>
      if String.eqb verb "overlay" then
        let patterns := match rest with [] => ["./..."%string] | _ => rest end in
        do! known := understood in
        let patterns := if known then patterns else [] in
        do! path := overlay patterns in
        do! _ := print_stdout path in
        io_ret None
      else
        do! command :=
          (if bool_decide (verb ∈ overlaid)
           then
             do! known := understood in
             if known then
               do! patterns := workspacePatterns in
               do! path := overlay patterns in
               io_ret (verb :: ("-overlay=" ++ path)%string :: rest)
             else io_ret args
           else io_ret args) in
        run_go command
  end.

(** Against any other series of releases the go command is run with the arguments it was
    given, and nothing is read or written before. *)
Lemma unknown_series_runs_unchanged verb args version output h :
  verb <> "overlay" -> list_version = inl output -> Fields output = [version] -> MajorMinor version <> series ->
  exists lines, run (verb :: args) h
  = run_go (verb :: args) (MkHost (files h) (turn h) (Stdout h) (Stderr h ++ lines)).
Proof.
  intros Hv Ho Hf Hs. unfold run. apply String.eqb_neq in Hv as ->.
  unfold understood. rewrite Ho, Hf. apply String.eqb_neq in Hs as ->. simpl.
  case_bool_decide; [by eexists [_]|]. exists []. rewrite app_nil_r. by destruct h.
Qed.
End Run.

(** * What holds of a run, whatever fails *)

(** From a host of [P] a computation returns a value of [Q], or is left at [E]. *)
Definition triple {A} (P : host -> Prop) (m : io A) (Q : A -> host -> Prop) (E : host -> Prop) : Prop :=
  forall h, P h -> match m h with (Returned a, h') => Q a h' | (_, h') => E h' end.

Lemma triple_ret {A} (a : A) (Q : A -> host -> Prop) E : triple (Q a) (io_ret a) Q E.
Proof. by intros h. Qed.

Lemma triple_bind {A B} P (m : io A) (f : A -> io B) Q R E :
  triple P m Q E -> (forall a, triple (Q a) (f a) R E) -> triple P (io_bind m f) R E.
Proof.
  intros Hm Hf h HP. specialize (Hm h HP). unfold io_bind.
  destruct (m h) as [[a|err|] h1]; [|done..]. by apply Hf.
Qed.

Lemma triple_weaken {A} (P P' : host -> Prop) (m : io A) (Q Q' : A -> host -> Prop) (E E' : host -> Prop) :
  (forall h, P' h -> P h) -> (forall a h, Q a h -> Q' a h) -> (forall h, E h -> E' h) ->
  triple P m Q E -> triple P' m Q' E'.
Proof.
  intros HP HQ HE Hm h H. specialize (Hm h (HP h H)). destruct (m h) as [[a|err|] h1]; auto.
Qed.

Lemma triple_or_return {A} (r : A + error) (P : host -> Prop) :
  triple P (or_return r) (fun a h => r = inl a /\ P h) P.
Proof. intros h H. by destruct r. Qed.

(** An assertion about the files says nothing about turns and printing. *)
Definition on_files (P : gmap string string -> Prop) (h : host) : Prop := P (files h).

Lemma triple_attempt {A} (act : nat -> gmap string string -> (A + error) * gmap string string) P Q E :
  (forall n fs, P fs -> Q (fst (act n fs)) (snd (act n fs))) -> (forall err fs, P fs -> Q (inr err) fs) ->
  triple (on_files P) (attempt act) (fun r => on_files (Q r)) E.
Proof.
  intros Hact Herr h H. unfold attempt, on_files in *. destruct (fails (turn h)); [by apply Herr|].
  specialize (Hact (turn h) (files h) H). by destruct (act _ _).
Qed.

(** ** The cache *)

(** What the cache is to the rest: the paths of what is stored and of what is not yet. *)
Definition cached (dir path : string) : Prop :=
  (exists name content, path = target_of dir name content) \/ exists n, path = temp_path dir n.

(** Every file stored is at the address of its own content. *)
Definition addressed (dir : string) (fs : gmap string string) : Prop :=
  forall name content stored, fs !! target_of dir name content = Some stored ->
  exists name', target_of dir name' stored = target_of dir name content.

Record kept (dir : string) (before fs : gmap string string) : Prop := {
  kept_addressed : addressed dir fs;
  kept_sources : forall path, ~ cached dir path -> fs !! path = before !! path;
  kept_targets : forall name content, is_Some (before !! target_of dir name content) ->
    is_Some (fs !! target_of dir name content)
}.

Lemma kept_refl dir fs : addressed dir fs -> kept dir fs fs.
Proof. intros. by split. Qed.

  (** No hash starts the way a temporary name does: [p] is no hexadecimal digit. *)
  Context (temp_is_no_target : forall dir n name content, temp_path dir n <> target_of dir name content).

Lemma kept_temp dir before fs n content : kept dir before fs -> kept dir before (<[temp_path dir n := content]> fs).
Proof.
  intros [Ha Hs Ht]. split.
  - intros name c stored. rewrite lookup_insert_ne by done. apply Ha.
  - intros path Hp. rewrite lookup_insert_ne; [by apply Hs|]. intros <-. apply Hp. right. eauto.
  - intros name c. rewrite lookup_insert_ne by done. apply Ht.
Qed.

Lemma kept_delete dir before fs n : kept dir before fs -> kept dir before (delete (temp_path dir n) fs).
Proof.
  intros [Ha Hs Ht]. split.
  - intros name c stored. rewrite lookup_delete_ne by done. apply Ha.
  - intros path Hp. rewrite lookup_delete_ne; [by apply Hs|]. intros <-. apply Hp. right. eauto.
  - intros name c. rewrite lookup_delete_ne by done. apply Ht.
Qed.

Lemma kept_target dir before fs name content :
  kept dir before fs -> kept dir before (<[target_of dir name content := content]> fs).
Proof.
  intros [Ha Hs Ht]. split.
  - intros name' c stored [[E <-]|[_ ?]]%lookup_insert_Some; [by exists name|by eapply Ha].
  - intros path Hp. rewrite lookup_insert_ne; [by apply Hs|]. intros <-. apply Hp. left. eauto.
  - intros name' c H. apply lookup_insert_is_Some'. right. by apply Ht.
Qed.

Definition filled (dir : string) (before : gmap string string) (target t : string) (fs : gmap string string) : Prop :=
  t = target /\ kept dir before fs /\ is_Some (fs !! target).

Lemma os_Write_triple dir before n content :
  triple (on_files (kept dir before)) (os_Write (temp_path dir n) content)
    (fun r => on_files (fun fs => kept dir before fs /\ (r = inl tt -> fs !! temp_path dir n = Some content)))
    (on_files (kept dir before)).
Proof.
  intros h H. unfold os_Write, on_files in *. destruct (fails (turn h)); simpl.
  - split; [by apply kept_temp|done].
  - split; [by apply kept_temp|]. by rewrite lookup_insert_eq.
Qed.

Lemma triple_pre {A} (P P' : host -> Prop) (m : io A) (Q : A -> host -> Prop) E :
  triple P m Q E -> (forall h, P' h -> P h) -> triple P' m Q E.
Proof. intros Hm HP h H. by apply Hm, HP. Qed.

Lemma triple_fail {A} err (Q : A -> host -> Prop) E : triple E (io_fail err) Q E.
Proof. by intros h. Qed.

Lemma os_Close_triple P E : triple (on_files P) os_Close (fun _ => on_files P) E.
Proof. by apply (triple_attempt _ P (fun _ => P)). Qed.

Lemma os_Rename_triple dir before n name content :
  triple (on_files (fun fs => kept dir before fs /\ fs !! temp_path dir n = Some content))
    (os_Rename (temp_path dir n) (target_of dir name content))
    (fun r => on_files (fun fs => kept dir before fs /\ (r = inl tt -> is_Some (fs !! target_of dir name content))))
    (on_files (kept dir before)).
Proof.
  apply triple_attempt; [|by intros err fs [? _]].
  intros _ fs [Hk Hc]. rewrite Hc. simpl. split; [by apply kept_target, kept_delete|].
  by rewrite lookup_insert_eq.
Qed.

Lemma fill_triple dir before n name content :
  triple (on_files (kept dir before)) (fill (temp_path dir n) (target_of dir name content) content)
    (fun t => on_files (filled dir before (target_of dir name content) t)) (on_files (kept dir before)).
Proof.
  unfold fill. eapply triple_bind; [apply os_Write_triple|]. intros [[]|err].
  - set (P := fun fs => kept dir before fs /\ fs !! temp_path dir n = Some content).
    apply (triple_pre (on_files P)); [|intros h [? H]; split; auto].
    eapply triple_bind; [apply os_Close_triple|]. intros closed.
    eapply triple_bind; [|intros []].
    + apply (triple_weaken (on_files P) _ _ (fun a h => closed = inl a /\ on_files P h) _ (on_files P) _);
        [done|intros a h H; exact H|by intros h [? _]|]. apply triple_or_return.
    + eapply triple_bind; [eapply triple_pre; [apply os_Rename_triple|by intros h [_ ?]]|].
      intros renamed. eapply triple_bind; [|intros []].
      * eapply triple_weaken; [| | |apply triple_or_return]; [done|intros a h H; exact H|by intros h [? _]].
      * intros h (Hr & Hk & Ht). simpl. split; auto.
  - apply (triple_pre (on_files (kept dir before))); [|by intros h [? _]].
    eapply triple_bind; [apply os_Close_triple|]. intros closed. apply triple_fail.
Qed.

Lemma store_triple dir before name content :
  triple (on_files (kept dir before)) (store dir name content)
    (fun t => on_files (filled dir before (target_of dir name content) t)) (on_files (kept dir before)).
Proof.
  unfold store. eapply triple_bind.
  { apply (triple_attempt _ (kept dir before)
      (fun r fs => kept dir before fs /\ (r = inl tt -> is_Some (fs !! target_of dir name content)))); [|done].
    intros _ fs Hk. simpl. split; [done|]. destruct (fs !! _) eqn:E; [|done]. by eexists. }
  intros [[]|err].
  { intros h [Hk Ht]. simpl. split; auto. }
  eapply triple_bind.
  { eapply (triple_pre (on_files (kept dir before))); [|by intros h [? _]].
    apply (triple_attempt _ (kept dir before)
      (fun r fs => kept dir before fs /\ forall path, r = inl path -> exists n, path = temp_path dir n)); [|done].
    intros n fs Hk. simpl. destruct (fs !! _); [done|]. simpl. split; [by apply kept_temp|].
    intros path [= <-]. eauto. }
  intros created. eapply triple_bind.
  { eapply triple_weaken; [| | |apply triple_or_return]; [done|intros a h H; exact H|by intros h [? _]]. }
  intros path h (-> & Hk & Hp). destruct (Hp path eq_refl) as [n ->]. unfold removing.
  pose proof (fill_triple dir before n name content h Hk) as Hf.
  destruct (fill _ _ _ h) as [r h1]. unfold os_Remove, attempt.
  destruct (fails (turn h1)); simpl; [by destruct r|]. destruct r as [t|err1|]; unfold on_files in *; simpl.
  - destruct Hf as (-> & Hk1 & Ht1). split; [done|]. split; [by apply kept_delete|].
    by rewrite lookup_delete_ne by done.
  - by apply kept_delete.
  - by apply kept_delete.
Qed.

Lemma kept_trans dir a b c : kept dir a b -> kept dir b c -> kept dir a c.
Proof.
  intros [_ Hs Ht] [Ha' Hs' Ht']. split; [done| |by eauto].
  intros path Hp. rewrite Hs' by done. by apply Hs.
Qed.

(** ** The overlay *)

Lemma explain_triple P filename declines E :
  triple (on_files P) (explain filename declines) (fun _ => on_files P) E.
Proof.
  unfold explain. destruct (String.eqb _ _); [by intros h|].
  induction declines as [|decline declines IH]; simpl; [by intros h|].
  eapply triple_bind; [|intros ?; apply IH]. by intros h.
Qed.

(** A file of the packages that imports [effect], and what rewriting it comes to. *)
Definition rewrites_to (pkgs : list Package) (before : gmap string string) (filename source : string) : Prop :=
  exists pkg i file text result,
    pkg ∈ pkgs /\ CompiledGoFiles pkg !! i = Some filename /\ Syntax pkg !! i = Some file
    /\ importsEffect file = true /\ before !! filename = Some text
    /\ RewriteFile.File (MkSource (parsed_base file) text filename (parsed_Position file))
         (TypesInfo pkg) (parsed_file file) (Types pkg) = Answer result
    /\ Source result = Some source.

Section Overlay.
  Context (pkgs : list Package) (cache : string) (before : gmap string string).
  (** No file of the packages is one of the cache. *)
  Context (apart : forall pkg filename, pkg ∈ pkgs -> filename ∈ CompiledGoFiles pkg -> ~ cached cache filename).

Definition names_rewrites (so_far : rewriting) (fs : gmap string string) : Prop :=
  kept cache before fs /\ forall filename target, replace so_far !! filename = Some target ->
    exists source, rewrites_to pkgs before filename source
      /\ target = target_of cache filename source /\ is_Some (fs !! target).

Lemma names_none fs : kept cache before fs -> names_rewrites (MkRewriting ∅ 0 0) fs.
Proof. intros Hk. split; [done|]. simpl. intros filename target H. by rewrite lookup_empty in H. Qed.

Lemma rewrite_one_triple pkg i filename file so_far :
  pkg ∈ pkgs -> CompiledGoFiles pkg !! i = Some filename -> Syntax pkg !! i = Some file ->
  triple (on_files (names_rewrites so_far)) (rewrite_one cache pkg filename file so_far)
    (fun so_far => on_files (names_rewrites so_far)) (on_files (kept cache before)).
Proof.
  intros Hpkg Hi Hf h [Hk Hr]. unfold rewrite_one, io_bind.
  destruct (replace so_far !! filename); [by split|].
  destruct (importsEffect file) eqn:Himp; simpl; [|by split].
  unfold os_ReadFile, attempt at 1. destruct (fails (turn h)); [done|]. simpl.
  destruct (files h !! filename) as [text|] eqn:Htext; [|done]. simpl.
  unfold rewritten_file at 1. destruct (RewriteFile.File _ _ _ _) as [result| |] eqn:Hres; [|done..]. simpl.
  set (h1 := MkHost _ _ _ _).
  pose proof (explain_triple (eq (files h)) filename (Declines result) (on_files (eq (files h))) h1 eq_refl) as He.
  destruct (explain _ _ h1) as [[u|err|] h2]; unfold on_files in *; cbn [fst snd] in *; [|by rewrite <-He..].
  destruct (Source result) as [source|] eqn:Hsrc; [|simpl; unfold on_files; rewrite <-He; by split].
  assert (Ha : kept cache (files h2) (files h2)) by (rewrite <-He; apply kept_refl, Hk).
  pose proof (store_triple cache (files h2) filename source h2 Ha) as Hst.
  destruct (store _ _ _ h2) as [[t|err|] h3]; unfold on_files in *;
    [|by eapply kept_trans; [|exact Hst]; rewrite <-He..].
  destruct Hst as (-> & Hk3 & Ht3). rewrite <-He in Hk3. split; [by eapply kept_trans|]. simpl.
  intros name target [[<- <-]|[_ H]]%lookup_insert_Some.
  - exists source. split; [|done]. exists pkg, i, file, text, result. split_and!; try done.
    rewrite <-Htext. symmetry. apply (kept_sources _ _ _ Hk). eapply apart; [done|]. by eapply list_elem_of_lookup_2.
  - destruct (Hr name target H) as (source' & ? & -> & ?). exists source'. split_and!; [done..|].
    by apply (kept_targets _ _ _ Hk3).
Qed.

Lemma rewrite_files_triple pkg names syntax i so_far : pkg ∈ pkgs ->
  (forall j, names !! j = CompiledGoFiles pkg !! (i + j)) -> (forall j, syntax !! j = Syntax pkg !! (i + j)) ->
  triple (on_files (names_rewrites so_far)) (rewrite_files cache pkg names syntax so_far)
    (fun so_far => on_files (names_rewrites so_far)) (on_files (kept cache before)).
Proof.
  intros Hpkg. revert names i so_far. induction syntax as [|file syntax IH]; intros names i so_far Hn Hs; simpl.
  - by destruct names; intros h H.
  - destruct names as [|filename names]; [by intros h [? _]|].
    eapply triple_bind.
    + apply (rewrite_one_triple pkg i); [done| |].
      * rewrite <-(Nat.add_0_r i), <-Hn. done.
      * rewrite <-(Nat.add_0_r i), <-Hs. done.
    + intros so_far'. apply (IH names (S i)).
      * intros j. replace (S i + j) with (i + S j) by lia. by rewrite <-Hn.
      * intros j. replace (S i + j) with (i + S j) by lia. by rewrite <-Hs.
Qed.

Lemma rewrite_packages_triple some so_far : some ⊆ pkgs ->
  triple (on_files (names_rewrites so_far)) (rewrite_packages cache some so_far)
    (fun so_far => on_files (names_rewrites so_far)) (on_files (kept cache before)).
Proof.
  revert so_far. induction some as [|pkg some IH]; intros so_far Hs; simpl; [by intros h|].
  eapply triple_bind; [apply (rewrite_files_triple _ _ _ 0); [set_solver|done..]|].
  intros so_far'. apply IH. set_solver.
Qed.
End Overlay.

Lemma mentionsGen_triple P paths : triple (on_files P) (mentionsGen paths) (fun _ => on_files P) (on_files P).
Proof.
  induction paths as [|path paths IH]; simpl; [by intros h|].
  eapply triple_bind; [by apply (triple_attempt _ P (fun _ => P))|].
  intros [text|err]; [|exact IH]. destruct (_ || _); [by intros h|exact IH].
Qed.

Lemma importing_triple P pkgs seen : triple (on_files P) (importing pkgs seen) (fun _ => on_files P) (on_files P).
Proof.
  revert seen. induction pkgs as [|pkg pkgs IH]; intros seen; simpl; [by intros h|].
  destruct (_ || _); [done|]. eapply triple_bind; [apply mentionsGen_triple|].
  intros []; simpl; [|done]. eapply triple_bind; [apply IH|]. intros importers. by intros h.
Qed.

Lemma importersOfGen_triple P patterns :
  triple (on_files P) (importersOfGen patterns) (fun _ => on_files P) (on_files P).
Proof.
  unfold importersOfGen. destruct (Load patterns) as [pkgs|err]; [|by intros h].
  intros h H. apply (importing_triple P pkgs ∅ h H).
Qed.

(** What the overlay file of a run names: files as they are, with the rewrite of each at
    the address of its content. *)
Definition overlays (cache path : string) (before fs : gmap string string) : Prop :=
  exists replace, path = target_of cache "overlay.json" (Marshal replace) /\ is_Some (fs !! path)
  /\ forall filename target, replace !! filename = Some target ->
     exists importers pkgs source, LoadTypes importers = inl pkgs /\ rewrites_to pkgs before filename source
       /\ target = target_of cache filename source
       /\ exists stored name', fs !! target = Some stored /\ target_of cache name' stored = target.

(** C37. However the overlay is made, and wherever it fails, no file outside the cache is
    touched and every file kept in the cache is at the address of its own content. The
    file it answers with is there, and names only files of the loaded packages that
    import [effect], each with what [rewrite.File] makes of the text it has. *)
Theorem overlay_leaves_sources_alone patterns h base :
  UserCacheDir = inl base ->
  addressed (path_Join base "effectgo") (files h) ->
  (forall importers pkgs pkg filename, LoadTypes importers = inl pkgs -> pkg ∈ pkgs ->
     filename ∈ CompiledGoFiles pkg -> ~ cached (path_Join base "effectgo") filename) ->
  let '(answer, h') := overlay patterns h in
  kept (path_Join base "effectgo") (files h) (files h')
  /\ forall path, answer = Returned path -> overlays (path_Join base "effectgo") path (files h) (files h').
Proof.
  intros Hbase Ha Hapart. set (cache := path_Join base "effectgo") in *. set (before := files h) in *.
  assert (Hk : on_files (kept cache before) h) by by apply kept_refl.
  cut (triple (on_files (kept cache before)) (overlay patterns)
    (fun path => on_files (fun fs => kept cache before fs /\ overlays cache path before fs)) (on_files (kept cache before))).
  { intros Ht. specialize (Ht h Hk). destruct (overlay patterns h) as [[path|err|] h']; [|by split..].
    destruct Ht as [? ?]. split; [done|]. by intros ? [= <-]. }
  clear Hk. unfold overlay. apply (triple_bind _ _ _ (fun _ => on_files (kept cache before))).
  { destruct (0 <? length patterns); [apply importersOfGen_triple|by intros h' H]. }
  intros importers. apply (triple_bind _ _ _ (fun dir => on_files (fun fs => dir = cache /\ kept cache before fs))).
  { unfold cacheDir. rewrite Hbase. intros h' H. unfold io_bind, or_return, io_ret. fold cache. by destruct (MkdirAll cache). }
  set (made so_far fs := exists pkgs importers, (LoadTypes importers = inl pkgs \/ replace so_far = ∅)
    /\ names_rewrites pkgs cache before so_far fs).
  intros dir h0 [-> H0].
  refine (triple_bind (on_files (kept cache before)) _ _ (fun so_far => on_files (made so_far))
    (fun path => on_files (fun fs => kept cache before fs /\ overlays cache path before fs))
    (on_files (kept cache before)) _ _ h0 H0); clear h0 H0.
  { destruct (0 <? length importers); [|intros h1 H1; exists [], []; split; [by right|]; by apply names_none].
    destruct (LoadTypes importers) as [pkgs|err] eqn:Hload; [|by intros h1].
    intros h1 H1. simpl.
    pose proof (rewrite_packages_triple pkgs cache before (fun pkg filename => Hapart _ _ pkg filename Hload) pkgs
      (MkRewriting ∅ 0 0) ltac:(done) h1 (names_none _ _ _ _ H1)) as Ht.
    unfold io_bind, or_return, io_ret. destruct (rewrite_packages _ _ _ h1) as [[so_far|err|] h2]; [|done..].
    exists pkgs, importers. by split; [left|]. }
  intros so_far. apply (triple_bind _ _ _ (fun _ => on_files (made so_far))); [by intros h1 H1|]. intros [] h1 (pkgs & imp & Hload & Hk1 & Hr).
  pose proof (store_triple cache (files h1) "overlay.json" (Marshal (replace so_far)) h1) as Ht.
  destruct (store _ _ _ h1) as [[path|err|] h2]; unfold on_files in *;
    [|eapply kept_trans; [exact Hk1|]; apply Ht, kept_refl, Hk1..].
  destruct Ht as (-> & Hk2 & Hp); [apply kept_refl, Hk1|]. split; [by eapply kept_trans|].
  exists (replace so_far). split_and!; [done..|]. intros filename target Hf.
  destruct (Hr _ _ Hf) as (source & Hs & -> & Hin). destruct Hload as [Hload|E0]; [|by rewrite E0 in Hf].
  exists imp, pkgs, source. split_and!; [done..|].
  destruct (kept_targets _ _ _ Hk2 _ _ Hin) as [stored Hst].
  destruct (kept_addressed _ _ _ Hk2 _ _ _ Hst) as [name' ?]. by exists stored, name'.
Qed.
End Host.
