(* ===== verification/RewriteTermination.v ===== *)
(** The rewrite ends on every file: no recursion runs out of the fuel it is given. *)

From S2P Require Import Prelude GoStrings GoSyntax RewriteText RewriteNames RewriteSite RewriteEmitter RewriteWalk RewriteEmit RewriteFile.

Ltac halt := repeat halts_step; auto with halts.
Create HintDb halts.

(** * Names and types *)

Lemma fresh_name_halts prefix : halts (fresh_name prefix).
Proof.
  intros tn. unfold fresh_name. destruct (fresh_spec prefix (tn_names tn)) as (n & E & _). by rewrite E.
Qed.
#[export] Hint Resolve fresh_name_halts : halts.

Lemma packageName_halts path name : halts (packageName path name).
Proof. unfold packageName, set_additions. halt. Qed.
#[export] Hint Resolve packageName_halts : halts.

Lemma type_text_halts info t : halts (type_text info t).
Proof.
  unfold type_text. halts_step; [done|]. halts_step; [|halt]. halts_step; [|halt].
  induction (TypePieces info t) as [|[s|p] pieces IH]; cbn [TypeString]; halt.
Qed.
#[export] Hint Resolve type_text_halts : halts.

Lemma with_types_halts {A} (m : M typeNames A) : halts m -> halts (with_types m).
Proof. intros Hm s. unfold with_types. specialize (Hm (em_types s)). by destruct (m _) as [[a tn]| |]. Qed.

Lemma em_fresh_halts prefix : halts (em_fresh prefix).
Proof. apply with_types_halts; auto with halts. Qed.
Lemma em_type_text_halts em t : halts (em_type_text em t).
Proof. apply with_types_halts; auto with halts. Qed.
#[export] Hint Resolve em_fresh_halts em_type_text_halts : halts.

Lemma decline_halts reason : halts (decline reason).
Proof. done. Qed.
Lemma failed_halts : halts failed.
Proof. done. Qed.
Lemma emits_halts call : halts (emits call).
Proof. done. Qed.
#[export] Hint Resolve decline_halts failed_halts emits_halts : halts.

(** * Finding a site *)

Lemma because_halts reason : halts (because reason).
Proof. unfold because. halt. Qed.
#[export] Hint Resolve because_halts : halts.

Lemma visit_halts info do fuel nested n : node_size n <= fuel -> halts (visit info do fuel nested n).
Proof.
  revert nested n. induction fuel as [|fuel IH]; intros nested n Hn.
  { rewrite node_size_unfold in Hn. lia. }
  assert (forall nested c, node_size c < node_size n -> halts (InspectM (visit info do fuel nested) c)) as Hbelow.
  { intros nested' c Hc. apply halts_InspectM; [apply IH; lia|]. intros m Hm. apply IH. lia. }
  cbn [visit]. halts_step; [done|]. halts_step; [halt|].
  destruct (kind_of n); try by halt.
  - halts_step. halts_step; [|halt]. apply Hbelow. by eapply field_size.
  - destruct (callSelector n) as [[x Sel]|]; [|halt]. halts_step; [halt|].
    halts_step; [halt|]. halts_step; [|halt].
    halts_step. unfold add_step. halts_step; [halt|]. halts_step; [|halt].
    apply Hbelow. eapply field_size. eassumption.
Qed.

Lemma collectSteps_halts info literal do : collectSteps info literal do <> Exhausted.
Proof.
  unfold collectSteps. destruct do as [do|]; [|done]. destruct (field fBody literal) as [body|]; [|done].
  assert (halts (InspectM (visit info do (node_size body) false) body)) as H.
  { apply halts_InspectM; [by apply visit_halts|]. intros m Hm. apply visit_halts. lia. }
  specialize (H (∅, EmptyString)). by destruct (InspectM _ _ _) as [[u found]| |].
Qed.

Lemma findSite_halts info call : findSite info call <> Exhausted.
Proof.
  unfold findSite. pose proof (collectSteps_halts info) as H.
  repeat (case_match; try done); exfalso; eapply H; eassumption.
Qed.

(** * Texts *)

Section Texts.
Context (em : emitter).

Lemma redeclared_halts lhs : halts (redeclared em lhs).
Proof. induction lhs as [|expr lhs IH]; cbn [redeclared]; halt. Qed.

Lemma text_by_halts collect n temps jumps :
  (forall temps jumps, halts (collect n n temps jumps false)) -> halts (text_by em collect n temps jumps).
Proof. intros H. unfold text_by. halts_step; [by apply halts_with_local|]. halt. Qed.

Lemma collect_halts fuel root n temps jumps inFunction :
  node_size n <= fuel -> halts (collect em fuel root n temps jumps inFunction).
Proof.
  revert root n temps jumps inFunction. induction fuel as [|fuel IH]; intros root n temps jumps inFunction Hn.
  { rewrite node_size_unfold in Hn. lia. }
  cbn [collect]. generalize (jumpsInside n jumps) as jumps'. clear jumps. intros jumps.
  assert (forall m, m = n \/ node_size m < node_size n ->
    halts (collect_visit em (collect em fuel) root n temps jumps inFunction m)) as Hvisit.
  { intros m Hm.
    assert (forall f c root temps jumps b, c ∈ fields f m -> halts (collect em fuel root c temps jumps b)) as Hc.
    { intros f c root' temps' jumps' b Hc%fields_size. apply IH. destruct Hm as [->|Hm]; lia. }
    assert (forall f c temps jumps, c ∈ fields f m -> halts (text_by em (collect em fuel) c temps jumps)) as Ht.
    { intros f c temps' jumps' Hcm. apply text_by_halts. intros. by eapply Hc. }
    unfold collect_visit, add. halts_step; [halt|]. halts_step; [halt|].
    assert (halts (if negb (ptr m =? ptr n) && negb (bool_decide (jumps = no_jumps))
      then collect em fuel m m temps jumps inFunction;; mret false else mret true)) as Hloop.
    { destruct (Nat.eqb_spec (ptr m) (ptr n)) as [?|Hne]; cbn [negb andb]; [halt|].
      halts_step; [|halt]. halts_step; [|halt]. apply IH. destruct Hm as [->|Hm]; [done|lia]. }
    destruct (kind_of m); try exact Hloop; try (by halt).
    - halts_step; [|halt]. halts_step. halts_step; [|halt]. eapply Hc, field_fields. eassumption.
    - halts_step; [|halt]. halts_step; [halts_step|halt]. unfold redeclaration.
      halts_step; [apply redeclared_halts|]. halt. apply halts_mapM. intros x Hx. by eapply Ht.
    - destruct (fields fResults m) as [|r [|r' rs]] eqn:Hr; [halt| |halt]. destruct inFunction; [halt|].
      halts_step; [|halt]. halts_step. eapply Ht. rewrite Hr. left.
  }
  apply halts_InspectM; [apply Hvisit; by left|]. intros m Hm. apply Hvisit. by right.
Qed.

Lemma text_halts n temps jumps : halts (text em n temps jumps).
Proof. apply text_by_halts. intros. by apply collect_halts. Qed.
Hint Resolve text_halts : halts.

(** * Steps and statements *)

Lemma ownSteps_halts stmt : halts (ownSteps em stmt).
Proof.
  unfold ownSteps. halts_step; [|halt]. halts_step.
  - halts_step. apply halts_for_each. intros expr _.
    assert (forall n, halts (own_visit em n)) as Hv by (intros n; unfold own_visit; halt).
    apply halts_InspectM; auto.
  - halts_step. destruct p as [found effectful]. halts_step; [|halt].
    apply halts_for_each. intros [at_ call] _. apply halts_for_each. intros other _. halt.
Qed.

Lemma chain_halts own inner : (forall temps, halts (inner temps)) -> halts (chain em own inner).
Proof.
  intros Hinner. unfold chain. generalize (∅ : temporaries) EmptyString 0.
  induction own as [|call own IH]; intros temps out depth; cbn [chain_from]; halt.
Qed.

Lemma simple_halts stmt temps : halts (simple em stmt temps).
Proof. unfold simple. halt. Qed.
Hint Resolve ownSteps_halts simple_halts : halts.

Lemma simples_halts stmts temps : halts (simples em stmts temps).
Proof. induction stmts as [|stmt stmts IH]; cbn [simples]; halt. Qed.
Hint Resolve simples_halts : halts.

Lemma valueTail_halts stmt rest k jumps own : halts (valueTail em stmt rest k jumps own).
Proof. unfold valueTail. halt; apply chain_halts; intros temps; halt. Qed.

Lemma loop_vars_halts vars lp : halts (loop_vars em vars lp).
Proof. revert lp. induction vars as [|ident vars IH]; intros lp; cbn [loop_vars]; halt. Qed.
Hint Resolve loop_vars_halts : halts.

Lemma part_text_halts part before after : halts (part_text em part before after).
Proof. unfold part_text. halt. Qed.
Lemma init_text_halts stmt temps : halts (init_text em stmt temps).
Proof. unfold init_text. halt. Qed.
Lemma option_text_halts expr temps : halts (option_text em expr temps).
Proof. unfold option_text. halt. Qed.
Hint Resolve part_text_halts init_text_halts option_text_halts : halts.

Lemma range_bind_halts stmt targets values : halts (range_bind em stmt targets values).
Proof. unfold range_bind. halts_step; [apply halts_mapM; auto with halts|halt]. Qed.
Hint Resolve range_bind_halts : halts.

Lemma iterationVariables_halts stmt kind collection index after :
  halts (iterationVariables em stmt kind collection index after).
Proof. unfold iterationVariables. halt. Qed.
Lemma integerType_halts expr : halts (integerType em expr).
Proof. unfold integerType. halt. Qed.
Hint Resolve iterationVariables_halts integerType_halts : halts.
End Texts.
#[export] Hint Resolve text_halts ownSteps_halts simple_halts simples_halts valueTail_halts loop_vars_halts part_text_halts init_text_halts option_text_halts range_bind_halts iterationVariables_halts integerType_halts : halts.

(** * Weights *)

Lemma weight_unfold n :
  weight n = S (sum_list (map (fun p => weight p.2 + (if decide (p.1 = fInit) then 1 else 0)) (fields_of n))).
Proof.
  destruct n as [p k b e fs]. cbn [weight fields_of]. f_equal.
  induction fs as [|[g c] fs IH]; [done|]. cbn [map sum_list fst snd]. by rewrite IH.
Qed.

Lemma list_weight_cons stmt l : list_weight (stmt :: l) = weight stmt + list_weight l.
Proof. done. Qed.

Lemma fields_weight f n : list_weight (fields f n) < weight n.
Proof.
  rewrite weight_unfold. unfold list_weight, fields. apply Nat.lt_succ_r.
  induction (fields_of n) as [|[g c] fs IH]; [done|]. rewrite filter_cons. cbn [fst snd].
  destruct (decide (g = f)); cbn [fmap list_fmap map sum_list fst snd]; cbn in *; lia.
Qed.

Lemma field_weight f n c : field f n = Some c -> weight c < weight n.
Proof.
  intros Hc%field_fields. pose proof (fields_weight f n) as Hw. revert Hw. unfold list_weight.
  induction Hc as [c l|c d l Hc IH]; cbn; lia.
Qed.

Definition field_weight_of (p : field_name * node) : nat := weight p.2 + (if decide (p.1 = fInit) then 1 else 0).

Lemma filter_weight (fs : list (field_name * node)) :
  sum_list (map field_weight_of (filter (fun f => f.1 <> fInit) fs)) <= sum_list (map field_weight_of fs).
Proof.
  induction fs as [|p fs IH]; [done|]. rewrite filter_cons. destruct (decide _); cbn in *; lia.
Qed.

(** Splitting a statement from its init makes both lighter together. *)
Lemma split_weight p n init :
  field fInit n = Some init -> weight init + weight (without_init_field p n) < weight n.
Proof.
  unfold field, fields. intros Hi. rewrite (weight_unfold n), (weight_unfold (without_init_field p n)).
  change (fields_of (without_init_field p n)) with (filter (fun f => f.1 <> fInit) (fields_of n)).
  fold field_weight_of.
  enough (weight init + sum_list (map field_weight_of (filter (fun f => f.1 <> fInit) (fields_of n)))
    < sum_list (map field_weight_of (fields_of n))) by lia.
  induction (fields_of n) as [|[g c] fs IH]; [done|]. rewrite filter_cons in *. cbn [fst snd] in *.
  destruct (decide (g = fInit)) as [->|Hg].
  - injection Hi as ->. destruct (decide _) as [Hne|_]; [done|]. cbn [map sum_list].
    cbn [sum_list_with]. pose proof (filter_weight fs). change (field_weight_of (fInit, init)) with (weight init + 1).
    unfold id in *. lia.
  - destruct (decide _) as [_|Hn]; [|done]. specialize (IH Hi). cbn [map sum_list_with]. unfold id in *. lia.
Qed.

(** * Emission *)

Section Emission.
Context (em : emitter) (list_ : lister) (bound : nat).
Hypothesis list_halts : forall stmts k jumps, list_weight stmts < bound -> halts (list_ stmts k jumps).

Lemma inside_halts f n k jumps : weight n <= bound -> halts (list_ (fields f n) k jumps).
Proof. intros Hn. apply list_halts. pose proof (fields_weight f n). lia. Qed.

Lemma below_halts f g n c k jumps : weight n <= bound -> field f n = Some c -> halts (list_ (fields g c) k jumps).
Proof. intros Hn Hc%field_weight. apply inside_halts. lia. Qed.

Lemma compound_halts rest k jumps emit :
  list_weight rest < bound -> (forall next, halts (emit next)) -> halts (compound em list_ rest k jumps emit).
Proof. intros Hrest Hemit. unfold compound. destruct rest; [done|]. halt. Qed.

Lemma clause_texts_halts clauses temps k outer_ out :
  list_weight clauses < bound -> halts (clause_texts em list_ clauses temps k outer_ out).
Proof.
  revert out. induction clauses as [|clause clauses IH]; intros out Hc; cbn [clause_texts]; [halt|].
  assert (weight clause <= bound) by (rewrite list_weight_cons in Hc; lia).
  assert (forall out, halts (clause_texts em list_ clauses temps k outer_ out)) as Hcs.
  { intros out'. apply IH. rewrite list_weight_cons in Hc. lia. }
  halts_step; [|halt]. unfold clause_text. halts_step; [halt|]. halts_step.
  - halts_step; [halt|]. halts_step; [apply halts_mapM; auto with halts|halt].
  - halts_step; [by apply inside_halts|halt].
Qed.

Lemma switchStatement_halts header body temps k outer_ :
  weight body <= bound -> halts (switchStatement em list_ header body temps k outer_).
Proof.
  intros Hb. unfold switchStatement. halts_step; [|halt]. apply clause_texts_halts.
  pose proof (fields_weight fList body). lia.
Qed.

Lemma branch_halts stmt temps k jumps : weight stmt <= bound -> halts (branch em list_ stmt temps k jumps).
Proof.
  intros Hs. unfold branch, ifStatement.
  assert (forall body header, field fBody stmt = Some body ->
    halts (switchStatement em list_ header body temps k jumps)) as Hsw.
  { intros body header Hb%field_weight. apply switchStatement_halts. lia. }
  destruct (kind_of stmt); try (by halt).
  - repeat (halts_step; [solve [halt]|]). halts_step. halts_step; [by eapply below_halts|].
    halts_step; [|halt]. destruct (field fElse stmt) as [alternative|] eqn:Ha; [|halt].
    destruct (kind_of alternative); try (by halt); halts_step; [|halt| |halt].
    + apply list_halts. apply field_weight in Ha. rewrite list_weight_cons. change (list_weight []) with 0. lia.
    + by eapply below_halts.
  - halts_step; [by apply inside_halts|halt].
Qed.

Lemma forLoop_halts stmt after : weight stmt <= bound -> halts (forLoop em list_ stmt after).
Proof.
  intros Hs. unfold forLoop, newLoop. halts_step; [halt|]. cbv zeta. halts_step; [halt|].
  halts_step; [|halt]. do 3 (halts_step; [auto with halts|]). halts_step.
  halts_step; [by eapply below_halts|halt].
Qed.

Lemma rangeLoop_halts stmt after : weight stmt <= bound -> halts (rangeLoop em list_ stmt after).
Proof.
  intros Hs. unfold rangeLoop. halts_step. cbv zeta. halts_step; [|halt]. halts_step; [halt|].
  halts_step; [auto with halts|]. apply chain_halts. intros temps. halts_step; [auto with halts|].
  unfold rangeBody. do 2 (halts_step; [auto with halts|]). halts_step. halts_step; [halt|].
  halts_step; [|halt]. cbv zeta. do 3 (halts_step; [auto with halts|]). halts_step.
  halts_step; [by eapply below_halts|halt].
Qed.

Lemma detach_halts stmt : halts (detach stmt).
Proof. done. Qed.
Hint Resolve detach_halts : halts.

Lemma withoutInit_halts stmt : halts (withoutInit em stmt).
Proof. unfold withoutInit. halt. Qed.

(** What [withoutInit] splits a statement into is lighter than the statement. *)
Lemma withoutInit_weight stmt s stmts s' :
  withoutInit em stmt s = Answer (Some stmts, s') -> list_weight stmts < weight stmt.
Proof.
  unfold withoutInit. destruct (match kind_of stmt with IfStmt => _ | _ => _ end) as [header|]; [|done].
  destruct (field fInit stmt) as [init|] eqn:Hi; [|done]. destruct (_ || _); [|done].
  unfold detach, mbind, M_bind. cbn. intros [= <- _]. rewrite !list_weight_cons. change (list_weight []) with 0.
  pose proof (split_weight (S (allocated s)) _ _ Hi). lia.
Qed.

Lemma unreachable_halts rest : halts (unreachable em rest).
Proof. done. Qed.
Hint Resolve unreachable_halts : halts.

Lemma own_statement_halts stmt rest k jumps own :
  list_weight rest < bound -> weight stmt <= bound -> halts (own_statement em list_ stmt rest k jumps own).
Proof.
  intros Hrest Hstmt. unfold own_statement. destruct (tailStep em stmt) as [[call argument]|].
  - halts_step; [solve [halt]|]. halts_step. apply chain_halts. intros temps. halt.
  - halts_step.
    + apply compound_halts; [done|]. intros next. apply chain_halts. intros temps. by apply branch_halts.
    + halts_step; [solve [halt]|]. halts_step; [halt|]. apply chain_halts. intros temps.
      halts_step; [halt|]. halts_step; [solve [halt]|]. halts_step; [by apply list_halts|halt].
Qed.

Lemma whole_statement_halts stmt rest k jumps :
  list_weight rest < bound -> weight stmt <= bound -> halts (whole_statement em list_ stmt rest k jumps).
Proof.
  intros Hrest Hstmt. unfold whole_statement.
  destruct (kind_of stmt); try (halts_step; [solve [halt]|]; halts_step; [solve [halt]|];
    halts_step; [halt|by apply own_statement_halts]);
    apply compound_halts; auto using forLoop_halts, rangeLoop_halts.
Qed.

Lemma statement_halts stmt rest k jumps :
  list_weight (stmt :: rest) <= bound -> halts (statement em list_ stmt rest k jumps).
Proof.
  intros Hw s. rewrite list_weight_cons in Hw.
  assert (list_weight rest < bound) as Hrest by (rewrite weight_unfold in Hw; lia).
  assert (weight stmt <= bound) as Hstmt by lia.
  unfold statement. unfold mbind at 1, M_bind at 1.
  pose proof (withoutInit_halts stmt s) as Hsplit.
  destruct (withoutInit em stmt s) as [[[stmts|] s']| |] eqn:E; [| |done|done].
  - apply withoutInit_weight in E. clear Hsplit. revert s'. apply compound_halts; [done|]. intros next.
    halts_step; [|halt]. apply list_halts. lia.
  - by apply whole_statement_halts.
Qed.

Lemma list_from_halts stmts k jumps out left_ :
  list_weight left_ <= bound -> halts (list_from em list_ stmts k jumps out left_).
Proof.
  revert out. induction left_ as [|stmt rest IH]; intros out Hw; cbn [list_from]; [halt|].
  assert (weight stmt <= bound /\ list_weight rest <= bound) as [Hstmt Hrest].
  { rewrite list_weight_cons in Hw. lia. }
  halts_step; [solve [halt]|]. halts_step; [halt|]. halts_step.
  - halts_step; [by apply statement_halts|halt].
  - halts_step; [halt|]. halts_step; (halts_step; [auto using branch_halts with halts|by apply IH]).
Qed.
End Emission.

Lemma em_list_halts em fuel stmts k jumps :
  list_weight stmts < fuel -> halts (em_list em fuel stmts k jumps).
Proof.
  revert stmts k jumps. induction fuel as [|fuel IH]; intros stmts k jumps Hw; [lia|].
  cbn [em_list]. apply (list_from_halts _ _ fuel); [|lia]. intros. by apply IH.
Qed.

Lemma body_halts em : halts (body em).
Proof.
  unfold body. halts_step. cbv zeta. halts_step; [apply em_list_halts; lia|].
  halts_step; [halt|]. halts_step; [halt|halt].
Qed.

(** * Files *)

Lemma rewriteSite_halts src info replaced call : halts (rewriteSite src info replaced call).
Proof.
  unfold rewriteSite, restored, set_additions, forSite. halts_step.
  - intros tn. pose proof (findSite_halts info call) as H. by destruct (findSite info call).
  - halts_step; [|halt]. halts_step. cbv zeta. halts_step; [halt|].
    do 3 (halts_step; [solve [halt]|]).
    do 3 (halts_step; [solve [halt]|]; halts_step; [|halt]).
    halts_step; [|halt]. intros tn. match goal with |- context [body ?em ?s] => pose proof (body_halts em s) as Hbody end.
    by destruct (body _ _) as [[? ?]| |].
Qed.

Lemma rewrite_calls_halts src info so_far calls : halts (rewrite_calls src info so_far calls).
Proof.
  revert so_far. induction calls as [|call calls IH]; intros so_far; cbn [rewrite_calls]; [halt|].
  halts_step; [|apply IH]. destruct so_far as [[replaced rewrites] declines].
  unfold rewrite_call. halts_step; [apply rewriteSite_halts|halt].
Qed.

