(* ===== verification/RewriteWitnesses.v ===== *)
(** Concrete files for the rewriter: trees laid out with their text, the files
    rewritten, and the inputs the theorems about it hold at. *)

From S2P Require Import Prelude GoStrings GoSyntax RewriteText RewriteNames RewriteSite RewriteEmitter RewriteWalk RewriteEmit RewriteFile.
From S2P Require Command.

(** * Laying out trees *)

(** A node as it is written: text and nodes in turn. *)
Inductive sketch : Type := Sketch (kind : node_kind) (parts : list (string + field_name * sketch)).

(** The node from a position on, with pointers from a number on, its text, and the
    first pointer left. *)
Fixpoint lay_out (s : sketch) (from p : nat) : node * string * nat :=
  match s with
  | Sketch kind parts =>
      let '(fs, text, q) :=
        (fix go (parts : list (string + field_name * sketch)) (from p : nat) :
            list (field_name * node) * string * nat :=
           match parts with
           | [] => ([], EmptyString, p)
           | inl t :: parts =>
               let '(fs, text, q) := go parts (from + String.length t) p in
               (fs, (t ++ text)%string, q)
           | inr (f, s) :: parts =>
               let '(n, t, p) := lay_out s from p in
               let '(fs, text, q) := go parts (from + String.length t) p in
               ((f, n) :: fs, (t ++ text)%string, q)
           end) parts from (S p) in
      (MkNode p kind from (from + String.length text) fs, text, q)
  end.

Definition ident (name : string) : sketch := Sketch (Ident name) [inl name].
Definition literal (text : string) : sketch := Sketch OtherNode [inl text].
Definition select (x : sketch) (name : string) : sketch := Sketch SelectorExpr [inr (fX, x); inl "."; inr (fSel, ident name)].

Fixpoint separated (f : field_name) (sep : string) (nodes : list sketch) : list (string + field_name * sketch) :=
  match nodes with
  | [] => []
  | [n] => [inr (f, n)]
  | n :: nodes => inr (f, n) :: inl sep :: separated f sep nodes
  end.

Definition call (fun_ : sketch) (args : list sketch) : sketch :=
  Sketch CallExpr ([inr (fFun, fun_); inl "("] ++ separated fArgs ", " args ++ [inl ")"]).
Definition binary (x : sketch) (op : string) (y : sketch) : sketch :=
  Sketch (BinaryExpr (OtherToken op)) [inr (fX, x); inl (" " ++ op ++ " ")%string; inr (fY, y)].
Definition define (name : string) (value : sketch) : sketch :=
  Sketch (AssignStmt DEFINE) [inr (fLhs, ident name); inl " := "; inr (fRhs, value)].
Definition return_ (value : sketch) : sketch := Sketch ReturnStmt [inl "return "; inr (fResults, value)].
Definition expr (x : sketch) : sketch := Sketch ExprStmt [inr (fX, x)].
Definition block (stmts : list sketch) : sketch :=
  Sketch BlockStmt ([inl "{ "] ++ separated fList "; " stmts ++ [inl " }"]).
Definition field_list (fields : list sketch) : sketch := Sketch FieldList (separated fList ", " fields).
Definition func_type (params : list sketch) (result : string) : sketch :=
  Sketch FuncType [inl "func("; inr (fParams, field_list params); inl ") ";
                   inr (fResults, field_list [Sketch FieldNode [inr (fType, literal result)]])].
Definition func_lit (params : list sketch) (result : string) (stmts : list sketch) : sketch :=
  Sketch FuncLit [inr (fType, func_type params result); inl " "; inr (fBody, block stmts)].

Definition gen (result : string) (stmts : list sketch) : sketch :=
  call (select (ident "effect") "Gen")
    [func_lit [Sketch FieldNode [inr (fNames, ident "do"); inl " "; inr (fType, literal "*effect.Do[R, E]")]] result stmts].
Definition await (x : sketch) : sketch := call (select (ident "do") "Await") [x].

(** A file with one import and one function that returns an expression. *)
Definition file_of (value : sketch) : sketch :=
  Sketch OtherNode [inl "package p; "; inr (fDecls, Sketch (GenDecl IMPORT) [inl "import E"]); inl "; ";
    inr (fDecls, Sketch OtherNode [inl "func f() T { "; inr (fOther, return_ value); inl " }"])].

(** * What the type checker says of them *)

Definition own_package : package := MkPackage "example.org/p" "p".
Definition effect_package : package := MkPackage effectPath "effect".

Definition type_R : gotype := Named 1 (MkSymbol "R" (Some own_package) true) [].
Definition type_E : gotype := Named 2 (MkSymbol "E" (Some own_package) true) [].
Definition type_int : gotype := Basic 3 true false.
Definition type_Effect : gotype := Named 4 (MkSymbol "Effect" (Some effect_package) true) [type_R; type_E; type_int].

Definition declared_names (tree : node) : list nat :=
  concat (map (fun n => map ptr (fields fNames n ++ fields fLhs n)) (visited (fun _ => false) tree)).
Definition names_of (tree : node) (p : nat) : option string :=
  head (omap (fun n => if ptr n =? p then match kind_of n with Ident name => Some name | _ => None end else None)
    (visited (fun _ => false) tree)).

Definition object_named (name : string) : option object :=
  if String.eqb name "Gen" then Some (MkObject 100 FuncObject (MkSymbol name (Some effect_package) true) type_int)
  else if String.eqb name "do" then Some (MkObject 101 OtherObject (MkSymbol name (Some own_package) false) type_int)
  else if String.eqb name "x" then Some (MkObject 102 OtherObject (MkSymbol name (Some own_package) false) type_int)
  else if String.eqb name "i" then Some (MkObject 103 OtherObject (MkSymbol name (Some own_package) false) type_int)
  else None.

Definition info_of (tree : node) : Info := {|
  Uses p := if existsb (Nat.eqb p) (declared_names tree) then None else names_of tree p ≫= object_named;
  Defs p := if existsb (Nat.eqb p) (declared_names tree) then names_of tree p ≫= object_named else None;
  IsType _ := false;
  TypeOf p :=
    if existsb (fun n => (ptr n =? p) && bool_decide (kind_of n = CallExpr)
      && match field fFun n ≫= field fSel with Some sel => String.eqb (ident_Name sel) "Gen" | None => false end)
      (visited (fun _ => false) tree)
    then type_Effect else type_int;
  Identical t u := type_ptr t =? type_ptr u;
  Underlying t := t;
  TypePieces t :=
    match type_ptr t with
    | 1 => [inr own_package; inl "R"] | 2 => [inr own_package; inl "E"] | 3 => [inl "int"]
    | _ => [inr effect_package; inl "Effect"]
    end;
  LookupParent _ _ := None;
  PkgNameOf _ := Some ("effect", effectPath)
|}.

Definition import_spec : node := MkNode 0 OtherNode 0 0 [].

Definition laid_out (s : sketch) : node := (lay_out s 1 1).1.1.
Definition source_of (s : sketch) : source :=
  MkSource 1 (lay_out s 1 1).1.2 "p.go" (fun pos => (1%Z, Z.of_nat pos)).

Definition rewrite_sketch (s : sketch) : answer Result :=
  File (source_of s) (info_of (laid_out s)) (MkFile (laid_out s) [import_spec]) own_package.

(** * Files *)

Definition value_file : sketch :=
  file_of (gen "int" [define "x" (await (call (ident "g") [])); return_ (binary (ident "x") "+" (literal "1"))]).

(** A function literal that is returned is the root of the text it is spelled in, where
    it is not taken for a literal: its own return becomes one of the body's. *)
Definition nested_literal : sketch :=
  file_of (gen "func() int" [return_ (func_lit [] "int" [return_ (literal "1")])]).

Example nested_literal_loses_its_return :
  match rewrite_sketch nested_literal with
  | Answer (MkResult (Some text) 1 []) =>
      Contains text "return effect.Succeed[R, E, int](func() int { return effect.Succeed[R, E, int](1) })"
  | _ => false
  end = true.
Proof. vm_compute. reflexivity. Qed.

(** The internal-package rule takes the last ["/internal/"] of a path, also where the
    path ends in another [internal]. *)
Example importable_takes_an_earlier_internal :
  importable "example.org/a/c" "example.org/a/internal/b/internal" = true.
Proof. vm_compute. reflexivity. Qed.

(** * Deciding what the theorems ask of trees *)

Fixpoint follow_b (from : Pos) (nodes : list node) (to : Pos) : bool :=
  match nodes with
  | [] => from <=? to
  | n :: nodes => (from <=? node_Pos n) && (node_Pos n <=? node_End n) && follow_b (node_End n) nodes to
  end.

Lemma follow_b_spec from nodes to : follow_b from nodes to = true -> follow from nodes to.
Proof.
  revert from. induction nodes as [|n nodes IH]; intros from; cbn; [apply Nat.leb_le|].
  intros [[H1%Nat.leb_le H2%Nat.leb_le]%andb_true_iff H3%IH]%andb_true_iff. done.
Qed.

Definition tidy_node_b (n : node) : bool :=
  (node_Pos n <=? node_End n) && follow_b (node_Pos n) (children n) (node_End n)
  && match kind_of n with
     | BranchStmt _ => bool_decide (is_Some (field fLabel n)) || (length (children n) =? 0)
     | _ => true
     end.

(** What holds of every node of a tree by computation. *)
Lemma everywhere_check (P : node -> bool) n :
  forallb P (visited (fun _ => false) n) = true -> forall m, m ∈ visited (fun _ => false) n -> P m = true.
Proof. rewrite forallb_forall. intros H m Hm. apply H. by rewrite <- list_elem_of_In. Qed.

Lemma tidy_check n : forallb tidy_node_b (visited (fun _ => false) n) = true -> tidy n.
Proof.
  intros Hall. pose proof (everywhere_check _ _ Hall) as H. clear Hall. induction n as [n IH] using syntax_nested_ind.
  assert (tidy_node_b n = true) as Hn by (apply H; rewrite elem_of_visited; by left). unfold tidy_node_b in Hn.
  apply andb_true_iff in Hn as [[Hle%Nat.leb_le Hf%follow_b_spec]%andb_true_iff Hb]. constructor; [done..| |].
  - intros Tok Hk Hl. rewrite Hk, Hl in Hb. cbn in Hb. by destruct (children n).
  - rewrite Forall_forall in *. intros c Hc. apply (IH c Hc). intros m Hm. apply H.
    rewrite elem_of_visited. right. eauto.
Qed.

Definition closed_call_b (n : node) : bool :=
  match kind_of n with
  | CallExpr => (node_Pos n <? node_End n) && forallb (fun c => node_End c <? node_End n) (children n)
  | _ => true
  end.

Lemma closed_calls_check nodes :
  forallb (fun n => forallb closed_call_b (visited (fun _ => false) n)) nodes = true -> closed_calls nodes.
Proof.
  rewrite forallb_forall. intros H n m Hn%list_elem_of_In Hm Hk.
  pose proof (everywhere_check _ _ (H n Hn) m Hm) as Hb. unfold closed_call_b in Hb. rewrite Hk in Hb.
  apply andb_true_iff in Hb as [Hp%Nat.ltb_lt Hc]. split; [done|]. rewrite forallb_forall in Hc.
  intros c Hin%list_elem_of_In. by apply Nat.ltb_lt, Hc.
Qed.

Section Typed.
Context (info : Info) (do : object).

Definition uses_do_b (n : node) : bool :=
  match kind_of n with Ident _ => uses_object info (Some n) do | _ => false end.

Definition no_other_use (allowed : node -> bool) (n : node) : bool :=
  forallb (fun m => negb (uses_do_b m) || allowed m) (everywhere n).

Lemma no_other_use_spec allowed n m :
  no_other_use allowed n = true -> m ∈ everywhere n -> uses_do info do m -> allowed m = true.
Proof.
  intros H Hm [[Name Hk] Hu]. pose proof (everywhere_check _ _ H m Hm) as Hb. cbn in Hb.
  unfold uses_do_b in Hb. by rewrite Hk, Hu in Hb.
Qed.

Definition well_typed_b (n : node) : bool :=
  match kind_of n, fields_of n with
  | CallExpr, [(fFun, f); (fArgs, _)] =>
      match callSelector n with
      | Some (x, _) =>
          match identOf x with
          | Some receiver => no_other_use (fun m => ptr m =? ptr receiver) f
          | None => true
          end
      | None => true
      end
  | CallExpr, _ => negb (uses_object info (callSelector n ≫= (fun p => identOf p.1)) do)
  | FuncLit, [(fType, t); (fBody, _)] => no_other_use (fun _ => false) t
  | FuncLit, _ => false
  | _, _ => true
  end.

Lemma well_typed_check body : forallb well_typed_b (everywhere body) = true -> well_typed info do body.
Proof.
  intros Hall n Hn. pose proof (everywhere_check _ _ Hall n Hn) as Hb. clear Hall. unfold well_typed_b in Hb. split.
  - intros Sel receiver (Hk & x & Hs & Hx & Hu) _. rewrite Hk, Hs in Hb. destruct n as [p k b e fs]. cbn [fields_of kind_of] in *.
    destruct fs as [|[[] f] [|[[] a] [|? ?]]]; try (cbn in Hb; rewrite Hx, Hu in Hb; done).
    exists a. split; [done|]. intros c m [->|[->|Hc%elem_of_nil]%elem_of_cons]%elem_of_cons Hm Hum; [left|by right|done].
    rewrite Hx in Hb. by apply Nat.eqb_eq, (no_other_use_spec _ _ _ Hb Hm Hum).
  - intros Hk body' c m Hbody Hc Hm Hu. rewrite Hk in Hb. destruct n as [p k b e fs]. cbn [fields_of kind_of] in *.
    destruct fs as [|[[] t] [|[[] d] [|? ?]]]; try done. injection Hbody as <-.
    apply elem_of_cons in Hc as [->|[->|Hc%elem_of_nil]%elem_of_cons]; [|done|done].
    by pose proof (no_other_use_spec _ _ _ Hb Hm Hu).
Qed.
End Typed.

(** * The theorems at work *)

(** [x := g(do.Await(a()), do.Await(b()))], with the second step's argument holding
    the first of two steps. *)
Definition ordered_file : sketch :=
  file_of (gen "int" [define "x" (call (ident "g") [await (call (ident "a") []); await (await (call (ident "b") []))]);
                      return_ (ident "x")]).

Definition gen_call (s : sketch) : node :=
  default (laid_out s) (head (gen_calls (info_of (laid_out s)) (MkFile (laid_out s) [import_spec]))).
Definition literal_of (s : sketch) : node := default (laid_out s) (head (fields fArgs (gen_call s))).
Definition body_of (s : sketch) : node := default (laid_out s) (field fBody (literal_of s)).
Definition statement_of (s : sketch) (n : nat) : node := default (laid_out s) (fields fList (body_of s) !! n).
Definition do_object : object := MkObject 101 OtherObject (MkSymbol "do" (Some own_package) false) type_int.

Definition steps_of (s : sketch) : gmap nat (node * step) :=
  match collectSteps (info_of (laid_out s)) (literal_of s) (Some do_object) with
  | Answer (found, _) => found
  | _ => ∅
  end.
Definition site_of (s : sketch) : site :=
  MkSite (gen_call s) (literal_of s) (Some do_object) type_R type_E type_int (steps_of s).

Definition emitter_of (s : sketch) : emitter :=
  MkEmitter (source_of s) (info_of (laid_out s)) (site_of s) ∅ "effect" "R" "E" "int" "effect.Effect[R, E, int]".
Definition names_start (s : sketch) : typeNames :=
  newTypeNames (MkFile (laid_out s) [import_spec]) (info_of (laid_out s)) own_package
    (newNames (MkFile (laid_out s) [import_spec])).
Definition emission_start (s : sketch) : emission := MkEmission (names_start s) ∅ EmptyString ∅ 100.

Definition answered {A S} (a : answer (A * S)) (d : A) : A := match a with Answer (x, _) => x | _ => d end.
Definition left_in {A S} (a : answer (A * S)) (d : S) : S := match a with Answer (_, s) => s | _ => d end.

Lemma splice_applies_disjoint_edits_witness :
  splice (MkSource 0 "a+b+c" "p.go" (fun _ => (1%Z, 1%Z))) 0 5 [MkEdit 4 5 "(c)"; MkEdit 0 1 "x"] = Some "x+b+(c)"%string.
Proof.
  pose proof (splice_applies_disjoint_edits (MkSource 0 "a+b+c" "p.go" (fun _ => (1%Z, 1%Z)))
    EmptyString EmptyString EmptyString
    [MkSegment EmptyString "a" "x"; MkSegment "+b+" "c" "(c)"] [MkEdit 4 5 "(c)"; MkEdit 0 1 "x"]) as H.
  apply H; [reflexivity|apply Permutation_swap|].
  apply NoDup_cons; split; [|apply NoDup_singleton]. intros Hin%list_elem_of_singleton. discriminate Hin.
Defined.

(** The first identifier of the body that is its parameter. *)
Definition first_use : node :=
  default (body_of ordered_file)
    (head (filter (fun m => uses_do_b (info_of (laid_out ordered_file)) do_object m = true)
       (everywhere (body_of ordered_file)))).

Lemma do_is_gone_witness :
  kind_of first_use = Ident "do"
  /\ is_receiver (info_of (laid_out ordered_file)) do_object (steps_of ordered_file) (body_of ordered_file) first_use.
Proof.
  split; [vm_compute; reflexivity|].
  apply (do_is_gone (info_of (laid_out ordered_file)) (gen_call ordered_file) (site_of ordered_file) do_object
    (body_of ordered_file) first_use);
    [vm_compute; reflexivity|reflexivity|vm_compute; reflexivity| | |].
  - apply well_typed_check. vm_compute. reflexivity.
  - assert (Hin : first_use ∈ filter (fun m => uses_do_b (info_of (laid_out ordered_file)) do_object m = true)
      (everywhere (body_of ordered_file))) by (apply head_Some_elem_of; vm_compute; reflexivity).
    by apply list_elem_of_filter in Hin as [_ Hin].
  - split; [by exists "do"%string|]. vm_compute. reflexivity.
Defined.

Definition ordered_nodes : list node :=
  fields fLhs (statement_of ordered_file 0) ++ fields fRhs (statement_of ordered_file 0).
Definition ordered_run : answer (list node * emission) :=
  ownSteps (emitter_of ordered_file) (statement_of ordered_file 0) (emission_start ordered_file).

Lemma own_steps_in_evaluation_order_witness :
  map node_Pos (answered ordered_run []) = [92; 116; 107]
  /\ exists s', ownSteps (emitter_of ordered_file) (statement_of ordered_file 0) (emission_start ordered_file)
      = Answer (filter (fun n => is_step (emitter_of ordered_file) n = true) (in_order ordered_nodes), s')
  /\ (failure s' = EmptyString -> overtakes_nothing (emitter_of ordered_file) (in_order ordered_nodes)
        /\ always_evaluated (emitter_of ordered_file) (in_order ordered_nodes))
  /\ (failure (emission_start ordered_file) = EmptyString ->
        only_steps (emitter_of ordered_file) (in_order ordered_nodes) -> failure s' = EmptyString).
Proof.
  split; [vm_compute; reflexivity|].
  apply (own_steps_in_evaluation_order (emitter_of ordered_file) (statement_of ordered_file 0)
    ordered_nodes ordered_nodes (node_Pos (statement_of ordered_file 0)) (node_End (statement_of ordered_file 0))
    (emission_start ordered_file));
    [vm_compute; reflexivity|reflexivity|apply follow_b_spec; vm_compute; reflexivity| |].
  - repeat (constructor; [apply tidy_check; vm_compute; reflexivity|]). constructor.
  - apply closed_calls_check. vm_compute. reflexivity.
Defined.

(** A call before a step is not overtaken: the body is declined. *)
Definition overtaking_file : sketch :=
  file_of (gen "int" [define "x" (binary (call (ident "h") []) "+" (await (call (ident "g") [])))]).

Example calls_are_not_overtaken :
  match ownSteps (emitter_of overtaking_file) (statement_of overtaking_file 0) (emission_start overtaking_file) with
  | Answer (_, s) => String.eqb (failure s) "a call is evaluated before a step in the same statement"
  | _ => false
  end = true.
Proof. vm_compute. reflexivity. Qed.

(** A statement whose jumps were translated, with a loop that keeps its own break and a
    returned value with a literal inside. *)
Definition branch (Tok : token) (word : string) : sketch := Sketch (BranchStmt Tok) [inl word].
Definition for_ (stmts : list sketch) : sketch := Sketch ForStmt [inl "for "; inr (fBody, block stmts)].
Definition jumping_file : sketch :=
  file_of (gen "int" [block [branch CONTINUE "continue"; for_ [branch BREAK "break"];
                             return_ (call (ident "g") [func_lit [] "int" [return_ (literal "1")]])]]).
Definition jumping : node := statement_of jumping_file 0.
Definition jumping_jumps : jumpTargets := MkJumps "return after()" "return again()".
Definition jumping_run : answer (string * emission) :=
  RewriteWalk.text (emitter_of jumping_file) jumping ∅ jumping_jumps (emission_start jumping_file).

Definition no_literal_b (n : node) : bool := negb (bool_decide (kind_of n = FuncLit)).
Definition literals_inside_b (n : node) : bool :=
  bool_decide (NoDup (map ptr (below n))) && no_literal_b n
  && forallb (fun m => forallb no_literal_b
       match kind_of m with
       | ReturnStmt => fields fResults m
       | AssignStmt DEFINE => fields fRhs m
       | FuncLit => option_list (field fBody m)
       | _ => []
       end) (below n).

Lemma literals_inside_check n : literals_inside_b n = true -> literals_inside n.
Proof.
  intros [[Hd%bool_decide_eq_true Hn]%andb_true_iff Hall]%andb_true_iff.
  assert (forall m, no_literal_b m = true -> kind_of m <> FuncLit) as Hno.
  { intros m Hm%negb_true_iff. by apply bool_decide_eq_false in Hm. }
  assert (forall m c, m ∈ below n -> c ∈ match kind_of m with
    | ReturnStmt => fields fResults m | AssignStmt DEFINE => fields fRhs m
    | FuncLit => option_list (field fBody m) | _ => [] end -> kind_of c <> FuncLit) as Hin.
  { intros m c Hm Hc. apply Hno. rewrite forallb_forall in Hall.
    specialize (Hall m). rewrite <- list_elem_of_In, forallb_forall in Hall. apply Hall; [done|].
    by rewrite <- list_elem_of_In. }
  split; [done|by apply Hno|..]; intros m c Hm Hk Hc; apply (Hin m c Hm); rewrite Hk; [rewrite Hc|done|rewrite Hc]; left.
Qed.

Lemma text_is_rewritten_witness :
  answered jumping_run EmptyString
    = "{ return again(); for { break }; return effect.Succeed[R, E, int](g(func() int { return 1 })) }"%string
  /\ reads (emitter_of jumping_file) ∅ (MkPlace false "return after()" "return again()") jumping
       (answered jumping_run EmptyString).
Proof.
  split; [vm_compute; reflexivity|].
  apply (text_is_rewritten (emitter_of jumping_file) ∅ jumping jumping_jumps (emission_start jumping_file) _
    (left_in jumping_run (emission_start jumping_file))); [| |vm_compute; reflexivity..].
  - apply literals_inside_check. vm_compute. reflexivity.
  - apply tidy_check. vm_compute. reflexivity.
Defined.

(** One body inside another. *)
Definition inner_file : sketch :=
  file_of (gen "int" [return_ (await (call (select (ident "effect") "Gen") [func_lit [] "int" [return_ (literal "1")]]))]).
Definition nested_pair_b (c d : node) : bool :=
  (node_Pos c <? node_End c)
  && ((node_Pos d <? node_Pos c) && (node_End c <=? node_End d) || (node_Pos c <? node_Pos d) && (node_End d <=? node_End c)
      || (node_End c <=? node_Pos d) || (node_End d <=? node_Pos c)).

Lemma nested_calls_check calls :
  forallb (fun c => node_Pos c <? node_End c) calls
  && forallb (fun c => forallb (fun d => (ptr c =? ptr d) || nested_pair_b c d) calls) calls = true ->
  NoDup (map ptr calls) -> nested_calls calls.
Proof.
  intros [Hpos Hpairs]%andb_true_iff Hnd c d Hc Hd. rewrite forallb_forall in Hpos, Hpairs.
  pose proof (Hpairs c ltac:(by apply list_elem_of_In)) as Hcs. rewrite forallb_forall in Hcs.
  specialize (Hcs d ltac:(by apply list_elem_of_In)).
  split; [by apply Nat.ltb_lt, Hpos, list_elem_of_In|].
  assert (ptr c = ptr d -> c = d) as Hinj.
  { apply list_elem_of_lookup in Hc as [i Hi], Hd as [j Hj]. intros Hp.
    assert (i = j) as ->; [|congruence].
    apply (NoDup_lookup (map ptr calls) i j (ptr c) Hnd); [by rewrite list_lookup_fmap, Hi|].
    by rewrite list_lookup_fmap, Hj, Hp. }
  split; [done|]. intros Hne. destruct (Nat.eqb_spec (ptr c) (ptr d)) as [Hp|_]; [by apply Hinj in Hp|].
  cbn [orb] in Hcs. unfold nested_pair_b in Hcs. apply andb_true_iff in Hcs as [_ Hcs].
  apply orb_true_iff in Hcs as [[[[H1%Nat.ltb_lt H2%Nat.leb_le]%andb_true_iff|[H1%Nat.ltb_lt H2%Nat.leb_le]%andb_true_iff]
    %orb_true_iff|H%Nat.leb_le]%orb_true_iff|H%Nat.leb_le]; unfold within_, Pos in *.
  - right. right. left. split; lia.
  - right. right. right. split; lia.
  - by left.
  - right. by left.
Qed.

Definition inner_result : Result :=
  match rewrite_sketch inner_file with Answer result => result | _ => MkResult None 0 [] end.

Lemma outermost_bodies_are_the_edits_witness :
  Rewrites inner_result = 2
  /\ exists outcomes outer_, length (rewritten_ones outcomes) = 2 /\ outermost_of (rewritten_ones outcomes) outer_
     /\ exists text, Source inner_result = Some text.
Proof.
  assert (Rewrites inner_result = 2) as H2 by (vm_compute; reflexivity). split; [exact H2|].
  destruct (outermost_bodies_are_the_edits (source_of inner_file) (info_of (laid_out inner_file))
    (MkFile (laid_out inner_file) [import_spec]) own_package inner_result)
    as (outcomes & tn' & outer_ & _ & _ & _ & _ & Hr & _ & Hout & _ & Hs).
  - apply (bool_decide_unpack _). vm_compute. exact I.
  - apply nested_calls_check; [vm_compute; reflexivity|]. apply (bool_decide_unpack _). vm_compute. exact I.
  - vm_compute. reflexivity.
  - rewrite H2 in Hr. exists outcomes, outer_. split; [done|]. split; [exact Hout|].
    destruct Hs as (text & Hs & _); [by destruct (rewritten_ones outcomes)|]. by exists text.
Defined.

(** A body that defers. *)
Definition deferring_file : sketch :=
  file_of (gen "int" [Sketch DeferStmt [inl "defer "; inr (fOther, call (ident "g") [])]; return_ (await (ident "g"))]).
Definition deferring_run : answer ((string * string) * typeNames) :=
  rewriteSite (source_of deferring_file) (info_of (laid_out deferring_file)) ∅ (gen_call deferring_file)
    (names_start deferring_file).

Lemma declined_site_leaves_no_import_witness :
  (answered deferring_run (EmptyString, EmptyString)).2 = "the body defers a call"%string
  /\ tn_additions (left_in deferring_run (names_start deferring_file)) = tn_additions (names_start deferring_file).
Proof.
  split; [vm_compute; reflexivity|].
  apply (declined_site_leaves_no_import (source_of deferring_file) (info_of (laid_out deferring_file)) ∅
    (gen_call deferring_file) (names_start deferring_file) EmptyString "the body defers a call"
    (left_in deferring_run (names_start deferring_file))); [vm_compute; reflexivity|discriminate].
Defined.

(** * The command *)

(** The deferring file, which a package and its test variant both hold. *)
Definition deferring_package (path : string) : Command.Package :=
  Command.MkPackage path {[Command.effectPath]} ["p.go"] ["p.go"]
    [Command.MkParsed (MkFile (laid_out deferring_file) [import_spec]) 1 (fun pos => (1%Z, Z.of_nat pos)) [Command.effectPath]]
    (info_of (laid_out deferring_file)) own_package.

(** A file in which every body was declined has no entry to be done by: it is read again
    for the package's test variant, and its bodies are counted as declined twice. *)
Example declined_bodies_are_counted_twice :
  match Command.rewrite_packages (fun _ => None) (fun n => decimal (Z.of_nat n)) (fun _ text => text) (fun text => text) (fun _ => EmptyString)
          "cache" [deferring_package "example.org/p"; deferring_package "example.org/p"]
          (Command.MkRewriting ∅ 0 0)
          (Command.MkHost {["p.go" := source_text (source_of deferring_file)]} 0 [] []) with
  | (Command.Returned done, _) => (Command.rewrites done, Command.declined done) = (0, 2)
  | _ => False
  end.
Proof. vm_compute. reflexivity. Qed.

Definition value_package : Command.Package :=
  Command.MkPackage "example.org/p" {[Command.effectPath]} ["p.go"] ["p.go"]
    [Command.MkParsed (MkFile (laid_out value_file) [import_spec]) 1 (fun pos => (1%Z, Z.of_nat pos)) [Command.effectPath]]
    (info_of (laid_out value_file)) own_package.

Definition digest (_ : string) : string := "0".
Definition temporary (n : nat) : string := decimal (Z.of_nat n).
Definition value_host : Command.host := Command.MkHost {["p.go" := source_text (source_of value_file)]} 0 [] [].
Definition loads (_ : list string) : list Command.Package + error := inl [value_package].
Definition value_overlay : Command.outcome string * Command.host :=
  Command.overlay (fun _ => None) temporary (fun _ text => text) digest loads loads (fun _ => EmptyString)
    (fun replace => Join (map_to_list replace).*2 " ") (inl "/cache") (fun _ => None) ["./..."] value_host.

Lemma temporary_is_no_target dir n name content :
  Command.temp_path temporary dir n <> Command.target_of digest dir name content.
Proof.
  unfold Command.temp_path, Command.target_of, Command.path_Join.
  induction dir as [|a dir IH]; [discriminate|]. intros [= E]. by apply IH.
Qed.

Lemma overlay_leaves_sources_alone_witness :
  fst value_overlay = Command.Returned "/cache/effectgo/0-overlay.json"%string
  /\ Command.files (snd value_overlay) !! "p.go" = Some (source_text (source_of value_file))
  /\ Command.overlays digest loads (fun replace => Join (map_to_list replace).*2 " ") "/cache/effectgo"
       "/cache/effectgo/0-overlay.json" (Command.files value_host) (Command.files (snd value_overlay)).
Proof.
  assert (Hfst : fst value_overlay = Command.Returned "/cache/effectgo/0-overlay.json"%string) by (vm_compute; reflexivity).
  pose proof (Command.overlay_leaves_sources_alone (fun _ => None) temporary (fun _ text => text) digest loads loads
    (fun _ => EmptyString) (fun replace => Join (map_to_list replace).*2 " ") (inl "/cache") (fun _ => None)
    temporary_is_no_target ["./..."] value_host "/cache" eq_refl) as H.
  fold value_overlay in H. destruct value_overlay as [answer h']. cbn [fst snd] in *.
  destruct H as [Hk Ho].
  - intros name content stored Hl. cbn [Command.files value_host] in Hl. apply lookup_singleton_Some in Hl as [Hl _]. discriminate Hl.
  - intros importers pkgs pkg filename [= <-] Hpkg Hf [(name & content & E)|[n E]];
      apply list_elem_of_singleton in Hpkg as ->; apply list_elem_of_singleton in Hf as ->; discriminate E.
  - split; [exact Hfst|]. split; [|by apply Ho].
    rewrite (Command.kept_sources _ _ _ _ _ Hk); [reflexivity|].
    intros [(name & content & E)|[n E]]; discriminate E.
Defined.
