(* ===== verification/RuntimeWitnesses.v ===== *)
(** Concrete runs of the interpreter, the combinators and the scope, on a
    context that is cancelled when the world says so. *)

From S2P Require Import Prelude Outcome Traversal OutcomeFacts Cause CauseFacts Interpreter.
From S2P Require Import InterpreterFacts Algebra Effects EffectsFacts Completion Scope.

(** The world: whether the caller has been cancelled, and what has been done. *)
Record demo_world : Type := MkDemo { demo_done : bool; demo_log : list nat }.

(** A context, or its detached version that never ends. *)
Inductive demo_ctx : Type := attached | detached_ctx.

Definition demo_reason : error := MkError 7 "stopped" [].
Definition canceled : error := MkError 8 "context canceled" [].

Definition demo_ends (ctx : demo_ctx) (why : error) (w : demo_world) : option error :=
  match ctx with
  | detached_ctx => None
  | attached => if demo_done w then Some why else None
  end.

#[export] Program Instance demo_context : ContextOps demo_world demo_ctx := {|
  ctx_Err ctx w := demo_ends ctx canceled w;
  ctx_Cause ctx w := demo_ends ctx demo_reason w;
  ctx_WithoutCancel _ := detached_ctx
|}.
Next Obligation. intros [] [[] ?]; done. Qed.
Next Obligation. done. Qed.

#[export] Instance demo_state : StateOps string := {| state_Operation s := s |}.

#[export] Program Instance demo_nat : Erased nat nat := {|
  erase n := Some n; unerase v := default 0 v
|}.
Next Obligation. done. Qed.

#[export] Program Instance demo_unit : Erased nat unit := {|
  erase _ := None; unerase _ := tt
|}.
Next Obligation. by intros []. Qed.

Abbreviation demo_error_value := (fun _ : error => 0).
Definition demo_zero : Panic nat := MkPanic 99 "stack".
Definition demo_panic : Panic nat := MkPanic 13 "handler stack".
Definition demo_live : demo_world := MkDemo false [].
Definition demo_stopped : demo_world := MkDemo true [].
Definition demo_interp : Interpretation nat demo_ctx string :=
  MkInterpretation attached "loading" None.

Abbreviation demo_node := (Node nat demo_world demo_ctx string).
Abbreviation demo_effect := (@Effect nat demo_world demo_ctx string unit nat nat).

(** A leaf that notes that it ran. *)
Definition noting (n : nat) : call nat demo_world nat :=
  fun w => (inl n, MkDemo (demo_done w) (demo_log w ++ [n])).

Lemma done_context_runs_nothing_witness :
  denote demo_error_value canceled
    (Bind (Eval (fun _ => call_bind (noting 1) (fun n => call_ret (ExitSuccess (Some n)))))
       (fun _ => call_ret (Succeed None)) : demo_node) demo_interp demo_stopped
  = (ExitFailure (InterruptCause (Some demo_reason)), demo_stopped)
  /\ is_Some (CancellationReason attached demo_stopped).
Proof.
  exact (done_context_runs_nothing (V := nat) (St := string) demo_error_value canceled
           (Bind (Eval (fun _ => call_bind (noting 1) (fun n => call_ret (ExitSuccess (Some n)))))
              (fun _ => call_ret (Succeed None)) : demo_node)
           demo_interp demo_stopped canceled eq_refl eq_refl).
Defined.

Lemma panics_are_appended_witness :
  exists cause enough,
  leaves cause = [WithOrigin (FailCause (Some 4)) (MkOrigin EmptyString "loading");
                  DieCause (capture demo_panic)]
  /\ forall m, enough <= m ->
     Interpret demo_error_value canceled m demo_interp
       (Recover (Fail (FailCause (Some 4))) (fun _ => call_panic demo_panic) : demo_node) demo_live
     = Some (ExitFailure cause, demo_live).
Proof.
  pose proof (panics_are_appended (V := nat) (St := string) demo_error_value canceled
    (Fail (FailCause (Some 4)) : demo_node) (fun _ => call_panic demo_panic)
    (fun _ _ => call_panic demo_panic) demo_interp demo_live demo_live demo_live
    (ExitFailure (WithOrigin (FailCause (Some 4)) (MkOrigin EmptyString "loading"))) demo_panic 3
    eq_refl eq_refl) as [Hr _].
  exact (Hr eq_refl).
Defined.

(** A program that notes that it ran, and fails. *)
Definition failing : demo_effect :=
  FlatMap demo_zero
    (From (fun _ _ => call_bind (noting 1) (fun n => call_ret (ExitSuccess (erase n)))))
    (fun n => call_ret (FailWith "main.go:3" n)).

Definition failed_with (n : nat) : Exit nat :=
  ExitFailure (WithOrigin (FailCause (Some n)) (MkOrigin "main.go:3" "loading")).

Definition ran : demo_world := MkDemo false [1].

Lemma failing_runs :
  runs demo_error_value canceled demo_zero failing demo_interp demo_live = (failed_with 1, ran).
Proof. vm_compute. reflexivity. Qed.

Lemma CatchAll_cases_witness :
  runs demo_error_value canceled demo_zero
    (CatchAll demo_zero failing (fun e => call_ret (SucceedWith (e + 1)))) demo_interp demo_live
  = (ExitSuccess (Some 2), ran).
Proof.
  exact (proj1 (proj2 (CatchAll_cases demo_error_value canceled demo_zero failing
    (fun e => call_ret (SucceedWith (e + 1))) demo_interp demo_live ran (failed_with 1)
    failing_runs)) 1 eq_refl eq_refl).
Defined.

(** A finalizer that notes the outcome it saw, and fails. *)
Definition finalizing (x : Exit nat)
    : call nat demo_world (@Effect nat demo_world demo_ctx string unit nat unit) :=
  call_ret
    (FlatMap demo_zero
       (From (R := unit) (E := nat) (A := nat)
          (fun _ _ => call_bind (noting (if IsSuccess x then 10 else 20))
             (fun n => call_ret (ExitSuccess (erase n)))))
       (fun n => call_ret (FailWith "cleanup.go:9" n))).

Lemma OnExit_always_finalizes_witness :
  runs demo_error_value canceled demo_zero
    (OnExitEffect demo_error_value canceled demo_zero failing finalizing) demo_interp demo_live
  = (ExitFailure (Then (ExitCause (failed_with 1))
       (WithOrigin (FailCause (Some 20)) (MkOrigin "cleanup.go:9" "loading"))),
     MkDemo false [1; 20]).
Proof.
  exact (proj1 (proj2 (OnExit_always_finalizes demo_error_value canceled demo_zero failing
    finalizing demo_interp demo_live ran (MkDemo false [1; 20]) (failed_with 1)
    (ExitFailure (WithOrigin (FailCause (Some 20)) (MkOrigin "cleanup.go:9" "loading")))
    eq_refl failing_runs eq_refl))).
Defined.

Lemma OrDie_no_typed_failure_witness :
  exists y, runs demo_error_value canceled demo_zero
              (OrDie demo_zero (E0 := nat) failing) demo_interp demo_live = (y, ran)
            /\ IsSuccess y = false
            /\ Forall (fun leaf => Kind leaf <> CauseFailure) (leaves (ExitCause y)).
Proof.
  destruct (OrDie_no_typed_failure demo_error_value canceled demo_zero (E0 := nat) failing
    demo_interp demo_live ran (failed_with 1) failing_runs) as (y & Hy & _ & Hf).
  exists y. destruct (Hf eq_refl) as (? & _ & ?). done.
Defined.

(** * Scopes *)

(** A finalizer that notes its name, one that fails, and one that panics. *)
Definition closing_down (n : nat) : Finalizer nat demo_world demo_ctx :=
  fun _ _ => call_bind (noting n) (fun _ => call_ret zeroCause).
Definition failing_down (n : nat) : Finalizer nat demo_world demo_ctx :=
  fun _ _ => call_bind (noting n) (fun _ => call_ret (FailCause (Some n))).
Definition panicking_down : Finalizer nat demo_world demo_ctx := fun _ _ => call_panic demo_panic.

Definition two_resources : Scope nat (Finalizer nat demo_world demo_ctx) :=
  MkScope scopeOpen (zero (Exit nat)) None 0 [closing_down 1; failing_down 2].

Lemma Close_complete_witness :
  exists s', Close attached (ExitSuccess None) demo_reason two_resources demo_stopped
             = Some (FailCause (Some 2), s', MkDemo true [2; 1])
             /\ status s' = scopeClosed
             /\ Close attached (ExitSuccess None) demo_reason s' (MkDemo true [2; 1])
                = Some (zeroCause, s', MkDemo true [2; 1]).
Proof.
  destruct (Close_complete attached (ExitSuccess None) demo_reason two_resources demo_stopped
    eq_refl eq_refl) as (cause & s' & cs & w' & Hrun & Hclose & _ & Hs & _ & Hagain).
  vm_compute in Hclose. injection Hclose as <- <- <-. eexists. split_and!; [reflexivity..|].
  exact Hagain.
Defined.

Definition closed_scope : Scope nat (Finalizer nat demo_world demo_ctx) :=
  MkScope scopeClosed (ExitSuccess None) (Some demo_reason) 0 [].

Lemma late_registration_releases_witness :
  AddFinalizer attached (failing_down 3) closed_scope demo_stopped
  = (false, FailCause (Some 3), closed_scope, MkDemo true [3])
  /\ AddFinalizer attached panicking_down closed_scope demo_stopped
  = (false, DieCause (capture demo_panic), closed_scope, demo_stopped).
Proof.
  split.
  - exact (proj1 (late_registration_releases attached (failing_down 3) closed_scope demo_stopped
      ltac:(discriminate))).
  - exact (proj1 (proj2 (proj2 (late_registration_releases attached panicking_down closed_scope
      demo_stopped ltac:(discriminate)))) demo_panic demo_stopped eq_refl).
Defined.

(** Two finalizers registered, a close, and the first release. *)
Definition one_released : list (action demo_world demo_ctx (Finalizer nat demo_world demo_ctx)) :=
  [accepts (closing_down 1); accepts (failing_down 2); nothing; nothing; nothing;
   releases (failing_down 2)].

Lemma scope_releases_once_in_reverse_witness :
  exists sys, scope_steps attached (ExitSuccess None) demo_reason (opened demo_live)
    one_released sys
  /\ (exists later, [failing_down 2; closing_down 1] = [failing_down 2] ++ later)
  /\ demo_log (world sys) = [2]
  /\ (exists sys', scope_step attached (ExitSuccess None) demo_reason sys
         (releases (closing_down 1)) sys' /\ children (scope sys) = 0).
Proof.
  assert (exists sys, scope_steps attached (ExitSuccess None) demo_reason (opened demo_live)
    one_released sys /\
    exists sys', scope_step attached (ExitSuccess None) demo_reason sys
         (releases (closing_down 1)) sys') as (sys & Hsteps & sys' & Hstep).
  { eexists. split.
    - change one_released
        with (((((([] ++ [accepts (closing_down 1)]) ++ [accepts (failing_down 2)])
               ++ [nothing]) ++ [nothing]) ++ [nothing]) ++ [releases (failing_down 2)]
              : list (action demo_world demo_ctx (Finalizer nat demo_world demo_ctx))).
      repeat eapply scope_next; [apply scope_here | ..].
      + by apply (step_add _ _ _ _ attached (closing_down 1) true zeroCause).
      + by apply (step_add _ _ _ _ attached (failing_down 2) true zeroCause).
      + by eapply step_begin.
      + apply (step_close _ _ _ _ (cancelling [closing_down 1; failing_down 2])); reflexivity.
      + apply (step_close _ _ _ _ (waiting [closing_down 1; failing_down 2])); reflexivity.
      + apply (step_close _ _ _ _ (releasing [closing_down 1; failing_down 2] zeroCause));
          reflexivity.
    - eexists. apply (step_close _ _ _ _ (releasing [closing_down 1] (FailCause (Some 2))));
        reflexivity. }
  destruct (scope_releases_once_in_reverse attached (ExitSuccess None) demo_reason demo_live
    _ sys Hsteps) as (Hrev & Hworld & _ & Hrel).
  exists sys. split_and!; [exact Hsteps|exact Hrev|by rewrite Hworld|].
  exists sys'. split; [exact Hstep|]. exact (proj1 (Hrel _ _ Hstep)).
Defined.
