(* ===== verification/QueueWitnesses.v ===== *)
(** Concrete runs of the queue and the hub. *)

From stdpp Require Import sorting.
From S2P Require Import Prelude Queue QueueFacts Hub.

Abbreviation nat_config := (config (A := nat)).
Abbreviation nat_store := (store nat).

#[local] Instance zero_nat : Zero nat := 0.

(** A bounded queue of one: the first offer is queued, the second is parked. *)
Definition one_place : nat_config := start (NewQueue 1 backPressure).

Definition after_offers (c : nat_config) (vs : list nat) : nat_config :=
  foldl (fun c v => match Offer v (st c) with
                    | Some (o, s) => after_offer c o s
                    | None => c
                    end) c vs.
Definition two_offers : nat_config := after_offers one_place [5; 6].

Lemma two_offers_steps :
  steps one_place [MkLabel [5] [] [] []; MkLabel [6] [] [] []] two_offers.
Proof.
  eapply steps_next; [exact (step_offer one_place 5 _ _ eq_refl)|].
  eapply steps_next; [exact (step_offer (after_offers one_place [5]) 6 _ _ eq_refl)|].
  apply steps_here.
Qed.

Lemma two_offers_reachable : reachable two_offers.
Proof. left. eexists 1%Z, backPressure, _. apply two_offers_steps. Qed.

(** A taker parked on an empty queue. *)
Definition one_take : nat_config :=
  match Take (st one_place) with Some (o, s) => after_take one_place o s | None => one_place end.

Lemma one_take_reachable : reachable one_take.
Proof.
  left. exists 1%Z, backPressure, [silent]. eapply steps_next; [|apply steps_here].
  exact (step_take one_place _ _ eq_refl).
Qed.

(** The queue shut down with an offer parked on it. *)
Definition shut : nat_config :=
  match beginShutdown (st two_offers) with
  | (Some (ts, os), s) =>
      MkConfig s (closing_takers two_offers ++ ts) (closing_offerers two_offers ++ os)
        (open_takes two_offers) (open_offers two_offers)
  | (None, _) => two_offers
  end.

Lemma shut_reachable : reachable shut.
Proof.
  left. exists 1%Z, backPressure, [MkLabel [5] [] [] []; MkLabel [6] [] [] []; MkLabel [] [] [6] []].
  eapply steps_next; [exact (step_offer one_place 5 _ _ eq_refl)|].
  eapply steps_next; [exact (step_offer (after_offers one_place [5]) 6 _ _ eq_refl)|].
  eapply steps_next; [|apply steps_here].
  exact (step_shutdown two_offers _ _ _ eq_refl).
Qed.

Lemma queue_invariant_witness :
  (len (items (queue (st two_offers))) <= 1)%Z /\ offerers (queue (st two_offers)) = [(0, 6)]
  /\ len (items (queue (st two_offers))) = 1%Z /\ is_Some (Take (st two_offers)).
Proof.
  destruct (queue_invariant two_offers two_offers_reachable)
    as (Hbound & _ & Hoff & _ & _ & Htake & _).
  split_and!; [apply Hbound; discriminate|reflexivity|apply Hoff; discriminate|exact Htake].
Defined.

(** Two offers and a take: what came out, then the backlog, is what came in. *)
Definition took_one : nat_config :=
  match Take (st two_offers) with
  | Some (o, s) => after_take two_offers o s
  | None => two_offers
  end.

(** A take parks, an offer is handed to it, and it comes back with the value. *)
Definition handed_over : nat_config := after_offers one_take [7].

Definition came_back : nat_config :=
  match awaitValue case_done 0 (st handed_over) with
  | Some (_, s) => MkConfig s [] [] (returned 0 (open_takes handed_over)) []
  | None => handed_over
  end.

Lemma hand_over_steps :
  steps one_place [silent; MkLabel [7] [(Some 0, 7)] [] []; MkLabel [] [] [] [(0, 7)]] came_back.
Proof.
  eapply steps_next; [exact (step_take one_place _ _ eq_refl)|].
  eapply steps_next; [exact (step_offer one_take 7 _ _ eq_refl)|].
  eapply steps_next; [|apply steps_here].
  exact (step_await_value handed_over case_done 0 7 true false _ ltac:(set_solver) eq_refl).
Qed.

Lemma queue_fifo_witness :
  steps one_place [MkLabel [5] [] [] []; MkLabel [6] [] [] []; MkLabel [] [(None, 5)] [] []]
    took_one
  /\ [5; 6] = [5] ++ backlog (st took_one)
  /\ [(0, 7)] ≡ₚ [(0, 7)] ++ in_flight came_back.
Proof.
  assert (steps one_place [MkLabel [5] [] [] []; MkLabel [6] [] [] []; MkLabel [] [(None, 5)] [] []]
            took_one) as Hs.
  { eapply steps_next; [exact (step_offer one_place 5 _ _ eq_refl)|].
    eapply steps_next; [exact (step_offer (after_offers one_place [5]) 6 _ _ eq_refl)|].
    eapply steps_next; [|apply steps_here]. exact (step_take two_offers _ _ eq_refl). }
  assert (reachable one_place) as Hr.
  { left. exists 1%Z, backPressure, []. apply steps_here. }
  split_and!; [exact Hs| |].
  - exact (proj1 (proj2 (proj2 (queue_fifo one_place took_one _ Hr Hs))) eq_refl).
  - exact (proj1 (proj2 (proj2 (proj2 (queue_fifo one_place came_back _ Hr hand_over_steps))))).
Defined.

Lemma cancellation_loses_nothing_witness :
  exists s, awaitValue case_done 0 (st one_take) = Some (zero nat, false, true, s)
  /\ 0 ∈ takers (queue (st one_take)) /\ backlog s = backlog (st one_take).
Proof.
  eexists. split; [reflexivity|].
  destruct (proj1 (cancellation_loses_nothing one_take 0 one_take_reachable)
    ltac:(set_solver) (zero nat) false _ eq_refl) as (Hin & Hb & _).
  exact (conj Hin Hb).
Defined.

Lemma batches_take_the_oldest_witness :
  exists s, TakeAvailable 2 (st two_offers) = Some ([5; 6], s) /\ backlog s = [].
Proof.
  exact (proj1 (batches_take_the_oldest two_offers 2 0 two_offers_reachable ltac:(lia))).
Defined.

Lemma shutdown_wakes_everyone_witness :
  (exists ls c', steps shut ls c' /\ items (queue (st c')) = [5] /\ open_offers c' = [0]
     /\ forall choice, is_Some (awaitRoom choice 0 (st c')))
  /\ Offer 9 (st shut) = Some (Answered false false, st shut)
  /\ exists s, Take (st shut) = Some (Taken 5 true false, s) /\ items (queue s) = [].
Proof.
  destruct (shutdown_wakes_everyone shut shut_reachable eq_refl)
    as ((ls & c' & Hs & Hi & _ & Ho & _ & Hw) & Hd & Ht).
  split_and!; [|apply Hd|exact Ht].
  exists ls, c'. split_and!; [exact Hs|exact Hi|exact Ho|].
  intros choice. apply Hw. rewrite Ho. set_solver.
Defined.

(** * The hub *)

Definition subscribed (hs : hub_store nat) : hub_store nat := snd (Subscribe hs).
Definition two_subscribers : hub_store nat := subscribed (subscribed (NewHub 2 dropOldest)).

Lemma publish_reaches_every_subscriber_witness :
  startPublish two_subscribers = delivering [0; 1]
  /\ exists n hs', publish_run n 7 (startPublish two_subscribers) two_subscribers
                 = Some (true, false, hs')
       /\ (fun q => items (queue q)) <$> queues hs' = [[7]; [7]].
Proof.
  assert (hub_ok two_subscribers) as Hok.
  { eapply Subscribe_ok; [eapply Subscribe_ok; [apply (NewHub_ok 2 dropOldest)|..]|..];
      reflexivity. }
  destruct (publish_reaches_every_subscriber two_subscribers 7 Hok eq_refl)
    as (targets & hs' & n & Ht & _ & _ & Hrun & _ & Hqs).
  { intros inbox q Hq. exists (start (NewQueue 2 dropOldest)).
    assert (q = new_store (NewQueue 2 dropOldest)) as ->
      by (destruct inbox as [|[|inbox]]; vm_compute in Hq; [by injection Hq as <-..|done]).
    split_and!; [|reflexivity|discriminate].
    left. exists 2%Z, dropOldest, []. apply steps_here. }
  split; [reflexivity|]. exists n, hs'. split; [by apply Hrun|].
  replace targets with [0; 1] in Hqs by (vm_compute in Ht; congruence).
  apply list_eq. intros i. rewrite list_lookup_fmap, Hqs.
  destruct i as [|[|i]]; reflexivity.
Defined.
