(* ===== verification/ConcurrencyWitnesses.v ===== *)
(** Concrete runs of parallel composition, fibers and retries. *)

From stdpp Require Import relations.
From S2P Require Import Prelude Outcome Traversal OutcomeFacts Cause Interpreter InterpreterFacts.
From S2P Require Import Algebra Effects EffectsFacts Completion Time Schedule State Retry.
From S2P Require Import Parallel ParallelFacts Workers RuntimeWitnesses.

(** * Two branches: the left one fails while the right one runs. *)

Inductive value : Type := num (n : nat) | two (a b : nat).

Definition as_num (v : option value) : nat := match v with Some (num n) => n | _ => 0 end.
Definition as_two (v : option value) : Product nat nat :=
  match v with Some (two a b) => ProductOf a b | _ => ProductOf 0 0 end.

#[export] Program Instance value_nat : Erased value nat := {|
  erase n := Some (num n); unerase := as_num
|}.
Next Obligation. done. Qed.

#[export] Program Instance value_pair : Erased value (Product nat nat) := {|
  erase p := Some (two (First p) (Second p)); unerase := as_two
|}.
Next Obligation. by intros []. Qed.

#[export] Program Instance value_unit : Erased value unit := {|
  erase _ := None; unerase _ := tt
|}.
Next Obligation. by intros []. Qed.

Definition broke : Exit value := ExitFailure (FailCause (Some (num 7))).
Definition told_to_stop : Exit value := ExitFailure (InterruptCause (Some ErrSiblingFailed)).

Definition ended : pairRunner value :=
  MkRunner (fiber_Complete broke (NewFiber 1))
    (fiber_Complete told_to_stop (fst (fiber_Interrupt ErrSiblingFailed (NewFiber 2))))
    false false (MkPair broke told_to_stop LeftSide).

Lemma ended_reachable :
  pair_reachable settleOnFailure ErrSiblingFailed 1 2 (ended, selecting).
Proof.
  unfold pair_reachable. eapply rtc_l; [apply (left_completes _ _ broke)|].
  eapply rtc_l; [by apply (selects _ _ LeftSide)|].
  eapply rtc_l; [apply (right_completes _ _ told_to_stop)|].
  eapply rtc_l; [by apply awaits|]. apply rtc_refl.
Qed.

Lemma pair_waits_for_both_witness :
  fiber_Wait (leftFiber ended) = Some broke /\ fiber_cancelled (leftFiber ended) = None
  /\ fiber_cancelled (rightFiber ended) = Some ErrSiblingFailed.
Proof.
  destruct (pair_waits_for_both settleOnFailure ErrSiblingFailed 1 2 (ended, selecting)
    ended_reachable (conj eq_refl (conj eq_refl eq_refl))) as (Hl & _ & _ & Hc & Hc').
  exact (conj Hl (conj Hc Hc')).
Defined.

Lemma ZipPar_keeps_failures_witness :
  leaves (ExitCause (bothResults (A := nat) (B := nat) (runner_outcome ended) ErrSiblingFailed))
  = [FailCause (Some (num 7))].
Proof.
  destruct (ZipPar_keeps_failures (A := nat) (B := nat) 1 2 (ended, selecting) ended_reachable
    (conj eq_refl (conj eq_refl eq_refl))) as (_ & _ & _ & Hleaves).
  exact (proj2 (Hleaves eq_refl eq_refl eq_refl) eq_refl).
Defined.

(** A branch that failed and one that was stopped, and a list of both. *)
Lemma CombineParallelCauses_leaves_witness :
  leaves (CombineParallelCauses (MkPair broke told_to_stop LeftSide) (Some ErrSiblingFailed))
  = [FailCause (Some (num 7))]
  /\ leaves (CombineBranchCauses [told_to_stop; broke] (Some ErrSiblingFailed))
     = [FailCause (Some (num 7))].
Proof.
  destruct (CombineParallelCauses_leaves (MkPair broke told_to_stop LeftSide)
    [told_to_stop; broke] ErrSiblingFailed eq_refl eq_refl
    ltac:(repeat constructor)) as (_ & Hpair & _ & _ & _ & Hlist).
  exact (conj Hpair Hlist).
Defined.

(** A race the left branch wins. *)
Definition won : Exit value := ExitSuccess (Some (num 5)).
Definition lost : Exit value := ExitFailure (InterruptCause (Some ErrRaceLost)).

Definition raced : pairRunner value :=
  MkRunner (fiber_Complete won (NewFiber 1))
    (fiber_Complete lost (fst (fiber_Interrupt ErrRaceLost (NewFiber 2))))
    false false (MkPair won lost LeftSide).

Lemma races_pick_the_winner_witness :
  firstSuccess (runner_outcome raced) ErrRaceLost = won
  /\ fiber_cancelled (rightFiber raced) <> None.
Proof.
  assert (pair_reachable settleOnSuccess ErrRaceLost 1 2 (raced, selecting)) as Hr.
  { unfold pair_reachable. eapply rtc_l; [apply (left_completes _ _ won)|].
    eapply rtc_l; [by apply (selects _ _ LeftSide)|].
    eapply rtc_l; [apply (right_completes _ _ lost)|].
    eapply rtc_l; [by apply awaits|]. apply rtc_refl. }
  destruct (proj1 (races_pick_the_winner 1 2 (raced, selecting)) Hr
    (conj eq_refl (conj eq_refl eq_refl))) as (_ & Hwon & _).
  split; [exact (Hwon eq_refl)|discriminate].
Defined.

(** The clock wins over work that then fails in its cleanup. *)
Definition timed_out : pairRunner value :=
  MkRunner (fiber_Complete broke (fst (fiber_Interrupt ErrTimedOut (NewFiber 1))))
    (fiber_Complete won (NewFiber 2)) false false (MkPair broke won RightSide).

Lemma timeouts_wait_and_keep_cleanup_witness :
  leaves (ExitCause (timeoutResolver (ExitFailure (FailCause (Some (num 3)))) (runner_outcome timed_out) ErrTimedOut))
  = [FailCause (Some (num 3)); FailCause (Some (num 7))].
Proof.
  assert (pair_reachable settleAlways ErrTimedOut 1 2 (timed_out, selecting)) as Hr.
  { unfold pair_reachable. eapply rtc_l; [apply (right_completes _ _ won)|].
    eapply rtc_l; [by apply (selects _ _ RightSide)|].
    eapply rtc_l; [apply (left_completes _ _ broke)|].
    eapply rtc_l; [by apply awaits|]. apply rtc_refl. }
  destruct (timeouts_wait_and_keep_cleanup (ExitFailure (FailCause (Some (num 3)))) 1 2 (timed_out, selecting) Hr
    (conj eq_refl (conj eq_refl eq_refl))) as (_ & _ & _ & _ & Hfired).
  destruct (Hfired eq_refl eq_refl eq_refl) as (_ & _ & _ & Hkept).
  exact (proj2 (Hkept ltac:(discriminate) eq_refl)).
Defined.

Definition both_finished : pairRunner value :=
  MkRunner (fiber_Complete broke (NewFiber 1)) (fiber_Complete told_to_stop (NewFiber 2))
    true true (runner_outcome (startPair 1 2)).

Lemma pair_always_returns_witness :
  exists st', rtc (pair_step settleOnFailure ErrSiblingFailed) (both_finished, selecting) st'
  /\ wait_returned st' /\ Some broke = Some (pair_Left (runner_outcome (fst st'))).
Proof.
  assert (pair_reachable settleOnFailure ErrSiblingFailed 1 2 (both_finished, selecting)) as Hr.
  { unfold pair_reachable. eapply rtc_l; [apply (left_completes _ _ broke)|].
    eapply rtc_l; [apply (right_completes _ _ told_to_stop)|]. apply rtc_refl. }
  destruct (pair_always_returns settleOnFailure ErrSiblingFailed 1 2 (both_finished, selecting) Hr
    (conj (ex_intro _ broke eq_refl) (ex_intro _ told_to_stop eq_refl)))
    as (st' & Hst & Hret & Hl & _).
  exists st'. exact (conj Hst (conj Hret Hl)).
Defined.

(** Three branches under a limit of one: the first takes the permit. *)
Definition one_running : group value := set_branch 0 running (startAll 3 None).


(** * A runtime whose clock always reads zero *)

(** The world: the demonstration's, and the progress of the runs under way. *)
Definition retry_world : Type := demo_world * list attemptProgress.

#[export] Program Instance retry_context : ContextOps retry_world demo_ctx := {|
  ctx_Err ctx w := demo_ends ctx canceled (fst w);
  ctx_Cause ctx w := demo_ends ctx demo_reason (fst w);
  ctx_WithoutCancel _ := detached_ctx
|}.
Next Obligation. by intros [] [[[] ?] ?]. Qed.
Next Obligation. done. Qed.

#[export] Instance retry_cells : ProgressCells retry_world := {|
  cell_new p w := (length (snd w), (fst w, snd w ++ [p]));
  cell_get id w := default (MkProgress 0 false) (snd w !! id);
  cell_set id p w := (fst w, <[id := p]> (snd w))
|}.

Abbreviation demo_State := (@State value retry_world demo_ctx string unit unit).

Definition zero_clock : @Clock value retry_world demo_ctx :=
  MkClock (call_ret 0%Z) (fun _ _ => call_ret None).
Definition broken_clock : @Clock value retry_world demo_ctx :=
  MkClock (call_panic (MkPanic (num 66) "clock stack")) (fun _ _ => call_ret None).

Definition state_of (clock : @Clock value retry_world demo_ctx) : demo_State :=
  fst (NewState (MkSet clock tt tt None None None) 0 None).

Definition quiet : retry_world := (MkDemo false [], []).
Definition print_value : value -> string := fun _ => "value"%string.

Lemma identities_are_unique_witness :
  let '(ss, fs) := drawn [draw_span; draw_fiber; draw_fiber] (MkIdentifiers 0 0) in
  ss = [1%Z] /\ fs = [1%Z; 2%Z] /\ NoDup fs.
Proof.
  pose proof (identities_are_unique [draw_span; draw_fiber; draw_fiber]
    (capabilities (state_of zero_clock)) 0 None ltac:(vm_compute; discriminate)) as Hu.
  split; [reflexivity|]. split; [reflexivity|]. exact (proj1 (proj2 Hu)).
Defined.

Definition working : demo_ctx -> demo_State -> call value retry_world (Exit value) :=
  fun _ _ => call_ret (ExitSuccess (Some (num 3))).
Definition closing : Exit value -> call value retry_world (Cause value) :=
  fun _ => call_ret (FailCause (Some (num 8))).

Lemma fiber_completes_witness :
  exists w4 f, fiber_goroutine print_value (state_of zero_clock) attached working closing
    (NewFiber 1) None quiet = (None, f, None, w4)
  /\ fiber_Wait f = Some (ExitFailure (FailCause (Some (num 8)))).
Proof.
  destruct (fiber_completes print_value (state_of zero_clock) attached working closing 1 None quiet
    (fun w => ex_intro _ 0%Z (ex_intro _ w eq_refl))
    (fun w => ex_intro _ _ (ex_intro _ w eq_refl))
    (fun _ w => ex_intro _ _ (ex_intro _ w eq_refl)))
    as (w1 & w2 & w3 & w4 & exit & cleanup & f & Hw & Hc & Hf & Hwait).
  exists w4, f. split; [exact Hf|]. injection Hw as <- <-. injection Hc as <- <-. exact Hwait.
Defined.

Lemma panicking_clock_escapes_witness :
  exists f, fiber_goroutine print_value (state_of broken_clock) attached working closing
    (NewFiber 1) None quiet = (Some (num 66, "clock stack"%string), f, None, quiet)
  /\ fiber_Wait f = None.
Proof.
  exact (panicking_clock_escapes print_value (state_of broken_clock) attached working closing 1 None
    (MkPanic (num 66) "clock stack") quiet quiet eq_refl).
Defined.

(** * Retries of an effect that always fails *)

Abbreviation retry_effect := (@Effect value retry_world demo_ctx demo_State unit nat nat).
Definition nothing_there : Panic value := MkPanic (num 99) "stack".
Definition clock_failure : error -> Panic value := fun _ => MkPanic (num 98) "stack".

Definition attempted (n : nat) : call value retry_world nat :=
  fun w => (inl n, (MkDemo (demo_done (fst w)) (demo_log (fst w) ++ [n]), snd w)).

Definition always_failing : retry_effect :=
  FlatMap nothing_there
    (From (R := unit) (fun _ _ => call_bind (attempted 1) (fun n => call_ret (ExitSuccess (erase n)))))
    (fun n => call_ret (FailWith "main.go:5" n)).

Definition beyond_it (n : nat) : retry_effect := SucceedWith n.
Definition retry_interp : Interpretation value demo_ctx demo_State :=
  MkInterpretation attached (state_of zero_clock) None.

Abbreviation retried :=
  (RetryN print_value nothing_there nothing_there clock_failure).
Abbreviation retry_runs := (runs (fun _ => num 0) canceled nothing_there).

Lemma RetryN_is_bounded_witness :
  retry_runs (retried 3 (beyond_it 50) always_failing 2) retry_interp quiet
  = retry_runs (retried 9 (beyond_it 60) always_failing 2) retry_interp quiet
  /\ demo_log (fst (snd (retry_runs (retried 3 (beyond_it 50) always_failing 2) retry_interp quiet)))
     = [1; 1; 1].
Proof.
  split; [|vm_compute; reflexivity].
  exact (RetryN_is_bounded print_value (fun _ => num 0) canceled nothing_there nothing_there
    clock_failure 2 3 9 always_failing (beyond_it 50) (beyond_it 60) retry_interp quiet
    ltac:(vm_compute; discriminate) ltac:(lia) ltac:(lia)).
Defined.

Lemma retry_attempt_cases_witness :
  exists w1, retry_runs always_failing retry_interp quiet
             = (ExitFailure (WithOrigin (FailCause (Some (num 1))) (MkOrigin "main.go:5" EmptyString)), w1)
  /\ retry_runs (retryAttempt print_value nothing_there clock_failure 1 (beyond_it 50) always_failing
       (MkDriver (MkSteps Z 0%Z (countStep 0%Z (Some 0%Z))) 0%Z)
       (exactFailure (E := nat)) preserveLastFailure 0) retry_interp quiet
     = (ExitFailure (WithOrigin (FailCause (Some (num 1))) (MkOrigin "main.go:5" EmptyString)), w1).
Proof.
  set (x := ExitFailure (WithOrigin (FailCause (Some (num 1))) (MkOrigin "main.go:5" EmptyString))).
  set (w1 := (MkDemo false [1], []) : retry_world).
  assert (retry_runs always_failing retry_interp quiet = (x, w1)) as Hx
    by (vm_compute; reflexivity).
  exists w1. split; [exact Hx|].
  destruct (retry_attempt_cases print_value (fun _ => num 0) canceled nothing_there clock_failure 0
    (beyond_it 50) always_failing (MkDriver (MkSteps Z 0%Z (countStep 0%Z (Some 0%Z))) 0%Z)
    (exactFailure (E := nat)) preserveLastFailure 0 retry_interp quiet w1 x Hx)
    as (_ & _ & _ & Hcase).
  destruct (Hcase 1 0%Z w1 (stopSchedule 0%Z)
    (MkDriver (MkSteps Z 0%Z (countStep 0%Z (Some 0%Z))) 1%Z) eq_refl eq_refl eq_refl eq_refl
    eq_refl eq_refl) as [Hstop _].
  rewrite (Hstop eq_refl). vm_compute. reflexivity.
Defined.

(** * Workers: one body, then two at once, the first of which takes the idle worker. *)

Definition pool_of (ws : list (worker (Job := nat))) : pool := MkPool ws 5%Z.
Definition in_a_second : Time := time_Add 5%Z bodyIdleFor.

Definition two_bodies : list pool :=
  [pool_of []; pool_of [Starting 1]; pool_of [Working 1]; pool_of [Returned]; pool_of [Idle in_a_second];
   pool_of [Working 2]; pool_of [Working 2; Starting 3]].

Lemma two_bodies_run : pool_run [1; 2; 3] two_bodies (pool_of [Working 2; Starting 3]).
Proof.
  pose proof (run_start (Job := nat) 5%Z) as H0.
  pose proof (run_next _ _ _ _ (pool_of [Starting 1]) H0 (dispatch_step 1 None (empty_pool 5%Z) (pool_of [Starting 1]) eq_refl)) as H1.
  pose proof (run_next _ _ _ _ (pool_of [Working 1]) H1 (worker_step 0 Takes (pool_of [Starting 1]) (pool_of [Working 1]) eq_refl)) as H2.
  pose proof (run_next _ _ _ _ (pool_of [Returned]) H2 (worker_step 0 Returns (pool_of [Working 1]) (pool_of [Returned]) eq_refl)) as H3.
  pose proof (run_next _ _ _ _ (pool_of [Idle in_a_second]) H3 (worker_step 0 Waits (pool_of [Returned]) (pool_of [Idle in_a_second]) eq_refl)) as H4.
  pose proof (run_next _ _ _ _ (pool_of [Working 2]) H4 (dispatch_step 2 (Some 0) (pool_of [Idle in_a_second]) (pool_of [Working 2]) eq_refl)) as H5.
  exact (run_next _ _ _ _ (pool_of [Working 2; Starting 3]) H5 (dispatch_step 3 None (pool_of [Working 2]) (pool_of [Working 2; Starting 3]) eq_refl)).
Qed.

Lemma bodies_run_once_and_never_queue_witness :
  [1; 2; 3] ≡ₚ [1; 2] ++ [3] /\ begun two_bodies = [1; 2] /\ finished two_bodies = [1].
Proof.
  destruct (bodies_run_once_and_never_queue _ _ _ two_bodies_run) as (H & _).
  split; [exact H|]. split; reflexivity.
Defined.
