(* ===== verification/ServiceWitnesses.v ===== *)
(** Concrete runs of the cache, the rate limiter and the recurrence policies, and
    concrete readings of settings. *)

From S2P Require Import Prelude GoStrings ConfigError ConfigSource Config ConfigFacts ConfigNumbers Time.
From S2P Require Cache CacheFacts Rate Schedule.

Definition seconds (n : Z) : Z := (n * 1000000000)%Z.

(** * The cache *)

Lemma LRU_serves_while_fresh_witness :
  fst (Cache.Get 15%Z "user:1" (Cache.Put 10%Z "user:1" "users" 42%Z 5%Z (Cache.NewLRU 2)))
  = (42%Z, true)
  /\ fst (Cache.Get 16%Z "user:1" (Cache.Put 10%Z "user:1" "users" 42%Z 5%Z (Cache.NewLRU 2)))
  = (0%Z, false).
Proof.
  split.
  - exact (proj1 (CacheFacts.LRU_serves_while_fresh (Cache.NewLRU 2) 10%Z 15%Z "user:1" "users"
      42%Z 5%Z (CacheFacts.NewLRU_ok 2) ltac:(discriminate) ltac:(lia))).
  - exact (proj1 (CacheFacts.LRU_serves_while_fresh (Cache.NewLRU 2) 10%Z 16%Z "user:1" "users"
      42%Z 5%Z (CacheFacts.NewLRU_ok 2) ltac:(discriminate) ltac:(lia))).
Defined.

(** * The rate limiter *)

Definition twice_a_second : Rate.Allowance := Rate.MkAllowance "api" 2 (seconds 1).

Lemma twice_a_second_ok : Rate.allowance_ok twice_a_second.
Proof. split_and!; [reflexivity|split; vm_compute; discriminate..]. Qed.

Lemma turns_are_spaced_witness :
  let asks := [(0, 0); (0, 0); (0, 0); (0, 0)]%Z in
  Rate.grants twice_a_second asks ∅ = [0; 0; 500000000; 1000000000]%Z
  /\ (0 + (Z.of_nat 3 - Z.of_nat 0 - (Rate.Most twice_a_second - 1)) * Rate.Spacing twice_a_second
      <= 1000000000)%Z.
Proof.
  split; [vm_compute; reflexivity|].
  eapply (Rate.turns_are_spaced twice_a_second [(0, 0); (0, 0); (0, 0); (0, 0)]%Z ∅ 0 3).
  - exact twice_a_second_ok.
  - vm_compute. repeat split; discriminate.
  - vm_compute. reflexivity.
  - vm_compute. reflexivity.
  - lia.
Defined.

Lemma Turn_reserves_or_refuses_witness :
  let limiter : gmap string Time := {["api" := 1000000000%Z]} in
  Rate.Turn 0%Z twice_a_second 100%Z limiter
  = (500000000%Z, Some (Rate.MkFault "api" (Some Rate.ErrLimitExceeded)), limiter)
  /\ (0 < 100 < 500000000)%Z.
Proof.
  assert (Rate.in_range twice_a_second 0%Z {["api" := 1000000000%Z]}) as Hr
    by (vm_compute; discriminate).
  pose proof (Rate.Turn_reserves_or_refuses twice_a_second 0%Z 100%Z {["api" := 1000000000%Z]}
    twice_a_second_ok Hr) as H.
  assert (Rate.Turn 0%Z twice_a_second 100%Z {["api" := 1000000000%Z]}
    = (500000000%Z, Some (Rate.MkFault "api" (Some Rate.ErrLimitExceeded)),
       {["api" := 1000000000%Z]})) as Ht by (vm_compute; reflexivity).
  rewrite Ht in H. split; [exact Ht|]. exact (proj2 (proj2 (proj2 H))).
Defined.

(** * Policies *)

Definition three_times : list (Time * unit) := [(0, tt); (1, tt); (2, tt)]%Z.

Lemma Recurs_counts_witness :
  exists dec, Schedule.decisions (Schedule.Recurs 2) three_times !! 2 = Some dec
  /\ Schedule.output dec = 2%Z /\ Schedule.continues dec = false.
Proof.
  eexists. split; [reflexivity|].
  destruct (Schedule.Recurs_counts 2 three_times 2 _ ltac:(vm_compute; split; discriminate)
    ltac:(vm_compute; discriminate) eq_refl) as (Ho & Hc & _).
  exact (conj Ho Hc).
Defined.

Lemma backoff_delays_witness :
  exists d1 d2,
    Schedule.decisions (Schedule.Exponential 10%Z 35%Z) three_times !! 2 = Some d1
    /\ Schedule.delay d1 = 35%Z
    /\ Schedule.decisions (Schedule.Fibonacci 10%Z 35%Z) three_times !! 2 = Some d2
    /\ Schedule.delay d2 = 20%Z.
Proof.
  destruct (Schedule.backoff_delays 10%Z 35%Z three_times 2
    ltac:(vm_compute; split; discriminate) ltac:(vm_compute; split; discriminate)) as [He Hf].
  eexists _, _. split_and!; [reflexivity|exact (proj1 (proj2 (He _ eq_refl)))|reflexivity|].
  exact (proj1 (proj2 (Hf _ eq_refl))).
Defined.

(** * Settings *)

Definition settings : gmap string string :=
  list_to_map [("port", "http"); ("db.host", "db.internal")]%string.

Lemma everything_wrong_is_reported_witness :
  Failures (snd (reader (ZipWith (Port "port") (Int "workers") Z.add)
                   (MkCursor (FromMap settings) [])))
  = [MkFailure KindInvalid ["port"] "a port between 1 and 65535" None;
     MkFailure KindMissing ["workers"] EmptyString None].
Proof.
  pose proof (proj1 (everything_wrong_is_reported (S := Z) (Port "port") (Int "workers") Z.add
    (@nil (Config Z)) (@nil (Field Z)) (MkCursor (FromMap settings) [])
    (fun f Hf => False_ind _ (not_elem_of_nil f Hf)))) as H.
  vm_compute in H. vm_compute. exact (proj1 H).
Defined.

Lemma Nested_reads_the_subtree_witness :
  Read (Some (FromMap settings)) (Nested "db" (Text "host"))
  = (let '(value, failure) := Read (Beneath (Some (FromMap settings)) ["db"]) (Text "host") in
     (value, Prefixed ["db"] failure))
  /\ fst (Read (Some (FromMap settings)) (Nested "db" (Text "host"))) = "db.internal"%string.
Proof.
  split; [|vm_compute; reflexivity].
  exact (Nested_reads_the_subtree (Text "host") (FromMap settings) "db"
    (built_Of _ _ _ _ _) ltac:(discriminate)).
Defined.

Lemma Load_total_witness :
  exists value err, Load (Some (FromMap settings)) (Int "workers") = Some (value, err)
  /\ (err = None <-> Failures (snd (Read (Some (FromMap settings)) (Int "workers"))) = []).
Proof.
  destruct (Load_total (Int "workers") (Some (FromMap settings)) (built_Of _ _ _ _ _))
    as (_ & _ & value & err & Hl & _ & He).
  exists value, err. exact (conj Hl He).
Defined.

Lemma Sources_take_the_first_witness :
  let overrides := FromMap {["port" := "9000"]} in
  Value (Sources (map Some [overrides; FromMap settings])) ["port"] = ("9000"%string, true, None).
Proof.
  pose proof (Sources_take_the_first [FromMap {["port" := "9000"]}; FromMap settings] ["port"]
    ltac:(cbn; lia)) as (H & _).
  exact (proj1 (H [] (FromMap {["port" := "9000"]}) [FromMap settings] "9000"%string eq_refl
    ltac:(set_solver)) eq_refl).
Defined.

Lemma error_composition_keeps_failures_witness :
  Failures (And (Or (Missing ["a"]) (Invalid "a flag" ["b"])) (Missing ["c"]))
  = Failures (Or (Missing ["a"]) (Invalid "a flag" ["b"])) ++ Failures (Missing ["c"]).
Proof.
  pose proof (error_composition_keeps_failures (Or (Missing ["a"]) (Invalid "a flag" ["b"]))
    (Missing ["c"]) [] eq_refl) as (_ & _ & _ & _ & H & _).
  exact H.
Defined.

