(* ===== verification/StreamWitnesses.v ===== *)
(** Concrete scopes, resources and streams: a world of variables, scopes and a log,
    whose contexts are done once their scope is cancelled. *)

From S2P Require Import Prelude Outcome Traversal OutcomeFacts Cause Interpreter InterpreterFacts.
From S2P Require Import Algebra Effects EffectsFacts Observation Calls Chunk Collections Completion.
From S2P Require Import Scope Time State RuntimePort Lifetimes Layer Variables Stream.
From S2P Require Import StreamScripts StreamFacts StreamRuns.

Inductive val : Type :=
| VInt (z : Z)
| VError (e : error)
| VPair (a b : option val).

Definition val_fst (v : option val) : option val :=
  match v with Some (VPair a _) => a | _ => None end.
Definition val_snd (v : option val) : option val :=
  match v with Some (VPair _ b) => b | _ => None end.
Definition val_int (v : option val) : Z := match v with Some (VInt z) => z | _ => 0%Z end.

#[export] Program Instance val_pairing : Pairing val := {|
  v_pair a b := Some (VPair a b);
  v_fst := val_fst;
  v_snd := val_snd
|}.
Solve All Obligations with done.

#[export] Program Instance val_Z : Erased val Z := {|
  erase z := Some (VInt z);
  unerase := val_int
|}.
Solve All Obligations with done.

#[export] Program Instance val_nat : Erased val nat := {|
  erase n := Some (VInt (Z.of_nat n));
  unerase v := Z.to_nat (val_int v)
|}.
Next Obligation. intros n. apply Nat2Z.id. Qed.

#[export] Program Instance val_bool : Erased val bool := {|
  erase b := Some (VInt (if b then 1 else 0));
  unerase v := (val_int v =? 1)%Z
|}.
Next Obligation. by intros []. Qed.

#[export] Program Instance val_unit : Erased val unit := {| erase _ := None; unerase _ := tt |}.
Next Obligation. by intros []. Qed.

Fixpoint val_list {A} `{Erased val A} (v : val) : list A :=
  match v with
  | VPair a b => unerase a :: match b with Some v => val_list v | None => [] end
  | _ => []
  end.

Fixpoint list_val {A} `{Erased val A} (l : list A) : option val :=
  match l with
  | [] => None
  | a :: l => Some (VPair (erase a) (list_val l))
  end.

Definition unlist {A} `{Erased val A} (v : option val) : list A :=
  match v with Some v => val_list v | None => [] end.

#[export] Program Instance val_lists {A} `{Erased val A} : Erased val (list A) := {|
  erase := list_val; unerase := unlist
|}.
Next Obligation.
  intros A HA l. induction l as [|a l IH]; [done|]. cbn. rewrite unerase_erase. f_equal.
  destruct l; [done|exact IH].
Qed.

#[export] Program Instance val_Chunk {A} `{Erased val A} : Erased val (Chunk A) := {|
  erase c := erase (chunk_values c); unerase v := MkChunk (unerase v)
|}.
Next Obligation. intros A HA [l]. cbn -[unerase erase]. by rewrite unerase_erase. Qed.

#[export] Program Instance val_Step {A} `{Erased val A} : Erased val (Step A) := {|
  erase s := v_pair (erase (step_chunk s)) (erase (step_more s));
  unerase v := MkStep (unerase (v_fst v)) (unerase (v_snd v))
|}.
Next Obligation.
  intros A HA [c m]. cbn -[unerase erase v_fst v_snd v_pair].
  by rewrite v_fst_pair, v_snd_pair, !unerase_erase.
Qed.

(** Contexts: the caller's, one bounded by a scope, and a detached one. *)
Inductive scoped_ctx : Type := background | bounded (scope : nat) | detached_from.

(** A finalizer captured the resource it releases. *)
Inductive releasing_resource : Type := resource_of (n : nat).

Record scoped_world : Type := MkScoped {
  sw_vars : list (option val);
  sw_scopes : list (Scope val releasing_resource);
  sw_log : list nat
}.

#[export] Program Instance sw_vars_heap : Heap scoped_world (option val) := {|
  heap_of := sw_vars;
  with_heap cells w := MkScoped cells (sw_scopes w) (sw_log w)
|}.
Solve All Obligations with by intros [].

#[export] Program Instance sw_scopes_heap : Heap scoped_world (Scope val releasing_resource) := {|
  heap_of := sw_scopes;
  with_heap cells w := MkScoped (sw_vars w) cells (sw_log w)
|}.
Solve All Obligations with by intros [].

#[export] Instance sw_apart : HeapsApart scoped_world (option val) (Scope val releasing_resource).
Proof. by intros cells w. Qed.

Definition over : error := MkError 8 "context canceled" [].

Definition scoped_ends (ctx : scoped_ctx) (w : scoped_world) : option error :=
  match ctx with
  | bounded scope =>
      match sw_scopes w !! scope with
      | Some s => match cancelled s with Some _ => Some over | None => None end
      | None => None
      end
  | _ => None
  end.

#[export] Program Instance scoped_context : ContextOps scoped_world scoped_ctx := {|
  ctx_Err ctx w := scoped_ends ctx w;
  ctx_Cause ctx w := scoped_ends ctx w;
  ctx_WithoutCancel _ := detached_from
|}.
Next Obligation. done. Qed.
Next Obligation. done. Qed.

#[export] Program Instance scoped_contexts
    : ScopeContexts val scoped_world scoped_ctx releasing_resource := {|
  scope_ctx scope _ := bounded scope
|}.
Next Obligation. intros scope parent w s _ Hs Hc. cbn. unfold heap_get in Hs; cbn in Hs. by rewrite Hs, Hc. Qed.
Next Obligation.
  intros scope parent w s r Hs Hc. cbn. unfold heap_get in Hs; cbn in Hs. rewrite Hs, Hc. eauto.
Qed.

#[export] Program Instance scoped_children : ScopeChildren val scoped_world releasing_resource := {|
  await_children _ w := w
|}.
Next Obligation. done. Qed.

(** A state: the operation, and the scope that owns new work. *)
Definition scoped_state : Type := string * nat.
#[export] Instance scoped_state_ops : StateOps scoped_state := {| state_Operation := fst |}.

#[export] Instance scoped_port : RuntimePort val scoped_world scoped_ctx scoped_state := {|
  port_EmitStart _ _ _ := call_ret 0%Z;
  port_EmitEnd _ _ _ _ _ := call_ret tt;
  port_EmitMark _ _ _ := call_ret tt;
  port_WithScope state scope := (fst state, scope);
  port_Scope := snd;
  port_Root _ := 0;
  port_Record _ _ := call_ret tt
|}.

#[export] Program Instance scoped_quiet
    : QuietPort val scoped_world scoped_ctx scoped_state (Scope val releasing_resource) := {|
  quiet _ := True
|}.
Solve All Obligations with (intros; first [done | apply settles_ret]).

Definition log_entry (n : nat) : call val scoped_world unit :=
  fun w => (inl tt, MkScoped (sw_vars w) (sw_scopes w) (sw_log w ++ [n])).

Definition sw_error (e : error) : val := VError e.
Definition sw_zero : Panic val := MkPanic (VInt 99) "zero".
Definition sw_nil : Panic val := MkPanic (VInt 98) "nil".
Definition start_world : scoped_world := MkScoped [] [] [].
Definition sw_interp : Interpretation val scoped_ctx scoped_state :=
  MkInterpretation background ("copying"%string, 7) None.

Lemma sw_quiet :
  quiet (V := val) (World := scoped_world) (Ctx := scoped_ctx)
    (T := Scope val releasing_resource) (interp_State sw_interp).
Proof. exact I. Qed.

Abbreviation sw_effect A := (@Effect val scoped_world scoped_ctx scoped_state unit Z A).
Abbreviation sw_stream A := (@Stream val scoped_world scoped_ctx scoped_state unit Z A).

(** Releasing a resource notes it, and the third one cannot be released. *)
Definition releasing_it (n : nat)
    : call val scoped_world (@Effect val scoped_world scoped_ctx scoped_state unit Never unit) :=
  call_ret (From (fun _ _ =>
    let! _ := log_entry n in
    call_ret (if n =? 3 then ExitFailure (DieCause (MkDefect (Some (VInt 3)) "release"))
              else ExitSuccessOf tt))).

#[export] Instance resource_finalizer
    : FinalizerOps releasing_resource val scoped_world scoped_ctx := fun f =>
  match f with
  | resource_of n => releaseFinalizer sw_error over sw_zero releasing_it ("copying"%string, 0) tt n
  end.

(** The state a closure captured plays no part in what this one does. *)
Lemma resource_of_calls state environment n :
  call_finalizer (resource_of n)
  = releaseFinalizer sw_error over sw_zero releasing_it state environment n.
Proof. by destruct environment. Qed.

Definition noted_release : Release sw_error over sw_zero unit nat :=
  MkRelease sw_error over sw_zero unit nat _ releasing_it (fun _ _ => resource_of) resource_of_calls.

Definition acquiring (n : nat) : sw_effect nat := SucceedWith n.

Definition with_resources (scope : nat) : call val scoped_world (sw_effect nat) :=
  call_ret
    (FlatMap sw_zero (AcquireRelease sw_error over sw_zero sw_nil scope (acquiring 2) noted_release)
       (fun _ => call_ret
          (FlatMap sw_zero (AcquireRelease sw_error over sw_zero sw_nil scope (acquiring 3) noted_release)
             (fun n => call_ret (FailWith (A := nat) "copy.go:9" (Z.of_nat n)))))).

Definition copy_failed : Exit val :=
  ExitFailure (WithOrigin (WithOrigin (FailCauseOf 3%Z) (MkOrigin "copy.go:9" EmptyString))
    (MkOrigin EmptyString "copying")).

Definition two_held : Scope val releasing_resource :=
  MkScope scopeOpen (zero (Exit val)) None 0 [resource_of 2; resource_of 3].


Definition open_scope : Scope val releasing_resource := NewScope.

Lemma AcquireRelease_registers_witness :
  let acquired := runs sw_error over sw_zero
    (AcquireRelease sw_error over sw_zero sw_nil 0 (acquiring 2) noted_release) sw_interp
    (MkScoped [] [open_scope] []) in
  fst acquired = ExitSuccess (erase 2)
  /\ sw_scopes (snd acquired)
     = [MkScope scopeOpen (zero (Exit val)) None 0 [resource_of 2]].
Proof.
  exact (proj1 (proj2 (proj2 (AcquireRelease_registers sw_error over sw_zero sw_nil 0 (acquiring 2)
    noted_release sw_interp (MkScoped [] [open_scope] []) (MkScoped [] [open_scope] [])
    (ExitSuccess (erase 2)) open_scope sw_quiet eq_refl eq_refl))) eq_refl eq_refl).
Defined.

(** ** Streams *)

Lemma sw_uncancelled w : ctx_Err (interp_Context sw_interp) w = None.
Proof. reflexivity. Qed.

#[local] Abbreviation in_first_scope :=
  (in_scope (V := val) (World := scoped_world) (F := releasing_resource) 0).
#[local] Abbreviation the_first := (eq 0).
#[local] Abbreviation first_scope := (inside (F := releasing_resource) 0 sw_interp).

Definition numbers : sw_stream Z :=
  StreamFromChunks sw_zero sw_nil [MkChunk [1; 2]; MkChunk []; MkChunk [3; 4; 5]]%Z.

Lemma numbers_denote :
  denotes sw_error over sw_zero first_scope in_first_scope the_first numbers [1; 2; 3; 4; 5]%Z.
Proof.
  apply (denotes_Chunks sw_error over sw_zero sw_nil first_scope in_first_scope the_first
           (in_scope_ctx sw_interp sw_uncancelled 0) (in_scope_vars 0)
           [MkChunk [1; 2]; MkChunk []; MkChunk [3; 4; 5]]%Z).
Qed.

Lemma adds_one :
  computes sw_error over sw_zero first_scope in_first_scope
    (fun n => SucceedWith (n + 1)%Z : sw_effect Z) (fun n => n + 1)%Z.
Proof.
  intros n w Hl. exists w. split; [|done].
  by apply (live_SucceedWith sw_error over sw_zero first_scope in_first_scope
              (in_scope_ctx sw_interp sw_uncancelled 0)).
Qed.

Lemma transforms_are_list_functions_witness :
  denotes sw_error over sw_zero first_scope in_first_scope the_first
    (TakeStream sw_zero sw_nil numbers 3) [1; 2; 3]%Z
  /\ denotes sw_error over sw_zero first_scope in_first_scope the_first
       (ConcatStreams sw_zero sw_nil numbers numbers) [1; 2; 3; 4; 5; 1; 2; 3; 4; 5]%Z.
Proof.
  assert (3 <= int64_max)%Z as H3 by (unfold int64_max; lia).
  pose proof (transforms_are_list_functions sw_error over sw_zero sw_nil first_scope in_first_scope the_first
    (in_scope_ctx sw_interp sw_uncancelled 0) (in_scope_vars 0) numbers numbers [1; 2; 3; 4; 5]%Z
    [1; 2; 3; 4; 5]%Z 3%Z (fun n => n + 1)%Z Z.even (fun n => SucceedWith (n + 1)%Z)
    numbers_denote numbers_denote H3 adds_one) as (_ & _ & Ht & _ & _ & Hc & _).
  exact (conj Ht Hc).
Defined.

Definition forever : sw_stream Z := StreamRepeatEffect sw_zero (SucceedWith 7%Z).

Lemma forever_streams :
  streams sw_error over sw_zero first_scope in_first_scope the_first forever
    (fun _ => Emits (MkChunk [7]%Z)).
Proof.
  apply (streams_Repeat sw_error over sw_zero first_scope in_first_scope the_first
           (in_scope_ctx sw_interp sw_uncancelled 0) (SucceedWith 7%Z) 7%Z).
  intros w Hl. exists w. split; [|done].
  by apply (live_SucceedWith sw_error over sw_zero first_scope in_first_scope
              (in_scope_ctx sw_interp sw_uncancelled 0)).
Qed.

Lemma TakeStream_stops_its_source_witness :
  exists m, m <= 2
  /\ finishes (V := val) (take_script 2 (fun _ => Emits (MkChunk [7]%Z))) m [7; 7]%Z
  /\ snd (stage_state take_ended take_rewrite 2%Z
            (fun _ => Emits (V := val) (MkChunk [7]%Z)) (S m)) = m.
Proof.
  assert (2 <= int64_max)%Z as H2 by (unfold int64_max; lia).
  destruct (TakeStream_stops_its_source sw_error over sw_zero sw_nil first_scope in_first_scope the_first
    (in_scope_ctx sw_interp sw_uncancelled 0) (in_scope_vars 0) forever
    (fun _ => Emits (MkChunk [7]%Z)) 2%Z 2 forever_streams
    (fun p _ => ex_intro _ (MkChunk [7]%Z) eq_refl) H2 (le_n 2)) as (m & Hm & _ & Hf & Hp & _).
  exists m. exact (conj Hm (conj Hf Hp)).
Defined.

Lemma first_scope_kept : cells_kept (V := val) (World := scoped_world) (F := releasing_resource) 0.
Proof.
  split; [done|]. intros ctx [n] exit [vars scopes logged] Hs. change (is_Some (scopes !! 0)) in Hs.
  destruct ctx; cbv -[Nat.eqb lookup list_lookup];
    try destruct (scopes !! scope) as [[? ? [|] ? ?]|]; cbv -[Nat.eqb lookup list_lookup];
    try destruct (n =? 3); exact Hs.
Qed.

(** A stream that holds a resource while its values are read. *)
Definition held (scope : nat) : call val scoped_world (sw_effect nat) :=
  call_ret (AcquireRelease sw_error over sw_zero sw_nil scope (acquiring 3) noted_release).
Definition read_held : sw_stream Z := StreamFromResource sw_zero held (fun _ => numbers).

Lemma read_held_denotes :
  denotes sw_error over sw_zero first_scope in_first_scope the_first read_held [1; 2; 3; 4; 5]%Z.
Proof.
  destruct numbers_denote as (script & n & Hs & Hf). exists script, n. split; [|exact Hf].
  apply (streams_FromResource sw_error over sw_zero first_scope in_first_scope the_first held
           (fun _ => numbers) 3); [|exact Hs].
  intros scope <-. eexists. split; [done|]. intros w (s & Hg & Ho & Hc).
  destruct w as [vars [|s0 scopes] logged]; [done|]. injection Hg as ->.
  destruct s as [st closeexit c ch fs]; cbn in Ho, Hc. subst st c.
  eexists. split; [vm_compute; reflexivity|]. split; [|done]. by eexists.
Qed.

(** Collecting it: the list, and the resource's failed release after it. *)
Lemma sinks_fold_the_list_witness :
  exists n, forall fuel, n < fuel ->
  closes_after sw_error over sw_zero sw_interp
    (sink sw_zero read_held (fun next => foldSteps sw_zero fuel (fun s => SucceedWith s) next []
       (pure2 (fun values value => values ++ [value])))) start_world
    (ExitSuccess (erase [1; 2; 3; 4; 5]%Z))
    (runs sw_error over sw_zero
      (RunCollect sw_zero sw_nil (F := releasing_resource) fuel (fun s => SucceedWith s) read_held)
      sw_interp start_world).
Proof.
  destruct (sinks_fold_the_list sw_error over sw_zero sw_nil sw_interp sw_uncancelled sw_quiet read_held
    [1; 2; 3; 4; 5]%Z Z.add 0%Z (fun s => SucceedWith s) (fun s => SucceedWith s)
    (fun s => SucceedWith s) start_world read_held_denotes first_scope_kept) as [n Hn].
  exists n. intros fuel Hfuel. exact (proj1 (proj2 (Hn fuel Hfuel))).
Defined.

Definition broken : sw_stream Z :=
  ConcatStreams sw_zero sw_nil numbers (StreamFail sw_zero "read.go:5" 13%Z).

Definition broken_script : Script val Z :=
  concat_script (chunks_script [MkChunk [1; 2]; MkChunk []; MkChunk [3; 4; 5]]%Z)
    (fun _ => Fails (WithOrigin (WithOrigin (FailCauseOf 13%Z) (MkOrigin "read.go:5" EmptyString))
                       (here first_scope))).

Lemma broken_streams :
  streams sw_error over sw_zero first_scope in_first_scope the_first broken broken_script.
Proof.
  apply (streams_Concat sw_error over sw_zero sw_nil first_scope in_first_scope the_first
           (in_scope_ctx sw_interp sw_uncancelled 0) (in_scope_vars 0)).
  - apply (streams_FromChunks sw_error over sw_zero sw_nil first_scope in_first_scope the_first
           (in_scope_ctx sw_interp sw_uncancelled 0) (in_scope_vars 0)).
  - exact (streams_Fail sw_error over sw_zero first_scope in_first_scope the_first
           (in_scope_ctx sw_interp sw_uncancelled 0) "read.go:5" 13%Z).
Qed.

Lemma sinks_stop_at_the_first_failure_witness :
  closes_after sw_error over sw_zero sw_interp
    (sink sw_zero broken (fun next => foldSteps sw_zero 4 (fun s => SucceedWith s) next 0%Z (pure2 Z.add)))
    start_world
    (ExitFailure (WithOrigin (WithOrigin (FailCauseOf 13%Z) (MkOrigin "read.go:5" EmptyString))
                    (here first_scope)))
    (runs sw_error over sw_zero
      (RunFold sw_zero sw_nil (F := releasing_resource) 4 (fun s => SucceedWith s) broken 0%Z (pure2 Z.add))
      sw_interp start_world).
Proof.
  assert (running broken_script 3) as Hr.
  { intros [|[|[|p]]] Hp; [by eexists|by eexists|by eexists|lia]. }
  exact (sinks_stop_at_the_first_failure sw_error over sw_zero sw_nil sw_interp sw_uncancelled sw_quiet
    broken broken_script 3 _ Z.add 0%Z (fun s => SucceedWith s) 4 start_world broken_streams first_scope_kept Hr
    eq_refl (le_n 4)).
Defined.
