(* ===== verification/HandleWitnesses.v ===== *)
(** Concrete runtimes, fibers, queues, bodies in direct style and environments: one
    world with a heap of each kind, and a counter. *)

From stdpp Require Import relations.
From S2P Require Import Prelude Outcome Traversal OutcomeFacts Cause Interpreter InterpreterFacts.
From S2P Require Import Algebra Effects EffectsFacts Observation Queue Calls Gen GenFacts Completion.
From S2P Require Import Scope ConfigSource Time State RuntimePort Lifetimes Services.
From S2P Require Import Runtime Waiting Handles QueueEffects Parallel Pairs Groups.
From S2P Require Import GroupsFacts StreamWitnesses.

(** Values: numbers, exits, errors and what a list is made of. *)
Inductive hval : Type :=
| HInt (z : Z)
| HExit (x : Exit hval)
| HPair (p : PairOutcome hval)
| HExits (l : list (Exit hval))
| HList (l : list Z)
| HError (e : error).

Definition hval_int (v : option hval) : Z := match v with Some (HInt z) => z | _ => 0%Z end.
Definition hval_exit (v : option hval) : Exit hval :=
  match v with Some (HExit x) => x | _ => zero (Exit hval) end.

#[export] Program Instance hval_Z : Erased hval Z := {|
  erase z := Some (HInt z); unerase := hval_int
|}.
Solve All Obligations with done.
#[export] Program Instance hval_Exit : Erased hval (Exit hval) := {|
  erase x := Some (HExit x); unerase := hval_exit
|}.
Solve All Obligations with done.
#[export] Program Instance hval_PairOutcome : Erased hval (PairOutcome hval) := {|
  erase p := Some (HPair p);
  unerase v := match v with Some (HPair p) => p | _ => MkPair (zero (Exit hval)) (zero (Exit hval)) NeitherSide end
|}.
Solve All Obligations with done.
#[export] Program Instance hval_exits : Erased hval (list (Exit hval)) := {|
  erase l := Some (HExits l); unerase v := match v with Some (HExits l) => l | _ => [] end
|}.
Solve All Obligations with done.
#[export] Program Instance hval_list : Erased hval (list Z) := {|
  erase l := Some (HList l); unerase v := match v with Some (HList l) => l | _ => [] end
|}.
Solve All Obligations with done.
#[export] Program Instance hval_unit : Erased hval unit := {| erase _ := None; unerase _ := tt |}.
Next Obligation. by intros []. Qed.
#[export] Program Instance hval_bool : Erased hval bool := {|
  erase b := Some (HInt (if b then 1 else 0)); unerase v := (hval_int v =? 1)%Z
|}.
Next Obligation. by intros []. Qed.
#[export] Program Instance hval_fiber : Erased hval FiberHandle := {|
  erase f := Some (HInt (Z.of_nat (fiber_state f)));
  unerase v := MkFiberHandle (Z.to_nat (hval_int v))
|}.
Next Obligation. intros [n]; cbn. by rewrite Nat2Z.id. Qed.
#[export] Program Instance hval_Receive : Erased hval (Receive Z) := {|
  erase r := Some (HInt (if receive_OK r then 2 * receive_Value r else 2 * receive_Value r + 1));
  unerase v := MkReceive (hval_int v / 2)%Z (Z.even (hval_int v))
|}.
Next Obligation.
  intros [v []]; cbn; f_equal.
  - rewrite Z.mul_comm. by apply Z.div_mul.
  - rewrite Z.even_mul. done.
  - replace (2 * v + 1)%Z with (1 + v * 2)%Z by lia. by rewrite Z.div_add.
  - replace (2 * v + 1)%Z with (1 + 2 * v)%Z by lia. by rewrite Z.even_add_mul_2.
Qed.

(** A finalizer does nothing, or fails with a number. *)
Inductive quiet_release : Type :=
| nothing_to_release
| refuses_to_release (z : Z).

Record pw : Type := MkPw {
  pw_scopes : list (Scope hval quiet_release);
  pw_fibers : list (Fiber hval);
  pw_ids : list identifiers;
  pw_ledgers : list Ledger;
  pw_valids : list bool;
  pw_dos : list (doState hval);
  pw_queues : list (Queue.store Z);
  pw_started : list nat;
  pw_count : Z;
  pw_permits : list (NativeChannel unit);
  pw_completions : list (NativeChannel (nat * Exit hval))
}.

#[export] Program Instance pw_scopes_heap : Heap pw (Scope hval quiet_release) := {|
  heap_of := pw_scopes;
  with_heap cells w := MkPw cells (pw_fibers w) (pw_ids w) (pw_ledgers w) (pw_valids w) (pw_dos w)
                         (pw_queues w) (pw_started w) (pw_count w) (pw_permits w) (pw_completions w)
|}.
Solve All Obligations with by intros [].
#[export] Program Instance pw_fibers_heap : Heap pw (Fiber hval) := {|
  heap_of := pw_fibers;
  with_heap cells w := MkPw (pw_scopes w) cells (pw_ids w) (pw_ledgers w) (pw_valids w) (pw_dos w)
                         (pw_queues w) (pw_started w) (pw_count w) (pw_permits w) (pw_completions w)
|}.
Solve All Obligations with by intros [].
#[export] Program Instance pw_ids_heap : Heap pw identifiers := {|
  heap_of := pw_ids;
  with_heap cells w := MkPw (pw_scopes w) (pw_fibers w) cells (pw_ledgers w) (pw_valids w) (pw_dos w)
                         (pw_queues w) (pw_started w) (pw_count w) (pw_permits w) (pw_completions w)
|}.
Solve All Obligations with by intros [].
#[export] Program Instance pw_ledgers_heap : Heap pw Ledger := {|
  heap_of := pw_ledgers;
  with_heap cells w := MkPw (pw_scopes w) (pw_fibers w) (pw_ids w) cells (pw_valids w) (pw_dos w)
                         (pw_queues w) (pw_started w) (pw_count w) (pw_permits w) (pw_completions w)
|}.
Solve All Obligations with by intros [].
#[export] Program Instance pw_valids_heap : Heap pw bool := {|
  heap_of := pw_valids;
  with_heap cells w := MkPw (pw_scopes w) (pw_fibers w) (pw_ids w) (pw_ledgers w) cells (pw_dos w)
                         (pw_queues w) (pw_started w) (pw_count w) (pw_permits w) (pw_completions w)
|}.
Solve All Obligations with by intros [].
#[export] Program Instance pw_dos_heap : Heap pw (doState hval) := {|
  heap_of := pw_dos;
  with_heap cells w := MkPw (pw_scopes w) (pw_fibers w) (pw_ids w) (pw_ledgers w) (pw_valids w) cells
                         (pw_queues w) (pw_started w) (pw_count w) (pw_permits w) (pw_completions w)
|}.
Solve All Obligations with by intros [].
#[export] Program Instance pw_queues_heap : Heap pw (Queue.store Z) := {|
  heap_of := pw_queues;
  with_heap cells w := MkPw (pw_scopes w) (pw_fibers w) (pw_ids w) (pw_ledgers w) (pw_valids w) (pw_dos w)
                         cells (pw_started w) (pw_count w) (pw_permits w) (pw_completions w)
|}.
Solve All Obligations with by intros [].

#[export] Program Instance pw_permits_heap : Heap pw (NativeChannel unit) := {|
  heap_of := pw_permits;
  with_heap cells w := MkPw (pw_scopes w) (pw_fibers w) (pw_ids w) (pw_ledgers w) (pw_valids w) (pw_dos w)
                         (pw_queues w) (pw_started w) (pw_count w) cells (pw_completions w)
|}.
Solve All Obligations with by intros [].
#[export] Program Instance pw_completions_heap : Heap pw (NativeChannel (nat * Exit hval)) := {|
  heap_of := pw_completions;
  with_heap cells w := MkPw (pw_scopes w) (pw_fibers w) (pw_ids w) (pw_ledgers w) (pw_valids w) (pw_dos w)
                         (pw_queues w) (pw_started w) (pw_count w) (pw_permits w) cells
|}.
Solve All Obligations with by intros [].

(** Any two of these heaps are fields of their own. *)
#[export] Instance pw_apart_ledger_scope : HeapsApart pw Ledger (Scope hval quiet_release).
Proof. by intros cells w. Qed.
#[export] Instance pw_apart_valid_do : HeapsApart pw bool (doState hval).
Proof. by intros cells w. Qed.
#[export] Instance pw_apart_do_valid : HeapsApart pw (doState hval) bool.
Proof. by intros cells w. Qed.
#[export] Instance pw_apart_scope_ids : HeapsApart pw (Scope hval quiet_release) identifiers.
Proof. by intros cells w. Qed.
#[export] Instance pw_apart_scope_fiber : HeapsApart pw (Scope hval quiet_release) (Fiber hval).
Proof. by intros cells w. Qed.
#[export] Instance pw_apart_ids_scope : HeapsApart pw identifiers (Scope hval quiet_release).
Proof. by intros cells w. Qed.
#[export] Instance pw_apart_ids_fiber : HeapsApart pw identifiers (Fiber hval).
Proof. by intros cells w. Qed.
#[export] Instance pw_apart_ledger_fiber : HeapsApart pw Ledger (Fiber hval).
Proof. by intros cells w. Qed.
#[export] Instance pw_apart_completions_fiber : HeapsApart pw (NativeChannel (nat * Exit hval)) (Fiber hval).
Proof. by intros cells w. Qed.
#[export] Instance pw_apart_permits_fiber : HeapsApart pw (NativeChannel unit) (Fiber hval).
Proof. by intros cells w. Qed.
#[export] Instance pw_apart_completions_scope :
  HeapsApart pw (NativeChannel (nat * Exit hval)) (Scope hval quiet_release).
Proof. by intros cells w. Qed.
#[export] Instance pw_apart_scope_completions :
  HeapsApart pw (Scope hval quiet_release) (NativeChannel (nat * Exit hval)).
Proof. by intros cells w. Qed.
#[export] Instance pw_apart_fiber_scope : HeapsApart pw (Fiber hval) (Scope hval quiet_release).
Proof. by intros cells w. Qed.

Definition pw_ends (ctx : scoped_ctx) (w : pw) : option error :=
  match ctx with
  | bounded scope =>
      match pw_scopes w !! scope with
      | Some s => match cancelled s with Some _ => Some over | None => None end
      | None => None
      end
  | _ => None
  end.

#[export] Program Instance pw_context : ContextOps pw scoped_ctx := {|
  ctx_Err ctx w := pw_ends ctx w;
  ctx_Cause ctx w := pw_ends ctx w;
  ctx_WithoutCancel _ := detached_from
|}.
Next Obligation. done. Qed.
Next Obligation. done. Qed.

#[export] Program Instance pw_contexts : ScopeContexts hval pw scoped_ctx quiet_release := {|
  scope_ctx scope _ := bounded scope
|}.
Next Obligation. intros scope parent w s _ Hs Hc. cbn. unfold heap_get in Hs; cbn in Hs. by rewrite Hs, Hc. Qed.
Next Obligation.
  intros scope parent w s r Hs Hc. cbn. unfold heap_get in Hs; cbn in Hs. rewrite Hs, Hc. eauto.
Qed.

#[export] Program Instance pw_children : ScopeChildren hval pw quiet_release := {|
  await_children _ w := w
|}.
Next Obligation. done. Qed.

#[export] Instance pw_finalizer : FinalizerOps quiet_release hval pw scoped_ctx := fun f _ _ =>
  call_ret match f with
           | nothing_to_release => zeroCause
           | refuses_to_release z => FailCause (Some (HInt z))
           end.

(** A branch's completion is there to be received. *)
Definition completion_sent (c : NativeChannel (nat * Exit hval)) : NativeChannel (nat * Exit hval) :=
  match native_buffer c with
  | [] => MkNative [(0, ExitSuccess (Some (HInt 7)))] (native_room c) (native_senders c) (native_closed c)
  | _ => c
  end.

(** Whoever has to wait lets every fiber end first, with its own number, and every
    completion arrive; if that does not let it go on, nothing does. *)
Definition all_ended (w : pw) : pw :=
  MkPw (pw_scopes w) ((fun f => fiber_Complete (ExitSuccess (Some (HInt (fiber_id f)))) f) <$> pw_fibers w)
    (pw_ids w) (pw_ledgers w) (pw_valids w) (pw_dos w) (pw_queues w) (pw_started w) (pw_count w)
    (pw_permits w) (completion_sent <$> pw_completions w).

Definition pw_waits (ctx : scoped_ctx) (ready : pw -> bool) (w : pw) : option (select_case * pw) :=
  if ready w then Some (case_message, w)
  else match pw_ends ctx w with
       | Some _ => Some (case_done, w)
       | None => if ready (all_ended w) then Some (case_message, all_ended w) else None
       end.

#[export] Program Instance pw_waiting : Waiting pw scoped_ctx := {| waits := pw_waits |}.
Next Obligation.
  intros ctx ready w w'. unfold pw_waits. destruct (ready w) eqn:Hr; [by intros [= <-]|].
  destruct (pw_ends ctx w); [done|]. by destruct (ready (all_ended w)) eqn:Hr'; [intros [= <-]|].
Qed.
Next Obligation.
  intros ctx ready w w'. unfold pw_waits. destruct (ready w); [done|].
  destruct (pw_ends ctx w) eqn:He; [|by destruct (ready (all_ended w))].
  intros [= <-]. cbn. rewrite He. eauto.
Qed.
Next Obligation. intros ctx ready w Hr _. unfold pw_waits. by rewrite Hr. Qed.


(** ** Direct style *)

Definition p_error (e : error) : hval := HError e.
Definition p_zero : Panic hval := MkPanic (HInt 99) "zero".
Definition p_nil : Panic hval := MkPanic (HInt 98) "nil".
Definition p_stuck : Panic hval := MkPanic (HInt 97) "stuck".

#[local] Abbreviation pstate := (@State hval pw scoped_ctx string unit unit).
#[local] Abbreviation peffect A := (@Effect hval pw scoped_ctx pstate unit Z A).

Definition p_capabilities : @CapabilitySet hval pw scoped_ctx string unit unit :=
  MkSet (MkClock (call_ret 0%Z) (fun _ _ => call_ret None)) tt tt None None None.
Definition p_state : pstate := MkState p_capabilities zeroMetadata 0 0 None.
Definition p_interp : Interpretation hval scoped_ctx pstate :=
  MkInterpretation background p_state None.
Definition p_world : pw := MkPw [NewScope] [] [MkIdentifiers 0 0] [] [] [] [] [] 20 [] [].

Definition bump (w : pw) : pw :=
  MkPw (pw_scopes w) (pw_fibers w) (pw_ids w) (pw_ledgers w) (pw_valids w) (pw_dos w) (pw_queues w)
    (pw_started w) (pw_count w + 1) (pw_permits w) (pw_completions w).

Definition tick : peffect Z := From (fun _ _ w => (inl (ExitSuccessOf (pw_count w)), bump w)).

(** [a := do.Await(tick); b := do.Await(tick); if b > 100 { do.Fail(b) }; return a + b]. *)
Definition prices : direct unit Z Z :=
  Perform tick (fun a => Perform tick (fun b =>
    if (100 <? b)%Z then Guard "prices.go:12" b (Return (a + b)%Z) else Return (a + b)%Z)).

Lemma pw_alike w v : alike w v -> pw_count w = pw_count v /\ pw_scopes w = pw_scopes v.
Proof.
  intros Hwv. induction Hwv as [|w u v [[cells w'|cells w']|[cells u'|cells u']] _ IH]; try done; exact IH.
Qed.

Lemma alike_bump w v : alike w v -> alike (bump w) (bump v).
Proof.
  apply rtsc_congruence. intros x y [cells z|cells z].
  - exact (kept_dos cells (bump z)).
  - exact (kept_valids cells (bump z)).
Qed.

Lemma p_indifferent (ctx : scoped_ctx) w v :
  alike w v -> ctx_Err ctx w = ctx_Err ctx v /\ ctx_Cause ctx w = ctx_Cause ctx v.
Proof. intros Hwv. destruct ctx; cbn; by rewrite ?(proj2 (pw_alike w v Hwv)). Qed.

Lemma undisturbed_tick i : undisturbed (runs p_error over p_zero tick i).
Proof.
  intros w v Hwv. destruct (p_indifferent (interp_Context i) w v Hwv) as [Herr Hcause].
  unfold tick. rewrite !runs_From, <- Herr. destruct (ctx_Err (interp_Context i) w) eqn:Hlive; cbn [fst snd].
  - split_and!; [|done|reflexivity]. unfold interrupted_exit, CancellationReason.
    by rewrite Hcause, <- Herr, Hlive.
  - split_and!; [by rewrite (proj1 (pw_alike w v Hwv))|by apply alike_bump|]. split; apply reflexivity.
Qed.

Lemma prices_unobtrusive : unobtrusive p_error over p_zero prices.
Proof.
  split; [apply undisturbed_tick|]. intros a. split; [apply undisturbed_tick|]. intros b.
  by destruct (100 <? b)%Z.
Qed.

Lemma Gen_is_sequential_witness :
  fst (runs p_error over p_zero
    (Gen p_error p_nil "stack" (direct_body p_error over p_zero p_nil "stack" prices)) p_interp p_world)
  = ExitSuccess (erase 41%Z).
Proof.
  rewrite (proj1 (proj1 (Gen_is_sequential p_error over p_zero p_nil "stack" p_indifferent prices
    p_interp prices_unobtrusive) p_world p_world eq_refl (reflexivity p_world))).
  vm_compute. reflexivity.
Defined.

(** ** Forking and observing *)

(** What a fiber runs: a tick, or a branch of a collection around another. *)
Inductive pwork : Type :=
| WTick
| WBranch (index completions : nat) (permits : option nat) (work : pwork).

Definition p_go (fiber : nat) (_ : scoped_ctx) (_ : pstate) (_ : pwork) (w : pw) : pw :=
  MkPw (pw_scopes w) (pw_fibers w) (pw_ids w) (pw_ledgers w) (pw_valids w) (pw_dos w) (pw_queues w)
    (pw_started w ++ [fiber]) (pw_count w) (pw_permits w) (pw_completions w).

Fixpoint call_pwork (work : pwork) : scoped_ctx -> pstate -> call hval pw (Exit hval) :=
  match work with
  | WTick => eraseWork p_error over p_zero tick tt
  | WBranch index completions permits work =>
      recordOutcome_at p_stuck p_nil index completions (withPermit p_stuck p_nil permits (call_pwork work))
  end.

Definition p_branch : BranchClosure p_stuck p_nil call_pwork :=
  MkBranchClosure p_stuck p_nil call_pwork WBranch (fun _ _ _ _ => eq_refl).

Lemma call_tick_captured (env : unit) : call_pwork WTick = eraseWork p_error over p_zero tick env.
Proof. by destruct env. Qed.

Definition ticking := MkWork p_error over p_zero call_pwork Z tick (fun _ => WTick) call_tick_captured.

Definition p_owner (_ : pstate) : nat := 0.

Lemma forks_are_owned_witness :
  exists w', runs p_error over p_zero
    (forkFiber (F := quiet_release) p_error over p_zero p_nil call_pwork p_go 0 ticking p_owner) p_interp p_world
  = (ExitSuccess (erase (MkFiberHandle 0)), p_go 0 background (ForChild p_state 1 1) WTick w')
  /\ pw_scopes w' = [MkScope scopeOpen (zero (Exit hval)) None 1 []; NewScope].
Proof.
  pose proof (forks_are_owned (F := quiet_release) p_error over p_zero p_nil call_pwork p_go 0 ticking p_owner
    p_interp p_world NewScope (MkIdentifiers 0 0)) as Hforked.
  destruct Hforked as [[w' (Hrun & Hscopes & _)] _]; [vm_compute; reflexivity..|].
  exists w'. exact (conj Hrun Hscopes).
Defined.

(** ** Two at once *)

Lemma all_ended_get a w (f : Fiber hval) :
  heap_get a w = Some f ->
  heap_get a (all_ended w) = Some (fiber_Complete (ExitSuccess (Some (HInt (fiber_id f)))) f).
Proof.
  intros Hf. change (pw_fibers w !! a = Some f) in Hf.
  unfold heap_get; cbn. by rewrite list_lookup_fmap, Hf.
Qed.

Lemma p_private a : Pairs.private p_go a.
Proof.
  split.
  - intros ctx ready w c w' f Hw Hf. cbn in Hw. unfold pw_waits in Hw.
    destruct (ready w); [injection Hw as _ <-; exists f; split; [done|by left]|].
    destruct (pw_ends ctx w); [injection Hw as _ <-; exists f; split; [done|by left]|].
    destruct (ready (all_ended w)); [injection Hw as _ <-|done].
    eexists. split; [by apply all_ended_get|]. right. by eexists.
  - intros fiber ctx st work w f Hf. exists f. split; [done|by left].
Qed.

(** A wait that can go on once every fiber has ended does. *)
Lemma p_wait_ends {B} (ctx : scoped_ctx) (attempt : pw -> option (B * pw)) w :
  is_Some (attempt (all_ended w)) -> wait_ends (ctx_WithoutCancel ctx) attempt w.
Proof.
  intros [b Hb]. unfold wait_ends; cbn. unfold pw_waits; cbn.
  destruct (can_proceed attempt w); [by eexists|].
  assert (can_proceed attempt (all_ended w) = true) as ->; [|by eexists].
  unfold can_proceed. by rewrite Hb.
Qed.

Lemma all_ended_done a w (f : Fiber hval) :
  heap_get a w = Some f -> exists g, heap_get a (all_ended w) = Some g /\ is_Some (fiber_Wait g).
Proof.
  intros Hf. eexists. split; [by apply all_ended_get|].
  destruct f as [id c [[|] res]]; cbn; by eexists.
Qed.

Definition p_pick (_ : pw) : Side := RightSide.

Lemma p_branches_end settle reason ctx l r : Pairs.branches_end p_pick settle reason ctx l r.
Proof.
  split.
  - intros ld rd o w st [Hl Hr] Hd. apply p_wait_ends.
    destruct (all_ended_done _ _ _ Hl) as (f & Hf & [x Hx]), (all_ended_done _ _ _ Hr) as (g & Hg & [y Hy]).
    unfold select_at, runner_at. rewrite Hf; cbn. rewrite Hg; cbn. unfold ready_side; cbn.
    unfold fiber_Wait, Wait in Hx, Hy.
    destruct (done (terminal f)) eqn:Ef, (done (terminal g)) eqn:Eg; [|done..].
    destruct ld, rd; [..|done]; cbn; rewrite ?Ef, ?Eg; cbn; repeat case_match; eauto.
  - intros pc ld rd o w st [Hl Hr] Hpc. apply p_wait_ends.
    destruct (all_ended_done _ _ _ Hl) as (f & Hf & [x Hx]), (all_ended_done _ _ _ Hr) as (g & Hg & [y Hy]).
    unfold await_at, runner_at. rewrite Hf; cbn. rewrite Hg; cbn.
    destruct pc; [done|cbn; rewrite Hx; cbn; by eexists|cbn; rewrite Hy; cbn; by eexists].
Qed.

Definition p_started : pw :=
  snd (startPair_at (F := quiet_release) p_error p_nil p_go 0 1 background p_state WTick WTick
         (snd (heap_new (T := Scope hval quiet_release) NewScope p_world))).

(** A race both branches of which have ended when it looks: the right one is taken. *)
Lemma pairs_run_the_machine_witness :
  exists idl idr st w2,
  pair_reachable settleOnSuccess ErrRaceLost idl idr st /\ wait_returned st
  /\ cells_hold 0 1 (fst st) w2
  /\ fiber_Wait (leftFiber (fst st)) = Some (pair_Left (runner_outcome (fst st)))
  /\ fiber_Wait (rightFiber (fst st)) = Some (pair_Right (runner_outcome (fst st)))
  /\ runs p_error over p_zero
       (Race (F := quiet_release) p_error over p_zero p_nil p_stuck call_pwork p_go 0 p_pick ticking ticking)
       p_interp p_world
     = match scope_Close (F := quiet_release) p_nil 1 background (ExitSuccess (erase (runner_outcome (fst st))))
               ErrRaceLost w2 with
       | (inl cleanup, w3) => (composeCleanup (firstSuccess (runner_outcome (fst st)) ErrRaceLost) cleanup, w3)
       | (inr p, w3) => (ExitFailure (DieCause (capture p)), w3)
       end.
Proof.
  pose proof (pairs_run_the_machine (F := quiet_release) p_error over p_zero p_nil p_stuck call_pwork p_go 0 p_pick
    (C := Z) ticking ticking settleOnSuccess ErrRaceLost firstSuccess p_interp p_world 0 1 p_started) as Hruns.
  apply Hruns; [vm_compute; reflexivity..|apply p_private|apply p_private|apply p_branches_end].
Defined.

(** ** A collection at once *)

Lemma p_group_ends ctx scope completions addresses :
  GroupsFacts.group_ends (F := quiet_release) p_nil ctx scope completions addresses (fun _ _ => True).
Proof.
  split; [| |done|done|].
  - intros c ready w k w' Hw [ch Hc] [s Hs]. change (pw_completions w !! completions = Some ch) in Hc.
    change (pw_scopes w !! scope = Some s) in Hs. cbn in Hw. unfold pw_waits in Hw.
    change (is_Some (pw_completions w' !! completions) /\ is_Some (pw_scopes w' !! scope)).
    destruct (ready w); [injection Hw as _ <-; eauto|].
    destruct (pw_ends c w); [injection Hw as _ <-; eauto|].
    destruct (ready (all_ended w)); [injection Hw as _ <-|done].
    split; [|by eexists]. unfold all_ended; cbn [pw_completions]. rewrite list_lookup_fmap, Hc. by eexists.
  - intros _ w _ [ch Hc]. apply p_wait_ends. change (pw_completions w !! completions = Some ch) in Hc.
    assert (heap_get completions (all_ended w) = Some (completion_sent ch)) as Hch.
    { change (pw_completions (all_ended w) !! completions = Some (completion_sent ch)).
      unfold all_ended; cbn [pw_completions]. by rewrite list_lookup_fmap, Hc. }
    unfold native_recv; cbn [mbind option_bind]. rewrite Hch; cbn. unfold completion_sent.
    destruct ch as [[|m ms] room senders closed]; cbn; destruct senders; by eexists.
  - intros a w Ha [f Hf]. apply p_wait_ends. destruct (all_ended_done _ _ _ Hf) as (g & Hg & [x Hx]).
    unfold waited_for. rewrite Hg; cbn. rewrite Hx; cbn. by eexists.
Qed.

Definition p_all : peffect (list Z) :=
  AllParN (F := quiet_release) p_error over p_zero p_nil p_stuck p_nil call_pwork p_go 0 p_branch
    [ticking; ticking; ticking] 2.

Definition p_all_started : pw :=
  snd (startAll_at (F := quiet_release) p_error p_nil p_stuck p_nil call_pwork p_go 0 p_branch 1 background
         p_state [WTick; WTick; WTick] 2 (snd (heap_new (T := Scope hval quiet_release) NewScope p_world))).

(** Three branches, two at a time. *)
Lemma traversals_wait_for_every_branch_witness :
  (exists permits v, started_in_order p_stuck p_nil call_pwork p_go p_branch (bounded 1) 0 permits 0
     [WTick; WTick; WTick] [0; 1; 2] v p_all_started)
  /\ exists exits w2, Forall2 (ended_with w2) [0; 1; 2] exits
  /\ runs p_error over p_zero p_all p_interp p_world
     = match scope_Close (F := quiet_release) p_nil 1 background (ExitSuccess (erase exits)) ErrSiblingFailed w2 with
       | (inl cleanup, w3) => (composeCleanup (collectResults (B := Z) exits) cleanup, w3)
       | (inr p, w3) => (ExitFailure (DieCause (capture p)), w3)
       end.
Proof.
  pose proof (traversals_wait_for_every_branch (F := quiet_release) p_error over p_zero p_nil p_stuck p_nil
    call_pwork p_go 0 p_branch [ticking; ticking; ticking] 2 call_ret p_interp p_world p_world p_all_started
    [WTick; WTick; WTick] 0 [0; 1; 2] (fun _ _ => True)) as Hall.
  destruct Hall as [_ Hall]; [vm_compute; reflexivity..|].
  destruct Hall as (_ & (permits & v & _ & Hstarted) & _ & Hruns);
    [done|vm_compute; reflexivity|intros a _; apply p_private|apply p_group_ends|done| | |].
  1, 2: by vm_compute; eexists.
  split; [by exists permits, v|exact Hruns].
Defined.

(** A fiber that ended with 7, observed by whoever asks. *)
Definition ended : Fiber hval := fiber_Complete (ExitSuccess (Some (HInt 7))) (NewFiber 1).
Definition p_ended : pw :=
  MkPw [NewScope] [ended] [MkIdentifiers 1 0] [] [] [] [] [0] 20 [] [].

Lemma observing_a_fiber_witness :
  fst (runs p_error over p_zero (Join p_stuck (MkFiberHandle 0) : peffect Z) p_interp p_ended)
  = ExitSuccess (Some (HInt 7))
  /\ exists w' : Exit hval * pw,
       runs p_error over p_zero (InterruptFiber p_nil p_stuck (MkFiberHandle 0) : peffect (Exit hval)) p_interp
         p_ended = w'
       /\ exists f' y, heap_get 0 (snd w') = Some f' /\ fiber_Wait f' = Some y
          /\ fst w' = ExitSuccess (erase y).
Proof.
  pose proof (observing_a_fiber p_error over p_zero p_nil p_stuck (R := unit) (E := Z) (A := Z) (MkFiberHandle 0) p_interp
    p_ended ended) as Hobserved.
  destruct Hobserved as (_ & _ & Hinterrupted & Hdone); [vm_compute; reflexivity..|].
  split.
  - rewrite (proj1 (Hdone (ExitSuccess (Some (HInt 7))) eq_refl)). reflexivity.
  - apply Hinterrupted. eexists. vm_compute. reflexivity.
Defined.

(** ** Queues *)

#[export] Program Instance hval_QueueHandle : Erased hval QueueHandle := {|
  erase q := Some (HInt (Z.of_nat (queue_state q)));
  unerase v := MkQueueHandle (Z.to_nat (hval_int v))
|}.
Next Obligation. intros [n]; cbn. by rewrite Nat2Z.id. Qed.

Definition p_queue : @place pw Z := queue_place (MkQueueHandle 0).
Definition p_offered (l : list Z) : pw :=
  MkPw [NewScope] [] [] [] [] [] [set_items (new_store (NewQueue 2 backPressure)) l] [] 20 [] [].

(** There is room for 6, and 5 is what is taken first. *)
Lemma queue_effects_are_lock_sections_witness :
  fst (runs p_error over p_zero (OfferAt p_stuck p_queue 6%Z : peffect bool) p_interp (p_offered [5%Z]))
  = ExitSuccess (erase true)
  /\ fst (runs p_error over p_zero (TakeAt p_stuck p_queue : peffect (Receive Z)) p_interp (p_offered [5%Z; 6%Z]))
     = ExitSuccess (erase (MkReceive 5%Z true)).
Proof.
  split.
  - pose proof (queue_effects_are_lock_sections p_stuck (R := unit) (E := Z) p_error over p_zero p_queue 6%Z p_interp
      (p_offered [5%Z])) as Hboth. destruct Hboth as [Hoffer _]; [reflexivity|].
    specialize (Hoffer (Answered true false) (p_offered [5%Z; 6%Z]) ltac:(vm_compute; reflexivity)).
    cbn beta iota in Hoffer. by rewrite Hoffer.
  - pose proof (queue_effects_are_lock_sections p_stuck (R := unit) (E := Z) p_error over p_zero p_queue 0%Z p_interp
      (p_offered [5%Z; 6%Z])) as Hboth. destruct Hboth as [_ Htake]; [reflexivity|].
    specialize (Htake (Taken 5%Z true false) (p_offered [6%Z]) ltac:(vm_compute; reflexivity)).
    cbn beta iota in Htake. by rewrite Htake.
Defined.

(** ** Runtimes *)

Definition p_clock : @Clock hval pw scoped_ctx := MkClock (call_ret 0%Z) (fun _ _ => call_ret None).
Definition p_source : Source := MkSource (fun _ => (EmptyString, false, None)) (fun _ => ([], None)).

(** A clock of the application's own, and work to be counted. *)
Lemma NewRuntime_applies_options_witness :
  exists state ledger w',
  NewRuntime (Attr := string) (F := quiet_release) p_clock tt tt (fun _ _ => call_ret tt) p_source
    [Some (WithClock (Some p_clock)); Some WithDebugTracking] p_world
  = (inl (inl (MkRuntime (Some state) 1 ledger, MkIdentifiers 0 0)), w')
  /\ pw_scopes w' = [NewScope; NewScope] /\ is_Some ledger.
Proof.
  destruct (NewRuntime_applies_options (V := hval) (Attr := string) (F := quiet_release) p_clock tt tt
    (fun _ _ => call_ret tt) p_source [Some (WithClock (Some p_clock)); Some WithDebugTracking] p_world)
    as (state & ledger & w' & Hnew & _ & Hscopes & _ & Htracked).
  exists state, ledger, w'. exact (conj Hnew (conj Hscopes (Htracked eq_refl))).
Defined.

(** Two releases to run, the first registered failing with 1 and the other with 2,
    and a logger that cannot be flushed. *)
Definition p_root : Scope hval quiet_release :=
  MkScope scopeOpen (zero (Exit hval)) None 0 [refuses_to_release 1; refuses_to_release 2].
Definition p_closing : pw := MkPw [p_root] [] [MkIdentifiers 0 0] [] [] [] [] [] 20 [] [].
Definition p_runtime : @Runtime hval pw scoped_ctx string unit unit := MkRuntime (Some p_state) 0 None.
Definition p_logger (_ : unit) : option (scoped_ctx -> call hval pw (option error)) :=
  Some (fun _ => call_ret (Some over)).

Lemma Close_releases_then_flushes_witness :
  match fst (Runtime_Close (F := quiet_release) (fun _ => EmptyString) p_nil p_nil "stack" (fun _ => HInt 96)
               (fun _ => None) p_logger (Some p_runtime) background p_closing) with
  | inl cause => map Failure (leaves cause) = [Some (HInt 2); Some (HInt 1); None]
  | inr _ => False
  end.
Proof.
  assert (quiet_state (T := Scope hval quiet_release) p_state) as Hquiet.
  { split_and!; [intros w; by exists 0%Z, w|done..]. }
  pose proof (Close_releases_then_flushes (F := quiet_release) (fun _ => EmptyString) p_nil p_nil "stack"
    (fun _ => HInt 96) (fun _ => None) p_logger p_runtime p_state background p_closing) as Hclosed.
  destruct Hclosed as (start & w1 & Hstart & _ & Hclose); [reflexivity..|exact Hquiet|].
  vm_compute in Hstart. injection Hstart as <- <-.
  destruct (Hclose p_root eq_refl) as [_ Hopen].
  destruct (Hopen eq_refl [FailCause (Some (HInt 2)); FailCause (Some (HInt 1))] _ _
    ltac:(vm_compute; reflexivity) ltac:(vm_compute; reflexivity)) as (cause & Hleaves & Heq).
  rewrite Heq. cbn -[Then leaves]. rewrite !leaves_Then, Hleaves. vm_compute. reflexivity.
Defined.

(** ** Environments *)

(** A number, and an interface that numbers implement. *)
Inductive service_type : Type := Pricing | Shop.

#[export] Instance service_type_eq : EqDecision service_type.
Proof. solve_decision. Defined.
#[export] Instance service_type_countable : Countable service_type.
Proof.
  refine (inj_countable' (fun t => match t with Pricing => true | Shop => false end)
    (fun b : bool => if b then Pricing else Shop) _). by intros [].
Defined.

#[export] Instance service_names : TypeNames service_type hval := {|
  rtype_String t := match t with Pricing => "app.Pricing" | Shop => "app.Shop" end;
  fits _ v := match v with HInt _ => True | _ => False end
|}.

Definition hval_number (v : hval) : option Z := match v with HInt z => Some z | _ => None end.

Lemma hval_number_fits (v : hval) : match v with HInt _ => True | _ => False end <-> is_Some (hval_number v).
Proof. destruct v; cbn; split; (eauto || done || by intros []). Qed.

#[export] Program Instance pricing_service : ServiceType service_type hval Z := {|
  TypeFor := Pricing; as_any z := Some (HInt z); assertion := hval_number
|}.
Next Obligation. by intros a v [= <-]. Qed.
Next Obligation. apply hval_number_fits. Qed.

(** A shop is an interface value: nil, or a number that implements it. *)
Record shop : Type := MkShop { shop_value : option Z }.
#[export] Program Instance shop_service : ServiceType service_type hval shop := {|
  TypeFor := Shop;
  as_any s := HInt <$> shop_value s;
  assertion v := (fun z => MkShop (Some z)) <$> hval_number v
|}.
Next Obligation. intros [[z|]] v Hv; [|done]. cbn in Hv. by injection Hv as <-. Qed.
Next Obligation. intros v. rewrite fmap_is_Some. apply hval_number_fits. Qed.

(** A shop registered as nil is held without being found, and does not hide the
    number; the environment it is completed with provides one. *)
Lemma services_hold_their_types_witness :
  let s := With (With Empty 7%Z) (MkShop None) in
  Resolve Z s = Some 7%Z /\ Resolve shop s = None
  /\ Resolve shop (WithAll s (With Empty (MkShop (Some 3%Z)))) = Some (MkShop (Some 3%Z)).
Proof.
  assert (provided (With Empty 7%Z)) as Hz by (apply provided_With, provided_Empty).
  assert (provided (With (With Empty 7%Z) (MkShop None))) as Hs by (by apply provided_With).
  destruct (services_hold_their_types (With Empty 7%Z) Hz) as (_ & _ & Hwith & _).
  destruct (services_hold_their_types _ Hs) as (_ & Hresolve & _ & Hall).
  split_and!.
  - rewrite (proj2 (Hwith shop _ (MkShop None)) Z _); [|done]. vm_compute. reflexivity.
  - apply Hresolve. right. vm_compute. reflexivity.
  - rewrite Hall. vm_compute. reflexivity.
Defined.
